(* ===== verification/_CoqProject ===== *)
-Q . S2P
Prelude.v
Cuop.v
Wasm.v
Lower.v
LowerInv.v
LowerSafety.v
EnvTable.v
Module.v
ModuleSteps.v
ModuleFacts.v
ModuleTables.v
Engine.v
EngineFrame.v
EngineSlice.v
Verify.v
VerifyFacts.v
VerifyComplete.v
EngineNum.v
EngineMem.v
EngineInv.v
EngineSafe.v
EngineSound.v
Capi.v
CapiFacts.v
Handover.v
Loadable.v
EngineEnds.v
RunEnds.v
Behaviours.v
Dispatch.v
DispatchFacts.v
BTree.v
Profile.v
ProfileFacts.v
Text.v
Wastprep.v
WastprepFacts.v
AssertReader.v
AssertReaderFacts.v
Catalog.v
CatalogFacts.v
WasmProfile.v
WasmProfileFacts.v
Harness.v
HarnessFacts.v
Oracle.v
Structured.v
WasmFuel.v
WasmProgram.v
StackTyping.v
Backpatch.v
LowerTree.v
LowerBack.v
LowerBlocks.v
EngineView.v
ViewCalls.v
ViewHost.v
LowerNum.v
LowerMem.v
LowerOps.v
LowerBulk.v
LowerBasic.v
StackSound.v
LowerSim.v
LowerOutcome.v
LowerCalls.v
LowerCorrect.v
LowerDiverge.v
LowerTyped.v
LowerRun.v
LowerResults.v
LowerLink.v
LowerProgram.v
TypedLoads.v
TypedRuns.v
TypedResults.v
OracleFacts.v
HarnessRuns.v
