(* ===== verification/Prelude.v ===== *)
(** * A verification development for CuWasm

    CuWasm runs WebAssembly smart contracts on GPUs.  A Rust crate
    ([tools/src/lib.rs]) translates a WASM binary to CuOp, a fixed-width
    instruction set; the C++ side takes the result over a C boundary
    ([src/translate.cpp]), verifies it ([src/verify.cpp]) and interprets it
    ([include/cuwasm/interp.h]) on the CPU ([src/run.cpp]) or in a CUDA kernel.  Host
    functions are numbered by the position of their entry in
    [docs/soroban-env.json]; the translator ([tools/src/env_fn_id.rs]) and the
    contract-test dispatcher ([tools/contract-tests/src/env_ids.rs]) each build that
    numbering.

    ** Files

    - [Prelude] (this file): machine integers, the three outcomes of a Rust call ([Ok],
      [Err], [Panic]), the state monad [St] with its weakest preconditions ([wp], and
      [wlp] for what is concluded from success), the class [NoPanic], list and length
      lemmas.
    - [Cuop]: the opcodes, [CuOpC], [FuncMetaC] (top of [lib.rs]).
    - [Wasm]: the operators and types of [wasmparser] that [lib.rs] matches on.
      [wasmparser] itself is not modelled: its readers deliver [item]s, a value or a
      read error, and the sequence of payloads of a binary is an argument of
      [Module.translate_wasm].
    - [Lower]: [lower_operators] with one definition per arm of its match and one
      per helper; the state [LState] is the function's locals and its [&mut]
      arguments (code, constant pool, operand height, dead flag, control stack).
    - [LowerInv], [LowerSafety]: the invariant of the pass ([Linv]) kept by every
      primitive and arm, and its consequences for a body.
    - [EnvTable]: both host-function tables over an environment description, and the
      repository's own description ([soroban_env]).
    - [Module]: [translate_wasm]: one definition per section arm, the trap stub for
      rejected bodies, and the assembly of memory, data and table.
    - [ModuleSteps], [ModuleFacts], [ModuleTables]: the payload loop as a step
      relation ([tstep]), and what a translated module satisfies.
    - [Engine]: [run_instance] and [run_cpu].  [Machine] is [VmState] with the two
      stacks and the instance's mutable arrays; an access outside an array is the
      outcome [UB].
    - [EngineFrame]: what an op leaves alone (class [Quiet]); [EngineSlice]: time
      slices of the driver; [EngineNum], [EngineMem]: arithmetic and memory.
    - [Verify], [VerifyFacts]: [verify_cuop], its termination, and the height
      assignment ([typed], [verified]) an accepted function has.  [VerifyComplete]: a
      function that has one is accepted.
    - [EngineInv], [EngineSafe], [EngineSound]: the run-time invariant [Inv] relating
      the stack pointer to the verifier's heights, kept by data ops and by control.
    - [Capi], [CapiFacts]: [cuwasm_translate_wasm], [cuwasm_translate_free] and
      [cuwasm::translate_wasm] of [src/translate.cpp] over a heap of allocations.
      [Handover]: a translated module crosses the boundary exactly when it is [exportable],
      and then unchanged ([hand_over_iff]).
    - [Loadable]: loading ([module_load]: translate, cross the boundary, verify;
      [module_load_capi] says that it is [cuwasm_module_load] of [src/capi.cpp]), what the
      translator guarantees of every module ([translated]), and that with acceptance it
      gives all that soundness needs but [residual].
    - [EngineEnds], [RunEnds]: what an op does to the program counter, the frames and the
      fuel (class [Steady]), a measure on them that every op but a tail call decreases, and
      that runs of a loaded module end.
    - [Behaviours]: small modules taken through translation, verification and a run,
      at the seams where no part checks.
    - [Structured]: a reference semantics of WebAssembly with structured control,
      independent of CuOp: bodies as trees of blocks, operands a block cannot look below,
      branches that unwind to their label, tail calls, calls through a table, segments
      that can be dropped, and an environment that answers host calls and is shown the
      trace of the earlier ones ([run], [call]).
    - [WasmProgram]: the program the sections of a binary describe, in the terms of
      [Structured] ([wasm_program]), and what CuWasm makes of it, with [unreachable] for a
      body the lowering gives up ([program_of]; [program_of_source] in [LowerProgram]
      relates the two).  [StackTyping]: the stack typing of such programs, as
      in WebAssembly's validation ([program_typed]).
    - [Backpatch], [LowerTree], [LowerBack], [LowerBlocks]: what the backpatching pass
      leaves in the code, as a relation between a tree and a span of ops ([code_for]).
      [Backpatch] follows the placeholders, [LowerBack] the arms without blocks,
      [LowerBlocks] blocks, loops and [if]s.
    - [EngineView], [ViewCalls], [ViewHost]: what of a [Machine] determines a run
      ([View]), and rules for engine code from a view ([does]), for runs ([goes]), for
      calls, and for the driver's part of a host call.
    - [LowerNum], [LowerMem], [LowerOps], [LowerBulk], [LowerBasic]: each operator without
      control is simulated by its ops.  [LowerSim], [LowerOutcome], [LowerCalls],
      [LowerCorrect]: branches, blocks, loops, the four kinds of call and returns, by
      induction on the fuel of the reference semantics ([sims]).
      [LowerRun]: the CPU driver on a module linked to a program ([linked]).
      [LowerDiverge]: while the reference semantics has no result, the machine goes on
      ([lasts]), by at least one op per loop turn and call; [LowerResults]: so the driver
      ends with nothing else than the program's results or a bound.
      [LowerLink], [LowerProgram]: a module that loads is linked to the program of its
      sections.
    - [StackSound]: stack typing is sound for the reference semantics.  [LowerTyped],
      [TypedLoads], [TypedRuns]: the code of a typed body has heights the verifier accepts,
      so that a typed module loads, and runs without getting stuck.  [TypedResults]: what
      can be concluded from a result, and from the lack of one.
    - [Dispatch], [DispatchFacts]: the contract-test dispatcher of host calls
      ([tools/contract-tests/src/dispatch.rs]).  The soroban crates are arguments: the
      class [ValRepr] is the representation of a value, [ValLaws] its documented
      layout, [HostOps] the host's functions.
    - [BTree]: [BTreeMap] counters as sorted association lists, and stable sorting, for
      the tools that count ([bump], [tally], [sort_by]).
    - [Profile], [ProfileFacts]: the interpreter's opcode counters, the driver with a
      profile ([run_cpu_p]), and the report of
      [tools/contract-tests/src/bin/emit-profiles.rs].
    - [Text]: byte strings with the [str] operations the tools use, slicing panics
      included, and the numbers of the C library.
    - [Wastprep], [WastprepFacts]: the two passes of [tools/src/bin/wastprep.rs] over a
      script.  [AssertReader], [AssertReaderFacts]: [parse_wast_assertions] of
      [src/run.cpp], which the C++ tests use.  [Catalog], [CatalogFacts]: the cases of
      [tools/src/bin/wast-catalog.rs].  [WasmProfile], [WasmProfileFacts]: the inventory of
      [tools/src/bin/wasm-profile.rs].
    - [Harness], [HarnessFacts]: [run_cuwasm_profile] of
      [tools/contract-tests/src/lib.rs] over [Loadable], [Profile] and [Dispatch], and the
      mailbox bridge and runs of [src/capi.cpp].  [HarnessRuns] puts it together with the
      correctness of the translation.

    - [Oracle], [OracleFacts]: the two programs whose output the tests compare,
      [tools/src/bin/oracle.rs] over [wasmi] and [src/main_cpu.cpp] over this engine.  The
      functions of [wasmi] are the class [Wasmi].  [WasmFuel]: a call of the reference
      semantics has one result at most.

    ** What the theorems show

    - Correctness of the translation: a module that loads runs as the program its
      sections describe, from the sections to the results of the CPU driver
      ([module_runs_program]); the lowering with backpatching produces structured code
      ([lower_structured]).  Throughout, the called function is [callable]: its parameters
      and locals fit the stack, which nothing checks.
    - Acceptance: the verifier accepts exactly what has a height assignment
      ([verify_cuop_iff]), and the translation of a typed module does, so that it loads if
      it can cross the C boundary ([typed_module_loads]).  On a typed program the
      reference semantics is never stuck, so that the calls of a typed module run as its
      program does, without a hypothesis on the outcome ([typed_module_runs]).
    - Results: conversely, the engine ends a call of a typed module with nothing but what
      the program gives, or at one of its bounds, which is where a call without a result
      ends ([typed_results_exact], [diverging_call_exhausts]; both for modules without
      [memory.grow], whose memory size survives the end of a slice).
    - Termination: every call of a [callable] function of a loaded module without tail
      calls and with nothing left of [residual] ends, within a bound computed from its
      code, if the host keeps the sizes ([loaded_runs_finish]).
    - Lowering: a well-nested body becomes a closed span of code, earlier functions'
      code and constants are untouched even on errors, no index panics
      ([lower_operators_targets], [lower_operators_frame], [lower_operators_no_panic]).
    - Translation: the first functions of a module are its imports, the others disjoint
      closed spans; memory sizes, memory image, segment descriptors, signatures, imports
      and table are those of the sections ([translate_wasm_functions],
      [translate_wasm_memory], [translate_wasm_signatures], [translate_wasm_imports],
      [translate_wasm_table], [type_fingerprint_faithful], [translate_wasm_no_panic]); the
      two host-function tables agree ([lookup_agrees], [lookup_rejects],
      [soroban_env_numbering]).
    - Verification and execution: the verifier ends ([verify_terminates]) and is
      sound for any sequence of runs of [callable] functions with a host that is [host_ok],
      given what it does not check ([verified_run_safe]); for a module that loads that is
      [residual] ([loaded_runs_safe]); slices are unobservable
      without [memory.grow] ([run_cpu_slices]); wide arithmetic, [clz], loads, stores
      and overlapping copies compute their mathematical meaning.
    - Boundary: what is handed over is read back and freed exactly
      ([export_free_roundtrip], [error_free_roundtrip]).
    - Host calls: a call stays inside the guest's memory, changes only what it should
      and reports errors in bounds ([host_dispatch_spec]); values and results survive
      the translation between host and guest ([write_read_vals], [result_decodes]).
    - Harness: the dispatcher discharges what the engine asks of a host function
      ([EngineSound.host_ok]), so that running a contract is safe whatever the soroban
      host does ([harness_sound]), and arguments come back as themselves ([harness_echo]).
      A contract that ends is run to its end, in slices of the fixed number of ops the
      harness uses ([harness_runs_program]).  A host function has a state of its own, on
      which theorems carry an invariant.
    - Tools: profiling changes nothing and its counts add up ([run_cpu_profile],
      [merge_profiles_accounts], [profile_counts]); the passes over a script end, find
      what they should and agree ([extract_modules_segments], [script_passes_agree],
      [assertion_roundtrip], [readers_agree]); catalogue cases are well formed and run on
      the right module ([catalog_wellformed], [catalog_calls_last_module]).  Where [wasmi]
      runs a module, of which the lowering gives up no body, as WebAssembly says, oracle
      and command line agree ([oracle_agrees]).
    - Seams: [rejected_body_traps] and [entry_locals_bound]; besides,
      [locals_overrun_stack], [growth_lost_across_host_call],
      [indirect_import_runs_first_function], [tail_calls_never_end], [dead_else_rejected],
      [nul_export_panics], [missing_body_frees_wrong_size], [relative_handle_wraps],
      [named_invoke_uses_current] and [wastprep_limits] show where the code does not do
      what it means to.

    ** Bounds and fuel

    Integers are [Z] with every cast and wrap written out.  The worklist of the
    verifier runs with [code_len + 1] rounds, which [verify_terminates] proves to be
    enough.  The interpreter takes the source's own [max_steps]; the driver's
    unbounded loop takes a number of rounds, and theorems quantify over it
    ([run_cpu_slices] states that some number is enough exactly when the run ends,
    [loaded_runs_finish] that [run_bound] is).
    The loops over a script have the text's length plus one as fuel, which
    [extract_modules_segments] and [script_passes_agree] prove to be enough.
    Lists stand for vectors: counts that the source truncates to 32 bits are
    truncated here, and theorems that need no truncation say so.

    ** Not modelled

    The CUDA runner and GPU host functions (device memory around the same
    interpreter), disassembly, file and console output but that of the oracle and the
    command line, the set-up of the soroban test host, and the tool that only wraps [wat].

    The reference semantics covers every operator the translator accepts.  It is stuck on
    programs that validation rejects and in four cases where the engine departs from
    WebAssembly or an assumption about the host fails: an environment that breaks the
    interface ([reply_ok]: other than 64-bit results, as many as the import declares, or
    a memory of the same length), a call to the host after memory has grown (the engine
    forgets the growth, [growth_lost_across_host_call]), a table entry that is an import
    ([indirect_import_runs_first_function]), and a tail call of an import or of a function
    with another number of results.  It gives a result for enough fuel;
    [module_runs_program] turns any such fuel into a number of engine steps.  The engine's
    own bounds (stack slots, frames, back-edge fuel) are no part of WebAssembly, so a run
    may also end there.  That a typed program is stuck in no other case is what
    [StackSound] shows; its hypotheses ([program_closed], [well_behaved]) exclude the four.
    When the reference semantics gives no result for any fuel, the run of a module
    without [memory.grow] ends at a bound or not at all ([LowerResults]), and without tail
    calls it ends ([diverging_call_exhausts]). *)

From stdpp Require Import base list strings gmap.

Local Open Scope Z_scope.

(** ** Machine integers

    A Rust [u16], [u32], [u64], [i32] or [i64] is a [Z]; an [as] cast and a
    wrapping operation is one of the following reductions. *)

Definition u8 (z : Z) : Z := z mod 2 ^ 8.
Definition u16 (z : Z) : Z := z mod 2 ^ 16.
Definition u32 (z : Z) : Z := z mod 2 ^ 32.
Definition u64 (z : Z) : Z := z mod 2 ^ 64.
Definition i32 (z : Z) : Z := (z + 2 ^ 31) mod 2 ^ 32 - 2 ^ 31.
Definition i64 (z : Z) : Z := (z + 2 ^ 63) mod 2 ^ 64 - 2 ^ 63.

(** [x.len()] of a vector, as the mathematical integer it is. *)
Definition len {A} (l : list A) : Z := Z.of_nat (length l).

(** ** Outcomes

    A Rust computation returns, fails with an error value ([Result::Err]) or
    panics.  Error texts are kept: a literal message, or a format string with
    its arguments. *)

Inductive rust_err :=
  | msg (s : string)
  | fmt_z (s : string) (n : Z)
  | fmt_s (s : string) (args : list string).

Inductive outcome (A : Type) :=
  | Ok (a : A)
  | Err (e : rust_err)
  | Panic (why : string).
Arguments Ok {A} _.
Arguments Err {A} _.
Arguments Panic {A} _.

#[export] Instance rust_err_eq_dec : EqDecision rust_err.
Proof. solve_decision. Defined.
#[export] Instance outcome_eq_dec {A} `{EqDecision A} : EqDecision (outcome A).
Proof. solve_decision. Defined.

(** The [?] operator on plain values. *)
#[export] Instance outcome_ret : MRet outcome := fun A a => Ok a.
#[export] Instance outcome_bind : MBind outcome := fun A B f m =>
  match m with Ok a => f a | Err e => Err e | Panic w => Panic w end.

Definition ok_or {A} (o : option A) (e : rust_err) : outcome A :=
  match o with Some a => Ok a | None => Err e end.

(** An outcome that is a value or an error. *)
Class NoPanic {A} (o : outcome A) : Prop := no_panic : ∀ w, o ≠ Panic w.

#[export] Instance Ok_no_panic {A} (a : A) : NoPanic (Ok a).
Proof. done. Qed.
#[export] Instance Err_no_panic {A} e : NoPanic (@Err A e).
Proof. done. Qed.
#[export] Instance ok_or_no_panic {A} (o : option A) e : NoPanic (ok_or o e).
Proof. by destruct o. Qed.
#[export] Instance if_no_panic {A} (b : bool) (x y : outcome A) :
  NoPanic x → NoPanic y → NoPanic (if b then x else y).
Proof. by destruct b. Qed.

Lemma bind_no_panic {A B} (o : outcome A) (f : A → outcome B) :
  NoPanic o → (∀ a, o = Ok a → NoPanic (f a)) → NoPanic (o ≫= f).
Proof. intros Ho Hf w. destruct o; simpl; [by apply Hf|done|by destruct (Ho why)]. Qed.

(** Case analysis along the code's matches, binds and conditionals. *)
Ltac no_panic_tac :=
  repeat first
    [ apply _
    | apply bind_no_panic; [|intros ? _]
    | match goal with |- NoPanic (match ?x with _ => _ end) => destruct x end ].

(** A result that passes a boolean test, found by evaluation. *)
Lemma ok_such_that {A} (o : outcome A) (f : A → bool) :
  match o with Ok a => f a | _ => false end = true → ∃ a, o = Ok a ∧ f a = true.
Proof. destruct o; [eauto | done..]. Qed.

(** ** The state and error monad

    Code that mutates vectors through [&mut] and returns [Result] is a function
    from the state to an outcome and the state it leaves: a failing computation
    keeps the effects it had before it failed. *)

Definition St (S A : Type) : Type := S → outcome A * S.

#[export] Instance St_ret {S} : MRet (St S) := fun A a s => (Ok a, s).
#[export] Instance St_bind {S} : MBind (St S) := fun A B f m s =>
  match m s with
  | (Ok a, s') => f a s'
  | (Err e, s') => (Err e, s')
  | (Panic w, s') => (Panic w, s')
  end.

Definition fail {S A} (e : rust_err) : St S A := fun s => (Err e, s).
Definition lift {S A} (o : outcome A) : St S A := fun s => (o, s).
Definition gets {S A} (f : S → A) : St S A := fun s => (Ok (f s), s).
Definition modify {S} (f : S → S) : St S unit := fun s => (Ok tt, f s).

(** [for x in l { body(x)? }] *)
Fixpoint for_each {S A} (l : list A) (body : A → St S unit) : St S unit :=
  match l with
  | [] => mret tt
  | x :: l' => body x ;; for_each l' body
  end.

(** ** Weakest preconditions

    [wp m Q E s]: from [s], [m] does not panic; if it returns [a] in [s'] then
    [Q a s'], and if it fails in [s'] then [E s']. *)

Definition wp {S A} (m : St S A) (Q : A → S → Prop) (E : S → Prop) (s : S) : Prop :=
  match m s with
  | (Ok a, s') => Q a s'
  | (Err _, s') => E s'
  | (Panic _, _) => False
  end.

Section wp_rules.
Context {S : Type}.
Implicit Types (s : S) (E : S → Prop).

Lemma wp_ret {A} (a : A) (Q : A → S → Prop) E s : Q a s → wp (mret a) Q E s.
Proof. done. Qed.

Lemma wp_bind {A B} (m : St S A) (f : A → St S B) (Q : B → S → Prop) E s :
  wp m (fun a s' => wp (f a) Q E s') E s → wp (m ≫= f) Q E s.
Proof. unfold wp, mbind, St_bind. by destruct (m s) as [[] ?]. Qed.

Lemma wp_mono {A} (m : St S A) (Q Q' : A → S → Prop) E (E' : S → Prop) s :
  wp m Q E s → (∀ a s', Q a s' → Q' a s') → (∀ s', E s' → E' s') → wp m Q' E' s.
Proof. unfold wp. destruct (m s) as [[] ?]; eauto. Qed.

Lemma wp_seq {A B} (m : St S A) (f : A → St S B) (Q : A → S → Prop)
    (Q' : B → S → Prop) E s :
  wp m Q E s → (∀ a s', Q a s' → wp (f a) Q' E s') → wp (m ≫= f) Q' E s.
Proof. intros. apply wp_bind. eapply wp_mono; eauto. Qed.

Lemma wp_fail {A} e (Q : A → S → Prop) E s : E s → wp (fail e) Q E s.
Proof. done. Qed.

Lemma wp_lift {A} (o : outcome A) (Q : A → S → Prop) E s :
  (∀ a, o = Ok a → Q a s) → (∀ e, o = Err e → E s) → (∀ w, o ≠ Panic w) →
  wp (lift o) Q E s.
Proof. unfold wp, lift. destruct o; naive_solver. Qed.

Lemma wp_gets {A} (f : S → A) (Q : A → S → Prop) E s :
  Q (f s) s → wp (gets f) Q E s.
Proof. done. Qed.

Lemma wp_modify (f : S → S) (Q : unit → S → Prop) E s :
  Q tt (f s) → wp (modify f) Q E s.
Proof. done. Qed.

(** The loop rule: an invariant indexed by the elements still to visit. *)
Lemma wp_for_each {A} (l : list A) (body : A → St S unit) (I : list A → S → Prop) E s :
  I l s →
  (∀ x l' s', I (x :: l') s' → wp (body x) (fun _ s'' => I l' s'') E s') →
  wp (for_each l body) (fun _ s' => I [] s') E s.
Proof.
  intros HI Hbody. induction l as [|x l IH] in s, HI |- *; simpl.
  - by apply wp_ret.
  - apply wp_bind. eapply wp_mono; [by apply Hbody | | done].
    intros [] s' ?. by apply IH.
Qed.

(** An outcome read off a weakest precondition. *)
Lemma wp_ok {A} (m : St S A) (Q : A → S → Prop) E s a s' :
  wp m Q E s → m s = (Ok a, s') → Q a s'.
Proof. unfold wp. intros H Hm. by rewrite Hm in H. Qed.

Lemma wp_err {A} (m : St S A) (Q : A → S → Prop) E s e s' :
  wp m Q E s → m s = (Err e, s') → E s'.
Proof. unfold wp. intros H Hm. by rewrite Hm in H. Qed.

Lemma wp_no_panic {A} (m : St S A) (Q : A → S → Prop) E s w s' :
  wp m Q E s → m s ≠ (Panic w, s').
Proof. unfold wp. intros H Hm. by rewrite Hm in H. Qed.
End wp_rules.

(** If [m] returns, [Q] holds of what it returns; it may fail or panic. *)
Definition wlp {S A} (m : St S A) (Q : A → S → Prop) (s : S) : Prop := ∀ a s', m s = (Ok a, s') → Q a s'.

Section wlp_rules.
Context {S : Type}.
Implicit Types (s : S).

Lemma wlp_ret {A} (a : A) (Q : A → S → Prop) s : Q a s → wlp (mret a) Q s.
Proof. intros H ? ? [= <- <-]. exact H. Qed.

Lemma wlp_seq {A B} (m : St S A) (f : A → St S B) (Q : A → S → Prop) (Q' : B → S → Prop) s :
  wlp m Q s → (∀ a s', Q a s' → wlp (f a) Q' s') → wlp (m ≫= f) Q' s.
Proof.
  intros Hm Hf b s' H. unfold mbind, St_bind in H. destruct (m s) as [[a| |] s1] eqn:E; [|done..].
  by eapply Hf; [apply Hm|].
Qed.

Lemma wlp_wp {A} (m : St S A) (Q : A → S → Prop) E s : wp m Q E s → wlp m Q s.
Proof. intros H a s' Hm. unfold wp in H. by rewrite Hm in H. Qed.

Lemma wlp_fail {A} e (Q : A → S → Prop) s : wlp (fail e) Q s.
Proof. done. Qed.

Lemma wlp_lift {A B} (o : outcome A) (f : A → St S B) (Q : B → S → Prop) s :
  (∀ a, o = Ok a → wlp (f a) Q s) → wlp (lift o ≫= f) Q s.
Proof. intros H b s'. destruct o as [a| |]; [by apply H|done..]. Qed.

Lemma wlp_gets {A B} (g : S → A) (f : A → St S B) (Q : B → S → Prop) s : wlp (f (g s)) Q s → wlp (gets g ≫= f) Q s.
Proof. done. Qed.

Lemma wlp_modify (f : S → S) (Q : unit → S → Prop) s : Q tt (f s) → wlp (modify f) Q s.
Proof. intros H [] s' [= <-]. exact H. Qed.

Lemma wlp_modify_seq {B} (f : S → S) (g : unit → St S B) (Q : B → S → Prop) s :
  wlp (g tt) Q (f s) → wlp (modify f ≫= g) Q s.
Proof. done. Qed.
End wlp_rules.

(** ** Tactics *)

(** Membership in appended lists, by propositional reasoning. *)
Ltac mem_tauto :=
  repeat (rewrite elem_of_app || rewrite elem_of_cons || rewrite elem_of_nil); tauto.

(** ** Facts on machine integers and lengths *)

Create HintDb cuwasm.

Lemma u16_range z : 0 ≤ u16 z < 2 ^ 16.
Proof. by apply Z.mod_pos_bound. Qed.
Lemma u32_range z : 0 ≤ u32 z < 2 ^ 32.
Proof. by apply Z.mod_pos_bound. Qed.
Lemma u64_range z : 0 ≤ u64 z < 2 ^ 64.
Proof. by apply Z.mod_pos_bound. Qed.
Lemma i32_range z : - 2 ^ 31 ≤ i32 z < 2 ^ 31.
Proof. unfold i32. pose proof (Z.mod_pos_bound (z + 2 ^ 31) (2 ^ 32)). lia. Qed.

Lemma u16_id z : 0 ≤ z < 2 ^ 16 → u16 z = z.
Proof. apply Z.mod_small. Qed.
Lemma u32_id z : 0 ≤ z < 2 ^ 32 → u32 z = z.
Proof. apply Z.mod_small. Qed.
Lemma u64_id z : 0 ≤ z < 2 ^ 64 → u64 z = z.
Proof. apply Z.mod_small. Qed.
Lemma i32_id z : - 2 ^ 31 ≤ z < 2 ^ 31 → i32 z = z.
Proof. intros. unfold i32. rewrite Z.mod_small; lia. Qed.
Lemma i32_u32 z : i32 (u32 z) = i32 z.
Proof. unfold i32, u32. by rewrite Zplus_mod_idemp_l. Qed.
Lemma u32_i32 z : u32 (i32 z) = u32 z.
Proof.
  unfold i32, u32. rewrite Zminus_mod_idemp_l. f_equal. lia.
Qed.

(** Disjoint bits: or is addition. *)
Lemma lor_u16 a b : 0 ≤ a < 2 ^ 16 → 0 ≤ b < 2 ^ 16 → Z.lor a b < 2 ^ 16.
Proof.
  intros Ha Hb. destruct (decide (Z.lor a b = 0)) as [->|Hne]; [lia|].
  apply Z.log2_lt_pow2; [assert (0 ≤ Z.lor a b) by (apply Z.lor_nonneg; lia); lia|].
  rewrite Z.log2_lor by lia. apply Z.max_lub_lt.
  - destruct (decide (a = 0)) as [->|]; [done|]. apply Z.log2_lt_pow2; lia.
  - destruct (decide (b = 0)) as [->|]; [done|]. apply Z.log2_lt_pow2; lia.
Qed.

Lemma lor_shiftl x t n : 0 ≤ n → 0 ≤ x < 2 ^ n → 0 ≤ t → Z.lor x (Z.shiftl t n) = x + t * 2 ^ n.
Proof.
  intros Hn Hx Ht. rewrite <-Z.shiftl_mul_pow2 by done. symmetry. apply Z.add_nocarry_lor.
  apply Z.bits_inj'. intros i Hi. rewrite Z.land_spec, Z.bits_0.
  destruct (decide (i < n)).
  - rewrite Z.shiftl_spec_low by done. apply andb_false_r.
  - destruct (decide (x = 0)) as [->|]; [by rewrite Z.bits_0|].
    rewrite Z.bits_above_log2; [done|lia|]. apply Z.log2_lt_pow2; [lia|]. eapply Z.lt_le_trans; [apply Hx|]. apply Z.pow_le_mono_r; lia.
Qed.

Lemma len_nonneg {A} (l : list A) : 0 ≤ len l.
Proof. unfold len. lia. Qed.
Lemma len_nil {A} : len (@nil A) = 0.
Proof. done. Qed.
Lemma len_cons {A} (x : A) l : len (x :: l) = len l + 1.
Proof. unfold len. simpl. lia. Qed.
Lemma len_app {A} (l k : list A) : len (l ++ k) = len l + len k.
Proof. unfold len. rewrite length_app. lia. Qed.
Lemma len_insert {A} i (x : A) l : len (<[i:=x]> l) = len l.
Proof. unfold len. by rewrite length_insert. Qed.
Lemma len_replicate {A} n (x : A) : len (replicate n x) = Z.of_nat n.
Proof. unfold len. by rewrite length_replicate. Qed.

#[export] Hint Resolve u16_range u32_range u64_range i32_range len_nonneg : cuwasm.
Create Rewrite HintDb len.
#[export] Hint Rewrite @len_nil @len_cons @len_app @len_insert @len_replicate : len.
