(* ===== verification/Cuop.v ===== *)
(** * CuOp: the fixed-width instruction set

    The opcode numbers, the instruction and function records and the module
    limits that [tools/src/lib.rs] declares at its top, before the lowering.
    [include/cuwasm/cuop.h] declares the same enumeration for the engine. *)

From S2P Require Import Prelude.
From stdpp Require Import base list.

Local Open Scope Z_scope.

Definition OP_UNREACHABLE : Z := 0.
Definition OP_I64_CONST : Z := 1.
Definition OP_LOCAL_GET : Z := 2.
Definition OP_LOCAL_SET : Z := 3.
Definition OP_I64_ADD : Z := 4.
Definition OP_I64_SUB : Z := 5.
Definition OP_I64_EQ : Z := 6.
Definition OP_I64_EQZ : Z := 7.
Definition OP_I64_LE_S : Z := 8.
Definition OP_I64_LT_S : Z := 9.
Definition OP_BR : Z := 10.
Definition OP_BR_IF_NOT : Z := 11.
Definition OP_CALL : Z := 12.
Definition OP_RETURN_CALL : Z := 13.
Definition OP_RETURN : Z := 14.
Definition OP_END_FUNC : Z := 15.
Definition OP_DROP : Z := 16.
Definition OP_SELECT : Z := 17.
Definition OP_I32_EQZ : Z := 18.
Definition OP_I32_EQ : Z := 19.
Definition OP_I32_NE : Z := 20.
Definition OP_I32_LT_S : Z := 21.
Definition OP_I32_LT_U : Z := 22.
Definition OP_I32_LE_S : Z := 23.
Definition OP_I32_LE_U : Z := 24.
Definition OP_I32_GT_S : Z := 25.
Definition OP_I32_GT_U : Z := 26.
Definition OP_I32_GE_S : Z := 27.
Definition OP_I32_GE_U : Z := 28.
Definition OP_I32_ADD : Z := 29.
Definition OP_I32_SUB : Z := 30.
Definition OP_I32_MUL : Z := 31.
Definition OP_I32_AND : Z := 32.
Definition OP_I32_OR : Z := 33.
Definition OP_I32_XOR : Z := 34.
Definition OP_I32_DIV_S : Z := 35.
Definition OP_I32_DIV_U : Z := 36.
Definition OP_I32_REM_S : Z := 37.
Definition OP_I32_REM_U : Z := 38.
Definition OP_I32_SHL : Z := 39.
Definition OP_I32_SHR_S : Z := 40.
Definition OP_I32_SHR_U : Z := 41.
Definition OP_I32_WRAP_I64 : Z := 42.
Definition OP_I64_NE : Z := 43.
Definition OP_I64_LT_U : Z := 44.
Definition OP_I64_LE_U : Z := 45.
Definition OP_I64_GT_S : Z := 46.
Definition OP_I64_GT_U : Z := 47.
Definition OP_I64_GE_S : Z := 48.
Definition OP_I64_GE_U : Z := 49.
Definition OP_I64_MUL : Z := 50.
Definition OP_I64_AND : Z := 51.
Definition OP_I64_OR : Z := 52.
Definition OP_I64_XOR : Z := 53.
Definition OP_I64_DIV_S : Z := 54.
Definition OP_I64_DIV_U : Z := 55.
Definition OP_I64_REM_S : Z := 56.
Definition OP_I64_REM_U : Z := 57.
Definition OP_I64_SHL : Z := 58.
Definition OP_I64_SHR_S : Z := 59.
Definition OP_I64_SHR_U : Z := 60.
Definition OP_I64_EXTEND_I32_S : Z := 61.
Definition OP_I64_EXTEND_I32_U : Z := 62.
Definition OP_GLOBAL_GET : Z := 63.
Definition OP_GLOBAL_SET : Z := 64.
Definition OP_UNWIND : Z := 65.
Definition OP_I64_MUL_WIDE_S : Z := 66.
Definition OP_I64_MUL_WIDE_U : Z := 67.
Definition OP_I64_ADD128 : Z := 68.
Definition OP_I64_SUB128 : Z := 69.
Definition OP_LOAD : Z := 70.
Definition OP_STORE : Z := 71.
Definition OP_MEMORY_SIZE : Z := 72.
Definition OP_MEMORY_GROW : Z := 73.
Definition OP_MEMORY_COPY : Z := 74.
Definition OP_MEMORY_FILL : Z := 75.
Definition OP_MEMORY_INIT : Z := 76.
Definition OP_DATA_DROP : Z := 77.
Definition OP_CALL_HOST : Z := 78.
Definition OP_CALL_INDIRECT : Z := 79.
Definition OP_CLZ : Z := 80.

Definition WASM_PAGE : Z := 65536.
Definition CUWASM_MEM_MAX_PAGES : Z := 1024.
Definition TABLE_NULL : Z := 4294967295.

(** One instruction: [cu_op] and [cu_a] are [u16], [cu_b] is [u32]. *)
Record CuOpC := mkCuOp { cu_op : Z; cu_a : Z; cu_b : Z }.

Record FuncMetaC := mkFuncMeta {
  fm_code_off : Z;
  fm_code_len : Z;
  fm_n_params : Z;
  fm_n_results : Z;
  fm_n_locals : Z;
  fm_max_stack : Z }.

#[export] Instance CuOpC_eq_dec : EqDecision CuOpC.
Proof. solve_decision. Defined.
#[export] Instance FuncMetaC_eq_dec : EqDecision FuncMetaC.
Proof. solve_decision. Defined.

(** The two opcodes whose [cu_b] is a code address. *)
Definition is_branch (i : CuOpC) : bool :=
  (i.(cu_op) =? OP_BR) || (i.(cu_op) =? OP_BR_IF_NOT).
