(* ===== verification/Wasm.v ===== *)
(** * The decoder's view of a WASM module

    [tools/src/lib.rs] reads a module through the crate [wasmparser]: an
    iterator of section payloads whose readers yield items or read errors.  The
    types below name the parts of that data the source looks at, with the
    crate's constructor names; everything the source sends to a catch-all arm
    ([_ =>], [other =>]) is one constructor carrying its debug text.  The parser
    itself is not modelled: it is an argument of [translate_wasm]. *)

From S2P Require Import Prelude.
From stdpp Require Import base list strings.

Local Open Scope Z_scope.

Inductive ValType :=
  | I32
  | I64
  | F32
  | F64
  | OtherVal (dbg : string).

#[export] Instance ValType_eq_dec : EqDecision ValType.
Proof. solve_decision. Defined.

Inductive BlockType :=
  | BtEmpty
  | BtType (t : ValType)
  | BtFuncType (idx : Z).

Record MemArg := mkMemArg { ma_offset : Z; ma_memory : Z }.

(** What a section reader or an operator iterator yields. *)
Inductive item (A : Type) :=
  | Item (x : A)
  | ReadErr (e : string).
Arguments Item {A} _.
Arguments ReadErr {A} _.

(** [it.map_err(|e| format!("<ctx>: {e}"))?] *)
Definition read {A} (ctx : string) (it : item A) : outcome A :=
  match it with Item x => Ok x | ReadErr e => Err (fmt_s ctx [e]) end.

Inductive Operator :=
  | Nop | Unreachable
  | I64Const (value : Z) | I32Const (value : Z)
  | F32Const (bits : Z) | F64Const (bits : Z)
  | Drop | Select | TypedSelect
  | I32Eqz | I32Eq | I32Ne | I32LtS | I32LtU | I32LeS | I32LeU
  | I32GtS | I32GtU | I32GeS | I32GeU
  | I32Add | I32Sub | I32Mul | I32And | I32Or | I32Xor
  | I32DivS | I32DivU | I32RemS | I32RemU | I32Shl | I32ShrS | I32ShrU
  | I32WrapI64
  | I64Eqz | I64Eq | I64Ne | I64LtS | I64LtU | I64LeS | I64LeU
  | I64GtS | I64GtU | I64GeS | I64GeU
  | I64Add | I64Sub | I64Mul | I64And | I64Or | I64Xor
  | I64DivS | I64DivU | I64RemS | I64RemU | I64Shl | I64ShrS | I64ShrU
  | I64Extend32S | I64ExtendI32S | I64ExtendI32U
  | I64MulWideS | I64MulWideU | I64Add128 | I64Sub128
  | I32Clz | I64Clz
  | I32ReinterpretF32 | F32ReinterpretI32 | I64ReinterpretF64 | F64ReinterpretI64
  | GlobalGet (global_index : Z) | GlobalSet (global_index : Z)
  | LocalGet (local_index : Z) | LocalSet (local_index : Z) | LocalTee (local_index : Z)
  | Block (blockty : BlockType) | Loop (blockty : BlockType) | If (blockty : BlockType)
  | Else | End
  | Br (relative_depth : Z) | BrIf (relative_depth : Z)
  | BrTable (default : Z) (targets : list (item Z))
  | Return
  | Call (function_index : Z) | ReturnCall (function_index : Z)
  | CallIndirect (type_index table_index : Z)
  | I32Load (memarg : MemArg) | I64Load (memarg : MemArg)
  | I32Load8S (memarg : MemArg) | I32Load8U (memarg : MemArg)
  | I32Load16S (memarg : MemArg) | I32Load16U (memarg : MemArg)
  | I64Load8S (memarg : MemArg) | I64Load8U (memarg : MemArg)
  | I64Load16S (memarg : MemArg) | I64Load16U (memarg : MemArg)
  | I64Load32S (memarg : MemArg) | I64Load32U (memarg : MemArg)
  | F32Load (memarg : MemArg) | F64Load (memarg : MemArg)
  | I32Store (memarg : MemArg) | I64Store (memarg : MemArg)
  | I32Store8 (memarg : MemArg) | I32Store16 (memarg : MemArg)
  | I64Store8 (memarg : MemArg) | I64Store16 (memarg : MemArg)
  | I64Store32 (memarg : MemArg)
  | F32Store (memarg : MemArg) | F64Store (memarg : MemArg)
  | MemorySize (mem : Z) | MemoryGrow (mem : Z)
  | MemoryCopy (dst_mem src_mem : Z) | MemoryFill (mem : Z)
  | MemoryInit (data_index mem : Z) | DataDrop (data_index : Z)
  | RefFunc (function_index : Z) | RefNull
  | OtherOp (dbg : string).

(** A function type, as [lib.rs] keeps it: parameter and result types. *)
Abbreviation FuncType := (list ValType * list ValType)%type.
