(* ===== verification/Lower.v ===== *)
(** * Lowering one function body

    The helpers and the single pass of [lower_operators] in
    [tools/src/lib.rs]: WASM operators in, CuOps out, with forward branches
    emitted as placeholders and patched when their label's position is known.

    The vectors the pass mutates ([code], [consts]) and its local variables
    ([h], [dead], [ctrl]) are the fields of [LState]; a failing body keeps the
    ops and constants it had emitted, as the [&mut] parameters do. *)

From S2P Require Import Prelude Cuop Wasm.
From stdpp Require Import base list strings.

Local Open Scope Z_scope.

(** ** Data *)

Inductive CtrlKind := KFunc | KBlock | KLoop | KIf.

#[export] Instance CtrlKind_eq_dec : EqDecision CtrlKind.
Proof. solve_decision. Defined.

Record Ctrl := mkCtrl {
  kind : CtrlKind;
  start : Z;
  br_if_not : option Z;
  else_br : option Z;
  patches : list Z;
  has_else : bool;
  base : Z;
  c_n_params : Z;
  c_n_results : Z;
  dead_on_entry : bool }.

(** [ctrl] is a stack: the list's head is the vector's last element. *)
Record LState := mkLState {
  st_code : list CuOpC;
  st_consts : list Z;
  st_h : Z;
  st_dead : bool;
  st_ctrl : list Ctrl }.

Definition set_code (f : list CuOpC → list CuOpC) (s : LState) : LState :=
  mkLState (f s.(st_code)) s.(st_consts) s.(st_h) s.(st_dead) s.(st_ctrl).
Definition set_consts (k : list Z) (s : LState) : LState :=
  mkLState s.(st_code) k s.(st_h) s.(st_dead) s.(st_ctrl).
Definition set_h (h : Z) (s : LState) : LState :=
  mkLState s.(st_code) s.(st_consts) h s.(st_dead) s.(st_ctrl).
Definition set_dead (d : bool) (s : LState) : LState :=
  mkLState s.(st_code) s.(st_consts) s.(st_h) d s.(st_ctrl).
Definition set_ctrl (k : list Ctrl) (s : LState) : LState :=
  mkLState s.(st_code) s.(st_consts) s.(st_h) s.(st_dead) k.

Abbreviation LM := (St LState).

(** What [lower_operators] is given for the whole body: the function's
    signature and locals (after the scratch slot is reserved), the module's
    types and the import table. *)
Record FnEnv := mkFnEnv {
  e_n_params : Z;
  e_n_results : Z;
  e_n_locals : Z;
  e_scratch : option Z;
  e_func_types : list FuncType;
  e_func_typeidx : list Z;
  e_n_imports : Z;
  e_host_fn_ids : list Z }.

(** ** Helpers *)

Definition val_tag (t : ValType) : outcome Z :=
  match t with
  | I32 => Ok 0
  | I64 => Ok 1
  | F32 => Ok 2
  | F64 => Ok 3
  | OtherVal d => Err (fmt_s "unsupported valtype {:?}" [d])
  end.

(** [for (i, t) in ts.iter().enumerate() { fp |= tag(t)? << (sh + 2 * i) }] *)
Fixpoint fp_tags (sh i : Z) (ts : list ValType) (fp : Z) : outcome Z :=
  match ts with
  | [] => Ok fp
  | t :: ts' =>
      tg ← val_tag t;
      fp_tags sh (i + 1) ts' (Z.lor fp (u64 (Z.shiftl tg (sh + 2 * i))))
  end.

Definition type_fingerprint (params results : list ValType) : outcome Z :=
  if (8 <? len params) || (8 <? len results)
  then Err (msg "too many params/results for type fingerprint")
  else
    let fp := Z.lor (u64 (len params)) (u64 (Z.shiftl (len results) 8)) in
    fp ← fp_tags 16 0 params fp;
    fp_tags 32 0 results fp.

Definition load_flags (nbytes : Z) (signed i64dest : bool) : Z :=
  Z.lor (Z.lor nbytes (if signed then 16 else 0)) (if i64dest then 32 else 0).

Definition check_memarg (memarg : MemArg) : outcome Z :=
  if negb (memarg.(ma_memory) =? 0) then Err (msg "multi-memory not supported")
  else if 2 ^ 32 - 1 <? memarg.(ma_offset) then Err (msg "memory64 offset")
  else Ok (u32 memarg.(ma_offset)).

(** The constant-expression evaluator; [st] is its [i32] stack, top first. *)
Definition constexpr_binop (f : Z → Z → Z) (st : list Z) : outcome (list Z) :=
  match st with
  | y :: x :: st' => Ok (i32 (f x y) :: st')
  | _ => Err (msg "constexpr underflow")
  end.

Definition constexpr_step (st : list Z) (o : Operator) : outcome (list Z) :=
  match o with
  | I32Const value => Ok (value :: st)
  | I32Add => constexpr_binop Z.add st
  | I32Sub => constexpr_binop Z.sub st
  | I32Mul => constexpr_binop Z.mul st
  | End => Ok st
  | GlobalGet _ => Err (msg "imported global in offset expr")
  | _ => Err (msg "unsupported constexpr {other:?}")
  end.

Fixpoint constexpr_run (ops : list (item Operator)) (st : list Z) : outcome (list Z) :=
  match ops with
  | [] => Ok st
  | it :: ops' =>
      o ← read "constexpr: {e}" it;
      st' ← constexpr_step st o;
      constexpr_run ops' st'
  end.

Definition eval_i32_expr (ops : list (item Operator)) : outcome Z :=
  st ← constexpr_run ops [];
  match st with
  | v :: _ => Ok (u32 v)
  | [] => Err (msg "empty constexpr")
  end.

(** [consts.iter().position(|&x| x == v)] *)
Fixpoint position (v : Z) (l : list Z) : option nat :=
  match l with
  | [] => None
  | x :: l' => if x =? v then Some 0%nat else S <$> position v l'
  end.

Definition intern (consts : list Z) (v : Z) : Z * list Z :=
  match position v consts with
  | Some i => (u32 (Z.of_nat i), consts)
  | None => (u32 (len consts), consts ++ [v])
  end.

Fixpoint only_int (ts : list ValType) : outcome unit :=
  match ts with
  | [] => Ok tt
  | OtherVal d :: _ => Err (fmt_s "unsupported valtype {:?}" [d])
  | _ :: ts' => only_int ts'
  end.

(** The vector index [len - 1 - depth], as the distance from the top. *)
Definition resolve_br (ctrl : list Ctrl) (depth : Z) : outcome nat :=
  if (1 + Z.to_nat depth <=? length ctrl)%nat then Ok (Z.to_nat depth)
  else Err (fmt_z "br depth {} out of range" depth).

Definition block_arity (ty : BlockType) (func_types : list FuncType) : outcome (Z * Z) :=
  match ty with
  | BtEmpty => Ok (0, 0)
  | BtType t =>
      if bool_decide (t ≠ I32) && bool_decide (t ≠ I64)
      then Err (msg "unsupported block valtype {:?}")
      else Ok (0, 1)
  | BtFuncType idx =>
      match func_types !! Z.to_nat idx with
      | None => Err (msg "block type index oob")
      | Some ft => Ok (u16 (len ft.1), u16 (len ft.2))
      end
  end.

Definition func_arity (function_index : Z) (func_types : list FuncType)
    (func_typeidx : list Z) : outcome (Z * Z) :=
  match func_typeidx !! Z.to_nat function_index with
  | None => Err (msg "call function index oob")
  | Some t =>
      match func_types !! Z.to_nat t with
      | None => Err (msg "call type index oob")
      | Some ft => Ok (u16 (len ft.1), u16 (len ft.2))
      end
  end.

Definition label_arity (c : Ctrl) : Z :=
  if bool_decide (c.(kind) = KLoop) then c.(c_n_params) else c.(c_n_results).

(** ** Primitive effects of the pass *)

Definition emit (op a b : Z) : LM Z :=
  pc ← gets (fun s => u32 (len s.(st_code)));
  modify (set_code (fun code => code ++ [mkCuOp op a b]));;
  mret pc.

Definition with_b (b : Z) (i : CuOpC) : CuOpC := mkCuOp i.(cu_op) i.(cu_a) b.

(** [code[pc as usize].b = b]: the index is checked. *)
Definition patch_b (pc b : Z) : LM unit := fun s =>
  if pc <? len s.(st_code)
  then (Ok tt, set_code (alter (with_b b) (Z.to_nat pc)) s)
  else (Panic "index out of bounds", s).

Definition code_len_u32 : LM Z := gets (fun s => u32 (len s.(st_code))).

Definition intern_m (v : Z) : LM Z := fun s =>
  let '(idx, consts) := intern s.(st_consts) v in (Ok idx, set_consts consts s).

Definition consume (pops pushes : Z) : LM unit := fun s =>
  if s.(st_dead) then (Ok tt, s)
  else if s.(st_h) <? pops then (Err (msg "operand stack underflow"), s)
  else (Ok tt, set_h (i32 (s.(st_h) - pops + pushes)) s).

Definition emit_unwind (h : Z) (c : Ctrl) (fn_params fn_locals : Z) : LM Z :=
  let dest_h := i32 (c.(base) + label_arity c) in
  if h <? dest_h then fail (msg "branch stack underflow")
  else if dest_h <? h then
    emit OP_UNWIND (u16 (label_arity c)) (u32 (fn_params + fn_locals + u32 dest_h));;
    mret dest_h
  else mret dest_h.

Definition push_ctrl (kd : CtrlKind) (start np nr : Z) : LM unit := fun s =>
  if negb s.(st_dead) && (s.(st_h) <? np)
  then (Err (msg "block params underflow"), s)
  else
    let base := if s.(st_dead) then 0 else i32 (s.(st_h) - np) in
    let c := mkCtrl kd start None None [] false base np nr s.(st_dead) in
    (Ok tt, set_ctrl (c :: s.(st_ctrl)) s).

Definition add_patch (pc : Z) (c : Ctrl) : Ctrl :=
  mkCtrl c.(kind) c.(start) c.(br_if_not) c.(else_br) (c.(patches) ++ [pc])
    c.(has_else) c.(base) c.(c_n_params) c.(c_n_results) c.(dead_on_entry).
Definition set_br_if_not (pc : Z) (c : Ctrl) : Ctrl :=
  mkCtrl c.(kind) c.(start) (Some pc) c.(else_br) c.(patches)
    c.(has_else) c.(base) c.(c_n_params) c.(c_n_results) c.(dead_on_entry).
Definition set_else_br (pc : Z) (c : Ctrl) : Ctrl :=
  mkCtrl c.(kind) c.(start) c.(br_if_not) (Some pc) c.(patches)
    true c.(base) c.(c_n_params) c.(c_n_results) c.(dead_on_entry).

(** [ctrl[idx]]: the index is checked. *)
Definition ctrl_at (idx : nat) : LM Ctrl := fun s =>
  match s.(st_ctrl) !! idx with
  | Some c => (Ok c, s)
  | None => (Panic "index out of bounds", s)
  end.

Definition emit_jump (idx : nat) : LM unit :=
  c ← ctrl_at idx;
  if bool_decide (c.(kind) = KLoop) then
    emit OP_BR 0 c.(start);; mret tt
  else
    pc ← emit OP_BR 0 0;
    modify (fun s => set_ctrl (alter (add_patch pc) idx s.(st_ctrl)) s).

(** ** The arms of the match

    Most arms are [emit(code, OP, 0, 0); consume(&mut h, dead, pops, pushes)?]:
    the tables give the opcode, the pops and the pushes of each. *)

Definition plain_stack (o : Operator) : option (Z * Z * Z) :=
  match o with
  | Drop => Some (OP_DROP, 1, 0)
  | Select => Some (OP_SELECT, 3, 1)
  | TypedSelect => Some (OP_SELECT, 3, 1)
  | _ => None
  end.

Definition plain_i32 (o : Operator) : option (Z * Z * Z) :=
  match o with
  | I32Eqz => Some (OP_I32_EQZ, 1, 1)
  | I32Eq => Some (OP_I32_EQ, 2, 1)
  | I32Ne => Some (OP_I32_NE, 2, 1)
  | I32LtS => Some (OP_I32_LT_S, 2, 1)
  | I32LtU => Some (OP_I32_LT_U, 2, 1)
  | I32LeS => Some (OP_I32_LE_S, 2, 1)
  | I32LeU => Some (OP_I32_LE_U, 2, 1)
  | I32GtS => Some (OP_I32_GT_S, 2, 1)
  | I32GtU => Some (OP_I32_GT_U, 2, 1)
  | I32GeS => Some (OP_I32_GE_S, 2, 1)
  | I32GeU => Some (OP_I32_GE_U, 2, 1)
  | I32Add => Some (OP_I32_ADD, 2, 1)
  | I32Sub => Some (OP_I32_SUB, 2, 1)
  | I32Mul => Some (OP_I32_MUL, 2, 1)
  | I32And => Some (OP_I32_AND, 2, 1)
  | I32Or => Some (OP_I32_OR, 2, 1)
  | I32Xor => Some (OP_I32_XOR, 2, 1)
  | I32DivS => Some (OP_I32_DIV_S, 2, 1)
  | I32DivU => Some (OP_I32_DIV_U, 2, 1)
  | I32RemS => Some (OP_I32_REM_S, 2, 1)
  | I32RemU => Some (OP_I32_REM_U, 2, 1)
  | I32Shl => Some (OP_I32_SHL, 2, 1)
  | I32ShrS => Some (OP_I32_SHR_S, 2, 1)
  | I32ShrU => Some (OP_I32_SHR_U, 2, 1)
  | I32WrapI64 => Some (OP_I32_WRAP_I64, 1, 1)
  | _ => None
  end.

Definition plain_i64 (o : Operator) : option (Z * Z * Z) :=
  match o with
  | I64Ne => Some (OP_I64_NE, 2, 1)
  | I64LtU => Some (OP_I64_LT_U, 2, 1)
  | I64LeU => Some (OP_I64_LE_U, 2, 1)
  | I64GtS => Some (OP_I64_GT_S, 2, 1)
  | I64GtU => Some (OP_I64_GT_U, 2, 1)
  | I64GeS => Some (OP_I64_GE_S, 2, 1)
  | I64GeU => Some (OP_I64_GE_U, 2, 1)
  | I64Mul => Some (OP_I64_MUL, 2, 1)
  | I64And => Some (OP_I64_AND, 2, 1)
  | I64Or => Some (OP_I64_OR, 2, 1)
  | I64Xor => Some (OP_I64_XOR, 2, 1)
  | I64DivS => Some (OP_I64_DIV_S, 2, 1)
  | I64DivU => Some (OP_I64_DIV_U, 2, 1)
  | I64RemS => Some (OP_I64_REM_S, 2, 1)
  | I64RemU => Some (OP_I64_REM_U, 2, 1)
  | I64Shl => Some (OP_I64_SHL, 2, 1)
  | I64ShrS => Some (OP_I64_SHR_S, 2, 1)
  | I64ShrU => Some (OP_I64_SHR_U, 2, 1)
  | I64Extend32S => Some (OP_I64_EXTEND_I32_S, 1, 1)
  | I64ExtendI32S => Some (OP_I64_EXTEND_I32_S, 1, 1)
  | I64ExtendI32U => Some (OP_I64_EXTEND_I32_U, 1, 1)
  | I64MulWideS => Some (OP_I64_MUL_WIDE_S, 2, 2)
  | I64MulWideU => Some (OP_I64_MUL_WIDE_U, 2, 2)
  | I64Add128 => Some (OP_I64_ADD128, 4, 2)
  | I64Sub128 => Some (OP_I64_SUB128, 4, 2)
  | _ => None
  end.

Definition plain_i64_core (o : Operator) : option (Z * Z * Z) :=
  match o with
  | I64Add => Some (OP_I64_ADD, 2, 1)
  | I64Sub => Some (OP_I64_SUB, 2, 1)
  | I64Eq => Some (OP_I64_EQ, 2, 1)
  | I64Eqz => Some (OP_I64_EQZ, 1, 1)
  | I64LeS => Some (OP_I64_LE_S, 2, 1)
  | I64LtS => Some (OP_I64_LT_S, 2, 1)
  | _ => None
  end.

Definition union4 {A} (x y z w : option A) : option A :=
  match x with Some r => Some r | None =>
  match y with Some r => Some r | None =>
  match z with Some r => Some r | None => w end end end.

Definition plain_op (o : Operator) : option (Z * Z * Z) :=
  union4 (plain_stack o) (plain_i32 o) (plain_i64 o) (plain_i64_core o).

(** The arms [let idx = intern(consts, v); emit(code, OP_I64_CONST, 0, idx);
    consume(&mut h, dead, 0, 1)?]: the pool value of each. *)
Definition int_const_op (o : Operator) : option Z :=
  match o with
  | I64Const value => Some (u64 value)
  | I32Const value => Some (u64 (u32 value))
  | _ => None
  end.

Definition float_const_op (o : Operator) : option Z :=
  match o with
  | F32Const bits => Some (u64 bits)
  | F64Const bits => Some bits
  | _ => None
  end.

Definition const_op (o : Operator) : option Z :=
  match int_const_op o with Some v => Some v | None => float_const_op o end.

(** The load arms: access width, sign extension, 64-bit destination. *)
Definition int_load_op (o : Operator) : option (Z * bool * bool * MemArg) :=
  match o with
  | I32Load m => Some (4, false, false, m)
  | I64Load m => Some (8, false, true, m)
  | I32Load8S m => Some (1, true, false, m)
  | I32Load8U m => Some (1, false, false, m)
  | I32Load16S m => Some (2, true, false, m)
  | I32Load16U m => Some (2, false, false, m)
  | I64Load8S m => Some (1, true, true, m)
  | I64Load8U m => Some (1, false, true, m)
  | I64Load16S m => Some (2, true, true, m)
  | I64Load16U m => Some (2, false, true, m)
  | I64Load32S m => Some (4, true, true, m)
  | I64Load32U m => Some (4, false, true, m)
  | _ => None
  end.

Definition float_load_op (o : Operator) : option (Z * bool * bool * MemArg) :=
  match o with
  | F32Load m => Some (4, false, false, m)
  | F64Load m => Some (8, false, true, m)
  | _ => None
  end.

Definition load_op (o : Operator) : option (Z * bool * bool * MemArg) :=
  match int_load_op o with Some r => Some r | None => float_load_op o end.

(** The store arms: access width. *)
Definition int_store_op (o : Operator) : option (Z * MemArg) :=
  match o with
  | I32Store m => Some (4, m)
  | I64Store m => Some (8, m)
  | I32Store8 m => Some (1, m)
  | I32Store16 m => Some (2, m)
  | I64Store8 m => Some (1, m)
  | I64Store16 m => Some (2, m)
  | I64Store32 m => Some (4, m)
  | _ => None
  end.

Definition float_store_op (o : Operator) : option (Z * MemArg) :=
  match o with
  | F32Store m => Some (4, m)
  | F64Store m => Some (8, m)
  | _ => None
  end.

Definition store_op (o : Operator) : option (Z * MemArg) :=
  match int_store_op o with Some r => Some r | None => float_store_op o end.

Definition const_arm (v : Z) : LM unit :=
  idx ← intern_m v;
  emit OP_I64_CONST 0 idx;;
  consume 0 1.

Definition plain_arm (o pops pushes : Z) : LM unit :=
  emit o 0 0;; consume pops pushes.

Definition load_arm (nbytes : Z) (signed i64dest : bool) (m : MemArg) : LM unit :=
  off ← lift (check_memarg m);
  emit OP_LOAD (load_flags nbytes signed i64dest) off;;
  consume 1 1.

Definition store_arm (nbytes : Z) (m : MemArg) : LM unit :=
  off ← lift (check_memarg m);
  emit OP_STORE nbytes off;;
  consume 2 0.

(** Globals and locals. *)
Definition variable_arm (o : Operator) : option (LM unit) :=
  match o with
  | GlobalGet global_index => Some (emit OP_GLOBAL_GET 0 global_index;; consume 0 1)
  | GlobalSet global_index => Some (emit OP_GLOBAL_SET 0 global_index;; consume 1 0)
  | LocalGet local_index => Some (emit OP_LOCAL_GET (u16 local_index) 0;; consume 0 1)
  | LocalSet local_index => Some (emit OP_LOCAL_SET (u16 local_index) 0;; consume 1 0)
  | LocalTee local_index =>
      Some (emit OP_LOCAL_SET (u16 local_index) 0;;
            emit OP_LOCAL_GET (u16 local_index) 0;; mret tt)
  | _ => None
  end.

Definition multi_memory {A} : LM A := fail (msg "multi-memory not supported").

(** Memory size, growth and the bulk operations. *)
Definition memory_arm (o : Operator) : option (LM unit) :=
  match o with
  | MemorySize mem =>
      Some (if negb (mem =? 0) then multi_memory
            else emit OP_MEMORY_SIZE 0 0;; consume 0 1)
  | MemoryGrow mem =>
      Some (if negb (mem =? 0) then multi_memory
            else emit OP_MEMORY_GROW 0 0;; consume 1 1)
  | MemoryCopy dst_mem src_mem =>
      Some (if negb (dst_mem =? 0) || negb (src_mem =? 0) then multi_memory
            else emit OP_MEMORY_COPY 0 0;; consume 3 0)
  | MemoryFill mem =>
      Some (if negb (mem =? 0) then multi_memory
            else emit OP_MEMORY_FILL 0 0;; consume 3 0)
  | MemoryInit data_index mem =>
      Some (if negb (mem =? 0) then multi_memory
            else emit OP_MEMORY_INIT (u16 data_index) 0;; consume 3 0)
  | DataDrop data_index => Some (emit OP_DATA_DROP (u16 data_index) 0;; mret tt)
  | _ => None
  end.

(** [clz] keeps its width in the op; a reinterpretation emits nothing. *)
Definition clz_arm (o : Operator) : option (LM unit) :=
  match o with
  | I32Clz => Some (emit OP_CLZ 32 0;; consume 1 1)
  | I64Clz => Some (emit OP_CLZ 64 0;; consume 1 1)
  | _ => None
  end.

Definition reinterpret_arm (o : Operator) : option (LM unit) :=
  match o with
  | I32ReinterpretF32 | F32ReinterpretI32 | I64ReinterpretF64 | F64ReinterpretI64 =>
      Some (consume 1 1)
  | _ => None
  end.

Definition simple_arm (o : Operator) : option (LM unit) :=
  union4 (variable_arm o) (memory_arm o) (clz_arm o) (reinterpret_arm o).

Section arms.
Context (E : FnEnv).

Definition block_arm (kd : CtrlKind) (blockty : BlockType) : LM unit :=
  '(np, nr) ← lift (block_arity blockty E.(e_func_types));
  pc ← code_len_u32;
  push_ctrl kd pc np nr.

(** [if let Some(c) = ctrl.last_mut() { c.br_if_not = Some(pc); }] *)
Definition mark_if (pc : Z) : LM unit :=
  modify (fun s => set_ctrl (alter (set_br_if_not pc) 0%nat s.(st_ctrl)) s).

Definition if_arm (blockty : BlockType) : LM unit :=
  '(np, nr) ← lift (block_arity blockty E.(e_func_types));
  consume 1 0;;
  pc ← emit OP_BR_IF_NOT 0 0;
  start ← code_len_u32;
  push_ctrl KIf start np nr;;
  mark_if pc.

Definition patch_opt (pc : option Z) (b : Z) : LM unit :=
  match pc with Some p => patch_b p b | None => mret tt end.

Definition else_arm : LM unit :=
  top ← gets (fun s => head s.(st_ctrl));
  match top with
  | None => fail (msg "else without if")
  | Some c =>
      if bool_decide (c.(kind) ≠ KIf) then fail (msg "else not in if")
      else
        br ← emit OP_BR 0 0;
        modify (fun s => set_ctrl (alter (set_else_br br) 0%nat s.(st_ctrl)) s);;
        dest ← code_len_u32;
        patch_opt c.(br_if_not) dest;;
        modify (fun s => set_dead false (set_h (i32 (c.(base) + c.(c_n_params))) s))
  end.

Definition pop_ctrl : LM Ctrl := fun s =>
  match s.(st_ctrl) with
  | c :: k => (Ok c, set_ctrl k s)
  | [] => (Err (msg "unmatched end"), s)
  end.

(** The join of an [if]: the jump over the else branch, or the test itself. *)
Definition patch_if (c : Ctrl) (join_pc : Z) : LM unit :=
  if bool_decide (c.(kind) = KIf) then
    if c.(has_else) then patch_opt c.(else_br) join_pc
    else patch_opt c.(br_if_not) join_pc
  else mret tt.

Definition end_arm : LM unit :=
  c ← pop_ctrl;
  join_pc ← (if bool_decide (c.(kind) = KFunc)
             then emit OP_END_FUNC E.(e_n_results) 0 else code_len_u32);
  patch_if c join_pc;;
  for_each c.(patches) (fun p => patch_b p join_pc);;
  modify (fun s => set_dead c.(dead_on_entry)
                     (set_h (i32 (c.(base) + c.(c_n_results))) s)).

(** [if !dead { emit_unwind(code, h, &ctrl[idx], n_params, n_locals)?; }] *)
Definition unwind_if_live (idx : nat) : LM unit :=
  dead ← gets st_dead;
  if (dead : bool) then mret tt
  else
    h ← gets st_h;
    c ← ctrl_at idx;
    emit_unwind h c E.(e_n_params) E.(e_n_locals);; mret tt.

Definition resolve_m (depth : Z) : LM nat :=
  ctrl ← gets st_ctrl; lift (resolve_br ctrl depth).

(** A branch to [depth]: shared by [br], [br_if] and [br_table]. *)
Definition branch_to (depth : Z) : LM unit :=
  idx ← resolve_m depth;
  unwind_if_live idx;;
  emit_jump idx.

Definition br_arm (relative_depth : Z) : LM unit :=
  branch_to relative_depth;; modify (set_dead true).

(** The conditional jump around a branch: the placeholder is patched to the
    op after it, and [h] is restored. *)
Definition br_skip (relative_depth : Z) : LM unit :=
  skip_placeholder ← emit OP_BR_IF_NOT 0 0;
  idx ← resolve_m relative_depth;
  saved_h ← gets st_h;
  unwind_if_live idx;;
  emit_jump idx;;
  modify (set_h saved_h);;
  dest ← code_len_u32;
  patch_b skip_placeholder dest.

Definition br_if_arm (relative_depth : Z) : LM unit :=
  consume 1 0;; br_skip relative_depth.

Fixpoint br_table_loop (scratch : Z) (i : Z) (depths : list Z) : LM unit :=
  match depths with
  | [] => mret tt
  | depth :: depths' =>
      idxc ← intern_m (u64 (u32 i));
      emit OP_LOCAL_GET scratch 0;;
      consume 0 1;;
      emit OP_I64_CONST 0 idxc;;
      consume 0 1;;
      emit OP_I32_EQ 0 0;;
      consume 2 1;;
      consume 1 0;;
      br_skip depth;;
      br_table_loop scratch (i + 1) depths'
  end.

Fixpoint read_depths (targets : list (item Z)) : outcome (list Z) :=
  match targets with
  | [] => Ok []
  | t :: targets' =>
      d ← read "br_table: {e}" t;
      ds ← read_depths targets';
      Ok (d :: ds)
  end.

Definition br_table_arm (default : Z) (targets : list (item Z)) : LM unit :=
  scratch ← lift (ok_or E.(e_scratch) (msg "br_table without scratch local"));
  depths ← lift (read_depths targets);
  emit OP_LOCAL_SET scratch 0;;
  consume 1 0;;
  br_table_loop scratch 0 depths;;
  branch_to default;;
  modify (set_dead true).

Definition return_arm : LM unit :=
  emit OP_RETURN E.(e_n_results) 0;; modify (set_dead true).

Definition call_arm (function_index : Z) : LM unit :=
  '(np, nr) ← lift (func_arity function_index E.(e_func_types) E.(e_func_typeidx));
  (if function_index <? E.(e_n_imports) then
     fn_id ← lift (ok_or (E.(e_host_fn_ids) !! Z.to_nat function_index)
                     (msg "host fn_id oob"));
     emit OP_CALL_HOST (Z.lor np (u16 (Z.shiftl nr 8))) fn_id
   else emit OP_CALL 0 function_index);;
  consume np nr.

Definition return_call_arm (function_index : Z) : LM unit :=
  if function_index <? E.(e_n_imports)
  then fail (msg "tail call to host import not supported")
  else emit OP_RETURN_CALL 0 function_index;; modify (set_dead true).

Definition call_indirect_arm (type_index table_index : Z) : LM unit :=
  if negb (table_index =? 0) then fail (msg "multi-table not supported")
  else
    match E.(e_func_types) !! Z.to_nat type_index with
    | None => fail (msg "call_indirect type oob")
    | Some ft =>
        emit OP_CALL_INDIRECT 0 type_index;;
        consume (1 + i32 (len ft.1)) (i32 (len ft.2))
    end.

(** One iteration of [for op in ops { match op { ... } }]. *)
Definition lower_op (o : Operator) : LM unit :=
  match plain_op o, const_op o, load_op o, store_op o with
  | Some (opc, pops, pushes), _, _, _ => plain_arm opc pops pushes
  | _, Some v, _, _ => const_arm v
  | _, _, Some (nbytes, signed, i64dest, m), _ => load_arm nbytes signed i64dest m
  | _, _, _, Some (nbytes, m) => store_arm nbytes m
  | _, _, _, _ =>
      match simple_arm o with
      | Some m => m
      | None =>
          match o with
          | Nop => mret tt
          | Unreachable => emit OP_UNREACHABLE 0 0;; modify (set_dead true)
          | Block blockty => block_arm KBlock blockty
          | Loop blockty => block_arm KLoop blockty
          | If blockty => if_arm blockty
          | Else => else_arm
          | End => end_arm
          | Br relative_depth => br_arm relative_depth
          | BrIf relative_depth => br_if_arm relative_depth
          | BrTable default targets => br_table_arm default targets
          | Return => return_arm
          | Call function_index => call_arm function_index
          | ReturnCall function_index => return_call_arm function_index
          | CallIndirect type_index table_index => call_indirect_arm type_index table_index
          | _ => fail (msg "unsupported wasm opcode: {:?}")
          end
      end
  end.
End arms.

(** ** The pass *)

Definition is_br_table (o : Operator) : bool :=
  match o with BrTable _ _ => true | _ => false end.

(** The scratch local of [br_table] and the locals count that makes room for it.
    The crate is built with [--release]: [n_params + n_locals - 1] wraps. *)
Definition reserve_scratch (ops : list Operator) (n_params n_locals : Z) : Z * option Z :=
  if existsb is_br_table ops then
    let n_locals := Z.min (n_locals + 1) (2 ^ 16 - 1) in
    (n_locals, Some (u16 (n_params + n_locals - 1)))
  else (n_locals, None).

Definition func_ctrl (code_off n_results : Z) : Ctrl :=
  mkCtrl KFunc code_off None None [] false 0 0 n_results false.

Definition lower_body (E : FnEnv) (ops : list Operator) : LM unit :=
  for_each ops (lower_op E);;
  ctrl ← gets st_ctrl;
  match ctrl with
  | [] => mret tt
  | _ :: _ => fail (msg "unclosed control blocks")
  end.

(** [lower_operators]: the outcome, and the code and constants it leaves. *)
Definition lower_operators (ops : list Operator) (n_params n_results n_locals : Z)
    (code : list CuOpC) (consts : list Z) (func_types : list FuncType)
    (func_typeidx : list Z) (n_imports : Z) (host_fn_ids : list Z) :
    outcome FuncMetaC * (list CuOpC * list Z) :=
  let code_off := u32 (len code) in
  let '(n_locals, scratch) := reserve_scratch ops n_params n_locals in
  let E := mkFnEnv n_params n_results n_locals scratch func_types func_typeidx
             n_imports host_fn_ids in
  let s0 := mkLState code consts 0 false [func_ctrl code_off n_results] in
  let '(r, s) := lower_body E ops s0 in
  let code_len := u32 (u32 (len s.(st_code)) - code_off) in
  (match r with
   | Ok _ => Ok (mkFuncMeta code_off code_len n_params n_results n_locals 0)
   | Err e => Err e
   | Panic w => Panic w
   end, (s.(st_code), s.(st_consts))).
