(* ===== verification/LowerInv.v ===== *)
(** * Invariants of the lowering pass

    What holds of the pass's state between two operators, and after an error:
    the code and the pool of the functions lowered before are untouched, the
    placeholders still to patch are branches of this function, every other
    branch of this function targets the function, and every constant index is
    in the pool.  Each primitive effect and each arm preserves it. *)

From S2P Require Import Prelude Cuop Wasm Lower.
From stdpp Require Import base list strings.

Local Open Scope Z_scope.

(** ** Nesting of the control operators

    A function body is a sequence of operators whose blocks are closed in order,
    with at most one [else] per [if], and which ends with the [end] of the
    function: the grammar of a WASM expression. *)

Definition shape (k : list Ctrl) : list (CtrlKind * bool) :=
  (fun c => (c.(kind), c.(has_else))) <$> k.

Fixpoint well_nested (k : list (CtrlKind * bool)) (ops : list Operator) : bool :=
  match ops, k with
  | [], _ => false
  | _ :: _, [] => false
  | Block _ :: ops', _ => well_nested ((KBlock, false) :: k) ops'
  | Loop _ :: ops', _ => well_nested ((KLoop, false) :: k) ops'
  | If _ :: ops', _ => well_nested ((KIf, false) :: k) ops'
  | Else :: ops', (KIf, false) :: k' => well_nested ((KIf, true) :: k') ops'
  | Else :: _, _ => false
  | End :: ops', (KFunc, _) :: k' => match ops', k' with [], [] => true | _, _ => false end
  | End :: ops', _ :: k' => well_nested k' ops'
  | _ :: ops', _ => well_nested k ops'
  end.

(** A whole body. *)
Definition wf_body (ops : list Operator) : bool := well_nested [(KFunc, false)] ops.

(** ** The invariant *)

(** The placeholders a control entry has recorded, and the ones among them that
    its [end] (or its [else]) still has to patch. *)
Definition holes (c : Ctrl) : list Z :=
  c.(patches) ++ option_list c.(br_if_not) ++ option_list c.(else_br).

Definition test_hole (c : Ctrl) : list Z :=
  if bool_decide (c.(kind) = KIf)
  then option_list (if c.(has_else) then c.(else_br) else c.(br_if_not)) else [].

Definition pend (c : Ctrl) : list Z := c.(patches) ++ test_hole c.

Definition all_holes (k : list Ctrl) : list Z := concat (holes <$> k).
Definition pends (k : list Ctrl) : list Z := concat (pend <$> k).

(** Addresses and pool indices fit [u32]. *)
Definition small (s : LState) : Prop :=
  len s.(st_code) < 2 ^ 32 ∧ len s.(st_consts) < 2 ^ 32.

(** *** Widths of the fields

    What the pass puts into an op, given that the numbers it takes over from the
    operators and the environment have their widths. *)

Definition u32_ok (z : Z) : bool := (0 <=? z) && (z <? 2 ^ 32).

Definition op_widths (o : Operator) : bool :=
  match o with
  | GlobalGet i | GlobalSet i | Call i | ReturnCall i | CallIndirect i _ => u32_ok i
  | _ => true
  end.

Record env_fits (E : FnEnv) : Prop := {
  ef_results : 0 ≤ E.(e_n_results) < 2 ^ 16;
  ef_scratch : ∀ sc, E.(e_scratch) = Some sc → 0 ≤ sc < 2 ^ 16;
  ef_ids : Forall (fun id => 0 ≤ id < 2 ^ 32) E.(e_host_fn_ids) }.

(** [ni]: the number of imported functions; a direct call is not to one of them. *)
Record op_fits (ni : Z) (i : CuOpC) : Prop := {
  of_a : 0 ≤ i.(cu_a) < 2 ^ 16;
  of_b : 0 ≤ i.(cu_b) < 2 ^ 32;
  of_clz : i.(cu_op) = OP_CLZ → i.(cu_a) = 32 ∨ i.(cu_a) = 64;
  of_call : i.(cu_op) = OP_CALL ∨ i.(cu_op) = OP_RETURN_CALL → ni ≤ i.(cu_b) }.

Definition calls_direct (o : Z) : bool := (o =? OP_CALL) || (o =? OP_RETURN_CALL).

Lemma op_fits_intro ni o x y :
  o ≠ OP_CLZ → calls_direct o = false → 0 ≤ x < 2 ^ 16 → 0 ≤ y < 2 ^ 32 →
  op_fits ni (mkCuOp o x y).
Proof.
  intros Hc Hd Hx Hy. split; simpl; try done. intros H. unfold calls_direct in Hd. lia.
Qed.

Section inv.
(** The code and pool before the function, whether its body is well nested (the
    claim on branch targets is for well-nested bodies), and the number of imports
    where the widths are known (the claim on fields is for those). *)
Context (C0 : list CuOpC) (K0 : list Z) (wn : bool) (wd : option Z).

Definition fits_op (i : CuOpC) : Prop := ∀ ni, wd = Some ni → op_fits ni i.

(** The target of a branch at [i]: in the function, up to [hi]; a conditional branch
    goes forward. *)
Definition aims (hi i : Z) (ins : CuOpC) : Prop :=
  len C0 ≤ ins.(cu_b) ≤ hi ∧ (ins.(cu_op) = OP_BR_IF_NOT → i < ins.(cu_b)).

(** [X]: placeholders held in local variables; [hi]: the bound on targets. *)
Record Lgood (hi : Z) (X : list Z) (s : LState) : Prop := {
  lg_prefix : C0 `prefix_of` s.(st_code);
  lg_starts : Forall (fun c => len C0 ≤ c.(start) ≤ len s.(st_code)) s.(st_ctrl);
  lg_pend : Forall (fun pc => len C0 ≤ pc ∧
    ∃ ins, s.(st_code) !! Z.to_nat pc = Some ins ∧ is_branch ins = true)
    (X ++ all_holes s.(st_ctrl));
  lg_branch : wn = true → ∀ (i : nat) ins,
    len C0 ≤ Z.of_nat i → s.(st_code) !! i = Some ins → is_branch ins = true →
    Z.of_nat i ∈ X ++ pends s.(st_ctrl) ∨ aims hi (Z.of_nat i) ins;
  lg_const : ∀ (i : nat) ins,
    len C0 ≤ Z.of_nat i → s.(st_code) !! i = Some ins → ins.(cu_op) = OP_I64_CONST →
    0 ≤ ins.(cu_b) < len s.(st_consts);
  lg_ops : ∀ (i : nat) ins, len C0 ≤ Z.of_nat i → s.(st_code) !! i = Some ins → fits_op ins }.

(** [d]: 0 while the body is open, 1 once its [end_func] is emitted. *)
Record Linv (d : Z) (k : list (CtrlKind * bool)) (X : list Z) (s : LState) : Prop := {
  li_shape : shape s.(st_ctrl) = k;
  li_d : 0 ≤ d ≤ 1;
  li_grow : len C0 + d ≤ len s.(st_code);
  li_consts : K0 `prefix_of` s.(st_consts);
  li_nodup : NoDup K0 → NoDup s.(st_consts);
  li_pend : Forall (fun pc => 0 ≤ pc < len s.(st_code) - d) (X ++ all_holes s.(st_ctrl));
  li_good : small s → Lgood (len s.(st_code) - d) X s }.

Definition Lerr (s : LState) : Prop := ∃ d k X, Linv d k X s.

Lemma Linv_err d k X s : Linv d k X s → Lerr s.
Proof. by exists d, k, X. Qed.

(** *** Effects on code *)

Lemma u32_len_le {A} (l : list A) : 0 ≤ u32 (len l) ≤ len l.
Proof.
  split; [apply u32_range|]. apply Z.mod_le; [apply len_nonneg | lia].
Qed.

Lemma lookup_snoc_cases {A} (l : list A) x (i : nat) y :
  (l ++ [x]) !! i = Some y → l !! i = Some y ∨ i = length l ∧ y = x.
Proof.
  rewrite lookup_app_Some. intros [?|[Hle Hx]]; [by left | right].
  apply list_lookup_singleton_Some in Hx as [? ->]. split; [lia | done].
Qed.

Definition snoc_code (ins : CuOpC) : LState → LState :=
  set_code (fun code => code ++ [ins]).

Lemma small_snoc ins s : small (snoc_code ins s) → small s.
Proof. unfold small, snoc_code; simpl. autorewrite with len. lia. Qed.

(** Appending an op: a branch either targets the function or is remembered. *)
Lemma Linv_emit d k X X' s ins :
  Linv 0 k X s → d = 0 ∨ d = 1 →
  X' = X ∨ X' = u32 (len s.(st_code)) :: X ∧ d = 0 ∧ is_branch ins = true →
  (small s → is_branch ins = true →
     u32 (len s.(st_code)) ∈ X' ∨ len C0 ≤ ins.(cu_b) ≤ len s.(st_code) ∧ ins.(cu_op) ≠ OP_BR_IF_NOT) →
  (small s → ins.(cu_op) = OP_I64_CONST → 0 ≤ ins.(cu_b) < len s.(st_consts)) →
  (small s → fits_op ins) →
  Linv d k X' (snoc_code ins s).
Proof.
  intros [Hk Hd01 Hgrow Hpre Hnd Hpend Hgood] Hd HX Hbr Hc Hf.
  pose proof (u32_len_le s.(st_code)) as Hu. split; try done; simpl.
  - lia.
  - autorewrite with len. lia.
  - autorewrite with len. destruct HX as [->|(-> & -> & _)]; simpl.
    + eapply Forall_impl; [exact Hpend | simpl; lia].
    + constructor; [lia|]. eapply Forall_impl; [exact Hpend | simpl; lia].
  - intros Hs%small_snoc. destruct (Hgood Hs) as [G1 G2 G3 G4 G5 G6].
    assert (u32 (len s.(st_code)) = len s.(st_code)) as Eu.
    { apply u32_id. destruct Hs. split; [apply len_nonneg | done]. }
    split; simpl; autorewrite with len.
    + by apply prefix_app_r.
    + eapply Forall_impl; [exact G2 | simpl; lia].
    + assert (Forall (fun pc => len C0 ≤ pc ∧ ∃ ins', (s.(st_code) ++ [ins]) !! Z.to_nat pc
          = Some ins' ∧ is_branch ins' = true) (X ++ all_holes s.(st_ctrl))) as G3'.
      { eapply Forall_impl; [exact G3|]. simpl. intros pc (? & ins' & ? & ?).
        split; [done|]. exists ins'. split; [by apply lookup_app_l_Some | done]. }
      destruct HX as [->|(-> & _ & Hib)]; simpl; [done | constructor; [|done]].
      split; [lia|]. exists ins. rewrite Eu. unfold len. rewrite Nat2Z.id.
      split; [by apply list_lookup_middle | done].
    + intros Hwn i ins' Hi [Hl|[-> ->]]%lookup_snoc_cases Hb.
      * destruct (G4 Hwn i ins' Hi Hl Hb) as [|[? ?]]; [left | right; split; [lia|done]].
        destruct HX as [->|[-> _]]; [done | by apply list_elem_of_further].
      * destruct (Hbr Hs Hb) as [Hin|[? ?]]; [left | right; split; [lia|done]].
        rewrite Eu in Hin. apply elem_of_app. by left.
    + intros i ins' Hi [Hl|[-> ->]]%lookup_snoc_cases Hop; eauto.
    + intros i ins' Hi [Hl|[-> ->]]%lookup_snoc_cases; eauto.
Qed.

Lemma branch_fits o x y :
  is_branch (mkCuOp o x y) = true → 0 ≤ x < 2 ^ 16 → 0 ≤ y < 2 ^ 32 → fits_op (mkCuOp o x y).
Proof.
  unfold is_branch. simpl. intros Hb Hx Hy ni _.
  assert (o = OP_BR ∨ o = OP_BR_IF_NOT) as [->| ->] by lia; by apply op_fits_intro.
Qed.

Lemma wp_emit_plain k X s o x y :
  Linv 0 k X s → is_branch (mkCuOp o x y) = false →
  (small s → o = OP_I64_CONST → 0 ≤ y < len s.(st_consts)) →
  (small s → fits_op (mkCuOp o x y)) →
  wp (emit o x y) (fun pc s' => Linv 0 k X s' ∧ Linv 1 k X s' ∧
                     pc = u32 (len s.(st_code)) ∧ s' = snoc_code (mkCuOp o x y) s)
    Lerr s.
Proof.
  intros HI Hb Hc Hf. unfold wp, emit, mbind, St_bind, gets, modify, mret, St_ret.
  split_and!; [..|done|done]; eapply Linv_emit; eauto; by rewrite Hb.
Qed.

(** A placeholder branch: its address joins the ones to patch. *)
Lemma wp_emit_hole k X s o x :
  Linv 0 k X s → is_branch (mkCuOp o x 0) = true → 0 ≤ x < 2 ^ 16 →
  wp (emit o x 0)
    (fun pc s' => Linv 0 k (pc :: X) s' ∧ pc = u32 (len s.(st_code)) ∧
                  s' = snoc_code (mkCuOp o x 0) s) Lerr s.
Proof.
  intros HI Ho Hx. unfold wp, emit, mbind, St_bind, gets, modify, mret, St_ret.
  split_and!; [|done..]. eapply Linv_emit; [done | by left | by right | | |].
  - intros _ _. left. by apply list_elem_of_here.
  - intros _. simpl. intros ->. done.
  - intros _. by apply branch_fits.
Qed.

(** A branch whose target is already known. *)
Lemma wp_emit_to k X s o x y :
  Linv 0 k X s → is_branch (mkCuOp o x y) = true → o ≠ OP_BR_IF_NOT → 0 ≤ x < 2 ^ 16 →
  (small s → len C0 ≤ y ≤ len s.(st_code)) →
  wp (emit o x y) (fun _ s' => Linv 0 k X s' ∧ s' = snoc_code (mkCuOp o x y) s) Lerr s.
Proof.
  intros HI Ho Hn Hx Hy. unfold wp, emit, mbind, St_bind, gets, modify, mret, St_ret.
  split; [|done]. eapply Linv_emit; [done | by left | by left | by auto | |].
  - intros _. simpl. intros ->. done.
  - intros Hs. specialize (Hy Hs). destruct Hs. pose proof (len_nonneg C0).
    apply branch_fits; [done..|lia].
Qed.

Definition patched (pc y : Z) (s : LState) : LState :=
  set_code (alter (with_b y) (Z.to_nat pc)) s.

Lemma lookup_patched pc y s (i : nat) ins :
  (patched pc y s).(st_code) !! i = Some ins →
  ∃ ins0, s.(st_code) !! i = Some ins0 ∧
    ins = (if decide (i = Z.to_nat pc) then with_b y ins0 else ins0).
Proof.
  simpl. case_decide as Hd.
  - subst i. rewrite list_lookup_alter_eq. intros (ins0 & ? & ?)%fmap_Some. eauto.
  - rewrite list_lookup_alter_ne by done. eauto.
Qed.

(** The address a placeholder is patched with: here, or the [end_func] just emitted. *)
Definition patch_ok (d y : Z) (s : LState) : Prop := small s → len C0 ≤ y ∧ y = len s.(st_code) - d.

(** Writing the target of a placeholder resolves it. *)
Lemma Linv_patch d k X s pc y :
  Linv d k (pc :: X) s → patch_ok d y s →
  Linv d k X (patched pc y s).
Proof.
  intros [Hk Hd01 Hgrow Hpre Hnd Hpend Hgood] Hy. apply Forall_cons in Hpend as [Hpc Hpend].
  split; try done; simpl; unfold len in *; rewrite ?length_alter; try done.
  intros Hs. assert (small s) as Hs0.
  { destruct Hs as [H1 H2]. simpl in *. unfold len in H1. rewrite length_alter in H1. done. }
  specialize (Hy Hs0). destruct (Hgood Hs0) as [G1 G2 [[Gpc Gbr] G3]%Forall_cons G4 G5 G6].
  split; simpl; rewrite ?length_alter; try done.
  - destruct G1 as [r Hr]. exists (alter (with_b y) (Z.to_nat pc - length C0)%nat r).
    rewrite Hr, alter_app_r_alt; [done | unfold len in Gpc; lia].
  - unfold len. rewrite length_alter. done.
  - eapply Forall_impl; [exact G3|]. simpl. intros q (? & ins & Hq & Hb).
    split; [done|]. destruct (decide (Z.to_nat q = Z.to_nat pc)) as [Heq|Hne].
    + rewrite Heq in *. rewrite list_lookup_alter_eq, Hq. by exists (with_b y ins).
    + rewrite list_lookup_alter_ne by done. eauto.
  - intros Hwn i ins Hi (ins0 & Hl & ->)%lookup_patched Hb. case_decide as Hd.
    + right. subst i. destruct Hy as [Hy1 Hy2]. unfold aims, len in *. simpl in *. rewrite ?length_alter in *.
      split; [lia|]. intros _. lia.
    + destruct (G4 Hwn i ins0 Hi Hl Hb) as [Hin|?]; [left | right; done].
      apply elem_of_cons in Hin as [Hin|Hin]; [|done]. lia.
  - intros i ins Hi (ins0 & Hl & ->)%lookup_patched Hop. case_decide as Hd; [|eauto].
    subst i. destruct Gbr as (ins1 & Hl1 & Hb1).
    rewrite Hl in Hl1. injection Hl1 as ->. unfold is_branch in Hb1. simpl in Hop.
    by rewrite Hop in Hb1.
  - intros i ins Hi (ins0 & Hl & ->)%lookup_patched. case_decide as Hd; [|eauto].
    subst i. destruct Gbr as (ins1 & Hl1 & Hb1). rewrite Hl in Hl1. injection Hl1 as ->.
    intros ni Hni. destruct (G6 _ _ Hi Hl ni Hni) as [Ha _ _ _].
    apply (branch_fits ins1.(cu_op)); [done..| |done]. destruct Hs0. unfold len in *. lia.
Qed.

Lemma wp_patch d k X s pc y :
  Linv d k (pc :: X) s → patch_ok d y s →
  wp (patch_b pc y) (fun _ s' => Linv d k X s' ∧ s' = patched pc y s) Lerr s.
Proof.
  intros HI Hy. pose proof (li_pend _ _ _ _ HI) as [Hpc _]%Forall_cons. pose proof (li_d _ _ _ _ HI).
  unfold wp, patch_b. destruct (Z.ltb_spec pc (len s.(st_code))) as [_|]; [|lia].
  split; [by apply Linv_patch | done].
Qed.

(** *** Effects on the operand height, the pool and the control stack *)

(** The operand height and the dead flag play no part in the invariant. *)
Lemma Linv_ext d k X s s' :
  Linv d k X s → s'.(st_code) = s.(st_code) → s'.(st_consts) = s.(st_consts) →
  s'.(st_ctrl) = s.(st_ctrl) → Linv d k X s'.
Proof.
  destruct s, s'; simpl. intros [?????? HG] -> -> ->. split; try done.
  intros Hs. destruct (HG Hs). by split.
Qed.

Lemma Linv_set_h d k X s h : Linv d k X s → Linv d k X (set_h h s).
Proof. intros. by eapply Linv_ext. Qed.
Lemma Linv_set_dead d k X s b : Linv d k X s → Linv d k X (set_dead b s).
Proof. intros. by eapply Linv_ext. Qed.

Lemma wp_consume k X s pops pushes :
  Linv 0 k X s →
  wp (consume pops pushes)
    (fun _ s' => Linv 0 k X s' ∧ s'.(st_code) = s.(st_code) ∧
                 s'.(st_consts) = s.(st_consts) ∧ s'.(st_ctrl) = s.(st_ctrl)) Lerr s.
Proof.
  intros HI. unfold wp, consume.
  destruct s.(st_dead); [done|]. destruct (s.(st_h) <? pops); [by eapply Linv_err |].
  split_and!; [by apply Linv_set_h | done..].
Qed.

Lemma position_Some v l i : position v l = Some i → l !! i = Some v.
Proof.
  revert i. induction l as [|x l IH]; intros i; simpl; [done|].
  destruct (Z.eqb_spec x v) as [->|]; [by intros [= <-]|].
  intros (j & Hj & ->)%fmap_Some. by apply IH.
Qed.

Lemma position_None v l : position v l = None → v ∉ l.
Proof.
  induction l as [|x l IH]; simpl; [intros _; apply not_elem_of_nil|].
  destruct (Z.eqb_spec x v) as [->|]; [done|].
  intros ?%fmap_None. apply not_elem_of_cons. auto.
Qed.

Lemma intern_spec l v idx l' :
  intern l v = (idx, l') →
  l `prefix_of` l' ∧ (NoDup l → NoDup l') ∧
  (len l' < 2 ^ 32 → 0 ≤ idx < len l' ∧ l' !! Z.to_nat idx = Some v).
Proof.
  unfold intern. destruct (position v l) as [i|] eqn:Hp; intros [= <- <-].
  - apply position_Some in Hp. pose proof (lookup_lt_Some _ _ _ Hp).
    split_and!; [done..|]. intros Hl. unfold len in *.
    rewrite u32_id by lia. rewrite Nat2Z.id. split; [lia | done].
  - apply position_None in Hp. split_and!.
    + by apply prefix_app_r.
    + intros. apply NoDup_app. split_and!; [done| |apply NoDup_singleton].
      intros x Hx ->%list_elem_of_singleton. done.
    + autorewrite with len. intros Hl. pose proof (len_nonneg l).
      rewrite u32_id by lia. split; [lia|]. unfold len. rewrite Nat2Z.id.
      by apply list_lookup_middle.
Qed.

Lemma wp_intern k X s v :
  Linv 0 k X s →
  wp (intern_m v)
    (fun idx s' => Linv 0 k X s' ∧ s'.(st_code) = s.(st_code) ∧
                   s'.(st_ctrl) = s.(st_ctrl) ∧
                   (len s'.(st_consts) < 2 ^ 32 → 0 ≤ idx < len s'.(st_consts))) Lerr s.
Proof.
  intros [Hk Hd01 Hgrow Hpre Hnd Hpend Hgood]. unfold wp, intern_m.
  destruct (intern s.(st_consts) v) as [idx l'] eqn:Hin.
  apply intern_spec in Hin as (Hp & Hn & Hi). pose proof (prefix_length _ _ Hp).
  split_and!; [split; simpl; try done| done | done |].
  - by trans (s.(st_consts)).
  - auto.
  - intros [Hs1 Hs2]. simpl in *. destruct Hgood as [G1 G2 G3 G4 G5 G6].
    { split; [done | unfold len in *; lia]. }
    split; try done; simpl. intros i ins Hi' Hl Ho.
    specialize (G5 i ins Hi' Hl Ho). unfold len in *. lia.
  - intros Hs. simpl in *. by apply Hi.
Qed.

Lemma pends_cons c k : pends (c :: k) = pend c ++ pends k.
Proof. done. Qed.

Lemma shape_cons c k : shape (c :: k) = (c.(kind), c.(has_else)) :: shape k.
Proof. done. Qed.

Lemma all_holes_cons c k : all_holes (c :: k) = holes c ++ all_holes k.
Proof. done. Qed.

(** Replacing the control stack or the local placeholders: no placeholder is
    invented, and none that is still to patch is forgotten. *)
Lemma Linv_set_ctrl d k k' X X' s ctrl' :
  Linv d k X s → shape ctrl' = k' →
  X' ++ all_holes ctrl' ⊆ X ++ all_holes s.(st_ctrl) →
  (wn = true → X ++ pends s.(st_ctrl) ⊆ X' ++ pends ctrl') →
  (small s → Forall (fun c => len C0 ≤ c.(start) ≤ len s.(st_code)) ctrl') →
  Linv d k' X' (set_ctrl ctrl' s).
Proof.
  intros [Hk Hd01 Hgrow Hpre Hnd Hpend Hgood] Hsh HH HP Hst.
  rewrite Forall_forall in Hpend. split; try done; simpl.
  - apply Forall_forall. auto.
  - intros Hs. destruct (Hgood Hs) as [G1 G2 G3 G4 G5 G6].
    rewrite Forall_forall in G3. split; try done; simpl.
    + by apply Hst.
    + apply Forall_forall. auto.
    + intros Hwn i ins Hi Hl Hb. destruct (G4 Hwn i ins Hi Hl Hb); [left|by right].
      by apply HP.
Qed.

(** *** Branches *)

Lemma shape_alter f (idx : nat) k :
  (∀ c, (f c).(kind) = c.(kind) ∧ (f c).(has_else) = c.(has_else)) →
  shape (alter f idx k) = shape k.
Proof.
  intros Hf. revert idx. induction k as [|c k IH]; intros [|idx]; try done; unfold shape in *; simpl.
  - destruct (Hf c) as [H1 H2]. by rewrite H1, H2.
  - f_equal. apply IH.
Qed.

Lemma Forall_start_alter (P : Z → Prop) f (idx : nat) k :
  (∀ c, (f c).(start) = c.(start)) →
  Forall (fun c => P c.(start)) k → Forall (fun c => P c.(start)) (alter f idx k).
Proof. intros Hf Hk. apply Forall_alter; [done|]. intros c _ Hc. by rewrite Hf. Qed.

(** Recording a placeholder adds it to both lists. *)
Lemma add_patch_holes pc (idx : nat) k :
  (idx < length k)%nat →
  pends (alter (add_patch pc) idx k) ≡ₚ pc :: pends k ∧
  all_holes (alter (add_patch pc) idx k) ≡ₚ pc :: all_holes k.
Proof.
  revert idx. induction k as [|c k IH]; intros [|idx] Hi; simpl in *; try lia.
  - change (pend (add_patch pc c) ++ pends k ≡ₚ pc :: pend c ++ pends k ∧
      holes (add_patch pc c) ++ all_holes k ≡ₚ pc :: holes c ++ all_holes k).
    unfold pend, holes, test_hole; simpl. rewrite <-!app_assoc. simpl.
    by rewrite <-!Permutation_middle.
  - change (pend c ++ pends (alter (add_patch pc) idx k) ≡ₚ pc :: pend c ++ pends k ∧
      holes c ++ all_holes (alter (add_patch pc) idx k) ≡ₚ pc :: holes c ++ all_holes k).
    destruct (IH idx) as [-> ->]; [lia|]. by rewrite !Permutation_middle.
Qed.

Lemma wp_resolve k X s depth :
  Linv 0 k X s →
  wp (resolve_m depth) (fun idx s' => s' = s ∧ (idx < length s.(st_ctrl))%nat) Lerr s.
Proof.
  intros HI. unfold wp, resolve_m, mbind, St_bind, gets, lift, resolve_br.
  destruct (Nat.leb_spec (1 + Z.to_nat depth) (length s.(st_ctrl))).
  - split; [done | lia].
  - by eapply Linv_err.
Qed.

Lemma wp_ctrl_at (idx : nat) s :
  (idx < length s.(st_ctrl))%nat →
  wp (ctrl_at idx) (fun c s' => s' = s ∧ s.(st_ctrl) !! idx = Some c) Lerr s.
Proof.
  intros [c Hc]%lookup_lt_is_Some_2. unfold wp, ctrl_at. by rewrite Hc.
Qed.

(** The common frame of a step that only appends ops: the control stack and
    its length are kept. *)
Definition keeps (s s' : LState) : Prop := s'.(st_ctrl) = s.(st_ctrl).

Context (E : FnEnv) (HE : ∀ ni, wd = Some ni → env_fits E ∧ E.(e_n_imports) = ni).

Lemma fits_plain o x y :
  o ≠ OP_CLZ → calls_direct o = false → 0 ≤ x < 2 ^ 16 → 0 ≤ y < 2 ^ 32 → fits_op (mkCuOp o x y).
Proof. intros. intros ni _. by apply op_fits_intro. Qed.

Ltac field := first [lia | apply u16_range | apply u32_range].
Ltac fits := intros; apply fits_plain; [done | done | field | field].
Ltac emit_plain := apply wp_emit_plain; [done | done | done | fits].

Lemma wp_emit_unwind k X s h c p l :
  Linv 0 k X s →
  wp (emit_unwind h c p l) (fun _ s' => Linv 0 k X s' ∧ keeps s s') Lerr s.
Proof.
  intros HI. unfold emit_unwind.
  destruct (h <? _); [by apply wp_fail; eapply Linv_err|].
  destruct (_ <? h); [|by apply wp_ret].
  eapply wp_seq; [emit_plain|]. intros ? s' (? & _ & _ & ->). by apply wp_ret.
Qed.

Lemma wp_unwind_if_live k X s idx :
  Linv 0 k X s → (idx < length s.(st_ctrl))%nat →
  wp (unwind_if_live E idx) (fun _ s' => Linv 0 k X s' ∧ keeps s s') Lerr s.
Proof.
  intros HI Hi. unfold unwind_if_live.
  apply wp_bind, wp_gets. destruct s.(st_dead); [by apply wp_ret|].
  apply wp_bind, wp_gets. eapply wp_seq; [by apply wp_ctrl_at|].
  intros c ? [-> Hc]. eapply wp_seq; [by apply wp_emit_unwind|].
  intros ? s' ?. by apply wp_ret.
Qed.

Lemma wp_emit_jump k X s idx :
  Linv 0 k X s → (idx < length s.(st_ctrl))%nat →
  wp (emit_jump idx) (fun _ s' => Linv 0 k X s') Lerr s.
Proof.
  intros HI Hi. unfold emit_jump. eapply wp_seq; [by apply wp_ctrl_at|].
  intros c ? [-> Hc]. case_bool_decide.
  - eapply wp_seq; [apply wp_emit_to; [done|done|done|lia|]|].
    + intros Hs. destruct (li_good _ _ _ _ HI Hs) as [_ Hst _ _ _ _].
      by apply (Forall_lookup_1 _ _ _ _ Hst Hc).
    + intros ? s' [? _]. by apply wp_ret.
  - eapply wp_seq; [by apply wp_emit_hole; [..|lia]|]. intros pc s' (HI' & _ & ->).
    apply wp_modify. eapply Linv_set_ctrl; [exact HI'|..].
    + rewrite shape_alter by done. apply (li_shape _ _ _ _ HI').
    + simpl. destruct (add_patch_holes pc idx s.(st_ctrl) Hi) as [_ Hh].
      intros x. rewrite Hh. mem_tauto.
    + intros _. simpl. destruct (add_patch_holes pc idx s.(st_ctrl) Hi) as [Hp _].
      intros x. rewrite Hp. mem_tauto.
    + intros Hs. apply (Forall_start_alter (fun z => len C0 ≤ z ≤ _)); [done|].
      apply (lg_starts _ _ _ (li_good _ _ _ _ HI' Hs)).
Qed.

Lemma wp_branch_to k X s depth :
  Linv 0 k X s → wp (branch_to E depth) (fun _ s' => Linv 0 k X s') Lerr s.
Proof.
  intros HI. unfold branch_to. eapply wp_seq; [by eapply wp_resolve|].
  intros idx ? [-> Hi]. eapply wp_seq; [by apply wp_unwind_if_live|].
  intros ? s' [? Hk]. apply wp_emit_jump; [done | by rewrite Hk].
Qed.

(** The current address is a legal target. *)
Lemma here_patch k X s : Linv 0 k X s → patch_ok 0 (u32 (len s.(st_code))) s.
Proof.
  intros HI [Hs _]. rewrite u32_id by (split; [apply len_nonneg | done]).
  pose proof (li_grow _ _ _ _ HI). lia.
Qed.

Lemma here_ok k X s :
  Linv 0 k X s → small s → len C0 ≤ u32 (len s.(st_code)) ≤ len s.(st_code).
Proof. intros HI Hs. destruct (here_patch k X s HI Hs). lia. Qed.

Lemma wp_br_skip k X s depth :
  Linv 0 k X s → wp (br_skip E depth) (fun _ s' => Linv 0 k X s') Lerr s.
Proof.
  intros HI. unfold br_skip. eapply wp_seq; [by apply wp_emit_hole; [..|lia]|].
  intros pc s1 (HI1 & _ & _). eapply wp_seq; [by eapply wp_resolve|].
  intros idx ? [-> Hi]. apply wp_bind, wp_gets.
  eapply wp_seq; [by apply wp_unwind_if_live|].
  intros ? s2 [HI2 Hk]. eapply wp_seq; [apply wp_emit_jump; [done | by rewrite Hk]|].
  intros ? s3 HI3. apply wp_bind, wp_modify. apply wp_bind, wp_gets.
  apply (Linv_set_h _ _ _ _ (s1.(st_h))) in HI3.
  eapply wp_mono; [apply wp_patch; [done | by eapply here_patch] | |done].
  by intros ? ? [? _].
Qed.

Lemma scratch_fits (P : Prop) o sc :
  o ≠ OP_CLZ → calls_direct o = false → 0 ≤ sc < 2 ^ 16 ∨ wd = None → P → fits_op (mkCuOp o sc 0).
Proof. intros ? ? [?|Hw] _ ni Hni; [by apply op_fits_intro|congruence]. Qed.

(** An index into the pool. *)
Lemma const_fits idx s :
  (small s → 0 ≤ idx < len s.(st_consts)) → small s → fits_op (mkCuOp OP_I64_CONST 0 idx).
Proof. intros Hc Hs. specialize (Hc Hs). destruct Hs. apply fits_plain; [done|done|lia..]. Qed.

Lemma wp_br_table_loop k X s scratch i depths :
  0 ≤ scratch < 2 ^ 16 ∨ wd = None →
  Linv 0 k X s → wp (br_table_loop E scratch i depths) (fun _ s' => Linv 0 k X s') Lerr s.
Proof.
  intros Hsc. revert i s. induction depths as [|d depths IH]; intros i s HI; simpl.
  { by apply wp_ret. }
  eapply wp_seq; [by apply wp_intern|]. intros idxc s1 (HI1 & _ & _ & Hidx).
  eapply wp_seq; [apply wp_emit_plain; [done..|by apply scratch_fits]|]. intros ? s2 (HI2 & _ & _ & ->).
  eapply wp_seq; [by apply wp_consume|]. intros ? s3 (HI3 & _ & HK & _).
  assert (small s3 → 0 ≤ idxc < len s3.(st_consts)) as Hc.
  { rewrite HK. intros [_ Hs]. rewrite HK in Hs. by apply Hidx. }
  eapply wp_seq; [apply wp_emit_plain; [done|done|by auto|by apply const_fits]|].
  intros ? s4 [HI4 _]. eapply wp_seq; [by apply wp_consume|]. intros ? s5 [HI5 _].
  eapply wp_seq; [emit_plain|]. intros ? s6 [HI6 _].
  eapply wp_seq; [by apply wp_consume|]. intros ? s7 [HI7 _].
  eapply wp_seq; [by apply wp_consume|]. intros ? s8 [HI8 _].
  eapply wp_seq; [by apply wp_br_skip|]. intros ? s9 HI9. by apply IH.
Qed.

Lemma read_depths_no_panic targets w : read_depths targets ≠ Panic w.
Proof.
  induction targets as [|[d|e] targets IH]; simpl; [done| |done].
  unfold mbind, outcome_bind in *; simpl in *. by destruct (read_depths targets).
Qed.


(** A pure check leaves the state alone. *)
Lemma wp_check {A} (o : outcome A) k X s :
  Linv 0 k X s → (∀ w, o ≠ Panic w) → wp (lift o) (fun r s' => s' = s ∧ o = Ok r) Lerr s.
Proof. intros. apply wp_lift; [done | by intros; eapply Linv_err | done]. Qed.

Lemma wp_br_table_arm k X s default targets :
  Linv 0 k X s → wp (br_table_arm E default targets) (fun _ s' => Linv 0 k X s') Lerr s.
Proof.
  intros HI. unfold br_table_arm.
  eapply wp_seq; [eapply wp_check; [exact HI | apply ok_or_no_panic]|].
  intros sc ? [-> Hsc].
  assert (0 ≤ sc < 2 ^ 16 ∨ wd = None) as Hfit.
  { destruct wd as [ni|]; [left|by right]. destruct (HE ni eq_refl) as [HEf _].
    apply (ef_scratch _ HEf). by destruct (e_scratch E); simplify_eq/=. }
  eapply wp_seq; [eapply wp_check; [exact HI | apply read_depths_no_panic]|].
  intros ds ? [-> _]. eapply wp_seq; [apply wp_emit_plain; [done..|by apply scratch_fits]|].
  intros ? s1 [HI1 _].
  eapply wp_seq; [by apply wp_consume|]. intros ? s2 [HI2 _].
  eapply wp_seq; [by apply wp_br_table_loop|]. intros ? s3 HI3.
  eapply wp_seq. { apply wp_branch_to. exact HI3. } intros ? s4 HI4.
  apply wp_modify. by apply Linv_set_dead.
Qed.

(** *** Structured control *)

Definition fresh_ctrl (kd : CtrlKind) (st : Z) (c : Ctrl) : Prop :=
  c.(kind) = kd ∧ c.(start) = st ∧ c.(br_if_not) = None ∧ c.(else_br) = None ∧
  c.(patches) = [] ∧ c.(has_else) = false.

Lemma wp_push_ctrl kd st np nr k X s :
  Linv 0 k X s → (small s → len C0 ≤ st ≤ len s.(st_code)) →
  wp (push_ctrl kd st np nr)
    (fun _ s' => Linv 0 ((kd, false) :: k) X s' ∧
       ∃ c, fresh_ctrl kd st c ∧ s'.(st_ctrl) = c :: s.(st_ctrl)) Lerr s.
Proof.
  intros HI Hst. unfold wp, push_ctrl. destruct (negb _ && _); [by eapply Linv_err|].
  split; [|eexists; split; [|reflexivity]; done].
  eapply Linv_set_ctrl; [done|..].
  - rewrite shape_cons. simpl. by rewrite (li_shape _ _ _ _ HI).
  - done.
  - intros _. unfold pends, pend, test_hole; simpl. by destruct (bool_decide _).
  - intros Hs. constructor; [by apply Hst|].
    apply (lg_starts _ _ _ (li_good _ _ _ _ HI Hs)).
Qed.

Lemma block_arity_no_panic ty fts w : block_arity ty fts ≠ Panic w.
Proof. destruct ty; simpl; [done| |]; by case_match. Qed.

Lemma wp_block_arm kd bt k X s :
  Linv 0 k X s →
  wp (block_arm E kd bt) (fun _ s' => Linv 0 ((kd, false) :: k) X s') Lerr s.
Proof.
  intros HI. unfold block_arm.
  eapply wp_seq; [eapply wp_check; [exact HI | apply block_arity_no_panic]|].
  intros [np nr] ? [-> _]. apply wp_bind, wp_gets.
  eapply wp_mono; [apply wp_push_ctrl; [exact HI | by eapply here_ok]| |done].
  by intros ? ? [? _].
Qed.

Lemma wp_if_arm bt k X s :
  Linv 0 k X s →
  wp (if_arm E bt) (fun _ s' => Linv 0 ((KIf, false) :: k) X s') Lerr s.
Proof.
  intros HI. unfold if_arm.
  eapply wp_seq; [eapply wp_check; [exact HI | apply block_arity_no_panic]|].
  intros [np nr] ? [-> _]. eapply wp_seq; [by apply wp_consume|].
  intros ? s1 [HI1 _]. eapply wp_seq; [by apply wp_emit_hole; [..|lia]|].
  intros pc s2 (HI2 & _ & _). apply wp_bind, wp_gets.
  eapply wp_seq; [apply wp_push_ctrl; [exact HI2 | by eapply here_ok]|].
  intros ? s3 [HI3 (c & (Hkd & Hst & Hb & He & Hp & Hh) & Hc)]. apply wp_modify.
  eapply Linv_set_ctrl; [exact HI3|..].
  - rewrite shape_alter by done. apply (li_shape _ _ _ _ HI3).
  - rewrite Hc. cbn [alter list_alter]. rewrite !all_holes_cons.
    unfold holes; simpl. rewrite Hb, Hp, He. simpl. intros x. mem_tauto.
  - intros _. rewrite Hc. cbn [alter list_alter]. rewrite !pends_cons.
    unfold pend, test_hole; simpl. rewrite Hb, Hp, Hkd, Hh. simpl. intros x. mem_tauto.
  - intros Hs. apply (Forall_start_alter (fun z => len C0 ≤ z ≤ _)); [done|].
    apply (lg_starts _ _ _ (li_good _ _ _ _ HI3 Hs)).
Qed.

Lemma list_alter_fmap_id y (i : nat) (l : list CuOpC) :
  cu_op <$> alter (with_b y) i l = cu_op <$> l.
Proof.
  revert i. induction l as [|x l IH]; intros [|i]; try done.
  cbn. f_equal. apply IH.
Qed.

(** Patching changes no opcode and no pool entry. *)
Definition same_ops (s s' : LState) : Prop :=
  cu_op <$> s'.(st_code) = cu_op <$> s.(st_code) ∧ s'.(st_consts) = s.(st_consts).

Lemma same_ops_refl s : same_ops s s.
Proof. done. Qed.

Lemma same_ops_trans s1 s2 s3 : same_ops s1 s2 → same_ops s2 s3 → same_ops s1 s3.
Proof. intros [??] [??]. split; congruence. Qed.

Lemma same_ops_patched pc y s : same_ops s (patched pc y s).
Proof. split; [|done]. simpl. by rewrite list_alter_fmap_id. Qed.

Lemma same_ops_len s s' : same_ops s s' → len s'.(st_code) = len s.(st_code).
Proof.
  intros [He _]. apply (f_equal length) in He. rewrite !length_fmap in He.
  unfold len. by rewrite He.
Qed.

Lemma same_ops_small s s' : same_ops s s' → small s' → small s.
Proof.
  intros Hs [H1 H2]. rewrite (same_ops_len _ _ Hs) in H1. destruct Hs as [_ Hc].
  rewrite Hc in H2. done.
Qed.

Lemma wp_patch_opt d k X s pc y :
  Linv d k (option_list pc ++ X) s → patch_ok d y s →
  wp (patch_opt pc y)
    (fun _ s' => Linv d k X s' ∧ same_ops s s') Lerr s.
Proof.
  intros HI Hy. destruct pc as [pc|]; simpl in *; [|by apply wp_ret].
  eapply wp_mono; [by apply wp_patch| |done]. intros ? s' [? ->].
  split; [done | apply same_ops_patched].
Qed.

Lemma wp_else_arm k X s :
  Linv 0 k X s → (wn = true → ∃ k', k = (KIf, false) :: k') →
  wp else_arm
    (fun _ s' => ∃ k', Linv 0 ((KIf, true) :: k') X s' ∧ tail k = k') Lerr s.
Proof.
  intros HI Hwn. unfold else_arm. apply wp_bind, wp_gets.
  destruct s.(st_ctrl) as [|c K] eqn:HK; simpl; [by apply wp_fail; eapply Linv_err|].
  case_bool_decide as Hkd; [by apply wp_fail; eapply Linv_err|].
  eapply wp_seq; [by apply wp_emit_hole; [..|lia]|]. intros br s1 (HI1 & _ & ->).
  apply wp_bind, wp_modify. apply wp_bind, wp_gets. simpl. rewrite HK.
  pose proof (li_shape _ _ _ _ HI) as Hk. rewrite HK, shape_cons in Hk.
  assert (Linv 0 ((KIf, true) :: tail k) (option_list c.(br_if_not) ++ X)
    (set_ctrl (alter (set_else_br br) 0%nat (c :: K))
       (snoc_code (mkCuOp OP_BR 0 0) s))) as HI2.
  { eapply Linv_set_ctrl; [exact HI1|..]; cbn [st_ctrl snoc_code set_code]; rewrite ?HK;
      cbn [alter list_alter].
    - rewrite shape_cons, <-Hk. simpl. by rewrite Hkd.
    - rewrite !all_holes_cons. unfold holes; simpl.
      intros x. simpl. mem_tauto.
    - intros Ht. destruct (Hwn Ht) as [k' ->]. injection Hk as _ Hh _.
      rewrite !pends_cons. unfold pend, test_hole; simpl.
      rewrite Hkd, Hh. simpl. intros x. mem_tauto.
    - intros Hs. pose proof (lg_starts _ _ _ (li_good _ _ _ _ HI1 Hs)) as Hst.
      simpl in Hst. rewrite HK in Hst. by apply Forall_cons in Hst as [? ?]; constructor. }
  eapply wp_seq; [eapply wp_patch_opt; [exact HI2|]|].
  { by eapply (here_patch _ _ _ HI2). }
  intros ? s3 [HI3 _]. apply wp_modify. eexists. split; [|done].
  by apply Linv_set_dead, Linv_set_h.
Qed.

Lemma Linv_weaken k X s : Linv 1 k X s → Linv 0 k X s.
Proof.
  intros [Hk Hd01 Hgrow Hpre Hnd Hpend Hgood].
  split; try done; [lia|eapply Forall_impl; [exact Hpend|simpl; lia]|].
  intros Hs. destruct (Hgood Hs) as [G1 G2 G3 G4 G5 G6]. split; try done.
  intros Hw i ins Hi Hl Hb. destruct (G4 Hw i ins Hi Hl Hb) as [|[? ?]]; [by left | right; split; [lia|done]].
Qed.

Lemma wp_patch_all d k X s ps y :
  Linv d k (ps ++ X) s → patch_ok d y s →
  wp (for_each ps (fun p => patch_b p y))
    (fun _ s' => Linv d k X s' ∧ same_ops s s') Lerr s.
Proof.
  intros HI Hy. eapply wp_mono;
    [eapply (wp_for_each _ _ (fun ps s' => Linv d k (ps ++ X) s' ∧ same_ops s s')) | done..].
  - done.
  - intros p ps' s' [HI' Hsame]. eapply wp_mono; [apply wp_patch; [exact HI'|]| |done].
    + intros Hs. rewrite (same_ops_len _ _ Hsame).
      apply Hy. by eapply same_ops_small.
    + intros ? s'' [? ->]. split; [done|].
      eapply same_ops_trans; [done | apply same_ops_patched].
Qed.

(** What [end] leaves: the enclosing entry open, and after the function's own
    [end] an [end_func] beyond every target. *)
Definition ended (kd : CtrlKind) (s : LState) : Prop :=
  kd = KFunc → ∃ ins, last s.(st_code) = Some ins ∧ ins.(cu_op) = OP_END_FUNC.

Lemma last_same_ops s s' kd : same_ops s s' → ended kd s → ended kd s'.
Proof.
  intros [He _] Hd Hf. destruct (Hd Hf) as (ins & Hl & Ho).
  assert (cu_op <$> last s'.(st_code) = Some OP_END_FUNC) as Hl'.
  { by rewrite <-fmap_last, He, fmap_last, Hl, <-Ho. }
  apply fmap_Some in Hl' as (ins' & -> & ?). by exists ins'.
Qed.

Definition end_depth (kd : CtrlKind) : Z := if bool_decide (kd = KFunc) then 1 else 0.

Lemma results_fits (P : Prop) o :
  o ≠ OP_CLZ → calls_direct o = false → P → fits_op (mkCuOp o E.(e_n_results) 0).
Proof.
  intros ? ? _ ni Hni. destruct (HE ni Hni) as [HEf _]. pose proof (ef_results _ HEf).
  by apply op_fits_intro.
Qed.

Lemma wp_join kd k X s :
  Linv 0 k X s →
  wp (if bool_decide (kd = KFunc) then emit OP_END_FUNC E.(e_n_results) 0 else code_len_u32)
    (fun pc s' => Linv (end_depth kd) k X s' ∧ ended kd s' ∧
       patch_ok (end_depth kd) pc s') Lerr s.
Proof.
  intros HI. unfold end_depth. case_bool_decide as Hkd.
  - eapply wp_mono; [apply wp_emit_plain; [done..|by apply results_fits]| |done].
    intros pc s' (_ & HI1 & -> & ->). split_and!; [done| |].
    + intros _. eexists. split; [by apply last_snoc | done].
    + intros Hs%small_snoc. simpl. autorewrite with len.
      pose proof (here_patch _ _ _ HI Hs). lia.
  - apply wp_gets. split_and!; [done | by intros ?|]. by eapply here_patch.
Qed.

Lemma wp_end_arm k X s :
  Linv 0 k X s →
  wp (end_arm E)
    (fun _ s' => ∃ kd b, k = (kd, b) :: tail k ∧
       Linv (end_depth kd) (tail k) X s' ∧ ended kd s') Lerr s.
Proof.
  intros HI. unfold end_arm, pop_ctrl. apply wp_bind. unfold wp at 1.
  destruct s.(st_ctrl) as [|c K] eqn:HK; [by eapply Linv_err|].
  pose proof (li_shape _ _ _ _ HI) as Hk. rewrite HK, shape_cons in Hk.
  assert (Linv 0 (tail k) (test_hole c ++ c.(patches) ++ X) (set_ctrl K s)) as HI1.
  { eapply Linv_set_ctrl; [exact HI| | | |]; rewrite ?HK.
    - by rewrite <-Hk.
    - rewrite all_holes_cons. unfold holes, test_hole. intros x.
      repeat case_match; mem_tauto.
    - intros _ x. rewrite pends_cons. unfold pend. mem_tauto.
    - intros Hs. pose proof (lg_starts _ _ _ (li_good _ _ _ _ HI Hs)) as Hst.
      rewrite HK in Hst. by apply Forall_cons in Hst as [_ ?]. }
  eapply wp_seq; [by apply wp_join|]. intros pc s2 (HI2 & Hend & Hpc).
  eapply (wp_seq _ _ (fun _ s3 => Linv (end_depth c.(kind)) (tail k) (c.(patches) ++ X) s3
                        ∧ same_ops s2 s3)).
  { unfold patch_if, test_hole in *. case_bool_decide; [|by apply wp_ret].
    by destruct c.(has_else); apply wp_patch_opt. }
  intros ? s3 [HI3 Hs3]. eapply wp_seq; [apply wp_patch_all; [exact HI3|]|].
  { intros Hs. rewrite (same_ops_len _ _ Hs3). apply Hpc. by eapply same_ops_small. }
  intros ? s4 [HI4 Hs4]. apply wp_modify. exists c.(kind), c.(has_else). split_and!.
  - by rewrite <-Hk.
  - by apply Linv_set_dead, Linv_set_h.
  - eapply (last_same_ops s4); [done|]. eapply last_same_ops; [done|].
    by eapply last_same_ops.
Qed.

(** *** The other arms *)

Lemma plain_op_code o opc pops pushes :
  plain_op o = Some (opc, pops, pushes) →
  is_branch (mkCuOp opc 0 0) = false ∧ opc ≠ OP_I64_CONST ∧ opc ≠ OP_CLZ ∧
  calls_direct opc = false.
Proof. by destruct o; intros [= <- <- <-]. Qed.

Lemma wp_plain_arm o opc pops pushes k X s :
  plain_op o = Some (opc, pops, pushes) → Linv 0 k X s →
  wp (plain_arm opc pops pushes) (fun _ s' => Linv 0 k X s') Lerr s.
Proof.
  intros (Hb & Hc & Hz & Hd)%plain_op_code HI. unfold plain_arm.
  eapply wp_seq; [emit_plain|]. intros ? s1 [HI1 _].
  eapply wp_mono; [by apply wp_consume| |done]. by intros ? ? [? _].
Qed.

Lemma wp_const_arm v k X s :
  Linv 0 k X s → wp (const_arm v) (fun _ s' => Linv 0 k X s') Lerr s.
Proof.
  intros HI. unfold const_arm.
  eapply wp_seq; [by apply wp_intern|]. intros idx s1 (HI1 & _ & _ & Hidx).
  assert (small s1 → 0 ≤ idx < len s1.(st_consts)) as Hi by (intros [_ Hs]; by apply Hidx).
  eapply wp_seq; [apply wp_emit_plain; [done|done|by auto|by apply const_fits]|].
  intros ? s2 [HI2 _]. eapply wp_mono; [by apply wp_consume| |done]. by intros ? ? [? _].
Qed.

(** Any other [emit; consume]. *)
Lemma wp_emit_consume o x y pops pushes k X s :
  is_branch (mkCuOp o x y) = false → o ≠ OP_I64_CONST → fits_op (mkCuOp o x y) → Linv 0 k X s →
  wp (emit o x y;; consume pops pushes) (fun _ s' => Linv 0 k X s') Lerr s.
Proof.
  intros Hb Hc Hf HI. eapply wp_seq; [by apply wp_emit_plain|]. intros ? s1 [HI1 _].
  eapply wp_mono; [by apply wp_consume| |done]. by intros ? ? [? _].
Qed.

Lemma wp_emit_dead o x y k X s :
  is_branch (mkCuOp o x y) = false → o ≠ OP_I64_CONST → fits_op (mkCuOp o x y) → Linv 0 k X s →
  wp (emit o x y;; modify (set_dead true)) (fun _ s' => Linv 0 k X s') Lerr s.
Proof.
  intros Hb Hc Hf HI. eapply wp_seq; [by apply wp_emit_plain|]. intros ? s1 [HI1 _].
  apply wp_modify. by apply Linv_set_dead.
Qed.

Lemma wp_emit_done o x y k X s :
  is_branch (mkCuOp o x y) = false → o ≠ OP_I64_CONST → fits_op (mkCuOp o x y) → Linv 0 k X s →
  wp (emit o x y;; mret tt) (fun _ s' => Linv 0 k X s') Lerr s.
Proof.
  intros Hb Hc Hf HI. eapply wp_seq; [by apply wp_emit_plain|]. intros ? s1 [HI1 _].
  by apply wp_ret.
Qed.

Lemma check_memarg_no_panic m w : check_memarg m ≠ Panic w.
Proof. unfold check_memarg. by repeat case_match. Qed.

Lemma check_memarg_range m off : check_memarg m = Ok off → 0 ≤ off < 2 ^ 32.
Proof. unfold check_memarg. intros. repeat case_match; simplify_eq. apply u32_range. Qed.

Lemma load_op_range o nb sg i64 m :
  load_op o = Some (nb, sg, i64, m) → 0 ≤ load_flags nb sg i64 < 2 ^ 16.
Proof. by destruct o; intros [= <- <- <- <-]. Qed.

Lemma store_op_range o nb m : store_op o = Some (nb, m) → 0 ≤ nb < 2 ^ 16.
Proof. by destruct o; intros [= <- <-]. Qed.

Lemma wp_load_arm nb sg i64 m k X s :
  0 ≤ load_flags nb sg i64 < 2 ^ 16 → Linv 0 k X s → wp (load_arm nb sg i64 m) (fun _ s' => Linv 0 k X s') Lerr s.
Proof.
  intros Hnb HI. unfold load_arm.
  eapply wp_seq; [eapply wp_check; [exact HI | apply check_memarg_no_panic]|].
  intros off ? [-> ?%check_memarg_range]. apply wp_emit_consume; [done..|fits|done].
Qed.

Lemma wp_store_arm nb m k X s :
  0 ≤ nb < 2 ^ 16 → Linv 0 k X s → wp (store_arm nb m) (fun _ s' => Linv 0 k X s') Lerr s.
Proof.
  intros Hnb HI. unfold store_arm.
  eapply wp_seq; [eapply wp_check; [exact HI | apply check_memarg_no_panic]|].
  intros off ? [-> ?%check_memarg_range]. apply wp_emit_consume; [done..|fits|done].
Qed.

(** The numbers an operator carries have their widths. *)
Definition widths_of (o : Operator) : Prop := ∀ ni, wd = Some ni → op_widths o = true.

Ltac fits_from Hw :=
  let ni := fresh "ni" in let Hni := fresh "Hni" in
  intros ni Hni; pose proof (Hw ni Hni) as Hw'; unfold op_widths, u32_ok in Hw';
  first [ apply op_fits_intro; [done | done | field | field]
        | split; simpl; [field | field | intros _; lia | by intros [?|?]] ].

Lemma wp_simple_arm o m k X s :
  widths_of o → simple_arm o = Some m → Linv 0 k X s → wp m (fun _ s' => Linv 0 k X s') Lerr s.
Proof.
  intros Hw. destruct o; intros [= <-] HI;
    repeat match goal with |- context [if ?b then _ else _] => destruct b end;
    first [ by apply wp_fail; eapply Linv_err
          | apply wp_emit_consume; [done | done | by fits_from Hw | done]
          | apply wp_emit_done; [done | done | by fits_from Hw | done]
          | eapply wp_mono; [by apply wp_consume| by intros ? ? [? _]|done]
          | idtac ].
  eapply wp_seq; [emit_plain|]. intros ? s1 [HI1 _]. apply wp_emit_done; [done..|fits|done].
Qed.

Lemma func_arity_no_panic i fts tis w : func_arity i fts tis ≠ Panic w.
Proof. unfold func_arity. by repeat case_match. Qed.

Lemma func_arity_range i fts tis np nr :
  func_arity i fts tis = Ok (np, nr) → 0 ≤ np < 2 ^ 16.
Proof. unfold func_arity. intros. repeat case_match; simplify_eq. apply u16_range. Qed.

(** A direct call, to a function that is not imported. *)
Lemma call_fits o i :
  (∀ ni, wd = Some ni → u32_ok i = true) → o = OP_CALL ∨ o = OP_RETURN_CALL →
  (i <? E.(e_n_imports)) = false → fits_op (mkCuOp o 0 i).
Proof.
  intros Hw Ho Hi ni Hni. specialize (Hw ni Hni). unfold u32_ok in Hw.
  destruct (HE ni Hni) as [_ <-]. split; simpl; [lia|lia| |lia]. by destruct Ho as [-> | ->].
Qed.

Lemma host_fits i np nr id :
  0 ≤ np < 2 ^ 16 → E.(e_host_fn_ids) !! i = Some id →
  fits_op (mkCuOp OP_CALL_HOST (Z.lor np (u16 (Z.shiftl nr 8))) id).
Proof.
  intros Hnp Hid ni Hni. destruct (HE ni Hni) as [HEf _].
  apply op_fits_intro; [done|done| |].
  - split; [apply Z.lor_nonneg; split; [lia|apply u16_range]|].
    apply lor_u16; [done|apply u16_range].
  - by apply (Forall_lookup_1 _ _ _ _ (ef_ids _ HEf) Hid).
Qed.

Lemma wp_call_arm i k X s :
  widths_of (Call i) → Linv 0 k X s → wp (call_arm E i) (fun _ s' => Linv 0 k X s') Lerr s.
Proof.
  intros Hw HI. unfold call_arm.
  eapply wp_seq; [eapply wp_check; [exact HI | apply func_arity_no_panic]|].
  intros [np nr] ? [-> Hnp%func_arity_range].
  eapply (wp_seq _ _ (fun _ s' => Linv 0 k X s')).
  - destruct (i <? _) eqn:Hi.
    + eapply wp_seq; [eapply wp_check; [exact HI | apply ok_or_no_panic]|].
      intros fid ? [-> Hid]. destruct (_ !! _) eqn:Hl; simplify_eq/=.
      eapply wp_mono; [apply wp_emit_plain; [done..|intros; by eapply host_fits]| |done].
      by intros ? ? [? _].
    + eapply wp_mono; [apply wp_emit_plain; [done..|intros; apply call_fits; by auto]| |done].
      by intros ? ? [? _].
  - intros ? s1 HI1. eapply wp_mono; [by apply wp_consume| |done]. by intros ? ? [? _].
Qed.

(** *** One operator, and the whole body *)

Definition next_shape (k : list (CtrlKind * bool)) (o : Operator) :=
  match o with
  | Block _ => (KBlock, false) :: k
  | Loop _ => (KLoop, false) :: k
  | If _ => (KIf, false) :: k
  | Else => (KIf, true) :: tail k
  | End => tail k
  | _ => k
  end.

Lemma wp_call_indirect_arm t i k X s :
  widths_of (CallIndirect t i) → Linv 0 k X s → wp (call_indirect_arm E t i) (fun _ s' => Linv 0 k X s') Lerr s.
Proof.
  intros Hw HI. unfold call_indirect_arm.
  destruct (negb _); [by apply wp_fail; eapply Linv_err|].
  destruct (_ !! _); [|by apply wp_fail; eapply Linv_err].
  apply wp_emit_consume; [done..|by fits_from Hw|done].
Qed.

Lemma wp_lower_op o k s :
  widths_of o → Linv 0 k [] s → o ≠ End → o ≠ Else →
  wp (lower_op E o) (fun _ s' => Linv 0 (next_shape k o) [] s') Lerr s.
Proof.
  intros Hw HI Hend Helse. unfold lower_op.
  destruct (plain_op o) as [[[opc pops] pushes]|] eqn:H1.
  { replace (next_shape k o) with k by (by destruct o). by eapply wp_plain_arm. }
  destruct (const_op o) as [v|] eqn:H2.
  { replace (next_shape k o) with k by (by destruct o). by apply wp_const_arm. }
  destruct (load_op o) as [[[[nb sg] i64] m]|] eqn:H3.
  { replace (next_shape k o) with k by (by destruct o). apply load_op_range in H3. by apply wp_load_arm. }
  destruct (store_op o) as [[nb m]|] eqn:H4.
  { replace (next_shape k o) with k by (by destruct o). apply store_op_range in H4. by apply wp_store_arm. }
  destruct (simple_arm o) as [m|] eqn:H5.
  { replace (next_shape k o) with k by (by destruct o). by eapply wp_simple_arm. }
  destruct o; try discriminate; try done; clear H1 H2 H3 H4 H5.
  - apply wp_emit_dead; [done..|fits|done].
  - by apply wp_block_arm.
  - by apply wp_block_arm.
  - by apply wp_if_arm.
  - eapply wp_seq; [apply wp_branch_to; exact HI|]. intros ? s1 HI1.
    apply wp_modify. by apply Linv_set_dead.
  - eapply wp_seq; [by apply wp_consume|]. intros ? s1 [HI1 _]. by apply wp_br_skip.
  - by apply wp_br_table_arm.
  - apply wp_emit_dead; [done..|by apply (results_fits True)|done].
  - by apply wp_call_arm.
  - unfold return_call_arm.
    destruct (_ <? _) eqn:Hi; [by apply wp_fail; eapply Linv_err|].
    apply wp_emit_dead; [done..|apply call_fits; by auto|done].
  - by apply wp_call_indirect_arm.
  - by apply wp_fail; eapply Linv_err.
  - by apply wp_fail; eapply Linv_err.
  - by apply wp_fail; eapply Linv_err.
Qed.

(** Between operators: the rest of the body closes what is open. *)
Definition Lbody (ops : list Operator) (s : LState) : Prop :=
  ∃ k, Linv 0 k [] s ∧
    (wn = true → well_nested k ops = true ∨
                 ops = [] ∧ Linv 1 [] [] s ∧ ended KFunc s).

Lemma wp_lower_op_body o ops s :
  widths_of o → Lbody (o :: ops) s → wp (lower_op E o) (fun _ s' => Lbody ops s') Lerr s.
Proof.
  intros Hwd (k & HI & Hwn).
  assert (wn = true → well_nested k (o :: ops) = true) as Hw.
  { intros Ht. by destruct (Hwn Ht) as [?|[? _]]. }
  assert (o = End ∨ o = Else ∨ (o ≠ End ∧ o ≠ Else)) as [->|[->|[Hne Hne']]].
  { destruct o; auto. }
  - change (lower_op E End) with (end_arm E).
    eapply wp_mono; [by apply wp_end_arm| |done].
    intros ? s' (kd & b & Hk & HI' & He). exists (tail k). split.
    { unfold end_depth in HI'. case_bool_decide; [by apply Linv_weaken | done]. }
    intros Ht. specialize (Hw Ht). rewrite Hk in Hw. simpl in Hw.
    destruct kd; try by left. right.
    destruct ops; [|done]. destruct (tail k); [|done].
    split_and!; [done| |done]. done.
  - change (lower_op E Else) with else_arm.
    eapply wp_mono; [eapply wp_else_arm; [exact HI|]| |done].
    + intros Ht. specialize (Hw Ht). destruct k as [|[[] []] k]; try done. by exists k.
    + intros ? s' (k' & HI' & <-). eexists. split; [done|]. intros Ht. left.
      specialize (Hw Ht). by destruct k as [|[[] []] k].
  - eapply wp_mono; [by apply wp_lower_op| |done].
    intros ? s' HI'. exists (next_shape k o). split; [exact HI'|]. intros Ht. left.
    specialize (Hw Ht). destruct k as [|kb k]; [by destruct o|].
    by destruct o.
Qed.
End inv.

