(* ===== verification/LowerSafety.v ===== *)
(** * Safety of the lowering of one function

    The theorems on [lower_operators] that the invariants of [LowerInv] give:
    it never panics, it never disturbs the functions lowered before (even when
    it fails half-way), its constant indices are in the pool, and the branches
    of a well-nested body stay inside the function. *)

From S2P Require Import Prelude Cuop Wasm Lower LowerInv.
From stdpp Require Import base list strings.

Local Open Scope Z_scope.

Section safety.
Context (ops : list Operator) (n_params n_results n_locals : Z).
Context (code : list CuOpC) (consts : list Z) (func_types : list FuncType).
Context (func_typeidx : list Z) (n_imports : Z) (host_fn_ids : list Z).

Let run := lower_operators ops n_params n_results n_locals code consts func_types
             func_typeidx n_imports host_fn_ids.
Let locals := (reserve_scratch ops n_params n_locals).1.
Let E := mkFnEnv n_params n_results locals (reserve_scratch ops n_params n_locals).2
           func_types func_typeidx n_imports host_fn_ids.
Let s0 := mkLState code consts 0 false [func_ctrl (u32 (len code)) n_results].

Lemma Linv_init wn wd : Linv code consts wn wd 0 [(KFunc, false)] [] s0.
Proof.
  split; simpl; try done; [lia..|].
  intros [Hs _]. simpl in Hs. split; simpl; try done.
  - constructor; [|done]. simpl. rewrite u32_id; [lia | split; [apply len_nonneg | done]].
  - intros _ i ins Hi Hl%lookup_lt_Some. unfold len in Hi. lia.
  - intros i ins Hi Hl%lookup_lt_Some. unfold len in Hi. lia.
  - intros i ins Hi Hl%lookup_lt_Some. unfold len in Hi. lia.
Qed.

(** The environment and the operators carry numbers of their widths. *)
Definition widths_known (wd : option Z) : Prop :=
  ∀ ni, wd = Some ni → env_fits E ∧ n_imports = ni ∧ forallb op_widths ops = true.

Lemma no_widths : widths_known None.
Proof. by intros ni Hni. Qed.

Lemma wp_lower_body wn wd :
  (wn = true → wf_body ops = true) → widths_known wd →
  wp (lower_body E ops)
    (fun _ s => ∃ k, Linv code consts wn wd 0 k [] s ∧ s.(st_ctrl) = [] ∧
       (wn = true → Linv code consts wn wd 1 [] [] s ∧ ended KFunc s))
    (Lerr code consts wn wd) s0.
Proof.
  intros Hwf Hwd. unfold lower_body.
  eapply wp_seq.
  { apply (wp_for_each _ _ (fun r s => Lbody code consts wn wd r s ∧ Forall (widths_of wd) r)).
    - split; [exists [(KFunc, false)]; split; [apply Linv_init | auto]|].
      apply Forall_forall. intros o Ho ni Hni. destruct (Hwd ni Hni) as (_ & _ & Hall).
      rewrite forallb_forall in Hall. by apply Hall, list_elem_of_In.
    - intros o ops' s [HB [Ho Hops]%Forall_cons]. eapply wp_mono; [apply wp_lower_op_body| |done].
      + intros ni Hni. by destruct (Hwd ni Hni) as (? & ? & _).
      + done.
      + done.
      + done. }
  intros [] s [(k & HI & Hw) _]. apply wp_bind, wp_gets.
  destruct s.(st_ctrl) as [|c K] eqn:HK.
  - apply wp_ret. exists k. split_and!; [done..|]. intros Ht.
    by destruct (Hw Ht) as [Hf|(_ & ? & ?)]; [destruct k|].
  - by apply wp_fail; eapply Linv_err.
Qed.

Lemma run_eq :
  run =
    (match (lower_body E ops s0).1 with
     | Ok _ => Ok (mkFuncMeta (u32 (len code))
                     (u32 (u32 (len (lower_body E ops s0).2.(st_code)) - u32 (len code)))
                     n_params n_results locals 0)
     | Err e => Err e
     | Panic w => Panic w
     end, ((lower_body E ops s0).2.(st_code), (lower_body E ops s0).2.(st_consts))).
Proof.
  unfold run, lower_operators, E, locals, s0.
  destruct (reserve_scratch ops n_params n_locals) as [nl sc]; simpl.
  by destruct (lower_body _ ops _) as [[] s].
Qed.

(** Whatever the outcome, the state it leaves satisfies an invariant. *)
Lemma run_Lerr r code' consts' :
  run = (r, (code', consts')) →
  ∃ s, Lerr code consts false None s ∧ s.(st_code) = code' ∧ s.(st_consts) = consts'.
Proof.
  rewrite run_eq. pose proof (wp_lower_body false None ltac:(done) no_widths) as Hwp. unfold wp in Hwp.
  destruct (lower_body E ops s0) as [o s]. simpl in *. intros [= _ <- <-].
  exists s. split; [|done]. destruct o; [|done|done].
  destruct Hwp as (k & HI & _). by eapply Linv_err.
Qed.

(** With the widths known, so are those of every op appended. *)
Lemma run_fits r code' consts' ni :
  widths_known (Some ni) → run = (r, (code', consts')) → len code' < 2 ^ 32 → len consts' < 2 ^ 32 →
  ∀ (i : nat) ins, len code ≤ Z.of_nat i → code' !! i = Some ins → op_fits ni ins.
Proof.
  intros Hwd. rewrite run_eq. pose proof (wp_lower_body false (Some ni) ltac:(done) Hwd) as Hwp.
  unfold wp in Hwp. destruct (lower_body E ops s0) as [o s]. simpl in *.
  intros [= _ <- <-] Hc Hk i ins Hi Hl.
  assert (Lerr code consts false (Some ni) s) as (d & k & X & HI).
  { destruct o; [|done|done]. destruct Hwp as (k & HI & _). by eapply Linv_err. }
  by apply (lg_ops _ _ _ _ _ _ (li_good _ _ _ _ _ _ _ _ HI (conj Hc Hk)) i ins Hi Hl ni).
Qed.

Lemma run_grow r code' consts' : run = (r, (code', consts')) → len code ≤ len code'.
Proof.
  rewrite run_eq. pose proof (wp_lower_body false None ltac:(done) no_widths) as Hwp. unfold wp in Hwp.
  destruct (lower_body E ops s0) as [o s]. simpl in *. intros [= _ <- _].
  destruct o; [destruct Hwp as (k & HI & _) | destruct Hwp as (d & k & X & HI) | done];
    destruct HI as [_ ? ? _ _ _ _]; lia.
Qed.

Lemma run_no_panic w out : run ≠ (Panic w, out).
Proof.
  rewrite run_eq. pose proof (wp_lower_body false None ltac:(done) no_widths) as Hwp. unfold wp in Hwp.
  by destruct (lower_body E ops s0) as [[] s].
Qed.

(** A well-nested body that is lowered leaves no placeholder. *)
Lemma run_closed meta code' consts' :
  wf_body ops = true → run = (Ok meta, (code', consts')) →
  ∃ s, Linv code consts true None 1 [] [] s ∧ ended KFunc s ∧ s.(st_ctrl) = [] ∧
    s.(st_code) = code' ∧ s.(st_consts) = consts' ∧
    meta = mkFuncMeta (u32 (len code)) (u32 (u32 (len code') - u32 (len code)))
             n_params n_results locals 0.
Proof.
  intros Hwf. rewrite run_eq. pose proof (wp_lower_body true None (fun _ => Hwf) no_widths) as Hwp. unfold wp in Hwp.
  destruct (lower_body E ops s0) as [[[]| |] s]; simpl; try done.
  intros [= <- <- <-]. destruct Hwp as (k & _ & HK & Hfin).
  destruct Hfin; [done|]. by exists s.
Qed.
End safety.

(** ** Theorems *)

(** [lower_operators] never panics: every index it patches or reads
    ([code[pc]], [ctrl[idx]]) is in range, for any operator sequence whatever,
    nested or not, and any size of the code. *)
Theorem lower_operators_no_panic ops n_params n_results n_locals code consts func_types
    func_typeidx n_imports host_fn_ids w :
  (lower_operators ops n_params n_results n_locals code consts func_types func_typeidx
     n_imports host_fn_ids).1 ≠ Panic w.
Proof.
  destruct (lower_operators _ _ _ _ _ _ _ _ _ _) as [r out] eqn:Hrun. simpl. intros ->.
  by apply run_no_panic in Hrun.
Qed.

(** The constant ops of [code] from address [from] on. *)
Definition const_refs_ok (from : Z) (code : list CuOpC) (consts : list Z) : Prop :=
  ∀ (i : nat) ins, from ≤ Z.of_nat i → code !! i = Some ins →
    ins.(cu_op) = OP_I64_CONST → 0 ≤ ins.(cu_b) < len consts.

(** C20. Whatever the outcome, error included, lowering a body only appends to the
    code and to the constant pool of the functions lowered before; the pool stays
    free of duplicates, and every constant op it appends refers to a pool entry. *)
Theorem lower_operators_frame ops n_params n_results n_locals code consts func_types
    func_typeidx n_imports host_fn_ids r code' consts' :
  lower_operators ops n_params n_results n_locals code consts func_types func_typeidx
    n_imports host_fn_ids = (r, (code', consts')) →
  len code' < 2 ^ 32 → len consts' < 2 ^ 32 →
  code `prefix_of` code' ∧ consts `prefix_of` consts' ∧
  (NoDup consts → NoDup consts') ∧ const_refs_ok (len code) code' consts'.
Proof.
  intros (s & (d & k & X & [_ _ _ Hpre Hnd _ Hgood]) & <- & <-)%run_Lerr Hc Hk.
  destruct (Hgood (conj Hc Hk)) as [G1 _ _ _ G5 _]. by split_and!.
Qed.

(** The branches of [code] from address [from] on stay in [from, to), and the conditional
    ones go forward. *)
Definition targets_ok (from to : Z) (code : list CuOpC) : Prop :=
  ∀ (i : nat) ins, from ≤ Z.of_nat i → code !! i = Some ins →
    is_branch ins = true →
    from ≤ ins.(cu_b) < to ∧ (ins.(cu_op) = OP_BR_IF_NOT → Z.of_nat i < ins.(cu_b)).

(** C14. Lowering a well-nested body that succeeds yields a closed function: its
    record spans exactly the appended ops, the span is not empty and ends in
    [end_func], and every [br] and [br_if_not] in it, forward or backward,
    targets an op of the span, a [br_if_not] one that comes after it: no placeholder is
    left unpatched. *)
Theorem lower_operators_targets ops n_params n_results n_locals code consts func_types
    func_typeidx n_imports host_fn_ids meta code' consts' :
  wf_body ops = true →
  lower_operators ops n_params n_results n_locals code consts func_types func_typeidx
    n_imports host_fn_ids = (Ok meta, (code', consts')) →
  len code' < 2 ^ 32 → len consts' < 2 ^ 32 →
  meta.(fm_code_off) = len code ∧
  meta.(fm_code_off) + meta.(fm_code_len) = len code' ∧
  (∃ ins, last code' = Some ins ∧ ins.(cu_op) = OP_END_FUNC) ∧
  targets_ok meta.(fm_code_off) (meta.(fm_code_off) + meta.(fm_code_len)) code'.
Proof.
  intros Hwf (s & HI & He & HK & <- & <- & ->)%run_closed Hc Hk; [|done]. simpl.
  pose proof (li_grow _ _ _ _ _ _ _ _ HI) as Hg. pose proof (len_nonneg code).
  rewrite !(u32_id (len _)) by lia. rewrite u32_id by lia.
  split_and!; [done | lia | by apply He|].
  destruct (li_good _ _ _ _ _ _ _ _ HI (conj Hc Hk)) as [_ _ _ G4 _ _].
  intros i ins Hi Hl Hb. destruct (G4 eq_refl i ins Hi Hl Hb) as [Hin|[? ?]]; [|split; [lia|done]].
  rewrite HK in Hin. by apply not_elem_of_nil in Hin.
Qed.

(** ** Witnesses *)

(** A body with a loop, an [if]/[else], a value-carrying branch and a table. *)
Definition sample_body : list Operator :=
  [ Block (BtType I64); LocalGet 0; Loop BtEmpty; LocalGet 0; I64Eqz;
    If BtEmpty; I64Const 7; Br 2; Else; LocalGet 0; I64Const 1; I64Sub; LocalSet 0; End;
    I32Const 2; BrTable 0 [Item 0; Item 1]; End; End; End ].

Definition sample_run :=
  lower_operators sample_body 1 1 0 [mkCuOp OP_END_FUNC 0 0] [1] [([I64], [I64])] [0] 0 [].

Lemma lower_operators_frame_witness :
  NoDup sample_run.2.2 ∧ const_refs_ok 1 sample_run.2.1 sample_run.2.2.
Proof.
  pose proof (lower_operators_frame sample_body 1 1 0 [mkCuOp OP_END_FUNC 0 0] [1]
    [([I64], [I64])] [0] 0 [] sample_run.1 sample_run.2.1 sample_run.2.2) as H.
  destruct H as (_ & _ & Hn & Hc); [vm_compute; reflexivity.. |].
  split; [apply Hn; apply NoDup_singleton | exact Hc].
Defined.

Lemma lower_operators_targets_witness :
  ∃ meta, sample_run.1 = Ok meta ∧ targets_ok 1 27 sample_run.2.1.
Proof.
  eexists. split; [vm_compute; reflexivity|].
  apply (lower_operators_targets sample_body 1 1 0 [mkCuOp OP_END_FUNC 0 0] [1]
    [([I64], [I64])] [0] 0 [] (mkFuncMeta 1 26 1 1 1 0) sample_run.2.1 sample_run.2.2);
    vm_compute; reflexivity.
Defined.
