(* ===== verification/EnvTable.v ===== *)
(** * Host function identifiers

    [tools/src/env_fn_id.rs] numbers the host functions of
    [docs/soroban-env.json] in file order and resolves a WASM import
    [(module, name)] to its number; [tools/contract-tests/src/env_ids.rs] builds
    the same numbering again for the dispatcher.  Both tables are built here from
    one environment description, and the description of the repository is
    included so that the tables can be evaluated. *)

From S2P Require Import Prelude.
From stdpp Require Import base list strings gmap.

Local Open Scope Z_scope.

Record EnvFn := mkEnvFn { ef_export : string; ef_name : string }.
Record EnvMod := mkEnvMod { em_export : string; em_functions : list EnvFn }.

(** ** The translator's table (env_fn_id.rs) *)

Record Table := mkTable {
  by_import : gmap (string * string) Z;
  labels : list string }.

Definition fn_label (m : string) (f : EnvFn) : string :=
  m +:+ "::" +:+ f.(ef_export) +:+ " (" +:+ f.(ef_name) +:+ ")".

(** The body of the inner loop; the second component is the counter [id: u32]. *)
Definition add_fn (m : string) (acc : Table * Z) (f : EnvFn) : Table * Z :=
  let '(t, id) := acc in
  (mkTable (<[(m, f.(ef_export)) := id]> t.(by_import)) (t.(labels) ++ [fn_label m f]),
   u32 (id + 1)).

Definition build_loop (root : list EnvMod) (acc : Table * Z) : Table * Z :=
  foldl (fun acc m => foldl (add_fn m.(em_export)) acc m.(em_functions)) acc root.

Definition build (root : list EnvMod) : Table :=
  (build_loop root (mkTable ∅ [], 0)).1.

Definition lookup_fn (root : list EnvMod) (mod_export fn_export : string) : outcome Z :=
  ok_or ((build root).(by_import) !! (mod_export, fn_export))
    (fmt_s "unknown host import {mod_export}::{fn_export}" [mod_export; fn_export]).

Definition label (root : list EnvMod) (fn_id : Z) : option string :=
  (build root).(labels) !! Z.to_nat fn_id.

Definition n_functions (root : list EnvMod) : Z := u32 (len (build root).(labels)).

(** ** The dispatcher's table (env_ids.rs) *)

Definition id_entry (m : string) (f : EnvFn) : string * string :=
  (m +:+ "::" +:+ f.(ef_export), f.(ef_name)).

Definition by_id (root : list EnvMod) : list (string * string) :=
  foldl (fun acc m =>
    foldl (fun acc f => acc ++ [id_entry m.(em_export) f]) acc m.(em_functions)) [] root.

Definition name (root : list EnvMod) (fn_id : Z) : option string :=
  snd <$> by_id root !! Z.to_nat fn_id.

Definition import_key (root : list EnvMod) (fn_id : Z) : option string :=
  fst <$> by_id root !! Z.to_nat fn_id.

(** ** docs/soroban-env.json *)

(** The modules and functions of the file, with the fields the tables read. *)
Definition soroban_env : list EnvMod :=
  [
    mkEnvMod "x" [
      mkEnvFn "_" "log_from_linear_memory";
      mkEnvFn "0" "obj_cmp";
      mkEnvFn "1" "contract_event";
      mkEnvFn "2" "get_ledger_version";
      mkEnvFn "3" "get_ledger_sequence";
      mkEnvFn "4" "get_ledger_timestamp";
      mkEnvFn "5" "fail_with_error";
      mkEnvFn "6" "get_ledger_network_id";
      mkEnvFn "7" "get_current_contract_address";
      mkEnvFn "8" "get_max_live_until_ledger" ];
    mkEnvMod "i" [
      mkEnvFn "_" "obj_from_u64";
      mkEnvFn "0" "obj_to_u64";
      mkEnvFn "1" "obj_from_i64";
      mkEnvFn "2" "obj_to_i64";
      mkEnvFn "3" "obj_from_u128_pieces";
      mkEnvFn "4" "obj_to_u128_lo64";
      mkEnvFn "5" "obj_to_u128_hi64";
      mkEnvFn "6" "obj_from_i128_pieces";
      mkEnvFn "7" "obj_to_i128_lo64";
      mkEnvFn "8" "obj_to_i128_hi64";
      mkEnvFn "9" "obj_from_u256_pieces";
      mkEnvFn "a" "u256_val_from_be_bytes";
      mkEnvFn "b" "u256_val_to_be_bytes";
      mkEnvFn "c" "obj_to_u256_hi_hi";
      mkEnvFn "d" "obj_to_u256_hi_lo";
      mkEnvFn "e" "obj_to_u256_lo_hi";
      mkEnvFn "f" "obj_to_u256_lo_lo";
      mkEnvFn "g" "obj_from_i256_pieces";
      mkEnvFn "h" "i256_val_from_be_bytes";
      mkEnvFn "i" "i256_val_to_be_bytes";
      mkEnvFn "j" "obj_to_i256_hi_hi";
      mkEnvFn "k" "obj_to_i256_hi_lo";
      mkEnvFn "l" "obj_to_i256_lo_hi";
      mkEnvFn "m" "obj_to_i256_lo_lo";
      mkEnvFn "n" "u256_add";
      mkEnvFn "o" "u256_sub";
      mkEnvFn "p" "u256_mul";
      mkEnvFn "q" "u256_div";
      mkEnvFn "r" "u256_rem_euclid";
      mkEnvFn "s" "u256_pow";
      mkEnvFn "t" "u256_shl";
      mkEnvFn "u" "u256_shr";
      mkEnvFn "v" "i256_add";
      mkEnvFn "w" "i256_sub";
      mkEnvFn "x" "i256_mul";
      mkEnvFn "y" "i256_div";
      mkEnvFn "z" "i256_rem_euclid";
      mkEnvFn "A" "i256_pow";
      mkEnvFn "B" "i256_shl";
      mkEnvFn "C" "i256_shr";
      mkEnvFn "D" "timepoint_obj_from_u64";
      mkEnvFn "E" "timepoint_obj_to_u64";
      mkEnvFn "F" "duration_obj_from_u64";
      mkEnvFn "G" "duration_obj_to_u64";
      mkEnvFn "H" "u256_checked_add";
      mkEnvFn "I" "u256_checked_sub";
      mkEnvFn "J" "u256_checked_mul";
      mkEnvFn "K" "u256_checked_pow";
      mkEnvFn "L" "i256_checked_add";
      mkEnvFn "M" "i256_checked_sub";
      mkEnvFn "N" "i256_checked_mul";
      mkEnvFn "O" "i256_checked_pow" ];
    mkEnvMod "m" [
      mkEnvFn "_" "map_new";
      mkEnvFn "0" "map_put";
      mkEnvFn "1" "map_get";
      mkEnvFn "2" "map_del";
      mkEnvFn "3" "map_len";
      mkEnvFn "4" "map_has";
      mkEnvFn "5" "map_key_by_pos";
      mkEnvFn "6" "map_val_by_pos";
      mkEnvFn "7" "map_keys";
      mkEnvFn "8" "map_values";
      mkEnvFn "9" "map_new_from_linear_memory";
      mkEnvFn "a" "map_unpack_to_linear_memory";
      mkEnvFn "b" "sparse_map_new_from_linear_memory";
      mkEnvFn "c" "sparse_map_unpack_to_linear_memory" ];
    mkEnvMod "v" [
      mkEnvFn "_" "vec_new";
      mkEnvFn "0" "vec_put";
      mkEnvFn "1" "vec_get";
      mkEnvFn "2" "vec_del";
      mkEnvFn "3" "vec_len";
      mkEnvFn "4" "vec_push_front";
      mkEnvFn "5" "vec_pop_front";
      mkEnvFn "6" "vec_push_back";
      mkEnvFn "7" "vec_pop_back";
      mkEnvFn "8" "vec_front";
      mkEnvFn "9" "vec_back";
      mkEnvFn "a" "vec_insert";
      mkEnvFn "b" "vec_append";
      mkEnvFn "c" "vec_slice";
      mkEnvFn "d" "vec_first_index_of";
      mkEnvFn "e" "vec_last_index_of";
      mkEnvFn "f" "vec_binary_search";
      mkEnvFn "g" "vec_new_from_linear_memory";
      mkEnvFn "h" "vec_unpack_to_linear_memory" ];
    mkEnvMod "l" [
      mkEnvFn "_" "put_contract_data";
      mkEnvFn "0" "has_contract_data";
      mkEnvFn "1" "get_contract_data";
      mkEnvFn "2" "del_contract_data";
      mkEnvFn "3" "create_contract";
      mkEnvFn "4" "create_asset_contract";
      mkEnvFn "5" "upload_wasm";
      mkEnvFn "6" "update_current_contract_wasm";
      mkEnvFn "7" "extend_contract_data_ttl";
      mkEnvFn "8" "extend_current_contract_instance_and_code_ttl";
      mkEnvFn "9" "extend_contract_instance_and_code_ttl";
      mkEnvFn "a" "get_contract_id";
      mkEnvFn "b" "get_asset_contract_id";
      mkEnvFn "c" "extend_contract_instance_ttl";
      mkEnvFn "d" "extend_contract_code_ttl";
      mkEnvFn "e" "create_contract_with_constructor";
      mkEnvFn "f" "extend_contract_data_ttl_v2";
      mkEnvFn "g" "extend_contract_instance_and_code_ttl_v2";
      mkEnvFn "h" "create_executable_tag";
      mkEnvFn "i" "create_external_ref_contract";
      mkEnvFn "j" "update_current_contract_executable_ref" ];
    mkEnvMod "d" [
      mkEnvFn "_" "call";
      mkEnvFn "0" "try_call" ];
    mkEnvMod "b" [
      mkEnvFn "_" "serialize_to_bytes";
      mkEnvFn "0" "deserialize_from_bytes";
      mkEnvFn "1" "bytes_copy_to_linear_memory";
      mkEnvFn "2" "bytes_copy_from_linear_memory";
      mkEnvFn "3" "bytes_new_from_linear_memory";
      mkEnvFn "4" "bytes_new";
      mkEnvFn "5" "bytes_put";
      mkEnvFn "6" "bytes_get";
      mkEnvFn "7" "bytes_del";
      mkEnvFn "8" "bytes_len";
      mkEnvFn "9" "bytes_push";
      mkEnvFn "a" "bytes_pop";
      mkEnvFn "b" "bytes_front";
      mkEnvFn "c" "bytes_back";
      mkEnvFn "d" "bytes_insert";
      mkEnvFn "e" "bytes_append";
      mkEnvFn "f" "bytes_slice";
      mkEnvFn "g" "string_copy_to_linear_memory";
      mkEnvFn "h" "symbol_copy_to_linear_memory";
      mkEnvFn "i" "string_new_from_linear_memory";
      mkEnvFn "j" "symbol_new_from_linear_memory";
      mkEnvFn "k" "string_len";
      mkEnvFn "l" "symbol_len";
      mkEnvFn "m" "symbol_index_in_linear_memory";
      mkEnvFn "n" "string_to_bytes";
      mkEnvFn "o" "bytes_to_string" ];
    mkEnvMod "c" [
      mkEnvFn "_" "compute_hash_sha256";
      mkEnvFn "0" "verify_sig_ed25519";
      mkEnvFn "1" "compute_hash_keccak256";
      mkEnvFn "2" "recover_key_ecdsa_secp256k1";
      mkEnvFn "3" "verify_sig_ecdsa_secp256r1";
      mkEnvFn "4" "bls12_381_check_g1_is_in_subgroup";
      mkEnvFn "5" "bls12_381_g1_add";
      mkEnvFn "6" "bls12_381_g1_mul";
      mkEnvFn "7" "bls12_381_g1_msm";
      mkEnvFn "8" "bls12_381_map_fp_to_g1";
      mkEnvFn "9" "bls12_381_hash_to_g1";
      mkEnvFn "a" "bls12_381_check_g2_is_in_subgroup";
      mkEnvFn "b" "bls12_381_g2_add";
      mkEnvFn "c" "bls12_381_g2_mul";
      mkEnvFn "d" "bls12_381_g2_msm";
      mkEnvFn "e" "bls12_381_map_fp2_to_g2";
      mkEnvFn "f" "bls12_381_hash_to_g2";
      mkEnvFn "g" "bls12_381_multi_pairing_check";
      mkEnvFn "h" "bls12_381_fr_add";
      mkEnvFn "i" "bls12_381_fr_sub";
      mkEnvFn "j" "bls12_381_fr_mul";
      mkEnvFn "k" "bls12_381_fr_pow";
      mkEnvFn "l" "bls12_381_fr_inv";
      mkEnvFn "m" "bn254_g1_add";
      mkEnvFn "n" "bn254_g1_mul";
      mkEnvFn "o" "bn254_multi_pairing_check";
      mkEnvFn "p" "poseidon_permutation";
      mkEnvFn "q" "poseidon2_permutation";
      mkEnvFn "r" "bn254_g1_msm";
      mkEnvFn "s" "bn254_fr_add";
      mkEnvFn "t" "bn254_fr_sub";
      mkEnvFn "u" "bn254_fr_mul";
      mkEnvFn "v" "bn254_fr_pow";
      mkEnvFn "w" "bn254_fr_inv";
      mkEnvFn "x" "bls12_381_g1_is_on_curve";
      mkEnvFn "y" "bls12_381_g2_is_on_curve";
      mkEnvFn "z" "bn254_g1_is_on_curve" ];
    mkEnvMod "a" [
      mkEnvFn "_" "require_auth_for_args";
      mkEnvFn "0" "require_auth";
      mkEnvFn "1" "strkey_to_address";
      mkEnvFn "2" "address_to_strkey";
      mkEnvFn "3" "authorize_as_curr_contract";
      mkEnvFn "4" "get_address_from_muxed_address";
      mkEnvFn "5" "get_id_from_muxed_address";
      mkEnvFn "6" "get_address_executable";
      mkEnvFn "7" "strkey_to_muxed_address";
      mkEnvFn "8" "muxed_address_to_strkey";
      mkEnvFn "9" "get_delegated_signers_for_current_auth_check";
      mkEnvFn "a" "delegate_account_auth" ];
    mkEnvMod "t" [
      mkEnvFn "_" "dummy0";
      mkEnvFn "0" "protocol_gated_dummy" ];
    mkEnvMod "p" [
      mkEnvFn "_" "prng_reseed";
      mkEnvFn "0" "prng_bytes_new";
      mkEnvFn "1" "prng_u64_in_inclusive_range";
      mkEnvFn "2" "prng_vec_shuffle" ] ].

(** ** The numbering *)

(** The functions in file order: function number [i] is entry [i]. *)
Definition flat (root : list EnvMod) : list (string * EnvFn) :=
  m ← root; pair m.(em_export) <$> m.(em_functions).

Definition fn_key (e : string * EnvFn) : string * string := (e.1, e.2.(ef_export)).

Definition add_entry (acc : Table * Z) (e : string * EnvFn) : Table * Z :=
  add_fn e.1 acc e.2.

Lemma foldl_fmap {A B C} (f : A → B → A) (g : C → B) l a :
  foldl f a (g <$> l) = foldl (fun a c => f a (g c)) a l.
Proof. revert a. induction l; simpl; auto. Qed.

Lemma build_loop_flat root acc : build_loop root acc = foldl add_entry acc (flat root).
Proof.
  revert acc. induction root as [|m root IH]; intros acc; [done|].
  change (flat (m :: root)) with ((pair m.(em_export) <$> m.(em_functions)) ++ flat root).
  rewrite foldl_app, foldl_fmap. apply IH.
Qed.

(** After the first entries: the counter, the labels, and the last entry of a
    key. *)
Definition built (es : list (string * EnvFn)) (acc : Table * Z) : Prop :=
  acc.2 = u32 (len es) ∧
  acc.1.(labels) = (fun e => fn_label e.1 e.2) <$> es ∧
  ∀ k id, acc.1.(by_import) !! k = Some id ↔
    ∃ i : nat, id = u32 (Z.of_nat i) ∧ fn_key <$> es !! i = Some k ∧
      ∀ j : nat, (i < j)%nat → fn_key <$> es !! j ≠ Some k.

Lemma built_snoc es acc e : built es acc → built (es ++ [e]) (add_entry acc e).
Proof.
  destruct acc as [t id]. intros (Hid & Hl & Hk). simpl in *. split_and!; simpl.
  - rewrite Hid. unfold u32. rewrite len_app. simpl. by rewrite Zplus_mod_idemp_l.
  - by rewrite Hl, fmap_app.
  - intros k n. destruct (decide ((e.1, e.2.(ef_export)) = k)) as [<-|Hne].
    + rewrite lookup_insert_eq. split.
      * intros [= <-]. exists (length es). split_and!; [done| |].
        -- rewrite list_lookup_middle by done. done.
        -- intros j Hj. rewrite lookup_ge_None_2; [done|]. rewrite length_app. simpl. lia.
      * intros (i & -> & Hi & Hlast). destruct (decide (i = length es)) as [->|Hi'].
        { by rewrite Hid. }
        apply fmap_Some in Hi as (e' & Hi%lookup_lt_Some & _).
        rewrite length_app in Hi. simpl in Hi. exfalso. apply (Hlast (length es)); [lia|].
        by rewrite list_lookup_middle.
    + rewrite lookup_insert_ne by done. rewrite Hk. split.
      * intros (i & -> & Hi & Hlast). exists i. split_and!; [done| |].
        -- apply fmap_Some in Hi as (e' & Hi & ->).
           by rewrite (lookup_app_l_Some _ _ _ _ Hi).
        -- intros j Hj (e' & Hl'%lookup_snoc_Some & ->)%fmap_Some.
           destruct Hl' as [[_ Hl']|[_ <-]]; [|done]. apply (Hlast j Hj). by rewrite Hl'.
      * intros (i & -> & (e' & Hl'%lookup_snoc_Some & ->)%fmap_Some & Hlast).
        destruct Hl' as [[Hlt Hl']|[_ <-]]; [|done]. exists i. split_and!; [done|by rewrite Hl'|].
        intros j Hj (e'' & Hj' & Hke)%fmap_Some. apply (Hlast j Hj).
        by rewrite (lookup_app_l_Some _ _ _ _ Hj'), Hke.
Qed.

Lemma built_fold es : built es (foldl add_entry (mkTable ∅ [], 0) es).
Proof.
  induction es as [|e es IH] using rev_ind.
  - split_and!; [done..|]. intros k id. simpl. rewrite lookup_empty.
    split; [done|]. intros (i & _ & Hi & _). done.
  - rewrite foldl_app. by apply built_snoc.
Qed.

Lemma build_built root : built (flat root) (build_loop root (mkTable ∅ [], 0)).
Proof. rewrite build_loop_flat. apply built_fold. Qed.

Lemma foldl_snoc {A B} (f : A → B) l acc :
  foldl (fun acc x => acc ++ [f x]) acc l = acc ++ (f <$> l).
Proof.
  revert acc. induction l as [|x l IH]; intros acc; [by rewrite app_nil_r|].
  change (foldl (fun acc x => acc ++ [f x]) (acc ++ [f x]) l = acc ++ f x :: (f <$> l)).
  by rewrite IH, <-app_assoc.
Qed.

Lemma by_id_flat root : by_id root = (fun e => id_entry e.1 e.2) <$> flat root.
Proof.
  enough (∀ l, foldl (fun acc m =>
      foldl (fun acc f => acc ++ [id_entry m.(em_export) f]) acc m.(em_functions)) l root
    = l ++ ((fun e => id_entry e.1 e.2) <$> flat root)) as H by apply H.
  induction root as [|m root IH]; intros l; [by rewrite app_nil_r|].
  change (flat (m :: root)) with ((pair m.(em_export) <$> m.(em_functions)) ++ flat root).
  rewrite fmap_app, app_assoc, <-list_fmap_compose.
  rewrite <-(foldl_snoc (_ ∘ pair m.(em_export))). apply IH.
Qed.

Lemma lookup_fn_entry root m f id :
  len (flat root) < 2 ^ 32 →
  lookup_fn root m f = Ok id →
  ∃ fn, flat root !! Z.to_nat id = Some (m, fn) ∧ fn.(ef_export) = f ∧
    label root id = Some (fn_label m fn) ∧
    import_key root id = Some (m +:+ "::" +:+ f) ∧
    name root id = Some fn.(ef_name).
Proof.
  intros Hlen. unfold lookup_fn, ok_or, build. destruct (build_built root) as (_ & Hl & Hk).
  destruct (_ !! (m, f)) as [id'|] eqn:Hb; intros [= <-].
  apply Hk in Hb as (i & -> & ((m', fn) & Hi & [= -> Hf])%fmap_Some & _).
  pose proof (lookup_lt_Some _ _ _ Hi) as Hlt. unfold len in Hlen.
  rewrite u32_id by lia. unfold label, build, import_key, name. rewrite Hl, by_id_flat, Nat2Z.id.
  rewrite !list_lookup_fmap, Hi. exists fn. subst f. by split_and!.
Qed.

Lemma lookup_fn_range root m f id : lookup_fn root m f = Ok id → 0 ≤ id < 2 ^ 32.
Proof.
  unfold lookup_fn, ok_or, build. destruct (build_built root) as (_ & _ & Hk).
  destruct (_ !! (m, f)) as [id'|] eqn:Hb; intros [= <-].
  apply Hk in Hb as (i & -> & _). apply u32_range.
Qed.

(** ** Theorems *)

(** C38. Resolving an import is sound, and the two crates agree on the result: if the
    translator resolves [(m, f)] to [id] then entry [id] of the description is a
    function exported as [m::f], the translator's label for [id] is that
    function's, and the dispatcher's tables give [id] the same import key and the
    function's name.  It holds also when a key is listed twice. *)
Theorem lookup_agrees root m f id :
  len (flat root) < 2 ^ 32 →
  lookup_fn root m f = Ok id →
  ∃ fn, flat root !! Z.to_nat id = Some (m, fn) ∧ fn.(ef_export) = f ∧
    label root id = Some (fn_label m fn) ∧
    import_key root id = Some (m +:+ "::" +:+ f) ∧
    name root id = Some fn.(ef_name).
Proof.
  apply lookup_fn_entry.
Qed.

(** An import is rejected exactly when the description does not list it. *)
Theorem lookup_rejects root m f :
  (∃ e, lookup_fn root m f = Err e) ↔ (m, f) ∉ (fn_key <$> flat root).
Proof.
  unfold lookup_fn, ok_or, build. destruct (build_built root) as (_ & _ & Hk).
  destruct (_ !! (m, f)) as [id|] eqn:Hb; split; try done.
  - by intros [? ?].
  - intros Hn. apply Hk in Hb as (i & _ & Hi & _). exfalso. apply Hn.
    rewrite <-list_lookup_fmap in Hi. by eapply list_elem_of_lookup_2.
  - intros _ Hin. apply list_elem_of_split_r in Hin as (l1 & l2 & Heq & Hn2).
    assert (by_import (build_loop root (mkTable ∅ [], 0)).1 !! (m, f)
      = Some (u32 (Z.of_nat (length l1)))) as Hs.
    { apply Hk. exists (length l1). split; [done|].
      rewrite <-!list_lookup_fmap, Heq, list_lookup_middle by done. split; [done|].
      intros j Hj. rewrite <-list_lookup_fmap, Heq, lookup_app_r by lia.
      intros Hx. replace (j - length l1)%nat with (S (j - S (length l1)))%nat in Hx by lia.
      simpl in Hx. apply Hn2. by eapply list_elem_of_lookup_2. }
    by rewrite Hb in Hs.
  - eauto.
Qed.

(** For the description of the repository the numbering is a bijection: there are
    199 functions with pairwise distinct import keys, and the import of the
    function at position [i] resolves to [i]. *)
Theorem soroban_env_numbering :
  n_functions soroban_env = 199 ∧
  NoDup (fn_key <$> flat soroban_env) ∧
  imap (fun _ e => lookup_fn soroban_env e.1 e.2.(ef_export)) (flat soroban_env)
    = imap (fun i _ => Ok (Z.of_nat i)) (flat soroban_env).
Proof.
  split_and!.
  - vm_compute. reflexivity.
  - apply (bool_decide_eq_true_1 _). vm_compute. reflexivity.
  - vm_compute. reflexivity.
Qed.

Lemma lookup_agrees_witness :
  lookup_fn soroban_env "l" "_" = Ok 95 ∧ name soroban_env 95 = Some "put_contract_data".
Proof.
  destruct (lookup_agrees soroban_env "l" "_" 95) as (fn & _ & _ & _ & _ & Hn);
    [vm_compute; reflexivity..|].
  split; vm_compute; reflexivity.
Defined.
