(* ===== verification/Module.v ===== *)
(** * Translating a module

    [translate_wasm] of [tools/src/lib.rs]: the loop over the section payloads,
    which collects the module's parts, and the assembly of the [HostModule] that
    the engine loads.  The payload iterator ([Parser::parse_all] of wasmparser)
    is an argument; the host-function table is built from an environment
    description ([soroban_env] in the program). *)

From S2P Require Import Prelude Cuop Wasm Lower EnvTable.
From stdpp Require Import base list strings.

Local Open Scope Z_scope.

(** ** Payloads *)

Inductive CompositeInnerType :=
  | CtFunc (params results : list ValType)
  | CtOther.

Inductive TypeRef :=
  | TrFunc (type_idx : Z)
  | TrOther (dbg : string).

Record Import := mkImport { imp_module : string; imp_name : string; imp_ty : TypeRef }.

Record MemoryType := mkMemoryType {
  mt_initial : N;
  mt_maximum : option N;
  mt_memory64 : bool;
  mt_shared : bool;
  mt_page_size_log2 : option Z }.

Record TableType := mkTableType {
  tt_table64 : bool;
  tt_is_func_ref : bool;
  tt_initial : Z }.

(** A constant expression, as its operators reader. *)
Abbreviation ConstExpr := (list (item Operator)).

Inductive ElementKind :=
  | EkActive (table_index : option Z) (offset_expr : ConstExpr)
  | EkPassive
  | EkDeclared.

Inductive ElementItems :=
  | EiFunctions (r : list (item Z))
  | EiExpressions (r : list (item ConstExpr)).

Record Element := mkElement { el_kind : ElementKind; el_items : ElementItems }.

Inductive DataKind :=
  | DkActive (memory_index : Z) (offset_expr : ConstExpr)
  | DkPassive.

Record Data := mkData { d_kind : DataKind; d_data : list Z }.

Record Global := mkGlobal { g_content_type : ValType; g_init_expr : ConstExpr }.

Record Export := mkExport { ex_name : string; ex_is_func : bool; ex_index : Z }.

(** A function body: its locals and operators readers may fail to open. *)
Record FunctionBody := mkBody {
  fb_locals : item (list (item (Z * ValType)));
  fb_operators : item (list (item Operator)) }.

Inductive Payload :=
  | TypeSection (r : list (item (list CompositeInnerType)))
  | FunctionSection (r : list (item Z))
  | ImportSection (r : list (item Import))
  | MemorySection (r : list (item MemoryType))
  | TableSection (r : list (item TableType))
  | ElementSection (r : list (item Element))
  | DataSection (r : list (item Data))
  | DataCountSection
  | GlobalSection (r : list (item Global))
  | ExportSection (r : list (item Export))
  | CodeSectionEntry (body : FunctionBody)
  | StartSection
  | OtherPayload.

(** ** State *)

(** The local variables of [translate_wasm], grouped as the sections fill them. *)
Record Imports := mkImports {
  host_fn_ids : list Z;
  imports_mod : list string;
  imports_name : list string;
  imports_env : list string }.

Record MemDecl := mkMemDecl {
  mem_min : N;
  mem_max_pages : option N;
  has_memory : bool }.

Record CodeOut := mkCodeOut {
  co_code : list CuOpC;
  co_consts : list Z;
  co_funcs : list FuncMetaC }.

Record TState := mkTState {
  ts_func_types : list FuncType;
  ts_func_typeidx : list Z;
  ts_exports : list (string * Z);
  ts_out : CodeOut;
  ts_globals : list Z;
  ts_mem : MemDecl;
  ts_table : list Z;
  ts_data : list (bool * Z * list Z);
  ts_elem : list (Z * list Z);
  ts_imports : Imports }.

Definition init_state : TState :=
  mkTState [] [] [] (mkCodeOut [] [] []) [] (mkMemDecl 0%N None false) [] [] []
    (mkImports [] [] [] []).

Abbreviation TM := (St TState).

Definition set_func_types x s := mkTState x s.(ts_func_typeidx) s.(ts_exports) s.(ts_out)
  s.(ts_globals) s.(ts_mem) s.(ts_table) s.(ts_data) s.(ts_elem) s.(ts_imports).
Definition set_func_typeidx x s := mkTState s.(ts_func_types) x s.(ts_exports) s.(ts_out)
  s.(ts_globals) s.(ts_mem) s.(ts_table) s.(ts_data) s.(ts_elem) s.(ts_imports).
Definition set_exports x s := mkTState s.(ts_func_types) s.(ts_func_typeidx) x s.(ts_out)
  s.(ts_globals) s.(ts_mem) s.(ts_table) s.(ts_data) s.(ts_elem) s.(ts_imports).
Definition set_out x s := mkTState s.(ts_func_types) s.(ts_func_typeidx) s.(ts_exports) x
  s.(ts_globals) s.(ts_mem) s.(ts_table) s.(ts_data) s.(ts_elem) s.(ts_imports).
Definition set_globals x s := mkTState s.(ts_func_types) s.(ts_func_typeidx) s.(ts_exports)
  s.(ts_out) x s.(ts_mem) s.(ts_table) s.(ts_data) s.(ts_elem) s.(ts_imports).
Definition set_mem x s := mkTState s.(ts_func_types) s.(ts_func_typeidx) s.(ts_exports)
  s.(ts_out) s.(ts_globals) x s.(ts_table) s.(ts_data) s.(ts_elem) s.(ts_imports).
Definition set_table x s := mkTState s.(ts_func_types) s.(ts_func_typeidx) s.(ts_exports)
  s.(ts_out) s.(ts_globals) s.(ts_mem) x s.(ts_data) s.(ts_elem) s.(ts_imports).
Definition set_data x s := mkTState s.(ts_func_types) s.(ts_func_typeidx) s.(ts_exports)
  s.(ts_out) s.(ts_globals) s.(ts_mem) s.(ts_table) x s.(ts_elem) s.(ts_imports).
Definition set_elem x s := mkTState s.(ts_func_types) s.(ts_func_typeidx) s.(ts_exports)
  s.(ts_out) s.(ts_globals) s.(ts_mem) s.(ts_table) s.(ts_data) x s.(ts_imports).
Definition set_imports x s := mkTState s.(ts_func_types) s.(ts_func_typeidx) s.(ts_exports)
  s.(ts_out) s.(ts_globals) s.(ts_mem) s.(ts_table) s.(ts_data) s.(ts_elem) x.

(** [for it in reader { let x = it.map_err(...)?; body(x)? }] *)
Definition for_items {A} (ctx : string) (r : list (item A)) (body : A → TM unit) : TM unit :=
  for_each r (fun it => x ← lift (read ctx it); body x).

(** ** Sections *)

Definition type_entry (ct : CompositeInnerType) : TM unit :=
  match ct with
  | CtFunc params results =>
      lift (only_int params);;
      lift (only_int results);;
      modify (fun s => set_func_types (s.(ts_func_types) ++ [(params, results)]) s)
  | CtOther => fail (msg "non-func type in type section")
  end.

Definition type_section (r : list (item (list CompositeInnerType))) : TM unit :=
  for_items "type: {e}" r (fun rec => for_each rec type_entry).

Definition function_section (r : list (item Z)) : TM unit :=
  for_items "funcsec: {e}" r (fun idx =>
    modify (fun s => set_func_typeidx (s.(ts_func_typeidx) ++ [idx]) s)).

Definition import_func (root : list EnvMod) (imp : Import) (type_idx : Z) : TM unit :=
  func_types ← gets ts_func_types;
  match func_types !! Z.to_nat type_idx with
  | None => fail (fmt_s "import type oob: {}::{}" [imp.(imp_module); imp.(imp_name)])
  | Some ft =>
      lift (only_int ft.1);;
      lift (only_int ft.2);;
      fn_id ← lift (lookup_fn root imp.(imp_module) imp.(imp_name));
      let env_label := default "?" (label root fn_id) in
      modify (fun s => set_func_typeidx (s.(ts_func_typeidx) ++ [type_idx]) s);;
      modify (fun s =>
        let i := s.(ts_imports) in
        set_imports (mkImports (i.(host_fn_ids) ++ [fn_id])
                       (i.(imports_mod) ++ [imp.(imp_module)])
                       (i.(imports_name) ++ [imp.(imp_name)])
                       (i.(imports_env) ++ [env_label])) s);;
      modify (fun s =>
        let o := s.(ts_out) in
        let f := mkFuncMeta 0 0 (u16 (len ft.1)) (u16 (len ft.2)) 0 0 in
        set_out (mkCodeOut o.(co_code) o.(co_consts) (o.(co_funcs) ++ [f])) s)
  end.

Definition import_entry (root : list EnvMod) (imp : Import) : TM unit :=
  match imp.(imp_ty) with
  | TrFunc type_idx => import_func root imp type_idx
  | TrOther d => fail (fmt_s "unsupported import {:?}: {}::{}" [d; imp.(imp_module); imp.(imp_name)])
  end.

Definition import_section (root : list EnvMod) (r : list (item Import)) : TM unit :=
  for_items "import: {e}" r (import_entry root).

Definition memory_entry (mt : MemoryType) : TM unit :=
  mem ← gets ts_mem;
  if mem.(has_memory) then fail (msg "multiple memories not supported")
  else if mt.(mt_memory64) then fail (msg "memory64 not supported")
  else if mt.(mt_shared) then fail (msg "shared memory not supported")
  else if bool_decide (is_Some mt.(mt_page_size_log2))
  then fail (msg "custom page size not supported")
  else modify (set_mem (mkMemDecl mt.(mt_initial) mt.(mt_maximum) true)).

Definition memory_section (r : list (item MemoryType)) : TM unit :=
  for_items "memory: {e}" r memory_entry.

Definition table_entry (t : TableType) : TM unit :=
  table ← gets ts_table;
  if negb (len table =? 0) then fail (msg "multiple tables not supported")
  else if t.(tt_table64) then fail (msg "table64 not supported")
  else if negb t.(tt_is_func_ref) then fail (msg "unsupported table elem type {:?}")
  else if 1024 <? t.(tt_initial) then fail (msg "table too large")
  else modify (set_table (replicate (Z.to_nat t.(tt_initial)) TABLE_NULL)).

Definition table_section (r : list (item TableType)) : TM unit :=
  for_items "table: {e}" r table_entry.

Definition elem_offset (k : ElementKind) : outcome Z :=
  match k with
  | EkActive table_index offset_expr =>
      if negb (default 0 table_index =? 0) then Err (msg "elem to non-zero table")
      else eval_i32_expr offset_expr
  | EkPassive | EkDeclared => Err (msg "passive/declared elem not supported")
  end.

(** [for op in expr.get_operators_reader() { match op { ... } }]: the last
    reference wins. *)
Fixpoint elem_expr (ops : ConstExpr) (fidx : option Z) : outcome (option Z) :=
  match ops with
  | [] => Ok fidx
  | it :: ops' =>
      o ← read "elem op: {e}" it;
      match o with
      | RefFunc function_index => elem_expr ops' (Some function_index)
      | RefNull => elem_expr ops' (Some TABLE_NULL)
      | End => elem_expr ops' fidx
      | _ => Err (msg "unsupported elem expr {other:?}")
      end
  end.

Fixpoint elem_functions (r : list (item Z)) : outcome (list Z) :=
  match r with
  | [] => Ok []
  | it :: r' =>
      i ← read "elem func: {e}" it;
      idxs ← elem_functions r';
      Ok (i :: idxs)
  end.

Fixpoint elem_expressions (r : list (item ConstExpr)) : outcome (list Z) :=
  match r with
  | [] => Ok []
  | it :: r' =>
      e ← read "elem expr: {e}" it;
      fidx ← elem_expr e None;
      i ← ok_or fidx (msg "empty elem expr");
      idxs ← elem_expressions r';
      Ok (i :: idxs)
  end.

Definition elem_items (items : ElementItems) : outcome (list Z) :=
  match items with
  | EiFunctions r => elem_functions r
  | EiExpressions r => elem_expressions r
  end.

Definition element_entry (el : Element) : TM unit :=
  off ← lift (elem_offset el.(el_kind));
  idxs ← lift (elem_items el.(el_items));
  modify (fun s => set_elem (s.(ts_elem) ++ [(off, idxs)]) s).

Definition element_section (r : list (item Element)) : TM unit :=
  for_items "elem: {e}" r element_entry.

Definition data_entry (d : Data) : TM unit :=
  match d.(d_kind) with
  | DkActive memory_index offset_expr =>
      if negb (memory_index =? 0) then fail (msg "data to non-zero memory")
      else
        off ← lift (eval_i32_expr offset_expr);
        modify (fun s => set_data (s.(ts_data) ++ [(true, off, d.(d_data))]) s)
  | DkPassive =>
      modify (fun s => set_data (s.(ts_data) ++ [(false, 0, d.(d_data))]) s)
  end.

Definition data_section (r : list (item Data)) : TM unit :=
  for_items "data: {e}" r data_entry.

(** [i32], [i64], [f32] and [f64] are accepted for globals and locals. *)
Definition is_num (t : ValType) : bool :=
  match t with I32 | I64 | F32 | F64 => true | OtherVal _ => false end.

Fixpoint global_init (ops : ConstExpr) (val : option Z) : outcome (option Z) :=
  match ops with
  | [] => Ok val
  | it :: ops' =>
      o ← read "global init: {e}" it;
      match o with
      | I32Const value => global_init ops' (Some (u64 (u32 value)))
      | I64Const value => global_init ops' (Some (u64 value))
      | F32Const bits => global_init ops' (Some (u64 bits))
      | F64Const bits => global_init ops' (Some bits)
      | End => global_init ops' val
      | _ => Err (msg "unsupported global init {other:?}")
      end
  end.

Definition global_entry (g : Global) : TM unit :=
  if negb (is_num g.(g_content_type)) then fail (msg "unsupported global type {:?}")
  else
    val ← lift (global_init g.(g_init_expr) None);
    v ← lift (ok_or val (msg "empty global init"));
    modify (fun s => set_globals (s.(ts_globals) ++ [v]) s).

Definition global_section (r : list (item Global)) : TM unit :=
  for_items "global: {e}" r global_entry.

Definition export_entry (ex : Export) : TM unit :=
  if ex.(ex_is_func)
  then modify (fun s => set_exports (s.(ts_exports) ++ [(ex.(ex_name), ex.(ex_index))]) s)
  else mret tt.

Definition export_section (r : list (item Export)) : TM unit :=
  for_items "export: {e}" r export_entry.

(** [n_locals = n_locals.checked_add(cnt)?] over the declarations. *)
Fixpoint count_locals (r : list (item (Z * ValType))) (n_locals : Z) : outcome Z :=
  match r with
  | [] => Ok n_locals
  | it :: r' =>
      '(cnt, ty) ← read "local: {e}" it;
      if negb (is_num ty) then Err (msg "non-int local {:?}")
      else if 2 ^ 32 - 1 <? n_locals + cnt then Err (msg "too many locals")
      else count_locals r' (n_locals + cnt)
  end.

Fixpoint read_ops (r : list (item Operator)) : outcome (list Operator) :=
  match r with
  | [] => Ok []
  | it :: r' =>
      o ← read "op: {e}" it;
      os ← read_ops r';
      Ok (o :: os)
  end.

(** The two ops a body that cannot be lowered is replaced by. *)
Definition stub (code : list CuOpC) (n_params n_results : Z) : FuncMetaC * list CuOpC :=
  (mkFuncMeta (u32 (len code)) 2 n_params n_results 0 0,
   code ++ [mkCuOp OP_UNREACHABLE 0 0; mkCuOp OP_END_FUNC n_results 0]).

(** [match lower_operators(...) { Ok(m) => m, Err(_) => { ...stub... } }] *)
Definition lower_or_stub (ops : list Operator) (n_params n_results n_locals : Z)
    (code : list CuOpC) (consts : list Z) (func_types : list FuncType)
    (func_typeidx : list Z) (ids : list Z) : outcome (FuncMetaC * list CuOpC * list Z) :=
  let '(r, (code, consts)) :=
    lower_operators ops n_params n_results n_locals code consts func_types func_typeidx
      (u32 (len ids)) ids in
  match r with
  | Ok meta => Ok (meta, code, consts)
  | Err _ => let '(meta, code) := stub code n_params n_results in Ok (meta, code, consts)
  | Panic w => Panic w
  end.

Definition code_entry (body : FunctionBody) : TM unit :=
  s ← gets id;
  let fi := length s.(ts_out).(co_funcs) in
  match s.(ts_func_typeidx) !! fi with
  | None => fail (msg "code/function section mismatch")
  | Some tidx =>
      match s.(ts_func_types) !! Z.to_nat tidx with
      | None => fail (msg "type index oob")
      | Some ft =>
          let n_params := u16 (len ft.1) in
          let n_results := u16 (len ft.2) in
          locals_reader ← lift (read "locals: {e}" body.(fb_locals));
          n_locals ← lift (count_locals locals_reader 0);
          if 2 ^ 16 - 1 <? n_locals then fail (msg "too many locals")
          else
            ops_reader ← lift (read "ops: {e}" body.(fb_operators));
            ops ← lift (read_ops ops_reader);
            '(meta, code, consts) ← lift
              (lower_or_stub ops n_params n_results (u16 n_locals) s.(ts_out).(co_code)
                 s.(ts_out).(co_consts) s.(ts_func_types) s.(ts_func_typeidx)
                 s.(ts_imports).(host_fn_ids));
            modify (set_out (mkCodeOut code consts (s.(ts_out).(co_funcs) ++ [meta])))
      end
  end.

Definition payload_step (root : list EnvMod) (p : Payload) : TM unit :=
  match p with
  | TypeSection r => type_section r
  | FunctionSection r => function_section r
  | ImportSection r => import_section root r
  | MemorySection r => memory_section r
  | TableSection r => table_section r
  | ElementSection r => element_section r
  | DataSection r => data_section r
  | DataCountSection => mret tt
  | GlobalSection r => global_section r
  | ExportSection r => export_section r
  | CodeSectionEntry body => code_entry body
  | StartSection => fail (msg "start section not supported")
  | OtherPayload => mret tt
  end.

Definition payload_loop (root : list EnvMod) (ps : list (item Payload)) : TM unit :=
  for_items "parse: {e}" ps (payload_step root).

(** ** Assembly *)

Record HostModule := mkHostModule {
  hm_code : list CuOpC;
  hm_consts : list Z;
  hm_funcs : list FuncMetaC;
  hm_exports : list (string * Z);
  hm_globals : list Z;
  hm_memory : list Z;
  hm_mem_size : Z;
  hm_mem_max : Z;
  hm_data_blob : list Z;
  hm_data_off : list Z;
  hm_data_len : list Z;
  hm_data_live : list Z;
  hm_table : list Z;
  hm_func_typeidx : list Z;
  hm_type_fp : list Z;
  hm_n_host_imports : Z;
  hm_host_fn_id : list Z;
  hm_host_import_mod : list string;
  hm_host_import_name : list string;
  hm_host_import_env : list string }.

(** [for (p, r) in &func_types { type_fp.push(type_fingerprint(p, r)?) }] *)
Fixpoint fingerprints (func_types : list FuncType) : outcome (list Z) :=
  match func_types with
  | [] => Ok []
  | ft :: fts =>
      fp ← type_fingerprint ft.1 ft.2;
      fps ← fingerprints fts;
      Ok (fp :: fps)
  end.

Definition u32_saturating_mul (x y : Z) : Z := Z.min (x * y) (2 ^ 32 - 1).

Definition cap_pages (m : MemDecl) : Z :=
  Z.min (default CUWASM_MEM_MAX_PAGES (Z.of_N <$> m.(mem_max_pages))) CUWASM_MEM_MAX_PAGES.

(** [(mem_size, mem_max)] in bytes. *)
Definition memory_sizes (m : MemDecl) : outcome (Z * Z) :=
  if m.(has_memory) && (cap_pages m <? Z.of_N m.(mem_min))
  then Err (msg "memory too large for host")
  else
    Ok (if m.(has_memory) then u32_saturating_mul (u32 (Z.of_N m.(mem_min))) WASM_PAGE else 0,
        if m.(has_memory) then u32_saturating_mul (u32 (cap_pages m)) WASM_PAGE else 0).

(** [memory[o..o + bytes.len()].copy_from_slice(&bytes)]: the range is checked. *)
Definition copy_into (memory : list Z) (o : nat) (bytes : list Z) : outcome (list Z) :=
  if (o + length bytes <=? length memory)%nat
  then Ok (take o memory ++ bytes ++ drop (o + length bytes) memory)
  else Panic "range end index out of range for slice".

(** The data-segment loop: its variables, and one iteration. *)
Record DataOut := mkDataOut {
  do_memory : list Z;
  do_blob : list Z;
  do_off : list Z;
  do_len : list Z;
  do_live : list Z }.

Definition data_step (mem_size : Z) (seg : bool * Z * list Z) (d : DataOut) : outcome DataOut :=
  let '(active, off, bytes) := seg in
  let start := u32 (len d.(do_blob)) in
  let blob := d.(do_blob) ++ bytes in
  let offs := d.(do_off) ++ [start] in
  let lens := d.(do_len) ++ [u32 (len bytes)] in
  if (active : bool) then
    if mem_size <? off + len bytes then Err (msg "data segment out of bounds")
    else
      memory ← (if negb (len bytes =? 0)
                then copy_into d.(do_memory) (Z.to_nat off) bytes else Ok d.(do_memory));
      Ok (mkDataOut memory blob offs lens (d.(do_live) ++ [0]))
  else Ok (mkDataOut d.(do_memory) blob offs lens (d.(do_live) ++ [1])).

Fixpoint data_loop (mem_size : Z) (segs : list (bool * Z * list Z)) (d : DataOut)
    : outcome DataOut :=
  match segs with
  | [] => Ok d
  | seg :: segs' => d' ← data_step mem_size seg d; data_loop mem_size segs' d'
  end.

(** One element segment from slot [slot] on. *)
Fixpoint elem_write (table : list Z) (slot : nat) (idxs : list Z) : outcome (list Z) :=
  match idxs with
  | [] => Ok table
  | fi :: idxs' =>
      if (length table <=? slot)%nat then Err (msg "elem segment out of bounds")
      else elem_write (<[slot := fi]> table) (S slot) idxs'
  end.

Fixpoint elem_loop (table : list Z) (segs : list (Z * list Z)) : outcome (list Z) :=
  match segs with
  | [] => Ok table
  | (off, idxs) :: segs' =>
      table' ← elem_write table (Z.to_nat off) idxs;
      elem_loop table' segs'
  end.

Definition assemble (s : TState) : outcome HostModule :=
  let i := s.(ts_imports) in
  let o := s.(ts_out) in
  type_fp ← fingerprints s.(ts_func_types);
  '(mem_size, mem_max) ← memory_sizes s.(ts_mem);
  d ← data_loop mem_size s.(ts_data)
        (mkDataOut (replicate (Z.to_nat mem_max) 0) [] [] [] []);
  table ← elem_loop s.(ts_table) s.(ts_elem);
  match o.(co_funcs) with
  | [] => Err (msg "no functions")
  | _ :: _ =>
      Ok (mkHostModule o.(co_code) o.(co_consts) o.(co_funcs) s.(ts_exports) s.(ts_globals)
            d.(do_memory) mem_size mem_max d.(do_blob) d.(do_off) d.(do_len) d.(do_live)
            table s.(ts_func_typeidx) type_fp (u32 (len i.(host_fn_ids))) i.(host_fn_ids)
            i.(imports_mod) i.(imports_name) i.(imports_env))
  end.

(** [parse_all]: wasmparser's payload iterator over the module's bytes. *)
Definition translate_wasm (root : list EnvMod) (parse_all : list Z → list (item Payload))
    (bytes : list Z) : outcome HostModule :=
  match payload_loop root (parse_all bytes) init_state with
  | (Ok _, s) => assemble s
  | (Err e, _) => Err e
  | (Panic w, _) => Panic w
  end.
