(* ===== verification/ModuleSteps.v ===== *)
(** * The section loop as a step relation

    Every section handler of [translate_wasm] is a sequence of atomic steps on
    the translator's state, one per item it accepts: [tstep].  The handlers are
    shown to take only these steps and never to panic, so an invariant of the
    translated module is proved by looking at the ten kinds of step, once. *)

From S2P Require Import Prelude Cuop Wasm Lower LowerInv LowerSafety EnvTable Module.
From stdpp Require Import base list strings relations.

Local Open Scope Z_scope.

(** ** Nothing in the pure readers panics *)

#[export] Instance read_no_panic {A} ctx (it : item A) : NoPanic (read ctx it).
Proof. by destruct it. Qed.

#[export] Instance val_tag_no_panic t : NoPanic (val_tag t).
Proof. by destruct t. Qed.

#[export] Instance fp_tags_no_panic sh i ts fp : NoPanic (fp_tags sh i ts fp).
Proof. revert i fp. induction ts; intros; simpl; no_panic_tac. Qed.

#[export] Instance type_fingerprint_no_panic ps rs : NoPanic (type_fingerprint ps rs).
Proof. unfold type_fingerprint. no_panic_tac. Qed.

#[export] Instance fingerprints_no_panic fts : NoPanic (fingerprints fts).
Proof. induction fts; simpl; no_panic_tac. Qed.

#[export] Instance constexpr_step_no_panic st o : NoPanic (constexpr_step st o).
Proof. destruct o; simpl; unfold constexpr_binop; no_panic_tac. Qed.

#[export] Instance constexpr_run_no_panic ops st : NoPanic (constexpr_run ops st).
Proof. revert st. induction ops; intros; simpl; no_panic_tac. Qed.

#[export] Instance eval_i32_expr_no_panic ops : NoPanic (eval_i32_expr ops).
Proof. unfold eval_i32_expr. no_panic_tac. Qed.

#[export] Instance only_int_no_panic ts : NoPanic (only_int ts).
Proof. induction ts as [|[] ts IH]; simpl; no_panic_tac. Qed.

#[export] Instance lookup_fn_no_panic root m f : NoPanic (lookup_fn root m f).
Proof. unfold lookup_fn. apply _. Qed.

#[export] Instance elem_offset_no_panic k : NoPanic (elem_offset k).
Proof. destruct k; simpl; no_panic_tac. Qed.

#[export] Instance elem_expr_no_panic ops i : NoPanic (elem_expr ops i).
Proof. revert i. induction ops; intros; simpl; no_panic_tac. Qed.

#[export] Instance elem_functions_no_panic r : NoPanic (elem_functions r).
Proof. induction r; simpl; no_panic_tac. Qed.

#[export] Instance elem_expressions_no_panic r : NoPanic (elem_expressions r).
Proof. induction r; simpl; no_panic_tac. Qed.

#[export] Instance elem_items_no_panic i : NoPanic (elem_items i).
Proof. destruct i; simpl; no_panic_tac. Qed.

#[export] Instance global_init_no_panic ops v : NoPanic (global_init ops v).
Proof. revert v. induction ops; intros; simpl; no_panic_tac. Qed.

#[export] Instance count_locals_no_panic r n : NoPanic (count_locals r n).
Proof. revert n. induction r; intros; simpl; no_panic_tac. Qed.

#[export] Instance read_ops_no_panic r : NoPanic (read_ops r).
Proof. induction r; simpl; no_panic_tac. Qed.

#[export] Instance lower_or_stub_no_panic ops np nr nl code consts fts ftis ids :
  NoPanic (lower_or_stub ops np nr nl code consts fts ftis ids).
Proof.
  intros w. unfold lower_or_stub.
  destruct (lower_operators _ _ _ _ _ _ _ _ _ _) as [r [c k]] eqn:Hrun.
  destruct r as [| |w']; [done|by destruct (stub _ _ _)|].
  by destruct (run_no_panic _ _ _ _ _ _ _ _ _ _ _ _ Hrun).
Qed.

#[export] Instance elem_write_no_panic table slot idxs : NoPanic (elem_write table slot idxs).
Proof. revert table slot. induction idxs; intros; simpl; no_panic_tac. Qed.

#[export] Instance elem_loop_no_panic table segs : NoPanic (elem_loop table segs).
Proof. revert table. induction segs; intros; simpl; no_panic_tac. Qed.

#[export] Instance memory_sizes_no_panic m : NoPanic (memory_sizes m).
Proof. unfold memory_sizes. apply _. Qed.

(** ** Steps *)

Definition add_type (ft : FuncType) (s : TState) : TState :=
  set_func_types (s.(ts_func_types) ++ [ft]) s.

Definition add_typeidx (t : Z) (s : TState) : TState :=
  set_func_typeidx (s.(ts_func_typeidx) ++ [t]) s.

Definition import_func_meta (ft : FuncType) : FuncMetaC :=
  mkFuncMeta 0 0 (u16 (len ft.1)) (u16 (len ft.2)) 0 0.

Definition add_import (imp : Import) (fn_id : Z) (env_label : string) (s : TState) : TState :=
  let i := s.(ts_imports) in
  set_imports (mkImports (i.(host_fn_ids) ++ [fn_id])
                 (i.(imports_mod) ++ [imp.(imp_module)])
                 (i.(imports_name) ++ [imp.(imp_name)])
                 (i.(imports_env) ++ [env_label])) s.

Definition add_func (code : list CuOpC) (consts : list Z) (f : FuncMetaC) (s : TState)
    : TState :=
  set_out (mkCodeOut code consts (s.(ts_out).(co_funcs) ++ [f])) s.

(** The indices a payload carries fit [u32]. *)
Definition items_all {A} (f : A → bool) (r : list (item A)) : bool :=
  forallb (fun it => match it with Item x => f x | ReadErr _ => true end) r.

Definition import_widths (imp : Import) : bool :=
  match imp.(imp_ty) with TrFunc t => u32_ok t | TrOther _ => true end.

Definition elem_widths (el : Element) : bool :=
  match elem_items el.(el_items) with Ok idxs => forallb u32_ok idxs | _ => true end.

Definition body_widths (b : FunctionBody) : bool :=
  match b.(fb_operators) with Item r => items_all op_widths r | ReadErr _ => true end.

Definition payload_widths (p : Payload) : bool :=
  match p with
  | FunctionSection r => items_all u32_ok r
  | ImportSection r => items_all import_widths r
  | ElementSection r => items_all elem_widths r
  | CodeSectionEntry b => body_widths b
  | _ => true
  end.

(** One accepted item of payload [p]. *)
Inductive tstep (root : list EnvMod) (p : Payload) (s : TState) : TState → Prop :=
  | step_type params results :
      only_int params = Ok tt → only_int results = Ok tt →
      tstep root p s (add_type (params, results) s)
  | step_typeidx r t :
      p = FunctionSection r → (payload_widths p = true → u32_ok t = true) →
      tstep root p s (add_typeidx t s)
  | step_import r imp t ft fn_id :
      p = ImportSection r → s.(ts_func_types) !! Z.to_nat t = Some ft →
      lookup_fn root imp.(imp_module) imp.(imp_name) = Ok fn_id →
      (payload_widths p = true → u32_ok t = true) →
      tstep root p s
        (add_func s.(ts_out).(co_code) s.(ts_out).(co_consts) (import_func_meta ft)
           (add_import imp fn_id (default "?" (label root fn_id)) (add_typeidx t s)))
  | step_memory mt :
      s.(ts_mem).(has_memory) = false →
      tstep root p s (set_mem (mkMemDecl mt.(mt_initial) mt.(mt_maximum) true) s)
  | step_table n :
      s.(ts_table) = [] → n ≤ 1024 →
      tstep root p s (set_table (replicate (Z.to_nat n) TABLE_NULL) s)
  | step_elem k off idxs :
      elem_offset k = Ok off → (payload_widths p = true → forallb u32_ok idxs = true) →
      tstep root p s (set_elem (s.(ts_elem) ++ [(off, idxs)]) s)
  | step_data (act : bool) e off bytes :
      (if act then eval_i32_expr e = Ok off else off = 0) →
      tstep root p s (set_data (s.(ts_data) ++ [(act, off, bytes)]) s)
  | step_global v : tstep root p s (set_globals (s.(ts_globals) ++ [v]) s)
  | step_export nm i : tstep root p s (set_exports (s.(ts_exports) ++ [(nm, i)]) s)
  | step_code body t ft ops_reader ops n_locals meta code consts :
      p = CodeSectionEntry body →
      s.(ts_func_typeidx) !! length s.(ts_out).(co_funcs) = Some t →
      s.(ts_func_types) !! Z.to_nat t = Some ft →
      body.(fb_operators) = Item ops_reader → read_ops ops_reader = Ok ops →
      n_locals < 2 ^ 16 →
      lower_or_stub ops (u16 (len ft.1)) (u16 (len ft.2)) (u16 n_locals)
        s.(ts_out).(co_code) s.(ts_out).(co_consts) s.(ts_func_types) s.(ts_func_typeidx)
        s.(ts_imports).(host_fn_ids) = Ok (meta, code, consts) →
      tstep root p s (add_func code consts meta s).

Lemma items_all_in {A} (f : A → bool) r x : items_all f r = true → Item x ∈ r → f x = true.
Proof.
  intros Hr Hx%list_elem_of_In. unfold items_all in Hr. rewrite forallb_forall in Hr.
  by apply (Hr _ Hx).
Qed.

Section steps.
Context (root : list EnvMod) (p : Payload).

Let R := tstep root p.
Let post (s : TState) : unit → TState → Prop := fun _ s' => rtc R s s'.
Let any : TState → Prop := fun _ => True.

Lemma wp_one s s' (m : TM unit) :
  m s = (Ok tt, s') → R s s' → wp m (post s) any s.
Proof. unfold wp, post. intros ->. apply rtc_once. Qed.

Lemma wp_read {A B} (o : outcome A) (f : A → TM B) Q s :
  NoPanic o → (∀ a, o = Ok a → wp (f a) Q any s) → wp (lift o ≫= f) Q any s.
Proof. intros Hp Hf. apply wp_bind, wp_lift; [done|done|apply Hp]. Qed.

Lemma wp_steps {A} (l : list A) (body : A → TM unit) s :
  (∀ x s, x ∈ l → wp (body x) (post s) any s) → wp (for_each l body) (post s) any s.
Proof.
  intros Hb. eapply wp_mono;
    [apply (wp_for_each l body (fun l' s' => rtc R s s' ∧ l' ⊆ l)); [done|]|by intros ? ? [? _]|done].
  intros x l' s' [Hs Hsub]. eapply wp_mono; [apply Hb, Hsub; by left| |done].
  intros [] s'' ?. split; [by etrans|]. intros y Hy. apply Hsub. by right.
Qed.

Lemma wp_items {A} ctx (r : list (item A)) (body : A → TM unit) s :
  (∀ x s, Item x ∈ r → wp (body x) (post s) any s) → wp (for_items ctx r body) (post s) any s.
Proof.
  intros Hb. apply wp_steps. intros it s' Hit. apply wp_read; [apply _|]. intros x Hx.
  destruct it; simplify_eq/=. by apply Hb.
Qed.

Lemma wp_type_entry ct s : wp (type_entry ct) (post s) any s.
Proof.
  destruct ct as [ps rs|]; [|done]. simpl.
  apply wp_read; [apply _|]. intros [] ?. apply wp_read; [apply _|]. intros [] ?.
  by eapply wp_one, step_type.
Qed.

Lemma wp_import_entry r imp s :
  p = ImportSection r → Item imp ∈ r → wp (import_entry root imp) (post s) any s.
Proof.
  intros Hp Hin. unfold import_entry. destruct imp.(imp_ty) as [t|] eqn:Hty; [|done].
  unfold import_func. apply wp_bind, wp_gets.
  destruct (ts_func_types s !! Z.to_nat t) as [ft|] eqn:Hft; [|done].
  apply wp_read; [apply _|]. intros [] _. apply wp_read; [apply _|]. intros [] _.
  apply wp_read; [apply _|]. intros id Hid.
  eapply wp_one; [done|]. eapply (step_import _ _ s r imp t); try done.
  subst p. intros Hw. apply (items_all_in _ _ _ Hw) in Hin. unfold import_widths in Hin.
  by rewrite Hty in Hin.
Qed.

Lemma wp_memory_entry mt s : wp (memory_entry mt) (post s) any s.
Proof.
  unfold memory_entry. apply wp_bind, wp_gets.
  destruct (has_memory _) eqn:Hm; [done|]. destruct (mt_memory64 mt); [done|].
  destruct (mt_shared mt); [done|]. case_bool_decide; [done|].
  by eapply wp_one, step_memory.
Qed.

Lemma wp_table_entry t s : wp (table_entry t) (post s) any s.
Proof.
  unfold table_entry. apply wp_bind, wp_gets.
  destruct (len (ts_table s) =? 0) eqn:Hl; [|done]. simpl.
  destruct (tt_table64 t); [done|]. destruct (tt_is_func_ref t); [|done]. simpl.
  destruct (1024 <? tt_initial t) eqn:Hn; [done|].
  eapply wp_one; [done|]. apply step_table; [|lia].
  destruct (ts_table s); [done|]. unfold len in Hl; simpl in Hl. lia.
Qed.

Lemma wp_element_entry r el s :
  p = ElementSection r → Item el ∈ r → wp (element_entry el) (post s) any s.
Proof.
  intros Hp Hin. unfold element_entry. apply wp_read; [apply _|]. intros off Hoff.
  apply wp_read; [apply _|]. intros idxs Hidx. eapply wp_one; [done|].
  eapply step_elem; [done|]. subst p. intros Hw. apply (items_all_in _ _ _ Hw) in Hin.
  unfold elem_widths in Hin. by rewrite Hidx in Hin.
Qed.

Lemma wp_data_entry d s : wp (data_entry d) (post s) any s.
Proof.
  unfold data_entry. destruct (d_kind d) as [mi e|].
  - destruct (negb _); [done|]. apply wp_read; [apply _|]. intros off Hoff.
    eapply wp_one; [done|]. by apply (step_data _ _ _ true e).
  - eapply wp_one; [done|]. by apply (step_data _ _ _ false []).
Qed.

Lemma wp_global_entry g s : wp (global_entry g) (post s) any s.
Proof.
  unfold global_entry. destruct (negb _); [done|]. apply wp_read; [apply _|]. intros v _.
  apply wp_read; [apply _|]. intros z _. by eapply wp_one, step_global.
Qed.

Lemma wp_export_entry ex s : wp (export_entry ex) (post s) any s.
Proof.
  unfold export_entry. destruct (ex_is_func ex); [by eapply wp_one, step_export|].
  apply wp_ret. by apply rtc_refl.
Qed.

Lemma wp_code_entry body s :
  p = CodeSectionEntry body → wp (code_entry body) (post s) any s.
Proof.
  intros Hp. unfold code_entry. apply wp_bind, wp_gets. unfold id.
  destruct (ts_func_typeidx s !! _) as [t|] eqn:Ht; [|done].
  destruct (ts_func_types s !! _) as [ft|] eqn:Hft; [|done].
  apply wp_read; [apply _|]. intros lr _. apply wp_read; [apply _|]. intros nl _.
  destruct (2 ^ 16 - 1 <? nl) eqn:Hnl; [done|].
  apply wp_read; [apply _|]. intros r Hr. apply wp_read; [apply _|]. intros ops Hops.
  apply wp_read; [apply _|]. intros [[meta code] consts] Hlow.
  eapply wp_one; [done|]. eapply step_code; try done; [|lia].
  by destruct (fb_operators body); simplify_eq/=.
Qed.

End steps.

(** Every section handler takes steps of the relation. *)
Lemma wp_payload_step root p s :
  wp (payload_step root p) (fun _ s' => rtc (tstep root p) s s') (fun _ => True) s.
Proof.
  pose proof (rtc_refl (tstep root p) s) as Hrefl.
  destruct p eqn:Hp; simpl; try done; try (apply wp_items; intros).
  - apply wp_steps. intros. apply wp_type_entry.
  - eapply wp_one; [done|]. eapply step_typeidx; [done|]. intros Hw. by eapply items_all_in.
  - by eapply wp_import_entry.
  - apply wp_memory_entry.
  - apply wp_table_entry.
  - by eapply wp_element_entry.
  - apply wp_data_entry.
  - apply wp_global_entry.
  - apply wp_export_entry.
  - by apply wp_code_entry.
Qed.

(** ** Induction over a translation

    [I rest s] with [rest] the payloads still to read; it is kept by the steps of
    a payload and by moving on to the next one. *)
Lemma payload_loop_ind root (I : list (item Payload) → TState → Prop) ps s :
  I ps s →
  (∀ p rest s1 s2, I (Item p :: rest) s1 → tstep root p s1 s2 → I (Item p :: rest) s2) →
  (∀ it rest s, I (it :: rest) s → I rest s) →
  wp (payload_loop root ps) (fun _ s' => I [] s') (fun _ => True) s.
Proof.
  intros Hinit Hstep Hnext. apply (wp_for_each _ _ I); [done|].
  intros it rest s1 H1. apply wp_read; [apply _|]. intros p Hp.
  destruct it as [q|]; simplify_eq/=.
  eapply wp_mono; [apply wp_payload_step| |done].
  intros [] s2 Hs. eapply Hnext. clear Hinit.
  induction Hs as [|s1 s2 s3 Hst _ IH]; [done|]. eauto.
Qed.

(** The state a translation ends in satisfies the invariant; there is one
    whenever the translation returns. *)
Lemma translate_wasm_inv root parse_all bytes hm (I : list (item Payload) → TState → Prop) :
  translate_wasm root parse_all bytes = Ok hm →
  I (parse_all bytes) init_state →
  (∀ p rest s1 s2, I (Item p :: rest) s1 → tstep root p s1 s2 → I (Item p :: rest) s2) →
  (∀ it rest s, I (it :: rest) s → I rest s) →
  ∃ s, payload_loop root (parse_all bytes) init_state = (Ok tt, s) ∧
    assemble s = Ok hm ∧ I [] s.
Proof.
  intros Htr Hinit Hstep Hnext.
  pose proof (payload_loop_ind root I _ _ Hinit Hstep Hnext) as Hwp.
  unfold wp in Hwp. unfold translate_wasm in Htr.
  destruct (payload_loop _ _ _) as [[[]| |] s]; simplify_eq/=. by exists s.
Qed.

(** An invariant that does not look at the payloads. *)
Lemma translate_wasm_inv_plain root parse_all bytes hm (I : TState → Prop) :
  translate_wasm root parse_all bytes = Ok hm →
  I init_state → (∀ p s1 s2, I s1 → tstep root p s1 s2 → I s2) →
  ∃ s, payload_loop root (parse_all bytes) init_state = (Ok tt, s) ∧
    assemble s = Ok hm ∧ I s.
Proof.
  intros Htr Hinit Hstep.
  apply (translate_wasm_inv _ _ _ _ (fun _ => I)); try done. intros p _. apply Hstep.
Qed.
