(* ===== verification/ModuleFacts.v ===== *)
(** * Correctness of the module translation

    What [translate_wasm] guarantees of the [HostModule] it returns: the
    functions' code, the memory image and the data segments, the table, the type
    fingerprints and the import records. *)

From S2P Require Import Prelude Cuop Wasm Lower LowerInv LowerSafety EnvTable Module.
From S2P Require Import ModuleSteps.
From stdpp Require Import base list strings.

Local Open Scope Z_scope.

(** ** Functions *)

(** The span of a function is closed: it lies in the code, ends in [end_func],
    its branches stay inside, the conditional ones going forward, and its constants are
    in the pool. *)
Definition closed_func (code : list CuOpC) (consts : list Z) (f : FuncMetaC) : Prop :=
  let lo := f.(fm_code_off) in
  let hi := f.(fm_code_off) + f.(fm_code_len) in
  0 ≤ lo < hi ∧ hi ≤ len code ∧
  (∃ ins, code !! Z.to_nat (hi - 1) = Some ins ∧ ins.(cu_op) = OP_END_FUNC) ∧
  ∀ (i : nat) ins, lo ≤ Z.of_nat i < hi → code !! i = Some ins →
    (is_branch ins = true → lo ≤ ins.(cu_b) < hi ∧ (ins.(cu_op) = OP_BR_IF_NOT → Z.of_nat i < ins.(cu_b))) ∧
    (ins.(cu_op) = OP_I64_CONST → 0 ≤ ins.(cu_b) < len consts).

(** The record of a host import: a signature and no code.  Which functions have one is said
    by their index ([ModuleTables.function_ok], [ModuleTables.sig_inv]). *)
Definition import_meta (f : FuncMetaC) : Prop :=
  f.(fm_code_off) = 0 ∧ f.(fm_code_len) = 0 ∧ f.(fm_n_locals) = 0.

(** Every body the decoder can read is well nested. *)
Definition nested_body (b : FunctionBody) : bool :=
  match b.(fb_operators) with
  | Item r => match read_ops r with Ok ops => wf_body ops | _ => true end
  | ReadErr _ => true
  end.

Definition nested_payload (it : item Payload) : bool :=
  match it with
  | Item (CodeSectionEntry b) => nested_body b
  | _ => true
  end.

Lemma prefix_len {A} (l k : list A) : l `prefix_of` k → len l ≤ len k.
Proof. intros ?%prefix_length. unfold len. lia. Qed.

(** Later functions append: a closed function stays closed. *)
Lemma closed_func_mono code code' consts consts' f :
  closed_func code consts f → code `prefix_of` code' → consts `prefix_of` consts' →
  closed_func code' consts' f.
Proof.
  intros (Hlo & Hhi & (ins & Hl & Ho) & Hin) Hc Hk.
  pose proof (prefix_len _ _ Hc). pose proof (prefix_len _ _ Hk).
  split_and!; [lia..| |].
  - exists ins. split; [|done]. by eapply prefix_lookup_Some.
  - intros i ins' Hi Hl'. rewrite <-(prefix_lookup_lt code code' i) in Hl';
      [|unfold len in *; lia|done].
    destruct (Hin i ins' Hi Hl') as [H1 H2]. split; [done|]. intros. specialize (H2 H3). lia.
Qed.

Lemma closed_lowered ops np nr nl code consts fts ftis ni ids meta code' consts' :
  wf_body ops = true →
  lower_operators ops np nr nl code consts fts ftis ni ids = (Ok meta, (code', consts')) →
  len code' < 2 ^ 32 → len consts' < 2 ^ 32 → closed_func code' consts' meta.
Proof.
  intros Hwf (s & HI & He & HK & <- & <- & ->)%run_closed Hc Hk; [|done].
  pose proof (li_grow _ _ _ _ _ _ _ _ HI) as Hg. pose proof (len_nonneg code).
  destruct (He eq_refl) as (ins & Hlast & Hop).
  unfold closed_func; simpl.
  rewrite !(u32_id (len _)) by lia. rewrite u32_id by lia.
  destruct (li_good _ _ _ _ _ _ _ _ HI (conj Hc Hk)) as [_ _ _ G4 G5 _].
  split_and!; [lia..| |].
  - exists ins. split; [|done]. rewrite last_lookup in Hlast. rewrite <-Hlast.
    f_equal. unfold len in *. lia.
  - intros i ins' Hi Hl. split; [|by intros; eapply G5; [|done|]; lia].
    intros Hb. destruct (G4 eq_refl i ins') as [Hin|[? ?]]; [lia|done..| |split; [lia|done]].
    rewrite HK in Hin. by apply not_elem_of_nil in Hin.
Qed.

Definition small_out (code : list CuOpC) (consts : list Z) : Prop :=
  len code < 2 ^ 32 ∧ len consts < 2 ^ 32.

Lemma stub_closed code consts np nr meta code' :
  stub code np nr = (meta, code') → len code' < 2 ^ 32 →
  closed_func code' consts meta ∧ meta.(fm_code_off) = len code ∧ code `prefix_of` code'.
Proof.
  unfold stub. intros [= <- <-]. autorewrite with len. intros Hs.
  pose proof (len_nonneg code). split_and!; simpl; [|by apply u32_id; lia|by apply prefix_app_r].
  unfold closed_func; simpl. rewrite u32_id by lia. autorewrite with len.
  split_and!; [lia..| |].
  - eexists. rewrite lookup_app_r by (unfold len; lia).
    replace (Z.to_nat (len code + 2 - 1) - length code)%nat with 1%nat by (unfold len; lia).
    by split.
  - intros i ins Hi Hl. rewrite lookup_app_r in Hl by (unfold len in *; lia).
    destruct (i - length code)%nat as [|[|n]]; simpl in Hl; injection Hl as <- || done; done.
Qed.

(** What one function body adds to the code and the pool. *)
Definition appends (code : list CuOpC) (consts : list Z) (meta : FuncMetaC)
    (code' : list CuOpC) (consts' : list Z) (nested : bool) : Prop :=
  len code ≤ len code' ∧ consts `prefix_of` consts' ∧ (NoDup consts → NoDup consts') ∧
  (small_out code' consts' →
     code `prefix_of` code' ∧ len code ≤ meta.(fm_code_off) ∧
     (nested = true → closed_func code' consts' meta)).

Lemma lower_or_stub_appends ops np nr nl code consts fts ftis ids meta code' consts' nested :
  (nested = true → wf_body ops = true) →
  lower_or_stub ops np nr nl code consts fts ftis ids = Ok (meta, code', consts') →
  appends code consts meta code' consts' nested.
Proof.
  intros Hn. unfold lower_or_stub.
  destruct (lower_operators _ _ _ _ _ _ _ _ _ _) as [r [c1 k1]] eqn:Hrun.
  destruct (run_Lerr _ _ _ _ _ _ _ _ _ _ _ _ _ Hrun) as (s & (d & k & X & HI) & <- & <-).
  pose proof HI as [_ _ Hgrow Hpre Hnd _ Hgood].
  pose proof (run_grow _ _ _ _ _ _ _ _ _ _ _ _ _ Hrun) as Hg.
  destruct r as [m|e|w]; [| |done].
  - intros [= -> <- <-]. split_and!; [done..|]. intros Hs.
    destruct (Hgood Hs) as [G1 _ _ _ _ _]. split_and!; [done| |].
    + rewrite run_eq in Hrun. destruct (lower_body _ _ _) as [[[]| |] s']; simplify_eq/=.
      rewrite u32_id; [done|]. destruct Hs. pose proof (len_nonneg code). lia.
    + intros Ht. destruct Hs. by eapply closed_lowered; eauto.
  - destruct (stub _ np nr) as [m c2] eqn:Hst. intros [= -> <- <-].
    assert (len s.(st_code) ≤ len c2) as Hg2.
    { unfold stub in Hst. injection Hst as _ <-. autorewrite with len. lia. }
    split_and!; [lia | done..|]. intros [Hs1 Hs2].
    destruct (stub_closed _ s.(st_consts) _ _ _ _ Hst Hs1) as (Hcl & Hoff & Hp).
    destruct Hgood as [G1 _ _ _ _ _]; [split; lia|]. split_and!; [by trans s.(st_code)|lia|done].
Qed.

(** The functions' spans follow each other in the code. *)
Definition spans_ordered (fs : list FuncMetaC) : Prop :=
  ∀ (i j : nat) f g, (i < j)%nat → fs !! i = Some f → fs !! j = Some g →
    g.(fm_code_len) = 0 ∨ f.(fm_code_off) + f.(fm_code_len) ≤ g.(fm_code_off).

Definition func_ok (code : list CuOpC) (consts : list Z) (f : FuncMetaC) : Prop :=
  closed_func code consts f ∨ import_meta f.

Definition funcs_inv (rest : list (item Payload)) (s : TState) : Prop :=
  let o := s.(ts_out) in
  forallb nested_payload rest = true ∧ NoDup o.(co_consts) ∧
  (small_out o.(co_code) o.(co_consts) →
     Forall (func_ok o.(co_code) o.(co_consts)) o.(co_funcs) ∧ spans_ordered o.(co_funcs)).

Lemma func_ok_end code consts f :
  func_ok code consts f → f.(fm_code_off) + f.(fm_code_len) ≤ len code.
Proof.
  intros [(_ & Hhi & _) | (-> & -> & _)]; [done|]. pose proof (len_nonneg code). lia.
Qed.

Lemma spans_ordered_snoc code consts fs g :
  spans_ordered fs → Forall (func_ok code consts) fs →
  (g.(fm_code_len) = 0 ∨ len code ≤ g.(fm_code_off)) → spans_ordered (fs ++ [g]).
Proof.
  intros Hs Hok Hg i j f g' Hij Hi Hj.
  apply lookup_app_Some in Hj as [Hj|[Hj Hj']].
  - apply (Hs i j f g' Hij); [|done].
    apply lookup_app_Some in Hi as [?|[? _]]; [done|]. apply lookup_lt_Some in Hj. lia.
  - apply list_lookup_singleton_Some in Hj' as [? <-].
    apply lookup_app_Some in Hi as [Hi|[? Hi]];
      [|apply list_lookup_singleton_Some in Hi as [? _]; lia].
    rewrite Forall_lookup in Hok. apply Hok, func_ok_end in Hi.
    destruct Hg; [by left|right; lia].
Qed.

Lemma func_ok_mono code code' consts consts' f :
  func_ok code consts f → code `prefix_of` code' → consts `prefix_of` consts' →
  func_ok code' consts' f.
Proof. intros [?|?] ??; [left; by eapply closed_func_mono | by right]. Qed.

Lemma funcs_inv_code rest body s (ft : FuncType) ops_reader ops nl meta code consts :
  funcs_inv (Item (CodeSectionEntry body) :: rest) s →
  body.(fb_operators) = Item ops_reader → read_ops ops_reader = Ok ops →
  lower_or_stub ops (u16 (len ft.1)) (u16 (len ft.2)) (u16 nl)
    s.(ts_out).(co_code) s.(ts_out).(co_consts) s.(ts_func_types) s.(ts_func_typeidx)
    s.(ts_imports).(host_fn_ids) = Ok (meta, code, consts) →
  funcs_inv (Item (CodeSectionEntry body) :: rest) (add_func code consts meta s).
Proof.
  intros (Hn & Hnd & Hf) Hr Ho Hlow. split; [done|].
  apply lower_or_stub_appends with (nested := true) in Hlow as (Hg & Hk & Hnd' & Happ).
  - split; [by apply Hnd'|]. intros Hs. simpl in *. destruct (Happ Hs) as (Hc & Hoff & Hcl).
    pose proof (prefix_len _ _ Hk). destruct Hs.
    destruct Hf as [Hf1 Hf2]; [split; lia|]. split.
    + apply Forall_app. split; [|by apply Forall_singleton; left; apply Hcl].
      eapply Forall_impl; [done|]. intros f Hfok. by eapply func_ok_mono.
    + eapply spans_ordered_snoc; [done..|]. by right.
  - intros _. simpl in Hn. unfold nested_body in Hn. rewrite Hr, Ho in Hn.
    by apply andb_true_iff in Hn as [? _].
Qed.

Lemma funcs_inv_step root p rest s1 s2 :
  funcs_inv (Item p :: rest) s1 → tstep root p s1 s2 → funcs_inv (Item p :: rest) s2.
Proof.
  intros HI Hst. destruct Hst; subst; try done; [|by eapply funcs_inv_code].
  destruct HI as (Hn & Hnd & Hf). split_and!; [done..|]. simpl in *.
  intros Hs. destruct (Hf Hs) as [Hf1 Hf2]. split.
  - apply Forall_app. split; [done|]. apply Forall_singleton. by right.
  - eapply spans_ordered_snoc; [done..|]. by left.
Qed.

Lemma funcs_inv_next it rest s : funcs_inv (it :: rest) s → funcs_inv rest s.
Proof. intros (Hn & ? & ?). split_and!; [|done..]. by apply andb_true_iff in Hn as [_ ?]. Qed.

(** What a result of [translate_wasm] is made of. *)
Lemma assemble_ok s hm :
  assemble s = Ok hm →
  ∃ ms mm d tb fps,
    memory_sizes s.(ts_mem) = Ok (ms, mm) ∧
    data_loop ms s.(ts_data) (mkDataOut (replicate (Z.to_nat mm) 0) [] [] [] []) = Ok d ∧
    elem_loop s.(ts_table) s.(ts_elem) = Ok tb ∧
    fingerprints s.(ts_func_types) = Ok fps ∧
    s.(ts_out).(co_funcs) ≠ [] ∧
    hm = mkHostModule s.(ts_out).(co_code) s.(ts_out).(co_consts) s.(ts_out).(co_funcs)
           s.(ts_exports) s.(ts_globals) d.(do_memory) ms mm d.(do_blob) d.(do_off) d.(do_len)
           d.(do_live) tb s.(ts_func_typeidx) fps
           (u32 (len s.(ts_imports).(host_fn_ids))) s.(ts_imports).(host_fn_ids)
           s.(ts_imports).(imports_mod) s.(ts_imports).(imports_name)
           s.(ts_imports).(imports_env).
Proof.
  unfold assemble. destruct (fingerprints _) as [fps| |] eqn:?; simpl; [|done..].
  destruct (memory_sizes _) as [[ms mm]| |] eqn:?; simpl; [|done..].
  destruct (data_loop _ _ _) as [d| |] eqn:?; simpl; [|done..].
  destruct (elem_loop _ _) as [tb| |] eqn:?; simpl; [|done..].
  destruct (co_funcs _) eqn:Hf; [done|]. intros [= <-]. by exists ms, mm, d, tb, fps.
Qed.

(** The functions of a translated module, as the section loop leaves them. *)
Lemma translate_funcs_inv root parse_all bytes hm :
  forallb nested_payload (parse_all bytes) = true → translate_wasm root parse_all bytes = Ok hm →
  ∃ s, funcs_inv [] s ∧ s.(ts_out).(co_funcs) ≠ [] ∧ hm.(hm_code) = s.(ts_out).(co_code) ∧
    hm.(hm_consts) = s.(ts_out).(co_consts) ∧ hm.(hm_funcs) = s.(ts_out).(co_funcs).
Proof.
  intros Hn Htr. eapply (translate_wasm_inv _ _ _ _ funcs_inv) in Htr as (s & _ & Has & Hinv).
  - apply assemble_ok in Has as (ms & mm & d & tb & fps & _ & _ & _ & _ & Hne & ->). by exists s.
  - split_and!; [done | by constructor|]. intros _. split; [done|]. by intros i j f g _ [].
  - intros p rest s1 s2. apply funcs_inv_step.
  - apply funcs_inv_next.
Qed.

(** A module with one host import and two functions: [f] calls the import, [g] is
    replaced by the stub. *)
Definition sample_payloads : list (item Payload) :=
  [ Item (TypeSection [Item [CtFunc [] []; CtFunc [I64] [I64]]]);
    Item (ImportSection [Item (mkImport "x" "8" (TrFunc 0))]);
    Item (FunctionSection [Item 1; Item 0]);
    Item (TableSection [Item (mkTableType false true 4)]);
    Item (MemorySection [Item (mkMemoryType 1 (Some 2%N) false false None)]);
    Item (ExportSection [Item (mkExport "f" true 1)]);
    Item (ElementSection [Item (mkElement (EkActive None [Item (I32Const 1); Item End])
                                  (EiFunctions [Item 1; Item 2]))]);
    Item (CodeSectionEntry (mkBody (Item [])
      (Item [Item (Call 0); Item (LocalGet 0); Item (I64Const 5); Item I64Add;
             Item (Br 0); Item End])));
    Item (CodeSectionEntry (mkBody (Item []) (Item [Item (OtherOp "F32Add"); Item End])));
    Item (DataSection [Item (mkData (DkActive 0 [Item (I32Const 8); Item End]) [1; 2; 3]);
                       Item (mkData DkPassive [9]);
                       Item (mkData (DkActive 0 [Item (I32Const 10); Item End]) [7])]) ].

Definition sample_module : outcome HostModule :=
  translate_wasm soroban_env (fun _ => sample_payloads) [].

(** ** Memory image and data segments *)

(** The byte at address [a] after the active segments are copied in order over a
    memory that holds [v] there: the last segment that covers [a] wins. *)
Definition image (segs : list (bool * Z * list Z)) (v : Z) (a : nat) : Z :=
  foldl (fun v '(act, off, bytes) =>
    if (act : bool) && (off <=? Z.of_nat a) && (Z.of_nat a <? off + len bytes)
    then nth (a - Z.to_nat off) bytes 0 else v) v segs.

(** Segment [k] is the slice of the blob its descriptor gives, and is live iff
    it is passive. *)
Definition stored (segs : list (bool * Z * list Z)) (d : DataOut) : Prop :=
  length d.(do_off) = length segs ∧ length d.(do_len) = length segs ∧
  length d.(do_live) = length segs ∧
  ∀ (k : nat) act off bytes, segs !! k = Some (act, off, bytes) →
    ∃ o n, d.(do_off) !! k = Some o ∧ d.(do_len) !! k = Some n ∧
      take (Z.to_nat n) (drop (Z.to_nat o) d.(do_blob)) = bytes ∧
      o + n ≤ len d.(do_blob) ∧ 0 ≤ o ∧ 0 ≤ n ∧
      d.(do_live) !! k = Some (if (act : bool) then 0 else 1).

Lemma memory_sizes_spec m ms mm :
  memory_sizes m = Ok (ms, mm) →
  0 ≤ ms ≤ mm ∧ mm ≤ CUWASM_MEM_MAX_PAGES * WASM_PAGE ∧
  (m.(has_memory) = true → ms = Z.of_N m.(mem_min) * WASM_PAGE ∧ mm = cap_pages m * WASM_PAGE) ∧
  (m.(has_memory) = false → mm = 0).
Proof.
  unfold memory_sizes. destruct (has_memory m); simpl; [|by intros [= <- <-]].
  destruct (cap_pages m <? _) eqn:Hc; [done|]. intros [= <- <-].
  assert (cap_pages m ≤ CUWASM_MEM_MAX_PAGES) by (unfold cap_pages; lia).
  unfold u32_saturating_mul, CUWASM_MEM_MAX_PAGES, WASM_PAGE in *.
  apply Z.ltb_ge in Hc. pose proof (N2Z.is_nonneg (mem_min m)).
  rewrite !u32_id by lia. lia.
Qed.

Lemma copy_into_spec mem o bytes mem' :
  copy_into mem o bytes = Ok mem' →
  length mem' = length mem ∧
  ∀ a v, mem !! a = Some v →
    mem' !! a = Some (if bool_decide (o ≤ a ∧ a < o + length bytes)%nat
                      then nth (a - o) bytes 0 else v).
Proof.
  unfold copy_into. destruct (_ <=? _)%nat eqn:Hle; [|done]. intros [= <-].
  apply Nat.leb_le in Hle. split.
  - rewrite !length_app, length_take, length_drop. lia.
  - intros a v Ha. pose proof (lookup_lt_Some _ _ _ Ha).
    case_bool_decide.
    + rewrite lookup_app_r by (rewrite length_take; lia).
      rewrite length_take_le by lia. rewrite lookup_app_l by lia.
      by destruct (nth_lookup_or_length bytes (a - o)%nat 0); [|lia].
    + destruct (decide (a < o)%nat).
      * rewrite lookup_app_l by (rewrite length_take; lia). by rewrite lookup_take_lt.
      * rewrite lookup_app_r by (rewrite length_take; lia).
        rewrite length_take_le by lia. rewrite lookup_app_r by lia.
        rewrite lookup_drop. rewrite <-Ha. f_equal. lia.
Qed.

(** One iteration: the memory is the image of the segment over the old memory. *)
Lemma data_step_memory ms act off bytes d d' :
  0 ≤ off → ms ≤ len d.(do_memory) → data_step ms (act, off, bytes) d = Ok d' →
  length d'.(do_memory) = length d.(do_memory) ∧
  (∀ a v, d.(do_memory) !! a = Some v →
     d'.(do_memory) !! a = Some (image [(act, off, bytes)] v a)).
Proof.
  intros Hoff Hms. unfold data_step, image; simpl.
  destruct act; simpl; [|intros [= <-]; by split].
  destruct (ms <? off + len bytes) eqn:Hb; [done|].
  destruct (len bytes =? 0) eqn:Hz; simpl.
  - intros [= <-]. split; [done|]. intros a v Ha. simpl. rewrite Ha. f_equal.
    destruct (off <=? Z.of_nat a) eqn:?, (Z.of_nat a <? off + len bytes) eqn:?; simpl; [lia|done..].
  - destruct (copy_into _ _ _) as [mem'| |] eqn:Hcp; simpl; [|done..]. intros [= <-]. simpl.
    apply copy_into_spec in Hcp as [Hl Hcp]. split; [done|]. intros a v Ha.
    rewrite (Hcp a v Ha). f_equal. unfold len in *.
    case_bool_decide; destruct (off <=? Z.of_nat a) eqn:?, (Z.of_nat a <? off + Z.of_nat (length bytes)) eqn:?;
      simpl; done || lia.
Qed.

Lemma data_step_no_panic ms act off bytes d :
  0 ≤ off → ms ≤ len d.(do_memory) → NoPanic (data_step ms (act, off, bytes) d).
Proof.
  intros Hoff Hms. unfold data_step. destruct act; [|apply _].
  destruct (ms <? off + len bytes) eqn:Hb; [apply _|].
  apply bind_no_panic; [|intros; apply _]. destruct (negb _); [|apply _].
  unfold copy_into. replace (_ <=? _)%nat with true; [apply _|].
  symmetry. apply Nat.leb_le. unfold len in *. lia.
Qed.

(** ... and the segment is appended to the blob with its descriptor. *)
Lemma data_step_stored ms segs act off bytes d d' :
  stored segs d → data_step ms (act, off, bytes) d = Ok d' → len d'.(do_blob) < 2 ^ 32 →
  stored (segs ++ [(act, off, bytes)]) d'.
Proof.
  intros (H1 & H2 & H3 & H4) Hst.
  assert (d'.(do_blob) = d.(do_blob) ++ bytes ∧
    d'.(do_off) = d.(do_off) ++ [u32 (len d.(do_blob))] ∧
    d'.(do_len) = d.(do_len) ++ [u32 (len bytes)] ∧
    d'.(do_live) = d.(do_live) ++ [if act then 0 else 1]) as (Hbl & Ho & Hn & Hl).
  { unfold data_step in Hst. destruct act; [|by injection Hst as <-].
    destruct (_ <? _); [done|].
    by destruct (if negb _ then _ else _); simpl in Hst; injection Hst as <- || done. }
  rewrite Hbl. autorewrite with len. intros Hs.
  pose proof (len_nonneg d.(do_blob)). pose proof (len_nonneg bytes).
  rewrite !u32_id in Ho, Hn by lia. unfold stored. rewrite Hbl, Ho, Hn, Hl, !length_app, H1, H2, H3.
  split_and!; [done..|]. intros k a o b Hk.
  apply lookup_app_Some in Hk as [Hk|[Hk Hk']].
  - destruct (H4 k a o b Hk) as (x & n & Hx & Hn' & Htk & Hle & ? & ? & Hv).
    exists x, n.
    split_and!; try by apply lookup_app_l_Some.
    + rewrite drop_app_le, take_app_le; [done|rewrite length_drop|]; unfold len in *; lia.
    + autorewrite with len. lia.
    + done.
    + done.
  - apply list_lookup_singleton_Some in Hk' as [Hk0 [= -> -> ->]].
    exists (len d.(do_blob)), (len b).
    assert (k = length segs) as -> by lia.
    rewrite !lookup_app_r by lia. rewrite H1, H2, H3, Nat.sub_diag. split_and!; try done.
    + unfold len. rewrite !Nat2Z.id. by rewrite drop_app_length, firstn_all.
    + autorewrite with len. lia.
Qed.

#[local] Arguments data_step : simpl never.

Definition offsets_ok (segs : list (bool * Z * list Z)) : Prop :=
  Forall (fun seg => 0 ≤ seg.1.2) segs.

Lemma data_step_blob ms seg d d' :
  data_step ms seg d = Ok d' → d'.(do_blob) = d.(do_blob) ++ seg.2.
Proof.
  destruct seg as [[act off] bytes]. unfold data_step.
  destruct act; [|by intros [= <-]]. destruct (_ <? _); [done|].
  by destruct (if negb _ then _ else _); simpl; [intros [= <-]|..].
Qed.

Lemma data_loop_blob ms segs d d' :
  data_loop ms segs d = Ok d' → len d.(do_blob) ≤ len d'.(do_blob).
Proof.
  revert d. induction segs as [|seg segs IH]; intros d; simpl; [by intros [= <-]|].
  destruct (data_step ms seg d) as [d1| |] eqn:H1; simpl; [|done..]. intros H2%IH.
  apply data_step_blob in H1. rewrite H1 in H2. autorewrite with len in H2.
  pose proof (len_nonneg seg.2). lia.
Qed.

Lemma data_loop_spec ms segs d d' :
  offsets_ok segs → ms ≤ len d.(do_memory) → data_loop ms segs d = Ok d' →
  length d'.(do_memory) = length d.(do_memory) ∧
  ∀ a v, d.(do_memory) !! a = Some v → d'.(do_memory) !! a = Some (image segs v a).
Proof.
  intros Ho. revert d. induction Ho as [|[[act off] bytes] segs Hoff Ho IH]; intros d Hms; simpl.
  - by intros [= <-].
  - destruct (data_step _ _ _) as [d1| |] eqn:H1; simpl; [|done..].
    apply data_step_memory in H1 as [Hl H1]; [|done..]. intros H2.
    apply IH in H2 as [Hl2 H2]; [|unfold len in *; lia]. split; [lia|].
    intros a v Ha. rewrite (H2 _ _ (H1 a v Ha)). done.
Qed.

Lemma data_loop_no_panic ms segs d :
  offsets_ok segs → ms ≤ len d.(do_memory) → NoPanic (data_loop ms segs d).
Proof.
  intros Ho. revert d. induction Ho as [|[[act off] bytes] segs Hoff Ho IH]; intros d Hms; simpl.
  - apply _.
  - apply bind_no_panic; [by apply data_step_no_panic|].
    intros d1 H1. apply IH. apply data_step_memory in H1 as [Hl _]; [|done..].
    unfold len in *. lia.
Qed.

Lemma data_loop_stored ms segs0 segs d d' :
  stored segs0 d → data_loop ms segs d = Ok d' → len d'.(do_blob) < 2 ^ 32 →
  stored (segs0 ++ segs) d'.
Proof.
  revert segs0 d. induction segs as [|[[act off] bytes] segs IH]; intros segs0 d Hst; simpl.
  - intros [= <-]. by rewrite app_nil_r.
  - destruct (data_step _ _ _) as [d1| |] eqn:H1; simpl; [|done..]. intros H2 Hs.
    rewrite cons_middle, (assoc (++)). eapply IH; [|done..].
    eapply data_step_stored; [done..|]. apply data_loop_blob in H2. lia.
Qed.

Lemma eval_i32_expr_range e v : eval_i32_expr e = Ok v → 0 ≤ v < 2 ^ 32.
Proof.
  unfold eval_i32_expr. destruct (constexpr_run e []) as [[|x st]| |]; simpl; [done| |done..].
  intros [= <-]. apply u32_range.
Qed.

Lemma offsets_ok_step root p s1 s2 :
  offsets_ok s1.(ts_data) → tstep root p s1 s2 → offsets_ok s2.(ts_data).
Proof.
  intros HI Hst. destruct Hst as [| | | | | |act e off bytes Hoff| | |]; try done. simpl.
  apply Forall_app. split; [done|]. apply Forall_singleton. simpl.
  destruct act; [apply eval_i32_expr_range in Hoff; lia|by subst].
Qed.

(** *** What the sections declare *)

Definition items {A} (r : list (item A)) : list A :=
  omap (fun it => match it with Item x => Some x | ReadErr _ => None end) r.

(** A data segment: active or not, its offset and its bytes. *)
Definition declared_segment (d : Data) : list (bool * Z * list Z) :=
  match d.(d_kind) with
  | DkActive _ e => match eval_i32_expr e with Ok off => [(true, off, d.(d_data))] | _ => [] end
  | DkPassive => [(false, 0, d.(d_data))]
  end.

Definition section_segments (p : Payload) : list (bool * Z * list Z) :=
  match p with DataSection r => concat (declared_segment <$> items r) | _ => [] end.

Definition declared_segments (ps : list (item Payload)) : list (bool * Z * list Z) :=
  concat (section_segments <$> items ps).

Definition section_memories (p : Payload) : list MemoryType :=
  match p with MemorySection r => items r | _ => [] end.

Definition declared_memories (ps : list (item Payload)) : list MemoryType :=
  concat (section_memories <$> items ps).

(** From [s] to [s'], the segments [d] and the memories [k] have been collected. *)
Definition gathers (d : list (bool * Z * list Z)) (k : list MemoryType) (s s' : TState) : Prop :=
  s'.(ts_data) = s.(ts_data) ++ d ∧
  match k with
  | [] => s'.(ts_mem) = s.(ts_mem)
  | [mt] => s.(ts_mem).(has_memory) = false ∧ s'.(ts_mem) = mkMemDecl mt.(mt_initial) mt.(mt_maximum) true
  | _ => False
  end.

Lemma gathers_same s s' : s'.(ts_data) = s.(ts_data) → s'.(ts_mem) = s.(ts_mem) → gathers [] [] s s'.
Proof. intros H1 H2. split; [by rewrite H1, app_nil_r|done]. Qed.

Lemma gathers_trans d1 k1 d2 k2 s1 s2 s3 :
  gathers d1 k1 s1 s2 → gathers d2 k2 s2 s3 → gathers (d1 ++ d2) (k1 ++ k2) s1 s3.
Proof.
  intros [D1 K1] [D2 K2]. split; [by rewrite D2, D1, app_assoc|].
  destruct k1 as [|m1 [|]]; simpl; [|destruct K1 as [K0 K1]|done].
  - rewrite <-K1. exact K2.
  - destruct k2 as [|m2 [|]]; [|destruct K2 as [K2 _]; by rewrite K1 in K2|done]. by rewrite K2.
Qed.

(** A handler collects [d] and [k]. *)
Definition collects (d : list (bool * Z * list Z)) (k : list MemoryType) (m : TM unit) : Prop :=
  ∀ s, wlp m (fun _ s' => gathers d k s s') s.

Lemma collects_each {A} (l : list A) (body : A → TM unit) g k :
  (∀ x, collects (g x) (k x) (body x)) → collects (concat (g <$> l)) (concat (k <$> l)) (for_each l body).
Proof.
  intros Hb. induction l as [|x l IH]; intros s; simpl; [by apply wlp_ret, gathers_same|].
  eapply wlp_seq; [apply Hb|]. intros [] s1 H1 [] s2 H2. by eapply gathers_trans, IH.
Qed.

Lemma collects_items {A} ctx (r : list (item A)) (body : A → TM unit) g k :
  (∀ x, collects (g x) (k x) (body x)) →
  collects (concat (g <$> items r)) (concat (k <$> items r)) (for_items ctx r body).
Proof.
  intros Hb. induction r as [|[x|e] r IH]; intros s; [by apply wlp_ret, gathers_same| |done]. simpl.
  eapply wlp_seq; [exact (Hb x s)|]. intros [] s1 H1 [] s2 H2. by eapply gathers_trans, IH.
Qed.

Lemma concat_nils {A B} (l : list A) : concat ((fun _ => @nil B) <$> l) = [].
Proof. by induction l. Qed.

Lemma concat_single {A} (l : list A) : concat ((fun x => [x]) <$> l) = l.
Proof. induction l as [|x l IH]; [done|]. cbn [fmap list_fmap concat]. simpl. by rewrite IH. Qed.

(** A handler that collects neither. *)
Lemma collects_nothing {A} ctx (r : list (item A)) (body : A → TM unit) :
  (∀ x, collects [] [] (body x)) → collects [] [] (for_items ctx r body).
Proof.
  intros Hb s. pose proof (collects_items ctx r body (fun _ => []) (fun _ => []) Hb s) as H.
  by rewrite !concat_nils in H.
Qed.

Ltac collects_tac :=
  repeat match goal with
  | |- wlp (lift _ ≫= _) _ _ => apply wlp_lift; intros ? ?
  | |- wlp (gets _ ≫= _) _ _ => apply wlp_gets
  | |- wlp (modify _ ≫= _) _ _ => apply wlp_modify_seq
  | |- wlp (fail _) _ _ => apply wlp_fail
  | |- wlp (mret _) _ _ => apply wlp_ret
  | |- wlp (modify _) _ _ => apply wlp_modify
  | |- wlp (if ?b then _ else _) _ _ => destruct b eqn:?
  | |- wlp (match ?x with _ => _ end) _ _ => destruct x eqn:?
  end.

Ltac nothing := intros; intros ?; collects_tac; by apply gathers_same.

Lemma collects_type_entry ct : collects [] [] (type_entry ct).
Proof. unfold type_entry. intros s. collects_tac; by apply gathers_same. Qed.

Lemma collects_import root imp : collects [] [] (import_entry root imp).
Proof. unfold import_entry, import_func. intros s. collects_tac; by apply gathers_same. Qed.

Lemma collects_memory mt : collects [] [mt] (memory_entry mt).
Proof.
  unfold memory_entry. intros s. collects_tac. split; [simpl; by rewrite app_nil_r|]. by split.
Qed.

Lemma collects_data d : collects (declared_segment d) [] (data_entry d).
Proof.
  unfold data_entry, declared_segment. intros s. destruct (d_kind d) as [mi e|]; collects_tac.
  - match goal with H : eval_i32_expr _ = _ |- _ => rewrite H end. by split.
  - by split.
Qed.

Lemma collects_code b : collects [] [] (code_entry b).
Proof. unfold code_entry. intros s. collects_tac; by apply gathers_same. Qed.

Lemma collects_payload root p : collects (section_segments p) (section_memories p) (payload_step root p).
Proof.
  destruct p; simpl; try (intros s; by apply wlp_ret, gathers_same).
  - apply collects_nothing. intros rec s.
    pose proof (collects_each rec type_entry (fun _ => []) (fun _ => []) collects_type_entry s) as H.
    by rewrite !concat_nils in H.
  - apply collects_nothing. nothing.
  - apply collects_nothing, collects_import.
  - intros s. pose proof (collects_items "memory: {e}" r memory_entry (fun _ => []) (fun mt => [mt]) collects_memory s) as H.
    by rewrite concat_nils, concat_single in H.
  - apply collects_nothing. unfold table_entry. nothing.
  - apply collects_nothing. unfold element_entry. nothing.
  - intros s. pose proof (collects_items "data: {e}" r data_entry declared_segment (fun _ => []) collects_data s) as H.
    by rewrite concat_nils in H.
  - apply collects_nothing. unfold global_entry. nothing.
  - apply collects_nothing. unfold export_entry. nothing.
  - apply collects_code.
  - intros s. apply wlp_fail.
Qed.

(** C16. The memory of a translated module is the declared one.  A module declares at most
    one memory.  Without one both sizes are 0; with one the initial size is the declared
    number of pages of 64 KiB, and the allocated size, which is never smaller, the declared
    maximum, or 1024 pages if there is none or it is greater.  Every byte is the one the last
    active data segment that covers it gives, in the order of the data sections, and zero
    elsewhere; and every declared segment can be found again in the blob through its
    descriptor, live exactly when it is passive. *)
Theorem translate_wasm_memory root parse_all bytes hm :
  let segs := declared_segments (parse_all bytes) in
  translate_wasm root parse_all bytes = Ok hm → len hm.(hm_data_blob) < 2 ^ 32 →
  match declared_memories (parse_all bytes) with
  | [] => hm.(hm_mem_size) = 0 ∧ hm.(hm_mem_max) = 0
  | [mt] =>
      hm.(hm_mem_size) = Z.of_N mt.(mt_initial) * 65536 ∧
      hm.(hm_mem_max) = Z.min (match mt.(mt_maximum) with Some n => Z.of_N n | None => 1024 end) 1024 * 65536
  | _ => False
  end ∧
  hm.(hm_mem_size) ≤ hm.(hm_mem_max) ∧ len hm.(hm_memory) = hm.(hm_mem_max) ∧
  (∀ a : nat, Z.of_nat a < hm.(hm_mem_max) → hm.(hm_memory) !! a = Some (image segs 0 a)) ∧
  stored segs (mkDataOut hm.(hm_memory) hm.(hm_data_blob) hm.(hm_data_off) hm.(hm_data_len) hm.(hm_data_live)).
Proof.
  intros segs Htr Hs.
  eapply (translate_wasm_inv_plain _ _ _ _ (fun s => offsets_ok s.(ts_data)))
    in Htr as (s & Hl & Has & Ho); [|by constructor|intros p s1 s2; apply offsets_ok_step].
  pose proof (collects_items _ _ _ _ _ (collects_payload root) _ _ _ Hl) as [Hdata Hmem].
  fold (declared_segments (parse_all bytes)) in Hdata. fold (declared_memories (parse_all bytes)) in Hmem.
  fold segs in Hdata. simpl in Hdata. rewrite Hdata in Ho.
  apply assemble_ok in Has as (ms & mm & d & tb & fps & Hms & Hd & _ & _ & _ & ->). rewrite Hdata in Hd.
  simpl in *. destruct (memory_sizes_spec _ _ _ Hms) as (H1 & H2 & H3 & H4).
  assert (len (replicate (Z.to_nat mm) 0) = mm) as Hlen by (unfold len; rewrite length_replicate; lia).
  pose proof Hd as Hst. apply data_loop_spec in Hd as [Hl1 Hl2]; [|done|simpl; lia].
  split_and!.
  - destruct (declared_memories _) as [|mt [|]]; [| |done].
    + rewrite Hmem in H4. specialize (H4 eq_refl). lia.
    + destruct Hmem as [_ Hmem]. rewrite Hmem in H3. destruct (H3 eq_refl) as [-> ->]. split; [reflexivity|].
      unfold cap_pages. simpl. destruct (mt_maximum mt); reflexivity.
  - lia.
  - unfold len in *. simpl in Hl1. lia.
  - intros a Ha. apply Hl2. simpl. apply lookup_replicate. lia.
  - apply (data_loop_stored ms [] _ _ d) in Hst; [by destruct d|by split_and!|done].
Qed.

(** [sample_payloads]: one page of two, two active segments that overlap and a passive one. *)
Lemma translate_wasm_memory_witness :
  ∃ hm, sample_module = Ok hm ∧ len hm.(hm_memory) = 131072 ∧ hm.(hm_memory) !! 10%nat = Some 7.
Proof.
  destruct (ok_such_that sample_module (fun hm => (len hm.(hm_data_blob) <? 2 ^ 32) && (hm.(hm_mem_max) =? 131072)))
    as (hm & Hhm & Hb); [vm_compute; reflexivity|]. apply andb_true_iff in Hb as [Hb%Z.ltb_lt Hm%Z.eqb_eq].
  exists hm. split; [exact Hhm|].
  destruct (translate_wasm_memory soroban_env (fun _ => sample_payloads) [] hm Hhm Hb) as (_ & _ & Hlen & Hat & _).
  rewrite Hm in Hlen, Hat. split; [exact Hlen|]. apply (Hat 10%nat). lia.
Defined.

(** C31. [translate_wasm] never panics, whatever the parser yields: each index and
    slice of the translator, of the lowering and of the assembly is in range. *)
Theorem translate_wasm_no_panic root parse_all bytes w :
  translate_wasm root parse_all bytes ≠ Panic w.
Proof.
  unfold translate_wasm.
  pose proof (payload_loop_ind root (fun _ s => offsets_ok s.(ts_data)) (parse_all bytes)
    init_state) as Hwp.
  unfold wp in Hwp. destruct (payload_loop _ _ _) as [[[]| |] s]; [|done|].
  - assert (offsets_ok s.(ts_data)) as Ho
      by (apply Hwp; [by constructor|intros ????; apply offsets_ok_step|done]).
    revert w. change (NoPanic (assemble s)). unfold assemble.
    apply bind_no_panic; [apply _|]. intros fps _.
    apply bind_no_panic; [apply _|]. intros [ms mm] (H1 & _)%memory_sizes_spec.
    apply bind_no_panic; [|intros; no_panic_tac].
    apply data_loop_no_panic; [done|]. simpl. unfold len. rewrite length_replicate. lia.
  - exfalso. apply Hwp; [by constructor|intros ????; apply offsets_ok_step|done].
Qed.
