(* ===== verification/ModuleTables.v ===== *)
(** * Types, imports and tables of a translated module

    The records [translate_wasm] hands to the engine next to the code: the type
    fingerprints [call_indirect] compares, the signature of each function, the
    import arrays and the function table. *)

From S2P Require Import Prelude Cuop Wasm Lower EnvTable Module ModuleSteps ModuleFacts.
From stdpp Require Import base list strings.

Local Open Scope Z_scope.

(** ** Fingerprints *)

(** The tags of a type list as the base-4 number they spell, first tag lowest. *)
Fixpoint tags (ts : list ValType) : Z :=
  match ts with
  | [] => 0
  | t :: ts' => match val_tag t with Ok tg => tg | _ => 0 end + 4 * tags ts'
  end.

Definition tagged (ts : list ValType) : Prop := Forall is_num ts.

Lemma tags_range ts : 0 ≤ tags ts < 4 ^ len ts.
Proof.
  induction ts as [|t ts IH]; [done|]. rewrite len_cons, Z.pow_add_r by (auto with cuwasm; lia).
  destruct t; simpl; lia.
Qed.

Lemma tags_inj ts ts' : tagged ts → tagged ts' → length ts = length ts' →
  tags ts = tags ts' → ts = ts'.
Proof.
  intros H. revert ts'. induction H as [|t ts Ht _ IH]; intros [|t' ts'] H'; try done.
  apply Forall_cons in H' as [Ht' H']. simpl. intros [= Hl] He.
  destruct t, t'; try done; simpl in He; f_equal; (apply IH; [done..|lia]) || lia.
Qed.

Lemma fp_tags_spec sh i ts fp fp' :
  0 ≤ sh → 0 ≤ i → sh + 2 * (i + len ts) ≤ 64 → 0 ≤ fp < 2 ^ (sh + 2 * i) →
  fp_tags sh i ts fp = Ok fp' →
  tagged ts ∧ fp' = fp + tags ts * 2 ^ (sh + 2 * i) ∧ 0 ≤ fp' < 2 ^ (sh + 2 * (i + len ts)).
Proof.
  intros Hsh. revert i fp. induction ts as [|t ts IH]; intros i fp Hi Hb Hfp; simpl.
  - intros [= <-]. rewrite (@len_nil ValType), !Z.add_0_r. by split_and!; [constructor|..|lia|lia].
  - rewrite len_cons in Hb. pose proof (len_nonneg ts).
    assert (2 ^ (sh + 2 * (i + 1)) = 4 * 2 ^ (sh + 2 * i)) as Hpow.
    { replace (sh + 2 * (i + 1)) with (2 + (sh + 2 * i)) by lia. rewrite Z.pow_add_r; lia. }
    assert (2 ^ (sh + 2 * (i + 1)) ≤ 2 ^ 64) by (apply Z.pow_le_mono_r; lia).
    destruct (val_tag t) as [tg| |] eqn:Htg; simpl; [|done..].
    assert (0 ≤ tg < 4 ∧ is_num t) as [Htr Hn] by (by destruct t; simplify_eq/=).
    rewrite Z.shiftl_mul_pow2 by lia. rewrite u64_id by nia.
    rewrite <-Z.shiftl_mul_pow2, lor_shiftl by lia.
    intros (Hts & -> & Hr)%IH; [|lia|lia|nia].
    split_and!; [by constructor| |lia|].
    + rewrite Hpow. lia.
    + rewrite len_cons. replace (i + (len ts + 1)) with (i + 1 + len ts) by lia. lia.
Qed.

Lemma type_fingerprint_spec ps rs fp :
  type_fingerprint ps rs = Ok fp →
  tagged ps ∧ tagged rs ∧ len ps ≤ 8 ∧ len rs ≤ 8 ∧
  fp = len ps + 2 ^ 8 * len rs + 2 ^ 16 * tags ps + 2 ^ 32 * tags rs.
Proof.
  unfold type_fingerprint. pose proof (len_nonneg ps). pose proof (len_nonneg rs).
  destruct (8 <? len ps) eqn:Hp; [done|]. destruct (8 <? len rs) eqn:Hr; [done|]. simpl.
  rewrite Z.shiftl_mul_pow2 by lia. rewrite !u64_id by lia.
  rewrite <-Z.shiftl_mul_pow2, lor_shiftl by lia.
  destruct (fp_tags 16 _ _ _) as [fp1| |] eqn:H1; simpl; [|done..].
  apply fp_tags_spec in H1 as (T1 & -> & R1); [|lia..].
  intros (T2 & -> & R2)%fp_tags_spec; [|lia|lia|lia|].
  - split_and!; [done|done|lia|lia|]. change (2 ^ (16 + 2 * 0)) with (2 ^ 16).
    change (2 ^ (32 + 2 * 0)) with (2 ^ 32). lia.
  - split; [lia|]. eapply Z.lt_le_trans; [apply R1|]. apply Z.pow_le_mono_r; lia.
Qed.

Lemma tags_small ts : len ts ≤ 8 → 0 ≤ tags ts < 2 ^ 16.
Proof.
  intros. pose proof (tags_range ts). split; [lia|]. eapply Z.lt_le_trans; [apply H0|].
  change (2 ^ 16) with (4 ^ 8). apply Z.pow_le_mono_r; lia.
Qed.

Lemma type_fingerprint_counts ps rs fp :
  type_fingerprint ps rs = Ok fp →
  Z.land fp 255 = len ps ∧ Z.land (Z.shiftr fp 8) 255 = len rs ∧ len ps ≤ 8 ∧ len rs ≤ 8.
Proof.
  intros (_ & _ & Lp & Lr & E)%type_fingerprint_spec.
  pose proof (tags_small _ Lp). pose proof (tags_small _ Lr).
  pose proof (len_nonneg ps). pose proof (len_nonneg rs).
  change 255 with (Z.ones 8). rewrite !Z.land_ones, Z.shiftr_div_pow2 by lia.
  split_and!; Z.to_euclidean_division_equations; lia.
Qed.

Lemma type_fingerprint_inj ps rs ps' rs' fp fp' :
  type_fingerprint ps rs = Ok fp → type_fingerprint ps' rs' = Ok fp' → (fp = fp' ↔ ps = ps' ∧ rs = rs') ∧ 0 ≤ fp < 2 ^ 64.
Proof.
  intros (T1 & T2 & Lp & Lr & E1)%type_fingerprint_spec (T1' & T2' & Lp' & Lr' & E2)%type_fingerprint_spec.
  pose proof (tags_small _ Lp). pose proof (tags_small _ Lr).
  pose proof (tags_small _ Lp'). pose proof (tags_small _ Lr').
  unfold len in *. split; [split|lia].
  - intros Heq. split; apply tags_inj; try done; lia.
  - intros [-> ->]. lia.
Qed.

(** C29. The fingerprint [call_indirect] compares identifies a function type: two
    types with the same fingerprint are equal, so the run-time check accepts a
    callee exactly when its type is the expected one, and the verifier reads the
    numbers of parameters and results back from the two low bytes. *)
Theorem type_fingerprint_faithful ps rs ps' rs' fp fp' :
  type_fingerprint ps rs = Ok fp → type_fingerprint ps' rs' = Ok fp' →
  (fp = fp' ↔ ps = ps' ∧ rs = rs') ∧
  Z.land fp 255 = len ps ∧ Z.land (Z.shiftr fp 8) 255 = len rs ∧ 0 ≤ fp < 2 ^ 64.
Proof.
  intros H1 H2. destruct (type_fingerprint_counts _ _ _ H1) as (C1 & C2 & _).
  destruct (type_fingerprint_inj _ _ _ _ _ _ H1 H2) as [Hiff ?]. by split_and!; [apply Hiff|..|lia|lia].
Qed.

Lemma type_fingerprint_faithful_witness :
  ∃ fp fp', type_fingerprint [I64; F32] [I32] = Ok fp ∧ type_fingerprint [F32; I64] [I32] = Ok fp' ∧
    fp ≠ fp' ∧ Z.land fp 255 = 2 ∧ Z.land (Z.shiftr fp 8) 255 = 1.
Proof.
  eexists _, _. split; [vm_compute; reflexivity|]. split; [vm_compute; reflexivity|].
  destruct (type_fingerprint_faithful [I64; F32] [I32] [F32; I64] [I32] _ _ eq_refl eq_refl)
    as (Hiff & Hp & Hr & _).
  split; [intros Heq; apply Hiff in Heq as [Heq _]; discriminate Heq|].
  split; [exact Hp|exact Hr].
Defined.

(** ** Imports *)

(** The four import arrays are columns of one list of resolved imports. *)
Definition imports_inv (root : list EnvMod) (s : TState) : Prop :=
  ∃ l : list (string * string * Z),
    s.(ts_imports) = mkImports (snd <$> l) (fst ∘ fst <$> l) (snd ∘ fst <$> l)
                       ((fun e => default "?" (label root e.2)) <$> l) ∧
    Forall (fun e => lookup_fn root e.1.1 e.1.2 = Ok e.2) l.

Lemma imports_inv_step root p s1 s2 :
  imports_inv root s1 → tstep root p s1 s2 → imports_inv root s2.
Proof.
  intros HI Hst. destruct Hst as [| |r imp t ft id Hp Hft Hid| | | | | | |]; try done.
  destruct HI as (l & Hi & Hl). exists (l ++ [(imp.(imp_module), imp.(imp_name), id)]).
  simpl. rewrite Hi. simpl. rewrite !fmap_app. split; [done|].
  apply Forall_app. split; [done|]. by apply Forall_singleton.
Qed.

(** The import records of a translated module agree with the environment
    description: the four arrays have one entry per host import, the [j]-th
    function number is that of an entry of the description, and the recorded
    module, name and label are that entry's. *)
Theorem translate_wasm_imports root parse_all bytes hm :
  len (flat root) < 2 ^ 32 → translate_wasm root parse_all bytes = Ok hm →
  length hm.(hm_host_import_mod) = length hm.(hm_host_fn_id) ∧
  length hm.(hm_host_import_name) = length hm.(hm_host_fn_id) ∧
  length hm.(hm_host_import_env) = length hm.(hm_host_fn_id) ∧
  hm.(hm_n_host_imports) = u32 (len hm.(hm_host_fn_id)) ∧
  ∀ (j : nat) id, hm.(hm_host_fn_id) !! j = Some id →
    ∃ m fn, flat root !! Z.to_nat id = Some (m, fn) ∧
      hm.(hm_host_import_mod) !! j = Some m ∧
      hm.(hm_host_import_name) !! j = Some fn.(ef_export) ∧
      hm.(hm_host_import_env) !! j = Some (fn_label m fn).
Proof.
  intros Hroot Htr.
  eapply (translate_wasm_inv_plain _ _ _ _ (imports_inv root))
    in Htr as (s & _ & Has & l & Hi & Hl);
    [|exists []; by split|intros p s1 s2; apply imports_inv_step].
  apply assemble_ok in Has as (ms & mm & d & tb & fps & _ & _ & _ & _ & _ & ->).
  simpl. rewrite Hi. simpl. rewrite !length_fmap. split_and!; [done..|].
  intros j id Hj. apply list_lookup_fmap_Some in Hj as ([[m f] id'] & -> & Hj).
  rewrite Forall_lookup in Hl.
  destruct (lookup_fn_entry root m f id' Hroot (Hl _ _ Hj)) as (fn & Hfl & Hf & Hlab & _).
  exists m, fn. rewrite !list_lookup_fmap, Hj. simpl. rewrite Hlab, Hf. done.
Qed.

Lemma translate_wasm_imports_witness :
  ∃ hm, sample_module = Ok hm ∧
    hm.(hm_host_import_env) !! 0%nat = Some "x::8 (get_max_live_until_ledger)".
Proof.
  destruct (ok_such_that sample_module (fun hm => bool_decide (hm.(hm_host_fn_id) = [9])))
    as (hm & Hhm & Hb%bool_decide_eq_true_1); [vm_compute; reflexivity|].
  exists hm. split; [exact Hhm|].
  destruct (translate_wasm_imports soroban_env (fun _ => sample_payloads) [] hm)
    as (_ & _ & _ & _ & Hj); [vm_compute; reflexivity|exact Hhm|].
  destruct (Hj 0%nat 9) as (m & fn & Hfl & _ & _ & Henv); [rewrite Hb; reflexivity|].
  rewrite Henv. vm_compute in Hfl. injection Hfl as <- <-. vm_compute. reflexivity.
Defined.

(** ** Signatures *)

Definition is_import (it : item Payload) : bool :=
  match it with Item (ImportSection _) => true | _ => false end.
Definition no_import (ps : list (item Payload)) : bool := forallb (negb ∘ is_import) ps.

(** The order of sections the WASM format prescribes, as far as it matters here:
    no import section after a function section. *)
Fixpoint imports_first (ps : list (item Payload)) : bool :=
  match ps with
  | [] => true
  | Item (FunctionSection _) :: ps' => no_import ps'
  | _ :: ps' => imports_first ps'
  end.

Lemma imports_first_next it rest : imports_first (it :: rest) = true → imports_first rest = true.
Proof.
  destruct it as [[]|]; simpl; try done. intros H.
  induction rest as [|it rest IH]; [done|]. simpl in H. apply andb_true_iff in H as [_ H].
  simpl. destruct it as [[]|]; auto.
Qed.

(** Function [i] has the signature of its type. *)
Definition sig_of (s : TState) (i : nat) (f : FuncMetaC) : Prop :=
  ∃ t ft, s.(ts_func_typeidx) !! i = Some t ∧ s.(ts_func_types) !! Z.to_nat t = Some ft ∧
    f.(fm_n_params) = u16 (len ft.1) ∧ f.(fm_n_results) = u16 (len ft.2).

Definition sig_inv (rest : list (item Payload)) (s : TState) : Prop :=
  let fs := s.(ts_out).(co_funcs) in
  let ids := s.(ts_imports).(host_fn_ids) in
  (∀ i f, fs !! i = Some f → sig_of s i f) ∧
  (∀ i f, fs !! i = Some f → (i < length ids)%nat → import_meta f) ∧
  (length ids ≤ length fs ≤ length s.(ts_func_typeidx))%nat ∧
  ((length s.(ts_func_typeidx) = length fs ∧ length ids = length fs ∧
    imports_first rest = true) ∨ no_import rest = true).

Lemma sig_of_mono s1 s2 i f :
  sig_of s1 i f → s1.(ts_func_typeidx) `prefix_of` s2.(ts_func_typeidx) →
  s1.(ts_func_types) `prefix_of` s2.(ts_func_types) → sig_of s2 i f.
Proof.
  intros (t & ft & H1 & H2 & H3 & H4) P1 P2. exists t, ft.
  split_and!; [by eapply prefix_lookup_Some..|done|done].
Qed.

Lemma lower_or_stub_sig ops np nr nl code consts fts ftis ids meta code' consts' :
  lower_or_stub ops np nr nl code consts fts ftis ids = Ok (meta, code', consts') →
  meta.(fm_n_params) = np ∧ meta.(fm_n_results) = nr.
Proof.
  unfold lower_or_stub, lower_operators, stub. destruct (reserve_scratch _ _ _) as [nl' sc].
  destruct (lower_body _ _ _) as [[[]| |] s]; [by intros [= <- _ _]..|done].
Qed.

(** Adding function [f] at the next index. *)
Lemma sig_add s1 s2 f :
  (∀ i g, s1.(ts_out).(co_funcs) !! i = Some g → sig_of s1 i g) →
  s2.(ts_out).(co_funcs) = s1.(ts_out).(co_funcs) ++ [f] →
  s1.(ts_func_typeidx) `prefix_of` s2.(ts_func_typeidx) →
  s1.(ts_func_types) `prefix_of` s2.(ts_func_types) →
  sig_of s2 (length s1.(ts_out).(co_funcs)) f →
  ∀ i g, s2.(ts_out).(co_funcs) !! i = Some g → sig_of s2 i g.
Proof.
  intros Hs -> P1 P2 Hf i g [[_ Hg]|[-> <-]]%lookup_snoc_Some; [|done].
  eapply sig_of_mono; [by apply Hs|done..].
Qed.

Lemma sig_inv_typeidx r rest s t :
  sig_inv (Item (FunctionSection r) :: rest) s →
  sig_inv (Item (FunctionSection r) :: rest) (add_typeidx t s).
Proof.
  intros (H1 & H2 & H3 & H4). split_and!; simpl; try done; try lia.
  - intros i f Hf. eapply sig_of_mono; [by apply H1|by apply prefix_app_r|done].
  - rewrite length_app. lia.
  - right. destruct H4 as [(_ & _ & H4)|H4]; [|done]. by simpl in H4.
Qed.

Lemma sig_inv_import r rest s imp t ft id lab :
  sig_inv (Item (ImportSection r) :: rest) s →
  s.(ts_func_types) !! Z.to_nat t = Some ft →
  sig_inv (Item (ImportSection r) :: rest)
    (add_func s.(ts_out).(co_code) s.(ts_out).(co_consts) (import_func_meta ft)
       (add_import imp id lab (add_typeidx t s))).
Proof.
  intros (H1 & H2 & H3 & [(Hl1 & Hl2 & H4)|H4]) Hft; [|done].
  split; [|split_and!; simpl in *; rewrite ?length_app in *; simpl in *; try lia].
  - eapply (sig_add s); [done|done|by apply prefix_app_r|done|].
    exists t, ft. simpl. rewrite <-Hl1. by rewrite list_lookup_middle.
  - intros i f [[_ Hf]|[_ <-]]%lookup_snoc_Some Hi; [|done].
    apply (H2 i f Hf). apply lookup_lt_Some in Hf. lia.
  - left. split_and!; [lia..|done].
Qed.

Lemma sig_inv_code body rest s t ft meta code consts :
  sig_inv (Item (CodeSectionEntry body) :: rest) s →
  s.(ts_func_typeidx) !! length s.(ts_out).(co_funcs) = Some t →
  s.(ts_func_types) !! Z.to_nat t = Some ft →
  meta.(fm_n_params) = u16 (len ft.1) → meta.(fm_n_results) = u16 (len ft.2) →
  sig_inv (Item (CodeSectionEntry body) :: rest) (add_func code consts meta s).
Proof.
  intros (H1 & H2 & H3 & H4) Ht Hft Hp Hr. pose proof (lookup_lt_Some _ _ _ Ht).
  split; [|split_and!; simpl in *; rewrite ?length_app; simpl; try done; try lia].
  - eapply (sig_add s); [done..|]. by exists t, ft.
  - intros i f [[_ Hf]|[-> <-]]%lookup_snoc_Some Hi; [by eapply H2|lia].
  - right. destruct H4 as [(? & _)|?]; [lia|done].
Qed.

Lemma sig_inv_step root p rest s1 s2 :
  sig_inv (Item p :: rest) s1 → tstep root p s1 s2 → sig_inv (Item p :: rest) s2.
Proof.
  intros HI Hst. destruct Hst as [params results _ _| | | | | | | | |]; subst; try done.
  - destruct HI as (H1 & ?). split; [|done]. intros i f Hf. simpl in Hf.
    eapply sig_of_mono; [by apply H1|done|by apply prefix_app_r].
  - by apply sig_inv_typeidx.
  - by apply sig_inv_import.
  - match goal with H : lower_or_stub _ _ _ _ _ _ _ _ _ = _ |- _ =>
      apply lower_or_stub_sig in H as [??] end.
    by eapply sig_inv_code.
Qed.

Lemma sig_inv_next it rest s : sig_inv (it :: rest) s → sig_inv rest s.
Proof.
  intros (H1 & H2 & H3 & H4). split_and!; try done; try lia.
  destruct H4 as [(? & ? & H4)|H4]; [left|right].
  - split_and!; [done..|]. by eapply imports_first_next.
  - by apply andb_true_iff in H4 as [_ ?].
Qed.

#[local] Arguments type_fingerprint : simpl never.

Lemma fingerprints_lookup fts fps k ft :
  fingerprints fts = Ok fps → fts !! k = Some ft →
  ∃ fp, fps !! k = Some fp ∧ type_fingerprint ft.1 ft.2 = Ok fp.
Proof.
  revert fps k. induction fts as [|ft0 fts IH]; intros fps k; simpl; [done|].
  destruct (type_fingerprint ft0.1 ft0.2) as [fp| |] eqn:Hfp; simpl; [|done..].
  destruct (fingerprints fts) as [fps'| |]; simpl; [|done..]. intros [= <-].
  destruct k as [|k]; simpl; [intros [= <-]; exists fp; by rewrite Hfp|]. by apply IH.
Qed.

(** The signature as the engine sees it: in the fingerprint of the type index. *)
Lemma sig_of_fp s fps i f :
  fingerprints s.(ts_func_types) = Ok fps → sig_of s i f →
  ∃ t fp, s.(ts_func_typeidx) !! i = Some t ∧ fps !! Z.to_nat t = Some fp ∧
    f.(fm_n_params) = Z.land fp 255 ∧ f.(fm_n_results) = Z.land (Z.shiftr fp 8) 255 ∧
    f.(fm_n_params) ≤ 8 ∧ f.(fm_n_results) ≤ 8.
Proof.
  intros Hfps (t & ft & Ht & Hft & Hp & Hr).
  destruct (fingerprints_lookup _ _ _ _ Hfps Hft) as (fp & Hfp & Hty).
  exists t, fp. rewrite Hp, Hr. apply type_fingerprint_counts in Hty as (-> & -> & ? & ?).
  pose proof (len_nonneg ft.1). pose proof (len_nonneg ft.2).
  rewrite !u16_id by lia. by split_and!.
Qed.

(** C28. A call and its callee agree on the signature: when no import section comes
    after a function section (the order the format prescribes), function [i] of a
    translated module has the numbers of parameters and results that the
    fingerprint of its type index gives (at most 8 each), and the functions whose
    index is below the number of imports are the host imports. *)
Theorem translate_wasm_signatures root parse_all bytes hm :
  imports_first (parse_all bytes) = true → translate_wasm root parse_all bytes = Ok hm →
  (length hm.(hm_host_fn_id) ≤ length hm.(hm_funcs) ≤ length hm.(hm_func_typeidx))%nat ∧
  ∀ (i : nat) f, hm.(hm_funcs) !! i = Some f →
    ((i < length hm.(hm_host_fn_id))%nat → import_meta f) ∧
    ∃ t fp, hm.(hm_func_typeidx) !! i = Some t ∧ hm.(hm_type_fp) !! Z.to_nat t = Some fp ∧
      f.(fm_n_params) = Z.land fp 255 ∧ f.(fm_n_results) = Z.land (Z.shiftr fp 8) 255 ∧
      f.(fm_n_params) ≤ 8 ∧ f.(fm_n_results) ≤ 8.
Proof.
  intros Hord Htr.
  eapply (translate_wasm_inv _ _ _ _ sig_inv) in Htr as (s & _ & Has & H1 & H2 & H3 & _).
  - apply assemble_ok in Has as (ms & mm & d & tb & fps & _ & _ & _ & Hfps & _ & ->).
    simpl in *. split; [done|]. intros i f Hf. split; [by apply H2|].
    by apply (sig_of_fp s), H1.
  - split_and!; simpl; try done; try lia. by left.
  - intros p rest s1 s2. apply sig_inv_step.
  - apply sig_inv_next.
Qed.

Lemma translate_wasm_signatures_witness :
  ∃ hm, sample_module = Ok hm ∧ (1 ≤ length hm.(hm_funcs))%nat.
Proof.
  destruct (ok_such_that sample_module (fun hm => bool_decide (hm.(hm_host_fn_id) = [9])))
    as (hm & Hhm & Hb%bool_decide_eq_true_1); [vm_compute; reflexivity|].
  exists hm. split; [exact Hhm|].
  destruct (translate_wasm_signatures soroban_env (fun _ => sample_payloads) [] hm)
    as [[Hn _] _]; [vm_compute; reflexivity|exact Hhm|].
  rewrite Hb in Hn. exact Hn.
Defined.

(** ** Code *)

(** Function [i] of a module: one of the first [n], the imports, has no code; any other is a
    closed span of the code. *)
Definition function_ok (n : nat) (code : list CuOpC) (consts : list Z) (i : nat) (f : FuncMetaC) : Prop :=
  if (i <? n)%nat then import_meta f else closed_func code consts f.

Definition code_inv (rest : list (item Payload)) (s : TState) : Prop :=
  let o := s.(ts_out) in
  sig_inv rest s ∧ funcs_inv rest s ∧
  (small_out o.(co_code) o.(co_consts) → ∀ (i : nat) f, o.(co_funcs) !! i = Some f →
     (length s.(ts_imports).(host_fn_ids) ≤ i)%nat → closed_func o.(co_code) o.(co_consts) f).

Lemma code_inv_step root p rest s1 s2 :
  code_inv (Item p :: rest) s1 → tstep root p s1 s2 → code_inv (Item p :: rest) s2.
Proof.
  intros (HS & HF & HC) Hst. split; [by eapply sig_inv_step|]. split; [by eapply funcs_inv_step|].
  destruct Hst as [| |r imp t ft id Hp| | | | | | |body t ft rd ops nl meta code consts Hp Ht Hft Hr Ho Hnl Hlow]; try done; subst p.
  - destruct HS as (_ & _ & _ & [(_ & Hl & _)|?]); [|done]. intros _ i f Hf Hi. simpl in *.
    rewrite length_app in Hi. simpl in Hi. apply lookup_lt_Some in Hf. rewrite length_app in Hf. simpl in Hf. lia.
  - apply lower_or_stub_appends with (nested := true) in Hlow as (Hg & Hk & _ & Happ).
    + intros Hs i f Hf Hi. simpl in *. destruct (Happ Hs) as (Hc & _ & Hcl). pose proof (prefix_len _ _ Hk).
      apply lookup_snoc_Some in Hf as [[_ Hf]|[_ <-]]; [|by apply Hcl]. eapply closed_func_mono; [|done..].
      destruct Hs. eapply HC; [split; lia|done..].
    + intros _. destruct HF as [Hn _]. simpl in Hn. unfold nested_body in Hn. rewrite Hr, Ho in Hn.
      by apply andb_true_iff in Hn as [? _].
Qed.

(** C15. The code of a translated module is safe to run function by function.  When the
    sections come in the order of the format, every body the decoder reads is well nested,
    and the code and the constant pool fit 32-bit indices, the first functions, as many as
    the module has host imports, have no code; and every other one, whether its body was
    lowered or replaced by the trap stub, is a span inside the code that ends in [end_func],
    whose branches stay inside the span, the conditional ones going forward, and whose
    constants are in the pool.  The spans follow each other, and the pool has no
    duplicates. *)
Theorem translate_wasm_functions root parse_all bytes hm :
  imports_first (parse_all bytes) = true → forallb nested_payload (parse_all bytes) = true →
  translate_wasm root parse_all bytes = Ok hm →
  len hm.(hm_code) < 2 ^ 32 → len hm.(hm_consts) < 2 ^ 32 →
  hm.(hm_funcs) ≠ [] ∧
  (∀ (i : nat) f, hm.(hm_funcs) !! i = Some f →
     function_ok (length hm.(hm_host_fn_id)) hm.(hm_code) hm.(hm_consts) i f) ∧
  spans_ordered hm.(hm_funcs) ∧ NoDup hm.(hm_consts).
Proof.
  intros Hord Hn Htr Hc Hk. eapply (translate_wasm_inv _ _ _ _ code_inv) in Htr as (s & _ & Has & HS & HF & HC).
  - apply assemble_ok in Has as (ms & mm & d & tb & fps & _ & _ & _ & _ & Hne & ->). simpl in *.
    destruct HF as (_ & Hnd & Hf), HS as (_ & H2 & _). destruct (Hf (conj Hc Hk)) as [_ Hord'].
    split_and!; [done| |done|done]. intros i f Hi. unfold function_ok. destruct (i <? _)%nat eqn:Hlt.
    + by apply (H2 i f Hi), Nat.ltb_lt.
    + by apply (HC (conj Hc Hk) i f Hi), Nat.ltb_ge.
  - split; [split_and!; simpl; try done; try lia; by left|]. split; [|done].
    split_and!; [done|by constructor|]. intros _. split; [done|]. by intros i j f g _ [].
  - intros p rest s1 s2. apply code_inv_step.
  - intros it rest s (H1 & H2 & H3). split_and!; [by eapply sig_inv_next|by eapply funcs_inv_next..|done].
Qed.

(** The three functions of [sample_payloads]: an import, [f], and the stub for [g]. *)
Lemma translate_wasm_functions_witness :
  ∃ hm, sample_module = Ok hm ∧ ∀ (i : nat) f, hm.(hm_funcs) !! i = Some f →
    function_ok 1 hm.(hm_code) hm.(hm_consts) i f.
Proof.
  destruct (ok_such_that sample_module
    (fun hm => (len hm.(hm_code) <? 2 ^ 32) && (len hm.(hm_consts) <? 2 ^ 32) && (length hm.(hm_host_fn_id) =? 1)%nat))
    as (hm & Hhm & Hb); [vm_compute; reflexivity|].
  rewrite !andb_true_iff in Hb. destruct Hb as [[Hc%Z.ltb_lt Hk%Z.ltb_lt] Hl%Nat.eqb_eq].
  exists hm. split; [exact Hhm|]. rewrite <-Hl.
  apply (translate_wasm_functions soroban_env (fun _ => sample_payloads) [] hm);
    [vm_compute; reflexivity|vm_compute; reflexivity|exact Hhm|exact Hc|exact Hk].
Defined.

(** ** The function table *)

(** The slot's entry after the element segments are written in order. *)
Definition table_image (segs : list (Z * list Z)) (v : Z) (slot : nat) : Z :=
  foldl (fun v '(off, idxs) =>
    if (off <=? Z.of_nat slot) && (Z.of_nat slot <? off + len idxs)
    then nth (slot - Z.to_nat off) idxs 0 else v) v segs.

Lemma elem_write_spec table slot idxs table' :
  elem_write table slot idxs = Ok table' →
  length table' = length table ∧ (idxs = [] ∨ slot + length idxs ≤ length table)%nat ∧
  ∀ j v, table !! j = Some v →
    table' !! j = Some (if bool_decide (slot ≤ j ∧ j < slot + length idxs)%nat
                        then nth (j - slot) idxs 0 else v).
Proof.
  revert table slot. induction idxs as [|fi idxs IH]; intros table slot; simpl.
  - intros [= <-]. split_and!; [done|by left|]. intros j v ->.
    by rewrite bool_decide_eq_false_2 by lia.
  - destruct (length table <=? slot)%nat eqn:Hs; [done|]. apply Nat.leb_gt in Hs.
    intros (Hl & Hb & Hj)%IH. rewrite length_insert in *. split_and!; [done| |].
    { right. destruct Hb as [->|Hb]; simpl; lia. }
    intros j v Hv. destruct (decide (j = slot)) as [->|Hne].
    + rewrite (Hj slot fi) by by rewrite list_lookup_insert_eq.
      rewrite bool_decide_eq_false_2, bool_decide_eq_true_2 by lia. by rewrite Nat.sub_diag.
    + rewrite (Hj j v) by by rewrite list_lookup_insert_ne. f_equal.
      repeat case_bool_decide; try lia.
      by replace (j - slot)%nat with (S (j - S slot)) by lia.
Qed.

Definition elem_inv (s : TState) : Prop :=
  (∃ n : nat, s.(ts_table) = replicate n TABLE_NULL ∧ (n ≤ 1024)%nat) ∧
  Forall (fun seg => 0 ≤ seg.1) s.(ts_elem).

Lemma elem_inv_step root p s1 s2 : elem_inv s1 → tstep root p s1 s2 → elem_inv s2.
Proof.
  intros HI Hst. destruct Hst as [| | | |n Ht Hn|k off idxs Hoff| | | |]; try done;
    destruct HI as [Htab Hseg].
  - split; [|done]. exists (Z.to_nat n). split; [done|lia].
  - split; [done|]. apply Forall_app. split; [done|]. apply Forall_singleton. simpl.
    unfold elem_offset in Hoff. destruct k; try done.
    destruct (negb _); [done|]. apply eval_i32_expr_range in Hoff. lia.
Qed.

Lemma elem_loop_spec table segs table' :
  Forall (fun seg => 0 ≤ seg.1) segs → elem_loop table segs = Ok table' →
  length table' = length table ∧
  Forall (fun seg => seg.2 = [] ∨ seg.1 + len seg.2 ≤ len table) segs ∧
  ∀ j v, table !! j = Some v → table' !! j = Some (table_image segs v j).
Proof.
  intros Ho. revert table. induction Ho as [|[off idxs] segs Hoff _ IH]; intros table; simpl.
  - intros [= <-]. by split_and!.
  - destruct (elem_write _ _ _) as [t1| |] eqn:H1; simpl; [|done..].
    apply elem_write_spec in H1 as (Hl & Hb & Hj). intros (Hl2 & Hb2 & Hj2)%IH.
    assert (len t1 = len table) as Hlen by (unfold len; lia). rewrite Hlen in Hb2.
    split_and!; [lia| |].
    + constructor; [|done]. simpl in *. destruct Hb as [->|Hb]; [by left|right].
      unfold len. lia.
    + intros j v Hv. rewrite (Hj2 _ _ (Hj j v Hv)). f_equal. unfold table_image. simpl.
      f_equal. simpl in Hoff. unfold len.
      case_bool_decide; destruct (off <=? Z.of_nat j) eqn:?,
        (Z.of_nat j <? off + Z.of_nat (length idxs)) eqn:?; simpl; done || lia.
Qed.

(** C30. The function table of a translated module: it has at most 1024 slots, each
    holding the last entry an element segment gives it or the null sentinel, and
    every element segment lies inside the table. *)
Theorem translate_wasm_table root parse_all bytes hm :
  translate_wasm root parse_all bytes = Ok hm →
  ∃ s, payload_loop root (parse_all bytes) init_state = (Ok tt, s) ∧
    len hm.(hm_table) ≤ 1024 ∧
    Forall (fun seg => seg.2 = [] ∨ seg.1 + len seg.2 ≤ len hm.(hm_table)) s.(ts_elem) ∧
    ∀ j : nat, Z.of_nat j < len hm.(hm_table) →
      hm.(hm_table) !! j = Some (table_image s.(ts_elem) TABLE_NULL j).
Proof.
  intros Htr.
  eapply (translate_wasm_inv_plain _ _ _ _ elem_inv)
    in Htr as (s & Hl & Has & (n & Htab & Hn) & Hseg);
    [|split; [by exists 0%nat; split; [|lia]|by constructor]|intros p s1 s2; apply elem_inv_step].
  apply assemble_ok in Has as (ms & mm & d & tb & fps & _ & _ & Htb & _ & _ & ->).
  rewrite Htab in Htb. apply elem_loop_spec in Htb as (H1 & H2 & H3); [|done].
  rewrite length_replicate in H1. simpl.
  assert (len (replicate n TABLE_NULL) = len tb) as Hlen
    by (unfold len; rewrite length_replicate; lia).
  rewrite Hlen in H2. exists s. split_and!; [done|unfold len; lia|done|].
  intros j Hj. apply H3, lookup_replicate. unfold len in *. lia.
Qed.

Lemma translate_wasm_table_witness :
  ∃ hm, sample_module = Ok hm ∧ len hm.(hm_table) ≤ 1024.
Proof.
  destruct (ok_such_that sample_module (fun hm => bool_decide (hm.(hm_host_fn_id) = [9])))
    as (hm & Hhm & _); [vm_compute; reflexivity|].
  exists hm. split; [exact Hhm|].
  destruct (translate_wasm_table soroban_env (fun _ => sample_payloads) [] hm Hhm)
    as (s & _ & Hlen & _). exact Hlen.
Defined.
