(* ===== verification/Engine.v ===== *)
(** * The CuOp engine

    [run_instance] of [include/cuwasm/interp.h] and the CPU driver [run_cpu] of
    [src/run.cpp]: one step per CuOp over an operand stack and a frame stack of
    fixed capacity, a linear memory, globals and data segments.  The C++
    [HostModule] and its [dev()] view are the record [HostModule] of the
    translation.  On the CPU path the pointers the interpreter tests for null
    (globals, memory, mailbox) are never null, and no profile is collected.

    An access outside an array is undefined behaviour in the source; it is the
    outcome [UB] here, so that its absence can be stated. *)

From S2P Require Import Prelude Cuop Wasm Lower EnvTable Module.
From stdpp Require Import base list strings.

Local Open Scope Z_scope.

(** ** State *)

Inductive Status :=
  | ST_RUNNING
  | ST_OK
  | ST_TRAP_UNREACHABLE
  | ST_TRAP_STACK_OVERFLOW
  | ST_TRAP_CALL_DEPTH
  | ST_OUT_OF_FUEL
  | ST_UNSUPPORTED_OP
  | ST_TRAP_DIV_BY_ZERO
  | ST_TRAP_INT_OVERFLOW
  | ST_TRAP_MEM_OOB
  | ST_TRAP_INDIRECT_CALL
  | ST_HOSTCALL_PENDING.

#[export] Instance Status_eq_dec : EqDecision Status.
Proof. solve_decision. Defined.

Definition STACK_CAP : Z := 4096.
Definition FRAME_CAP : Z := 256.
Definition FUEL_BACKEDGE : Z := 1.

Record Frame := mkFrame { ret_pc : Z; fr_fp : Z; sp_base : Z; fr_n_results : Z }.

Record HostMailbox := mkMailbox {
  mb_fn_id : Z;
  mb_n_args : Z;
  mb_n_results : Z;
  mb_args : list Z;
  mb_results : list Z }.

(** The interpreter's registers ([st] and its local copies), the two stacks and
    the mutable parts of the instance. *)
Record Machine := mkMachine {
  pc : Z;
  sp : Z;
  fp : Z;
  csp : Z;
  fuel : Z;
  peak_csp : Z;
  stack : list Z;
  frames : list Frame;
  globals : list Z;
  memory : list Z;
  msize : Z;
  live : list Z;
  mb : HostMailbox }.

Definition upd_pc x m := mkMachine x m.(sp) m.(fp) m.(csp) m.(fuel) m.(peak_csp) m.(stack)
  m.(frames) m.(globals) m.(memory) m.(msize) m.(live) m.(mb).
Definition upd_sp x m := mkMachine m.(pc) x m.(fp) m.(csp) m.(fuel) m.(peak_csp) m.(stack)
  m.(frames) m.(globals) m.(memory) m.(msize) m.(live) m.(mb).
Definition upd_fp x m := mkMachine m.(pc) m.(sp) x m.(csp) m.(fuel) m.(peak_csp) m.(stack)
  m.(frames) m.(globals) m.(memory) m.(msize) m.(live) m.(mb).
Definition upd_csp x m := mkMachine m.(pc) m.(sp) m.(fp) x m.(fuel) m.(peak_csp) m.(stack)
  m.(frames) m.(globals) m.(memory) m.(msize) m.(live) m.(mb).
Definition upd_fuel x m := mkMachine m.(pc) m.(sp) m.(fp) m.(csp) x m.(peak_csp) m.(stack)
  m.(frames) m.(globals) m.(memory) m.(msize) m.(live) m.(mb).
Definition upd_peak x m := mkMachine m.(pc) m.(sp) m.(fp) m.(csp) m.(fuel) x m.(stack)
  m.(frames) m.(globals) m.(memory) m.(msize) m.(live) m.(mb).
Definition upd_stack x m := mkMachine m.(pc) m.(sp) m.(fp) m.(csp) m.(fuel) m.(peak_csp) x
  m.(frames) m.(globals) m.(memory) m.(msize) m.(live) m.(mb).
Definition upd_frames x m := mkMachine m.(pc) m.(sp) m.(fp) m.(csp) m.(fuel) m.(peak_csp)
  m.(stack) x m.(globals) m.(memory) m.(msize) m.(live) m.(mb).
Definition upd_globals x m := mkMachine m.(pc) m.(sp) m.(fp) m.(csp) m.(fuel) m.(peak_csp)
  m.(stack) m.(frames) x m.(memory) m.(msize) m.(live) m.(mb).
Definition upd_memory x m := mkMachine m.(pc) m.(sp) m.(fp) m.(csp) m.(fuel) m.(peak_csp)
  m.(stack) m.(frames) m.(globals) x m.(msize) m.(live) m.(mb).
Definition upd_msize x m := mkMachine m.(pc) m.(sp) m.(fp) m.(csp) m.(fuel) m.(peak_csp)
  m.(stack) m.(frames) m.(globals) m.(memory) x m.(live) m.(mb).
Definition upd_live x m := mkMachine m.(pc) m.(sp) m.(fp) m.(csp) m.(fuel) m.(peak_csp)
  m.(stack) m.(frames) m.(globals) m.(memory) m.(msize) x m.(mb).
Definition upd_mb x m := mkMachine m.(pc) m.(sp) m.(fp) m.(csp) m.(fuel) m.(peak_csp)
  m.(stack) m.(frames) m.(globals) m.(memory) m.(msize) m.(live) x.

(** ** The execution monad *)

Inductive res (A : Type) :=
  | Val (a : A)
  | Trap (s : Status)
  | UB (why : string).
Arguments Val {A} _.
Arguments Trap {A} _.
Arguments UB {A} _.

Definition EM (A : Type) : Type := Machine → res A * Machine.

#[export] Instance EM_ret : MRet EM := fun A a m => (Val a, m).
#[export] Instance EM_bind : MBind EM := fun A B f c m =>
  match c m with
  | (Val a, m') => f a m'
  | (Trap s, m') => (Trap s, m')
  | (UB w, m') => (UB w, m')
  end.

Definition trap {A} (s : Status) : EM A := fun m => (Trap s, m).
Definition ub {A} (w : string) : EM A := fun m => (UB w, m).
Definition get {A} (f : Machine → A) : EM A := fun m => (Val (f m), m).
Definition put (f : Machine → Machine) : EM unit := fun m => (Val tt, f m).
Definition trap_if (b : bool) (s : Status) : EM unit := if b then trap s else mret tt.

(** Array accesses. *)
Definition index {A} (l : list A) (i : Z) : option A :=
  if 0 <=? i then l !! Z.to_nat i else None.

Definition rd {A} (what : string) (l : list A) (i : Z) : EM A :=
  match index l i with Some x => mret x | None => ub what end.

Definition in_range {A} (l : list A) (i : Z) : bool := (0 <=? i) && (i <? len l).

Definition stack_at (i : Z) : EM Z := s ← get stack; rd "stack" s i.
Definition stack_set (i v : Z) : EM unit :=
  s ← get stack;
  if in_range s i then put (upd_stack (<[Z.to_nat i := v]> s)) else ub "stack".

Definition mem_at (i : Z) : EM Z := l ← get memory; rd "memory" l i.
Definition mem_set (i v : Z) : EM unit :=
  l ← get memory;
  if in_range l i then put (upd_memory (<[Z.to_nat i := v]> l)) else ub "memory".

(** [CU_PUSH], [CU_POP]; the view's capacity is [STACK_CAP]. *)
Definition push (v : Z) : EM unit :=
  p ← get sp;
  if STACK_CAP <=? p then trap ST_TRAP_STACK_OVERFLOW
  else stack_set p (u64 v);; put (upd_sp (u32 (p + 1))).

Definition pop : EM Z :=
  p ← get sp;
  put (upd_sp (u32 (p - 1)));;
  stack_at (u32 (p - 1)).

(** [for (i = 0; i < n; ++i) CU_PUSH(0);] *)
Fixpoint push_zeros (n : nat) : EM unit :=
  match n with O => mret tt | S n' => push 0;; push_zeros n' end.

(** The two copy loops of the source: ascending and descending. *)
Fixpoint copy_up (get_at : Z → EM Z) (set_at : Z → Z → EM unit) (dst src i : Z) (n : nat)
    : EM unit :=
  match n with
  | O => mret tt
  | S n' =>
      v ← get_at (src + i);
      set_at (dst + i) v;;
      copy_up get_at set_at dst src (i + 1) n'
  end.

Fixpoint copy_down (get_at : Z → EM Z) (set_at : Z → Z → EM unit) (dst src : Z) (n : nat)
    : EM unit :=
  match n with
  | O => mret tt
  | S i =>
      v ← get_at (src + Z.of_nat i);
      set_at (dst + Z.of_nat i) v;;
      copy_down get_at set_at dst src i
  end.

Definition move_within (get_at : Z → EM Z) (set_at : Z → Z → EM unit) (dst src n : Z) : EM unit :=
  if dst <=? src then copy_up get_at set_at dst src 0 (Z.to_nat n)
  else copy_down get_at set_at dst src (Z.to_nat n).

Definition stack_move (dst src n : Z) : EM unit := move_within stack_at stack_set dst src n.
Definition mem_move (dst src n : Z) : EM unit := move_within mem_at mem_set dst src n.

(** ** Arithmetic *)

Definition b2z (b : bool) : Z := if b then 1 else 0.

Fixpoint op_lookup {A} (op : Z) (l : list (Z * A)) : option A :=
  match l with
  | [] => None
  | (k, x) :: l' => if op =? k then Some x else op_lookup op l'
  end.

(** [uint32_t] and [int32_t] views of two operands. *)
Definition u32op (f : Z → Z → Z) (a b : Z) : Z := u32 (f (u32 a) (u32 b)).
Definition u32cmp (f : Z → Z → bool) (a b : Z) : Z := b2z (f (u32 a) (u32 b)).
Definition i32cmp (f : Z → Z → bool) (a b : Z) : Z := b2z (f (i32 a) (i32 b)).
Definition u64op (f : Z → Z → Z) (a b : Z) : Z := u64 (f a b).
Definition u64cmp (f : Z → Z → bool) (a b : Z) : Z := b2z (f a b).
Definition i64cmp (f : Z → Z → bool) (a b : Z) : Z := b2z (f (i64 a) (i64 b)).

Definition neqb (a b : Z) : bool := negb (a =? b).

(** Two operands, one result, no trap. *)
Definition binops : list (Z * (Z → Z → Z)) :=
  [ (OP_I64_ADD, u64op Z.add);
    (OP_I64_SUB, u64op Z.sub);
    (OP_I64_LE_S, i64cmp Z.leb);
    (OP_I64_LT_S, i64cmp Z.ltb);
    (OP_I64_EQ, u64cmp Z.eqb);
    (OP_I32_EQ, u32cmp Z.eqb);
    (OP_I32_NE, u32cmp neqb);
    (OP_I32_LT_S, i32cmp Z.ltb);
    (OP_I32_LT_U, u32cmp Z.ltb);
    (OP_I32_LE_S, i32cmp Z.leb);
    (OP_I32_LE_U, u32cmp Z.leb);
    (OP_I32_GT_S, i32cmp Z.gtb);
    (OP_I32_GT_U, u32cmp Z.gtb);
    (OP_I32_GE_S, i32cmp Z.geb);
    (OP_I32_GE_U, u32cmp Z.geb);
    (OP_I32_ADD, u32op Z.add);
    (OP_I32_SUB, u32op Z.sub);
    (OP_I32_MUL, u32op Z.mul);
    (OP_I32_AND, u32op Z.land);
    (OP_I32_OR, u32op Z.lor);
    (OP_I32_XOR, u32op Z.lxor);
    (OP_I32_SHL, u32op (fun a b => Z.shiftl a (Z.land b 31)));
    (OP_I32_SHR_S, fun a b => u32 (Z.shiftr (i32 a) (Z.land (u32 b) 31)));
    (OP_I32_SHR_U, u32op (fun a b => Z.shiftr a (Z.land b 31)));
    (OP_I64_NE, u64cmp neqb);
    (OP_I64_LT_U, u64cmp Z.ltb);
    (OP_I64_LE_U, u64cmp Z.leb);
    (OP_I64_GT_S, i64cmp Z.gtb);
    (OP_I64_GT_U, u64cmp Z.gtb);
    (OP_I64_GE_S, i64cmp Z.geb);
    (OP_I64_GE_U, u64cmp Z.geb);
    (OP_I64_MUL, u64op Z.mul);
    (OP_I64_AND, u64op Z.land);
    (OP_I64_OR, u64op Z.lor);
    (OP_I64_XOR, u64op Z.lxor);
    (OP_I64_SHL, u64op (fun a b => Z.shiftl a (Z.land b 63)));
    (OP_I64_SHR_S, fun a b => u64 (Z.shiftr (i64 a) (Z.land b 63)));
    (OP_I64_SHR_U, u64op (fun a b => Z.shiftr a (Z.land b 63))) ].

(** Division and remainder, which trap. *)
Definition div_s (wrap sgn : Z → Z) (minv a b : Z) : Z + Status :=
  if sgn b =? 0 then inr ST_TRAP_DIV_BY_ZERO
  else if (sgn a =? minv) && (sgn b =? -1) then inr ST_TRAP_INT_OVERFLOW
  else inl (wrap (Z.quot (sgn a) (sgn b))).

Definition rem_s (wrap sgn : Z → Z) (minv a b : Z) : Z + Status :=
  if sgn b =? 0 then inr ST_TRAP_DIV_BY_ZERO
  else if (sgn a =? minv) && (sgn b =? -1) then inl 0
  else inl (wrap (Z.rem (sgn a) (sgn b))).

Definition divrem_u (uns : Z → Z) (f : Z → Z → Z) (a b : Z) : Z + Status :=
  if uns b =? 0 then inr ST_TRAP_DIV_BY_ZERO else inl (f (uns a) (uns b)).

Definition divops : list (Z * (Z → Z → Z + Status)) :=
  [ (OP_I32_DIV_S, div_s u32 i32 (- 2 ^ 31));
    (OP_I32_DIV_U, divrem_u u32 Z.div);
    (OP_I32_REM_S, rem_s u32 i32 (- 2 ^ 31));
    (OP_I32_REM_U, divrem_u u32 Z.modulo);
    (OP_I64_DIV_S, div_s u64 i64 (- 2 ^ 63));
    (OP_I64_DIV_U, divrem_u u64 Z.div);
    (OP_I64_REM_S, rem_s u64 i64 (- 2 ^ 63));
    (OP_I64_REM_U, divrem_u u64 Z.modulo) ].

Definition unops : list (Z * (Z → Z)) :=
  [ (OP_I64_EQZ, fun a => b2z (a =? 0));
    (OP_I32_EQZ, fun a => b2z (u32 a =? 0));
    (OP_I32_WRAP_I64, u32);
    (OP_I64_EXTEND_I32_S, fun a => u64 (i32 a));
    (OP_I64_EXTEND_I32_U, u32) ].

(** The 64x64 product from 32-bit halves; [(lo, hi)]. *)
Definition mul_wide_u (a b : Z) : Z * Z :=
  let a0 := u32 a in
  let a1 := Z.shiftr a 32 in
  let b0 := u32 b in
  let b1 := Z.shiftr b 32 in
  let p0 := u64 (a0 * b0) in
  let p1 := u64 (a0 * b1) in
  let p2 := u64 (a1 * b0) in
  let p3 := u64 (a1 * b1) in
  let c := u64 (u64 (Z.shiftr p0 32 + u32 p1) + u32 p2) in
  (Z.lor (Z.land p0 4294967295) (u64 (Z.shiftl c 32)),
   u64 (p3 + Z.shiftr p1 32 + Z.shiftr p2 32 + Z.shiftr c 32)).

Definition mul_wide_s (a b : Z) : Z * Z :=
  let '(lo, hi) := mul_wide_u a b in
  let hi := if i64 a <? 0 then u64 (hi - b) else hi in
  let hi := if i64 b <? 0 then u64 (hi - a) else hi in
  (lo, hi).

Definition add128 (lhs_lo lhs_hi rhs_lo rhs_hi : Z) : Z * Z :=
  let lo := u64 (lhs_lo + rhs_lo) in
  let c := if lo <? lhs_lo then 1 else 0 in
  (lo, u64 (lhs_hi + rhs_hi + c)).

Definition sub128 (lhs_lo lhs_hi rhs_lo rhs_hi : Z) : Z * Z :=
  let lo := u64 (lhs_lo - rhs_lo) in
  let brw := if lhs_lo <? rhs_lo then 1 else 0 in
  (lo, u64 (lhs_hi - rhs_hi - brw)).

(** [while ((v & mask) == 0) { n++; mask >>= 1; }] from [mask = 1 << k]; [None]
    once the mask is zero, when the loop does not end. *)
Fixpoint clz_loop (v : Z) (k : nat) (n : Z) : option Z :=
  if Z.land v (Z.shiftl 1 (Z.of_nat k)) =? 0
  then match k with O => None | S k' => clz_loop v k' (n + 1) end
  else Some n.

(** A width above 64 would shift out of range. *)
Definition clz (bits v : Z) : option Z :=
  let v := if bits =? 32 then Z.land v 4294967295 else v in
  if v =? 0 then Some bits
  else if 64 <? bits then None
  else clz_loop v (Z.to_nat (bits - 1)) 0.

Definition exec_alu (op : Z) : option (EM unit) :=
  match op_lookup op unops with
  | Some f => Some (a ← pop; push (f a))
  | None =>
  match op_lookup op binops with
  | Some f => Some (b ← pop; a ← pop; push (f a b))
  | None =>
  match op_lookup op divops with
  | Some f => Some (b ← pop; a ← pop;
                    match f a b with inl v => push v | inr s => trap s end)
  | None => None
  end end end.

Definition push2 (r : Z * Z) : EM unit := push r.1;; push r.2.

Definition exec_wide (in_ : CuOpC) : option (EM unit) :=
  let op := in_.(cu_op) in
  if op =? OP_I64_MUL_WIDE_U then Some (b ← pop; a ← pop; push2 (mul_wide_u a b))
  else if op =? OP_I64_MUL_WIDE_S then Some (b ← pop; a ← pop; push2 (mul_wide_s a b))
  else if op =? OP_I64_ADD128 then
    Some (rh ← pop; rl ← pop; lh ← pop; ll ← pop; push2 (add128 ll lh rl rh))
  else if op =? OP_I64_SUB128 then
    Some (rh ← pop; rl ← pop; lh ← pop; ll ← pop; push2 (sub128 ll lh rl rh))
  else if op =? OP_CLZ then
    Some (v ← pop;
          match clz (if in_.(cu_a) =? 0 then 64 else in_.(cu_a)) v with
          | Some n => push n
          | None => ub "clz"
          end)
  else if op =? OP_DROP then Some (pop;; mret tt)
  else if op =? OP_SELECT then
    Some (c ← pop; b ← pop; a ← pop; push (if u32 c =? 0 then b else a))
  else None.

(** ** Variables *)

Definition exec_var (M : HostModule) (in_ : CuOpC) : option (EM unit) :=
  let op := in_.(cu_op) in
  if op =? OP_I64_CONST then
    Some (p ← get sp; trap_if (STACK_CAP <=? p) ST_TRAP_STACK_OVERFLOW;;
          v ← rd "consts" M.(hm_consts) in_.(cu_b); push v)
  else if op =? OP_LOCAL_GET then
    Some (p ← get sp; trap_if (STACK_CAP <=? p) ST_TRAP_STACK_OVERFLOW;;
          f ← get fp; v ← stack_at (u32 (f + in_.(cu_a))); push v)
  else if op =? OP_LOCAL_SET then
    Some (v ← pop; f ← get fp; stack_set (u32 (f + in_.(cu_a))) v)
  else if op =? OP_GLOBAL_GET then
    Some (g ← get globals; trap_if (len g <=? in_.(cu_b)) ST_UNSUPPORTED_OP;;
          v ← rd "globals" g in_.(cu_b); push v)
  else if op =? OP_GLOBAL_SET then
    Some (g ← get globals; trap_if (len g <=? in_.(cu_b)) ST_UNSUPPORTED_OP;;
          v ← pop; put (upd_globals (<[Z.to_nat in_.(cu_b) := v]> g)))
  else None.

(** ** Control *)

(** Entering function [f]: the arguments become the first locals. *)
Definition enter (f : FuncMetaC) : EM unit :=
  c ← get csp;
  trap_if (FRAME_CAP <=? c) ST_TRAP_CALL_DEPTH;;
  p ← get sp;
  trap_if (p <? f.(fm_n_params)) ST_TRAP_STACK_OVERFLOW;;
  ret ← get pc;
  cur ← get fp;
  frs ← get frames;
  (if in_range frs c
   then put (upd_frames (<[Z.to_nat c :=
               mkFrame ret cur (p - f.(fm_n_params)) f.(fm_n_results)]> frs))
   else ub "frames");;
  put (upd_csp (c + 1));;
  peak ← get peak_csp;
  put (upd_peak (Z.max peak (c + 1)));;
  put (upd_fp (p - f.(fm_n_params)));;
  push_zeros (Z.to_nat f.(fm_n_locals));;
  put (upd_pc f.(fm_code_off)).

Definition exec_call (M : HostModule) (fi : Z) : EM unit :=
  trap_if (len M.(hm_funcs) <=? fi) ST_UNSUPPORTED_OP;;
  f ← rd "funcs" M.(hm_funcs) fi;
  enter f.

Definition exec_return_call (M : HostModule) (fi : Z) : EM unit :=
  trap_if (len M.(hm_funcs) <=? fi) ST_UNSUPPORTED_OP;;
  f ← rd "funcs" M.(hm_funcs) fi;
  p ← get sp;
  trap_if (p <? f.(fm_n_params)) ST_TRAP_STACK_OVERFLOW;;
  cur ← get fp;
  stack_move cur (p - f.(fm_n_params)) f.(fm_n_params);;
  put (upd_sp (u32 (cur + f.(fm_n_params))));;
  push_zeros (Z.to_nat f.(fm_n_locals));;
  c ← get csp;
  (if 0 <? c then
     frs ← get frames;
     fr ← rd "frames" frs (c - 1);
     put (upd_frames (<[Z.to_nat (c - 1) :=
            mkFrame fr.(ret_pc) fr.(fr_fp) fr.(sp_base) f.(fm_n_results)]> frs))
   else mret tt);;
  put (upd_pc f.(fm_code_off)).

Definition exec_return : EM unit :=
  c ← get csp;
  trap_if (c =? 0) ST_TRAP_UNREACHABLE;;
  put (upd_csp (c - 1));;
  frs ← get frames;
  fr ← rd "frames" frs (c - 1);
  p ← get sp;
  trap_if (p <? fr.(fr_n_results)) ST_TRAP_STACK_OVERFLOW;;
  stack_move fr.(sp_base) (p - fr.(fr_n_results)) fr.(fr_n_results);;
  put (upd_sp (u32 (fr.(sp_base) + fr.(fr_n_results))));;
  put (upd_fp fr.(fr_fp));;
  if c - 1 =? 0 then trap ST_OK else put (upd_pc fr.(ret_pc)).

Definition exec_call_indirect (M : HostModule) (ty : Z) : EM unit :=
  i ← pop;
  let idx := u32 i in
  trap_if (len M.(hm_table) <=? idx) ST_TRAP_INDIRECT_CALL;;
  fi ← rd "table" M.(hm_table) idx;
  trap_if ((fi =? TABLE_NULL) || (len M.(hm_funcs) <=? fi)) ST_TRAP_INDIRECT_CALL;;
  (if negb (len M.(hm_func_typeidx) =? 0) && negb (len M.(hm_type_fp) =? 0)
      && (ty <? len M.(hm_type_fp)) then
     have ← rd "func_typeidx" M.(hm_func_typeidx) fi;
     trap_if (len M.(hm_type_fp) <=? have) ST_TRAP_INDIRECT_CALL;;
     x ← rd "type_fp" M.(hm_type_fp) have;
     y ← rd "type_fp" M.(hm_type_fp) ty;
     trap_if (negb (x =? y)) ST_TRAP_INDIRECT_CALL
   else trap ST_TRAP_INDIRECT_CALL);;
  f ← rd "funcs" M.(hm_funcs) fi;
  enter f.

(** The arguments are copied to the mailbox and the run is suspended. *)
Fixpoint host_args (base : Z) (n : nat) : EM (list Z) :=
  match n with
  | O => mret []
  | S n' => v ← stack_at base; vs ← host_args (base + 1) n'; mret (v :: vs)
  end.

Definition exec_call_host (a b : Z) : EM unit :=
  let np := Z.land a 255 in
  let nr := Z.land (Z.shiftr a 8) 255 in
  trap_if (16 <? np) ST_UNSUPPORTED_OP;;
  p ← get sp;
  trap_if (p <? np) ST_TRAP_STACK_OVERFLOW;;
  args ← host_args (p - np) (Z.to_nat np);
  box ← get mb;
  put (upd_mb (mkMailbox b np nr (args ++ drop (length args) box.(mb_args)) box.(mb_results)));;
  put (upd_sp (p - np));;
  trap ST_HOSTCALL_PENDING.

Definition exec_unwind (a b : Z) : EM unit :=
  f ← get fp;
  p ← get sp;
  let dest := u32 (f + b) in
  trap_if (p <? a) ST_TRAP_STACK_OVERFLOW;;
  trap_if ((dest <? a) || (STACK_CAP <? dest)) ST_TRAP_STACK_OVERFLOW;;
  (if dest - a =? p - a then mret tt else stack_move (dest - a) (p - a) a);;
  put (upd_sp dest).

Definition exec_br (b : Z) : EM unit :=
  p ← get pc;
  (if b <=? p then
     f ← get fuel;
     put (upd_fuel (f - FUEL_BACKEDGE));;
     trap_if (f - FUEL_BACKEDGE <=? 0) ST_OUT_OF_FUEL
   else mret tt);;
  put (upd_pc b).

Definition exec_control (M : HostModule) (in_ : CuOpC) : option (EM unit) :=
  let op := in_.(cu_op) in
  if op =? OP_UNWIND then Some (exec_unwind in_.(cu_a) in_.(cu_b))
  else if op =? OP_BR then Some (exec_br in_.(cu_b))
  else if op =? OP_BR_IF_NOT then
    Some (v ← pop; if u32 v =? 0 then put (upd_pc in_.(cu_b)) else mret tt)
  else if op =? OP_CALL then Some (exec_call M in_.(cu_b))
  else if op =? OP_RETURN_CALL then Some (exec_return_call M in_.(cu_b))
  else if (op =? OP_RETURN) || (op =? OP_END_FUNC) then Some exec_return
  else if op =? OP_UNREACHABLE then Some (trap ST_TRAP_UNREACHABLE)
  else if op =? OP_CALL_HOST then Some (exec_call_host in_.(cu_a) in_.(cu_b))
  else if op =? OP_CALL_INDIRECT then Some (exec_call_indirect M in_.(cu_b))
  else None.

(** ** Memory *)

Definition mem_in_bounds (size ea n : Z) : bool :=
  if size <? n then false else ea <=? size - n.

Fixpoint mem_load_le (ea i : Z) (n : nat) : EM Z :=
  match n with
  | O => mret 0
  | S n' =>
      x ← mem_at (ea + i);
      v ← mem_load_le ea (i + 1) n';
      mret (Z.lor (Z.shiftl x (8 * i)) v)
  end.

Fixpoint mem_store_le (ea i : Z) (n : nat) (v : Z) : EM unit :=
  match n with
  | O => mret tt
  | S n' => mem_set (ea + i) (u8 (Z.shiftr v (8 * i)));; mem_store_le ea (i + 1) n' v
  end.

Definition sext64 (v bits : Z) : Z :=
  let sh := 64 - bits in u64 (Z.shiftr (i64 (u64 (Z.shiftl v sh))) sh).

(** The value [OP_LOAD] pushes for the bytes it read. *)
Definition extend_load (a v : Z) : Z :=
  let nbytes := Z.land a 15 in
  let sgn := negb (Z.land a 16 =? 0) in
  let i64dest := negb (Z.land a 32 =? 0) in
  if sgn then if i64dest then sext64 v (nbytes * 8) else u32 (sext64 v (nbytes * 8))
  else if negb i64dest && (nbytes <? 8) then u32 v else v.

Definition exec_load (a b : Z) : EM unit :=
  x ← pop;
  size ← get msize;
  let nbytes := Z.land a 15 in
  let ea := u32 x + b in
  trap_if ((nbytes =? 0) || (8 <? nbytes) || negb (mem_in_bounds size ea nbytes)) ST_TRAP_MEM_OOB;;
  v ← mem_load_le ea 0 (Z.to_nat nbytes);
  push (extend_load a v).

Definition exec_store (a b : Z) : EM unit :=
  v ← pop;
  x ← pop;
  size ← get msize;
  let ea := u32 x + b in
  trap_if ((a =? 0) || (8 <? a) || negb (mem_in_bounds size ea a)) ST_TRAP_MEM_OOB;;
  mem_store_le ea 0 (Z.to_nat a) v.

(** The view's [max_size] is the length of the memory image. *)
Definition exec_grow (M : HostModule) : EM unit :=
  d ← pop;
  size ← get msize;
  let old := size `div` WASM_PAGE in
  let np := old + u32 d in
  let maxp := len M.(hm_memory) `div` WASM_PAGE in
  if (maxp <? np) || (65536 <? np) then push (2 ^ 32 - 1)
  else put (upd_msize (u32 (np * WASM_PAGE)));; push old.

Definition exec_copy : EM unit :=
  x ← pop; y ← pop; z ← pop;
  let n := u32 x in
  let src := u32 y in
  let dst := u32 z in
  size ← get msize;
  trap_if ((size <? src + n) || (size <? dst + n)) ST_TRAP_MEM_OOB;;
  mem_move dst src n.

Fixpoint fill_loop (dst i : Z) (n : nat) (v : Z) : EM unit :=
  match n with
  | O => mret tt
  | S n' => mem_set (dst + i) v;; fill_loop dst (i + 1) n' v
  end.

Definition exec_fill : EM unit :=
  x ← pop; y ← pop; z ← pop;
  let n := u32 x in
  let dst := u32 z in
  size ← get msize;
  trap_if (size <? dst + n) ST_TRAP_MEM_OOB;;
  fill_loop dst 0 (Z.to_nat n) (u8 y).

Definition blob_at (M : HostModule) (i : Z) : EM Z := rd "data.blob" M.(hm_data_blob) i.

Definition exec_init (M : HostModule) (di : Z) : EM unit :=
  x ← pop; y ← pop; z ← pop;
  let n := u32 x in
  let src := u32 y in
  let dst := u32 z in
  lv ← get live;
  trap_if (len lv <=? di) ST_TRAP_MEM_OOB;;
  l ← rd "data.live" lv di;
  dlen ← (if l =? 0 then mret 0 else rd "data.len" M.(hm_data_len) di);
  doff ← (if l =? 0 then mret 0 else rd "data.off" M.(hm_data_off) di);
  size ← get msize;
  trap_if ((dlen <? src + n) || (size <? dst + n)) ST_TRAP_MEM_OOB;;
  if (len M.(hm_data_blob) =? 0) then mret tt
  else copy_up (fun i => blob_at M (u32 i)) mem_set dst (doff + src) 0 (Z.to_nat n).

Definition exec_drop_data (di : Z) : EM unit :=
  lv ← get live;
  trap_if (len lv <=? di) ST_TRAP_MEM_OOB;;
  put (upd_live (<[Z.to_nat di := 0]> lv)).

Definition exec_memory (M : HostModule) (in_ : CuOpC) : option (EM unit) :=
  let op := in_.(cu_op) in
  if op =? OP_LOAD then Some (exec_load in_.(cu_a) in_.(cu_b))
  else if op =? OP_STORE then Some (exec_store in_.(cu_a) in_.(cu_b))
  else if op =? OP_MEMORY_SIZE then Some (size ← get msize; push (size `div` WASM_PAGE))
  else if op =? OP_MEMORY_GROW then Some (exec_grow M)
  else if op =? OP_MEMORY_COPY then Some exec_copy
  else if op =? OP_MEMORY_FILL then Some exec_fill
  else if op =? OP_MEMORY_INIT then Some (exec_init M in_.(cu_a))
  else if op =? OP_DATA_DROP then Some (exec_drop_data in_.(cu_a))
  else None.

(** ** The loop *)

Definition exec (M : HostModule) (in_ : CuOpC) : EM unit :=
  match exec_alu in_.(cu_op) with Some c => c | None =>
  match exec_wide in_ with Some c => c | None =>
  match exec_var M in_ with Some c => c | None =>
  match exec_control M in_ with Some c => c | None =>
  match exec_memory M in_ with Some c => c | None => trap ST_UNSUPPORTED_OP
  end end end end end.

(** One iteration of the interpreter's loop. *)
Definition step (M : HostModule) : EM unit :=
  p ← get pc;
  trap_if (len M.(hm_code) <=? p) ST_TRAP_UNREACHABLE;;
  in_ ← rd "code" M.(hm_code) p;
  put (upd_pc (u32 (p + 1)));;
  exec M in_;;
  s ← get sp;
  trap_if (STACK_CAP <? s) ST_TRAP_STACK_OVERFLOW.

(** How a call of the interpreter ends: the step budget is used up (status
    [ST_RUNNING]), a status was set by [TRAP], or the behaviour is undefined. *)
Inductive run_end :=
  | OutOfSteps
  | Stopped (s : Status)
  | Undefined (why : string).

Fixpoint run_instance (M : HostModule) (max_steps : nat) (m : Machine) : run_end * Machine :=
  match max_steps with
  | O => (OutOfSteps, m)
  | S n =>
      match step M m with
      | (Val _, m') => run_instance M n m'
      | (Trap s, m') => (Stopped s, m')
      | (UB w, m') => (Undefined w, m')
      end
  end.

(** ** The CPU driver (run.cpp) *)

(** [stack[st.sp++] = v] on the driver's vectors: the index is not checked. *)
Definition store_next (v : Z) : EM unit :=
  p ← get sp; stack_set p (u64 v);; put (upd_sp (u32 (p + 1))).

Fixpoint store_all (vs : list Z) : EM unit :=
  match vs with [] => mret tt | v :: vs' => store_next v;; store_all vs' end.

(** The initial state: the arguments and zeroed locals on the stack, one frame. *)
Definition blank (M : HostModule) (f : FuncMetaC) : Machine :=
  mkMachine f.(fm_code_off) 0 0 1 1000000000000 1 (replicate (Z.to_nat STACK_CAP) 0)
    (<[0%nat := mkFrame 0 0 0 f.(fm_n_results)]>
       (replicate (Z.to_nat FRAME_CAP) (mkFrame 0 0 0 0)))
    M.(hm_globals) M.(hm_memory) M.(hm_mem_size) M.(hm_data_live)
    (mkMailbox 0 0 0 (replicate 16 0) [0]).

Definition boot (M : HostModule) (f : FuncMetaC) (args : list Z) : res unit * Machine :=
  store_all (args ++ replicate (Z.to_nat f.(fm_n_locals)) 0) (blank M f).

(** Pushing the host's results: the mailbox holds one. *)
Fixpoint push_results (i : Z) (n : nat) : EM unit :=
  match n with
  | O => mret tt
  | S n' =>
      p ← get sp;
      trap_if (STACK_CAP <=? p) ST_TRAP_STACK_OVERFLOW;;
      box ← get mb;
      v ← rd "mb.results" box.(mb_results) i;
      store_next v;;
      push_results (i + 1) n'
  end.

Inductive RunResult :=
  | Finished (status : Status) (results : list Z)
  | Corrupted (why : string)
  | NotYet.

#[export] Instance RunResult_eq_dec : EqDecision RunResult.
Proof. solve_decision. Defined.

(** The driver works on the module's own globals, memory and segment flags; the
    memory size is kept in the state and written back when the loop is left by
    [break]. *)
Definition shared (M : HostModule) (m : Machine) (size : Z) : HostModule :=
  mkHostModule M.(hm_code) M.(hm_consts) M.(hm_funcs) M.(hm_exports) m.(globals) m.(memory)
    size M.(hm_mem_max) M.(hm_data_blob) M.(hm_data_off) M.(hm_data_len) m.(live) M.(hm_table)
    M.(hm_func_typeidx) M.(hm_type_fp) M.(hm_n_host_imports) M.(hm_host_fn_id)
    M.(hm_host_import_mod) M.(hm_host_import_name) M.(hm_host_import_env).

(** A host function reads the mailbox and the memory and may change both, and the
    world [W] it lives in; the first component tells whether it succeeded. *)
Abbreviation HostFn W := (HostMailbox → list Z → W → bool * HostMailbox * list Z * W).

(** The driver's [for (;;)], bounded by [rounds].  The interpreter is given the
    memory view by value on every round, with the module's initial size. *)
Fixpoint drive {W} (M : HostModule) (host : HostFn W) (max_steps : nat) (nres : Z) (rounds : nat)
    (w : W) (m : Machine) : RunResult * HostModule * W :=
  match rounds with
  | O => (NotYet, shared M m M.(hm_mem_size), w)
  | S r =>
      match run_instance M max_steps (upd_msize M.(hm_mem_size) m) with
      | (Undefined e, m1) => (Corrupted e, shared M m1 M.(hm_mem_size), w)
      | (OutOfSteps, m1) => drive M host max_steps nres r w m1
      | (Stopped ST_HOSTCALL_PENDING, m1) =>
          let '(ok, box, mem, w1) := host m1.(mb) m1.(memory) w in
          let m1 := upd_memory mem (upd_mb box m1) in
          if negb ok then (Finished ST_UNSUPPORTED_OP [], shared M m1 M.(hm_mem_size), w1)
          else
            match push_results 0 (Z.to_nat box.(mb_n_results)) m1 with
            | (Val _, m2) => drive M host max_steps nres r w1 m2
            | (Trap s, m2) => (Finished s [], shared M m2 M.(hm_mem_size), w1)
            | (UB e, m2) => (Corrupted e, shared M m2 M.(hm_mem_size), w1)
            end
      | (Stopped ST_OK, m1) =>
          (Finished ST_OK (take (Z.to_nat nres) m1.(stack)), shared M m1 m1.(msize), w)
      | (Stopped s, m1) => (Finished s [], shared M m1 m1.(msize), w)
      end
  end.

(** The result, and the module and the world after the run. *)
Definition run_cpu {W} (M : HostModule) (func_idx : Z) (args : list Z) (max_steps : nat)
    (host : HostFn W) (rounds : nat) (w : W) : RunResult * HostModule * W :=
  match index M.(hm_funcs) func_idx with
  | None => (Finished ST_UNSUPPORTED_OP [], M, w)
  | Some f =>
      if negb (len args =? f.(fm_n_params)) then (Finished ST_UNSUPPORTED_OP [], M, w)
      else
        match boot M f args with
        | (Val _, m) => drive M host max_steps f.(fm_n_results) rounds w m
        | (Trap s, m) => (Finished s [], shared M m M.(hm_mem_size), w)
        | (UB e, m) => (Corrupted e, shared M m M.(hm_mem_size), w)
        end
  end.

(** A sequence of calls on one module, as a client of [cuwasm_module_run] makes. *)
Fixpoint run_calls {W} (M : HostModule) (calls : list (Z * list Z)) (max_steps : nat)
    (host : HostFn W) (rounds : nat) (w : W) : list RunResult * HostModule * W :=
  match calls with
  | [] => ([], M, w)
  | (fi, args) :: rest =>
      let '(r, M1, w1) := run_cpu M fi args max_steps host rounds w in
      let '(rs, M2, w2) := run_calls M1 rest max_steps host rounds w1 in
      (r :: rs, M2, w2)
  end.

(** A host that refuses every call. *)
Definition no_host : HostFn unit := fun box mem w => (false, box, mem, w).
