(* ===== verification/EngineFrame.v ===== *)
(** * What the interpreter leaves alone

    Every op keeps the lengths of the linear memory, the globals and the segment
    flags, and every op but [memory.grow] keeps the memory size.  The class [Quiet]
    follows the shape of a computation, so that the instances find the proof. *)

From S2P Require Import Prelude Cuop Wasm Lower EnvTable Module ModuleSteps Engine.
From stdpp Require Import base list strings.

Local Open Scope Z_scope.

(** ** The frame *)

Definition same_lengths (m m' : Machine) : Prop :=
  len m'.(memory) = len m.(memory) ∧ len m'.(globals) = len m.(globals) ∧
  len m'.(live) = len m.(live).

#[export] Instance same_lengths_preorder : PreOrder same_lengths.
Proof.
  split; [by intros m|].
  intros m1 m2 m3 (A1 & A2 & A3) (B1 & B2 & B3). split_and!; congruence.
Qed.

Class Quiet {A} (c : EM A) : Prop :=
  quiet m : same_lengths m (c m).2 ∧ (c m).2.(msize) = m.(msize).

Class QuietUpd (f : Machine → Machine) : Prop :=
  quiet_upd m : same_lengths m (f m) ∧ (f m).(msize) = m.(msize).

#[export] Instance qu_pc x : QuietUpd (upd_pc x). Proof. done. Qed.
#[export] Instance qu_sp x : QuietUpd (upd_sp x). Proof. done. Qed.
#[export] Instance qu_fp x : QuietUpd (upd_fp x). Proof. done. Qed.
#[export] Instance qu_csp x : QuietUpd (upd_csp x). Proof. done. Qed.
#[export] Instance qu_fuel x : QuietUpd (upd_fuel x). Proof. done. Qed.
#[export] Instance qu_peak x : QuietUpd (upd_peak x). Proof. done. Qed.
#[export] Instance qu_stack x : QuietUpd (upd_stack x). Proof. done. Qed.
#[export] Instance qu_frames x : QuietUpd (upd_frames x). Proof. done. Qed.
#[export] Instance qu_mb x : QuietUpd (upd_mb x). Proof. done. Qed.

#[export] Instance q_ret {A} (a : A) : Quiet (mret (M := EM) a). Proof. done. Qed.
#[export] Instance q_trap {A} s : Quiet (trap (A := A) s). Proof. done. Qed.
#[export] Instance q_ub {A} w : Quiet (ub (A := A) w). Proof. done. Qed.
#[export] Instance q_get {A} (f : Machine → A) : Quiet (get f). Proof. done. Qed.
#[export] Instance q_put f : QuietUpd f → Quiet (put f). Proof. intros H m. apply H. Qed.

#[export] Instance q_bind {A B} (c : EM A) (k : A → EM B) :
  Quiet c → (∀ a, Quiet (k a)) → Quiet (c ≫= k).
Proof.
  intros Hc Hk m. unfold mbind, EM_bind. specialize (Hc m).
  destruct (c m) as [[a|s|w] m1]; [|done..]. destruct Hc as [H1 H2], (Hk a m1) as [H3 H4].
  split; [by etrans|]. simpl in *. congruence.
Qed.

#[export] Instance q_if {A} (b : bool) (c d : EM A) : Quiet c → Quiet d → Quiet (if b then c else d).
Proof. by destruct b. Qed.
#[export] Instance q_option {A B} (o : option A) (k : A → EM B) (d : EM B) :
  (∀ a, Quiet (k a)) → Quiet d → Quiet (match o with Some a => k a | None => d end).
Proof. by destruct o. Qed.
#[export] Instance q_trap_if b s : Quiet (trap_if b s). Proof. by destruct b. Qed.
#[export] Instance q_rd {A} w (l : list A) i : Quiet (rd w l i).
Proof. unfold rd. by destruct (index l i). Qed.

#[export] Instance q_mem_set i v : Quiet (mem_set i v).
Proof.
  intros m. unfold mem_set, mbind, EM_bind, get. destruct (in_range _ i); [|done].
  simpl. split; [|done]. split_and!; simpl; [|done..]. unfold len. by rewrite length_insert.
Qed.

(** ** The ops *)

#[export] Instance q_stack_at i : Quiet (stack_at i). Proof. unfold stack_at. apply _. Qed.
#[export] Instance q_stack_set i v : Quiet (stack_set i v). Proof. unfold stack_set. apply _. Qed.
#[export] Instance q_mem_at i : Quiet (mem_at i). Proof. unfold mem_at. apply _. Qed.
#[export] Instance q_push v : Quiet (push v). Proof. unfold push. apply _. Qed.
#[export] Instance q_pop : Quiet pop. Proof. unfold pop. apply _. Qed.
#[export] Instance q_push_zeros n : Quiet (push_zeros n).
Proof. induction n; simpl; apply _. Qed.

#[export] Instance q_copy_up g st dst src i n :
  (∀ i, Quiet (g i)) → (∀ i v, Quiet (st i v)) → Quiet (copy_up g st dst src i n).
Proof. intros ? ?. revert i. induction n; intros i; simpl; apply _. Qed.
#[export] Instance q_copy_down g st dst src n :
  (∀ i, Quiet (g i)) → (∀ i v, Quiet (st i v)) → Quiet (copy_down g st dst src n).
Proof. intros ? ?. induction n; simpl; apply _. Qed.
#[export] Instance q_stack_move d s n : Quiet (stack_move d s n).
Proof. unfold stack_move, move_within. apply _. Qed.
#[export] Instance q_mem_move d s n : Quiet (mem_move d s n).
Proof. unfold mem_move, move_within. apply _. Qed.

#[export] Instance q_push2 r : Quiet (push2 r). Proof. unfold push2. apply _. Qed.
#[export] Instance q_enter f : Quiet (enter f). Proof. unfold enter. apply _. Qed.
#[export] Instance q_exec_call M fi : Quiet (exec_call M fi). Proof. unfold exec_call. apply _. Qed.
#[export] Instance q_exec_return_call M fi : Quiet (exec_return_call M fi).
Proof. unfold exec_return_call. apply _. Qed.
#[export] Instance q_exec_return : Quiet exec_return. Proof. unfold exec_return. apply _. Qed.
#[export] Instance q_exec_call_indirect M ty : Quiet (exec_call_indirect M ty).
Proof. unfold exec_call_indirect. apply _. Qed.
#[export] Instance q_host_args b n : Quiet (host_args b n).
Proof. revert b. induction n; intros b; simpl; apply _. Qed.
#[export] Instance q_exec_call_host a b : Quiet (exec_call_host a b).
Proof. unfold exec_call_host. apply _. Qed.
#[export] Instance q_exec_unwind a b : Quiet (exec_unwind a b).
Proof. unfold exec_unwind. apply _. Qed.
#[export] Instance q_exec_br b : Quiet (exec_br b). Proof. unfold exec_br. apply _. Qed.

#[export] Instance q_mem_load_le ea i n : Quiet (mem_load_le ea i n).
Proof. revert i. induction n; intros i; simpl; apply _. Qed.
#[export] Instance q_mem_store_le ea i n v : Quiet (mem_store_le ea i n v).
Proof. revert i. induction n; intros i; simpl; apply _. Qed.
#[export] Instance q_fill_loop d i n v : Quiet (fill_loop d i n v).
Proof. revert i. induction n; intros i; simpl; apply _. Qed.
#[export] Instance q_exec_load a b : Quiet (exec_load a b). Proof. unfold exec_load. apply _. Qed.
#[export] Instance q_exec_store a b : Quiet (exec_store a b). Proof. unfold exec_store. apply _. Qed.
#[export] Instance q_exec_copy : Quiet exec_copy. Proof. unfold exec_copy. apply _. Qed.
#[export] Instance q_exec_fill : Quiet exec_fill. Proof. unfold exec_fill. apply _. Qed.
#[export] Instance q_exec_init M di : Quiet (exec_init M di).
Proof. unfold exec_init, blob_at. apply _. Qed.

#[export] Instance q_exec_drop_data di : Quiet (exec_drop_data di).
Proof.
  intros m. unfold exec_drop_data, trap_if, mbind, EM_bind, get. destruct (_ <=? _); [done|].
  simpl. split; [|done]. split_and!; simpl; [done..|]. unfold len. by rewrite length_insert.
Qed.

(** [global.set] writes back the globals it read; [pop] does not change them. *)
Lemma pop_globals m : (pop m).2.(globals) = m.(globals).
Proof. unfold pop, stack_at, rd, mbind, EM_bind, get, put. simpl. by destruct (index _ _). Qed.

#[export] Instance q_global_set i (b : list Z → bool) :
  Quiet (g ← get globals; trap_if (b g) ST_UNSUPPORTED_OP;; v ← pop; put (upd_globals (<[i := v]> g))).
Proof.
  intros m. unfold mbind, EM_bind, get, trap_if. destruct (b _); [done|]. simpl.
  pose proof (quiet (c := pop) m) as [Hs Hm]. pose proof (pop_globals m) as Hg.
  destruct (pop m) as [[v|s|w] m1]; [|done..]. simpl in *. split; [|done].
  destruct Hs as (? & ? & ?). split_and!; simpl; [done| |done]. unfold len. by rewrite length_insert.
Qed.

(** An optional arm of the switch. *)
Definition arm_quiet (o : option (EM unit)) : Prop := ∀ c, o = Some c → Quiet c.

Ltac arms :=
  let c := fresh in let H := fresh in intros c H; cbv zeta in H;
  repeat match type of H with context [if ?b then _ else _] => destruct b end;
  simplify_eq; apply _.

Lemma exec_alu_quiet op : arm_quiet (exec_alu op).
Proof.
  intros c. unfold exec_alu. destruct (op_lookup op unops); [intros [= <-]; apply _|].
  destruct (op_lookup op binops); [intros [= <-]; apply _|].
  destruct (op_lookup op divops); [|done]. intros [= <-].
  do 2 (apply q_bind; [apply _|intros ?]). by destruct (s _ _); apply _.
Qed.

Lemma exec_wide_quiet in_ : arm_quiet (exec_wide in_).
Proof. unfold exec_wide. arms. Qed.

Lemma exec_var_quiet M in_ : arm_quiet (exec_var M in_).
Proof. unfold exec_var. arms. Qed.

Lemma exec_control_quiet M in_ : arm_quiet (exec_control M in_).
Proof. unfold exec_control. arms. Qed.

Lemma exec_memory_quiet M in_ : in_.(cu_op) ≠ OP_MEMORY_GROW → arm_quiet (exec_memory M in_).
Proof.
  intros Hop. unfold exec_memory. rewrite (proj2 (Z.eqb_neq _ OP_MEMORY_GROW) Hop). arms.
Qed.

Lemma exec_quiet M in_ : in_.(cu_op) ≠ OP_MEMORY_GROW → Quiet (exec M in_).
Proof.
  intros Hop. unfold exec.
  destruct (exec_alu _) eqn:E1; [by eapply exec_alu_quiet|].
  destruct (exec_wide _) eqn:E2; [by eapply exec_wide_quiet|].
  destruct (exec_var _ _) eqn:E3; [by eapply exec_var_quiet|].
  destruct (exec_control _ _) eqn:E4; [by eapply exec_control_quiet|].
  destruct (exec_memory _ _) eqn:E5; [by eapply exec_memory_quiet|apply _].
Qed.

(** ** [memory.grow] *)

Definition size_ok (m : Machine) : Prop := 0 ≤ m.(msize) ≤ len m.(memory).

(** The memory image of the module is the machine's. *)
Definition fits (M : HostModule) (m : Machine) : Prop :=
  len m.(memory) = len M.(hm_memory) ∧ len m.(globals) = len M.(hm_globals) ∧
  len m.(live) = len M.(hm_data_live) ∧ size_ok m.

Lemma fits_quiet {A} (c : EM A) M m : Quiet c → fits M m → fits M (c m).2.
Proof.
  intros Hq (H1 & H2 & H3 & H4). destruct (Hq m) as [(Q1 & Q2 & Q3) Q4].
  unfold fits, size_ok in *. split_and!; rewrite ?Q1, ?Q2, ?Q3, ?Q4; try done; lia.
Qed.

Lemma fits_bind {A B} (c : EM A) (k : A → EM B) M m :
  fits M (c m).2 → (∀ a m', c m = (Val a, m') → fits M m' → fits M (k a m').2) →
  fits M ((c ≫= k) m).2.
Proof.
  intros Hc Hk. unfold mbind, EM_bind. destruct (c m) as [[a|s|w] m1] eqn:Hm; [|done..].
  by apply Hk.
Qed.

Lemma grow_size_fits M m np :
  fits M m → 0 ≤ np → np ≤ len M.(hm_memory) `div` WASM_PAGE →
  fits M (upd_msize (u32 (np * WASM_PAGE)) m).
Proof.
  intros (G1 & G2 & G3 & G4 & G5) H0 H1. unfold fits, size_ok. simpl. split_and!; try done.
  - apply u32_range.
  - unfold u32, WASM_PAGE in *. etrans; [apply Z.mod_le; lia|].
    Z.to_euclidean_division_equations. lia.
Qed.

Lemma exec_grow_fits M m : fits M m → fits M (exec_grow M m).2.
Proof.
  intros HF. unfold exec_grow. apply fits_bind; [by apply fits_quiet; [apply _|]|].
  intros d m1 _ HF1. apply fits_bind; [done|]. intros size m2 [= <- <-] HF2.
  destruct (_ || _) eqn:Hb; [by apply fits_quiet; [apply _|]|].
  apply orb_false_iff in Hb as [H1 H2]. apply fits_bind; [|intros; by apply fits_quiet; [apply _|]].
  pose proof (u32_range d). destruct HF1 as (_ & _ & _ & ? & _).
  apply grow_size_fits; [done| |lia]. unfold WASM_PAGE in *. Z.to_euclidean_division_equations. lia.
Qed.

Lemma exec_fits M in_ m : fits M m → fits M (exec M in_ m).2.
Proof.
  intros HF. destruct (decide (in_.(cu_op) = OP_MEMORY_GROW)) as [Hg|Hg].
  - replace (exec M in_) with (exec_grow M); [by apply exec_grow_fits|].
    unfold exec, exec_alu, exec_wide, exec_var, exec_control, exec_memory. by rewrite Hg.
  - apply fits_quiet; [by apply exec_quiet|done].
Qed.

(** ** Steps and slices *)

Lemma step_fits M m : fits M m → fits M (step M m).2.
Proof.
  intros HF. unfold step. do 4 (apply fits_bind; [by apply fits_quiet; [apply _|]|]; intros).
  apply fits_bind; [by apply exec_fits|]. intros. by apply fits_quiet; [apply _|].
Qed.

Lemma run_instance_fits M n m : fits M m → fits M (run_instance M n m).2.
Proof.
  revert m. induction n as [|n IH]; intros m HF; simpl; [done|].
  pose proof (step_fits M m HF). destruct (step M m) as [[[]|s|w] m1]; [by apply IH|done..].
Qed.
