(* ===== verification/EngineSlice.v ===== *)
(** * Time slices

    The driver runs the interpreter in slices of [max_steps] ops and resumes it
    until it stops.  For a module that does not grow its memory the length of the
    slices cannot be observed: every slice length gives the result of the
    step-by-step semantics [runs], and gives it after finitely many rounds. *)

From S2P Require Import Prelude Cuop Wasm Lower EnvTable Module ModuleSteps Engine.
From S2P Require Import EngineFrame.
From stdpp Require Import base list strings.

Local Open Scope Z_scope.

(** ** The semantics without slices *)

Section slices.
Context {W : Type} (M : HostModule) (host : HostFn W) (nres : Z).
Abbreviation Done := (RunResult * HostModule * W)%type.

(** What the driver does with a status: resume with the host's results, or stop. *)
Definition stopped (s : Status) (w : W) (m : Machine) : W * Machine + Done :=
  match s with
  | ST_HOSTCALL_PENDING =>
      let '(ok, box, mem, w1) := host m.(mb) m.(memory) w in
      let m1 := upd_memory mem (upd_mb box m) in
      if negb ok then inr (Finished ST_UNSUPPORTED_OP [], shared M m1 M.(hm_mem_size), w1)
      else
        match push_results 0 (Z.to_nat box.(mb_n_results)) m1 with
        | (Val _, m2) => inl (w1, m2)
        | (Trap s, m2) => inr (Finished s [], shared M m2 M.(hm_mem_size), w1)
        | (UB e, m2) => inr (Corrupted e, shared M m2 M.(hm_mem_size), w1)
        end
  | ST_OK => inr (Finished ST_OK (take (Z.to_nat nres) m.(stack)), shared M m m.(msize), w)
  | _ => inr (Finished s [], shared M m m.(msize), w)
  end.

(** One op, with the host call it may make. *)
Definition turn (w : W) (m : Machine) : W * Machine + Done :=
  match step M m with
  | (Val _, m') => inl (w, m')
  | (Trap s, m') => stopped s w m'
  | (UB e, m') => inr (Corrupted e, shared M m' M.(hm_mem_size), w)
  end.

Inductive runs : W → Machine → Done → Prop :=
  | runs_end w m x : turn w m = inr x → runs w m x
  | runs_turn w m w' m' x : turn w m = inl (w', m') → runs w' m' x → runs w m x.

Lemma drive_S n r w m :
  drive M host n nres (S r) w m =
  match run_instance M n (upd_msize M.(hm_mem_size) m) with
  | (Undefined e, m1) => (Corrupted e, shared M m1 M.(hm_mem_size), w)
  | (OutOfSteps, m1) => drive M host n nres r w m1
  | (Stopped s, m1) =>
      match stopped s w m1 with inl (w2, m2) => drive M host n nres r w2 m2 | inr x => x end
  end.
Proof.
  simpl. destruct (run_instance _ _ _) as [[|s|e] m1]; [done| |done]. destruct s; try done.
  simpl. destruct (host _ _ _) as [[[[] box] mem] w1]; [|done].
  by destruct (push_results _ _ _) as [[]].
Qed.

(** ** Modules that keep their memory size *)

Definition no_grow : bool := forallb (fun in_ => negb (in_.(cu_op) =? OP_MEMORY_GROW)) M.(hm_code).

Definition at_size (m : Machine) : Prop := m.(msize) = M.(hm_mem_size).

Lemma upd_msize_id m : at_size m → upd_msize M.(hm_mem_size) m = m.
Proof. unfold at_size. intros <-. by destruct m. Qed.

#[export] Instance q_push_results i n : Quiet (push_results i n).
Proof. unfold store_next. revert i. induction n; intros i; simpl; unfold store_next; apply _. Qed.

Context (HG : no_grow = true).

Lemma step_quiet : Quiet (step M).
Proof.
  unfold step. do 2 (apply q_bind; [apply _|intros ?]).
  intros m. unfold mbind at 1, EM_bind at 1, rd.
  destruct (index _ _) as [in_|] eqn:Hi; [|done]. simpl.
  assert (Quiet (exec M in_)); [|match goal with |- context [?c m] => apply (quiet (c := c) m) end].
  apply exec_quiet. unfold no_grow in HG. rewrite forallb_forall in HG.
  unfold index in Hi. destruct (0 <=? _); [|done].
  apply list_elem_of_lookup_2, list_elem_of_In, HG in Hi. lia.
Qed.

Lemma turn_at_size w m w' m' : at_size m → turn w m = inl (w', m') → at_size m'.
Proof.
  unfold at_size, turn. intros Hm Ht. destruct (step_quiet m) as [_ Hs].
  destruct (step M m) as [[u|s|e] m1]; simplify_eq/=; [congruence|].
  destruct s; simplify_eq/=. destruct (host _ _ _) as [[[[] box] mem] w1]; [|done]. simpl in Ht.
  destruct (q_push_results 0 (Z.to_nat (mb_n_results box)) (upd_memory mem (upd_mb box m1))) as [_ Hp].
  destruct (push_results _ _ _) as [[]]; simplify_eq/=. congruence.
Qed.

(** A slice of [k] ops, then slices of [n]. *)
Definition slice (n k r : nat) (w : W) (m : Machine) : Done :=
  match run_instance M k m with
  | (Undefined e, m1) => (Corrupted e, shared M m1 M.(hm_mem_size), w)
  | (OutOfSteps, m1) => drive M host n nres r w m1
  | (Stopped s, m1) =>
      match stopped s w m1 with inl (w2, m2) => drive M host n nres r w2 m2 | inr x => x end
  end.

Lemma slice_0 n r w m : slice n 0 r w m = drive M host n nres r w m.
Proof. done. Qed.

Lemma slice_full n r w m : at_size m → drive M host n nres (S r) w m = slice n n r w m.
Proof. intros Hm. by rewrite drive_S, (upd_msize_id _ Hm). Qed.

(** The first op of a slice is a turn; a turn that calls the host ends the slice. *)
Lemma slice_S n k r w m :
  slice n (S k) r w m =
  match turn w m with
  | inr x => x
  | inl (w', m') =>
      match step M m with (Val _, _) => slice n k r w' m' | _ => slice n 0 r w' m' end
  end.
Proof.
  unfold slice, turn. simpl. by destruct (step M m) as [[u|s|e] m1].
Qed.

(** ** Every slicing computes [runs] *)

Lemma slice_runs n r : ∀ k w m x,
  at_size m → slice n k r w m = x → x.1.1 ≠ NotYet → runs w m x.
Proof.
  induction r as [|r IHr].
  - induction k as [|k IH]; intros w m x Hm; [rewrite slice_0; by intros <-|]. rewrite slice_S.
    destruct (turn w m) as [[w' m']|y] eqn:Ht; [|intros <- _; by apply runs_end].
    pose proof (turn_at_size _ _ _ _ Hm Ht). intros Hx Hn. eapply runs_turn; [done|].
    destruct (step M m) as [[]]; [by eapply IH|by rewrite slice_0 in Hx; subst..].
  - assert (∀ w m x, at_size m → slice n 0 (S r) w m = x → x.1.1 ≠ NotYet → runs w m x) as H0.
    { intros w m x Hm. rewrite slice_0, slice_full by done. by apply IHr. }
    induction k as [|k IH]; [exact H0|]. intros w m x Hm. rewrite slice_S.
    destruct (turn w m) as [[w' m']|y] eqn:Ht; [|intros <- _; by apply runs_end].
    pose proof (turn_at_size _ _ _ _ Hm Ht). intros Hx Hn. eapply runs_turn; [done|].
    destruct (step M m) as [[]]; [by eapply IH|by eapply H0..].
Qed.

Lemma runs_slice n w m x : (0 < n)%nat → runs w m x → at_size m → ∀ k, ∃ r, slice n k r w m = x.
Proof.
  intros Hn HR. induction HR as [w m x Ht|w m w' m' x Ht HR IH]; intros Hm.
  - assert (∀ k r, slice n (S k) r w m = x) as HS by (intros k r; by rewrite slice_S, Ht).
    intros [|k]; [|exists 0%nat; apply HS]. exists 1%nat.
    rewrite slice_0, slice_full by done. destruct n; [lia|apply HS].
  - specialize (IH (turn_at_size _ _ _ _ Hm Ht)).
    assert (∀ k, ∃ r, slice n (S k) r w m = x) as HS.
    { intros k. destruct (step M m) as [[u|s|e] m1] eqn:Hs.
      - destruct (IH k) as [r Hr]. exists r. by rewrite slice_S, Ht, Hs.
      - destruct (IH 0%nat) as [r Hr]. exists r. by rewrite slice_S, Ht, Hs.
      - destruct (IH 0%nat) as [r Hr]. exists r. by rewrite slice_S, Ht, Hs. }
    intros [|k]; [|apply HS]. destruct n as [|n]; [lia|]. destruct (HS n) as [r Hr]. exists (S r).
    by rewrite slice_0, slice_full.
Qed.

Lemma drive_runs n w m x :
  (0 < n)%nat → at_size m → x.1.1 ≠ NotYet → (∃ r, drive M host n nres r w m = x) ↔ runs w m x.
Proof.
  intros Hn Hm Hx. split.
  - intros [r Hr]. by apply (slice_runs n r 0).
  - intros HR. by apply (runs_slice n w m x Hn HR Hm 0).
Qed.
End slices.

(** ** The driver *)

(** The driver without slices: the same checks and start, then [runs]. *)
Definition run_ref {W} (M : HostModule) (func_idx : Z) (args : list Z) (host : HostFn W) (w : W)
    (x : RunResult * HostModule * W) : Prop :=
  match index M.(hm_funcs) func_idx with
  | None => x = (Finished ST_UNSUPPORTED_OP [], M, w)
  | Some f =>
      if negb (len args =? f.(fm_n_params)) then x = (Finished ST_UNSUPPORTED_OP [], M, w)
      else
        match boot M f args with
        | (Val _, m) => runs M host f.(fm_n_results) w m x
        | (Trap s, m) => x = (Finished s [], shared M m M.(hm_mem_size), w)
        | (UB e, m) => x = (Corrupted e, shared M m M.(hm_mem_size), w)
        end
  end.

#[export] Instance q_store_all vs : Quiet (store_all vs).
Proof. induction vs; simpl; unfold store_next; apply _. Qed.

Lemma run_cpu_ref {W} M fi args n (host : HostFn W) w x :
  no_grow M = true → (0 < n)%nat → x.1.1 ≠ NotYet →
  (∃ r, run_cpu M fi args n host r w = x) ↔ run_ref M fi args host w x.
Proof.
  intros HG Hn Hx. unfold run_cpu, run_ref.
  assert (∀ y, (∃ _ : nat, y = x) ↔ x = y) as Hc.
  { intros y. split; [by intros [_ ->]|]. intros ->. by exists 0%nat. }
  destruct (index _ _) as [f|]; [|apply Hc]. destruct (negb _); [apply Hc|].
  unfold boot.
  destruct (q_store_all (args ++ replicate (Z.to_nat (fm_n_locals f)) 0) (blank M f)) as [_ Hm].
  destruct (store_all _ _) as [[[]|s|e] m]; [|apply Hc..]. by apply drive_runs.
Qed.

Lemma runs_det {W} M (host : HostFn W) nres w m x y : runs M host nres w m x → runs M host nres w m y → x = y.
Proof.
  intros H. revert y. induction H as [w m x Ht|w m w' m' x Ht _ IH]; intros y Hy; inversion Hy; subst; try congruence.
  apply IH. congruence.
Qed.

Lemma run_ref_det {W} M fi args (host : HostFn W) w x y : run_ref M fi args host w x → run_ref M fi args host w y → x = y.
Proof.
  unfold run_ref. destruct (index _ _) as [f|]; [|congruence]. destruct (negb _); [congruence|].
  destruct (boot M f args) as [[[]|s|e] m]; [apply runs_det|congruence..].
Qed.

(** C18. The slice length is unobservable: for a module without [memory.grow], the CPU
    driver ends with a result for some number of rounds exactly when the
    step-by-step semantics ends with it, whatever positive number of ops a slice
    has.  The result includes the module's memory, globals and segment flags, and the
    world the host functions left. *)
Theorem run_cpu_slices {W} M fi args n (host : HostFn W) w x :
  no_grow M = true → (0 < n)%nat → x.1.1 ≠ NotYet →
  (∃ r, run_cpu M fi args n host r w = x) ↔ run_ref M fi args host w x.
Proof. apply run_cpu_ref. Qed.

(** Counts its argument down to zero and returns it. *)
Definition down_module : HostModule :=
  mkHostModule
    [ mkCuOp OP_LOCAL_GET 0 0; mkCuOp OP_BR_IF_NOT 0 7; mkCuOp OP_LOCAL_GET 0 0;
      mkCuOp OP_I64_CONST 0 0; mkCuOp OP_I64_SUB 0 0; mkCuOp OP_LOCAL_SET 0 0; mkCuOp OP_BR 0 0;
      mkCuOp OP_LOCAL_GET 0 0; mkCuOp OP_END_FUNC 0 0 ]
    [1] [mkFuncMeta 0 9 1 1 0 2] [] [] [] 0 0 [] [] [] [] [] [0] [0] 0 [] [] [] [].

Lemma run_cpu_slices_witness :
  run_ref down_module 0 [3] no_host tt (Finished ST_OK [0], down_module, tt).
Proof.
  apply (run_cpu_slices down_module 0 [3] 2 no_host tt (Finished ST_OK [0], down_module, tt));
    [reflexivity|lia|discriminate|].
  exists 20%nat. vm_compute. reflexivity.
Defined.
