(* ===== verification/Verify.v ===== *)
(** * The CuOp verifier

    [verify_cuop] of [src/verify.cpp]: for each function, a worklist over the
    function's ops that assigns every reachable op one operand-stack height and
    rejects the module when two paths disagree or an op would underflow.  The
    C++ [int] heights are integers here. *)

From S2P Require Import Prelude Cuop Wasm Lower EnvTable Module Engine.
From stdpp Require Import base list strings.

Local Open Scope Z_scope.

(** ** One op *)

(** The arms of the switch that only test the height and change it: the height
    the op needs, the change, and the error. *)
Definition group (ops : list Z) (need net : Z) (e : string) : list (Z * (Z * Z * string)) :=
  (fun op => (op, (need, net, e))) <$> ops.

Definition height_table : list (Z * (Z * Z * string)) :=
  group [OP_I64_CONST; OP_LOCAL_GET] 0 1 "" ++
  group [OP_LOCAL_SET] 1 (-1) "local.set underflow" ++
  group [OP_I64_ADD; OP_I64_SUB; OP_I64_EQ; OP_I64_LE_S; OP_I64_LT_S; OP_I32_EQ; OP_I32_NE;
         OP_I32_LT_S; OP_I32_LT_U; OP_I32_LE_S; OP_I32_LE_U; OP_I32_GT_S; OP_I32_GT_U;
         OP_I32_GE_S; OP_I32_GE_U; OP_I32_ADD; OP_I32_SUB; OP_I32_MUL; OP_I32_AND; OP_I32_OR;
         OP_I32_XOR; OP_I32_DIV_S; OP_I32_DIV_U; OP_I32_REM_S; OP_I32_REM_U; OP_I32_SHL;
         OP_I32_SHR_S; OP_I32_SHR_U; OP_I64_NE; OP_I64_LT_U; OP_I64_LE_U; OP_I64_GT_S;
         OP_I64_GT_U; OP_I64_GE_S; OP_I64_GE_U; OP_I64_MUL; OP_I64_AND; OP_I64_OR; OP_I64_XOR;
         OP_I64_DIV_S; OP_I64_DIV_U; OP_I64_REM_S; OP_I64_REM_U; OP_I64_SHL; OP_I64_SHR_S;
         OP_I64_SHR_U] 2 (-1) "binop underflow" ++
  group [OP_I64_EQZ; OP_I32_EQZ; OP_I32_WRAP_I64; OP_I64_EXTEND_I32_S; OP_I64_EXTEND_I32_U]
    1 0 "unop underflow" ++
  group [OP_I64_MUL_WIDE_S; OP_I64_MUL_WIDE_U] 2 0 "mul_wide underflow" ++
  group [OP_I64_ADD128; OP_I64_SUB128] 4 (-2) "i64.xxx128 underflow" ++
  group [OP_DROP] 1 (-1) "drop underflow" ++
  group [OP_GLOBAL_GET] 0 1 "" ++
  group [OP_GLOBAL_SET] 1 (-1) "global.set underflow" ++
  group [OP_SELECT] 3 (-2) "select underflow" ++
  group [OP_LOAD] 1 0 "load underflow" ++
  group [OP_STORE] 2 (-2) "store underflow" ++
  group [OP_MEMORY_SIZE] 0 1 "" ++
  group [OP_MEMORY_GROW] 1 0 "memory.grow underflow" ++
  group [OP_MEMORY_COPY; OP_MEMORY_FILL; OP_MEMORY_INIT] 3 (-3) "bulk-memory underflow" ++
  group [OP_DATA_DROP] 0 0 "" ++
  group [OP_CLZ] 1 0 "clz underflow".

(** What an op does to the height: the height after it, whether control falls
    through, and the join the arm makes itself (target, height). *)
Record Effect := mkEffect { next_h : Z; falls : bool; jump : option (Z * Z) }.

Definition need (b : bool) (e : string) : outcome unit :=
  if b then Ok tt else Err (msg e).

Definition target_in (f : FuncMetaC) (b : Z) : bool :=
  (f.(fm_code_off) <=? b) && (b <? f.(fm_code_off) + f.(fm_code_len)).

Definition callee (funcs : list FuncMetaC) (fi : Z) (e : string) : outcome FuncMetaC :=
  ok_or (index funcs fi) (msg e).

(** The arms with more to check. *)
Definition unwind_effect (f : FuncMetaC) (b h : Z) : outcome Effect :=
  let dest_h := i32 b - f.(fm_n_params) - f.(fm_n_locals) in
  need (0 <=? dest_h) "unwind dest below locals";;
  need (dest_h <=? h) "unwind underflow";;
  Ok (mkEffect dest_h true None).

Definition br_effect (f : FuncMetaC) (b h : Z) : outcome Effect :=
  need (target_in f b) "br target outside function";;
  Ok (mkEffect h false (Some (b - f.(fm_code_off), h))).

Definition br_if_not_effect (f : FuncMetaC) (b h : Z) : outcome Effect :=
  need (1 <=? h) "br_if_not underflow";;
  need (target_in f b) "br_if_not target outside function";;
  Ok (mkEffect (h - 1) true (Some (b - f.(fm_code_off), h - 1))).

Definition call_effect (funcs : list FuncMetaC) (b h : Z) : outcome Effect :=
  g ← callee funcs b "call func oob";
  need (g.(fm_n_params) <=? h) "call underflow";;
  Ok (mkEffect (h - g.(fm_n_params) + g.(fm_n_results)) true None).

Definition return_call_effect (funcs : list FuncMetaC) (b h : Z) : outcome Effect :=
  g ← callee funcs b "return_call func oob";
  need (g.(fm_n_params) <=? h) "return_call underflow";;
  Ok (mkEffect h false None).

Definition call_host_effect (a h : Z) : outcome Effect :=
  let np := Z.land a 255 in
  let nr := Z.land (Z.shiftr a 8) 255 in
  need (np <=? h) "call_host underflow";;
  Ok (mkEffect (h - np + nr) true None).

Definition call_indirect_effect (type_fp : list Z) (b h : Z) : outcome Effect :=
  need (1 <=? h) "call_indirect underflow";;
  fpv ← ok_or (index type_fp b) (msg "call_indirect type oob");
  let np := Z.land fpv 255 in
  let nr := Z.land (Z.shiftr fpv 8) 255 in
  need (1 + np <=? h) "call_indirect underflow";;
  Ok (mkEffect (h - 1 - np + nr) true None).

Definition effect (M : HostModule) (f : FuncMetaC) (in_ : CuOpC) (h : Z) : outcome Effect :=
  let op := in_.(cu_op) in
  match op_lookup op height_table with
  | Some (n, net, e) => need (n <=? h) e;; Ok (mkEffect (h + net) true None)
  | None =>
      if op =? OP_UNWIND then unwind_effect f in_.(cu_b) h
      else if op =? OP_BR then br_effect f in_.(cu_b) h
      else if op =? OP_BR_IF_NOT then br_if_not_effect f in_.(cu_b) h
      else if op =? OP_CALL then call_effect M.(hm_funcs) in_.(cu_b) h
      else if op =? OP_RETURN_CALL then return_call_effect M.(hm_funcs) in_.(cu_b) h
      else if (op =? OP_RETURN) || (op =? OP_END_FUNC) then
        need (f.(fm_n_results) <=? h) "return underflow";; Ok (mkEffect h false None)
      else if op =? OP_UNREACHABLE then Ok (mkEffect h false None)
      else if op =? OP_CALL_HOST then call_host_effect in_.(cu_a) h
      else if op =? OP_CALL_INDIRECT then call_indirect_effect M.(hm_type_fp) in_.(cu_b) h
      else Err (msg "unknown cuop in verify")
  end.

(** The index checks after the switch. *)
Definition index_checks (M : HostModule) (f : FuncMetaC) (in_ : CuOpC) : outcome unit :=
  let n := u16 (f.(fm_n_params) + f.(fm_n_locals)) in
  need (negb (in_.(cu_op) =? OP_LOCAL_GET) || (in_.(cu_a) <? n)) "local.get index oob";;
  need (negb (in_.(cu_op) =? OP_LOCAL_SET) || (in_.(cu_a) <? n)) "local.set index oob";;
  need (negb (in_.(cu_op) =? OP_I64_CONST) || (in_.(cu_b) <? len M.(hm_consts))) "const pool oob".

(** ** The worklist *)

Record VState := mkVState { height : list Z; work : list Z; max_h : Z }.

Definition join_at (f : FuncMetaC) (rel h : Z) (s : VState) : outcome VState :=
  match index s.(height) rel with
  | None => Err (msg "join target out of function")
  | Some h0 =>
      if h0 <? 0 then
        Ok (mkVState (<[Z.to_nat rel := h]> s.(height)) (rel :: s.(work)) s.(max_h))
      else if negb (h0 =? h)
      then Err (fmt_z "stack height mismatch at pc " (f.(fm_code_off) + rel))
      else Ok s
  end.

(** A vector access of the source, inside the vector (see [verify_terminates]). *)
Definition at_index {A} (l : list A) (i : Z) : outcome A :=
  match index l i with Some x => Ok x | None => Panic "index" end.

(** One turn of the worklist.  Heights are integers here and [int] in the source, whose
    overflow is not represented: the largest height seen is compared with 65535 in the end, so
    a function with heights that do not fit 31 bits is rejected in any case. *)
Definition visit (M : HostModule) (f : FuncMetaC) (rel : Z) (s : VState) : outcome VState :=
  in_ ← at_index M.(hm_code) (f.(fm_code_off) + rel);
  h ← at_index s.(height) rel;
  if h <? 0 then Err (msg "uninitialized height")
  else
    let s := mkVState s.(height) s.(work) (Z.max s.(max_h) h) in
    e ← effect M f in_ h;
    s ← match e.(jump) with Some (t, th) => join_at f t th s | None => Ok s end;
    index_checks M f in_;;
    let s := mkVState s.(height) s.(work) (Z.max s.(max_h) e.(next_h)) in
    if e.(falls) then
      if f.(fm_code_len) <=? rel + 1 then Err (msg "fallthrough past end of function")
      else join_at f (rel + 1) e.(next_h) s
    else Ok s.

(** [while (!work.empty())], bounded by [fuel]; see [verify_terminates]. *)
Fixpoint work_loop (M : HostModule) (f : FuncMetaC) (fuel : nat) (s : VState) : option (outcome VState) :=
  match s.(work), fuel with
  | [], _ => Some (Ok s)
  | _ :: _, O => None
  | rel :: rest, S n =>
      match visit M f rel (mkVState s.(height) rest s.(max_h)) with
      | Ok s' => work_loop M f n s'
      | Err e => Some (Err e)
      | Panic w => Some (Panic w)
      end
  end.

Definition start_state (f : FuncMetaC) : VState :=
  mkVState (<[0%nat := 0]> (replicate (Z.to_nat f.(fm_code_len)) (-1))) [0] 0.

Definition loop_fuel (f : FuncMetaC) : nat := S (Z.to_nat f.(fm_code_len)).

Definition heights (M : HostModule) (f : FuncMetaC) : option (outcome VState) :=
  work_loop M f (loop_fuel f) (start_state f).

(** ** Functions and modules *)

Definition set_max_stack (n : Z) (f : FuncMetaC) : FuncMetaC :=
  mkFuncMeta f.(fm_code_off) f.(fm_code_len) f.(fm_n_params) f.(fm_n_results)
    f.(fm_n_locals) n.

(** The function with its [max_stack]; [None] when the loop ran out of fuel. *)
Definition verify_func (M : HostModule) (fi : Z) (f : FuncMetaC) : option (outcome FuncMetaC) :=
  if len M.(hm_code) <? f.(fm_code_off) + f.(fm_code_len)
  then Some (Err (msg "function code out of bounds"))
  else if f.(fm_code_len) =? 0 then
    Some (if fi <? M.(hm_n_host_imports) then Ok (set_max_stack f.(fm_n_params) f)
          else Err (msg "empty function"))
  else
    match at_index M.(hm_code) (f.(fm_code_off) + f.(fm_code_len) - 1) with
    | Panic w => Some (Panic w)
    | Err e => Some (Err e)
    | Ok last =>
        if negb (last.(cu_op) =? OP_RETURN) && negb (last.(cu_op) =? OP_END_FUNC)
        then Some (Err (msg "function does not end in return/end_func"))
        else
          match heights M f with
          | None => None
          | Some (Ok s) =>
              let max_sp := f.(fm_n_params) + f.(fm_n_locals) + s.(max_h) in
              let max_sp := if max_sp <? 0 then 0 else max_sp in
              Some (if 65535 <? max_sp then Err (msg "max_stack overflow")
                    else Ok (set_max_stack (u16 max_sp) f))
          | Some (Err e) => Some (Err e)
          | Some (Panic w) => Some (Panic w)
          end
    end.

Fixpoint verify_funcs (M : HostModule) (fi : Z) (fs : list FuncMetaC)
    : option (outcome (list FuncMetaC)) :=
  match fs with
  | [] => Some (Ok [])
  | f :: fs' =>
      match verify_func M fi f with
      | Some (Ok f') =>
          match verify_funcs M (fi + 1) fs' with
          | Some (Ok r) => Some (Ok (f' :: r))
          | o => o
          end
      | Some (Err e) => Some (Err e)
      | Some (Panic w) => Some (Panic w)
      | None => None
      end
  end.

Definition set_funcs (fs : list FuncMetaC) (M : HostModule) : HostModule :=
  mkHostModule M.(hm_code) M.(hm_consts) fs M.(hm_exports) M.(hm_globals) M.(hm_memory)
    M.(hm_mem_size) M.(hm_mem_max) M.(hm_data_blob) M.(hm_data_off) M.(hm_data_len)
    M.(hm_data_live) M.(hm_table) M.(hm_func_typeidx) M.(hm_type_fp) M.(hm_n_host_imports)
    M.(hm_host_fn_id) M.(hm_host_import_mod) M.(hm_host_import_name) M.(hm_host_import_env).

(** The verified module, with the [max_stack] of each function filled in.  The
    verifier reads only the signatures and spans of other functions, which the
    loop does not change. *)
Definition verify_cuop (M : HostModule) : option (outcome HostModule) :=
  match M.(hm_funcs), M.(hm_code) with
  | [], _ => Some (Err (msg "no functions"))
  | _, [] => Some (Err (msg "empty code"))
  | fs, _ =>
      match verify_funcs M 0 fs with
      | Some (Ok fs') => Some (Ok (set_funcs fs' M))
      | Some (Err e) => Some (Err e)
      | Some (Panic w) => Some (Panic w)
      | None => None
      end
  end.
