(* ===== verification/VerifyFacts.v ===== *)
(** * The verifier terminates and what it establishes

    The worklist loop ends within the number of ops of the function, no vector is
    indexed out of range, and an accepted function has a height assignment closed
    under its control flow ([typed]). *)

From S2P Require Import Prelude Cuop Wasm Lower EnvTable Module ModuleSteps Engine Verify.
From stdpp Require Import base list strings.

Local Open Scope Z_scope.

(** ** Indexing *)

Lemma index_Some {A} (l : list A) i x :
  index l i = Some x ↔ 0 ≤ i ∧ l !! Z.to_nat i = Some x.
Proof.
  unfold index. destruct (0 <=? i) eqn:?; split.
  - intros. split; [lia|done].
  - by intros [_ ?].
  - done.
  - intros [? _]. lia.
Qed.

Lemma index_elem_of {A} (l : list A) i x : index l i = Some x → x ∈ l.
Proof. unfold index. destruct (0 <=? i); [apply list_elem_of_lookup_2|done]. Qed.

Lemma index_lt {A} (l : list A) i x : index l i = Some x → 0 ≤ i < len l.
Proof. intros [? ?%lookup_lt_Some]%index_Some. unfold len. lia. Qed.

Lemma index_is_Some {A} (l : list A) i : 0 ≤ i < len l → ∃ x, index l i = Some x.
Proof.
  intros [Hi Hl]. destruct (lookup_lt_is_Some_2 l (Z.to_nat i)) as [x Hx]; [unfold len in Hl; lia|].
  exists x. by apply index_Some.
Qed.

Lemma index_insert {A} (l : list A) i j x :
  0 ≤ i < len l → 0 ≤ j →
  index (<[Z.to_nat i := x]> l) j = if decide (i = j) then Some x else index l j.
Proof.
  intros Hi Hj. unfold index. replace (0 <=? j) with true by lia.
  destruct (decide (i = j)) as [<-|Hne].
  - apply list_lookup_insert_eq. unfold len in Hi. lia.
  - apply list_lookup_insert_ne. lia.
Qed.

(** A property of all rows of an opcode table holds of the row found. *)
Lemma op_lookup_Forall {A} (P : Z → A → Prop) (l : list (Z * A)) op x :
  Forall (fun r => P r.1 r.2) l → op_lookup op l = Some x → P op x.
Proof.
  intros HF. induction HF as [|[k y] l Hr _ IH]; simpl; [done|].
  destruct (op =? k) eqn:Hk; [|done]. apply Z.eqb_eq in Hk as ->. by intros [= <-].
Qed.

(** ** Effects *)

(** The records hold unsigned numbers. *)
Definition meta_ok (f : FuncMetaC) : Prop :=
  0 ≤ f.(fm_code_off) ∧ 0 ≤ f.(fm_code_len) ∧ 0 ≤ f.(fm_n_params) ∧ 0 ≤ f.(fm_n_results) ∧
  0 ≤ f.(fm_n_locals).

#[export] Instance meta_ok_dec f : Decision (meta_ok f).
Proof. unfold meta_ok. apply _. Defined.

Lemma need_Ok (b : bool) e : need b e = Ok tt → b = true.
Proof. by destruct b. Qed.

(** Inverting a chain of checks. *)
Ltac inv_need :=
  repeat match goal with
  | H : (need ?b _ ≫= _) = Ok _ |- _ =>
      let E := fresh "Hn" in destruct b eqn:E; simpl in H; [|discriminate H]
  | H : (ok_or ?o _ ≫= _) = Ok _ |- _ =>
      let E := fresh "Ho" in destruct o eqn:E; simpl in H; [|discriminate H]
  | H : (callee _ _ _ ≫= _) = Ok _ |- _ => unfold callee in H
  | H : Ok _ = Ok _ |- _ => injection H as <-
  end.

Lemma effect_nonneg M f in_ h e :
  Forall meta_ok M.(hm_funcs) → 0 ≤ h → effect M f in_ h = Ok e →
  0 ≤ e.(next_h) ∧ ∀ t th, e.(jump) = Some (t, th) → 0 ≤ th.
Proof.
  intros HM Hh. unfold effect.
  destruct (op_lookup _ height_table) as [[[n net] er]|] eqn:Hop.
  - assert (0 ≤ n + net) as Hnn.
    { apply (op_lookup_Forall (fun _ r => 0 ≤ r.1.1 + r.1.2) _ _ _) in Hop; [done|].
      apply (bool_decide_eq_true_1 _). vm_compute. reflexivity. }
    intros H. inv_need. simpl. split; [lia|done].
  - repeat match goal with |- (if ?b then _ else _) = _ → _ => destruct b end; intros H;
      unfold unwind_effect, br_effect, br_if_not_effect, call_effect, return_call_effect,
        call_host_effect, call_indirect_effect in H; inv_need; try discriminate; simpl;
      (split; [|intros ?? [= <- <-] || done]); try lia.
    + rewrite Forall_forall in HM.
      apply index_Some in Ho as [_ Hg%list_elem_of_lookup_2]. destruct (HM _ Hg); lia.
    + assert (0 ≤ Z.land (Z.shiftr (cu_a in_) 8) 255)
        by (apply Z.land_nonneg; right; lia). lia.
    + assert (0 ≤ Z.land (Z.shiftr z 8) 255) by (apply Z.land_nonneg; right; lia). lia.
Qed.

(** ** Height assignments *)

(** At op [rel] with height [h]: the op is accepted and the heights of its
    successors are the ones it leaves. *)
Definition ok_at (M : HostModule) (f : FuncMetaC) (H : list Z) (rel h : Z) : Prop :=
  ∃ in_ e, index M.(hm_code) (f.(fm_code_off) + rel) = Some in_ ∧
    effect M f in_ h = Ok e ∧ index_checks M f in_ = Ok tt ∧
    (∀ t th, e.(jump) = Some (t, th) → index H t = Some th ∧ 0 ≤ th) ∧
    (e.(falls) = true → index H (rel + 1) = Some e.(next_h) ∧ 0 ≤ e.(next_h)).

Definition typed (M : HostModule) (f : FuncMetaC) (H : list Z) : Prop :=
  len H = f.(fm_code_len) ∧ index H 0 = Some 0 ∧
  ∀ rel h, index H rel = Some h → 0 ≤ h → ok_at M f H rel h.

(** Heights that are set stay. *)
Definition extends (H H' : list Z) : Prop :=
  len H' = len H ∧ ∀ i h, index H i = Some h → 0 ≤ h → index H' i = Some h.

#[export] Instance extends_preorder : PreOrder extends.
Proof.
  split.
  - by intros H.
  - intros H1 H2 H3 [L1 E1] [L2 E2]. split; [congruence|]. auto.
Qed.

Lemma ok_at_extends M f H H' rel h : ok_at M f H rel h → extends H H' → ok_at M f H' rel h.
Proof.
  intros (in_ & e & H1 & H2 & H3 & H4 & H5) [_ He]. exists in_, e. split_and!; try done.
  - intros t th Hj. destruct (H4 _ _ Hj). auto.
  - intros Hf. destruct (H5 Hf). auto.
Qed.

Definition unset (H : list Z) : nat := length (filter (fun h => h < 0) H).

Definition loop_inv (M : HostModule) (f : FuncMetaC) (s : VState) : Prop :=
  len s.(height) = f.(fm_code_len) ∧ index s.(height) 0 = Some 0 ∧
  (∀ rel, rel ∈ s.(work) → ∃ h, index s.(height) rel = Some h ∧ 0 ≤ h) ∧
  ∀ rel h, index s.(height) rel = Some h → 0 ≤ h → rel ∈ s.(work) ∨ ok_at M f s.(height) rel h.

Lemma unset_insert (H : list Z) (i : nat) h0 h :
  H !! i = Some h0 → h0 < 0 → 0 ≤ h → S (unset (<[i := h]> H)) = unset H.
Proof.
  intros Hi H0 Hh. unfold unset.
  rewrite insert_take_drop by (by eapply lookup_lt_Some).
  rewrite <-(take_drop_middle H i h0 Hi) at 3.
  rewrite !filter_app, !filter_cons, !length_app.
  rewrite (decide_False (P := h < 0)), (decide_True (P := h0 < 0)) by lia. simpl. lia.
Qed.

(** A join sets its target or finds it set to the same height. *)
Lemma join_spec f rel h s s' :
  0 ≤ h → join_at f rel h s = Ok s' →
  extends s.(height) s'.(height) ∧ index s'.(height) rel = Some h ∧
  (s' = s ∨
   (s'.(work) = rel :: s.(work) ∧ S (unset s'.(height)) = unset s.(height) ∧
    ∀ i x, index s'.(height) i = Some x → i = rel ∨ index s.(height) i = Some x)).
Proof.
  intros Hh. unfold join_at. destruct (index (height s) rel) as [h0|] eqn:Hi; [|done].
  pose proof (index_lt _ _ _ Hi) as Hr.
  destruct (h0 <? 0) eqn:Hneg.
  - intros [= <-]. simpl. split_and!.
    + split; [by rewrite len_insert|]. intros i x Hx Hx0.
      rewrite index_insert; [|done|by apply index_lt in Hx as [? _]].
      destruct (decide (rel = i)) as [<-|]; [|done]. rewrite Hi in Hx. simplify_eq. lia.
    + rewrite index_insert by lia. by rewrite decide_True.
    + right. split_and!; [done| |].
      * apply index_Some in Hi as [_ Hi]. eapply unset_insert; [done|lia|done].
      * intros i x Hx. pose proof (index_lt _ _ _ Hx) as [Hi0 _].
        rewrite index_insert in Hx by done. destruct (decide (rel = i)); [by left|by right].
  - destruct (h0 =? h) eqn:Heq; [|done]. simpl. intros [= <-].
    split_and!; [done| |by left]. rewrite Hi. f_equal. lia.
Qed.

Definition measure (s : VState) : nat := (unset s.(height) + length s.(work))%nat.

(** The effect of joins on the loop's state. *)
Definition grew (s s' : VState) : Prop :=
  measure s' = measure s ∧ extends s.(height) s'.(height) ∧
  (∀ i, i ∈ s.(work) → i ∈ s'.(work)) ∧
  (∀ i, i ∈ s'.(work) → i ∈ s.(work) ∨ ∃ h, index s'.(height) i = Some h ∧ 0 ≤ h) ∧
  (∀ i x, index s'.(height) i = Some x → 0 ≤ x → i ∈ s'.(work) ∨ index s.(height) i = Some x).

Lemma grew_max s n : grew s (mkVState s.(height) s.(work) n).
Proof. split_and!; simpl; auto. done. Qed.

Lemma grew_trans s1 s2 s3 : grew s1 s2 → grew s2 s3 → grew s1 s3.
Proof.
  intros (M1 & E1 & W1 & N1 & H1) (M2 & E2 & W2 & N2 & H2). split_and!.
  - congruence.
  - by etrans.
  - auto.
  - intros i Hi. destruct (N2 i Hi) as [Hi2|?]; [|by right].
    destruct (N1 i Hi2) as [?|(h & Hh & H0)]; [by left|right]. exists h. split; [|done].
    by apply E2.
  - intros i x Hx H0. destruct (H2 i x Hx H0) as [?|Hx2]; [by left|].
    destruct (H1 i x Hx2 H0); auto.
Qed.

Lemma join_grew f rel h s s' : 0 ≤ h → join_at f rel h s = Ok s' → grew s s'.
Proof.
  intros Hh (He & Hi & [->|(Hw & Hu & Hn)])%join_spec; [| |done].
  - split_and!; auto.
  - split_and!; [unfold measure; rewrite Hw; simpl; lia|done|..].
    + intros i Hin. rewrite Hw. by right.
    + intros i. rewrite Hw. intros [->|?]%elem_of_cons; [right|by left]. eauto.
    + intros i x Hx H0. rewrite Hw. destruct (Hn i x Hx) as [->|?]; [left; by left|by right].
Qed.

(** The joins a visit makes. *)
Lemma visit_spec M f rel s s' :
  Forall meta_ok M.(hm_funcs) → visit M f rel s = Ok s' →
  grew s s' ∧ ∃ h, index s.(height) rel = Some h ∧ 0 ≤ h ∧ ok_at M f s'.(height) rel h.
Proof.
  intros HM. unfold visit, at_index.
  destruct (index (hm_code M) _) as [in_|] eqn:Hin; [|done]. simpl.
  destruct (index (height s) rel) as [h|] eqn:Hh; [|done]. simpl.
  destruct (h <? 0) eqn:Hneg; [done|].
  destruct (effect M f in_ h) as [e| |] eqn:He; simpl; [|done..].
  assert (0 ≤ h) as Hh0 by lia.
  destruct (effect_nonneg _ _ _ _ _ HM Hh0 He) as [Hn Hj].
  set (s1 := mkVState (height s) (work s) (Z.max (max_h s) h)).
  destruct (match jump e with Some (t, th) => join_at f t th s1 | None => Ok s1 end)
    as [s2| |] eqn:Hj2; simpl; [|done..].
  destruct (index_checks M f in_) as [[]| |] eqn:Hc; simpl; [|done..].
  assert (grew s s2 ∧ ∀ t th, e.(jump) = Some (t, th) → index s2.(height) t = Some th)
    as [G2 J2].
  { destruct (jump e) as [[t th]|].
    - specialize (Hj t th eq_refl). split.
      + eapply grew_trans; [apply grew_max|by eapply join_grew].
      + intros ?? [= <- <-]. by apply join_spec in Hj2 as (_ & ? & _).
    - injection Hj2 as <-. split; [apply grew_max|done]. }
  set (s3 := mkVState (height s2) (work s2) (Z.max (max_h s2) (next_h e))).
  assert (grew s s3) as G3 by (eapply grew_trans; [done|apply grew_max]).
  intros Hret. assert (grew s3 s' ∧ (e.(falls) = true → index s'.(height) (rel + 1) = Some e.(next_h)))
    as [G4 F4].
  { destruct (falls e); [|by injection Hret as <-; split; [apply (grew_max s3)|]].
    destruct (_ <=? _); [done|]. split; [by eapply join_grew|].
    intros _. by apply join_spec in Hret as (_ & ? & _). }
  split; [by eapply grew_trans|]. exists h. split_and!; [done|lia|].
  exists in_, e. split_and!; try done.
  - intros t th Hjmp. split; [|by eapply Hj]. destruct G4 as (_ & [_ E4] & _).
    apply E4; [by apply J2|by eapply Hj].
  - auto.
Qed.

Lemma loop_inv_visit M f rel rest s s' :
  Forall meta_ok M.(hm_funcs) → s.(work) = rel :: rest → loop_inv M f s →
  visit M f rel (mkVState s.(height) rest s.(max_h)) = Ok s' →
  loop_inv M f s' ∧ (measure s' < measure s)%nat.
Proof.
  intros HM Hw (L1 & L2 & L3 & L4) Hv.
  apply visit_spec in Hv as [(Hm & [El Ee] & Win & Wnew & Hnew) (h & Hh & H0 & Hok)]; [|done].
  simpl in *. split; [split_and!|].
  - congruence.
  - by apply Ee.
  - intros i Hi. destruct (Wnew i Hi) as [Hi2|?]; [|done].
    destruct (L3 i) as (x & Hx & Hx0); [rewrite Hw; by right|]. exists x. auto.
  - intros i x Hx Hx0. destruct (Hnew i x Hx Hx0) as [?|Hold]; [by left|].
    destruct (L4 i x Hold Hx0) as [Hin|Hoki]; [|right; by eapply ok_at_extends].
    rewrite Hw in Hin. apply elem_of_cons in Hin as [->|Hin]; [right|left; auto].
    rewrite Hh in Hold. by injection Hold as <-.
  - unfold measure in *. simpl in Hm. rewrite Hw. simpl. lia.
Qed.

Lemma work_loop_spec M f n s :
  Forall meta_ok M.(hm_funcs) → loop_inv M f s → (measure s ≤ n)%nat →
  ∃ r, work_loop M f n s = Some r ∧
    match r with Ok s' => loop_inv M f s' ∧ s'.(work) = [] | _ => True end.
Proof.
  intros HM. revert s. induction n as [|n IH]; intros s HI Hn; simpl.
  - destruct (work s) as [|rel rest] eqn:Hw; [by exists (Ok s)|].
    unfold measure in Hn. rewrite Hw in Hn. simpl in Hn. lia.
  - destruct (work s) as [|rel rest] eqn:Hw; [by exists (Ok s)|].
    destruct (visit _ _ _ _) as [s'| |] eqn:Hv; [|by eexists..].
    destruct (loop_inv_visit _ _ _ _ _ _ HM Hw HI Hv). apply IH; [done|lia].
Qed.

(** ** No vector is indexed out of range *)

#[export] Instance need_no_panic b e : NoPanic (need b e).
Proof. by destruct b. Qed.

#[export] Instance effect_no_panic M f in_ h : NoPanic (effect M f in_ h).
Proof.
  unfold effect, unwind_effect, br_effect, br_if_not_effect, call_effect, return_call_effect,
    call_host_effect, call_indirect_effect, callee.
  destruct (op_lookup _ _) as [[[n net] e]|]; no_panic_tac.
Qed.

#[export] Instance index_checks_no_panic M f in_ : NoPanic (index_checks M f in_).
Proof. unfold index_checks. no_panic_tac. Qed.

#[export] Instance join_at_no_panic f rel h s : NoPanic (join_at f rel h s).
Proof. unfold join_at. no_panic_tac. Qed.

Lemma at_index_no_panic {A} (l : list A) i : 0 ≤ i < len l → NoPanic (at_index l i).
Proof. intros [x Hx]%index_is_Some. unfold at_index. rewrite Hx. apply _. Qed.

Lemma visit_no_panic M f rel s :
  0 ≤ f.(fm_code_off) → f.(fm_code_off) + f.(fm_code_len) ≤ len M.(hm_code) →
  len s.(height) = f.(fm_code_len) → 0 ≤ rel < len s.(height) → NoPanic (visit M f rel s).
Proof.
  intros Ho Hs Hl Hr. unfold visit.
  apply bind_no_panic; [apply at_index_no_panic; lia|]. intros in_ _.
  apply bind_no_panic; [by apply at_index_no_panic|]. intros h _. no_panic_tac.
Qed.

Lemma work_loop_no_panic M f n s r :
  Forall meta_ok M.(hm_funcs) → 0 ≤ f.(fm_code_off) →
  f.(fm_code_off) + f.(fm_code_len) ≤ len M.(hm_code) → loop_inv M f s →
  work_loop M f n s = Some r → NoPanic r.
Proof.
  intros HM Ho Hs. revert s. induction n as [|n IH]; intros s HI; simpl;
    (destruct (work s) as [|rel rest] eqn:Hw; [by intros [= <-]; apply _|]); [done|].
  destruct (visit _ _ _ _) as [s'| |w] eqn:Hv; [|intros [= <-]; apply _|].
  - apply IH. by eapply loop_inv_visit.
  - exfalso. revert Hv. destruct HI as (L1 & _ & L3 & _).
    destruct (L3 rel) as (h & Hh & _); [rewrite Hw; by left|].
    apply visit_no_panic; [done..|]. simpl. by eapply index_lt.
Qed.

(** ** Accepted functions *)

Lemma unset_replicate n : unset (replicate n (-1)) = n.
Proof.
  unfold unset. induction n as [|n IH]; [done|]. rewrite replicate_S, filter_cons.
  rewrite decide_True by lia. simpl. by rewrite IH.
Qed.

Lemma start_inv M f : 0 < f.(fm_code_len) → loop_inv M f (start_state f).
Proof.
  intros Hl. unfold start_state.
  assert (len (replicate (Z.to_nat f.(fm_code_len)) (-1)) = f.(fm_code_len)) as Hlen
    by (unfold len; rewrite length_replicate; lia).
  change 0%nat with (Z.to_nat 0). split_and!; simpl.
  - by rewrite len_insert.
  - rewrite (index_insert _ 0) by lia. done.
  - intros rel ->%list_elem_of_singleton. exists 0. rewrite (index_insert _ 0) by lia. done.
  - intros rel h Hh H0. pose proof (index_lt _ _ _ Hh) as [Hr _].
    rewrite (index_insert _ 0) in Hh by lia. destruct (decide (0 = rel)) as [<-|]; [left; by left|].
    apply index_Some in Hh as [_ Hh%lookup_replicate_1]. lia.
Qed.

Lemma start_measure f : 0 < f.(fm_code_len) → (measure (start_state f) ≤ loop_fuel f)%nat.
Proof.
  intros Hl. unfold measure, start_state, loop_fuel; simpl.
  assert (S (unset (<[0%nat:=0]> (replicate (Z.to_nat (fm_code_len f)) (-1))))
    = Z.to_nat (fm_code_len f)) as Hu; [|lia].
  rewrite (unset_insert _ _ (-1)); [apply unset_replicate|by apply lookup_replicate; lia|lia..].
Qed.

(** The loop ends, with a height assignment closed under control flow when it
    accepts. *)
Lemma heights_spec M f :
  Forall meta_ok M.(hm_funcs) → 0 < f.(fm_code_len) →
  ∃ r, heights M f = Some r ∧ match r with Ok s => typed M f s.(height) | _ => True end.
Proof.
  intros HM Hl.
  destruct (work_loop_spec M f (loop_fuel f) (start_state f)) as (r & Hr & Hok);
    [done|by apply start_inv|by apply start_measure|].
  exists r. split; [done|]. destruct r as [s| |]; [|done..].
  destruct Hok as ((L1 & L2 & _ & L4) & Hw). split_and!; [done..|].
  intros rel h Hh H0. destruct (L4 rel h Hh H0) as [Hin|?]; [|done].
  rewrite Hw in Hin. by apply not_elem_of_nil in Hin.
Qed.

Definition span_ok (M : HostModule) (f : FuncMetaC) : Prop :=
  0 ≤ f.(fm_code_off) ∧ 0 < f.(fm_code_len) ∧ f.(fm_code_off) + f.(fm_code_len) ≤ len M.(hm_code).

Definition accepted (M : HostModule) (f : FuncMetaC) : Prop :=
  span_ok M f ∧ f.(fm_n_params) + f.(fm_n_locals) ≤ 65535 ∧ ∃ H, typed M f H.

Lemma join_at_max f rel h s s' : join_at f rel h s = Ok s' → s'.(max_h) = s.(max_h).
Proof. unfold join_at. repeat case_match; intros; by simplify_eq. Qed.

Lemma visit_max M f rel s s' : 0 ≤ s.(max_h) → visit M f rel s = Ok s' → 0 ≤ s'.(max_h).
Proof.
  intros Hs. unfold visit.
  destruct (at_index (hm_code M) _) as [in_| |]; simpl; [|done..].
  destruct (at_index (height s) rel) as [h| |]; simpl; [|done..].
  destruct (h <? 0); [done|]. destruct (effect M f in_ h) as [e| |]; simpl; [|done..].
  destruct (match jump e with Some (t, th) => join_at f t th _ | None => Ok _ end)
    as [s2| |] eqn:Hj; simpl; [|done..].
  assert (0 ≤ s2.(max_h)) as H2.
  { destruct (jump e) as [[t th]|]; [apply join_at_max in Hj|injection Hj as <-]; simpl in *; lia. }
  destruct (index_checks M f in_); simpl; [|done..]. destruct (falls e); [|intros [= <-]; simpl; lia].
  destruct (_ <=? _); [done|]. intros ->%join_at_max. simpl. lia.
Qed.

Lemma heights_max M f n s s' :
  0 ≤ s.(max_h) → work_loop M f n s = Some (Ok s') → 0 ≤ s'.(max_h).
Proof.
  revert s. induction n as [|n IH]; intros s Hs; simpl;
    (destruct (work s) as [|rel rest]; [by intros [= <-]|]); [done|].
  destruct (visit _ _ _ _) as [s1| |] eqn:Hv; [|done..]. apply IH.
  by eapply visit_max, Hv.
Qed.

Lemma verify_func_spec M fi f :
  Forall meta_ok M.(hm_funcs) → meta_ok f →
  ∃ r, verify_func M fi f = Some r ∧ NoPanic r ∧
    ∀ f', r = Ok f' →
      (∃ n, f' = set_max_stack n f) ∧
      (accepted M f ∨ f.(fm_code_len) = 0 ∧ fi < M.(hm_n_host_imports)).
Proof.
  intros HM (H1 & H2 & H3 & H4 & H5). unfold verify_func.
  destruct (len M.(hm_code) <? _) eqn:Hs; [eexists; split_and!; [done|apply _|done]|].
  destruct (f.(fm_code_len) =? 0) eqn:Hz.
  { eexists. split_and!; [done|apply _|]. intros f'. destruct (fi <? _) eqn:Hi; [|done].
    intros [= <-]. split; [eauto|]. right. lia. }
  destruct (index_is_Some M.(hm_code) (f.(fm_code_off) + f.(fm_code_len) - 1)) as [last Hlast];
    [lia|].
  unfold at_index. rewrite Hlast.
  destruct (negb _ && _); [eexists; split_and!; [done|apply _|done]|].
  destruct (heights_spec M f HM) as (r & Hr & Hok); [lia|]. rewrite Hr.
  assert (NoPanic r) by (eapply work_loop_no_panic; [done| | |apply start_inv|exact Hr]; lia).
  destruct r as [s|e|w]; [|eexists; split_and!; [done|apply _|done]|by destruct (H w)].
  assert (0 ≤ s.(max_h)) by (by eapply heights_max, Hr).
  eexists. split_and!; [done|apply _|]. intros f'.
  destruct (_ <? 0) eqn:Hneg; [lia|]. destruct (65535 <? _) eqn:Hbig; [done|].
  intros [= <-]. split; [eauto|]. left. unfold accepted, span_ok. split_and!; [lia..|eauto].
Qed.

(** Equal up to [max_stack]. *)
Definition same_func (f f' : FuncMetaC) : Prop := ∃ n, f' = set_max_stack n f.

Lemma verify_funcs_spec M fi fs :
  Forall meta_ok M.(hm_funcs) → Forall meta_ok fs →
  ∃ r, verify_funcs M fi fs = Some r ∧ NoPanic r ∧
    ∀ fs', r = Ok fs' →
      Forall2 same_func fs fs' ∧
      ∀ (i : nat) f, fs !! i = Some f →
        accepted M f ∨ f.(fm_code_len) = 0 ∧ fi + Z.of_nat i < M.(hm_n_host_imports).
Proof.
  intros HM Hfs. revert fi. induction Hfs as [|f fs Hf _ IH]; intros fi; simpl.
  - eexists. split_and!; [done|apply _|]. intros fs' [= <-]. split; [constructor|done].
  - destruct (verify_func_spec M fi f HM Hf) as (r & -> & Hp & Hr).
    destruct r as [f'|e|w]; [|eexists; split_and!; [done|apply _|done]|by destruct (Hp w)].
    destruct (Hr f' eq_refl) as [Hsame Hacc].
    destruct (IH (fi + 1)) as (rs & -> & Hps & Hrs).
    destruct rs as [fs'|e|w]; [|eexists; split_and!; [done|apply _|done]|by destruct (Hps w)].
    destruct (Hrs fs' eq_refl) as [HF HA].
    eexists. split_and!; [done|apply _|]. intros ? [= <-]. split; [by constructor|].
    intros [|i] g; simpl; [intros [= <-]; by rewrite Z.add_0_r|].
    intros Hg. destruct (HA i g Hg) as [?|[? ?]]; [by left|right]. split; [done|lia].
Qed.

(** The verifier's verdict does not depend on [max_stack]. *)
Lemma index_Forall2 {A B} (P : A → B → Prop) l k i :
  Forall2 P l k →
  match index l i, index k i with
  | Some x, Some y => P x y
  | None, None => True
  | _, _ => False
  end.
Proof.
  intros HF. unfold index. destruct (0 <=? i); [|done].
  destruct (l !! Z.to_nat i) eqn:Hl.
  - destruct (Forall2_lookup_l _ _ _ _ _ HF Hl) as (y & -> & ?). done.
  - apply lookup_ge_None in Hl. rewrite (Forall2_length _ _ _ HF) in Hl.
    by rewrite (proj2 (lookup_ge_None k _)).
Qed.

Lemma effect_same M f f' fs in_ h :
  Forall2 same_func M.(hm_funcs) fs → same_func f f' →
  effect (set_funcs fs M) f' in_ h = effect M f in_ h.
Proof.
  intros HF [n ->]. unfold effect, call_effect, return_call_effect, callee. simpl.
  pose proof (index_Forall2 _ _ _ in_.(cu_b) HF) as Hi.
  destruct (index (hm_funcs M) _) as [g|], (index fs _) as [g'|]; try done.
  destruct Hi as [k ->]. done.
Qed.

Lemma accepted_same M f f' fs :
  Forall2 same_func M.(hm_funcs) fs → same_func f f' → accepted M f → accepted (set_funcs fs M) f'.
Proof.
  intros HF Hf (Hs & Hn & H & Hl & H0 & Hok). pose proof Hf as [n ->].
  split; [done|]. split; [done|]. exists H. split_and!; [done..|].
  intros rel h Hh Hh0. destruct (Hok rel h Hh Hh0) as (in_ & e & H1 & H2 & H3 & H4).
  exists in_, e. split_and!; [done| |done|apply H4..]. by rewrite (effect_same _ f).
Qed.

(** A module all of whose functions are accepted or host imports. *)
Definition verified (M : HostModule) : Prop :=
  Forall meta_ok M.(hm_funcs) ∧
  ∀ (i : nat) f, M.(hm_funcs) !! i = Some f →
    accepted M f ∨ f.(fm_code_len) = 0 ∧ Z.of_nat i < M.(hm_n_host_imports).

Lemma verify_cuop_verified M M' :
  Forall meta_ok M.(hm_funcs) → verify_cuop M = Some (Ok M') →
  ∃ fs, Forall2 same_func M.(hm_funcs) fs ∧ M' = set_funcs fs M ∧ verified M'.
Proof.
  intros HM Hv.
  destruct (verify_funcs_spec M 0 M.(hm_funcs) HM HM) as (r & Hr & _ & Hok).
  assert (∃ fs, r = Ok fs ∧ M' = set_funcs fs M) as (fs & -> & ->).
  { unfold verify_cuop in Hv. destruct (hm_funcs M), (hm_code M); try done.
    rewrite Hr in Hv. destruct r; simplify_eq. eauto. }
  destruct (Hok fs eq_refl) as [HF HA]. exists fs. split_and!; [done..|]. split; simpl.
  - apply Forall_lookup. intros i f' Hf'.
    destruct (Forall2_lookup_r _ _ _ _ _ HF Hf') as (f & Hf & n & ->).
    by apply (Forall_lookup_1 _ _ _ _ HM Hf).
  - intros i f' Hf'. destruct (Forall2_lookup_r _ _ _ _ _ HF Hf') as (f & Hf & Hsame).
    destruct (HA i f Hf) as [?|[Hz Hi]]; [left; by eapply accepted_same|right].
    by destruct Hsame as [n ->].
Qed.

(** ** Theorems *)

(** C19. [verify_cuop] ends on every module whose records hold unsigned numbers: the
    worklist of a function visits each op at most once, so [code_len + 1] rounds
    are enough, and no vector is indexed out of range on the way. *)
Theorem verify_terminates M :
  Forall meta_ok M.(hm_funcs) → ∃ r, verify_cuop M = Some r ∧ ∀ w, r ≠ Panic w.
Proof.
  intros HM. destruct (verify_funcs_spec M 0 M.(hm_funcs) HM HM) as (r & Hr & Hp & _).
  unfold verify_cuop. destruct (hm_funcs M), (hm_code M); try (by eexists).
  rewrite Hr. destruct r as [fs|e|w]; [by eexists..|]. by destruct (Hp w).
Qed.

(** A loop that counts its local down and a second function that calls it. *)
Definition count_module : HostModule :=
  mkHostModule
    [ mkCuOp OP_LOCAL_GET 0 0; mkCuOp OP_BR_IF_NOT 0 7; mkCuOp OP_LOCAL_GET 0 0;
      mkCuOp OP_I64_CONST 0 0; mkCuOp OP_I64_SUB 0 0; mkCuOp OP_LOCAL_SET 0 0; mkCuOp OP_BR 0 0;
      mkCuOp OP_END_FUNC 0 0;
      mkCuOp OP_LOCAL_GET 0 0; mkCuOp OP_CALL 0 0; mkCuOp OP_END_FUNC 0 0 ]
    [1] [mkFuncMeta 0 8 1 0 0 0; mkFuncMeta 8 3 1 0 0 0] [] [] [] 0 0 [] [] [] [] [] [0; 0] [0] 0 [] [] [] [].

Lemma verify_terminates_witness :
  (∃ M', verify_cuop count_module = Some (Ok M')) ∧
  ∃ r, verify_cuop count_module = Some r ∧ ∀ w, r ≠ Panic w.
Proof.
  split; [eexists; vm_compute; reflexivity|].
  apply (verify_terminates count_module). apply (bool_decide_eq_true_1 _). vm_compute. reflexivity.
Defined.
