(* ===== verification/VerifyComplete.v ===== *)
(** * The verifier accepts what has a typing

    [VerifyFacts] shows that an accepted function has a height assignment.  The converse:
    with an assignment whose heights fit the stack bound, the worklist never finds two
    heights for an op, so the function is accepted.  The worklist computes the smallest
    assignment. *)

From S2P Require Import Prelude Cuop Wasm Lower EnvTable Module Engine Verify VerifyFacts.
From stdpp Require Import base list strings.

Local Open Scope Z_scope.

(** ** Functions the verifier should accept *)

Definition ends_function (M : HostModule) (f : FuncMetaC) : Prop :=
  ∃ in_, index M.(hm_code) (f.(fm_code_off) + f.(fm_code_len) - 1) = Some in_ ∧
    (in_.(cu_op) = OP_RETURN ∨ in_.(cu_op) = OP_END_FUNC).

(** Heights that leave room for the locals below them in [max_stack], a [uint16_t]. *)
Definition in_bounds (f : FuncMetaC) (H : list Z) : Prop :=
  ∀ rel h, index H rel = Some h → f.(fm_n_params) + f.(fm_n_locals) + h ≤ 65535.

Definition typable (M : HostModule) (f : FuncMetaC) : Prop :=
  span_ok M f ∧ ends_function M f ∧ ∃ H, typed M f H ∧ in_bounds f H.

(** An import, whose calls the host serves. *)
Definition imported (M : HostModule) (i : nat) (f : FuncMetaC) : Prop :=
  f.(fm_code_len) = 0 ∧ Z.of_nat i < M.(hm_n_host_imports) ∧ f.(fm_code_off) ≤ len M.(hm_code).

(** ** Completeness *)

Lemma effect_stays M f in_ h e : effect M f in_ h = Ok e → e.(falls) = false → e.(next_h) = h.
Proof.
  unfold effect. destruct (op_lookup _ height_table) as [[[n net] er]|]; [intros H; by inv_need|].
  repeat match goal with |- (if ?b then _ else _) = _ → _ => destruct b end; intros H;
    unfold unwind_effect, br_effect, br_if_not_effect, call_effect, return_call_effect,
      call_host_effect, call_indirect_effect in H; by inv_need.
Qed.

Section complete.
Context (M : HostModule) (f : FuncMetaC) (H : list Z) (HT : typed M f H) (HB : in_bounds f H).

(** The loop has found a part of the assignment. *)
Record below (s : VState) : Prop := {
  bl_len : len s.(height) = len H;
  bl_set : ∀ i h, index s.(height) i = Some h → 0 ≤ h → index H i = Some h;
  bl_work : ∀ i, i ∈ s.(work) → ∃ h, index s.(height) i = Some h ∧ 0 ≤ h;
  bl_max : f.(fm_n_params) + f.(fm_n_locals) + s.(max_h) ≤ 65535 }.

Lemma join_below rel h s :
  below s → index H rel = Some h → 0 ≤ h → ∃ s', join_at f rel h s = Ok s' ∧ below s'.
Proof.
  intros [B1 B2 B3 B4] Hrel Hh. pose proof (index_lt _ _ _ Hrel) as Hlt. unfold join_at.
  destruct (index_is_Some s.(height) rel) as [h0 Hh0]; [by rewrite B1|]. rewrite Hh0.
  destruct (h0 <? 0) eqn:Hneg.
  - eexists. split; [done|]. split; simpl; [by rewrite len_insert|..]; try done.
    + intros i x Hx. pose proof (index_lt _ _ _ Hx) as [Hi _]. rewrite index_insert in Hx by lia.
      destruct (decide (rel = i)) as [<-|]; [by simplify_eq|by apply B2].
    + intros i Hi. apply elem_of_cons in Hi as [->|Hi].
      * exists h. rewrite index_insert by lia. by rewrite decide_True.
      * destruct (B3 i Hi) as (x & Hx & Hx0). pose proof (index_lt _ _ _ Hx) as [Hi0 _].
        rewrite index_insert by lia. destruct (decide (rel = i)); eauto.
  - assert (h0 = h) as -> by (apply B2 in Hh0; [by simplify_eq|lia]).
    rewrite (proj2 (Z.eqb_eq h h)) by done. by eexists.
Qed.

Lemma below_max s n : below s → f.(fm_n_params) + f.(fm_n_locals) + n ≤ 65535 → below (mkVState s.(height) s.(work) (Z.max s.(max_h) n)).
Proof. intros [B1 B2 B3 B4] Hn. split; try done. simpl. lia. Qed.

Lemma visit_below rel h s :
  below s → index s.(height) rel = Some h → 0 ≤ h → ∃ s', visit M f rel s = Ok s' ∧ below s'.
Proof using HT HB.
  intros HS Hh H0. pose proof (bl_set _ HS _ _ Hh H0) as HhH.
  destruct HT as (HL & _ & Hok). destruct (Hok rel h HhH H0) as (in_ & e & Hin & He & Hc & Hj & Hf).
  unfold visit, at_index. rewrite Hin. simpl. rewrite Hh. simpl. rewrite (proj2 (Z.ltb_ge h 0)) by done.
  rewrite He. simpl. set (s1 := mkVState _ _ _).
  assert (below s1) as HS1 by (apply below_max; [done|by apply (HB rel)]).
  assert (∃ s2, match jump e with Some (t, th) => join_at f t th s1 | None => Ok s1 end = Ok s2 ∧ below s2)
    as (s2 & -> & HS2).
  { destruct (jump e) as [[t th]|]; [|by eexists]. destruct (Hj t th eq_refl). by apply join_below. }
  simpl. rewrite Hc. simpl. set (s3 := mkVState _ _ _). assert (below s3) as HS3.
  { apply below_max; [done|]. destruct (falls e) eqn:Hfe.
    - by apply (HB (rel + 1)), Hf.
    - rewrite (effect_stays _ _ _ _ _ He Hfe). by apply (HB rel). }
  destruct (falls e); [|by eexists]. destruct (Hf eq_refl) as [Hn Hn0].
  pose proof (index_lt _ _ _ Hn) as [_ Hlt]. rewrite (proj2 (Z.leb_gt _ _)) by lia. by apply join_below.
Qed.

Lemma work_loop_below n s r : below s → work_loop M f n s = Some r → ∃ s', r = Ok s' ∧ below s'.
Proof using HT HB.
  revert s. induction n as [|n IH]; intros s HS; simpl;
    (destruct (work s) as [|rel rest] eqn:Hw; [by intros [= <-]; eexists|]); [done|].
  destruct (bl_work _ HS rel) as (h & Hh & H0); [rewrite Hw; by left|].
  destruct (visit_below rel h (mkVState s.(height) rest s.(max_h))) as (s' & -> & HS'); [|done..|by apply IH].
  destruct HS as [B1 B2 B3 B4]. split; try done. simpl. intros i Hi. apply B3. rewrite Hw. by right.
Qed.

Lemma start_below : 0 < f.(fm_code_len) → below (start_state f).
Proof using HT HB.
  intros Hl. destruct HT as (HL & H0 & _). pose proof (start_inv M f Hl) as (L1 & L2 & L3 & L4).
  split; [by rewrite L1|..]; [|exact L3|].
  - intros i h Hi Hi0. destruct (decide (i = 0)) as [->|Hne]; [congruence|]. exfalso.
    unfold start_state in Hi. simpl in Hi. pose proof (index_lt _ _ _ Hi) as [Hi1 _].
    assert (len (replicate (Z.to_nat f.(fm_code_len)) (-1)) = f.(fm_code_len)) as Hlen
      by (unfold len; rewrite length_replicate; lia).
    change 0%nat with (Z.to_nat 0) in Hi. rewrite (index_insert _ 0) in Hi by lia.
    rewrite decide_False in Hi by done. apply index_Some in Hi as [_ Hi%lookup_replicate_1]. lia.
  - pose proof (HB 0 0 H0). simpl. lia.
Qed.
End complete.

(** ** The bound *)

(** Every height found so far is below the maximum, or still to be visited. *)
Definition peaked (s : VState) : Prop :=
  ∀ i h, index s.(height) i = Some h → i ∈ s.(work) ∨ h ≤ s.(max_h).

Lemma visit_grows_max M f rel s s' :
  visit M f rel s = Ok s' → s.(max_h) ≤ s'.(max_h) ∧ ∀ h, index s.(height) rel = Some h → h ≤ s'.(max_h).
Proof.
  unfold visit, at_index. destruct (index (hm_code M) _) as [in_|]; [|done]. simpl.
  destruct (index (height s) rel) as [h|]; [|done]. simpl. destruct (h <? 0); [done|].
  destruct (effect M f in_ h) as [e| |]; simpl; [|done..].
  destruct (match jump e with Some (t, th) => join_at f t th _ | None => Ok _ end)
    as [s2| |] eqn:Hj; simpl; [|done..].
  assert (s2.(max_h) = Z.max s.(max_h) h) as H2.
  { destruct (jump e) as [[t th]|]; [by apply join_at_max in Hj|by injection Hj as <-]. }
  destruct (index_checks M f in_); simpl; [|done..]. intros Hret.
  assert (Z.max s2.(max_h) e.(next_h) ≤ s'.(max_h)) as Hle.
  { destruct (falls e); [|by injection Hret as <-]. destruct (_ <=? _); [done|]. by apply join_at_max in Hret as ->. }
  split; [lia|]. intros h' [= <-]. lia.
Qed.

Lemma visit_peaked M f rel rest s s' :
  Forall meta_ok M.(hm_funcs) → s.(work) = rel :: rest → peaked s → 0 ≤ s.(max_h) →
  visit M f rel (mkVState s.(height) rest s.(max_h)) = Ok s' → peaked s' ∧ 0 ≤ s'.(max_h).
Proof.
  intros HM Hw HP H0 Hv. destruct (visit_grows_max _ _ _ _ _ Hv) as [Hm Hrel]. simpl in *.
  apply visit_spec in Hv as [(_ & _ & Win & _ & Hnew) _]; [|done]. simpl in *. split; [|lia]. intros i h Hi.
  destruct (decide (0 ≤ h)) as [Hh|]; [|right; lia]. destruct (Hnew i h Hi Hh) as [?|Hold]; [by left|].
  destruct (HP i h Hold) as [Hin|]; [|right; lia]. rewrite Hw in Hin.
  apply elem_of_cons in Hin as [->|Hin]; [right; by apply Hrel|left; by apply Win].
Qed.

Lemma work_loop_peaked M f n s s' :
  Forall meta_ok M.(hm_funcs) → peaked s → 0 ≤ s.(max_h) → work_loop M f n s = Some (Ok s') → peaked s'.
Proof.
  intros HM. revert s. induction n as [|n IH]; intros s HP H0; simpl;
    (destruct (work s) as [|rel rest] eqn:Hw; [by intros [= <-]|]); [done|].
  destruct (visit _ _ _ _) as [s1| |] eqn:Hv; [|done..].
  destruct (visit_peaked M f rel rest s s1); try done. by apply IH.
Qed.

Lemma start_peaked f : peaked (start_state f).
Proof.
  intros i h Hi. unfold start_state in *. simpl in *. pose proof (index_lt _ _ _ Hi) as [Hi0 Hlt].
  rewrite len_insert in Hlt. change 0%nat with (Z.to_nat 0) in Hi. rewrite (index_insert _ 0) in Hi by lia.
  destruct (decide (0 = i)) as [<-|]; [left; by left|right]. apply index_Some in Hi as [_ Hi%lookup_replicate_1]. lia.
Qed.

(** ** Functions and modules *)

Lemma work_loop_empty M f n s s' : work_loop M f n s = Some (Ok s') → s'.(work) = [].
Proof.
  revert s. induction n as [|n IH]; intros s; simpl;
    (destruct (work s) as [|rel rest] eqn:Hw; [by intros [= <-]|]); [done|].
  destruct (visit _ _ _ _); [apply IH|done..].
Qed.

Lemma heights_bounds M f s :
  Forall meta_ok M.(hm_funcs) → heights M f = Some (Ok s) → f.(fm_n_params) + f.(fm_n_locals) + s.(max_h) ≤ 65535 →
  in_bounds f s.(height).
Proof.
  intros HM Hs Hb rel h Hh. assert (peaked s) as HP.
  { eapply work_loop_peaked; [done|apply start_peaked| |exact Hs]. done. }
  destruct (HP rel h Hh) as [Hin|]; [|lia]. rewrite (work_loop_empty _ _ _ _ _ Hs) in Hin. by apply not_elem_of_nil in Hin.
Qed.

(** A function is accepted exactly when it is typable or an import. *)
Lemma verify_func_iff M (i : nat) f :
  Forall meta_ok M.(hm_funcs) → meta_ok f →
  (∃ f', verify_func M (Z.of_nat i) f = Some (Ok f')) ↔ typable M f ∨ imported M i f.
Proof.
  intros HM (H1 & H2 & H3 & H4 & H5). unfold verify_func.
  destruct (len M.(hm_code) <? _) eqn:Hs.
  { split; [by intros [f' [=]]|]. intros [((_ & _ & ?) & _)|(? & _ & ?)]; lia. }
  destruct (f.(fm_code_len) =? 0) eqn:Hz.
  { split.
    - intros [f' [= Hf']]. right. destruct (Z.of_nat i <? M.(hm_n_host_imports)) eqn:Hi; [|done].
      unfold imported. lia.
    - intros [((_ & ? & _) & _)|(_ & Hi & _)]; [lia|]. rewrite (proj2 (Z.ltb_lt _ _) Hi). by eexists. }
  destruct (index_is_Some M.(hm_code) (f.(fm_code_off) + f.(fm_code_len) - 1)) as [last Hlast]; [lia|].
  unfold at_index. rewrite Hlast. destruct (heights_spec M f HM) as (r & Hr & Hok); [lia|]. rewrite Hr.
  destruct (negb _ && _) eqn:Hend.
  { split; [by intros [f' [=]]|]. intros [(_ & (in_ & Hin & Hop) & _)|(? & _)]; [|lia]. rewrite Hlast in Hin.
    injection Hin as <-. apply andb_true_iff in Hend as [E1 E2]. apply negb_true_iff, Z.eqb_neq in E1, E2. by destruct Hop. }
  assert (span_ok M f) as Hspan by (unfold span_ok; lia).
  assert (ends_function M f) as Hends.
  { exists last. split; [done|]. apply andb_false_iff in Hend as [E|E]; apply negb_false_iff, Z.eqb_eq in E; auto. }
  split.
  - intros [f' Hf']. left. split; [done|]. split; [done|]. destruct r as [s| |]; [|done..]. injection Hf' as Hf'.
    exists s.(height). split; [done|]. apply (heights_bounds M); [done..|]. destruct (_ <? 0) eqn:Hn; [lia|].
    destruct (65535 <? _) eqn:Hbig; [done|]. lia.
  - intros [(_ & _ & H & HT & HB)|(? & _)]; [|lia].
    destruct (work_loop_below M f H HT HB _ _ r (start_below M f H HT HB ltac:(lia)) Hr) as (s & -> & [_ _ _ Hmax]).
    destruct (_ <? 0); [by eexists|]. rewrite (proj2 (Z.ltb_ge _ _)) by done. by eexists.
Qed.

Lemma verify_funcs_iff M (i : nat) fs :
  Forall meta_ok M.(hm_funcs) → Forall meta_ok fs →
  (∃ fs', verify_funcs M (Z.of_nat i) fs = Some (Ok fs')) ↔
  ∀ j f, fs !! j = Some f → typable M f ∨ imported M (i + j) f.
Proof.
  intros HM Hfs. revert i. induction Hfs as [|f fs Hf _ IH]; intros i; simpl; [split; [done|by eexists]|].
  pose proof (verify_func_iff M i f HM Hf) as Hiff. specialize (IH (S i)).
  replace (Z.of_nat (S i)) with (Z.of_nat i + 1) in IH by lia. split.
  - destruct (verify_func _ _ _) as [[f'| |]|]; [|by intros [fs' [=]]..].
    destruct (verify_funcs _ _ _) as [[fs'| |]|]; [|by intros [fs1 [=]]..]. intros _ [|j] g; simpl.
    + intros [= <-]. rewrite Nat.add_0_r. apply Hiff. eauto.
    + rewrite <-Nat.add_succ_comm. apply IH. eauto.
  - intros Hall. destruct (proj2 Hiff) as [f' ->]; [specialize (Hall 0%nat f eq_refl); by rewrite Nat.add_0_r in Hall|].
    destruct (proj2 IH) as [fs' ->]; [|by eexists]. intros j g Hg. rewrite Nat.add_succ_comm. by apply Hall.
Qed.

(** ** Theorem *)

(** C11. The verifier is sound and complete for typings: it accepts a module exactly when
    the module has functions and code, and each function is an import or has a typing: its
    code lies in the module and ends in [return] or [end_func], and there are heights for
    its ops, starting at zero and closed under control flow, that pass the checks of every
    op and leave room for the locals in 65535 slots. *)
Theorem verify_cuop_iff M :
  Forall meta_ok M.(hm_funcs) →
  (∃ M', verify_cuop M = Some (Ok M')) ↔
  M.(hm_funcs) ≠ [] ∧ M.(hm_code) ≠ [] ∧
  ∀ i f, M.(hm_funcs) !! i = Some f → typable M f ∨ imported M i f.
Proof.
  intros HM. pose proof (verify_funcs_iff M 0 M.(hm_funcs) HM HM) as Hiff.
  simpl in Hiff. rewrite <-Hiff. change (Z.of_nat 0) with 0.
  unfold verify_cuop. destruct (hm_funcs M) as [|f0 fs] eqn:Hf; [by split; [intros [M' [=]]|intros (? & _)]|].
  destruct (hm_code M) as [|c0 cs] eqn:Hc; [by split; [intros [M' [=]]|intros (_ & ? & _)]|].
  destruct (verify_funcs M 0 (f0 :: fs)) as [[fs'| |]|].
  - split; [intros _; split_and!; [done..|by eexists]|by eexists].
  - by split; [intros [M' [=]]|intros (_ & _ & fs' & [=])].
  - by split; [intros [M' [=]]|intros (_ & _ & fs' & [=])].
  - by split; [intros [M' [=]]|intros (_ & _ & fs' & [=])].
Qed.

(** [count_module] is accepted; the height of its loop's branch target is found once. *)
Lemma verify_cuop_iff_witness :
  (∃ M', verify_cuop count_module = Some (Ok M')) ∧
  ∀ i f, count_module.(hm_funcs) !! i = Some f → typable count_module f ∨ imported count_module i f.
Proof.
  assert (∃ M', verify_cuop count_module = Some (Ok M')) as Hv by (eexists; vm_compute; reflexivity).
  split; [exact Hv|]. apply (verify_cuop_iff count_module); [|exact Hv].
  apply (bool_decide_eq_true_1 _). vm_compute. reflexivity.
Defined.
