(* ===== verification/EngineNum.v ===== *)
(** * Arithmetic of the engine

    The routines of the interpreter that compute more than one machine operation:
    leading zeros, the 128-bit product, sum and difference, and the bytes of
    memory. *)

From S2P Require Import Prelude Cuop Wasm Lower EnvTable Module Engine.
From stdpp Require Import base list strings.

Local Open Scope Z_scope.

(** ** Leading zeros *)

Lemma land_bit v k : 0 ≤ k → (Z.land v (Z.shiftl 1 k) =? 0) = negb (Z.testbit v k).
Proof.
  intros Hk. rewrite Z.shiftl_1_l. destruct (Z.testbit v k) eqn:Hb; simpl.
  - apply Z.eqb_neq. intros H0.
    assert (Z.testbit (Z.land v (2 ^ k)) k = true) as Ht
      by (rewrite Z.land_spec, Hb, Z.pow2_bits_true; done).
    by rewrite H0, Z.bits_0 in Ht.
  - apply Z.eqb_eq, Z.bits_inj'. intros i Hi. rewrite Z.land_spec, Z.bits_0.
    destruct (decide (i = k)) as [->|]; [by rewrite Hb|].
    rewrite Z.pow2_bits_false by done. apply andb_false_r.
Qed.

Lemma testbit_top v k : 0 ≤ k → 0 < v < 2 ^ (k + 1) → Z.testbit v k = negb (v <? 2 ^ k).
Proof.
  intros Hk Hv. rewrite Z.pow_add_r in Hv by lia.
  rewrite Z.testbit_odd, Z.shiftr_div_pow2 by lia.
  destruct (v <? 2 ^ k) eqn:Hlt; simpl.
  - rewrite Z.div_small by lia. done.
  - assert (v / 2 ^ k = 1) as ->; [|done].
    symmetry. apply (Z.div_unique v (2 ^ k) 1 (v - 2 ^ k)); lia.
Qed.

Lemma clz_loop_spec v k n :
  0 < v < 2 ^ (Z.of_nat k + 1) → clz_loop v k n = Some (n + Z.of_nat k - Z.log2 v).
Proof.
  revert n. induction k as [|k IH]; intros n Hv.
  - assert (v = 1) as -> by (change (2 ^ (Z.of_nat 0 + 1)) with 2 in Hv; lia).
    simpl. f_equal. lia.
  - cbn [clz_loop]. rewrite land_bit, testbit_top, negb_involutive by lia.
    destruct (v <? 2 ^ Z.of_nat (S k)) eqn:Hlt.
    + rewrite IH; [f_equal; lia|]. replace (Z.of_nat k + 1) with (Z.of_nat (S k)) by lia.
      apply Z.ltb_lt in Hlt. by split; [lia|].
    + f_equal. apply Z.ltb_ge in Hlt. rewrite (Z.log2_unique v (Z.of_nat (S k))); [lia|lia|].
      unfold Z.succ. by split; [|lia].
Qed.

Lemma land_u32 v : Z.land v 4294967295 = u32 v.
Proof. change 4294967295 with (Z.ones 32). by apply Z.land_ones. Qed.

Lemma clz_spec bits v :
  bits = 32 ∨ bits = 64 → 0 ≤ v < 2 ^ 64 →
  let x := if bits =? 32 then u32 v else v in
  ∃ n, clz bits v = Some n ∧ 0 ≤ n ≤ bits ∧ x < 2 ^ (bits - n) ∧ (0 < x → 2 ^ (bits - n - 1) ≤ x).
Proof.
  intros Hb Hv x. unfold clz. rewrite land_u32. fold x.
  assert (0 ≤ x < 2 ^ bits) as Hx.
  { subst x. destruct Hb as [-> | ->]; simpl; [apply u32_range|lia]. }
  destruct (x =? 0) eqn:Hz.
  - exists bits. apply Z.eqb_eq in Hz. split_and!; [done|lia|lia| |lia].
    rewrite Hz, Z.sub_diag. done.
  - replace (64 <? bits) with false by lia. rewrite clz_loop_spec.
    + eexists. split; [done|]. rewrite Z2Nat.id by lia.
      pose proof (Z.log2_spec x ltac:(lia)) as Hlog. pose proof (Z.log2_nonneg x).
      assert (Z.log2 x < bits) by (apply Z.log2_lt_pow2; lia).
      replace (bits - (0 + (bits - 1) - Z.log2 x)) with (Z.succ (Z.log2 x)) by lia.
      split_and!; [lia..|]. intros _. replace (Z.succ (Z.log2 x) - 1) with (Z.log2 x) by lia. lia.
    + replace (Z.of_nat (Z.to_nat (bits - 1)) + 1) with bits by lia. lia.
Qed.

(** [OP_CLZ] counts the leading zeros of its 32- or 64-bit operand; in
    particular its loop ends. *)
Theorem clz_correct bits v :
  bits = 32 ∨ bits = 64 → 0 ≤ v < 2 ^ 64 →
  let x := if bits =? 32 then u32 v else v in
  ∃ n, clz bits v = Some n ∧ 0 ≤ n ≤ bits ∧ x < 2 ^ (bits - n) ∧ (0 < x → 2 ^ (bits - n - 1) ≤ x).
Proof. apply clz_spec. Qed.

Lemma clz_correct_witness :
  clz 32 1234 = Some 21 ∧ 0 ≤ 21 ≤ 32.
Proof.
  destruct (clz_correct 32 1234) as (n & Hn & Hr & _); [left; reflexivity|lia|].
  split; [reflexivity|]. vm_compute in Hn. injection Hn as <-. exact Hr.
Defined.

(** ** 128-bit arithmetic *)

Lemma mul_wide_u_spec a b :
  0 ≤ a < 2 ^ 64 → 0 ≤ b < 2 ^ 64 →
  ∃ lo hi, mul_wide_u a b = (lo, hi) ∧ 0 ≤ lo < 2 ^ 64 ∧ 0 ≤ hi < 2 ^ 64 ∧
    lo + 2 ^ 64 * hi = a * b.
Proof.
  intros Ha Hb. unfold mul_wide_u. rewrite !Z.shiftr_div_pow2 by lia.
  set (a0 := u32 a). set (b0 := u32 b).
  assert (a = a0 + 2 ^ 32 * (a / 2 ^ 32) ∧ 0 ≤ a0 < 2 ^ 32) as [Ea Ha0]
    by (unfold a0, u32; Z.to_euclidean_division_equations; lia).
  assert (b = b0 + 2 ^ 32 * (b / 2 ^ 32) ∧ 0 ≤ b0 < 2 ^ 32) as [Eb Hb0]
    by (unfold b0, u32; Z.to_euclidean_division_equations; lia).
  assert (0 ≤ a / 2 ^ 32 < 2 ^ 32) as Ha1 by (Z.to_euclidean_division_equations; lia).
  assert (0 ≤ b / 2 ^ 32 < 2 ^ 32) as Hb1 by (Z.to_euclidean_division_equations; lia).
  revert Ea Eb Ha1 Hb1. generalize (a / 2 ^ 32) as a1. generalize (b / 2 ^ 32) as b1.
  intros b1 a1 Ea Eb Ha1 Hb1.
  rewrite !(u64_id (_ * _)) by nia.
  set (p0 := a0 * b0). set (p1 := a0 * b1). set (p2 := a1 * b0). set (p3 := a1 * b1).
  assert (0 ≤ p0 < 2 ^ 64 ∧ 0 ≤ p1 < 2 ^ 64 ∧ 0 ≤ p2 < 2 ^ 64 ∧ 0 ≤ p3 < 2 ^ 64)
    as (Hp0 & Hp1 & Hp2 & Hp3) by (subst p0 p1 p2 p3; nia).
  assert (a * b = p0 + 2 ^ 32 * (p1 + p2) + 2 ^ 64 * p3) as Hab
    by (rewrite Ea, Eb; subst p0 p1 p2 p3; ring).
  assert (a * b < 2 ^ 128) as Hlt by nia.
  clearbody p0 p1 p2 p3.
  pose proof (u32_range p1). pose proof (u32_range p2).
  assert (0 ≤ p0 / 2 ^ 32 < 2 ^ 32) by (Z.to_euclidean_division_equations; lia).
  rewrite (u64_id (p0 / 2 ^ 32 + u32 p1)) by lia.
  rewrite (u64_id (p0 / 2 ^ 32 + u32 p1 + u32 p2)) by lia.
  set (c := p0 / 2 ^ 32 + u32 p1 + u32 p2).
  rewrite land_u32, Z.shiftl_mul_pow2 by lia.
  assert (u64 (c * 2 ^ 32) = Z.shiftl (u32 c) 32) as ->.
  { unfold u64, u32. rewrite Z.shiftl_mul_pow2 by lia.
    change (2 ^ 64) with (2 ^ 32 * 2 ^ 32). apply Zmult_mod_distr_r. }
  rewrite lor_shiftl by (pose proof (u32_range p0); pose proof (u32_range c); lia).
  set (hi := p3 + p1 / 2 ^ 32 + p2 / 2 ^ 32 + c / 2 ^ 32).
  assert (u32 p0 + u32 c * 2 ^ 32 + 2 ^ 64 * hi = a * b ∧ 0 ≤ hi ∧ 0 ≤ u32 c < 2 ^ 32 ∧
          0 ≤ u32 p0 < 2 ^ 32) as (Hsum & Hhi & Hc & Hr0).
  { rewrite Hab. subst hi c. clear Hlt Ea Eb Hab. unfold u32 in *.
    Z.to_euclidean_division_equations. lia. }
  rewrite (u64_id hi) by lia. eexists _, _. split_and!; [done|lia..].
Qed.

(** [i64.mul_wide_u] pushes the exact 128-bit product of its operands, low half
    first, although it is computed from 32-bit halves in 64-bit arithmetic. *)
Theorem mul_wide_u_correct a b :
  0 ≤ a < 2 ^ 64 → 0 ≤ b < 2 ^ 64 →
  let '(lo, hi) := mul_wide_u a b in
  0 ≤ lo < 2 ^ 64 ∧ 0 ≤ hi < 2 ^ 64 ∧ lo + 2 ^ 64 * hi = a * b.
Proof. intros Ha Hb. destruct (mul_wide_u_spec a b Ha Hb) as (lo & hi & -> & H). done. Qed.

Lemma mul_wide_u_correct_witness :
  mul_wide_u (2 ^ 64 - 1) (2 ^ 64 - 1) = (1, 2 ^ 64 - 2) ∧
  1 + 2 ^ 64 * (2 ^ 64 - 2) = (2 ^ 64 - 1) * (2 ^ 64 - 1).
Proof.
  pose proof (mul_wide_u_correct (2 ^ 64 - 1) (2 ^ 64 - 1)) as H.
  split; [vm_compute; reflexivity|]. apply H; lia.
Defined.

(** The signed value of a [lo, hi] pair. *)
Definition i128 (z : Z) : Z := (z + 2 ^ 127) mod 2 ^ 128 - 2 ^ 127.

(** The sign bit: [1] for a negative operand. *)
Definition neg (x : Z) : Z := if i64 x <? 0 then 1 else 0.

Lemma i64_neg x : 0 ≤ x < 2 ^ 64 → i64 x = x - 2 ^ 64 * neg x.
Proof.
  intros Hx. unfold neg, i64. destruct (_ <? 0) eqn:?;
    revert Heqb; Z.to_euclidean_division_equations; lia.
Qed.

Lemma u64_sub x y : u64 (u64 x - y) = u64 (x - y).
Proof. unfold u64. by rewrite Zminus_mod_idemp_l. Qed.

Lemma mul_wide_s_hi a b hi :
  0 ≤ hi < 2 ^ 64 →
  (let h1 := if i64 a <? 0 then u64 (hi - b) else hi in
   if i64 b <? 0 then u64 (h1 - a) else h1) = u64 (hi - neg a * b - neg b * a).
Proof.
  intros Hhi. unfold neg. destruct (i64 a <? 0), (i64 b <? 0); simpl;
    rewrite ?u64_sub, ?Z.mul_1_l, ?Z.sub_0_r; try done.
  symmetry. by apply u64_id.
Qed.

Lemma i128_mod z k : i128 (z + 2 ^ 128 * k) = i128 z.
Proof.
  unfold i128. f_equal. replace (z + 2 ^ 128 * k + 2 ^ 127) with (z + 2 ^ 127 + k * 2 ^ 128) by ring.
  by rewrite Z_mod_plus_full.
Qed.

Lemma i128_u64 lo x : i128 (lo + 2 ^ 64 * u64 x) = i128 (lo + 2 ^ 64 * x).
Proof.
  rewrite <-(i128_mod _ (x / 2 ^ 64)). f_equal. unfold u64.
  Z.to_euclidean_division_equations. lia.
Qed.

(** [i64.mul_wide_s] pushes the two's complement of the signed product. *)
Theorem mul_wide_s_correct a b :
  0 ≤ a < 2 ^ 64 → 0 ≤ b < 2 ^ 64 →
  let '(lo, hi) := mul_wide_s a b in
  0 ≤ lo < 2 ^ 64 ∧ 0 ≤ hi < 2 ^ 64 ∧ i128 (lo + 2 ^ 64 * hi) = i64 a * i64 b.
Proof.
  intros Ha Hb. unfold mul_wide_s.
  destruct (mul_wide_u_spec a b Ha Hb) as (lo & hi & -> & Hlo & Hhi & Hp).
  pose proof (mul_wide_s_hi a b hi Hhi) as Heq. cbn zeta in Heq. rewrite Heq.
  split_and!; [lia..|apply u64_range|apply u64_range|].
  rewrite i128_u64. rewrite <-(i128_mod _ (neg a * neg b)).
  replace (lo + 2 ^ 64 * (hi - neg a * b - neg b * a) + 2 ^ 128 * (neg a * neg b))
    with (i64 a * i64 b) by (rewrite !i64_neg by done; nia).
  unfold i128. rewrite Z.mod_small; [lia|].
  assert (- 2 ^ 63 ≤ i64 a < 2 ^ 63 ∧ - 2 ^ 63 ≤ i64 b < 2 ^ 63) as [??]
    by (unfold i64; Z.to_euclidean_division_equations; lia).
  nia.
Qed.

Lemma mul_wide_s_correct_witness :
  mul_wide_s (2 ^ 64 - 3) 5 = (2 ^ 64 - 15, 2 ^ 64 - 1) ∧
  i128 (2 ^ 64 - 15 + 2 ^ 64 * (2 ^ 64 - 1)) = -15.
Proof.
  pose proof (mul_wide_s_correct (2 ^ 64 - 3) 5) as H.
  split; [vm_compute; reflexivity|]. apply H; lia.
Defined.

(** [i64.add128] and [i64.sub128] are addition and subtraction modulo [2^128]
    of two numbers given as a low and a high half. *)
Theorem add_sub_128_correct ll lh rl rh :
  0 ≤ ll < 2 ^ 64 → 0 ≤ lh < 2 ^ 64 → 0 ≤ rl < 2 ^ 64 → 0 ≤ rh < 2 ^ 64 →
  let val p := p.1 + 2 ^ 64 * p.2 in
  val (add128 ll lh rl rh) = (val (ll, lh) + val (rl, rh)) mod 2 ^ 128 ∧
  val (sub128 ll lh rl rh) = (val (ll, lh) - val (rl, rh)) mod 2 ^ 128.
Proof.
  intros H1 H2 H3 H4. unfold add128, sub128, u64. simpl. split.
  - destruct (_ <? ll) eqn:Hc; revert Hc; Z.to_euclidean_division_equations; lia.
  - destruct (ll <? rl) eqn:Hc; revert Hc; Z.to_euclidean_division_equations; lia.
Qed.

Lemma add_sub_128_correct_witness :
  add128 (2 ^ 64 - 1) 0 1 7 = (0, 8) ∧
  0 + 2 ^ 64 * 8 = (2 ^ 64 - 1 + (1 + 2 ^ 64 * 7)) mod 2 ^ 128.
Proof.
  destruct (add_sub_128_correct (2 ^ 64 - 1) 0 1 7) as [H _]; [lia..|].
  split; [reflexivity|]. exact H.
Defined.
