(* ===== verification/EngineMem.v ===== *)
(** * Loads, stores and moves

    The byte loops of the memory ops against what they are meant to compute: a
    little-endian number, and the overlapping copy of [memory.copy]. *)

From S2P Require Import Prelude Cuop Wasm Lower EnvTable Module Engine EngineNum VerifyFacts.
From stdpp Require Import base list strings.

Local Open Scope Z_scope.

(** The byte at address [a]. *)
Definition byte (m : Machine) (a : Z) : option Z := index m.(memory) a.

Lemma mem_at_eq a m v : byte m a = Some v → mem_at a m = (Val v, m).
Proof.
  unfold byte. intros Hv. unfold mem_at, mbind, EM_bind, get, rd. by rewrite Hv.
Qed.

Lemma mem_set_eq a v m :
  0 ≤ a < len m.(memory) →
  mem_set a v m = (Val tt, upd_memory (<[Z.to_nat a := v]> m.(memory)) m).
Proof.
  intros Ha. unfold mem_set, mbind, EM_bind, get, in_range.
  by replace ((0 <=? a) && (a <? len (memory m))) with true by lia.
Qed.

Lemma byte_set a b v m :
  0 ≤ a < len m.(memory) → 0 ≤ b →
  byte (upd_memory (<[Z.to_nat a := v]> m.(memory)) m) b = if decide (a = b) then Some v else byte m b.
Proof. intros. unfold byte. simpl. by apply index_insert. Qed.

(** ** Little-endian numbers *)

(** A store writes the bytes of the value and nothing else. *)
Lemma mem_store_spec n ea i v m :
  0 ≤ ea + i → ea + i + Z.of_nat n ≤ len m.(memory) →
  ∃ m', mem_store_le ea i n v m = (Val tt, m') ∧ len m'.(memory) = len m.(memory) ∧
    ∀ a, 0 ≤ a →
      byte m' a = if bool_decide (ea + i ≤ a < ea + i + Z.of_nat n)
                  then Some (u8 (Z.shiftr v (8 * (a - ea)))) else byte m a.
Proof.
  revert i m. induction n as [|n IH]; intros i m H0 Hn.
  - exists m. split_and!; [done..|]. intros a Ha. by rewrite bool_decide_eq_false_2 by lia.
  - cbn [mem_store_le]. unfold mbind, EM_bind. rewrite mem_set_eq by lia.
    set (m1 := upd_memory _ m).
    assert (len m1.(memory) = len m.(memory)) as Hl1 by (simpl; by rewrite len_insert).
    destruct (IH (i + 1) m1) as (m' & -> & Hl' & Hb); [lia|lia|].
    exists m'. split_and!; [done|lia|]. intros a Ha. rewrite Hb by done.
    unfold m1. rewrite byte_set by lia.
    destruct (decide (ea + i = a)) as [<-|Hne].
    + rewrite bool_decide_eq_false_2, bool_decide_eq_true_2 by lia.
      by replace (ea + i - ea) with i by lia.
    + repeat case_bool_decide; lia || done.
Qed.

Lemma u8_bit v j k : 0 ≤ j → 0 ≤ k → Z.testbit (u8 (Z.shiftr v j)) k = (k <? 8) && Z.testbit v (k + j).
Proof.
  intros Hj Hk. unfold u8. destruct (k <? 8) eqn:Hlt; simpl.
  - rewrite Z.mod_pow2_bits_low by lia. by rewrite Z.shiftr_spec.
  - by rewrite Z.mod_pow2_bits_high by lia.
Qed.

(** A load of bytes that spell [v] gives [v], from bit [8 * i] on. *)
Lemma mem_load_spec n ea i v m :
  0 ≤ i →
  (∀ j, i ≤ j < i + Z.of_nat n → byte m (ea + j) = Some (u8 (Z.shiftr v (8 * j)))) →
  ∃ x, mem_load_le ea i n m = (Val x, m) ∧ 0 ≤ x ∧
    ∀ k, 0 ≤ k → Z.testbit x k = (8 * i <=? k) && (k <? 8 * (i + Z.of_nat n)) && Z.testbit v k.
Proof.
  revert i. induction n as [|n IH]; intros i Hi Hb.
  - exists 0. split_and!; [done..|]. intros k Hk. rewrite Z.bits_0.
    destruct (8 * i <=? k) eqn:Hlo, (k <? 8 * (i + Z.of_nat 0)) eqn:Hhi; try done.
    apply Z.ltb_lt in Hhi. lia.
  - destruct (IH (i + 1)) as (x & Hx & Hx0 & Hbits); [lia|intros; apply Hb; lia|].
    cbn [mem_load_le]. unfold mbind, EM_bind. rewrite (mem_at_eq _ _ _ (Hb i ltac:(lia))), Hx.
    eexists. split; [done|]. split.
    + apply Z.lor_nonneg. split; [|done]. apply Z.shiftl_nonneg.
      by apply (Z.mod_pos_bound _ (2 ^ 8)).
    + intros k Hk. rewrite Z.lor_spec, Hbits, Z.shiftl_spec by done.
      destruct (8 * i <=? k) eqn:Hlo; simpl.
      * rewrite u8_bit by lia. replace (k - 8 * i + 8 * i) with k by lia.
        rewrite Nat2Z.inj_succ. unfold Z.succ.
        destruct (Z.testbit v k); rewrite ?andb_true_r, ?andb_false_r; [|done].
        apply Z.leb_le in Hlo. apply eq_true_iff_eq.
        rewrite orb_true_iff, andb_true_iff, !Z.ltb_lt, Z.leb_le. lia.
      * rewrite Z.testbit_neg_r by lia. replace (8 * (i + 1) <=? k) with false by lia. done.
Qed.

(** What a store writes a load of the same width at the same address reads: the
    low [8 * n] bits of the value, and the store changes no other byte. *)
Theorem store_load_roundtrip m ea (n : nat) v :
  0 ≤ ea → ea + Z.of_nat n ≤ len m.(memory) →
  ∃ m', mem_store_le ea 0 n v m = (Val tt, m') ∧
    mem_load_le ea 0 n m' = (Val (v mod 2 ^ (8 * Z.of_nat n)), m') ∧
    len m'.(memory) = len m.(memory) ∧
    ∀ a, 0 ≤ a → a < ea ∨ ea + Z.of_nat n ≤ a → byte m' a = byte m a.
Proof.
  intros H0 Hn. destruct (mem_store_spec n ea 0 v m) as (m' & Hst & Hl & Hb); [lia..|].
  exists m'. destruct (mem_load_spec n ea 0 v m') as (x & Hx & Hx0 & Hbits); [lia| |].
  { intros j Hj. rewrite Hb by lia. rewrite bool_decide_eq_true_2 by lia.
    by replace (ea + j - ea) with j by lia. }
  split_and!; [done| |done|].
  - rewrite Hx. do 2 f_equal. apply Z.bits_inj'. intros k Hk. rewrite Hbits by done.
    replace (8 * 0 <=? k) with true by lia. change (0 + Z.of_nat n) with (Z.of_nat n).
    destruct (k <? 8 * Z.of_nat n) eqn:Hlt; [apply Z.ltb_lt in Hlt|apply Z.ltb_ge in Hlt]; simpl.
    + by rewrite Z.mod_pow2_bits_low.
    + by rewrite Z.mod_pow2_bits_high by lia.
  - intros a Ha Hout. rewrite Hb by done. by rewrite bool_decide_eq_false_2 by lia.
Qed.

Definition mem_machine (mem : list Z) : Machine :=
  mkMachine 0 0 0 0 0 0 [] [] [] mem (len mem) [] (mkMailbox 0 0 0 [] []).

Lemma store_load_roundtrip_witness :
  ∃ m', mem_store_le 1 0 4 (2 ^ 40 + 258) (mem_machine [9; 9; 9; 9; 9; 9]) = (Val tt, m') ∧
    m'.(memory) = [9; 2; 1; 0; 0; 9] ∧ mem_load_le 1 0 4 m' = (Val 258, m').
Proof.
  destruct (store_load_roundtrip (mem_machine [9; 9; 9; 9; 9; 9]) 1 4 (2 ^ 40 + 258))
    as (m' & Hst & Hld & _); [lia|vm_compute; discriminate|].
  exists m'. split; [exact Hst|]. split; [vm_compute in Hst; injection Hst as <-; reflexivity|].
  exact Hld.
Defined.

(** ** Overlapping moves *)

Lemma copy_up_spec n dst src i m :
  dst ≤ src → 0 ≤ i → 0 ≤ dst → src + i + Z.of_nat n ≤ len m.(memory) →
  ∃ m', copy_up mem_at mem_set dst src i n m = (Val tt, m') ∧ len m'.(memory) = len m.(memory) ∧
    ∀ a, 0 ≤ a →
      byte m' a = if bool_decide (dst + i ≤ a < dst + i + Z.of_nat n)
                  then byte m (src + (a - dst)) else byte m a.
Proof.
  intros Hle. revert i m. induction n as [|n IH]; intros i m Hi Hd Hn.
  - exists m. split_and!; [done..|]. intros a Ha. by rewrite bool_decide_eq_false_2 by lia.
  - destruct (index_is_Some m.(memory) (src + i)) as [v Hv]; [lia|].
    cbn [copy_up]. unfold mbind, EM_bind. rewrite (mem_at_eq _ _ _ Hv), mem_set_eq by lia.
    set (m1 := upd_memory _ m).
    assert (len m1.(memory) = len m.(memory)) as Hl1 by (simpl; by rewrite len_insert).
    destruct (IH (i + 1) m1) as (m' & -> & Hl' & Hb); [lia..|].
    exists m'. split_and!; [done|lia|]. intros a Ha. rewrite Hb by done.
    unfold m1. rewrite !byte_set by (case_bool_decide || idtac; lia).
    destruct (decide (dst + i = a)) as [<-|Hne].
    + rewrite bool_decide_eq_false_2, bool_decide_eq_true_2 by lia.
      rewrite <-Hv. unfold byte. f_equal. lia.
    + repeat case_bool_decide; try lia; try done. by rewrite decide_False by lia.
Qed.

Lemma copy_down_spec n dst src m :
  src < dst → 0 ≤ src → dst + Z.of_nat n ≤ len m.(memory) →
  ∃ m', copy_down mem_at mem_set dst src n m = (Val tt, m') ∧ len m'.(memory) = len m.(memory) ∧
    ∀ a, 0 ≤ a →
      byte m' a = if bool_decide (dst ≤ a < dst + Z.of_nat n)
                  then byte m (src + (a - dst)) else byte m a.
Proof.
  intros Hlt. revert m. induction n as [|n IH]; intros m Hs Hn.
  - exists m. split_and!; [done..|]. intros a Ha. by rewrite bool_decide_eq_false_2 by lia.
  - destruct (index_is_Some m.(memory) (src + Z.of_nat n)) as [v Hv]; [lia|].
    cbn [copy_down]. unfold mbind, EM_bind. rewrite (mem_at_eq _ _ _ Hv), mem_set_eq by lia.
    set (m1 := upd_memory _ m).
    assert (len m1.(memory) = len m.(memory)) as Hl1 by (simpl; by rewrite len_insert).
    destruct (IH m1) as (m' & -> & Hl' & Hb); [lia..|].
    exists m'. split_and!; [done|lia|]. intros a Ha. rewrite Hb by done.
    destruct (bool_decide (dst ≤ a < dst + Z.of_nat n)) eqn:Hin.
    + apply bool_decide_eq_true_1 in Hin. unfold m1. rewrite byte_set by lia.
      rewrite decide_False by lia. by rewrite bool_decide_eq_true_2 by lia.
    + apply bool_decide_eq_false_1 in Hin. unfold m1. rewrite byte_set by lia.
      destruct (decide (dst + Z.of_nat n = a)) as [<-|].
      * rewrite bool_decide_eq_true_2 by lia. rewrite <-Hv. unfold byte. f_equal. lia.
      * by rewrite bool_decide_eq_false_2 by lia.
Qed.

(** [memory.copy] moves as if through a buffer: after the loop byte [dst + j] is
    what byte [src + j] was before, also when the ranges overlap, and no other
    byte changes. *)
Theorem mem_move_correct m dst src n :
  0 ≤ n → 0 ≤ dst → 0 ≤ src → dst + n ≤ len m.(memory) → src + n ≤ len m.(memory) →
  ∃ m', mem_move dst src n m = (Val tt, m') ∧ len m'.(memory) = len m.(memory) ∧
    (∀ j, 0 ≤ j < n → byte m' (dst + j) = byte m (src + j)) ∧
    (∀ a, 0 ≤ a → a < dst ∨ dst + n ≤ a → byte m' a = byte m a).
Proof.
  intros Hn Hd Hs Hdn Hsn.
  assert (∃ m', mem_move dst src n m = (Val tt, m') ∧ len m'.(memory) = len m.(memory) ∧
    ∀ a, 0 ≤ a → byte m' a = if bool_decide (dst ≤ a < dst + n)
                  then byte m (src + (a - dst)) else byte m a) as (m' & Hm & Hl & Hb).
  { unfold mem_move, move_within. destruct (dst <=? src) eqn:Hle.
    - destruct (copy_up_spec (Z.to_nat n) dst src 0 m) as (m' & ? & ? & Hb); [lia..|].
      exists m'. split_and!; [done..|]. intros a Ha. rewrite Hb by done.
      by replace (dst + 0 + Z.of_nat (Z.to_nat n)) with (dst + n) by lia; rewrite Z.add_0_r.
    - destruct (copy_down_spec (Z.to_nat n) dst src m) as (m' & ? & ? & Hb); [lia..|].
      exists m'. split_and!; [done..|]. intros a Ha. rewrite Hb by done.
      by replace (dst + Z.of_nat (Z.to_nat n)) with (dst + n) by lia. }
  exists m'. split_and!; [done..| |].
  - intros j Hj. rewrite Hb by lia. rewrite bool_decide_eq_true_2 by lia. f_equal. lia.
  - intros a Ha Hout. rewrite Hb by lia. by rewrite bool_decide_eq_false_2 by lia.
Qed.

Lemma mem_move_correct_witness :
  ∃ m', mem_move 1 0 4 (mem_machine [1; 2; 3; 4; 5; 6]) = (Val tt, m') ∧
    m'.(memory) = [1; 1; 2; 3; 4; 6] ∧ byte m' 5 = Some 6.
Proof.
  destruct (mem_move_correct (mem_machine [1; 2; 3; 4; 5; 6]) 1 0 4)
    as (m' & Hm & _ & _ & Hout); [lia..|vm_compute; discriminate|vm_compute; discriminate|].
  exists m'. split; [exact Hm|]. split; [vm_compute in Hm; injection Hm as <-; reflexivity|].
  rewrite Hout by lia. reflexivity.
Defined.
