(* ===== verification/EngineInv.v ===== *)
(** * Running a verified module: the invariant

    The state of the interpreter between two ops of a verified module: the program
    counter is at an op of an accepted function, the operand stack has the height
    the verifier computed for it, every suspended caller will find the height it
    expects when control returns, and the arrays have their sizes. *)

From S2P Require Import Prelude Cuop Wasm Lower EnvTable Module ModuleSteps Engine Verify.
From S2P Require Import VerifyFacts.
From stdpp Require Import base list strings.

Local Open Scope Z_scope.

(** ** Weakest preconditions of engine code *)

Definition ewp {A} (c : EM A) (Q : A → Machine → Prop) (T : Status → Machine → Prop)
    (m : Machine) : Prop :=
  match c m with
  | (Val a, m') => Q a m'
  | (Trap s, m') => T s m'
  | (UB _, _) => False
  end.

Section ewp_rules.
Context {A B : Type} (Q : A → Machine → Prop) (T : Status → Machine → Prop).

Lemma ewp_bind (c : EM B) (k : B → EM A) m :
  ewp c (fun b m' => ewp (k b) Q T m') T m → ewp (c ≫= k) Q T m.
Proof. unfold ewp, mbind, EM_bind. by destruct (c m) as [[] ?]. Qed.

Lemma ewp_mono (c : EM A) (Q' : A → Machine → Prop) m :
  ewp c Q' T m → (∀ a m', Q' a m' → Q a m') → ewp c Q T m.
Proof. unfold ewp. destruct (c m) as [[] ?]; eauto. Qed.

Lemma ewp_trap_if (b : bool) s (k : unit → EM A) m :
  (b = true → T s m) → (b = false → ewp (k tt) Q T m) → ewp (trap_if b s ≫= k) Q T m.
Proof. destruct b; intros Ht Hf; [by apply Ht | by apply Hf]. Qed.

Lemma ewp_rd {C} w (l : list C) i (k : C → EM A) m :
  0 ≤ i < len l → (∀ x, index l i = Some x → ewp (k x) Q T m) → ewp (rd w l i ≫= k) Q T m.
Proof.
  intros Hi Hk. destruct (index_is_Some l i Hi) as [x Hx]. unfold rd. rewrite Hx. by apply Hk.
Qed.
End ewp_rules.

Lemma ewp_seq {A B} (c : EM B) (k : B → EM A) Q' Q T m :
  ewp c Q' T m → (∀ b m', Q' b m' → ewp (k b) Q T m') → ewp (c ≫= k) Q T m.
Proof. intros Hc Hk. apply ewp_bind. by eapply ewp_mono. Qed.

(** ** What the instance must provide

    Conditions on a module that [verify_cuop] does not check and the interpreter
    relies on.  They are decidable, and hold of what the translator produces from
    a module without tail calls whose table holds no imported function. *)

Definition callee_has_code (M : HostModule) (fi : Z) : bool :=
  match index M.(hm_funcs) fi with Some g => negb (g.(fm_code_len) =? 0) | None => true end.

Definition op_ok (M : HostModule) (in_ : CuOpC) : bool :=
  let '(mkCuOp op a b) := in_ in
  (0 <=? a) && (a <? 2 ^ 16) && (0 <=? b) && (b <? 2 ^ 32) &&
  (negb (op =? OP_CLZ) || bool_decide (a ∈ [0; 32; 64])) &&
  (negb ((op =? OP_CALL) || (op =? OP_RETURN_CALL)) || callee_has_code M b) &&
  (negb (op =? OP_CALL_HOST) || (Z.land (Z.shiftr a 8) 255 <=? 1)).

(** A tail call returns as many results as its function. *)
Definition tail_ok (M : HostModule) (f : FuncMetaC) : bool :=
  forallb (fun in_ =>
    negb (in_.(cu_op) =? OP_RETURN_CALL) ||
    match index M.(hm_funcs) in_.(cu_b) with
    | Some g => g.(fm_n_results) =? f.(fm_n_results)
    | None => true
    end) (take (Z.to_nat f.(fm_code_len)) (drop (Z.to_nat f.(fm_code_off)) M.(hm_code))).

Definition sig_ok (M : HostModule) (i : nat) (f : FuncMetaC) : bool :=
  match M.(hm_func_typeidx) !! i with
  | None => false
  | Some t =>
      (0 <=? t) &&
      match index M.(hm_type_fp) t with
      | None => true
      | Some fpv => (f.(fm_n_params) =? Z.land fpv 255) &&
                    (f.(fm_n_results) =? Z.land (Z.shiftr fpv 8) 255)
      end
  end.

Definition data_ok (M : HostModule) : bool :=
  (len M.(hm_data_off) =? len M.(hm_data_live)) && (len M.(hm_data_len) =? len M.(hm_data_live)) &&
  (len M.(hm_data_blob) <? 2 ^ 32) &&
  forallb (fun '(o, n) => (0 <=? o) && (0 <=? n) && (o + n <=? len M.(hm_data_blob)))
    (zip M.(hm_data_off) M.(hm_data_len)).

Definition mem_ok (M : HostModule) : bool :=
  (0 <=? M.(hm_mem_size)) && (M.(hm_mem_size) <=? len M.(hm_memory)) &&
  (len M.(hm_memory) <? 2 ^ 32).

Definition loadable (M : HostModule) : bool :=
  (len M.(hm_code) <? 2 ^ 32) && forallb (op_ok M) M.(hm_code) &&
  forallb (tail_ok M) M.(hm_funcs) &&
  forallb (fun fi => (0 <=? fi) && callee_has_code M fi) M.(hm_table) &&
  forallb id (imap (sig_ok M) M.(hm_funcs)) && data_ok M && mem_ok M.

(** ** The invariant *)

Definition in_u64 (v : Z) : Prop := 0 ≤ v < 2 ^ 64.

Definition arrays_ok (M : HostModule) (m : Machine) : Prop :=
  len m.(stack) = STACK_CAP ∧ Forall in_u64 m.(stack) ∧ len m.(frames) = FRAME_CAP ∧
  len m.(memory) = len M.(hm_memory) ∧ 0 ≤ m.(msize) ≤ len m.(memory) ∧
  len m.(live) = len M.(hm_data_live) ∧ len m.(mb).(mb_results) = 1.

Definition machine_ok (M : HostModule) (m : Machine) : Prop :=
  arrays_ok M m ∧ 0 ≤ m.(sp) ≤ STACK_CAP.

(** Control is at op [rel] of the accepted function [f], where the height is [h]. *)
Record at_op (M : HostModule) (f : FuncMetaC) (pc h : Z) : Prop := mkAtOp {
  ao_in : f ∈ M.(hm_funcs);
  ao_span : span_ok M f;
  ao_h : 0 ≤ h;
  ao_heights : ∃ H, typed M f H ∧ index H (pc - f.(fm_code_off)) = Some h }.

(** The frames below [k], for a function whose locals start at [fp] and which
    returns [nres] values. *)
Inductive chain (M : HostModule) (frs : list Frame) : Z → Z → Z → Prop :=
  | chain_base fr nres :
      index frs 0 = Some fr → fr.(sp_base) = 0 → fr.(fr_n_results) = nres →
      chain M frs 1 0 nres
  | chain_call k fp nres fr g h :
      0 < k → index frs k = Some fr → fr.(sp_base) = fp → fr.(fr_n_results) = nres →
      at_op M g fr.(ret_pc) h → 0 ≤ fr.(fr_fp) ≤ fp →
      fp + nres = fr.(fr_fp) + g.(fm_n_params) + g.(fm_n_locals) + h →
      chain M frs k fr.(fr_fp) g.(fm_n_results) →
      chain M frs (k + 1) fp nres.

(** [sp] is the stack pointer the op at [pc] expects. *)
Definition Inv_at (M : HostModule) (m : Machine) (sp : Z) : Prop :=
  ∃ f h, at_op M f m.(pc) h ∧ sp = m.(fp) + f.(fm_n_params) + f.(fm_n_locals) + h ∧
    0 ≤ m.(fp) ∧ m.(csp) ≤ FRAME_CAP ∧ chain M m.(frames) m.(csp) m.(fp) f.(fm_n_results).

Definition Inv (M : HostModule) (m : Machine) : Prop := machine_ok M m ∧ Inv_at M m m.(sp).

(** What the mailbox holds when a host call of the module is pending. *)
Definition asked (M : HostModule) (box : HostMailbox) : Prop :=
  ∃ a b, mkCuOp OP_CALL_HOST a b ∈ M.(hm_code) ∧ box.(mb_fn_id) = b ∧
    box.(mb_n_args) = Z.land a 255 ∧ box.(mb_n_results) = Z.land (Z.shiftr a 8) 255 ∧
    0 ≤ box.(mb_n_args) ≤ 16 ∧ box.(mb_n_args) ≤ len box.(mb_args).

(** Suspended on a host call: the results are still to be pushed. *)
Definition Pending (M : HostModule) (m : Machine) : Prop :=
  machine_ok M m ∧ 0 ≤ m.(mb).(mb_n_results) ≤ 1 ∧ asked M m.(mb) ∧
  Inv_at M m (m.(sp) + m.(mb).(mb_n_results)).
