(* ===== verification/EngineSafe.v ===== *)
(** * Running a verified module never leaves its arrays

    Soundness of the verifier for the interpreter: every op keeps the invariant of
    [EngineInv], so a run of a verified module makes no access outside the stack,
    the frames, the constants, the tables or the memory. *)

From S2P Require Import Prelude Cuop Wasm Lower EnvTable Module ModuleSteps Engine EngineNum.
From S2P Require Import Verify VerifyFacts EngineInv.
From stdpp Require Import base list strings.

Local Open Scope Z_scope.

Section safe.
Context (M : HostModule) (T : Status → Machine → Prop).
Context (HT : ∀ s m, s ≠ ST_HOSTCALL_PENDING → T s m).

(** From [m0], only operands (and memory contents) changed, and [d] more are on
    the stack. *)
Definition moved (d : Z) (m0 m : Machine) : Prop :=
  machine_ok M m ∧ m.(pc) = m0.(pc) ∧ m.(fp) = m0.(fp) ∧ m.(csp) = m0.(csp) ∧
  m.(frames) = m0.(frames) ∧ m.(sp) = m0.(sp) + d.

Lemma moved_refl m : machine_ok M m → moved 0 m m.
Proof. intros. split_and!; [done..|lia]. Qed.

Lemma moved_sp d m0 m : moved d m0 m → 0 ≤ m0.(sp) + d ≤ STACK_CAP.
Proof. intros ([_ Hm] & _ & _ & _ & _ & Hs). lia. Qed.

(** ** Primitives *)

Lemma e_stack_set d m0 m i v (Q : unit → Machine → Prop) :
  moved d m0 m → 0 ≤ i < STACK_CAP → in_u64 v → (∀ m', moved d m0 m' → Q tt m') →
  ewp (stack_set i v) Q T m.
Proof.
  intros (((H1 & HV & H2) & H3) & H4) Hi Hv HQ.
  unfold stack_set, ewp, mbind, EM_bind, get. simpl.
  unfold in_range. rewrite H1. replace ((0 <=? i) && (i <? STACK_CAP)) with true by lia.
  apply HQ. split; [|done]. split; [|done].
  split_and!; simpl; [by rewrite len_insert|by apply Forall_insert|apply H2..].
Qed.

Lemma k_stack_at {B} d m0 m i (k : Z → EM B) Q :
  moved d m0 m → 0 ≤ i < STACK_CAP → (∀ v, in_u64 v → ewp (k v) Q T m) →
  ewp (stack_at i ≫= k) Q T m.
Proof.
  intros (((H1 & HV & _) & _) & _) Hi Hk. unfold stack_at.
  apply ewp_bind. apply (ewp_bind _ T (get stack)).
  unfold rd. destruct (index_is_Some m.(stack) i) as [v Hv]; [lia|].
  unfold ewp, get. rewrite Hv. apply Hk. apply index_Some in Hv as [_ Hv].
  by eapply Forall_lookup_1.
Qed.

Lemma e_push d m0 m v (Q : unit → Machine → Prop) :
  moved d m0 m → (∀ m', moved (d + 1) m0 m' → Q tt m') → ewp (push v) Q T m.
Proof.
  intros Hm HQ. pose proof Hm as ([_ Hsp] & _). unfold push.
  apply (ewp_bind _ T (get sp)). unfold ewp at 1, get.
  destruct (STACK_CAP <=? m.(sp)) eqn:Hc; [by apply HT|].
  eapply ewp_bind, e_stack_set; [done|lia|apply u64_range|].
  intros m' (Hok & H1 & H2 & H3 & H4 & H5).
  unfold ewp, put. apply HQ.
  assert (m.(sp) = m'.(sp)) as Heq by (destruct Hm as (_ & _ & _ & _ & _ & ?); lia).
  destruct Hok as [Ha Hs]. rewrite u32_id by (unfold STACK_CAP in *; lia).
  split_and!; simpl; try done; [|lia]. split; simpl; [done|lia].
Qed.

Lemma k_pop {B} d m0 m (k : Z → EM B) Q :
  moved d m0 m → 1 ≤ m0.(sp) + d →
  (∀ v m', in_u64 v → moved (d - 1) m0 m' → ewp (k v) Q T m') → ewp (pop ≫= k) Q T m.
Proof.
  intros (Hok & H1 & H2 & H3 & H4 & H5) Hd Hk. pose proof Hok as [Ha Hs].
  apply ewp_bind. unfold pop. apply (ewp_bind _ T (get sp)). unfold ewp at 1, get.
  rewrite u32_id by (unfold STACK_CAP in *; lia).
  apply (ewp_bind _ T (put _)). unfold ewp at 1, put.
  assert (moved (d - 1) m0 (upd_sp (m.(sp) - 1) m)) as Hm'.
  { split_and!; simpl; try done; [|lia]. split; simpl; [done|lia]. }
  unfold stack_at. apply (ewp_bind _ T (get stack)). unfold ewp at 1, get.
  unfold rd. destruct (index_is_Some (stack (upd_sp (m.(sp) - 1) m)) (m.(sp) - 1)) as [v Hv].
  { destruct Ha as [Hst _]. simpl. lia. }
  unfold ewp at 1. rewrite Hv. apply Hk; [|done].
  apply index_Some in Hv as [_ Hv]. destruct Ha as (_ & HV & _). by eapply Forall_lookup_1.
Qed.

Lemma k_push {B} d m0 m v (k : unit → EM B) Q :
  moved d m0 m → (∀ m', moved (d + 1) m0 m' → ewp (k tt) Q T m') → ewp (push v ≫= k) Q T m.
Proof. intros Hm Hk. apply ewp_bind. by eapply e_push. Qed.

Lemma k_get {A B} (f : Machine → A) (k : A → EM B) Q m :
  ewp (k (f m)) Q T m → ewp (get f ≫= k) Q T m.
Proof. done. Qed.

Lemma k_trap_if {B} b s (k : unit → EM B) Q m :
  s ≠ ST_HOSTCALL_PENDING → (b = false → ewp (k tt) Q T m) → ewp (trap_if b s ≫= k) Q T m.
Proof. intros Hs Hk. apply ewp_trap_if; auto. Qed.

Lemma e_trap {B} s (Q : B → Machine → Prop) m : s ≠ ST_HOSTCALL_PENDING → ewp (trap s) Q T m.
Proof. apply HT. Qed.

(** ** Arithmetic *)

Lemma e_push2 d m0 m r (Q : unit → Machine → Prop) :
  moved d m0 m → (∀ m', moved (d + 2) m0 m' → Q tt m') → ewp (push2 r) Q T m.
Proof.
  intros Hm HQ. unfold push2. eapply k_push; [done|]. intros m1 Hm1.
  eapply e_push; [done|]. intros m2 Hm2. apply HQ.
  by replace (d + 2) with (d + 1 + 1) by lia.
Qed.

(** One step of symbolic execution of straight-line code. *)
Ltac estep :=
  first
  [ eapply k_pop; [eassumption|lia|]; intros ? ? ? ?
  | eapply k_push; [eassumption|]; intros ? ?
  | apply k_get; cbn beta
  | apply k_trap_if; [done|]; intros ?
  | apply e_trap; done ].

Ltac done_moved :=
  match goal with
  | H : moved ?d ?m0 ?m |- moved ?d' ?m0 ?m => replace d' with d by lia; exact H
  end.

Ltac elast :=
  first [ eapply e_push; [eassumption|]; intros ? ? | eapply e_push2; [eassumption|]; intros ? ? ];
  done_moved.

(** The verifier's rows of the arithmetic ops. *)
Definition alu_row (op n net : Z) : Prop :=
  match op_lookup op unops with Some _ => n = 1 ∧ net = 0 | None =>
  match op_lookup op binops with Some _ => n = 2 ∧ net = -1 | None =>
  match op_lookup op divops with Some _ => n = 2 ∧ net = -1 | None => True end end end.

Lemma divops_status op f a b s :
  op_lookup op divops = Some f → f a b = inr s → s ≠ ST_HOSTCALL_PENDING.
Proof.
  intros Hop. revert a b s.
  apply (op_lookup_Forall (fun _ f => ∀ a b s, f a b = inr s → s ≠ ST_HOSTCALL_PENDING)
    divops op f); [|done].
  repeat first [apply Forall_nil_2 | apply Forall_cons_2]; intros a b s; simpl; unfold div_s, rem_s, divrem_u; repeat case_match; intros; by simplify_eq.
Qed.

Lemma exec_alu_safe op c n net e m0 :
  exec_alu op = Some c → op_lookup op height_table = Some (n, net, e) →
  machine_ok M m0 → n ≤ m0.(sp) → ewp c (fun _ m => moved net m0 m) T m0.
Proof.
  intros Hc Hop Hok Hn. pose proof (moved_refl m0 Hok) as Hm.
  apply (op_lookup_Forall (fun op r => alu_row op r.1.1 r.1.2)) in Hop as Hcl;
    [|by repeat constructor].
  unfold alu_row in Hcl. cbn [fst snd] in Hcl.
  unfold exec_alu in Hc.
  destruct (op_lookup op unops) as [f|]; [injection Hc as <-; destruct Hcl as [-> ->]|].
  { estep. elast. }
  destruct (op_lookup op binops) as [f|]; [injection Hc as <-; destruct Hcl as [-> ->]|].
  { estep. estep. elast. }
  destruct (op_lookup op divops) as [f|] eqn:Hdiv; [|done].
  injection Hc as <-. destruct Hcl as [-> ->].
  estep. estep. destruct (f _ _) as [x|s] eqn:Hf; [elast|].
  apply e_trap. by eapply divops_status.
Qed.

(** ** Copy loops *)

(** Reads in [R] and writes in [W] of good values are safe. *)
Definition reads (d : Z) (m0 : Machine) (V R : Z → Prop) (get_at : Z → EM Z) : Prop :=
  ∀ j m (k : Z → EM unit) Q, R j → moved d m0 m → (∀ v, V v → ewp (k v) Q T m) →
    ewp (get_at j ≫= k) Q T m.
Definition writes (d : Z) (m0 : Machine) (V W : Z → Prop) (set_at : Z → Z → EM unit) : Prop :=
  ∀ j v m (Q : unit → Machine → Prop), W j → V v → moved d m0 m →
    (∀ m', moved d m0 m' → Q tt m') → ewp (set_at j v) Q T m.

Lemma e_copy_up d m0 V R W get_at set_at dst src n i m (Q : unit → Machine → Prop) :
  reads d m0 V R get_at → writes d m0 V W set_at → moved d m0 m →
  (∀ j, i ≤ j < i + Z.of_nat n → R (src + j) ∧ W (dst + j)) →
  (∀ m', moved d m0 m' → Q tt m') → ewp (copy_up get_at set_at dst src i n) Q T m.
Proof.
  intros Hr Hw. revert i m. induction n as [|n IH]; intros i m Hm Hj HQ; simpl; [by apply HQ|].
  destruct (Hj i) as [Hr1 Hw1]; [lia|].
  apply Hr; [done..|]. intros v Hv. apply ewp_bind. apply Hw; [done..|]. intros m' Hm'.
  apply IH; [done| |done]. intros j ?. apply Hj. lia.
Qed.

Lemma e_copy_down d m0 V R W get_at set_at dst src n m (Q : unit → Machine → Prop) :
  reads d m0 V R get_at → writes d m0 V W set_at → moved d m0 m →
  (∀ j, 0 ≤ j < Z.of_nat n → R (src + j) ∧ W (dst + j)) →
  (∀ m', moved d m0 m' → Q tt m') → ewp (copy_down get_at set_at dst src n) Q T m.
Proof.
  intros Hr Hw. revert m. induction n as [|n IH]; intros m Hm Hj HQ; simpl; [by apply HQ|].
  destruct (Hj (Z.of_nat n)) as [Hr1 Hw1]; [lia|].
  apply Hr; [done..|]. intros v Hv. apply ewp_bind. apply Hw; [done..|]. intros m' Hm'.
  apply IH; [done| |done]. intros j ?. apply Hj. lia.
Qed.

Lemma e_move d m0 V R W get_at set_at dst src n m (Q : unit → Machine → Prop) :
  reads d m0 V R get_at → writes d m0 V W set_at → moved d m0 m → 0 ≤ n →
  (∀ j, 0 ≤ j < n → R (src + j) ∧ W (dst + j)) →
  (∀ m', moved d m0 m' → Q tt m') → ewp (move_within get_at set_at dst src n) Q T m.
Proof.
  intros Hr Hw Hm Hn Hj HQ. unfold move_within. destruct (dst <=? src).
  - eapply e_copy_up; [done..| |done]. intros j ?. apply Hj. lia.
  - eapply e_copy_down; [done..| |done]. intros j ?. apply Hj. lia.
Qed.

Definition in_stack (i : Z) : Prop := 0 ≤ i < STACK_CAP.

Lemma e_stack_move d m0 m dst src n (Q : unit → Machine → Prop) :
  moved d m0 m → 0 ≤ n → 0 ≤ dst → dst + n ≤ STACK_CAP → 0 ≤ src → src + n ≤ STACK_CAP →
  (∀ m', moved d m0 m' → Q tt m') → ewp (stack_move dst src n) Q T m.
Proof.
  intros Hm Hn Hd Hd' Hs Hs' HQ.
  apply (e_move d m0 in_u64 in_stack in_stack); [| |done|done| |done].
  - intros j m1 k Q' Hj Hm1. by apply k_stack_at with d m0.
  - intros j v m1 Q' Hj Hv Hm1. by apply e_stack_set.
  - unfold in_stack. intros; lia.
Qed.

(** ** Memory *)

Definition in_mem (i : Z) : Prop := 0 ≤ i < len M.(hm_memory).

Lemma k_mem_at d m0 m i {B} (k : Z → EM B) Q :
  moved d m0 m → in_mem i → (∀ v, ewp (k v) Q T m) → ewp (mem_at i ≫= k) Q T m.
Proof.
  intros (((_ & _ & _ & Hl & _) & _) & _) Hi Hk. unfold mem_at, in_mem in *.
  apply ewp_bind. apply (ewp_bind _ T (get memory)).
  unfold rd. destruct (index_is_Some m.(memory) i) as [v Hv]; [lia|].
  unfold ewp, get. rewrite Hv. apply Hk.
Qed.

Lemma e_mem_set d m0 m i v (Q : unit → Machine → Prop) :
  moved d m0 m → in_mem i → (∀ m', moved d m0 m' → Q tt m') → ewp (mem_set i v) Q T m.
Proof.
  intros (((H1 & HV & H2 & H3 & H4 & H5) & H6) & H7) Hi HQ.
  unfold mem_set, ewp, mbind, EM_bind, get, in_mem in *. simpl.
  unfold in_range. rewrite H3. replace ((0 <=? i) && (i <? len (hm_memory M))) with true by lia.
  apply HQ. split; [|done]. split; [|done].
  split_and!; simpl; rewrite ?len_insert; try done; try lia; apply H5.
Qed.

Lemma moved_msize d m0 m : moved d m0 m → 0 ≤ m.(msize) ≤ len M.(hm_memory).
Proof. intros (((_ & _ & _ & Hl & Hs & _) & _) & _). lia. Qed.

Lemma e_mem_load d m0 m ea n i :
  moved d m0 m → 0 ≤ ea + i → ea + i + Z.of_nat n ≤ len M.(hm_memory) →
  ewp (mem_load_le ea i n) (fun _ m' => m' = m) T m.
Proof.
  intros Hm. revert i. induction n as [|n IH]; intros i H0 Hn; simpl; [done|].
  eapply k_mem_at; [done|unfold in_mem; lia|]. intros x.
  eapply ewp_seq; [apply IH; lia|]. by intros v m' ->.
Qed.

Lemma e_mem_store d m0 m ea n i v (Q : unit → Machine → Prop) :
  moved d m0 m → 0 ≤ ea + i → ea + i + Z.of_nat n ≤ len M.(hm_memory) →
  (∀ m', moved d m0 m' → Q tt m') → ewp (mem_store_le ea i n v) Q T m.
Proof.
  revert m i. induction n as [|n IH]; intros m i Hm H0 Hn HQ; simpl; [by apply HQ|].
  apply ewp_bind. eapply e_mem_set; [done|unfold in_mem; lia|]. intros m' Hm'.
  apply IH; [done|lia..|done].
Qed.

Lemma e_fill d m0 m dst n i v (Q : unit → Machine → Prop) :
  moved d m0 m → 0 ≤ dst + i → dst + i + Z.of_nat n ≤ len M.(hm_memory) →
  (∀ m', moved d m0 m' → Q tt m') → ewp (fill_loop dst i n v) Q T m.
Proof.
  revert m i. induction n as [|n IH]; intros m i Hm H0 Hn HQ; simpl; [by apply HQ|].
  apply ewp_bind. eapply e_mem_set; [done|unfold in_mem; lia|]. intros m' Hm'.
  apply IH; [done|lia..|done].
Qed.

Lemma e_mem_move d m0 m dst src n (Q : unit → Machine → Prop) :
  moved d m0 m → 0 ≤ n → 0 ≤ dst → dst + n ≤ len M.(hm_memory) → 0 ≤ src →
  src + n ≤ len M.(hm_memory) →
  (∀ m', moved d m0 m' → Q tt m') → ewp (mem_move dst src n) Q T m.
Proof.
  intros Hm Hn Hd Hd' Hs Hs' HQ.
  apply (e_move d m0 (fun _ => True) in_mem in_mem); [| |done|done| |done].
  - intros j m1 k Q' Hj Hm1 Hk. eapply k_mem_at; [done..|]. auto.
  - intros j v m1 Q' Hj _ Hm1. by apply e_mem_set.
  - unfold in_mem. intros; lia.
Qed.

Lemma mem_in_bounds_range size ea n :
  mem_in_bounds size ea n = true → ea + n ≤ size.
Proof. unfold mem_in_bounds. destruct (size <? n) eqn:?; [done|]. lia. Qed.

(** ** The ops of the height table *)

(** The row of a concrete op. *)
Ltac row Hop := vm_compute in Hop; injection Hop as <- <- <-.

(** Walk through the opcode tests of a dispatcher. *)
Ltac dispatch :=
  repeat match goal with
  | Hc : (if (?x =? ?k) then Some _ else _) = Some _ |- _ =>
      let E := fresh "Eop" in
      destruct (x =? k) eqn:E;
      [apply Z.eqb_eq in E; rewrite E in *; injection Hc as <- | clear E]
  end;
  try match goal with Hc : None = Some _ |- _ => discriminate Hc end.

Lemma exec_wide_safe in_ c n net e m0 :
  exec_wide in_ = Some c → op_lookup in_.(cu_op) height_table = Some (n, net, e) →
  op_ok M in_ = true → machine_ok M m0 → n ≤ m0.(sp) → ewp c (fun _ m => moved net m0 m) T m0.
Proof.
  intros Hc Hop Hin Hok Hn. pose proof (moved_refl m0 Hok) as Hm.
  unfold exec_wide in Hc. dispatch; row Hop.
  - estep. estep. elast.
  - estep. estep. elast.
  - estep. estep. estep. estep. elast.
  - estep. estep. estep. estep. elast.
  - estep. set (bits := if cu_a in_ =? 0 then 64 else cu_a in_).
    assert (bits = 32 ∨ bits = 64) as Hbits.
    { unfold op_ok in Hin. destruct in_ as [op a b]; simpl in *. subst op.
      repeat (apply andb_true_iff in Hin as [Hin ?]). simpl in *.
      match goal with H : bool_decide (a ∈ _) = true |- _ => apply bool_decide_eq_true_1 in H end.
      subst bits. repeat match goal with H : a ∈ _ |- _ => apply elem_of_cons in H as [->|H] end;
        [by right|by left|by right|]. by apply not_elem_of_nil in H3. }
    destruct (clz_spec bits v Hbits) as (x & -> & _); [done|]. elast.
  - estep. eapply ewp_mono; [|intros ? ? H'; exact H']. unfold ewp, mret, EM_ret. done_moved.
  - estep. estep. estep. elast.
Qed.

Lemma e_rd {B C} w (l : list C) i (k : C → EM B) Q m :
  0 ≤ i < len l → (∀ x, ewp (k x) Q T m) → ewp (rd w l i ≫= k) Q T m.
Proof. intros Hi Hk. apply ewp_rd; [done|]. auto. Qed.

Lemma op_ok_fields in_ : op_ok M in_ = true → 0 ≤ in_.(cu_a) < 2 ^ 16 ∧ 0 ≤ in_.(cu_b) < 2 ^ 32.
Proof. unfold op_ok. destruct in_ as [op a b]. simpl. intros. destruct_and?. lia. Qed.

(** An index the verifier accepted is a local of the frame. *)
Lemma local_in_frame f (a p : Z) m :
  0 ≤ f.(fm_n_params) → 0 ≤ f.(fm_n_locals) → 0 ≤ a →
  a < u16 (f.(fm_n_params) + f.(fm_n_locals)) →
  0 ≤ m.(fp) → m.(fp) + f.(fm_n_params) + f.(fm_n_locals) ≤ p → p ≤ STACK_CAP →
  0 ≤ u32 (m.(fp) + a) < STACK_CAP.
Proof.
  intros. unfold u16 in *. pose proof (Z.mod_le (fm_n_params f + fm_n_locals f) (2 ^ 16)).
  unfold STACK_CAP in *. rewrite u32_id; lia.
Qed.

Lemma exec_var_safe f in_ c n net e m0 :
  exec_var M in_ = Some c → op_lookup in_.(cu_op) height_table = Some (n, net, e) →
  op_ok M in_ = true → index_checks M f in_ = Ok tt → machine_ok M m0 →
  0 ≤ f.(fm_n_params) → 0 ≤ f.(fm_n_locals) → 0 ≤ m0.(fp) →
  m0.(fp) + f.(fm_n_params) + f.(fm_n_locals) + n ≤ m0.(sp) →
  ewp c (fun _ m => moved net m0 m) T m0.
Proof.
  intros Hc Hop Hin Hck Hok Hp Hl Hfp Hn. pose proof (moved_refl m0 Hok) as Hm.
  pose proof Hok as [_ Hsp]. destruct (op_ok_fields _ Hin) as [Ha Hb].
  unfold index_checks in Hck. unfold exec_var in Hc. dispatch; row Hop; simpl in Hck; inv_need.
  - estep. estep. apply e_rd; [apply need_Ok in Hck; lia|]. intros v. elast.
  - estep. estep. estep. eapply k_stack_at; [eassumption|by eapply (local_in_frame f); [..|apply Hsp]; lia|].
    intros v Hv. elast.
  - estep. estep. eapply e_stack_set; [eassumption|..|done|intros; done_moved].
    destruct H0 as (_ & _ & -> & _). eapply (local_in_frame f); [..|apply Hsp]; lia.
  - estep. estep. apply e_rd; [lia|]. intros v. elast.
  - estep. estep. estep. unfold ewp, put. 
    destruct H1 as (Hok1 & H1). split; [|exact H1]. exact Hok1.
Qed.

Lemma moved_set_msize d m0 m n :
  moved d m0 m → 0 ≤ n ≤ len M.(hm_memory) → moved d m0 (upd_msize n m).
Proof.
  intros (((H1 & HV & H2 & H3 & H4 & H5) & H6) & H7) Hn.
  split; [|done]. split; [|done]. split_and!; simpl; try done; try lia; apply H5.
Qed.

Lemma moved_set_live d m0 m (i : nat) v :
  moved d m0 m → moved d m0 (upd_live (<[i := v]> m.(live)) m).
Proof.
  intros (((H1 & HV & H2 & H3 & H4 & H5 & H6) & H7) & H8).
  split; [|done]. split; [|done]. split_and!; simpl; rewrite ?len_insert; try done; apply H4.
Qed.

Lemma exec_grow_safe m0 :
  mem_ok M = true → machine_ok M m0 → 1 ≤ m0.(sp) →
  ewp (exec_grow M) (fun _ m => moved 0 m0 m) T m0.
Proof.
  intros Hmem Hok Hn. pose proof (moved_refl m0 Hok) as Hm. unfold mem_ok in Hmem.
  unfold exec_grow. estep. estep.
  destruct (_ || _) eqn:Hb; [elast|]. apply orb_false_iff in Hb as [Hb1 Hb2].
  apply (ewp_bind _ T (put _)). unfold ewp at 1, put.
  pose proof (moved_msize _ _ _ H0) as Hsz. pose proof (u32_range v).
  unfold WASM_PAGE in *. pose proof (len_nonneg (hm_memory M)).
  assert (0 ≤ msize m' / 65536) by (Z.to_euclidean_division_equations; lia).
  eapply e_push; [apply moved_set_msize; [exact H0|]|intros; done_moved].
  rewrite u32_id; Z.to_euclidean_division_equations; lia.
Qed.

Lemma data_ok_row di o n :
  data_ok M = true → index M.(hm_data_off) di = Some o → index M.(hm_data_len) di = Some n →
  0 ≤ o ∧ 0 ≤ n ∧ o + n ≤ len M.(hm_data_blob) ∧ len M.(hm_data_blob) < 2 ^ 32.
Proof.
  unfold data_ok. intros Hd [_ Ho]%index_Some [_ Hn]%index_Some.
  apply andb_true_iff in Hd as [Hd Hz]. rewrite forallb_forall in Hz.
  assert ((o, n) ∈ zip (hm_data_off M) (hm_data_len M)) as Hin%list_elem_of_In.
  { apply (list_elem_of_lookup_2 _ (Z.to_nat di)).
    apply lookup_zip_with_Some. eauto. }
  specialize (Hz _ Hin). simpl in Hz. lia.
Qed.

Lemma exec_init_safe m0 di :
  data_ok M = true → machine_ok M m0 → 3 ≤ m0.(sp) → 0 ≤ di →
  ewp (exec_init M di) (fun _ m => moved (-3) m0 m) T m0.
Proof.
  intros Hdata Hok Hn Hdi. pose proof (moved_refl m0 Hok) as Hm.
  unfold exec_init. estep. estep. estep. estep. estep.
  assert (len (live m'1) = len M.(hm_data_live)) as Hlive
    by (destruct H4 as (((_ & _ & _ & _ & _ & Hl & _) & _) & _); exact Hl).
  apply e_rd; [lia|]. intros l.
  pose proof Hdata as Hlens. unfold data_ok in Hlens.
  set (c1 := if l =? 0 then mret 0 else rd "data.len" (hm_data_len M) di).
  set (c2 := if l =? 0 then mret 0 else rd "data.off" (hm_data_off M) di).
  assert (∃ dlen doff, (∀ m, c1 m = (Val dlen, m)) ∧ (∀ m, c2 m = (Val doff, m)) ∧
    0 ≤ doff ∧ 0 ≤ dlen ∧ doff + dlen ≤ len M.(hm_data_blob) ∧ len M.(hm_data_blob) < 2 ^ 32)
    as (dlen & doff & Hc1 & Hc2 & Ho & Hl & Hs & Hbl).
  { subst c1 c2. pose proof (len_nonneg M.(hm_data_blob)). destruct (l =? 0).
    - exists 0, 0. split_and!; try done; lia.
    - destruct (index_is_Some M.(hm_data_len) di) as [dl Hdl]; [lia|].
      destruct (index_is_Some M.(hm_data_off) di) as [dof Hdof]; [lia|].
      exists dl, dof. unfold rd. rewrite Hdl, Hdof. split; [done|]. split; [done|].
      by eapply data_ok_row. }
  apply ewp_bind. unfold ewp at 1. rewrite Hc1. apply ewp_bind. unfold ewp at 1. rewrite Hc2.
  estep. estep. pose proof (moved_msize _ _ _ H4). pose proof (u32_range v).
  pose proof (u32_range v0). pose proof (u32_range v1).
  destruct (len (hm_data_blob M) =? 0); [unfold ewp, mret, EM_ret; done_moved|].
  eapply (e_copy_up _ _ (fun _ => True) (fun i => 0 ≤ i < len M.(hm_data_blob)) in_mem);
    [| |exact H4| |intros; done_moved].
  - intros j m1 k Q Hj Hm1 Hk. unfold blob_at. rewrite u32_id by lia. apply e_rd; [done|]. auto.
  - intros j x m1 Q Hj _ Hm1. by apply e_mem_set.
  - intros j Hj. unfold in_mem. lia.
Qed.

Lemma exec_memory_safe in_ c n net e m0 :
  exec_memory M in_ = Some c → op_lookup in_.(cu_op) height_table = Some (n, net, e) →
  op_ok M in_ = true → mem_ok M = true → data_ok M = true → machine_ok M m0 → n ≤ m0.(sp) →
  ewp c (fun _ m => moved net m0 m) T m0.
Proof.
  intros Hc Hop Hin Hmem Hdata Hok Hn. pose proof (moved_refl m0 Hok) as Hm.
  destruct (op_ok_fields _ Hin) as [Ha Hb]. pose proof (moved_msize _ _ _ Hm) as Hsz.
  unfold exec_memory in Hc. dispatch; row Hop.
  - unfold exec_load. estep. estep. estep. pose proof (moved_msize _ _ _ H0).
    apply orb_false_iff in H1 as [H1 Hbd]. apply negb_false_iff, mem_in_bounds_range in Hbd.
    pose proof (u32_range v).
    assert (0 ≤ Z.land (cu_a in_) 15) by (apply Z.land_nonneg; lia).
    eapply ewp_seq; [eapply e_mem_load; [exact H0|lia..]|]. intros x m1 ->. elast.
  - unfold exec_store. estep. estep. estep. estep. pose proof (moved_msize _ _ _ H2).
    apply orb_false_iff in H3 as [H3 Hbd]. apply negb_false_iff, mem_in_bounds_range in Hbd.
    pose proof (u32_range v0).
    eapply e_mem_store; [exact H2|lia..|intros; done_moved].
  - estep. elast.
  - by apply exec_grow_safe.
  - unfold exec_copy. estep. estep. estep. estep. estep. pose proof (moved_msize _ _ _ H4).
    pose proof (u32_range v). pose proof (u32_range v0). pose proof (u32_range v1).
    eapply e_mem_move; [exact H4|lia..|intros; done_moved].
  - unfold exec_fill. estep. estep. estep. estep. estep. pose proof (moved_msize _ _ _ H4).
    pose proof (u32_range v). pose proof (u32_range v1).
    eapply e_fill; [exact H4|lia..|intros; done_moved].
  - apply exec_init_safe; [done..|lia|lia].
  - unfold exec_drop_data. estep. estep. unfold ewp, put.
    by apply moved_set_live.
Qed.
End safe.
