(* ===== verification/EngineSound.v ===== *)
(** * Soundness of the verifier

    The ops that transfer control keep the invariant too; hence every step of a
    verified module does, and a run on the CPU driver never makes an access that
    is undefined in the source. *)

From S2P Require Import Prelude Cuop Wasm Lower EnvTable Module ModuleSteps Engine.
From S2P Require Import EngineFrame EngineSlice EngineNum Verify VerifyFacts EngineInv.
From S2P Require Import EngineSafe.
From stdpp Require Import base list strings.

Local Open Scope Z_scope.

(** ** Reading the static conditions *)

Section sound.
Context (M : HostModule) (HV : verified M) (HL : loadable M = true).

Lemma loadable_parts :
  len M.(hm_code) < 2 ^ 32 ∧ (∀ i in_, index M.(hm_code) i = Some in_ → op_ok M in_ = true) ∧
  (∀ f, f ∈ M.(hm_funcs) → tail_ok M f = true) ∧
  (∀ i fi, index M.(hm_table) i = Some fi → 0 ≤ fi ∧ callee_has_code M fi = true) ∧
  (∀ i f, index M.(hm_funcs) i = Some f → sig_ok M (Z.to_nat i) f = true) ∧
  data_ok M = true ∧ mem_ok M = true.
Proof.
  unfold loadable in HL. repeat (apply andb_true_iff in HL as [HL ?]).
  split_and!; try done; [lia|..].
  - intros i in_ [_ Hi]%index_Some. eapply (forallb_forall (op_ok M)); [done|].
    by eapply list_elem_of_In, list_elem_of_lookup_2.
  - intros f Hf. eapply (forallb_forall (tail_ok M)); [done|]. by apply list_elem_of_In.
  - intros i fi [_ Hi]%index_Some.
    assert ((0 <=? fi) && callee_has_code M fi = true) as Hx; [|apply andb_true_iff in Hx as [? ?]; split; [lia|done]].
    eapply (forallb_forall (fun fi => (0 <=? fi) && callee_has_code M fi)); [done|].
    by eapply list_elem_of_In, list_elem_of_lookup_2.
  - intros i f [_ Hi]%index_Some.
    change (id (sig_ok M (Z.to_nat i) f) = true). eapply (forallb_forall id); [done|].
    eapply list_elem_of_In, (list_elem_of_lookup_2 _ (Z.to_nat i)).
    rewrite list_lookup_imap, Hi. done.
Qed.

Lemma funcs_meta f : f ∈ M.(hm_funcs) → meta_ok f.
Proof. destruct HV as [Hm _]. rewrite Forall_forall in Hm. apply Hm. Qed.

(** A function with code is accepted: it can be entered at height 0. *)
Lemma at_entry fi g :
  index M.(hm_funcs) fi = Some g → callee_has_code M fi = true → at_op M g g.(fm_code_off) 0.
Proof.
  intros Hg Hc. unfold callee_has_code in Hc. rewrite Hg in Hc.
  apply index_Some in Hg as [_ Hg]. destruct HV as [_ Hv].
  destruct (Hv _ _ Hg) as [(Hs & _ & H & Ht)|[Hz _]]; [|lia].
  split; [by eapply list_elem_of_lookup_2|done|done|]. exists H. split; [done|].
  rewrite Z.sub_diag. apply Ht.
Qed.

(** The op at a typed point, and where it leads. *)
Lemma at_op_fetch f pc h :
  at_op M f pc h →
  ∃ in_ e, index M.(hm_code) pc = Some in_ ∧ effect M f in_ h = Ok e ∧
    index_checks M f in_ = Ok tt ∧ 0 ≤ pc - f.(fm_code_off) < f.(fm_code_len) ∧
    (∀ t th, e.(jump) = Some (t, th) → at_op M f (f.(fm_code_off) + t) th) ∧
    (e.(falls) = true → at_op M f (pc + 1) e.(next_h)).
Proof.
  intros [Hin Hs Hh (H & Ht & Hi)]. pose proof (index_lt _ _ _ Hi) as Hr.
  pose proof Ht as (Hlen & _ & Hok).
  destruct (Hok _ _ Hi Hh) as (in_ & e & H1 & H2 & H3 & H4 & H5).
  exists in_, e. split_and!; try done; try lia.
  - rewrite <-H1. f_equal. lia.
  - intros t th Hj. destruct (H4 t th Hj) as [Hx Hx0]. split; [done..|]. exists H. split; [done|].
    rewrite <-Hx. f_equal. lia.
  - intros Hf. destruct (H5 Hf) as [Hx Hx0]. split; [done..|]. exists H. split; [done|].
    rewrite <-Hx. f_equal. lia.
Qed.

(** ** Frames *)

Lemma chain_pos frs k fp nres : chain M frs k fp nres → 0 < k.
Proof. destruct 1; lia. Qed.

(** Writing a frame above the chain does not touch it. *)
Lemma chain_insert frs k fp nres j fr :
  chain M frs k fp nres → k ≤ j < len frs → chain M (<[Z.to_nat j := fr]> frs) k fp nres.
Proof.
  intros Hc. induction Hc as [fr0 nres H0 Hb Hn|k fp nres fr0 g h Hk Hi Hb Hn Hat Hfp Hsum _ IH];
    intros Hj.
  - apply (chain_base _ _ fr0); [|done..]. rewrite index_insert by lia.
    by rewrite decide_False by lia.
  - apply (chain_call _ _ _ _ _ fr0 g h); try done; [|apply IH; lia].
    rewrite index_insert by lia. by rewrite decide_False by lia.
Qed.

Let T (s : Status) (m : Machine) : Prop := s = ST_HOSTCALL_PENDING → Pending M m.

Lemma T_other s m : s ≠ ST_HOSTCALL_PENDING → T s m.
Proof. by intros ? ?. Qed.

Lemma e_push_zeros n d m0 m (Q : unit → Machine → Prop) :
  moved M d m0 m → (∀ m', moved M (d + Z.of_nat n) m0 m' → Q tt m') →
  ewp (push_zeros n) Q T m.
Proof.
  revert d m. induction n as [|n IH]; intros d m Hm HQ; simpl.
  - apply HQ. by rewrite Z.add_0_r.
  - eapply k_push; [apply T_other|done|]. intros m' Hm'. apply (IH (d + 1)); [done|].
    intros m1 Hm1. apply HQ. by replace (d + Z.of_nat (S n)) with (d + 1 + Z.of_nat n) by lia.
Qed.

(** A state of function [g] at its first op, once its locals are pushed. *)
Lemma enter_locals g m :
  at_op M g g.(fm_code_off) 0 → machine_ok M m → 0 ≤ m.(fp) → m.(csp) ≤ FRAME_CAP →
  m.(sp) = m.(fp) + g.(fm_n_params) → chain M m.(frames) m.(csp) m.(fp) g.(fm_n_results) →
  ewp (push_zeros (Z.to_nat g.(fm_n_locals));; put (upd_pc g.(fm_code_off)))
    (fun _ m' => Inv M m') T m.
Proof.
  intros Hat Hok Hfp Hcsp Hsp Hch.
  destruct (funcs_meta g (ao_in _ _ _ _ Hat)) as (_ & _ & _ & _ & Hl).
  apply ewp_bind. eapply e_push_zeros; [by apply moved_refl|].
  intros m' (Hok' & _ & Hfp' & Hcsp' & Hfr' & Hsp'). unfold ewp, put.
  split; [done|]. exists g, 0. simpl. rewrite Hfp', Hcsp', Hfr'. split_and!; [done|lia|done..].
Qed.

(** What the current function's frame provides. *)
Record running (f : FuncMetaC) (m : Machine) : Prop := mkRunning {
  rn_ok : machine_ok M m;
  rn_in : f ∈ M.(hm_funcs);
  rn_fp : 0 ≤ m.(fp);
  rn_csp : m.(csp) ≤ FRAME_CAP;
  rn_chain : chain M m.(frames) m.(csp) m.(fp) f.(fm_n_results) }.

Lemma running_Inv f h m :
  running f m → at_op M f m.(pc) h →
  m.(sp) = m.(fp) + f.(fm_n_params) + f.(fm_n_locals) + h → Inv M m.
Proof. intros [H1 H2 H3 H4 H5] Hat Hsp. split; [done|]. by exists f, h. Qed.

(** Operand changes do not disturb it. *)
Lemma running_moved f m m' d : running f m → moved M d m m' → running f m'.
Proof.
  intros [H1 H2 H3 H4 H5] (Hok & Hpc & Hfp & Hcsp & Hfr & _).
  split; rewrite ?Hfp, ?Hcsp, ?Hfr; done.
Qed.

(** ** Calls *)

Lemma enter_safe f g fi h m :
  running f m → at_op M f m.(pc) h →
  index M.(hm_funcs) fi = Some g → callee_has_code M fi = true →
  m.(sp) - g.(fm_n_params) + g.(fm_n_results) = m.(fp) + f.(fm_n_params) + f.(fm_n_locals) + h →
  m.(fp) ≤ m.(sp) - g.(fm_n_params) →
  ewp (enter g) (fun _ m' => Inv M m') T m.
Proof.
  intros [Hok Hin Hfp Hcsp Hch] Hat Hg Hcode Hsum Hbase.
  pose proof (at_entry _ _ Hg Hcode) as Hentry.
  destruct (funcs_meta g (ao_in _ _ _ _ Hentry)) as (_ & _ & Hnp & _).
  pose proof (chain_pos _ _ _ _ Hch) as Hpos. pose proof Hok as [Harr Hsp].
  assert (len m.(frames) = FRAME_CAP) as Hfl by apply Harr.
  unfold enter. apply k_get. apply k_trap_if; [apply T_other|done|]. intros Hd.
  apply k_get. apply k_trap_if; [apply T_other|done|]. intros _.
  do 3 apply k_get. unfold in_range. rewrite Hfl.
  replace ((0 <=? csp m) && (csp m <? FRAME_CAP)) with true by lia.
  set (fr := mkFrame _ _ _ _).
  apply (enter_locals g (mkMachine m.(pc) m.(sp) (m.(sp) - g.(fm_n_params)) (m.(csp) + 1) m.(fuel)
    (Z.max m.(peak_csp) (m.(csp) + 1)) m.(stack) (<[Z.to_nat m.(csp) := fr]> m.(frames))
    m.(globals) m.(memory) m.(msize) m.(live) m.(mb))); simpl; try done; try lia.
  - split; [|done]. destruct Harr as (A1 & A2 & A3 & A4 & A5 & A6 & A7).
    split_and!; simpl; rewrite ?len_insert; try done; apply A5.
  - apply (chain_call _ _ _ _ _ fr f h); simpl; try done; try lia.
    + rewrite index_insert by lia. by rewrite decide_True.
    + apply chain_insert; [done|lia].
Qed.

Lemma exec_call_safe f h h' fi m :
  running f m → at_op M f m.(pc) h' → 0 ≤ fi → callee_has_code M fi = true →
  (∀ g, index M.(hm_funcs) fi = Some g →
     g.(fm_n_params) ≤ h ∧ h' = h - g.(fm_n_params) + g.(fm_n_results)) →
  m.(sp) = m.(fp) + f.(fm_n_params) + f.(fm_n_locals) + h →
  ewp (exec_call M fi) (fun _ m' => Inv M m') T m.
Proof.
  intros Hr Hat Hfi Hcode Hg Hsp. unfold exec_call.
  apply k_trap_if; [apply T_other|done|]. intros Hlt.
  apply ewp_rd; [lia|]. intros g Hi. destruct (Hg g Hi) as [Hn Hh'].
  destruct (funcs_meta f (ao_in _ _ _ _ Hat)) as (_ & _ & Hp & _ & Hl).
  eapply (enter_safe f g fi h'); try done; lia.
Qed.

(** ** Returns *)

Lemma exec_return_safe f h m :
  running f m → f.(fm_n_results) ≤ h →
  m.(sp) = m.(fp) + f.(fm_n_params) + f.(fm_n_locals) + h →
  ewp exec_return (fun _ m' => Inv M m') T m.
Proof.
  intros [Hok Hin Hfp Hcsp Hch] Hn Hsp.
  destruct (funcs_meta f Hin) as (_ & _ & Hp & Hres & Hl).
  pose proof Hok as [Harr Hs]. unfold exec_return.
  apply k_get. apply k_trap_if; [apply T_other|done|]. intros _.
  apply (ewp_bind _ T (put _)). unfold ewp at 1, put. apply k_get. simpl.
  assert (∃ fr, index m.(frames) (m.(csp) - 1) = Some fr ∧ fr.(sp_base) = m.(fp) ∧
    fr.(fr_n_results) = f.(fm_n_results)) as (fr & Hfr & Hb & Hnr).
  { destruct Hch as [fr ? H0 H1 H2|k ? ? fr ? ? ? H0 H1 H2]; exists fr; [done|].
    by replace (k + 1 - 1) with k by lia. }
  apply ewp_rd; [by eapply index_lt|]. rewrite Hfr. intros ? [= <-].
  apply k_get. apply k_trap_if; [apply T_other|done|]. intros _. simpl. rewrite Hnr, Hb.
  apply ewp_bind. set (m1 := upd_csp _ m).
  assert (machine_ok M m1) as Hok1 by done.
  eapply e_stack_move; [by apply moved_refl|lia..|].
  intros m2 (Hok2 & Hpc2 & Hfp2 & Hcsp2 & Hfr2 & Hsp2). simpl in *.
  apply (ewp_bind _ T (put _)). unfold ewp at 1, put.
  apply (ewp_bind _ T (put _)). unfold ewp at 1, put.
  destruct (csp m - 1 =? 0) eqn:Hz; [by apply T_other|]. unfold ewp, put.
  rewrite u32_id by (unfold STACK_CAP in *; lia).
  destruct Hch as [|k fp0 nres fr0 g h0 Hk Hi Hb0 Hn0 Hat0 Hfp0 Hsum Hch0]; [done|].
  replace (k + 1 - 1) with k in * by lia. rewrite Hfr in Hi. injection Hi as <-.
  apply (running_Inv g h0); simpl; [|done|lia].
  split; simpl; rewrite ?Hcsp2, ?Hfr2; try done; try lia; [|by apply (ao_in _ _ _ _ Hat0)].
  destruct Hok2 as [Ha2 _]. split; [exact Ha2|]. simpl. lia.
Qed.

(** ** Tail calls *)

Lemma tail_ok_at f pc in_ g :
  f ∈ M.(hm_funcs) → 0 ≤ f.(fm_code_off) → 0 ≤ pc - f.(fm_code_off) < f.(fm_code_len) →
  index M.(hm_code) pc = Some in_ → in_.(cu_op) = OP_RETURN_CALL →
  index M.(hm_funcs) in_.(cu_b) = Some g → g.(fm_n_results) = f.(fm_n_results).
Proof.
  intros Hf Hoff Hr [Hpc Hi]%index_Some Hop Hg.
  destruct loadable_parts as (_ & _ & Ht & _). specialize (Ht f Hf).
  unfold tail_ok in Ht. rewrite forallb_forall in Ht. specialize (Ht in_).
  rewrite Hop, Hg in Ht. simpl in Ht. apply Z.eqb_eq, Ht, list_elem_of_In.
  apply (list_elem_of_lookup_2 _ (Z.to_nat (pc - f.(fm_code_off)))).
  rewrite lookup_take_lt by lia. rewrite lookup_drop, <-Hi. f_equal. lia.
Qed.

Lemma exec_return_call_safe f g h fi m :
  running f m → 0 ≤ fi → callee_has_code M fi = true → index M.(hm_funcs) fi = Some g →
  g.(fm_n_results) = f.(fm_n_results) → g.(fm_n_params) ≤ h →
  m.(sp) = m.(fp) + f.(fm_n_params) + f.(fm_n_locals) + h →
  ewp (exec_return_call M fi) (fun _ m' => Inv M m') T m.
Proof.
  intros [Hok Hin Hfp Hcsp Hch] Hfi Hcode Hg Hres Hn Hsp.
  pose proof (at_entry _ _ Hg Hcode) as Hentry.
  destruct (funcs_meta g (ao_in _ _ _ _ Hentry)) as (_ & _ & Hnp & _).
  destruct (funcs_meta f Hin) as (_ & _ & Hp & _ & Hl).
  pose proof Hok as [Harr Hs]. pose proof (chain_pos _ _ _ _ Hch) as Hpos. unfold exec_return_call.
  apply k_trap_if; [apply T_other|done|]. intros _.
  apply ewp_rd; [by eapply index_lt|]. rewrite Hg. intros ? [= <-].
  apply k_get. apply k_trap_if; [apply T_other|done|]. intros _. apply k_get.
  apply ewp_bind. eapply e_stack_move; [by apply moved_refl|lia..|].
  intros m1 (Hok1 & Hpc1 & Hfp1 & Hcsp1 & Hfr1 & Hsp1).
  apply (ewp_bind _ T (put _)). unfold ewp at 1, put.
  rewrite u32_id by (unfold STACK_CAP in *; lia).
  set (m2 := upd_sp _ m1).
  assert (machine_ok M m2) as Hok2.
  { destruct Hok1 as [Ha1 Hs1]. split; [done|]. simpl. lia. }
  apply ewp_bind. eapply e_push_zeros; [by apply moved_refl|].
  intros m3 (Hok3 & Hpc3 & Hfp3 & Hcsp3 & Hfr3 & Hsp3). simpl in *.
  apply k_get. rewrite Hcsp3, Hcsp1. replace (0 <? csp m) with true by lia.
  assert (∃ fr, index m.(frames) (m.(csp) - 1) = Some fr ∧
    fr.(fr_n_results) = f.(fm_n_results)) as (fr & Hfr & Hnr).
  { destruct Hch as [fr ? H0 H1 H2|k ? ? fr ? ? ? H0 H1 H2]; exists fr; [done|].
    by replace (k + 1 - 1) with k by lia. }
  apply ewp_bind. apply k_get. rewrite Hfr3, Hfr1.
  apply ewp_rd; [by eapply index_lt|]. rewrite Hfr. intros ? [= <-].
  unfold ewp at 1, put. rewrite Hres, <-Hnr.
  replace (mkFrame _ _ _ _) with fr by (by destruct fr).
  rewrite list_insert_id by (by apply index_Some in Hfr as [_ ?]).
  unfold ewp, put. apply (running_Inv g 0); simpl; [|done|].
  - destruct Hok3 as [(A1 & A2 & A3 & A4 & A5 & A6 & A7) Hs3].
    split; simpl; rewrite ?Hfp3, ?Hfp1, ?Hcsp3, ?Hcsp1; try done; [|by apply (ao_in _ _ _ _ Hentry)|by rewrite Hres].
    split; [|done]. split_and!; simpl; try done; try apply A5. by rewrite <-Hfr1, <-Hfr3.
  - destruct (funcs_meta g (ao_in _ _ _ _ Hentry)) as (_ & _ & _ & _ & Hgl). lia.
Qed.

(** ** Branches and unwinding *)

Lemma i32_nonneg_id b : 0 ≤ b < 2 ^ 32 → 0 ≤ i32 b → i32 b = b.
Proof. unfold i32. intros. Z.to_euclidean_division_equations. lia. Qed.

Lemma exec_unwind_safe f h h' a b m :
  running f m → at_op M f m.(pc) h' → 0 ≤ a → 0 ≤ b < 2 ^ 32 →
  h' = i32 b - f.(fm_n_params) - f.(fm_n_locals) → h' ≤ h →
  m.(sp) = m.(fp) + f.(fm_n_params) + f.(fm_n_locals) + h →
  ewp (exec_unwind a b) (fun _ m' => Inv M m') T m.
Proof.
  intros Hr Hat Ha Hb Hh' Hle Hsp. pose proof Hr as [Hok _ Hfp Hcsp Hch].
  destruct (funcs_meta f (ao_in _ _ _ _ Hat)) as (_ & _ & Hp & _ & Hl).
  pose proof (ao_h _ _ _ _ Hat) as Hh0. pose proof Hok as [Harr Hs].
  rewrite i32_nonneg_id in Hh' by lia.
  unfold exec_unwind. do 2 apply k_get. rewrite u32_id by (unfold STACK_CAP in *; lia).
  apply k_trap_if; [apply T_other|done|]. intros Hk.
  apply k_trap_if; [apply T_other|done|]. intros Hd. apply ewp_bind.
  assert (∀ m', moved M 0 m m' →
    ewp (put (upd_sp (m.(fp) + b))) (fun _ m' => Inv M m') T m') as Hput.
  { intros m' Hm'. pose proof Hm' as ((Ha' & _) & Hpc' & Hfp' & Hcsp' & Hfr' & _).
    unfold ewp, put. apply (running_Inv f h'); simpl; [|by rewrite Hpc'|lia].
    split; simpl; rewrite ?Hfp', ?Hcsp', ?Hfr'; try done; [|by apply (ao_in _ _ _ _ Hat)].
    split; simpl; [done|unfold STACK_CAP in *; lia]. }
  destruct (_ =? _); [by apply Hput, moved_refl|].
  eapply e_stack_move; [by apply moved_refl|lia..|done].
Qed.

Lemma exec_br_safe f h b m :
  running f m → at_op M f b h → m.(sp) = m.(fp) + f.(fm_n_params) + f.(fm_n_locals) + h →
  ewp (exec_br b) (fun _ m' => Inv M m') T m.
Proof.
  intros [Hok _ Hfp Hcsp Hch] Hat Hsp. unfold exec_br. apply k_get. apply ewp_bind.
  assert (∀ x, ewp (put (upd_pc b)) (fun _ m' => Inv M m') T (upd_fuel x m)) as Hput.
  { intros x. unfold ewp, put. apply (running_Inv f h); simpl; [|done..].
    split; try done. by apply (ao_in _ _ _ _ Hat). }
  destruct (b <=? pc m).
  - apply k_get. apply (ewp_bind _ T (put _)). unfold ewp at 1, put.
    unfold trap_if. destruct (_ <=? 0); [by apply T_other|]. apply Hput.
  - specialize (Hput m.(fuel)). by destruct m.
Qed.

Lemma exec_br_if_not_safe f h b m :
  running f m → 1 ≤ h → at_op M f b (h - 1) → at_op M f m.(pc) (h - 1) →
  m.(sp) = m.(fp) + f.(fm_n_params) + f.(fm_n_locals) + h →
  ewp (v ← pop; if u32 v =? 0 then put (upd_pc b) else mret tt) (fun _ m' => Inv M m') T m.
Proof.
  intros Hr Hh Hb Hat Hsp. pose proof Hr as [Hok _ Hfp _ _].
  destruct (funcs_meta f (ao_in _ _ _ _ Hat)) as (_ & _ & Hp & _ & Hl).
  eapply k_pop; [by apply moved_refl|lia|]. intros v m' _ Hm'.
  pose proof (running_moved _ _ _ _ Hr Hm') as Hr'.
  pose proof Hm' as (_ & Hpc & Hfp' & _ & _ & Hsp').
  destruct (u32 v =? 0); unfold ewp, put, mret, EM_ret.
  - apply (running_Inv f (h - 1)); simpl; [|done|lia]. destruct Hr' as [R1 R2 R3 R4 R5]. by split.
  - apply (running_Inv f (h - 1)); [done|by rewrite Hpc|lia].
Qed.

(** ** Host calls *)

Lemma e_host_args n base m :
  machine_ok M m → 0 ≤ base → base + Z.of_nat n ≤ STACK_CAP →
  ewp (host_args base n) (fun vs m' => m' = m ∧ length vs = n) T m.
Proof.
  intros Hok. revert base. induction n as [|n IH]; intros base H0 Hn; simpl; [done|].
  eapply k_stack_at; [by apply moved_refl|lia|]. intros v _.
  eapply ewp_seq; [apply IH; lia|]. intros vs m' [-> Hvs]. split; [done|]. simpl. by rewrite Hvs.
Qed.

Lemma exec_call_host_safe f h a b m :
  mkCuOp OP_CALL_HOST a b ∈ M.(hm_code) → running f m → 0 ≤ a → Z.land (Z.shiftr a 8) 255 ≤ 1 → Z.land a 255 ≤ h →
  at_op M f m.(pc) (h - Z.land a 255 + Z.land (Z.shiftr a 8) 255) →
  m.(sp) = m.(fp) + f.(fm_n_params) + f.(fm_n_locals) + h →
  ewp (exec_call_host a b) (fun _ m' => Inv M m') T m.
Proof.
  intros Hin [Hok _ Hfp Hcsp Hch] Ha Hnr Hn Hat Hsp.
  destruct (funcs_meta f (ao_in _ _ _ _ Hat)) as (_ & _ & Hp & _ & Hl).
  assert (0 ≤ Z.land a 255) by (apply Z.land_nonneg; right; lia).
  assert (0 ≤ Z.land (Z.shiftr a 8) 255) by (apply Z.land_nonneg; right; lia).
  pose proof Hok as [Harr Hs]. unfold exec_call_host.
  apply k_trap_if; [apply T_other|done|]. intros Hmax. apply k_get.
  apply k_trap_if; [apply T_other|done|]. intros _.
  eapply ewp_seq; [apply e_host_args; [done|lia..]|]. intros args m' [-> Hargs].
  apply k_get. apply (ewp_bind _ T (put _)). unfold ewp at 1, put.
  apply (ewp_bind _ T (put _)). unfold ewp at 1, put. unfold ewp, trap. intros _.
  split; [|split; [simpl; lia|split]].
  - split; simpl; [done|lia].
  - exists a, b. simpl. rewrite len_app. pose proof (len_nonneg (drop (length args) m.(mb).(mb_args))).
    split_and!; try done; [lia|]. unfold len at 1. lia.
  - exists f. eexists. simpl. split_and!; [done|lia|done..].
Qed.

(** ** Indirect calls *)

Lemma exec_call_indirect_safe f h ty fpv m :
  running f m → 0 ≤ ty → index M.(hm_type_fp) ty = Some fpv → 1 + Z.land fpv 255 ≤ h →
  at_op M f m.(pc) (h - 1 - Z.land fpv 255 + Z.land (Z.shiftr fpv 8) 255) →
  m.(sp) = m.(fp) + f.(fm_n_params) + f.(fm_n_locals) + h →
  ewp (exec_call_indirect M ty) (fun _ m' => Inv M m') T m.
Proof.
  intros Hr Hty Hfpv Hn Hat Hsp. pose proof Hr as [Hok _ Hfp _ _].
  destruct (funcs_meta f (ao_in _ _ _ _ Hat)) as (_ & _ & Hp & _ & Hl).
  assert (0 ≤ Z.land fpv 255) by (apply Z.land_nonneg; right; lia).
  destruct loadable_parts as (_ & _ & _ & Htab & Hsig & _).
  unfold exec_call_indirect. eapply k_pop; [by apply moved_refl|lia|]. intros v m1 _ Hm1.
  pose proof (u32_range v) as Hv.
  apply k_trap_if; [apply T_other|done|]. intros Hidx.
  apply ewp_rd; [lia|]. intros fi Hfi. destruct (Htab _ _ Hfi) as [Hfi0 Hcode].
  apply k_trap_if; [apply T_other|done|]. intros Hnull.
  destruct (index_is_Some M.(hm_funcs) fi) as [g Hg]; [lia|].
  pose proof (Hsig _ _ Hg) as Hs. unfold sig_ok in Hs.
  destruct (M.(hm_func_typeidx) !! Z.to_nat fi) as [t|] eqn:Ht; [|done].
  assert (index M.(hm_func_typeidx) fi = Some t) as Hti by (by apply index_Some).
  apply ewp_bind.
  destruct (negb (len (hm_func_typeidx M) =? 0) && negb (len (hm_type_fp M) =? 0) &&
    (ty <? len (hm_type_fp M))); [|by apply T_other].
  apply ewp_rd; [by eapply index_lt|]. rewrite Hti. intros ? [= <-].
  apply k_trap_if; [apply T_other|done|]. intros Hhave.
  apply ewp_rd; [lia|]. intros x Hx. rewrite Hx in Hs.
  apply ewp_rd; [by eapply index_lt|]. rewrite Hfpv. intros ? [= <-].
  unfold trap_if. destruct (negb (x =? fpv)) eqn:Hxy; [by apply T_other|].
  unfold ewp at 1, mret, EM_ret. assert (x = fpv) as -> by lia.
  apply ewp_rd; [by eapply index_lt|]. rewrite Hg. intros ? [= <-].
  pose proof (running_moved _ _ _ _ Hr Hm1) as Hr1.
  destruct Hm1 as (_ & Hpc1 & Hfp1 & _ & _ & Hsp1).
  eapply (enter_safe f g fi); [done|by rewrite Hpc1|done..|lia|lia].
Qed.

(** ** One op *)

Lemma exec_simple_safe f in_ n net e m0 :
  op_lookup in_.(cu_op) height_table = Some (n, net, e) → op_ok M in_ = true →
  index_checks M f in_ = Ok tt → machine_ok M m0 → 0 ≤ f.(fm_n_params) → 0 ≤ f.(fm_n_locals) →
  0 ≤ m0.(fp) → m0.(fp) + f.(fm_n_params) + f.(fm_n_locals) + n ≤ m0.(sp) →
  ewp (exec M in_) (fun _ m => moved M net m0 m) T m0.
Proof.
  intros Hop Hin Hck Hok Hp Hl Hfp Hn.
  destruct loadable_parts as (_ & _ & _ & _ & _ & Hdata & Hmem). unfold exec.
  destruct (exec_alu _) as [c|] eqn:Halu.
  { eapply exec_alu_safe; [apply T_other|done..|lia]. }
  destruct (exec_wide in_) as [c|] eqn:Hwide.
  { eapply exec_wide_safe; [apply T_other|done..|lia]. }
  destruct (exec_var M in_) as [c|] eqn:Hvar.
  { eapply exec_var_safe; [apply T_other|done..|lia]. }
  destruct (exec_control M in_) as [c|] eqn:Hctl.
  { exfalso. unfold exec_control in Hctl.
    repeat match type of Hctl with
    | (if ?b then Some _ else _) = Some _ =>
        destruct b eqn:?E; [clear Hctl|]
    end; try discriminate;
    repeat match goal with H : (_ || _) = true |- _ => apply orb_true_iff in H as [H|H] end;
    match goal with H : (_ =? _) = true |- _ => apply Z.eqb_eq in H; rewrite H in Hop end;
    discriminate Hop. }
  destruct (exec_memory M in_) as [c|] eqn:Hmm.
  { eapply exec_memory_safe; [apply T_other|done..|lia]. }
  by apply T_other.
Qed.

Lemma op_ok_calls in_ :
  op_ok M in_ = true →
  (in_.(cu_op) = OP_CALL ∨ in_.(cu_op) = OP_RETURN_CALL → callee_has_code M in_.(cu_b) = true) ∧
  (in_.(cu_op) = OP_CALL_HOST → Z.land (Z.shiftr in_.(cu_a) 8) 255 ≤ 1).
Proof.
  unfold op_ok. destruct in_ as [op a b]. simpl. intros Hin.
  apply andb_true_iff in Hin as [Hin Hh]. apply andb_true_iff in Hin as [_ Hc]. split.
  - intros [-> | ->]; by destruct (callee_has_code M b).
  - intros ->. simpl in Hh. lia.
Qed.

(** An op with effect [e], run from the state [m] after the fetch. *)
Lemma exec_safe f in_ h e m :
  in_ ∈ M.(hm_code) → running f m → effect M f in_ h = Ok e → op_ok M in_ = true → index_checks M f in_ = Ok tt →
  (∀ t th, e.(jump) = Some (t, th) → at_op M f (f.(fm_code_off) + t) th) →
  (e.(falls) = true → at_op M f m.(pc) e.(next_h)) →
  (∀ g, in_.(cu_op) = OP_RETURN_CALL → index M.(hm_funcs) in_.(cu_b) = Some g →
     g.(fm_n_results) = f.(fm_n_results)) →
  m.(sp) = m.(fp) + f.(fm_n_params) + f.(fm_n_locals) + h →
  ewp (exec M in_) (fun _ m' => Inv M m') T m.
Proof.
  intros Hcode Hrun He Hin Hck Hjmp Hfall Htail Hsp. pose proof Hrun as [Hok Hf Hfp Hcsp Hch].
  destruct (funcs_meta f Hf) as (_ & _ & Hp & _ & Hl).
  destruct (op_ok_fields M in_ Hin) as [Ha Hb]. unfold effect in He.
  destruct (op_lookup in_.(cu_op) height_table) as [[[n net] er]|] eqn:Hop.
  { inv_need. eapply ewp_mono; [eapply (exec_simple_safe f); try done; lia|].
    intros [] m' Hm'. specialize (Hfall eq_refl). simpl in Hfall.
    pose proof Hm' as (_ & Hpc' & Hfp' & _ & _ & Hsp').
    apply (running_Inv f (h + net)); [by eapply running_moved|by rewrite Hpc'|lia]. }
  clear Hop. destruct (op_ok_calls _ Hin) as [Hcall Hhost].
  destruct in_ as [op a b]. simpl in *.
  destruct (op =? OP_UNWIND) eqn:E1; [apply Z.eqb_eq in E1 as ->|clear E1].
  { unfold unwind_effect in He. inv_need. specialize (Hfall eq_refl). simpl in Hfall.
    eapply (exec_unwind_safe f h); try done; simpl; lia. }
  destruct (op =? OP_BR) eqn:E2; [apply Z.eqb_eq in E2 as ->|clear E2].
  { unfold br_effect in He. inv_need. specialize (Hjmp _ _ eq_refl).
    replace (fm_code_off f + (b - fm_code_off f)) with b in Hjmp by lia.
    by eapply (exec_br_safe f h). }
  destruct (op =? OP_BR_IF_NOT) eqn:E3; [apply Z.eqb_eq in E3 as ->|clear E3].
  { unfold br_if_not_effect in He. inv_need. specialize (Hjmp _ _ eq_refl).
    replace (fm_code_off f + (b - fm_code_off f)) with b in Hjmp by lia.
    specialize (Hfall eq_refl). eapply (exec_br_if_not_safe f h); try done; simpl; lia. }
  destruct (op =? OP_CALL) eqn:E4; [apply Z.eqb_eq in E4 as ->|clear E4].
  { unfold call_effect in He. inv_need. specialize (Hfall eq_refl). simpl in Hfall.
    eapply (exec_call_safe f h); try done; [simpl; lia|by apply Hcall; left|].
    intros g Hg. simpl in Hg. rewrite Ho in Hg. injection Hg as <-. lia. }
  destruct (op =? OP_RETURN_CALL) eqn:E5; [apply Z.eqb_eq in E5 as ->|clear E5].
  { unfold return_call_effect in He. inv_need.
    eapply (exec_return_call_safe f f0 h); try done; [simpl; lia|by apply Hcall; right|by apply Htail|lia]. }
  destruct ((op =? OP_RETURN) || (op =? OP_END_FUNC)) eqn:E6; [|].
  { inv_need. apply orb_true_iff in E6 as [E6|E6]; apply Z.eqb_eq in E6 as ->;
      eapply (exec_return_safe f h); try done; lia. }
  destruct (op =? OP_UNREACHABLE) eqn:E7; [apply Z.eqb_eq in E7 as ->; by apply T_other|].
  destruct (op =? OP_CALL_HOST) eqn:E8; [apply Z.eqb_eq in E8 as ->|clear E8].
  { unfold call_host_effect in He. inv_need. specialize (Hfall eq_refl). simpl in Hfall.
    eapply (exec_call_host_safe f h); try done; [simpl; lia|by apply Hhost|simpl; lia]. }
  destruct (op =? OP_CALL_INDIRECT) eqn:E9; [apply Z.eqb_eq in E9 as ->|done].
  unfold call_indirect_effect in He. inv_need. specialize (Hfall eq_refl). simpl in Hfall.
  eapply (exec_call_indirect_safe f h); try done; simpl; lia.
Qed.

(** ** One step *)

Lemma step_safe m : Inv M m → ewp (step M) (fun _ m' => Inv M m') T m.
Proof.
  intros (Hok & f & h & Hat & Hsp & Hfp & Hcsp & Hch).
  destruct (at_op_fetch f m.(pc) h Hat) as (in_ & e & Hi & He & Hck & Hr & Hj & Hfl).
  destruct loadable_parts as (Hlen & Hops & _). pose proof (index_lt _ _ _ Hi) as Hpc.
  unfold step. apply k_get. apply k_trap_if; [apply T_other|done|]. intros _.
  apply ewp_rd; [done|]. rewrite Hi. intros ? [= <-].
  apply (ewp_bind _ T (put _)). unfold ewp at 1, put. rewrite u32_id by lia.
  eapply ewp_seq.
  - eapply (exec_safe f in_ h e); try done; [by eapply index_elem_of| |by eapply Hops|].
    + split; try done. by apply (ao_in _ _ _ _ Hat).
    + intros g Hop Hg. destruct (ao_span _ _ _ _ Hat) as [? _].
      eapply tail_ok_at; try done. by apply (ao_in _ _ _ _ Hat).
  - intros [] m' HI. apply k_get. unfold trap_if.
    destruct (STACK_CAP <? _); [by apply T_other|done].
Qed.

Lemma run_instance_safe n m :
  Inv M m →
  match run_instance M n m with
  | (Undefined _, _) => False
  | (OutOfSteps, m') => Inv M m'
  | (Stopped s, m') => s = ST_HOSTCALL_PENDING → Pending M m'
  end.
Proof.
  revert m. induction n as [|n IH]; intros m HI; simpl; [done|].
  pose proof (step_safe m HI) as Hs. unfold ewp in Hs.
  destruct (step M m) as [[[]|s|w] m']; [by apply IH|done|done].
Qed.

(** ** The driver *)

(** What the driver expects of a host function, in the worlds [I] it may find itself
    in: when it answers a call the module makes, it keeps the number of results asked
    for and the shape of the mailbox and of the memory. *)
Definition host_ok {W} (I : W → Prop) (host : HostFn W) : Prop :=
  ∀ box mem w, I w → asked M box → len box.(mb_results) = 1 → len mem = len M.(hm_memory) →
    let '(ok, box', mem', w') := host box mem w in
    I w' ∧ len mem' = len mem ∧
    (ok = true → box'.(mb_n_results) = box.(mb_n_results) ∧ len box'.(mb_results) = 1).

(** Each round starts from the module's memory size. *)
Lemma Inv_reset_msize m : Inv M m → Inv M (upd_msize M.(hm_mem_size) m).
Proof.
  destruct loadable_parts as (_ & _ & _ & _ & _ & _ & Hmem). unfold mem_ok in Hmem.
  intros [[(A1 & A2 & A3 & A4 & A5 & A6 & A7) Hs] Hat]. split; [|done]. split; [|done].
  split_and!; simpl; try done; lia.
Qed.

Lemma store_next_safe v m :
  machine_ok M m → m.(sp) < STACK_CAP → ewp (store_next v) (fun _ m' => moved M 1 m m') T m.
Proof.
  intros Hok Hsp. pose proof Hok as [_ Hs]. unfold store_next. apply k_get. apply ewp_bind.
  eapply e_stack_set; [by apply moved_refl|lia|apply u64_range|].
  intros m' ((Ha & _) & Hpc & Hfp & Hcsp & Hfr & Hsp'). unfold ewp, put.
  rewrite u32_id by (unfold STACK_CAP in *; lia).
  split_and!; simpl; try done. split; simpl; [done|lia].
Qed.

Lemma resume_safe m box mem :
  Pending M m → box.(mb_n_results) = m.(mb).(mb_n_results) →
  len box.(mb_results) = len m.(mb).(mb_results) → len mem = len m.(memory) →
  ewp (push_results 0 (Z.to_nat box.(mb_n_results))) (fun _ m' => Inv M m') T
    (upd_memory mem (upd_mb box m)).
Proof.
  intros (Hok & Hn & _ & Hat) Hbn Hbl Hml. rewrite Hbn.
  assert (machine_ok M (upd_memory mem (upd_mb box m))) as Hok1.
  { destruct Hok as [(A1 & A2 & A3 & A4 & A5 & A6 & A7) Hs]. split; [|done].
    split_and!; simpl; try done; [lia|apply A5|lia..]. }
  destruct (decide (m.(mb).(mb_n_results) = 0)) as [H0|H1].
  - rewrite H0. simpl. split; [done|]. rewrite H0, Z.add_0_r in Hat. exact Hat.
  - assert (m.(mb).(mb_n_results) = 1) as H2 by lia. rewrite H2 in *. simpl.
    apply k_get. apply k_trap_if; [apply T_other|done|]. intros Hsp. apply k_get.
    apply e_rd; [destruct Hok1 as [(_ & _ & _ & _ & _ & _ & A7) _]; simpl in *; lia|]. intros v.
    eapply ewp_seq; [apply store_next_safe; [done|simpl in *; lia]|].
    intros [] m' (Hok' & Hpc & Hfp & Hcsp & Hfr & Hsp'). simpl in *.
    split; [done|]. destruct Hat as (f & h & Hat & Hs & R). exists f, h.
    rewrite Hpc, Hfp, Hcsp, Hfr, Hsp'. done.
Qed.

(** *** The module after a run *)

Definition left_by (M' : HostModule) : Prop :=
  ∃ m size, M' = shared M m size ∧ fits M m ∧ 0 ≤ size ≤ len M.(hm_memory).

Lemma left_same_size m : fits M m → left_by (shared M m M.(hm_mem_size)).
Proof.
  destruct loadable_parts as (_ & _ & _ & _ & _ & _ & Hmem). unfold mem_ok in Hmem.
  intros HF. exists m, M.(hm_mem_size). split_and!; [done..|lia|lia].
Qed.

Lemma left_own_size m : fits M m → left_by (shared M m m.(msize)).
Proof.
  intros HF. pose proof HF as (Hl & _ & _ & ? & ?). exists m, m.(msize). split_and!; [done..|lia|lia].
Qed.

Lemma fits_reset m : fits M m → fits M (upd_msize M.(hm_mem_size) m).
Proof.
  destruct loadable_parts as (_ & _ & _ & _ & _ & _ & Hmem). unfold mem_ok in Hmem.
  intros (H1 & H2 & H3 & _). unfold fits, size_ok. simpl. split_and!; try done; lia.
Qed.

(** How a run may end, and what it leaves. *)
Definition ends_well {W} (I : W → Prop) (x : RunResult * HostModule * W) : Prop :=
  (∀ e, x.1.1 ≠ Corrupted e) ∧ left_by x.1.2 ∧ I x.2.

Lemma drive_safe {W} (I : W → Prop) host n nres r w m :
  host_ok I host → I w → Inv M m → fits M m → ends_well I (drive M host n nres r w m).
Proof.
  intros Hh. revert w m. induction r as [|r IH]; intros w m Hw HI HF.
  { split_and!; [done|by apply left_same_size|done]. }
  rewrite drive_S. pose proof (run_instance_fits M n _ (fits_reset _ HF)) as HF1.
  pose proof (run_instance_safe n _ (Inv_reset_msize _ HI)) as Hrun.
  destruct (run_instance _ _ _) as [[|s|] m1]; [by apply IH| |done]. simpl in HF1.
  destruct s; try (split_and!; [done|by apply left_own_size|done]). simpl. specialize (Hrun eq_refl).
  pose proof Hrun as (Hok & _ & Hask & _). pose proof Hok as [(_ & _ & Hml & _ & _ & _ & Hbl) _].
  specialize (Hh m1.(mb) m1.(memory) w Hw Hask Hbl).
  destruct (host (mb m1) (memory m1) w) as [[[ok box] mem] w1].
  destruct Hh as (Hw1 & Hmem & Hbox); [by destruct HF1|].
  assert (fits M (upd_memory mem (upd_mb box m1))) as HF2.
  { destruct HF1 as (G1 & G2 & G3 & G4 & G5). unfold fits, size_ok. simpl. split_and!; try done; lia. }
  destruct ok; simpl; [|by split_and!; [done|apply left_same_size|]].
  destruct Hbox as [Hbn Hb1]; [done|].
  pose proof (resume_safe m1 box mem Hrun Hbn ltac:(lia) Hmem) as Hres. unfold ewp in Hres.
  apply (fits_quiet (push_results 0 (Z.to_nat (mb_n_results box))) _ _ _) in HF2.
  destruct (push_results _ _ _) as [[[]| |] m2]; [by apply IH| |done].
  by split_and!; [done|apply left_same_size|].
Qed.

Lemma store_all_safe vs m :
  machine_ok M m → m.(sp) + len vs ≤ STACK_CAP →
  ewp (store_all vs) (fun _ m' => moved M (len vs) m m') T m.
Proof.
  revert m. induction vs as [|v vs IH]; intros m Hok Hl; simpl; [by apply moved_refl|].
  rewrite len_cons in *. pose proof (len_nonneg vs).
  eapply ewp_seq; [apply store_next_safe; [done|lia]|].
  intros [] m1 (Hok1 & Hpc1 & Hfp1 & Hcsp1 & Hfr1 & Hsp1).
  eapply ewp_mono; [apply IH; [done|lia]|].
  intros [] m2 (Hok2 & Hpc2 & Hfp2 & Hcsp2 & Hfr2 & Hsp2).
  split_and!; [done|congruence..|lia].
Qed.

Lemma blank_ok f : machine_ok M (blank M f).
Proof.
  destruct loadable_parts as (_ & _ & _ & _ & _ & _ & Hmem). unfold mem_ok in Hmem.
  split; [|cbn [blank sp]; unfold STACK_CAP; lia].
  unfold arrays_ok, blank; cbn [stack frames memory msize live mb mb_results].
  rewrite len_insert, !len_replicate. split_and!; try done; try lia.
  apply Forall_replicate. unfold in_u64. lia.
Qed.

Lemma boot_safe fi f args :
  index M.(hm_funcs) fi = Some f → callee_has_code M fi = true → len args = f.(fm_n_params) →
  f.(fm_n_params) + f.(fm_n_locals) ≤ STACK_CAP →
  match boot M f args with (Val _, m) => Inv M m | (Trap _, _) => True | (UB _, _) => False end.
Proof.
  intros Hf Hc Ha Hcap. pose proof (at_entry _ _ Hf Hc) as Hat.
  destruct (funcs_meta f (ao_in _ _ _ _ Hat)) as (_ & _ & Hp & _ & Hl).
  set (vs := args ++ replicate (Z.to_nat f.(fm_n_locals)) 0).
  assert (len vs = f.(fm_n_params) + f.(fm_n_locals)) as Hvs.
  { unfold vs. rewrite len_app, Ha. unfold len at 1. rewrite length_replicate. lia. }
  pose proof (store_all_safe vs (blank M f) (blank_ok f)) as Hs.
  unfold boot. fold vs. unfold ewp in Hs.
  destruct (store_all vs (blank M f)) as [[[]|s|w] m]; [|done|by apply Hs; simpl; lia].
  destruct Hs as (Hok & Hpc & Hfp & Hcsp & Hfr & Hsp); [simpl; lia|]. simpl in *.
  split; [done|]. exists f, 0. rewrite Hpc, Hfp, Hcsp, Hfr. split_and!; try done; try lia.
  by apply (chain_base _ _ (mkFrame 0 0 0 f.(fm_n_results))).
Qed.

Lemma left_usable M' : left_by M' → verified M' ∧ loadable M' = true.
Proof.
  intros (m & size & -> & (H1 & H2 & H3 & _) & Hs). split; [exact HV|].
  unfold loadable, data_ok, mem_ok in *. simpl. rewrite H1, H3.
  rewrite !andb_true_iff in *. destruct_and?. split_and?; try done; lia.
Qed.

Lemma run_cpu_safe {W} (I : W → Prop) fi f args max_steps host rounds w :
  index M.(hm_funcs) fi = Some f → callee_has_code M fi = true →
  f.(fm_n_params) + f.(fm_n_locals) ≤ STACK_CAP → host_ok I host → I w →
  (run_cpu M fi args max_steps host rounds w).1.2 = M ∧ I (run_cpu M fi args max_steps host rounds w).2 ∧
    (run_cpu M fi args max_steps host rounds w).1.1 = Finished ST_UNSUPPORTED_OP [] ∨
  ends_well I (run_cpu M fi args max_steps host rounds w).
Proof.
  intros Hf Hc Hcap Hh Hw. unfold run_cpu. rewrite Hf.
  destruct (len args =? f.(fm_n_params)) eqn:Ha; [|by left]. right. simpl.
  assert (fits M (blank M f)) as HF.
  { destruct loadable_parts as (_ & _ & _ & _ & _ & _ & Hmem). unfold mem_ok in Hmem.
    unfold fits, size_ok, blank. cbn [memory globals live msize]. split_and!; try done; lia. }
  apply (fits_quiet (store_all (args ++ replicate (Z.to_nat f.(fm_n_locals)) 0)) _ _ _) in HF.
  pose proof (boot_safe fi f args Hf Hc ltac:(lia) Hcap) as Hb. unfold boot in *.
  destruct (store_all _ _) as [[[]|s|e] m]; [by apply drive_safe| |done].
  by split_and!; [done|apply left_same_size|].
Qed.
End sound.

(** ** Theorem *)

(** The functions a client may call: those with code whose locals fit the stack. *)
Definition callable (M : HostModule) (fi : Z) : bool :=
  match index M.(hm_funcs) fi with
  | None => true
  | Some f => negb (f.(fm_code_len) =? 0) && (f.(fm_n_params) + f.(fm_n_locals) <=? STACK_CAP)
  end.

Definition corrupted (r : RunResult) : bool := match r with Corrupted _ => true | _ => false end.

(** The module a run leaves has the code, the functions and the memory length it had. *)
Definition same_shape (M M' : HostModule) : Prop :=
  M'.(hm_code) = M.(hm_code) ∧ M'.(hm_funcs) = M.(hm_funcs) ∧
  len M'.(hm_memory) = len M.(hm_memory).

Lemma run_callable {W} (I : W → Prop) M fi args n host r w :
  verified M → loadable M = true → callable M fi = true → host_ok M I host → I w →
  let x := run_cpu M fi args n host r w in
  corrupted x.1.1 = false ∧ verified x.1.2 ∧ loadable x.1.2 = true ∧ same_shape M x.1.2 ∧ I x.2.
Proof.
  intros HV HL Hc Hh Hw. cbv zeta. unfold callable in Hc.
  destruct (index M.(hm_funcs) fi) as [f|] eqn:Hf; [|unfold run_cpu; by rewrite Hf].
  apply andb_true_iff in Hc as [Hc Hl].
  destruct (run_cpu_safe M HV HL I fi f args n host r w) as [(-> & Hi & ->)|(Hx & Hleft & Hi)];
    [done| |lia|done|done|done|].
  { unfold callee_has_code. by rewrite Hf. }
  destruct (left_usable M HV HL _ Hleft). split; [|split; [done|split; [done|split; [|done]]]].
  - destruct (run_cpu _ _ _ _ _ _ _) as [[[|e|] ?] ?]; try done. by destruct (Hx e).
  - destruct Hleft as (m & size & -> & Hm & _). by destruct Hm.
Qed.

Lemma host_ok_shape {W} (I : W → Prop) M M' host :
  same_shape M M' → host_ok M I host → host_ok M' I host.
Proof.
  intros (Hc & _ & Hm) Hh box mem w Hw (a & b & Hin & Hask) Hb Hl. apply Hh; [done| |done|congruence].
  exists a, b. by rewrite <-Hc.
Qed.

Lemma run_calls_safe {W} (I : W → Prop) calls n (host : HostFn W) r : ∀ M w,
  verified M → loadable M = true → host_ok M I host → I w →
  forallb (fun c => callable M c.1) calls = true →
  forallb (fun x => negb (corrupted x)) (run_calls M calls n host r w).1.1 = true ∧
  I (run_calls M calls n host r w).2.
Proof.
  induction calls as [|[fi args] calls IH]; intros M w HV HL Hh Hw Hc; simpl in *; [done|].
  apply andb_true_iff in Hc as [Hc Hcs].
  destruct (run_callable I M fi args n host r w HV HL Hc Hh Hw) as (Hr & HV1 & HL1 & Hs & Hw1).
  destruct (run_cpu M fi args n host r w) as [[x M1] w1]. simpl in *.
  destruct (IH M1 w1 HV1 HL1) as [Hrs Hw2]; [by eapply host_ok_shape|done| |].
  { unfold callable in *. by destruct Hs as (_ & -> & _). }
  destruct (run_calls M1 calls n host r w1) as [[xs M2] w2]. simpl in *. by rewrite Hr.
Qed.

(** C9. Soundness of [verify_cuop] for the interpreter. Take a module whose function
    records hold no negative numbers, that [verify_cuop] accepts, and that meets what
    the verifier does not check ([loadable]: instruction fields, code, data and memory
    fit their widths, [clz] has one of its widths, data segments lie in the blob,
    functions have the arities of their fingerprint, tail calls agree on results,
    calls and table entries do not name imports, host calls return at most one value).
    Then no sequence of calls makes an access outside the operand stack, the frame
    stack, the code, the constants, the tables, the data segments or the linear
    memory, whatever the arguments, the slice length, the number of rounds and what a
    host function, with a state of its own, returns or writes to the memory, provided
    that each called function is [callable] (it has code, and its parameters and
    locals fit the 4096 slots of the stack, which the verifier does not check for an
    entry function) and that the host leaves the mailbox and the memory their sizes
    and the mailbox its number of results ([host_ok]). The memory, globals and segment
    flags one call leaves are those the next starts with. *)
Theorem verified_run_safe {W} (I : W → Prop) M M' calls max_steps host rounds w :
  Forall meta_ok M.(hm_funcs) → verify_cuop M = Some (Ok M') → loadable M' = true →
  host_ok M' I host → I w → forallb (fun c => callable M' c.1) calls = true →
  forallb (fun x => negb (corrupted x)) (run_calls M' calls max_steps host rounds w).1.1 = true.
Proof.
  intros HM Hv HL Hh Hw Hc.
  destruct (verify_cuop_verified M M' HM Hv) as (fs & _ & _ & HV). by eapply run_calls_safe.
Qed.

(** The factorial function, compiled. *)
Definition fact_payloads : list (item Payload) :=
  [ Item (TypeSection [Item [CtFunc [I64] [I64]]]);
    Item (FunctionSection [Item 0]);
    Item (CodeSectionEntry (mkBody (Item []) (Item (Item <$>
      [LocalGet 0; I64Eqz; If (BtType I64); I64Const 1; Else; LocalGet 0; LocalGet 0;
       I64Const 1; I64Sub; Call 0; I64Mul; End; End])))) ].

Definition fact_module : outcome HostModule :=
  M ← translate_wasm soroban_env (fun _ => fact_payloads) [];
  match verify_cuop M with Some r => r | None => Panic "fuel" end.

Definition fact_checks (M : HostModule) : bool :=
  loadable M && callable M 0 &&
  bool_decide ((run_calls M [(0, [5]); (0, [3])] 1000 no_host 1 tt).1.1 =
               [Finished ST_OK [120]; Finished ST_OK [6]]).

Lemma verified_run_safe_witness :
  ∃ M', fact_module = Ok M' ∧
    (run_calls M' [(0, [5]); (0, [3])] 1000 no_host 1 tt).1.1 =
      [Finished ST_OK [120]; Finished ST_OK [6]] ∧
    ∀ a b n r, forallb (fun x => negb (corrupted x))
      (run_calls M' [(0, a); (0, b)] n no_host r tt).1.1 = true.
Proof.
  destruct (ok_such_that (translate_wasm soroban_env (fun _ => fact_payloads) [])
    (fun M => match verify_cuop M with Some (Ok M') => fact_checks M' | _ => false end &&
              bool_decide (Forall meta_ok M.(hm_funcs)))) as (M & HM & Hb);
    [vm_compute; reflexivity|].
  apply andb_true_iff in Hb as [Hv Hm%bool_decide_eq_true_1].
  destruct (verify_cuop M) as [[M'| |]|] eqn:Hver; try discriminate Hv.
  apply andb_true_iff in Hv as [Hv Hrun%bool_decide_eq_true_1].
  apply andb_true_iff in Hv as [Hl Hc].
  exists M'. split; [unfold fact_module; rewrite HM; simpl; rewrite Hver; reflexivity|].
  split; [exact Hrun|]. intros a b n r.
  apply (verified_run_safe (fun _ => True) M M' [(0, a); (0, b)] n no_host r tt Hm Hver Hl).
  - intros box mem w Hw Hask Hb Hmem. split; [exact Hw|]. split; [reflexivity|]. discriminate.
  - exact I.
  - simpl. rewrite Hc. reflexivity.
Defined.
