(* ===== verification/Capi.v ===== *)
(** * The C boundary of the translator

    [cuwasm_translate_wasm] and [cuwasm_translate_free] of [tools/src/lib.rs]:
    every vector of a [HostModule] is handed over as a raw pointer and a 32-bit
    count, and taken back from the same pair to be freed.  The heap keeps what each
    allocation holds, so that leaks, double frees and a count that differs from the
    allocation's can be told; those two are undefined behaviour in the source and
    end a computation with [Panic] here.  [src/translate.cpp] reads the fields back
    on the C++ side. *)

From S2P Require Import Prelude Cuop Wasm Lower EnvTable Module Engine.
From stdpp Require Import base list strings gmap.

Local Open Scope Z_scope.

(** ** Heap *)

(** An empty vector has no allocation: its pointer is dangling, not null. *)
Inductive ptr := Null | Dangling | Addr (a : positive).

#[export] Instance ptr_eq_dec : EqDecision ptr.
Proof. solve_decision. Defined.

Inductive buf :=
  | BOps (l : list CuOpC)
  | BFuncs (l : list FuncMetaC)
  | BU64 (l : list Z)
  | BU32 (l : list Z)
  | BU8 (l : list Z)
  | BPtrs (l : list ptr)
  | BStr (s : string).

(** The element type and the number of elements of an allocation. *)
Inductive elem_ty := EOps | EFuncs | EU64 | EU32 | EU8 | EPtrs | EStr.

#[export] Instance elem_ty_eq_dec : EqDecision elem_ty.
Proof. solve_decision. Defined.

Definition buf_ty (b : buf) : elem_ty :=
  match b with
  | BOps _ => EOps | BFuncs _ => EFuncs | BU64 _ => EU64 | BU32 _ => EU32
  | BU8 _ => EU8 | BPtrs _ => EPtrs | BStr _ => EStr
  end.

Definition buf_len (b : buf) : Z :=
  match b with
  | BOps l => len l | BFuncs l => len l | BU64 l => len l | BU32 l => len l
  | BU8 l => len l | BPtrs l => len l | BStr s => Z.of_nat (String.length s) + 1
  end.

Abbreviation Heap := (gmap positive buf).
Abbreviation HM := (St Heap).

Definition undefined {A} (what : string) : HM A := fun h => (Panic what, h).

Definition alloc (b : buf) : HM ptr := fun h =>
  let a := fresh (dom h) in (Ok (Addr a), <[a := b]> h).

Definition vec_to_raw (b : buf) : HM (ptr * Z) :=
  if buf_len b =? 0 then mret (Dangling, 0)
  else p ← alloc b; mret (p, u32 (buf_len b)).

(** [Vec::from_raw_parts(p, n, n)], dropped: the type and the capacity must be the
    allocation's. *)
Definition dealloc (t : elem_ty) (p : ptr) (n : Z) : HM unit :=
  match p with
  | Null => undefined "from_raw_parts of null"
  | Dangling => if n =? 0 then mret tt else undefined "count of a dangling pointer"
  | Addr a => fun h =>
      match h !! a with
      | None => (Panic "double free", h)
      | Some b =>
          if bool_decide (buf_ty b = t) && (buf_len b =? n)
          then (Ok tt, delete a h) else (Panic "layout mismatch", h)
      end
  end.

Definition free_vec (t : elem_ty) (p : ptr) (n : Z) : HM unit :=
  if bool_decide (p = Null) then mret tt else dealloc t p n.

(** ** Strings *)

Fixpoint has_nul (s : string) : bool :=
  match s with
  | EmptyString => false
  | String c s' => bool_decide (c = Ascii.zero) || has_nul s'
  end.

(** [msg.replace('\0', "")] *)
Fixpoint strip_nul (s : string) : string :=
  match s with
  | EmptyString => EmptyString
  | String c s' => if bool_decide (c = Ascii.zero) then strip_nul s' else String c (strip_nul s')
  end.

(** [CString::new(s).unwrap().into_raw()] *)
Definition cstring (s : string) : HM ptr :=
  if has_nul s then undefined "NulError" else alloc (BStr s).

Definition cstring_err (s : string) : HM ptr := cstring (strip_nul s).

(** [CString::from_raw(p)], dropped. *)
Definition free_cstring (p : ptr) : HM unit := fun h =>
  match p with
  | Addr a =>
      match h !! a with
      | Some (BStr _) => (Ok tt, delete a h)
      | _ => (Panic "CString::from_raw", h)
      end
  | _ => (Panic "CString::from_raw", h)
  end.

Definition free_cstring_opt (p : ptr) : HM unit :=
  if bool_decide (p = Null) then mret tt else free_cstring p.

(** ** The record *)

Record TranslateOut := mkOut {
  o_code : ptr; o_n_code : Z;
  o_consts : ptr; o_n_consts : Z;
  o_funcs : ptr; o_n_funcs : Z;
  o_export_names : ptr; o_export_idxs : ptr; o_n_exports : Z;
  o_globals : ptr; o_n_globals : Z;
  o_memory : ptr; o_mem_size : Z; o_mem_max : Z;
  o_data_blob : ptr; o_data_blob_len : Z;
  o_data_off : ptr; o_data_len : ptr; o_data_live : ptr; o_n_data : Z;
  o_table : ptr; o_table_len : Z;
  o_func_typeidx : ptr; o_type_fp : ptr; o_n_types : Z;
  o_n_host_imports : Z; o_host_fn_id : ptr;
  o_host_import_mod : ptr; o_host_import_name : ptr; o_host_import_env : ptr;
  o_err : ptr }.

Definition default_out : TranslateOut :=
  mkOut Null 0 Null 0 Null 0 Null Null 0 Null 0 Null 0 0 Null 0 Null Null Null 0 Null 0
    Null Null 0 0 Null Null Null Null Null.

Definition err_out (p : ptr) : TranslateOut :=
  mkOut Null 0 Null 0 Null 0 Null Null 0 Null 0 Null 0 0 Null 0 Null Null Null 0 Null 0
    Null Null 0 0 Null Null Null Null p.

(** ** Handing a module over *)

Fixpoint raw_exports (exports : list (string * Z)) : HM (list ptr * list Z) :=
  match exports with
  | [] => mret ([], [])
  | (name, idx) :: rest =>
      p ← cstring name;
      '(names, idxs) ← raw_exports rest;
      mret (p :: names, idx :: idxs)
  end.

(** [CString::new(v[i].clone()).unwrap().into_raw()]: the index is checked. *)
Definition cstring_at (v : list string) (i : nat) : HM ptr :=
  match v !! i with Some s => cstring s | None => undefined "index out of bounds" end.

(** [for i in 0..n]: from [i], [n] more. *)
Fixpoint raw_imports (m : HostModule) (i n : nat) : HM (list ptr * list ptr * list ptr) :=
  match n with
  | O => mret ([], [], [])
  | S n' =>
      pm ← cstring_at m.(hm_host_import_mod) i;
      pn ← cstring_at m.(hm_host_import_name) i;
      pe ← cstring_at m.(hm_host_import_env) i;
      '(ms, ns, es) ← raw_imports m (S i) n';
      mret (pm :: ms, pn :: ns, pe :: es)
  end.

(** [debug_assert_eq!], in builds with assertions. *)
Definition debug_assert_eq (debug : bool) (x y : Z) : HM unit :=
  if debug && negb (x =? y) then undefined "assertion failed" else mret tt.

Definition export_module (debug : bool) (m : HostModule) : HM TranslateOut :=
  '(code, n_code) ← vec_to_raw (BOps m.(hm_code));
  '(consts, n_consts) ← vec_to_raw (BU64 m.(hm_consts));
  '(funcs, n_funcs) ← vec_to_raw (BFuncs m.(hm_funcs));
  '(names, idxs) ← raw_exports m.(hm_exports);
  '(export_names, n_exports1) ← vec_to_raw (BPtrs names);
  '(export_idxs, n_exports2) ← vec_to_raw (BU32 idxs);
  debug_assert_eq debug n_exports1 n_exports2;;
  '(globals, n_globals) ← vec_to_raw (BU64 m.(hm_globals));
  '(memory, mem_max_chk) ← vec_to_raw (BU8 m.(hm_memory));
  debug_assert_eq debug m.(hm_mem_max) mem_max_chk;;
  '(data_blob, data_blob_len) ← vec_to_raw (BU8 m.(hm_data_blob));
  '(data_off, n1) ← vec_to_raw (BU32 m.(hm_data_off));
  '(data_len, n2) ← vec_to_raw (BU32 m.(hm_data_len));
  '(data_live, n3) ← vec_to_raw (BU8 m.(hm_data_live));
  let n_data := u32 (len m.(hm_data_live)) in
  debug_assert_eq debug n_data n1;;
  debug_assert_eq debug n_data n2;;
  debug_assert_eq debug n_data n3;;
  '(table, table_len) ← vec_to_raw (BU32 m.(hm_table));
  '(func_typeidx, n_tidx) ← vec_to_raw (BU32 m.(hm_func_typeidx));
  debug_assert_eq debug n_tidx n_funcs;;
  '(type_fp, n_types) ← vec_to_raw (BU64 m.(hm_type_fp));
  let n_host_imports := m.(hm_n_host_imports) in
  '(host_fn_id, n_host1) ← vec_to_raw (BU32 m.(hm_host_fn_id));
  debug_assert_eq debug n_host_imports n_host1;;
  '(himods, hinames, hienvs) ← raw_imports m 0 (Z.to_nat n_host_imports);
  '(host_import_mod, n_host2) ← vec_to_raw (BPtrs himods);
  '(host_import_name, n_host3) ← vec_to_raw (BPtrs hinames);
  '(host_import_env, n_host4) ← vec_to_raw (BPtrs hienvs);
  debug_assert_eq debug n_host_imports n_host2;;
  debug_assert_eq debug n_host_imports n_host3;;
  debug_assert_eq debug n_host_imports n_host4;;
  mret (mkOut code n_code consts n_consts funcs n_funcs export_names export_idxs n_exports1
          globals n_globals memory m.(hm_mem_size) m.(hm_mem_max) data_blob data_blob_len
          data_off data_len data_live n_data table table_len func_typeidx type_fp n_types
          n_host_imports host_fn_id host_import_mod host_import_name host_import_env Null).

Section api.
(** The text of an error, as [format!] builds it. *)
Context (display : rust_err → string).

(** [data] is what the pointer points to; [None] is the null pointer.  The result is
    the return code and [*out]. *)
Definition translate_into (debug : bool) (translate : list Z → outcome HostModule)
    (data : option (list Z)) (n : Z) : HM (Z * TranslateOut) :=
  match data with
  | None =>
      if negb (n =? 0) then p ← cstring_err "null data"; mret (-1, err_out p)
      else
        match translate [] with
        | Ok m => o ← export_module debug m; mret (0, o)
        | Err e => p ← cstring_err (display e); mret (-1, err_out p)
        | Panic w => undefined w
        end
  | Some bytes =>
      match translate (take (Z.to_nat n) bytes) with
      | Ok m => o ← export_module debug m; mret (0, o)
      | Err e => p ← cstring_err (display e); mret (-1, err_out p)
      | Panic w => undefined w
      end
  end.

(** [out] may be the null pointer as well. *)
Definition cuwasm_translate_wasm (debug : bool) (translate : list Z → outcome HostModule)
    (data : option (list Z)) (n : Z) (out : option TranslateOut) : HM (Z * option TranslateOut) :=
  match out with
  | None => mret (-1, None)
  | Some _ => '(rc, o) ← translate_into debug translate data n; mret (rc, Some o)
  end.
End api.

(** ** Taking it back *)

(** [for p in Vec::from_raw_parts(p, n, n) { if !p.is_null() { from_raw(p) } }] *)
Definition free_names (p : ptr) (n : Z) : HM unit :=
  if bool_decide (p = Null) then mret tt
  else
    (match p with
     | Addr a => fun h =>
         match h !! a with
         | Some (BPtrs l) => for_each l free_cstring_opt h
         | _ => (Panic "from_raw_parts", h)
         end
     | _ => mret tt
     end);;
    dealloc EPtrs p n.

Definition free_out (o : TranslateOut) : HM TranslateOut :=
  free_vec EOps o.(o_code) o.(o_n_code);;
  free_vec EU64 o.(o_consts) o.(o_n_consts);;
  free_vec EFuncs o.(o_funcs) o.(o_n_funcs);;
  free_names o.(o_export_names) o.(o_n_exports);;
  free_vec EU32 o.(o_export_idxs) o.(o_n_exports);;
  free_vec EU64 o.(o_globals) o.(o_n_globals);;
  free_vec EU8 o.(o_memory) o.(o_mem_max);;
  free_vec EU8 o.(o_data_blob) o.(o_data_blob_len);;
  free_vec EU32 o.(o_data_off) o.(o_n_data);;
  free_vec EU32 o.(o_data_len) o.(o_n_data);;
  free_vec EU8 o.(o_data_live) o.(o_n_data);;
  free_vec EU32 o.(o_table) o.(o_table_len);;
  free_vec EU32 o.(o_func_typeidx) o.(o_n_funcs);;
  free_vec EU64 o.(o_type_fp) o.(o_n_types);;
  free_vec EU32 o.(o_host_fn_id) o.(o_n_host_imports);;
  for_each [o.(o_host_import_mod); o.(o_host_import_name); o.(o_host_import_env)]
    (fun names => free_names names o.(o_n_host_imports));;
  free_cstring_opt o.(o_err);;
  mret default_out.

Definition cuwasm_translate_free (out : option TranslateOut) : HM (option TranslateOut) :=
  match out with
  | None => mret None
  | Some o => o' ← free_out o; mret (Some o')
  end.

(** ** Reading it on the C++ side (translate.cpp) *)

(** [v.assign(p, p + n)] and the element-wise copies: [n] elements from [p]. *)
Definition read_vec {A} (sel : buf → option (list A)) (p : ptr) (n : Z) : HM (list A) := fun h =>
  if n =? 0 then (Ok [], h)
  else
    match p with
    | Addr a =>
        match h !! a ≫= sel with
        | Some l => if n <=? len l then (Ok (take (Z.to_nat n) l), h) else (Panic "read past end", h)
        | None => (Panic "wild read", h)
        end
    | _ => (Panic "wild read", h)
    end.

Definition as_ops (b : buf) : option (list CuOpC) := match b with BOps l => Some l | _ => None end.
Definition as_funcs (b : buf) : option (list FuncMetaC) := match b with BFuncs l => Some l | _ => None end.
Definition as_u64 (b : buf) : option (list Z) := match b with BU64 l => Some l | _ => None end.
Definition as_u32 (b : buf) : option (list Z) := match b with BU32 l => Some l | _ => None end.
Definition as_u8 (b : buf) : option (list Z) := match b with BU8 l => Some l | _ => None end.
Definition as_ptrs (b : buf) : option (list ptr) := match b with BPtrs l => Some l | _ => None end.

(** [p ? p : ""] as a [std::string]. *)
Definition read_str (p : ptr) : HM string := fun h =>
  match p with
  | Null => (Ok "", h)
  | Addr a => match h !! a with Some (BStr s) => (Ok s, h) | _ => (Panic "wild read", h) end
  | Dangling => (Panic "wild read", h)
  end.

Fixpoint read_strs (l : list ptr) : HM (list string) :=
  match l with
  | [] => mret []
  | p :: l' => s ← read_str p; ss ← read_strs l'; mret (s :: ss)
  end.

Definition read_names (p : ptr) (n : Z) : HM (list string) :=
  l ← read_vec as_ptrs p n; read_strs l.

(** The C++ [HostModule]; it keeps no [mem_max] but the memory's own size. *)
Definition read_module (o : TranslateOut) : HM HostModule :=
  code ← read_vec as_ops o.(o_code) o.(o_n_code);
  consts ← read_vec as_u64 o.(o_consts) o.(o_n_consts);
  funcs ← read_vec as_funcs o.(o_funcs) o.(o_n_funcs);
  names ← read_names o.(o_export_names) o.(o_n_exports);
  idxs ← read_vec as_u32 o.(o_export_idxs) o.(o_n_exports);
  globals ← read_vec as_u64 o.(o_globals) o.(o_n_globals);
  memory ← read_vec as_u8 o.(o_memory) o.(o_mem_max);
  blob ← read_vec as_u8 o.(o_data_blob) o.(o_data_blob_len);
  off ← read_vec as_u32 o.(o_data_off) o.(o_n_data);
  lens ← read_vec as_u32 o.(o_data_len) o.(o_n_data);
  live ← read_vec as_u8 o.(o_data_live) o.(o_n_data);
  table ← read_vec as_u32 o.(o_table) o.(o_table_len);
  tidx ← read_vec as_u32 o.(o_func_typeidx) o.(o_n_funcs);
  fps ← read_vec as_u64 o.(o_type_fp) o.(o_n_types);
  ids ← read_vec as_u32 o.(o_host_fn_id) o.(o_n_host_imports);
  mods ← read_names o.(o_host_import_mod) o.(o_n_host_imports);
  inames ← read_names o.(o_host_import_name) o.(o_n_host_imports);
  envs ← read_names o.(o_host_import_env) o.(o_n_host_imports);
  mret (mkHostModule code consts funcs (zip names idxs) globals memory o.(o_mem_size) (len memory)
          blob off lens live table tidx fps o.(o_n_host_imports) ids mods inames envs).

(** *** The whole crossing *)

(** What C++ gets of a translated module: Rust hands it over, C++ reads it and gives the
    record back.  The programs link the release build of the translator, without debug
    assertions. *)
Definition hand_over (m : HostModule) : HM HostModule :=
  o ← export_module false m;
  m' ← read_module o;
  cuwasm_translate_free (Some o);;
  mret m'.

(** [cuwasm::translate_wasm]: a module, or the text of an error. *)
Definition cpp_translate_wasm (display : rust_err → string) (debug : bool)
    (translate : list Z → outcome HostModule) (data : option (list Z)) (n : Z) : HM (HostModule + string) :=
  '(rc, t) ← cuwasm_translate_wasm display debug translate data n (Some default_out);
  let t := default default_out t in
  if negb (rc =? 0) then
    err ← (if bool_decide (t.(o_err) = Null) then mret "translate failed"%string else read_str t.(o_err));
    cuwasm_translate_free (Some t);;
    mret (inr err)
  else
    m ← read_module t;
    cuwasm_translate_free (Some t);;
    mret (inl m).
