(* ===== verification/CapiFacts.v ===== *)
(** * Ownership across the C boundary

    Whatever [cuwasm_translate_wasm] hands over, [cuwasm_translate_free] gives back:
    no allocation is leaked, freed twice or freed with another size.  The proofs
    keep a list of the allocations that are owned by the caller. *)

From S2P Require Import Prelude Cuop Wasm Lower EnvTable Module ModuleSteps ModuleFacts.
From S2P Require Import ModuleTables Engine Capi.
From stdpp Require Import base list strings gmap.

Local Open Scope Z_scope.

(** ** Owned allocations *)

(** [h] is [h0] and the allocations [R], all distinct. *)
Definition owned (h0 : Heap) (R : list (positive * buf)) (h : Heap) : Prop :=
  NoDup R.*1 ∧ (∀ a, a ∈ R.*1 → h0 !! a = None) ∧ h = list_to_map R ∪ h0.

Lemma owned_nil h0 h : owned h0 [] h ↔ h = h0.
Proof.
  unfold owned. simpl. rewrite (left_id_L ∅ (∪)). split; [by intros (_ & _ & ?)|].
  intros ->. split_and!; [constructor| |done]. by intros a ?%not_elem_of_nil.
Qed.

Lemma owned_perm h0 R R' h : R ≡ₚ R' → owned h0 R h → owned h0 R' h.
Proof.
  intros HP (Hnd & Hfr & ->). split_and!.
  - by rewrite <-HP.
  - intros a. rewrite <-HP. apply Hfr.
  - by rewrite (list_to_map_proper R R').
Qed.

Lemma owned_alloc h0 R h a b :
  owned h0 R h → h !! a = None → owned h0 ((a, b) :: R) (<[a := b]> h).
Proof.
  intros (Hnd & Hfr & ->) Ha. apply lookup_union_None in Ha as [Ha Ha0]. split_and!; simpl.
  - constructor; [|done]. by apply not_elem_of_list_to_map.
  - intros c [->|?]%elem_of_cons; [done|by apply Hfr].
  - by rewrite insert_union_l.
Qed.

Lemma owned_free h0 R h a b :
  owned h0 ((a, b) :: R) h → h !! a = Some b ∧ owned h0 R (delete a h).
Proof.
  intros (Hnd & Hfr & ->). simpl in *. apply NoDup_cons in Hnd as [Hna Hnd].
  rewrite <-insert_union_l. split; [by rewrite lookup_insert_eq|]. split_and!; [done| |].
  - intros c Hc. apply Hfr. by right.
  - rewrite delete_insert_id; [done|]. apply lookup_union_None. split.
    + by apply not_elem_of_list_to_map_1.
    + apply Hfr. by left.
Qed.

(** What a raw pair owns. *)
Definition own (p : ptr) (b : buf) : list (positive * buf) :=
  match p with Addr a => [(a, b)] | _ => [] end.

Definition raw (p : ptr) (n : Z) (b : buf) : Prop :=
  n = u32 (buf_len b) ∧
  match p with Addr _ => buf_len b ≠ 0 | Dangling => buf_len b = 0 | Null => False end.

(** Picking one block out of the list, for a free in any order. *)
Lemma perm_here {A} (x L : list A) : x ++ L ≡ₚ x ++ L.
Proof. done. Qed.
Lemma perm_last {A} (x : list A) : x ≡ₚ x ++ [].
Proof. by rewrite app_nil_r. Qed.
Lemma perm_next {A} (x y L L' : list A) : L ≡ₚ x ++ L' → y ++ L ≡ₚ x ++ (y ++ L').
Proof. intros ->. apply Permutation_app_swap_app. Qed.

Lemma perm_step {A} (L x L' T : list A) : L ≡ₚ x ++ L' → L' ≡ₚ T → L ≡ₚ x ++ T.
Proof. by intros -> ->. Qed.

Ltac pick := first [apply perm_here | apply perm_last | apply perm_next; pick].

(** Both sides are the same blocks in another order. *)
Ltac same_blocks :=
  rewrite <-?app_assoc; repeat (eapply perm_step; [pick|]); reflexivity.

Section rules.
Context (h0 : Heap).
Let anyE : Heap → Prop := fun _ => False.

Lemma wp_alloc b R h :
  owned h0 R h →
  wp (alloc b) (fun p h' => ∃ a, p = Addr a ∧ owned h0 ((a, b) :: R) h') anyE h.
Proof.
  intros Ho. unfold wp, alloc. exists (fresh (dom h)). split; [done|].
  apply owned_alloc; [done|]. apply not_elem_of_dom, is_fresh.
Qed.

Lemma wp_vec_to_raw b R h :
  owned h0 R h →
  wp (vec_to_raw b) (fun r h' => raw r.1 r.2 b ∧ owned h0 (own r.1 b ++ R) h') anyE h.
Proof.
  intros Ho. unfold vec_to_raw. destruct (buf_len b =? 0) eqn:Hz.
  - apply wp_ret. split; [|done]. split; simpl; [|lia].
    by replace (buf_len b) with 0 by lia.
  - eapply wp_seq; [by apply wp_alloc|]. intros p h' (a & -> & Ho'). apply wp_ret.
    split; [|done]. split; simpl; [done|lia].
Qed.

Lemma wp_dealloc p n b R R' h :
  raw p n b → buf_len b < 2 ^ 32 → 0 ≤ buf_len b → R ≡ₚ own p b ++ R' → owned h0 R h →
  wp (dealloc (buf_ty b) p n) (fun _ h' => owned h0 R' h') anyE h.
Proof.
  intros [-> Hp] Hs H0 HP Ho. apply (owned_perm _ _ _ _ HP) in Ho. rewrite u32_id by lia.
  destruct p as [| |a]; simpl in *; [done| |].
  - rewrite Hp. by apply wp_ret.
  - apply owned_free in Ho as [Ha Ho]. unfold wp. rewrite Ha.
    rewrite bool_decide_eq_true_2 by done. by rewrite Z.eqb_refl.
Qed.

Lemma wp_free_vec t p n b R R' h :
  raw p n b → buf_ty b = t → buf_len b < 2 ^ 32 → 0 ≤ buf_len b → R ≡ₚ own p b ++ R' →
  owned h0 R h → wp (free_vec t p n) (fun _ h' => owned h0 R' h') anyE h.
Proof.
  intros Hr <- Hs H0 HP Ho. unfold free_vec. rewrite bool_decide_eq_false_2.
  - by eapply wp_dealloc.
  - intros ->. by destruct Hr.
Qed.

(** ** Strings *)

(** The strings a vector of pointers owns. *)
Fixpoint own_strs (l : list ptr) (ss : list string) : list (positive * buf) :=
  match l, ss with
  | p :: l', s :: ss' => own p (BStr s) ++ own_strs l' ss'
  | _, _ => []
  end.

Definition is_addr (p : ptr) : Prop := ∃ a, p = Addr a.

Lemma strip_nul_has_nul s : has_nul (strip_nul s) = false.
Proof.
  induction s as [|c s IH]; simpl; [done|]. destruct (bool_decide _) eqn:Hb; [done|].
  simpl. by rewrite Hb, IH.
Qed.

Lemma wp_cstring s R h :
  has_nul s = false → owned h0 R h →
  wp (cstring s) (fun p h' => is_addr p ∧ owned h0 (own p (BStr s) ++ R) h') anyE h.
Proof.
  intros Hn Ho. unfold cstring. rewrite Hn.
  eapply wp_mono; [by apply wp_alloc| |done]. intros p h' (a & -> & Ho'). split; [by exists a|done].
Qed.

Lemma wp_free_cstring p s R R' h :
  is_addr p → R ≡ₚ own p (BStr s) ++ R' → owned h0 R h →
  wp (free_cstring_opt p) (fun _ h' => owned h0 R' h') anyE h.
Proof.
  intros [a ->] HP Ho. apply (owned_perm _ _ _ _ HP) in Ho.
  apply owned_free in Ho as [Ha Ho]. unfold free_cstring_opt, wp, free_cstring. simpl.
  by rewrite Ha.
Qed.

Lemma wp_free_strs l ss R h :
  Forall is_addr l → length l = length ss → owned h0 (own_strs l ss ++ R) h →
  wp (for_each l free_cstring_opt) (fun _ h' => owned h0 R h') anyE h.
Proof.
  intros Hl. revert ss h. induction Hl as [|p l Hp Hl IH]; intros [|s ss] h Hlen Ho; try done.
  simpl in *. rewrite <-app_assoc in Ho. eapply wp_seq; [by eapply wp_free_cstring|].
  intros [] h' Ho'. by apply (IH ss); [lia|].
Qed.

(** A vector of strings: the vector and what it points to. *)
Definition own_names (p : ptr) (l : list ptr) (ss : list string) : list (positive * buf) :=
  own p (BPtrs l) ++ own_strs l ss.

Lemma wp_free_names p n l ss R R' h :
  raw p n (BPtrs l) → len l < 2 ^ 32 → Forall is_addr l → length l = length ss →
  R ≡ₚ own_names p l ss ++ R' → owned h0 R h →
  wp (free_names p n) (fun _ h' => owned h0 R' h') anyE h.
Proof.
  intros Hr Hs Hl Hlen HP Ho. apply (owned_perm _ _ _ _ HP) in Ho. unfold own_names in Ho.
  rewrite <-app_assoc in Ho. pose proof Hr as [_ Hp]. simpl in Hp.
  pose proof (len_nonneg l). unfold free_names.
  destruct p as [| |a]; simpl in *; [done| |].
  - destruct l, ss; try done. simpl in *. by apply (wp_dealloc Dangling _ (BPtrs []) R').
  - eapply wp_seq with (Q := fun _ h' => owned h0 ([(a, BPtrs l)] ++ R') h').
    + destruct (owned_free _ _ _ _ _ Ho) as [Ha _]. unfold wp. rewrite Ha.
      apply (wp_free_strs l ss _ h); [done..|].
      eapply owned_perm; [|exact Ho]. apply (Permutation_app_swap_app [(a, BPtrs l)]).
    + intros [] h' Ho'. by apply (wp_dealloc (Addr a) _ (BPtrs l) ([(a, BPtrs l)] ++ R')).
Qed.

Definition no_nuls (ss : list string) : Prop := Forall (fun s => has_nul s = false) ss.

Lemma wp_raw_exports ex R h :
  no_nuls ex.*1 → owned h0 R h →
  wp (raw_exports ex) (fun r h' => Forall is_addr r.1 ∧ length r.1 = length ex ∧ r.2 = ex.*2 ∧
    owned h0 (own_strs r.1 ex.*1 ++ R) h') anyE h.
Proof.
  revert R h. induction ex as [|[s i] ex IH]; intros R h Hn Ho; simpl; [by apply wp_ret|].
  apply Forall_cons in Hn as [Hs Hn].
  eapply wp_seq; [by apply wp_cstring|]. intros p h1 [Hp Ho1].
  eapply wp_seq; [by apply IH|]. intros [ns ids] h2 (H1 & H2 & H3 & Ho2). simpl in *.
  apply wp_ret. simpl. split_and!; [by constructor|lia|by rewrite H3|].
  eapply owned_perm; [|exact Ho2]. same_blocks.
Qed.

Lemma wp_cstring_at v i s R h :
  v !! i = Some s → has_nul s = false → owned h0 R h →
  wp (cstring_at v i) (fun p h' => is_addr p ∧ owned h0 (own p (BStr s) ++ R) h') anyE h.
Proof. intros Hv. unfold cstring_at. rewrite Hv. apply wp_cstring. Qed.

Lemma wp_raw_imports m i n R h :
  no_nuls m.(hm_host_import_mod) → no_nuls m.(hm_host_import_name) →
  no_nuls m.(hm_host_import_env) →
  (i + n = length m.(hm_host_import_mod))%nat → (i + n = length m.(hm_host_import_name))%nat →
  (i + n = length m.(hm_host_import_env))%nat → owned h0 R h →
  wp (raw_imports m i n) (fun r h' =>
    let '(ms, ns, es) := r in
    Forall is_addr ms ∧ Forall is_addr ns ∧ Forall is_addr es ∧
    length ms = n ∧ length ns = n ∧ length es = n ∧
    owned h0 (own_strs ms (drop i m.(hm_host_import_mod)) ++
              own_strs ns (drop i m.(hm_host_import_name)) ++
              own_strs es (drop i m.(hm_host_import_env)) ++ R) h') anyE h.
Proof.
  intros N1 N2 N3. revert i R h. induction n as [|n IH]; intros i R h L1 L2 L3 Ho; simpl.
  { apply wp_ret. split_and!; done. }
  destruct (lookup_lt_is_Some_2 m.(hm_host_import_mod) i) as [s1 E1]; [lia|].
  destruct (lookup_lt_is_Some_2 m.(hm_host_import_name) i) as [s2 E2]; [lia|].
  destruct (lookup_lt_is_Some_2 m.(hm_host_import_env) i) as [s3 E3]; [lia|].
  eapply wp_seq; [by eapply wp_cstring_at, Ho; [|eapply (Forall_lookup_1 _ _ _ _ N1 E1)]|].
  intros p1 h1 [P1 O1].
  eapply wp_seq; [by eapply wp_cstring_at, O1; [|eapply (Forall_lookup_1 _ _ _ _ N2 E2)]|].
  intros p2 h2 [P2 O2].
  eapply wp_seq; [by eapply wp_cstring_at, O2; [|eapply (Forall_lookup_1 _ _ _ _ N3 E3)]|].
  intros p3 h3 [P3 O3].
  eapply wp_seq; [apply (IH (S i)); [lia..|exact O3]|].
  intros [[ms ns] es] h4 (A1 & A2 & A3 & B1 & B2 & B3 & O4). apply wp_ret.
  split_and!; try (by constructor); try (simpl; lia).
  rewrite (drop_S _ _ _ E1), (drop_S _ _ _ E2), (drop_S _ _ _ E3). simpl.
  eapply owned_perm; [|exact O4]. same_blocks.
Qed.

Lemma wp_debug_assert_eq debug x y h (Q : unit → Heap → Prop) :
  x = y → Q tt h → wp (debug_assert_eq debug x y) Q anyE h.
Proof.
  intros -> HQ. unfold debug_assert_eq. rewrite Z.eqb_refl, andb_false_r. by apply wp_ret.
Qed.
End rules.

(** ** Modules *)

(** Every vector has a length that fits the 32-bit count of the boundary, and the
    vectors that share a count have the same length. *)
Record exportable (m : HostModule) : Prop := mkExportable {
  ex_code : len m.(hm_code) < 2 ^ 32;
  ex_consts : len m.(hm_consts) < 2 ^ 32;
  ex_funcs : len m.(hm_funcs) < 2 ^ 32;
  ex_exports : len m.(hm_exports) < 2 ^ 32;
  ex_names : no_nuls m.(hm_exports).*1;
  ex_globals : len m.(hm_globals) < 2 ^ 32;
  ex_memory : len m.(hm_memory) = m.(hm_mem_max) ∧ m.(hm_mem_max) < 2 ^ 32;
  ex_blob : len m.(hm_data_blob) < 2 ^ 32;
  ex_data : len m.(hm_data_live) < 2 ^ 32 ∧ len m.(hm_data_off) = len m.(hm_data_live) ∧
    len m.(hm_data_len) = len m.(hm_data_live);
  ex_table : len m.(hm_table) < 2 ^ 32;
  ex_typeidx : len m.(hm_func_typeidx) = len m.(hm_funcs);
  ex_types : len m.(hm_type_fp) < 2 ^ 32;
  ex_imports : len m.(hm_host_fn_id) < 2 ^ 32 ∧
    m.(hm_n_host_imports) = len m.(hm_host_fn_id) ∧
    length m.(hm_host_import_mod) = length m.(hm_host_fn_id) ∧
    length m.(hm_host_import_name) = length m.(hm_host_fn_id) ∧
    length m.(hm_host_import_env) = length m.(hm_host_fn_id);
  ex_import_strs : no_nuls m.(hm_host_import_mod) ∧ no_nuls m.(hm_host_import_name) ∧
    no_nuls m.(hm_host_import_env) }.

(** The pointers of the four vectors of strings. *)
Record Names := mkNames { nm_exports : list ptr; nm_mod : list ptr; nm_name : list ptr; nm_env : list ptr }.

Definition blocks (m : HostModule) (o : TranslateOut) (nm : Names) : list (positive * buf) :=
  own o.(o_code) (BOps m.(hm_code)) ++ own o.(o_consts) (BU64 m.(hm_consts)) ++
  own o.(o_funcs) (BFuncs m.(hm_funcs)) ++
  own_names o.(o_export_names) nm.(nm_exports) m.(hm_exports).*1 ++
  own o.(o_export_idxs) (BU32 m.(hm_exports).*2) ++ own o.(o_globals) (BU64 m.(hm_globals)) ++
  own o.(o_memory) (BU8 m.(hm_memory)) ++ own o.(o_data_blob) (BU8 m.(hm_data_blob)) ++
  own o.(o_data_off) (BU32 m.(hm_data_off)) ++ own o.(o_data_len) (BU32 m.(hm_data_len)) ++
  own o.(o_data_live) (BU8 m.(hm_data_live)) ++ own o.(o_table) (BU32 m.(hm_table)) ++
  own o.(o_func_typeidx) (BU32 m.(hm_func_typeidx)) ++ own o.(o_type_fp) (BU64 m.(hm_type_fp)) ++
  own o.(o_host_fn_id) (BU32 m.(hm_host_fn_id)) ++
  own_names o.(o_host_import_mod) nm.(nm_mod) m.(hm_host_import_mod) ++
  own_names o.(o_host_import_name) nm.(nm_name) m.(hm_host_import_name) ++
  own_names o.(o_host_import_env) nm.(nm_env) m.(hm_host_import_env) ++ [].

Definition raw_names (p : ptr) (n : Z) (l : list ptr) (ss : list string) : Prop :=
  raw p n (BPtrs l) ∧ Forall is_addr l ∧ length l = length ss.

(** The record describes [m], and the counts are the true lengths. *)
Record handed (m : HostModule) (o : TranslateOut) (nm : Names) : Prop := mkHanded {
  ha_code : raw o.(o_code) o.(o_n_code) (BOps m.(hm_code));
  ha_consts : raw o.(o_consts) o.(o_n_consts) (BU64 m.(hm_consts));
  ha_funcs : raw o.(o_funcs) o.(o_n_funcs) (BFuncs m.(hm_funcs));
  ha_export_names : raw_names o.(o_export_names) o.(o_n_exports) nm.(nm_exports) m.(hm_exports).*1;
  ha_export_idxs : raw o.(o_export_idxs) o.(o_n_exports) (BU32 m.(hm_exports).*2);
  ha_globals : raw o.(o_globals) o.(o_n_globals) (BU64 m.(hm_globals));
  ha_memory : raw o.(o_memory) o.(o_mem_max) (BU8 m.(hm_memory));
  ha_sizes : o.(o_mem_size) = m.(hm_mem_size) ∧ o.(o_mem_max) = m.(hm_mem_max);
  ha_blob : raw o.(o_data_blob) o.(o_data_blob_len) (BU8 m.(hm_data_blob));
  ha_off : raw o.(o_data_off) o.(o_n_data) (BU32 m.(hm_data_off));
  ha_len : raw o.(o_data_len) o.(o_n_data) (BU32 m.(hm_data_len));
  ha_live : raw o.(o_data_live) o.(o_n_data) (BU8 m.(hm_data_live));
  ha_table : raw o.(o_table) o.(o_table_len) (BU32 m.(hm_table));
  ha_typeidx : raw o.(o_func_typeidx) o.(o_n_funcs) (BU32 m.(hm_func_typeidx));
  ha_type_fp : raw o.(o_type_fp) o.(o_n_types) (BU64 m.(hm_type_fp));
  ha_fn_id : raw o.(o_host_fn_id) o.(o_n_host_imports) (BU32 m.(hm_host_fn_id));
  ha_mod : raw_names o.(o_host_import_mod) o.(o_n_host_imports) nm.(nm_mod) m.(hm_host_import_mod);
  ha_name : raw_names o.(o_host_import_name) o.(o_n_host_imports) nm.(nm_name) m.(hm_host_import_name);
  ha_env : raw_names o.(o_host_import_env) o.(o_n_host_imports) nm.(nm_env) m.(hm_host_import_env);
  ha_err : o.(o_err) = Null }.

Lemma raw_count p n n' b b' :
  raw p n b → buf_len b' = buf_len b → n' = u32 (buf_len b') → n' = n.
Proof. intros [-> _] -> ->. done. Qed.

Lemma raw_as p n b n' : raw p n b → n' = u32 (buf_len b) → raw p n' b.
Proof. intros [_ ?] ->. done. Qed.

Section module.
Context (h0 : Heap) (m : HostModule) (Hm : exportable m).
Let anyE : Heap → Prop := fun _ => False.

Ltac wvec p n H O :=
  eapply wp_seq; [by eapply wp_vec_to_raw|]; intros [p n] ? [H O]; simpl in H, O.

Lemma wp_assert {B} debug x y (k : unit → HM B) Q h :
  x = y → wp (k tt) Q anyE h → wp (debug_assert_eq debug x y ≫= k) Q anyE h.
Proof. intros Hxy Hk. by apply wp_bind, wp_debug_assert_eq. Qed.

(** The counts are the lengths. *)
Ltac counts :=
  repeat match goal with
  | H : raw _ ?n _ |- _ => is_var n; let E := fresh "E" in pose proof (proj1 H) as E; simpl in E; subst n
  end.

Ltac fin_handed :=
  first
  [ done
  | eapply raw_as; [eassumption|]; simpl; first [congruence | rewrite u32_id; lia]
  | rewrite ?length_fmap; unfold len in *; lia ].

Lemma wp_export_module debug :
  wp (export_module debug m) (fun o h => ∃ nm, handed m o nm ∧ owned h0 (blocks m o nm) h) anyE h0.
Proof.
  pose proof Hm as [? ? ? ? ? ? [E1 E2] ? (E3 & E4 & E5) ? E6 ? (E7 & E8 & E9 & E10 & E11) (E12 & E13 & E14)].
  assert (owned h0 [] h0) as O0 by (by apply owned_nil).
  pose proof (len_nonneg m.(hm_memory)). pose proof (len_nonneg m.(hm_host_fn_id)).
  unfold export_module.
  wvec pcode ncode R1 O1. wvec pconsts nconsts R2 O2. wvec pfuncs nfuncs R3 O3.
  eapply wp_seq; [by eapply wp_raw_exports|]. intros [names idxs] h4 (A1 & A2 & A3 & O4).
  simpl in A1, A2, A3, O4. subst idxs.
  assert (len names = len m.(hm_exports)) as L1 by (unfold len; lia).
  assert (len m.(hm_exports).*2 = len m.(hm_exports)) as L2 by (unfold len; by rewrite length_fmap).
  wvec penames ne1 R5 O5. wvec pidxs ne2 R6 O6. counts.
  apply wp_assert; [congruence|].
  wvec pglobals ng R7 O7. wvec pmem nmem R8 O8. counts.
  apply wp_assert; [rewrite E1, u32_id; lia|].
  wvec pblob nblob R9 O9. wvec poff n1 R10 O10. wvec plen n2 R11 O11. wvec plive n3 R12 O12. counts.
  do 3 (apply wp_assert; [congruence|]).
  wvec ptab ntab R13 O13. wvec ptidx ntidx R14 O14. counts. apply wp_assert; [congruence|].
  wvec pfp ntypes R15 O15. wvec pids nids R16 O16. counts.
  apply wp_assert; [rewrite u32_id; lia|].
  eapply wp_seq; [eapply (wp_raw_imports h0 m 0); [done..| | | |done]; unfold len in *; lia|].
  intros [[ms ns] es] h17 (B1 & B2 & B3 & C1 & C2 & C3 & O17). rewrite !drop_0 in O17.
  assert (len ms = len m.(hm_host_fn_id) ∧ len ns = len m.(hm_host_fn_id) ∧
    len es = len m.(hm_host_fn_id)) as (L3 & L4 & L5) by (unfold len in *; lia).
  wvec pms nms R18 O18. wvec pns nns R19 O19. wvec pes nes R20 O20. counts.
  do 3 (apply wp_assert; [rewrite u32_id; lia|]).
  apply wp_ret. exists (mkNames names ms ns es).
  rewrite E8. split.
  - split; simpl; unfold raw_names; split_and?; fin_handed.
  - eapply owned_perm; [|exact O20]. unfold blocks, own_names. simpl. same_blocks.
Qed.

(** ** Freeing *)

Ltac wfree :=
  eapply wp_seq;
  [ eapply wp_free_vec; [eassumption | reflexivity | simpl; lia | apply len_nonneg | pick | eassumption] |];
  intros [] ? ?.

Ltac wnames :=
  eapply wp_seq;
  [ eapply wp_free_names; [eassumption | lia | eassumption | eassumption | pick | eassumption] |];
  intros [] ? ?.

Lemma wp_translate_free o nm h :
  handed m o nm → owned h0 (blocks m o nm) h →
  wp (free_out o) (fun r h' => r = default_out ∧ h' = h0) anyE h.
Proof.
  intros [H1 H2 H3 [H4 [H4a H4b]] H5 H6 H7 _ H8 H9 H10 H11 H12 H13 H14 H15 [H16 [H16a H16b]]
    [H17 [H17a H17b]] [H18 [H18a H18b]] H19] Ho.
  pose proof Hm as [? ? ? ? ? ? [E1 E2] ? (E3 & E4 & E5) ? E6 ? (E7 & E8 & E9 & E10 & E11) _].
  assert (len nm.(nm_exports) = len m.(hm_exports)) by (unfold len; rewrite H4b; by rewrite length_fmap).
  assert (len m.(hm_exports).*2 = len m.(hm_exports)) by (unfold len; by rewrite length_fmap).
  assert (len nm.(nm_mod) = len m.(hm_host_fn_id) ∧ len nm.(nm_name) = len m.(hm_host_fn_id) ∧
    len nm.(nm_env) = len m.(hm_host_fn_id)) as (? & ? & ?) by (unfold len; lia).
  unfold blocks in Ho. unfold free_out.
  do 3 wfree. wnames. do 11 wfree.
  eapply wp_seq with (Q := fun _ h' => owned h0 [] h').
  { simpl. do 3 wnames. by apply wp_ret. }
  intros [] h' ->%owned_nil. rewrite H19.
  eapply wp_seq; [by apply (wp_ret tt (fun _ h' => h' = h0))|]. intros [] ? ->. by apply wp_ret.
Qed.

(** ** Reading back *)

Lemma read_vec_raw {A} (sel : buf → option (list A)) p n b (l : list A) R R' h :
  raw p n b → sel b = Some l → buf_len b = len l → len l < 2 ^ 32 → owned h0 R h →
  R ≡ₚ own p b ++ R' → wp (read_vec sel p n) (fun r h' => r = l ∧ h' = h) anyE h.
Proof.
  intros [-> Hp] Hsel Hl Hs Ho HP. apply (owned_perm _ _ _ _ HP) in Ho.
  pose proof (len_nonneg l). rewrite Hl in *. rewrite u32_id by lia.
  unfold wp, read_vec. destruct (len l =? 0) eqn:Hz.
  - split; [|done]. destruct l; [done|]. rewrite len_cons in *. pose proof (len_nonneg l). lia.
  - destruct p as [| |a]; [done|lia|]. apply owned_free in Ho as [Ha _]. rewrite Ha. simpl.
    rewrite Hsel, Z.leb_refl. split; [|done]. apply take_ge. unfold len. lia.
Qed.

Lemma read_strs_own l ss R h :
  Forall is_addr l → length l = length ss → owned h0 (own_strs l ss ++ R) h →
  wp (read_strs l) (fun r h' => r = ss ∧ h' = h) anyE h.
Proof.
  intros Hl. revert ss R. induction Hl as [|p l [a ->] Hl IH]; intros [|s ss] R Hlen Ho; try done.
  simpl in *. eapply wp_seq with (Q := fun r h' => r = s ∧ h' = h).
  - apply owned_free in Ho as [Ha _]. unfold wp, read_str. by rewrite Ha.
  - intros ? ? [-> ->]. eapply wp_seq.
    + apply (IH ss ([(a, BStr s)] ++ R)); [lia|]. eapply owned_perm; [|exact Ho].
      apply (Permutation_app_swap_app [(a, BStr s)]).
    + by intros ? ? [-> ->].
Qed.

Lemma read_names_raw p n l ss R R' h :
  raw_names p n l ss → len l < 2 ^ 32 → owned h0 R h → R ≡ₚ own_names p l ss ++ R' →
  wp (read_names p n) (fun r h' => r = ss ∧ h' = h) anyE h.
Proof.
  intros (Hr & Hl & Hlen) Hs Ho HP. apply (owned_perm _ _ _ _ HP) in Ho.
  unfold own_names in Ho. rewrite <-app_assoc in Ho. unfold read_names.
  eapply wp_seq; [eapply (read_vec_raw as_ptrs _ _ (BPtrs l)); [done..|pick]|].
  intros ? ? [-> ->]. eapply read_strs_own; [done..|].
  eapply owned_perm; [apply Permutation_app_swap_app|done].
Qed.

Ltac wread :=
  eapply wp_seq;
  [ eapply read_vec_raw; [eassumption | reflexivity | reflexivity | lia | eassumption | pick] |];
  intros ? ? [-> ->].
Ltac wreads :=
  eapply wp_seq; [ eapply read_names_raw; [eassumption | lia | eassumption | pick] |];
  intros ? ? [-> ->].

Lemma wp_read_module o nm h :
  handed m o nm → owned h0 (blocks m o nm) h →
  wp (read_module o) (fun r h' => r = m ∧ h' = h) anyE h.
Proof.
  intros [H1 H2 H3 H4 H5 H6 H7 [H8a H8b] H8 H9 H10 H11 H12 H13 H14 H15 H16 H17 H18 H19] Ho.
  pose proof Hm as [? ? ? ? ? ? [E1 E2] ? (E3 & E4 & E5) ? E6 ? (E7 & E8 & E9 & E10 & E11) _].
  pose proof H4 as (_ & _ & L1). pose proof H16 as (_ & _ & L2). pose proof H17 as (_ & _ & L3).
  pose proof H18 as (_ & _ & L4). rewrite length_fmap in L1.
  assert (len nm.(nm_exports) = len m.(hm_exports)) by (unfold len; lia).
  assert (len m.(hm_exports).*2 = len m.(hm_exports)) by (unfold len; by rewrite length_fmap).
  assert (len nm.(nm_mod) = len m.(hm_host_fn_id) ∧ len nm.(nm_name) = len m.(hm_host_fn_id) ∧
    len nm.(nm_env) = len m.(hm_host_fn_id)) as (? & ? & ?) by (unfold len; lia).
  unfold blocks in Ho. unfold read_module.
  do 3 wread. wreads. do 11 wread. do 3 wreads. apply wp_ret. split; [|done].
  rewrite zip_fst_snd, H8a, E1.
  replace (o_n_host_imports o) with (hm_n_host_imports m); [by destruct m|].
  destruct H15 as [-> _]. simpl. rewrite u32_id; [done|]. pose proof (len_nonneg (hm_host_fn_id m)). lia.
Qed.
End module.

(** ** Theorems *)

(** C17. The boundary loses nothing: a module whose vectors fit 32-bit counts (those
    that share a count having one length, no name with a NUL) is handed over
    without a panic, the C++ side reads the same module from the raw record, and
    freeing the record restores the heap exactly, with every allocation freed once
    and with its own size. *)
Theorem export_free_roundtrip debug m h :
  exportable m →
  ∃ o h1, export_module debug m h = (Ok o, h1) ∧ read_module o h1 = (Ok m, h1) ∧
    cuwasm_translate_free (Some o) h1 = (Ok (Some default_out), h).
Proof.
  intros Hm. pose proof (wp_export_module h m Hm debug) as Hx. unfold wp in Hx.
  destruct (export_module debug m h) as [[o| |] h1]; [|done..].
  destruct Hx as (nm & Hh & Ho). exists o, h1. split; [done|]. split.
  - pose proof (wp_read_module h m Hm o nm h1 Hh Ho) as Hr. unfold wp in Hr.
    destruct (read_module o h1) as [[r| |] h2]; [|done..]. by destruct Hr as [-> ->].
  - pose proof (wp_translate_free h m Hm o nm h1 Hh Ho) as Hf. unfold wp in Hf.
    unfold cuwasm_translate_free, mbind, St_bind.
    destruct (free_out o h1) as [[r| |] h2]; [|done..]. by destruct Hf as [-> ->].
Qed.

(** C32. A failed translation hands over one string, the error's text without NULs, and
    freeing the record frees it. *)
Theorem error_free_roundtrip display debug translate bytes n out h e :
  translate (take (Z.to_nat n) bytes) = Err e →
  ∃ p h1, cuwasm_translate_wasm display debug translate (Some bytes) n (Some out) h =
      (Ok (-1, Some (err_out p)), h1) ∧
    read_str p h1 = (Ok (strip_nul (display e)), h1) ∧
    cuwasm_translate_free (Some (err_out p)) h1 = (Ok (Some default_out), h).
Proof.
  intros Ht. unfold cuwasm_translate_wasm, translate_into. rewrite Ht.
  pose proof (wp_cstring h (strip_nul (display e)) [] h (strip_nul_has_nul _)) as Hc.
  unfold wp in Hc. unfold mbind, St_bind, cstring_err.
  destruct (cstring _ h) as [[p| |] h1]; [|by destruct Hc; apply owned_nil..].
  destruct Hc as [[a ->] Ho]; [by apply owned_nil|]. exists (Addr a), h1. split; [done|].
  simpl in Ho. apply owned_free in Ho as [Ha Ho%owned_nil]. split.
  - unfold read_str. by rewrite Ha.
  - unfold cuwasm_translate_free, free_out, mbind, St_bind. simpl.
    unfold free_cstring_opt, free_cstring. simpl. by rewrite Ha, Ho.
Qed.

(** A module with one import, one body and two exports. *)
Definition small_payloads (names : list string) (declared : list Z) : list (item Payload) :=
  [ Item (TypeSection [Item [CtFunc [I64] [I64]]]);
    Item (ImportSection [Item (mkImport "x" "8" (TrFunc 0))]);
    Item (FunctionSection (Item <$> declared));
    Item (MemorySection [Item (mkMemoryType 1 (Some 2%N) false false None)]);
    Item (ExportSection ((fun s => Item (mkExport s true 1)) <$> names));
    Item (CodeSectionEntry (mkBody (Item []) (Item (Item <$> [LocalGet 0; Call 0; End])))) ].

Definition small_translate (names : list string) (declared : list Z) (_ : list Z) :
    outcome HostModule :=
  translate_wasm soroban_env (fun _ => small_payloads names declared) [].

(** The whole boundary, from the bytes to the free. *)
Definition translate_and_free (debug : bool) (translate : list Z → outcome HostModule) :
    HM (option TranslateOut) :=
  '(_, o) ← cuwasm_translate_wasm (fun _ => "error") debug translate (Some [0]) 1 (Some default_out);
  cuwasm_translate_free o.

Definition exportable_b (m : HostModule) : bool :=
  (len m.(hm_code) <? 2 ^ 32) && (len m.(hm_consts) <? 2 ^ 32) && (len m.(hm_funcs) <? 2 ^ 32) &&
  (len m.(hm_exports) <? 2 ^ 32) && forallb (fun s => negb (has_nul s)) m.(hm_exports).*1 &&
  (len m.(hm_globals) <? 2 ^ 32) && ((len m.(hm_memory) =? m.(hm_mem_max)) && (m.(hm_mem_max) <? 2 ^ 32)) &&
  (len m.(hm_data_blob) <? 2 ^ 32) &&
  ((len m.(hm_data_live) <? 2 ^ 32) && ((len m.(hm_data_off) =? len m.(hm_data_live)) &&
    (len m.(hm_data_len) =? len m.(hm_data_live)))) &&
  (len m.(hm_table) <? 2 ^ 32) && (len m.(hm_func_typeidx) =? len m.(hm_funcs)) &&
  (len m.(hm_type_fp) <? 2 ^ 32) &&
  ((len m.(hm_host_fn_id) <? 2 ^ 32) && ((m.(hm_n_host_imports) =? len m.(hm_host_fn_id)) &&
    ((len m.(hm_host_import_mod) =? len m.(hm_host_fn_id)) &&
     ((len m.(hm_host_import_name) =? len m.(hm_host_fn_id)) &&
      (len m.(hm_host_import_env) =? len m.(hm_host_fn_id)))))) &&
  (forallb (fun s => negb (has_nul s)) m.(hm_host_import_mod) &&
   (forallb (fun s => negb (has_nul s)) m.(hm_host_import_name) &&
    forallb (fun s => negb (has_nul s)) m.(hm_host_import_env))).

Lemma no_nuls_forallb ss : forallb (fun s => negb (has_nul s)) ss = true → no_nuls ss.
Proof.
  intros H. apply Forall_forall. intros s Hs%list_elem_of_In.
  rewrite forallb_forall in H. by apply negb_true_iff, H.
Qed.

Lemma exportable_b_sound m : exportable_b m = true → exportable m.
Proof.
  unfold exportable_b. rewrite !andb_true_iff, !Z.ltb_lt, !Z.eqb_eq.
  intros H. decompose [and] H. split; split_and?; try apply no_nuls_forallb; unfold len in *; try done; lia.
Qed.

Lemma export_free_roundtrip_witness :
  ∃ m, small_translate ["add"; "sum"] [0] [] = Ok m ∧
  ∃ o h1, export_module true m ∅ = (Ok o, h1) ∧ read_module o h1 = (Ok m, h1) ∧
    cuwasm_translate_free (Some o) h1 = (Ok (Some default_out), ∅).
Proof.
  destruct (ok_such_that (small_translate ["add"; "sum"] [0] []) exportable_b) as (m & Hm & Hb);
    [vm_compute; reflexivity|].
  exists m. split; [exact Hm|]. apply (export_free_roundtrip true m ∅), exportable_b_sound, Hb.
Defined.

Lemma error_free_roundtrip_witness :
  ∃ p h1, cuwasm_translate_wasm (fun _ => "no functions") true
      (fun _ => translate_wasm soroban_env (fun _ => []) []) (Some [0; 97]) 2
      (Some default_out) ∅ = (Ok (-1, Some (err_out p)), h1) ∧
    read_str p h1 = (Ok "no functions", h1) ∧ cuwasm_translate_free (Some (err_out p)) h1 = (Ok (Some default_out), ∅).
Proof.
  apply (error_free_roundtrip (fun _ => "no functions") true
    (fun _ => translate_wasm soroban_env (fun _ => []) []) [0; 97] 2 default_out ∅ (msg "no functions")).
  vm_compute. reflexivity.
Defined.

(** ** Where the boundary breaks *)

Definition nul_name : string := String Ascii.zero "a".

(** An export name with a NUL character, which WebAssembly allows, panics in
    [cuwasm_translate_wasm] instead of giving an error; the same module with another
    name is handed over and freed. *)
Theorem nul_export_panics :
  (translate_and_free false (small_translate ["a"] [0]) ∅).1 = Ok (Some default_out) ∧
  (translate_and_free false (small_translate [nul_name] [0]) ∅).1 = Panic "NulError".
Proof. split; vm_compute; reflexivity. Qed.

(** [func_typeidx] has one entry per declared function but is freed with the number
    of bodies: a module that declares a function without a body is translated
    without an error and, with assertions off, its free passes another capacity
    than the allocation's. *)
Theorem missing_body_frees_wrong_size :
  (translate_and_free true (small_translate ["a"] [0; 0]) ∅).1 = Panic "assertion failed" ∧
  (translate_and_free false (small_translate ["a"] [0; 0]) ∅).1 = Panic "layout mismatch".
Proof. split; vm_compute; reflexivity. Qed.
