(* ===== verification/Handover.v ===== *)
(** * What crosses the C boundary

    A translated module arrives in C++ as it is, or not at all: handing it over ends in
    [Ok] exactly when it is [exportable], and then with the module itself and the heap as
    it was.  One direction is the round trip of [CapiFacts]; for the other, every free
    that succeeds has been given the count of the allocation, so that no count was
    truncated to 32 bits and the vectors that share a count have one length. *)

From S2P Require Import Prelude Cuop Wasm Lower EnvTable Module ModuleSteps ModuleFacts.
From S2P Require Import ModuleTables Engine Capi CapiFacts.
From stdpp Require Import base list strings gmap.

Local Open Scope Z_scope.

(** ** Handing over *)

Definition rawp (p : ptr) (b : buf) : Prop := raw p (u32 (buf_len b)) b.

Definition rawp_names (p : ptr) (l : list ptr) (ss : list string) : Prop :=
  rawp p (BPtrs l) ∧ Forall is_addr l ∧ length l = length ss.

(** The strings of the first [n] imports. *)
Definition first_imports (n : nat) (m : HostModule) : HostModule :=
  mkHostModule m.(hm_code) m.(hm_consts) m.(hm_funcs) m.(hm_exports) m.(hm_globals) m.(hm_memory)
    m.(hm_mem_size) m.(hm_mem_max) m.(hm_data_blob) m.(hm_data_off) m.(hm_data_len) m.(hm_data_live)
    m.(hm_table) m.(hm_func_typeidx) m.(hm_type_fp) m.(hm_n_host_imports) m.(hm_host_fn_id)
    (take n m.(hm_host_import_mod)) (take n m.(hm_host_import_name)) (take n m.(hm_host_import_env)).

(** The pointers are those of the vectors; a count is a length modulo [2 ^ 32]. *)
Record given (m : HostModule) (o : TranslateOut) (nm : Names) : Prop := mkGiven {
  gi_code : rawp o.(o_code) (BOps m.(hm_code)) ∧ o.(o_n_code) = u32 (len m.(hm_code));
  gi_consts : rawp o.(o_consts) (BU64 m.(hm_consts)) ∧ o.(o_n_consts) = u32 (len m.(hm_consts));
  gi_funcs : rawp o.(o_funcs) (BFuncs m.(hm_funcs)) ∧ o.(o_n_funcs) = u32 (len m.(hm_funcs));
  gi_names : rawp_names o.(o_export_names) nm.(nm_exports) m.(hm_exports).*1 ∧
    o.(o_n_exports) = u32 (len m.(hm_exports));
  gi_idxs : rawp o.(o_export_idxs) (BU32 m.(hm_exports).*2);
  gi_globals : rawp o.(o_globals) (BU64 m.(hm_globals)) ∧ o.(o_n_globals) = u32 (len m.(hm_globals));
  gi_memory : rawp o.(o_memory) (BU8 m.(hm_memory)) ∧ o.(o_mem_max) = m.(hm_mem_max);
  gi_blob : rawp o.(o_data_blob) (BU8 m.(hm_data_blob)) ∧ o.(o_data_blob_len) = u32 (len m.(hm_data_blob));
  gi_off : rawp o.(o_data_off) (BU32 m.(hm_data_off));
  gi_len : rawp o.(o_data_len) (BU32 m.(hm_data_len));
  gi_live : rawp o.(o_data_live) (BU8 m.(hm_data_live)) ∧ o.(o_n_data) = u32 (len m.(hm_data_live));
  gi_table : rawp o.(o_table) (BU32 m.(hm_table)) ∧ o.(o_table_len) = u32 (len m.(hm_table));
  gi_typeidx : rawp o.(o_func_typeidx) (BU32 m.(hm_func_typeidx));
  gi_type_fp : rawp o.(o_type_fp) (BU64 m.(hm_type_fp)) ∧ o.(o_n_types) = u32 (len m.(hm_type_fp));
  gi_fn_id : rawp o.(o_host_fn_id) (BU32 m.(hm_host_fn_id)) ∧ o.(o_n_host_imports) = m.(hm_n_host_imports);
  gi_mod : rawp_names o.(o_host_import_mod) nm.(nm_mod) m.(hm_host_import_mod);
  gi_name : rawp_names o.(o_host_import_name) nm.(nm_name) m.(hm_host_import_name);
  gi_env : rawp_names o.(o_host_import_env) nm.(nm_env) m.(hm_host_import_env);
  gi_err : o.(o_err) = Null;
  gi_nuls : no_nuls m.(hm_exports).*1 ∧ no_nuls m.(hm_host_import_mod) ∧ no_nuls m.(hm_host_import_name) ∧
    no_nuls m.(hm_host_import_env) }.

Section crossing.
Context (h0 : Heap).

Lemma ok_vec_to_raw b R h :
  owned h0 R h →
  wlp (vec_to_raw b) (fun r h' => rawp r.1 b ∧ r.2 = u32 (buf_len b) ∧ owned h0 (own r.1 b ++ R) h') h.
Proof.
  intros Ho. eapply wlp_wp, wp_mono; [by apply wp_vec_to_raw| |done]. intros [p n] h' [Hr HO].
  pose proof Hr as [E _]. simpl in *. subst n. by split_and!.
Qed.

Lemma ok_cstring s R h :
  owned h0 R h → wlp (cstring s) (fun p h' => has_nul s = false ∧ is_addr p ∧ owned h0 (own p (BStr s) ++ R) h') h.
Proof.
  intros Ho. destruct (has_nul s) eqn:Hn; [unfold cstring; by rewrite Hn|].
  eapply wlp_wp, wp_mono; [by apply wp_cstring| |done]. by intros p h' [? ?].
Qed.

Lemma ok_raw_exports ex : ∀ R h, owned h0 R h →
  wlp (raw_exports ex) (fun r h' => no_nuls ex.*1 ∧ Forall is_addr r.1 ∧ length r.1 = length ex ∧ r.2 = ex.*2 ∧
    owned h0 (own_strs r.1 ex.*1 ++ R) h') h.
Proof.
  induction ex as [|[s i] ex IH]; intros R h Ho; simpl; [apply wlp_ret; split_and!; first [apply List.Forall_nil|done]|].
  eapply wlp_seq; [by apply ok_cstring|]. intros p h1 (Hs & Hp & Ho1).
  eapply wlp_seq; [by apply IH|]. intros [ns ids] h2 (H0 & H1 & H2 & H3 & Ho2). simpl in *.
  apply wlp_ret. simpl. split_and!; [by apply List.Forall_cons|by apply List.Forall_cons|lia|by rewrite H3|].
  eapply owned_perm; [|exact Ho2]. same_blocks.
Qed.

Lemma ok_cstring_at v i R h :
  owned h0 R h → wlp (cstring_at v i) (fun p h' => ∃ s, v !! i = Some s ∧ has_nul s = false ∧ is_addr p ∧
    owned h0 (own p (BStr s) ++ R) h') h.
Proof.
  intros Ho. unfold cstring_at. destruct (v !! i) as [s|]; [|done]. intros p h' H.
  destruct (ok_cstring s R h Ho p h' H) as (? & ? & ?). exists s. by split_and!.
Qed.

(** The [n] names from [i] on. *)
Abbreviation span i n v := (take n (drop i v)).

Lemma ok_raw_imports m n : ∀ i R h, owned h0 R h →
  wlp (raw_imports m i n) (fun r h' =>
    let '(ms, ns, es) := r in
    no_nuls (span i n m.(hm_host_import_mod)) ∧ no_nuls (span i n m.(hm_host_import_name)) ∧
    no_nuls (span i n m.(hm_host_import_env)) ∧
    Forall is_addr ms ∧ Forall is_addr ns ∧ Forall is_addr es ∧
    length ms = length (span i n m.(hm_host_import_mod)) ∧ length ns = length (span i n m.(hm_host_import_name)) ∧
    length es = length (span i n m.(hm_host_import_env)) ∧
    owned h0 (own_strs ms (span i n m.(hm_host_import_mod)) ++ own_strs ns (span i n m.(hm_host_import_name)) ++
              own_strs es (span i n m.(hm_host_import_env)) ++ R) h') h.
Proof.
  induction n as [|n IH]; intros i R h Ho; simpl; [apply wlp_ret; split_and!; first [apply List.Forall_nil|done]|].
  eapply wlp_seq; [by apply ok_cstring_at|]. intros p1 h1 (s1 & E1 & N1 & P1 & O1).
  eapply wlp_seq; [by apply ok_cstring_at|]. intros p2 h2 (s2 & E2 & N2 & P2 & O2).
  eapply wlp_seq; [by apply ok_cstring_at|]. intros p3 h3 (s3 & E3 & N3 & P3 & O3).
  eapply wlp_seq; [by apply (IH (S i))|]. intros [[ms ns] es] h4 (G1 & G2 & G3 & A1 & A2 & A3 & B1 & B2 & B3 & O4).
  apply wlp_ret. rewrite (drop_S _ _ _ E1), (drop_S _ _ _ E2), (drop_S _ _ _ E3). simpl.
  split_and!; try (by apply List.Forall_cons); try lia.
  eapply owned_perm; [|exact O4]. same_blocks.
Qed.

Lemma ok_assert {B} x y (k : unit → HM B) Q h : wlp (k tt) Q h → wlp (debug_assert_eq false x y ≫= k) Q h.
Proof. intros Hk. by eapply (wlp_seq _ _ (fun _ h' => h' = h)); [by apply wlp_ret|intros [] ? ->]. Qed.

Ltac ovec p n H E O :=
  eapply wlp_seq; [by eapply ok_vec_to_raw|]; intros [p n] ? (H & E & O); simpl in H, E, O; subst n.

(** What is handed over, whatever the sizes. *)
Lemma ok_export_module m :
  let m' := first_imports (Z.to_nat m.(hm_n_host_imports)) m in
  wlp (export_module false m) (fun o h => ∃ nm, given m' o nm ∧ owned h0 (blocks m' o nm) h) h0.
Proof.
  intros m'. assert (owned h0 [] h0) as O0 by (by apply owned_nil). unfold export_module.
  ovec pcode ncode R1 E1 O1. ovec pconsts nconsts R2 E2 O2. ovec pfuncs nfuncs R3 E3 O3.
  eapply wlp_seq; [by eapply ok_raw_exports|]. intros [names idxs] h4 (N0 & A1 & A2 & A3 & O4).
  simpl in A1, A2, A3, O4. subst idxs.
  ovec penames ne1 R5 E5 O5. ovec pidxs ne2 R6 E6 O6. apply ok_assert.
  ovec pglobals ng R7 E7 O7. ovec pmem nmem R8 E8 O8. apply ok_assert.
  ovec pblob nblob R9 E9 O9. ovec poff n1 R10 E10 O10. ovec plen n2 R11 E11 O11. ovec plive n3 R12 E12 O12.
  do 3 apply ok_assert.
  ovec ptab ntab R13 E13 O13. ovec ptidx ntidx R14 E14 O14. apply ok_assert.
  ovec pfp ntypes R15 E15 O15. ovec pids nids R16 E16 O16. apply ok_assert.
  eapply wlp_seq; [by eapply (ok_raw_imports m)|].
  intros [[ms ns] es] h17 (N1 & N2 & N3 & B1 & B2 & B3 & C1 & C2 & C3 & O17). rewrite !drop_0 in *.
  ovec pms nms R18 E18 O18. ovec pns nns R19 E19 O19. ovec pes nes R20 E20 O20. do 3 apply ok_assert.
  apply wlp_ret. exists (mkNames names ms ns es). split.
  - split; simpl; unfold rawp_names; split_and?; try done.
    + by rewrite length_fmap.
    + unfold len. by rewrite A2.
  - eapply owned_perm; [|exact O20]. unfold blocks, own_names. simpl. same_blocks.
Qed.

(** ** Giving back *)

(** A free that succeeds has been given the length of the allocation. *)
Lemma ok_free_vec t p n b R R' h :
  rawp p b → buf_ty b = t → R ≡ₚ own p b ++ R' → owned h0 R h →
  wlp (free_vec t p n) (fun _ h' => n = buf_len b ∧ owned h0 R' h') h.
Proof.
  intros [_ Hp] <- HP Ho. apply (owned_perm _ _ _ _ HP) in Ho. unfold free_vec.
  destruct p as [| |a]; [done| |]; rewrite bool_decide_eq_false_2 by done; unfold dealloc.
  - destruct (n =? 0) eqn:Hn; [|done]. apply wlp_ret. split; [lia|done].
  - intros u h'. simpl in Ho. apply owned_free in Ho as [Ha Ho]. rewrite Ha.
    rewrite bool_decide_eq_true_2 by done. simpl. destruct (buf_len b =? n) eqn:Hn; [|done].
    intros [= _ <-]. split; [lia|done].
Qed.

Lemma ok_free_names p n l ss R R' h :
  rawp_names p l ss → R ≡ₚ own_names p l ss ++ R' → owned h0 R h →
  wlp (free_names p n) (fun _ h' => n = len l ∧ owned h0 R' h') h.
Proof.
  intros ([_ Hp] & Hl & Hlen) HP Ho. apply (owned_perm _ _ _ _ HP) in Ho. unfold own_names in Ho.
  rewrite <-app_assoc in Ho. unfold free_names.
  destruct p as [| |a]; [done| |]; rewrite bool_decide_eq_false_2 by done.
  - simpl in Hp. destruct l, ss; try done. eapply (wlp_seq _ _ (fun _ h' => h' = h)); [by apply wlp_ret|].
    intros [] ? ->. unfold dealloc. destruct (n =? 0) eqn:Hn; [|done]. apply wlp_ret. split; [|done]. simpl. lia.
  - eapply wlp_seq with (Q := fun _ h' => owned h0 ([(a, BPtrs l)] ++ R') h').
    + destruct (owned_free _ _ _ _ _ Ho) as [Ha _]. intros u h'. rewrite Ha.
      assert (owned h0 (own_strs l ss ++ [(a, BPtrs l)] ++ R') h) as Ho'.
      { eapply owned_perm; [|exact Ho]. apply (Permutation_app_swap_app [(a, BPtrs l)]). }
      exact (wlp_wp _ _ _ _ (wp_free_strs h0 l ss _ h Hl Hlen Ho') u h').
    + intros [] h' Ho'. apply owned_free in Ho' as [Ha Ho']. intros u h2. unfold dealloc. rewrite Ha.
      rewrite bool_decide_eq_true_2 by done. cbn [andb buf_len]. destruct (len l =? n) eqn:Hn; [|done].
      intros [= _ <-]. split; [lia|done].
Qed.

Ltac ofree E :=
  eapply wlp_seq; [eapply ok_free_vec; [eassumption|reflexivity|pick|eassumption]|]; intros [] ? [E ?]; simpl in E.
Ltac onames E :=
  eapply wlp_seq; [eapply ok_free_names; [eassumption|pick|eassumption]|]; intros [] ? [E ?].

(** The length of an allocation is its count, which is below [2 ^ 32]. *)
Lemma u32_len {A} (l : list A) : u32 (len l) = len l → len l < 2 ^ 32.
Proof. intros <-. apply u32_range. Qed.

Lemma ok_free_out m o nm h :
  given m o nm → 0 ≤ m.(hm_mem_max) < 2 ^ 32 → m.(hm_n_host_imports) = u32 (len m.(hm_host_fn_id)) →
  owned h0 (blocks m o nm) h → wlp (free_out o) (fun _ _ => exportable m) h.
Proof.
  intros [[H1 C1] [H2 C2] [H3 C3] [H4 C4] H5 [H6 C6] [H7 C7] [H8 C8] H9 H10 [H11 C11] [H12 C12] H13 [H14 C14]
    [H15 C15] H16 H17 H18 _ (N1 & N2 & N3 & N4)] Hmax Hni Ho. unfold blocks in Ho. unfold free_out.
  ofree E1. ofree E2. ofree E3. onames E4. ofree E5. ofree E6. ofree E7. ofree E8. ofree E9. ofree E10. ofree E11.
  ofree E12. ofree E13. ofree E14. ofree E15. cbn [for_each].
  eapply wlp_seq with (Q := fun _ _ => o.(o_n_host_imports) = len nm.(nm_mod) ∧
    o.(o_n_host_imports) = len nm.(nm_name) ∧ o.(o_n_host_imports) = len nm.(nm_env)).
  { onames E16. onames E17. onames E18. by apply wlp_ret. }
  intros [] h' (E16 & E17 & E18). intros _ h2 _. clear h2 h'.
  destruct H4 as (_ & _ & L4), H16 as (_ & _ & L16), H17 as (_ & _ & L17), H18 as (_ & _ & L18).
  rewrite C1 in E1. rewrite C2 in E2. rewrite C3 in E3, E13. rewrite C6 in E6. rewrite C7 in E7. rewrite C8 in E8.
  rewrite C11 in E9, E10, E11. rewrite C12 in E12. rewrite C14 in E14. rewrite C15, Hni in *.
  rewrite length_fmap in L4. assert (len (hm_exports m).*2 = len m.(hm_exports)) as L5 by (unfold len; by rewrite length_fmap).
  rewrite C4, L5 in E5. split; try (by apply u32_len); try done; split_and?; try (by apply u32_len); try done;
    unfold len in *; lia.
Qed.

(** Reading changes nothing. *)
Lemma ok_read_vec {A} (sel : buf → option (list A)) p n h : wlp (read_vec sel p n) (fun _ h' => h' = h) h.
Proof.
  intros r h'. unfold read_vec. destruct (n =? 0); [by intros [= _ <-]|]. destruct p; [done..|].
  destruct (_ ≫= _); [|done]. destruct (_ <=? _); [by intros [= _ <-]|done].
Qed.

Lemma ok_read_strs l : ∀ h, wlp (read_strs l) (fun _ h' => h' = h) h.
Proof.
  induction l as [|p l IH]; intros h; [by apply wlp_ret|]. simpl.
  eapply (wlp_seq _ _ (fun _ h' => h' = h)).
  - intros s h'. unfold read_str. destruct p; [by intros [= _ <-]|done|]. by destruct (h !! a) as [[]|]; try done; intros [= _ <-].
  - intros s h' ->. eapply wlp_seq; [apply IH|]. intros ss h' ->. by apply wlp_ret.
Qed.

Lemma ok_read_names p n h : wlp (read_names p n) (fun _ h' => h' = h) h.
Proof. unfold read_names. eapply wlp_seq; [apply ok_read_vec|]. intros l h' ->. apply ok_read_strs. Qed.

Lemma ok_read_module o h : wlp (read_module o) (fun _ h' => h' = h) h.
Proof.
  unfold read_module.
  repeat (eapply wlp_seq; [first [apply ok_read_vec|apply ok_read_names]|]; intros ? ? ->). by apply wlp_ret.
Qed.
End crossing.

(** ** Both directions *)

(** What the translator guarantees of the fields the boundary shares counts between. *)
Record prepared (m : HostModule) : Prop := {
  pr_max : 0 ≤ m.(hm_mem_max) < 2 ^ 32;
  pr_imports : m.(hm_n_host_imports) = u32 (len m.(hm_host_fn_id));
  pr_mod : length m.(hm_host_import_mod) = length m.(hm_host_fn_id);
  pr_name : length m.(hm_host_import_name) = length m.(hm_host_fn_id);
  pr_env : length m.(hm_host_import_env) = length m.(hm_host_fn_id) }.

Lemma translate_prepared root parse_all bytes m : translate_wasm root parse_all bytes = Ok m → prepared m.
Proof.
  intros Htr. eapply (translate_wasm_inv_plain _ _ _ _ (imports_inv root)) in Htr as (s & _ & Has & l & Hi & _);
    [|exists []; by split|intros p s1 s2; apply imports_inv_step].
  apply assemble_ok in Has as (ms & mm & d & tb & fps & Hms & _ & _ & _ & _ & ->).
  apply memory_sizes_spec in Hms as (H1 & H2 & _). unfold CUWASM_MEM_MAX_PAGES, WASM_PAGE in H2.
  split; simpl; rewrite ?Hi; simpl; rewrite ?length_fmap; done || lia.
Qed.

Lemma exportable_hand_over m h : exportable m → hand_over m h = (Ok m, h).
Proof.
  intros Hm. pose proof (wp_export_module h m Hm false) as Hx. unfold hand_over, mbind, St_bind. unfold wp in Hx.
  destruct (export_module false m h) as [[o| |] h1]; [|done..]. destruct Hx as (nm & Hh & Ho).
  pose proof (wp_read_module h m Hm o nm h1 Hh Ho) as Hr. unfold wp in Hr.
  destruct (read_module o h1) as [[r| |] h2]; [|done..]. destruct Hr as [-> ->].
  pose proof (wp_translate_free h m Hm o nm h1 Hh Ho) as Hf. unfold wp in Hf.
  unfold cuwasm_translate_free, mbind, St_bind. destruct (free_out o h1) as [[r| |] h2]; [|done..].
  by destruct Hf as [_ ->].
Qed.

Lemma hand_over_exportable m h m' h' : prepared m → hand_over m h = (Ok m', h') → exportable m.
Proof.
  intros [P1 P2 P3 P4 P5]. set (n := Z.to_nat m.(hm_n_host_imports)).
  assert (wlp (hand_over m) (fun _ _ => exportable (first_imports n m)) h) as Hok.
  { unfold hand_over. eapply wlp_seq; [apply ok_export_module|]. intros o h1 (nm & Hg & Ho).
    eapply wlp_seq; [apply ok_read_module|]. intros m1 h2 ->.
    eapply (wlp_seq _ _ (fun _ _ => exportable (first_imports n m))); [|intros t h2 H; by apply wlp_ret].
    unfold cuwasm_translate_free. eapply wlp_seq; [by eapply ok_free_out|]. intros t h2 H. by apply wlp_ret. }
  intros H. apply Hok in H. clear Hok. pose proof (ex_imports _ H) as (_ & Hn & _). simpl in Hn.
  assert (n = length m.(hm_host_fn_id)) as En by (unfold n, len in *; lia).
  unfold first_imports in H. rewrite !take_ge in H by lia. by destruct m.
Qed.

(** A translated module crosses the boundary if and only if it is [exportable], and then
    unchanged; it leaves the heap as it was. *)
Lemma hand_over_iff root parse_all bytes m m' h h' :
  translate_wasm root parse_all bytes = Ok m →
  hand_over m h = (Ok m', h') ↔ exportable m ∧ m' = m ∧ h' = h.
Proof.
  intros Htr%translate_prepared. split.
  - intros H. assert (exportable m) as Hm by (by eapply hand_over_exportable).
    rewrite exportable_hand_over in H by done. by simplify_eq.
  - intros (Hm & -> & ->). by apply exportable_hand_over.
Qed.

(** [hand_over] is what [cuwasm::translate_wasm] does with a module; an error arrives as its
    text without NULs, and nothing is left on the heap. *)
Lemma cpp_translate_wasm_ok display translate bytes n h m :
  translate (take (Z.to_nat n) bytes) = Ok m →
  cpp_translate_wasm display false translate (Some bytes) n h =
    let '(r, h') := hand_over m h in (r ≫= (fun m => Ok (inl m)), h').
Proof.
  intros Ht. unfold cpp_translate_wasm, cuwasm_translate_wasm, translate_into, hand_over. rewrite Ht.
  unfold mbind, St_bind, mret, St_ret. destruct (export_module false m h) as [[o| |] h1]; [|done..].
  cbn [negb Z.eqb default]. unfold from_option, id. destruct (read_module o h1) as [[r| |] h2]; [|done..].
  by destruct (cuwasm_translate_free (Some o) h2) as [[t| |] h3].
Qed.

Lemma cpp_translate_wasm_err display translate bytes n h e :
  translate (take (Z.to_nat n) bytes) = Err e →
  cpp_translate_wasm display false translate (Some bytes) n h = (Ok (inr (strip_nul (display e))), h).
Proof.
  intros Ht. unfold cpp_translate_wasm, cuwasm_translate_wasm, translate_into. rewrite Ht.
  pose proof (wp_cstring h (strip_nul (display e)) [] h (strip_nul_has_nul _)) as Hc.
  unfold wp in Hc. unfold mbind, St_bind, cstring_err.
  destruct (cstring _ h) as [[p| |] h1]; [|by destruct Hc; apply owned_nil..].
  destruct Hc as [[a ->] Ho]; [by apply owned_nil|]. simpl in Ho. apply owned_free in Ho as [Ha Ho%owned_nil].
  unfold mret, St_ret, default, id. cbn [negb Z.eqb o_err err_out]. rewrite bool_decide_eq_false_2 by done.
  unfold read_str. rewrite Ha. unfold cuwasm_translate_free, free_out, mbind, St_bind. simpl.
  unfold free_cstring_opt. rewrite bool_decide_eq_false_2 by done. unfold free_cstring. by rewrite Ha, Ho.
Qed.
