(* ===== verification/Loadable.v ===== *)
(** * From translation to safe runs

    What the translator guarantees of a module ([translated]), and that together
    with acceptance by the verifier it gives all the interpreter relies on, but for
    three conditions that no part of the system checks ([residual]). *)

From S2P Require Import Prelude Cuop Wasm Lower LowerInv LowerSafety EnvTable Module ModuleSteps.
From S2P Require Import ModuleFacts ModuleTables Engine EngineFrame EngineSlice Verify VerifyFacts.
From S2P Require Import EngineInv EngineSafe EngineSound Capi CapiFacts Handover.
From stdpp Require Import base list strings gmap.

Local Open Scope Z_scope.

(** Loading as [cuwasm_module_load] does: translate in Rust, hand the module over the C
    boundary, verify.  The payloads are those of the binary; errors are kept as values, and
    the heap is that of the crossing only ([module_load_capi]). *)
Definition module_load (ps : list (item Payload)) : outcome HostModule :=
  M0 ← translate_wasm soroban_env (fun _ => ps) [];
  M ← (hand_over M0 ∅).1;
  match verify_cuop M with Some r => r | None => Panic "fuel" end.

(** The C function: a module, or the text of an error. *)
Definition cuwasm_module_load (display : rust_err → string) (parse_all : list Z → list (item Payload))
    (wasm : option (list Z)) (n : Z) : HM (HostModule + string) :=
  if bool_decide (wasm = None) && negb (n =? 0) then mret (inr "null wasm"%string)
  else
    r ← cpp_translate_wasm display false (translate_wasm soroban_env parse_all) wasm n;
    match r with
    | inr e => mret (inr e)
    | inl M =>
        match verify_cuop M with
        | Some (Ok M') => mret (inl M')
        | Some (Err e) => mret (inr (display e))
        | Some (Panic w) => undefined w
        | None => undefined "fuel"
        end
    end.

(** What loads is translated, crosses the boundary unchanged and is accepted. *)
Lemma module_load_iff ps M :
  module_load ps = Ok M ↔
    ∃ M0, translate_wasm soroban_env (fun _ => ps) [] = Ok M0 ∧ exportable M0 ∧ verify_cuop M0 = Some (Ok M).
Proof.
  unfold module_load. destruct (translate_wasm soroban_env (fun _ => ps) []) as [M0| |] eqn:Htr; simpl;
    [|split; [done|by intros (? & ? & _)]..].
  pose proof (hand_over_iff _ _ _ _ M0 ∅ ∅ Htr) as Hiff. split.
  - intros H. destruct (hand_over M0 ∅) as [[M1| |] h1] eqn:Hh; simpl in H; [|done..].
    apply (hand_over_iff _ _ _ _ _ _ _ Htr) in Hh as (Hm & -> & _). exists M0. split_and!; [done..|].
    by destruct (verify_cuop M0) as [r|]; [subst r|].
  - intros (M1 & [= <-] & Hm & Hv). rewrite (proj2 Hiff) by done. simpl. by rewrite Hv.
Qed.

(** [module_load] gives a module exactly when the C function does, in any heap, which it
    leaves as it was. *)
Lemma module_load_capi display parse_all bytes n h M :
  module_load (parse_all (take (Z.to_nat n) bytes)) = Ok M ↔
  cuwasm_module_load display parse_all (Some bytes) n h = (Ok (inl M), h).
Proof.
  rewrite module_load_iff. unfold cuwasm_module_load. rewrite bool_decide_eq_false_2 by done. cbn [andb].
  change (translate_wasm soroban_env (fun _ => parse_all (take (Z.to_nat n) bytes)) [])
    with (translate_wasm soroban_env parse_all (take (Z.to_nat n) bytes)). unfold mbind at 1, St_bind.
  destruct (translate_wasm soroban_env parse_all (take (Z.to_nat n) bytes)) as [M0|e|w] eqn:Htr.
  - rewrite (cpp_translate_wasm_ok _ _ _ _ _ M0) by done. split.
    + intros (M1 & [= <-] & Hm & Hv). rewrite (proj2 (hand_over_iff _ _ _ _ M0 h h Htr)) by done. simpl. by rewrite Hv.
    + intros H. destruct (hand_over M0 h) as [[M1| |] h1] eqn:Hh; simpl in H; [|done..].
      apply (hand_over_iff _ _ _ _ _ _ _ Htr) in Hh as (Hm & -> & ->). exists M0. split_and!; [done..|].
      destruct (verify_cuop M0) as [[M'| |]|]; [by injection H as ->|done..].
  - rewrite (cpp_translate_wasm_err _ _ _ _ _ e) by done. split; [by intros (? & ? & _)|done].
  - split; [by intros (? & ? & _)|]. unfold cpp_translate_wasm, cuwasm_translate_wasm, translate_into. by rewrite Htr.
Qed.

(** ** What the translator guarantees *)

Record translated (M : HostModule) : Prop := {
  tr_meta : Forall meta_ok M.(hm_funcs);
  tr_ops : Forall (op_fits M.(hm_n_host_imports)) M.(hm_code);
  tr_sigs : ∀ (i : nat) f, M.(hm_funcs) !! i = Some f →
    ∃ t fp, M.(hm_func_typeidx) !! i = Some t ∧ 0 ≤ t ∧ M.(hm_type_fp) !! Z.to_nat t = Some fp ∧
      f.(fm_n_params) = Z.land fp 255 ∧ f.(fm_n_results) = Z.land (Z.shiftr fp 8) 255;
  tr_table : Forall (fun fi => 0 ≤ fi) M.(hm_table);
  tr_data : data_ok M = true;
  tr_mem : mem_ok M = true }.

(** *** Functions *)

Lemma lower_or_stub_meta ops np nr nl code consts fts ftis ids meta code' consts' :
  0 ≤ np → 0 ≤ nr → 0 ≤ nl →
  lower_or_stub ops np nr nl code consts fts ftis ids = Ok (meta, code', consts') → meta_ok meta.
Proof.
  intros Hp Hr Hl. unfold lower_or_stub, lower_operators, stub, reserve_scratch.
  assert (∀ x, 0 ≤ u32 x) as Hu by (intros x; apply u32_range).
  destruct (existsb _ _); destruct (lower_body _ _ _) as [[[]| |] s]; try done;
    intros [= <- _ _]; split_and!; simpl; auto; lia.
Qed.

(** *** Ops *)

Lemma lower_or_stub_fits ops np nr nl code consts fts ftis ids meta code' consts' :
  let ni := u32 (len ids) in
  forallb op_widths ops = true → 0 ≤ nr < 2 ^ 16 → Forall (fun id => 0 ≤ id < 2 ^ 32) ids →
  lower_or_stub ops np nr nl code consts fts ftis ids = Ok (meta, code', consts') →
  small_out code' consts' → Forall (op_fits ni) code → Forall (op_fits ni) code'.
Proof.
  intros ni Hw Hr Hids Hlow Hs Hcode.
  destruct (lower_or_stub_appends _ _ _ _ _ _ _ _ _ _ _ _ false ltac:(done) Hlow) as (_ & _ & _ & Hap).
  destruct (Hap Hs) as ((rest & ->) & _ & _). apply Forall_app. split; [done|].
  unfold lower_or_stub in Hlow.
  destruct (lower_operators _ _ _ _ _ _ _ _ _ _) as [r [c1 k1]] eqn:Hrun.
  assert (widths_known ops np nr nl fts ftis ni ids (Some ni)) as Hwk.
  { intros ni' [= <-]. split_and!; [|done|done]. split; simpl; [done| |done].
    unfold reserve_scratch. destruct (existsb _ _); intros sc [= <-]. apply u16_range. }
  assert (∀ c, c `prefix_of` code ++ rest → c = c1 → k1 = consts' →
    ∀ (i : nat) ins, len code ≤ Z.of_nat i → c !! i = Some ins → op_fits ni ins) as Hfit.
  { intros c Hpre -> -> i ins Hi Hl.
    eapply (run_fits _ _ _ _ _ _ _ _ _ _ _ _ _ ni Hwk Hrun); [|apply Hs|exact Hi|exact Hl].
    apply prefix_length in Hpre. destruct Hs. unfold len in *. lia. }
  apply Forall_lookup. intros j ins Hj.
  assert ((code ++ rest) !! (length code + j)%nat = Some ins) as Hl
    by (rewrite lookup_app_r by lia; by rewrite Nat.add_sub_swap, Nat.sub_diag by lia).
  destruct r as [m|e|w]; [| |done].
  - injection Hlow as _ -> ->. eapply (Hfit (code ++ rest)); [done|done|done| |exact Hl]. unfold len. lia.
  - unfold stub in Hlow. injection Hlow as _ Hc ->. rewrite <-Hc in Hl.
    apply lookup_app_Some in Hl as [Hl|[_ Hl]].
    + eapply (Hfit c1); [rewrite <-Hc; by apply prefix_app_r|done..| |exact Hl]. unfold len. lia.
    + apply list_elem_of_lookup_2 in Hl. rewrite !elem_of_cons in Hl.
      destruct Hl as [->|[->|[]%not_elem_of_nil]]; by apply op_fits_intro.
Qed.

(** *** The section loop *)

Definition item_widths (it : item Payload) : bool :=
  match it with Item p => payload_widths p | ReadErr _ => true end.

(** A body is lowered after the last import, so the number of imports its calls
    were checked against is the final one. *)
Record widths_inv (rest : list (item Payload)) (s : TState) : Prop := {
  wi_sig : sig_inv rest s;
  wi_rest : forallb item_widths rest = true;
  wi_ids : Forall (fun id => 0 ≤ id < 2 ^ 32) s.(ts_imports).(host_fn_ids);
  wi_meta : Forall meta_ok s.(ts_out).(co_funcs);
  wi_typeidx : Forall (fun t => 0 ≤ t) s.(ts_func_typeidx);
  wi_table : Forall (fun fi => 0 ≤ fi) s.(ts_table);
  wi_elem : Forall (fun seg => Forall (fun fi => 0 ≤ fi) seg.2) s.(ts_elem);
  wi_imports : length s.(ts_imports).(host_fn_ids) = length s.(ts_out).(co_funcs) →
    s.(ts_out).(co_code) = [];
  wi_ops : small_out s.(ts_out).(co_code) s.(ts_out).(co_consts) →
    Forall (op_fits (u32 (len s.(ts_imports).(host_fn_ids)))) s.(ts_out).(co_code) }.

Lemma u32_ok_nonneg z : u32_ok z = true → 0 ≤ z.
Proof. unfold u32_ok. lia. Qed.

Lemma Forall_snoc_intro {A} (P : A → Prop) l x : Forall P l → P x → Forall P (l ++ [x]).
Proof. intros. apply Forall_app. split; [done|by apply Forall_singleton]. Qed.

Lemma body_widths_ops b r ops :
  body_widths b = true → b.(fb_operators) = Item r → read_ops r = Ok ops →
  forallb op_widths ops = true.
Proof.
  unfold body_widths. intros Hb Hr. rewrite Hr in Hb. clear Hr. revert ops Hb.
  induction r as [|it r IH]; intros ops Hb; simpl; [by intros [= <-]|].
  destruct it as [o|e]; simpl in *; [|done]. apply andb_true_iff in Hb as [Ho Hb].
  destruct (read_ops r) as [ops'| |]; simpl; [|done..]. intros [= <-]. simpl.
  rewrite Ho. by apply IH.
Qed.

Lemma widths_code b rest s t (ft : FuncType) r ops nl meta code consts :
  widths_inv (Item (CodeSectionEntry b) :: rest) s →
  s.(ts_func_typeidx) !! length s.(ts_out).(co_funcs) = Some t →
  s.(ts_func_types) !! Z.to_nat t = Some ft →
  b.(fb_operators) = Item r → read_ops r = Ok ops →
  lower_or_stub ops (u16 (len ft.1)) (u16 (len ft.2)) (u16 nl)
    s.(ts_out).(co_code) s.(ts_out).(co_consts) s.(ts_func_types) s.(ts_func_typeidx)
    s.(ts_imports).(host_fn_ids) = Ok (meta, code, consts) →
  widths_inv (Item (CodeSectionEntry b) :: rest) (add_func code consts meta s).
Proof.
  intros [H1 H2 H3 H4 H5 H6 H7 H8 H9] Ht Hft Hr Hops Hlow.
  pose proof (u16_range (len ft.1)). pose proof (u16_range (len ft.2)).
  pose proof (u16_range nl). split; simpl; try done.
  - destruct (lower_or_stub_sig _ _ _ _ _ _ _ _ _ _ _ _ Hlow). by eapply sig_inv_code.
  - apply Forall_snoc_intro; [done|]. eapply lower_or_stub_meta; [..|exact Hlow]; lia.
  - rewrite length_app. simpl. destruct H1 as (_ & _ & ? & _). intros. lia.
  - intros Hs. eapply (lower_or_stub_fits ops _ (u16 (len ft.2))); [|lia|done|exact Hlow|done|].
    + eapply body_widths_ops; [|done..]. by apply andb_true_iff in H2 as [? _].
    + apply H9. destruct (lower_or_stub_appends _ _ _ _ _ _ _ _ _ _ _ _ false ltac:(done) Hlow)
        as (Hg & Hk & _). apply prefix_len in Hk. destruct Hs. split; lia.
Qed.

Lemma widths_step root p rest s1 s2 :
  widths_inv (Item p :: rest) s1 → tstep root p s1 s2 → widths_inv (Item p :: rest) s2.
Proof.
  intros HI Hst. pose proof (sig_inv_step root p rest s1 s2 (wi_sig _ _ HI) Hst) as Hsig.
  assert (payload_widths p = true) as Hw.
  { pose proof (wi_rest _ _ HI) as Hr. by apply andb_true_iff in Hr as [? _]. }
  destruct Hst; subst; try solve [eapply widths_code; eauto];
    destruct HI as [G1 G2 G3 G4 G5 G6 G7 G8 G9]; split; simpl in *; try done.
  - apply Forall_snoc_intro; [done|]. apply u32_ok_nonneg. auto.
  - apply Forall_snoc_intro; [done|]. by eapply lookup_fn_range.
  - apply Forall_snoc_intro; [done|]. pose proof (u16_range (len ft.1)).
    pose proof (u16_range (len ft.2)). split_and!; simpl; lia.
  - apply Forall_snoc_intro; [done|]. apply u32_ok_nonneg. auto.
  - intros _. destruct G1 as (_ & _ & _ & [(_ & ? & _)|Hn]); [by apply G8|done].
  - intros Hs. destruct G1 as (_ & _ & _ & [(_ & Hl & _)|Hn]); [|done]. by rewrite (G8 Hl).
  - apply Forall_replicate. unfold TABLE_NULL. lia.
  - apply Forall_snoc_intro; [done|]. simpl. apply Forall_forall. intros fi Hfi%list_elem_of_In.
    match goal with H : _ → forallb u32_ok _ = true |- _ => specialize (H Hw); rewrite forallb_forall in H;
      by apply u32_ok_nonneg, H end.
Qed.

Lemma widths_next it rest s : widths_inv (it :: rest) s → widths_inv rest s.
Proof.
  intros [H1 H2 ? ? ? ? ? ? ?]. split; try done; [by eapply sig_inv_next|].
  by apply andb_true_iff in H2 as [_ ?].
Qed.

(** *** The assembled module *)

Lemma elem_write_Forall (P : Z → Prop) idxs : ∀ table slot table',
  Forall P table → Forall P idxs → elem_write table slot idxs = Ok table' → Forall P table'.
Proof.
  induction idxs as [|fi idxs IH]; intros table slot table' Ht Hi; simpl; [by intros [= <-]|].
  apply Forall_cons in Hi as [Hfi Hi]. destruct (_ <=? _)%nat; [done|].
  apply IH; [|done]. by apply Forall_insert.
Qed.

Lemma elem_loop_Forall (P : Z → Prop) segs : ∀ table table',
  Forall P table → Forall (fun seg => Forall P seg.2) segs → elem_loop table segs = Ok table' →
  Forall P table'.
Proof.
  induction segs as [|[off idxs] segs IH]; intros table table' Ht Hs; simpl; [by intros [= <-]|].
  apply Forall_cons in Hs as [Hi Hs]. destruct (elem_write _ _ _) as [t1| |] eqn:Hw; simpl; [|done..].
  apply IH; [|done]. exact (elem_write_Forall P idxs _ _ _ Ht Hi Hw).
Qed.

Lemma stored_data_ok segs d M :
  stored segs d → len d.(do_blob) < 2 ^ 32 → M.(hm_data_off) = d.(do_off) →
  M.(hm_data_len) = d.(do_len) → M.(hm_data_live) = d.(do_live) → M.(hm_data_blob) = d.(do_blob) →
  data_ok M = true.
Proof.
  intros (H1 & H2 & H3 & H4) Hb Ho Hn Hl Hbl. unfold data_ok. rewrite Ho, Hn, Hl, Hbl.
  rewrite !andb_true_iff, !Z.eqb_eq, Z.ltb_lt. split_and!; [unfold len in *; lia..|].
  apply forallb_forall. intros [o n] [k Hk]%list_elem_of_In%list_elem_of_lookup.
  apply lookup_zip_with_Some in Hk as (o' & n' & [= <- <-] & Hok & Hnk).
  assert (k < length segs)%nat as Hlt by (apply lookup_lt_Some in Hok; lia).
  apply lookup_lt_is_Some_2 in Hlt as [[[act off] bytes] Hseg].
  destruct (H4 k act off bytes Hseg) as (x & y & Hx & Hy & _ & ? & ? & ? & _). simplify_eq. lia.
Qed.

Lemma translate_wasm_translated root parse_all bytes M :
  imports_first (parse_all bytes) = true → forallb item_widths (parse_all bytes) = true →
  translate_wasm root parse_all bytes = Ok M →
  len M.(hm_code) < 2 ^ 32 → len M.(hm_consts) < 2 ^ 32 → len M.(hm_data_blob) < 2 ^ 32 →
  translated M.
Proof.
  intros Hord Hw Htr Hc Hk Hb.
  eapply (translate_wasm_inv _ _ _ _ (fun r s => widths_inv r s ∧ offsets_ok s.(ts_data)))
    in Htr as (s & _ & Has & HW & Hoff).
  - apply assemble_ok in Has as (ms & mm & d & tb & fps & Hms & Hd & Htb & Hfps & _ & ->).
    destruct HW as [(Hsig & _) _ Hids Hmeta Htidx Htab Helem _ Hops]. simpl in *.
    apply memory_sizes_spec in Hms as (Hms & Hmm & _).
    assert (stored s.(ts_data) d) as Hst.
    { eapply (data_loop_stored _ []); [|exact Hd|exact Hb]. by split_and!. }
    apply data_loop_spec in Hd as [Hlen _]; [|done|simpl; rewrite len_replicate; lia].
    simpl in Hlen. rewrite length_replicate in Hlen.
    split; simpl; try done.
    + by apply Hops.
    + intros i f Hf. destruct (sig_of_fp s fps i f Hfps (Hsig i f Hf)) as (t & fp & Ht & Hfp & ? & ? & _).
      exists t, fp. split_and!; try done. by apply (Forall_lookup_1 _ _ _ _ Htidx Ht).
    + by eapply elem_loop_Forall.
    + by eapply stored_data_ok.
    + unfold mem_ok. simpl. unfold CUWASM_MEM_MAX_PAGES, WASM_PAGE, len in *. lia.
  - split; [|by constructor]. split; simpl; try done.
    split_and!; simpl; try done; try lia. by left.
  - intros p rest s1 s2 [H1 H2] Hst. split; [by eapply widths_step|by eapply offsets_ok_step].
  - intros it rest s [H1 H2]. split; [by eapply widths_next|done].
Qed.

(** ** Loading *)

(** What no part of the system checks: host calls return at most one value, tail
    calls agree on the number of results, and the table holds no import. *)
Definition host_results_ok (in_ : CuOpC) : bool :=
  negb (in_.(cu_op) =? OP_CALL_HOST) || (Z.land (Z.shiftr in_.(cu_a) 8) 255 <=? 1).

Definition residual (M : HostModule) : bool :=
  forallb host_results_ok M.(hm_code) && forallb (tail_ok M) M.(hm_funcs) &&
  forallb (callee_has_code M) M.(hm_table).

(** An accepted function that is not an import has code. *)
Lemma verified_has_code M fi :
  verified M → M.(hm_n_host_imports) ≤ fi → callee_has_code M fi = true.
Proof.
  intros [_ Hv] Hfi. unfold callee_has_code.
  destruct (index M.(hm_funcs) fi) as [g|] eqn:Hg; [|done].
  apply index_Some in Hg as [H0 Hg]. destruct (Hv _ _ Hg) as [(Hs & _)|[_ Hlt]]; [|lia].
  destruct Hs. lia.
Qed.

Lemma op_fits_ok M in_ :
  verified M → op_fits M.(hm_n_host_imports) in_ → host_results_ok in_ = true → op_ok M in_ = true.
Proof.
  destruct in_ as [o a b]. intros HV [Ha Hb Hz Hc] Hh. simpl in *. unfold op_ok.
  unfold host_results_ok in Hh. simpl in Hh. rewrite !andb_true_iff. split_and!; [lia..| | |done].
  - destruct (o =? OP_CLZ) eqn:Ho; [|done]. apply Z.eqb_eq in Ho. simpl.
    by destruct (Hz Ho) as [-> | ->].
  - destruct ((o =? OP_CALL) || (o =? OP_RETURN_CALL)) eqn:Ho; [|done]. simpl.
    apply verified_has_code; [done|]. apply Hc. lia.
Qed.

Lemma translated_loadable M M' :
  translated M → verify_cuop M = Some (Ok M') → len M.(hm_code) < 2 ^ 32 → residual M' = true →
  loadable M' = true.
Proof.
  intros [T1 T2 T3 T4 T5 T6] Hv Hc Hr.
  destruct (verify_cuop_verified M M' T1 Hv) as (fs & HF & -> & HV).
  unfold residual in Hr. apply andb_true_iff in Hr as [[Hh Ht]%andb_true_iff Htab].
  unfold loadable. rewrite !andb_true_iff. split_and!; simpl in *; try done; [lia|..].
  - rewrite forallb_forall in Hh |- *. intros in_ Hin. apply op_fits_ok; [done| |by apply Hh].
    rewrite Forall_forall in T2. by apply T2, list_elem_of_In.
  - rewrite forallb_forall in Htab |- *. intros fi Hfi. apply andb_true_iff.
    split; [|by apply Htab]. rewrite Forall_forall in T4.
    apply Z.leb_le, T4. by apply list_elem_of_In.
  - apply forallb_forall. intros b [i Hi]%list_elem_of_In%list_elem_of_lookup.
    rewrite list_lookup_imap in Hi. apply fmap_Some in Hi as (f' & Hf' & ->). unfold id.
    destruct (Forall2_lookup_r _ _ _ _ _ HF Hf') as (f & Hf & n & ->).
    destruct (T3 i f Hf) as (t & fp & Hti & Ht0 & Hfp & Hp & Hres).
    unfold sig_ok. simpl. rewrite Hti. unfold index.
    destruct (0 <=? t) eqn:?; [|lia]. rewrite Hfp. simpl. lia.
Qed.

(** What is loaded is the translation, with the stack bounds the verifier computed. *)
Lemma verify_set_funcs M0 M : verify_cuop M0 = Some (Ok M) → ∃ fs, M = set_funcs fs M0.
Proof.
  unfold verify_cuop. destruct (hm_funcs M0), (hm_code M0); try done.
  destruct (verify_funcs _ _ _) as [[]|]; try done. intros [= <-]. by eexists.
Qed.

Lemma module_load_set_funcs ps M :
  module_load ps = Ok M → ∃ M0, translate_wasm soroban_env (fun _ => ps) [] = Ok M0 ∧
    verify_cuop M0 = Some (Ok M) ∧ ∃ fs, M = set_funcs fs M0.
Proof.
  intros (M0 & Htr & _ & Hv)%module_load_iff. exists M0. split_and!; [done..|]. by apply verify_set_funcs.
Qed.

(** A loaded module meets both sides' conditions. *)
Lemma module_load_sound ps M :
  imports_first ps = true → forallb item_widths ps = true → module_load ps = Ok M →
  len M.(hm_code) < 2 ^ 32 → len M.(hm_consts) < 2 ^ 32 → len M.(hm_data_blob) < 2 ^ 32 →
  residual M = true → verified M ∧ loadable M = true.
Proof.
  intros Hord Hw Hl Hc Hk Hb Hr. destruct (module_load_set_funcs ps M Hl) as (M0 & Htr & Hv & fs & HM).
  assert (translated M0) as HT.
  { subst M. by eapply (translate_wasm_translated soroban_env (fun _ => ps) []). }
  destruct (verify_cuop_verified M0 M (tr_meta _ HT) Hv) as (_ & _ & _ & HV).
  split; [done|]. eapply translated_loadable; [done..| |done]. by subst M.
Qed.

(** ** Theorem *)

(** C5. From the binary to the run. Take a module whose sections are in the order of
    the format and carry indices of 32 bits ([imports_first], [item_widths]), which
    [cuwasm_module_load] accepts, with code, constants and data of less than 2^32
    entries. Translator and verifier leave three things open, which are assumed
    ([residual]): a host call is declared with one result at most, a tail call returns
    as many values as its function, and the entries of the table have code. Then the
    module meets everything the interpreter relies on ([loadable]), and no sequence of
    calls makes an undefined access, whatever the arguments, the slice length, the
    number of rounds and what the host function returns or writes, provided that each
    called function is [callable] (it has code, and its parameters and locals fit the
    4096 slots of the stack; the verifier does not bound those of an entry function,
    see [entry_locals_bound]) and that the host leaves the mailbox and the memory
    their sizes and the mailbox its number of results ([host_ok]). *)
Theorem loaded_runs_safe {W} (I : W → Prop) ps M calls max_steps host rounds w :
  imports_first ps = true → forallb item_widths ps = true → module_load ps = Ok M →
  len M.(hm_code) < 2 ^ 32 → len M.(hm_consts) < 2 ^ 32 → len M.(hm_data_blob) < 2 ^ 32 →
  residual M = true → host_ok M I host → I w → forallb (fun c => callable M c.1) calls = true →
  loadable M = true ∧
  forallb (fun x => negb (corrupted x)) (run_calls M calls max_steps host rounds w).1.1 = true.
Proof.
  intros Hord Hw Hl Hc Hk Hb Hr Hh Hi Hcalls.
  destruct (module_load_sound ps M Hord Hw Hl Hc Hk Hb Hr) as [HV HL].
  split; [done|]. by eapply run_calls_safe.
Qed.

(** Function 1 writes its argument to memory, grows the memory and calls function 2
    through the table; function 2 calls the host. *)
Definition demo_payloads : list (item Payload) :=
  [ Item (TypeSection [Item [CtFunc [I64] [I64]]]);
    Item (ImportSection [Item (mkImport "x" "8" (TrFunc 0))]);
    Item (FunctionSection [Item 0; Item 0]);
    Item (TableSection [Item (mkTableType false true 1)]);
    Item (MemorySection [Item (mkMemoryType 1 (Some 2%N) false false None)]);
    Item (ElementSection [Item (mkElement (EkActive None [Item (I32Const 0); Item End])
                                  (EiFunctions [Item 2]))]);
    Item (CodeSectionEntry (mkBody (Item []) (Item (Item <$>
      [I32Const 8; LocalGet 0; I64Store (mkMemArg 0 0); I32Const 1; MemoryGrow 0; Drop;
       I32Const 8; I64Load (mkMemArg 0 0); I32Const 0; CallIndirect 0 0; End]))));
    Item (CodeSectionEntry (mkBody (Item []) (Item (Item <$>
      [LocalGet 0; Call 0; I64Const 1; I64Add; End])))) ].

(** A host function that doubles its argument and counts its calls. *)
Definition demo_host : HostFn Z := fun box mem n =>
  (true, mkMailbox box.(mb_fn_id) box.(mb_n_args) box.(mb_n_results) box.(mb_args)
           (<[0%nat := u64 (2 * nth 0 box.(mb_args) 0)]> box.(mb_results)), mem, n + 1).

Definition demo_checks (M : HostModule) : bool :=
  (len M.(hm_code) <? 2 ^ 32) && (len M.(hm_consts) <? 2 ^ 32) &&
  (len M.(hm_data_blob) <? 2 ^ 32) && residual M && callable M 1 &&
  bool_decide ((run_calls M [(1, [20]); (1, [3])] 1000 demo_host 3 0).1.1 =
               [Finished ST_OK [41]; Finished ST_OK [7]]).

Lemma loaded_runs_safe_witness :
  ∃ M, module_load demo_payloads = Ok M ∧
    (run_calls M [(1, [20]); (1, [3])] 1000 demo_host 3 0).1.1 =
      [Finished ST_OK [41]; Finished ST_OK [7]] ∧
    ∀ a b n r, forallb (fun x => negb (corrupted x))
      (run_calls M [(1, a); (1, b)] n demo_host r 0).1.1 = true.
Proof.
  destruct (ok_such_that (module_load demo_payloads) demo_checks) as (M & HM & Hb);
    [vm_compute; reflexivity|].
  unfold demo_checks in Hb. rewrite !andb_true_iff, !Z.ltb_lt in Hb.
  destruct Hb as [[[[[Hc Hk] Hd] Hr] Hf] Hrun%bool_decide_eq_true_1].
  exists M. split; [exact HM|]. split; [exact Hrun|]. intros a b n r.
  apply (loaded_runs_safe (fun k => 0 ≤ k) demo_payloads M [(1, a); (1, b)] n demo_host r 0);
    [vm_compute; reflexivity|vm_compute; reflexivity|exact HM|exact Hc|exact Hk|exact Hd|exact Hr| |lia|].
  - intros box mem k Hk0 Hask Hres Hmem. split; [lia|]. split; [reflexivity|]. intros _.
    split; [reflexivity|]. unfold len in *. simpl. rewrite length_insert. exact Hres.
  - simpl. rewrite Hf. reflexivity.
Defined.
