(* ===== verification/EngineEnds.v ===== *)
(** * Runs end

    The interpreter counts fuel on backward branches only.  Between two of them a run
    moves forward in the code, or up and down the bounded stack of frames, so it ends: a
    number computed from the length of the code bounds its rounds.  What is left out is a
    tail call, which costs no fuel and no frame. *)

From S2P Require Import Prelude Cuop Wasm Lower EnvTable Module ModuleSteps Engine EngineFrame Verify VerifyFacts EngineInv EngineSafe.
From stdpp Require Import base list strings.

Local Open Scope Z_scope.

(** ** The registers *)

Definition regs (m : Machine) : Z * Z * Z * list Frame := (m.(pc), m.(csp), m.(fuel), m.(frames)).

(** A computation that leaves the registers alone and does not call the host. *)
Class Steady {A} (c : EM A) : Prop :=
  steady m : regs (c m).2 = regs m ∧ (c m).1 ≠ Trap ST_HOSTCALL_PENDING.

Class SteadyUpd (f : Machine → Machine) : Prop := steady_upd m : regs (f m) = regs m.

#[export] Instance su_sp x : SteadyUpd (upd_sp x). Proof. done. Qed.
#[export] Instance su_fp x : SteadyUpd (upd_fp x). Proof. done. Qed.
#[export] Instance su_peak x : SteadyUpd (upd_peak x). Proof. done. Qed.
#[export] Instance su_stack x : SteadyUpd (upd_stack x). Proof. done. Qed.
#[export] Instance su_globals x : SteadyUpd (upd_globals x). Proof. done. Qed.
#[export] Instance su_memory x : SteadyUpd (upd_memory x). Proof. done. Qed.
#[export] Instance su_msize x : SteadyUpd (upd_msize x). Proof. done. Qed.
#[export] Instance su_live x : SteadyUpd (upd_live x). Proof. done. Qed.
#[export] Instance su_mb x : SteadyUpd (upd_mb x). Proof. done. Qed.

#[export] Instance s_ret {A} (a : A) : Steady (mret (M := EM) a). Proof. done. Qed.
#[export] Instance s_ub {A} w : Steady (ub (A := A) w). Proof. done. Qed.
#[export] Instance s_get {A} (f : Machine → A) : Steady (get f). Proof. done. Qed.
#[export] Instance s_put f : SteadyUpd f → Steady (put f). Proof. intros H m. split; [apply H|done]. Qed.

Lemma s_trap {A} s : s ≠ ST_HOSTCALL_PENDING → Steady (trap (A := A) s).
Proof. intros Hs m. split; [done|]. by intros [= ->]. Qed.
#[export] Hint Extern 1 (Steady (trap _)) => apply s_trap; discriminate : typeclass_instances.
#[export] Hint Extern 1 (Steady (trap_if ?b _)) => unfold trap_if; destruct b : typeclass_instances.

#[export] Instance s_bind {A B} (c : EM A) (k : A → EM B) :
  Steady c → (∀ a, Steady (k a)) → Steady (c ≫= k).
Proof.
  intros Hc Hk m. unfold mbind, EM_bind. specialize (Hc m).
  destruct (c m) as [[a|s|w] m1]; simpl in *; [|by destruct Hc as [? Hp]; split; [|intros [= ->]]..].
  destruct Hc as [H1 _], (Hk a m1) as [H2 H3]. split; [by rewrite H2|done].
Qed.

#[export] Instance s_if {A} (b : bool) (c d : EM A) : Steady c → Steady d → Steady (if b then c else d).
Proof. by destruct b. Qed.
#[export] Instance s_option {A B} (o : option A) (k : A → EM B) (d : EM B) :
  (∀ a, Steady (k a)) → Steady d → Steady (match o with Some a => k a | None => d end).
Proof. by destruct o. Qed.
#[export] Instance s_rd {A} w (l : list A) i : Steady (rd w l i).
Proof. unfold rd. apply _. Qed.

(** *** Accesses *)

#[export] Instance s_stack_at i : Steady (stack_at i). Proof. unfold stack_at. apply _. Qed.
#[export] Instance s_stack_set i v : Steady (stack_set i v). Proof. unfold stack_set. apply _. Qed.
#[export] Instance s_mem_at i : Steady (mem_at i). Proof. unfold mem_at. apply _. Qed.
#[export] Instance s_mem_set i v : Steady (mem_set i v). Proof. unfold mem_set. apply _. Qed.
#[export] Instance s_push v : Steady (push v). Proof. unfold push. apply _. Qed.
#[export] Instance s_pop : Steady pop. Proof. unfold pop. apply _. Qed.
#[export] Instance s_push2 r : Steady (push2 r). Proof. unfold push2. apply _. Qed.
#[export] Instance s_push_zeros n : Steady (push_zeros n).
Proof. induction n; simpl; apply _. Qed.
#[export] Instance s_copy_up g st dst src i n :
  (∀ i, Steady (g i)) → (∀ i v, Steady (st i v)) → Steady (copy_up g st dst src i n).
Proof. intros ? ?. revert i. induction n; intros i; simpl; apply _. Qed.
#[export] Instance s_copy_down g st dst src n :
  (∀ i, Steady (g i)) → (∀ i v, Steady (st i v)) → Steady (copy_down g st dst src n).
Proof. intros ? ?. induction n; simpl; apply _. Qed.
#[export] Instance s_stack_move d s n : Steady (stack_move d s n).
Proof. unfold stack_move, move_within. apply _. Qed.
#[export] Instance s_mem_move d s n : Steady (mem_move d s n).
Proof. unfold mem_move, move_within. apply _. Qed.
#[export] Instance s_host_args b n : Steady (host_args b n).
Proof. revert b. induction n; intros b; simpl; apply _. Qed.
#[export] Instance s_mem_load_le ea i n : Steady (mem_load_le ea i n).
Proof. revert i. induction n; intros i; simpl; apply _. Qed.
#[export] Instance s_mem_store_le ea i n v : Steady (mem_store_le ea i n v).
Proof. revert i. induction n; intros i; simpl; apply _. Qed.
#[export] Instance s_fill_loop d i n v : Steady (fill_loop d i n v).
Proof. revert i. induction n; intros i; simpl; apply _. Qed.

#[export] Instance s_exec_unwind a b : Steady (exec_unwind a b). Proof. unfold exec_unwind. apply _. Qed.
#[export] Instance s_exec_load a b : Steady (exec_load a b). Proof. unfold exec_load. apply _. Qed.
#[export] Instance s_exec_store a b : Steady (exec_store a b). Proof. unfold exec_store. apply _. Qed.
#[export] Instance s_exec_grow M : Steady (exec_grow M). Proof. unfold exec_grow. apply _. Qed.
#[export] Instance s_exec_copy : Steady exec_copy. Proof. unfold exec_copy. apply _. Qed.
#[export] Instance s_exec_fill : Steady exec_fill. Proof. unfold exec_fill. apply _. Qed.
#[export] Instance s_exec_init M di : Steady (exec_init M di). Proof. unfold exec_init, blob_at. apply _. Qed.
#[export] Instance s_exec_drop_data di : Steady (exec_drop_data di). Proof. unfold exec_drop_data. apply _. Qed.

(** *** Arms of the switch *)

Definition arm_steady (o : option (EM unit)) : Prop := ∀ c, o = Some c → Steady c.

Ltac steady_arms :=
  let c := fresh in let H := fresh in intros c H; cbv zeta in H;
  repeat match type of H with context [if ?b then _ else _] => destruct b end;
  simplify_eq; apply _.

Lemma exec_alu_steady op : arm_steady (exec_alu op).
Proof.
  intros c. unfold exec_alu. destruct (op_lookup op unops); [intros [= <-]; apply _|].
  destruct (op_lookup op binops); [intros [= <-]; apply _|].
  destruct (op_lookup op divops) as [g|] eqn:Hg; [|done]. intros [= <-].
  do 2 (apply s_bind; [apply _|intros ?]). destruct (g _ _) as [v|s] eqn:Hs; [apply _|].
  apply s_trap. by eapply divops_status.
Qed.

Lemma exec_wide_steady in_ : arm_steady (exec_wide in_).
Proof. unfold exec_wide. steady_arms. Qed.

Lemma exec_var_steady M in_ : arm_steady (exec_var M in_).
Proof. unfold exec_var. steady_arms. Qed.

Lemma exec_memory_steady M in_ : arm_steady (exec_memory M in_).
Proof. unfold exec_memory. steady_arms. Qed.

(** A host call leaves the registers alone and suspends the run. *)
Lemma regs_bind {A B} (c : EM A) (k : A → EM B) m :
  Steady c → (∀ a m', regs (k a m').2 = regs m') → regs ((c ≫= k) m).2 = regs m.
Proof.
  intros Hc Hk. unfold mbind, EM_bind. destruct (Hc m) as [H _]. destruct (c m) as [[a|s|w] m1]; try done.
  by rewrite Hk.
Qed.

Lemma exec_call_host_regs a b m : regs (exec_call_host a b m).2 = regs m.
Proof. unfold exec_call_host. cbv zeta. repeat (apply regs_bind; [apply _|intros ? ?]). done. Qed.

(** ** Partial preconditions

    [Q] holds if the computation returns, and it does not call the host; it may trap or be
    undefined. *)
Definition pwp {A} (c : EM A) (Q : A → Machine → Prop) (m : Machine) : Prop :=
  match c m with
  | (Val a, m') => Q a m'
  | (Trap s, _) => s ≠ ST_HOSTCALL_PENDING
  | (UB _, _) => True
  end.

Lemma pwp_bind {A B} (c : EM A) (k : A → EM B) Q m :
  pwp c (fun a m' => pwp (k a) Q m') m → pwp (c ≫= k) Q m.
Proof. unfold pwp, mbind, EM_bind. by destruct (c m) as [[a|s|w] m1]. Qed.

Lemma pwp_steady {A} (c : EM A) (Q : A → Machine → Prop) m :
  Steady c → (∀ a m', regs m' = regs m → Q a m') → pwp c Q m.
Proof.
  intros Hc HQ. unfold pwp. destruct (Hc m) as [H Hp]. destruct (c m) as [[a|s|w] m1]; simpl in *; auto.
  intros ->. done.
Qed.

Lemma pwp_seq {A B} (c : EM A) (k : A → EM B) Q m :
  Steady c → (∀ a m', regs m' = regs m → pwp (k a) Q m') → pwp (c ≫= k) Q m.
Proof. intros Hc Hk. apply pwp_bind. by apply pwp_steady. Qed.

Lemma pwp_put (f : Machine → Machine) (Q : unit → Machine → Prop) m : Q tt (f m) → pwp (put f) Q m.
Proof. done. Qed.

Lemma pwp_trap_if b s (k : EM unit) Q m :
  s ≠ ST_HOSTCALL_PENDING → (b = false → pwp k Q m) → pwp (trap_if b s;; k) Q m.
Proof. intros Hs Hk. destruct b; [done|by apply Hk]. Qed.

Lemma pwp_get {A} (f : Machine → A) (k : A → EM unit) Q m : pwp (k (f m)) Q m → pwp (get f ≫= k) Q m.
Proof. done. Qed.

Lemma pwp_rd {A} w (l : list A) i (k : A → EM unit) Q m :
  (∀ x, index l i = Some x → pwp (k x) Q m) → pwp (rd w l i ≫= k) Q m.
Proof. intros H. unfold pwp, rd, mbind, EM_bind. destruct (index l i) as [x|]; [|done]. by apply H. Qed.

(** ** The measure *)

Section measure.
Context (M : HostModule) (ok : Z → Prop).

Abbreviation L := (len M.(hm_code)).
Definition base : Z := L + 1.

(** What is left of the code from an address. *)
Definition ahead (p : Z) : Z := Z.min L (Z.max 0 (L - p)).

(** The addresses on the stack, the outermost call first, as digits: [k] is the weight of
    the first. *)
Fixpoint weigh (k : Z) (l : list Z) : Z :=
  match l with [] => 0 | p :: l' => ahead p * base ^ k + weigh (k - 1) l' end.

Definition callers (m : Machine) : list Z := ret_pc <$> drop 1 (take (Z.to_nat m.(csp)) m.(frames)).
Definition path (m : Machine) : list Z := callers m ++ [m.(pc)].
Definition measure (m : Machine) : Z := m.(fuel) * base ^ (FRAME_CAP + 1) + weigh FRAME_CAP (path m).

(** A machine in a run: the addresses it may continue at are among [ok]. *)
Record timed (m : Machine) : Prop := {
  ti_csp : 1 ≤ m.(csp) ≤ FRAME_CAP;
  ti_frames : len m.(frames) = FRAME_CAP;
  ti_fuel : 0 ≤ m.(fuel);
  ti_path : Forall ok (path m) }.

Lemma timed_ok m : timed m → ok m.(pc).
Proof. intros [_ _ _ H]. unfold path in H. rewrite Forall_app, Forall_singleton in H. by destruct H. Qed.

Lemma timed_callers m : timed m → Forall ok (callers m).
Proof. intros [_ _ _ H]. unfold path in H. rewrite Forall_app in H. by destruct H. Qed.

Lemma base_pos k : 0 ≤ k → 0 < base ^ k.
Proof. intros. apply Z.pow_pos_nonneg; [|done]. unfold base. pose proof (len_nonneg M.(hm_code)). lia. Qed.

Lemma ahead_range p : 0 ≤ ahead p ≤ L.
Proof. unfold ahead. pose proof (len_nonneg M.(hm_code)). lia. Qed.

Lemma ahead_lt p q : 0 ≤ p < L → p < q → ahead q + 1 ≤ ahead p.
Proof. unfold ahead. lia. Qed.

Lemma weigh_app k l l' : weigh k (l ++ l') = weigh k l + weigh (k - len l) l'.
Proof.
  revert k. induction l as [|p l IH]; intros k; cbn [weigh app]; [replace (k - len []) with k by (unfold len; simpl; lia); lia|].
  rewrite IH, len_cons. replace (k - (len l + 1)) with (k - 1 - len l) by lia. lia.
Qed.

Lemma weigh_range k l : len l ≤ k + 1 → 0 ≤ weigh k l < base ^ (k + 1).
Proof.
  revert k. induction l as [|p l IH]; intros k; cbn [weigh].
  - rewrite len_nil. intros. split; [lia|apply base_pos; lia].
  - rewrite len_cons. intros Hl. pose proof (len_nonneg l). destruct (IH (k - 1)) as [H1 H2]; [lia|].
    replace (k - 1 + 1) with k in H2 by lia. pose proof (ahead_range p) as Ha. rewrite Z.pow_add_r, Z.pow_1_r by lia.
    pose proof (base_pos k). unfold base in *. nia.
Qed.

Lemma regs_measure m m' : regs m' = regs m → (timed m → timed m') ∧ measure m' = measure m.
Proof.
  unfold regs. intros [= H1 H2 H3 H4]. unfold measure, path, callers. rewrite H1, H2, H3, H4. split; [|done].
  intros [? ? ? Hp]. unfold path, callers in Hp. split; unfold path, callers; congruence.
Qed.

Lemma callers_len m : timed m → len (callers m) = m.(csp) - 1.
Proof.
  intros [H1 H2 _ _]. unfold callers, len in *. rewrite length_fmap, length_drop, length_take.
  unfold FRAME_CAP in *. lia.
Qed.

Lemma path_weight m : timed m →
  0 ≤ weigh FRAME_CAP (path m) < base ^ (FRAME_CAP + 1) ∧
  weigh FRAME_CAP (path m) = weigh FRAME_CAP (callers m) + ahead m.(pc) * base ^ (FRAME_CAP + 1 - m.(csp)).
Proof.
  intros Ht. pose proof (callers_len m Ht) as Hl. destruct Ht as [H1 H2 _ _]. split.
  - apply weigh_range. unfold path. rewrite len_app, Hl, len_cons, len_nil. lia.
  - unfold path. rewrite weigh_app, Hl. cbn [weigh]. replace (FRAME_CAP - (m.(csp) - 1)) with (FRAME_CAP + 1 - m.(csp)) by lia. lia.
Qed.

(** *** What decreases it *)

(** [m'] comes after an op of [m]. *)
Definition later (m m' : Machine) : Prop := timed m' ∧ measure m' < measure m.

(** Moving forward. *)
Lemma timed_pc m q : timed m → ok q → timed (upd_pc q m).
Proof.
  intros Ht Hq. pose proof (timed_callers m Ht). destruct Ht. split; try done.
  unfold path. by rewrite Forall_app, Forall_singleton.
Qed.

Lemma later_forward m q : timed m → 0 ≤ m.(pc) < L → m.(pc) < q → ok q → later m (upd_pc q m).
Proof.
  intros Ht Hp Hq Hok. pose proof (timed_pc m q Ht Hok) as Ht'. split; [done|].
  unfold measure. destruct (path_weight m Ht) as [_ ->], (path_weight _ Ht') as [_ ->].
  change (callers (upd_pc q m)) with (callers m). simpl. pose proof (ahead_lt _ _ Hp Hq).
  pose proof (base_pos (FRAME_CAP + 1 - m.(csp)) ltac:(destruct Ht; lia)). nia.
Qed.

(** A backward branch that has fuel. *)
Lemma later_fuel m m' : timed m → timed m' → m'.(fuel) < m.(fuel) → later m m'.
Proof.
  intros Ht Ht' Hf. split; [done|]. unfold measure. destruct (path_weight m Ht) as [H1 _], (path_weight _ Ht') as [H2 _].
  pose proof (base_pos (FRAME_CAP + 1) ltac:(unfold FRAME_CAP; lia)). nia.
Qed.

(** A call, to the code from [q] on. *)
Lemma later_call m m' fr q :
  timed m → m.(csp) < FRAME_CAP → 0 ≤ m.(pc) < L → fr.(ret_pc) = m.(pc) + 1 → ok (m.(pc) + 1) → ok q →
  regs m' = (q, m.(csp) + 1, m.(fuel), <[Z.to_nat m.(csp) := fr]> m.(frames)) → later m m'.
Proof.
  intros Ht Hc Hp Hr Hok1 Hok2. unfold regs. intros [= E1 E2 E3 E4].
  assert (callers m' = callers m ++ [m.(pc) + 1]) as Hcs.
  { unfold callers. rewrite E2, E4. destruct Ht as [H1 H2 _ _]. unfold len in H2.
    replace (Z.to_nat (m.(csp) + 1)) with (S (Z.to_nat m.(csp))) by lia.
    rewrite (take_S_r _ _ fr) by (apply list_lookup_insert_eq; lia). rewrite take_insert_ge by lia.
    rewrite drop_app_le by (rewrite length_take; lia). rewrite fmap_app. simpl. by rewrite Hr. }
  assert (timed m') as Ht'.
  { pose proof (timed_callers m Ht). destruct Ht as [H1 H2 H3 _]. split; [lia|rewrite E4, len_insert; lia|lia|].
    unfold path. rewrite Hcs, E1. rewrite !Forall_app, !Forall_singleton. auto. }
  split; [done|]. unfold measure. destruct (path_weight m Ht) as [_ ->], (path_weight _ Ht') as [_ ->].
  rewrite E1, E2, E3, Hcs.
  pose proof (callers_len m Ht) as Hl. destruct Ht as [H1 H2 _ _]. rewrite weigh_app, Hl. cbn [weigh].
  set (k := FRAME_CAP + 1 - (m.(csp) + 1)). replace (FRAME_CAP - (m.(csp) - 1)) with (k + 1) by lia.
  replace (FRAME_CAP + 1 - m.(csp)) with (k + 1) by lia.
  pose proof (ahead_lt m.(pc) (m.(pc) + 1) Hp ltac:(lia)). pose proof (ahead_range q).
  assert (ahead q < base) by (unfold base; lia). pose proof (base_pos k ltac:(lia)).
  rewrite (Z.pow_add_r base k 1), Z.pow_1_r by lia. assert (ahead q * base ^ k < base ^ k * base) by nia. nia.
Qed.

(** A return to the caller. *)
Lemma later_return m m' fr : timed m → 2 ≤ m.(csp) → 0 ≤ m.(pc) < L → m.(frames) !! Z.to_nat (m.(csp) - 1) = Some fr →
  regs m' = (fr.(ret_pc), m.(csp) - 1, m.(fuel), m.(frames)) → later m m'.
Proof.
  intros Ht Hc Hp Hfr. unfold regs. intros [= E1 E2 E3 E4].
  assert (path m' = callers m) as Hpa.
  { unfold path, callers. rewrite E1, E2, E4. destruct Ht as [H1 H2 _ _]. unfold len in H2.
    replace (Z.to_nat m.(csp)) with (S (Z.to_nat (m.(csp) - 1))) by lia.
    rewrite (take_S_r _ _ fr) by done. rewrite drop_app_le by (rewrite length_take; lia).
    by rewrite fmap_app. }
  assert (timed m') as Ht'.
  { pose proof (timed_callers m Ht). destruct Ht as [H1 H2 H3 _]. split; [lia|by rewrite E4|lia|by rewrite Hpa]. }
  split; [done|]. unfold measure. destruct (path_weight m Ht) as [_ ->]. rewrite E3, Hpa.
  pose proof (ahead_lt m.(pc) L Hp ltac:(lia)). pose proof (ahead_range L).
  pose proof (base_pos (FRAME_CAP + 1 - m.(csp)) ltac:(destruct Ht; lia)). nia.
Qed.
End measure.

(** ** Steps *)

(** A conditional branch goes forward. *)
Definition forward_if (p : Z) (in_ : CuOpC) : bool := negb (in_.(cu_op) =? OP_BR_IF_NOT) || (p <? in_.(cu_b)).

Definition no_tail_calls (code : list CuOpC) : bool :=
  forallb (fun in_ => negb (in_.(cu_op) =? OP_RETURN_CALL)) code.

Section steps.
Context (M : HostModule) (ok : Z → Prop).

(** An op at [p] goes on at an address among [ok]; it is no tail call, and a conditional
    branch goes forward. *)
Record goes_on (p : Z) (in_ : CuOpC) : Prop := {
  go_forward : forward_if p in_ = true;
  go_tail : in_.(cu_op) ≠ OP_RETURN_CALL;
  go_next : in_.(cu_op) ≠ OP_END_FUNC → ok (p + 1);
  go_branch : is_branch in_ = true → ok in_.(cu_b);
  go_call : in_.(cu_op) = OP_CALL → ∀ f, index M.(hm_funcs) in_.(cu_b) = Some f → ok f.(fm_code_off) }.

(** A slot of the table that holds a function has the address of one. *)
Definition slots_ok : Prop := ∀ i fi f,
  index M.(hm_table) i = Some fi → index M.(hm_funcs) fi = Some f → fi ≠ TABLE_NULL → ok f.(fm_code_off).

Abbreviation later := (later M ok).
Abbreviation timed := (timed ok).
Abbreviation measure := (measure M).
Abbreviation L := (len M.(hm_code)).

(** From [m], whose op is being executed. *)
Section exec.
Context (m : Machine) (Ht : timed m) (Hp : 0 ≤ m.(pc) < L).
Let m1 := upd_pc (m.(pc) + 1) m.

Lemma later_regs m' : ok (m.(pc) + 1) → regs m' = regs m1 → later m m'.
Proof using Ht Hp.
  intros Hok Hr. destruct (regs_measure M ok m1 m' Hr) as [H1 H2].
  destruct (later_forward M ok m (m.(pc) + 1) Ht Hp ltac:(lia) Hok) as [G1 G2]. unfold EngineEnds.later. rewrite H2. auto.
Qed.

Lemma regs_fields m' : regs m' = regs m1 →
  m'.(pc) = m.(pc) + 1 ∧ m'.(csp) = m.(csp) ∧ m'.(fuel) = m.(fuel) ∧ m'.(frames) = m.(frames).
Proof. by intros [= -> -> -> ->]. Qed.

Lemma br_later b : ok b → pwp (exec_br b) (fun _ m' => later m m') m1.
Proof using Ht Hp.
  intros Hok. unfold exec_br. apply pwp_get. destruct (b <=? _) eqn:Hb; simpl in Hb.
  - apply pwp_bind, pwp_get, pwp_bind, pwp_put. unfold pwp, trap_if. simpl. destruct (_ <=? 0) eqn:Hf; [done|].
    apply later_fuel; [done| |simpl; unfold FUEL_BACKEDGE; lia].
    destruct (timed_pc ok m b Ht Hok) as [H1 H2 H3 H4]. split; simpl in *; try done. lia.
  - apply pwp_bind. unfold pwp. simpl. apply (later_forward M ok m b Ht Hp); [lia|done].
Qed.

Lemma br_if_not_later b : m.(pc) < b → ok b → ok (m.(pc) + 1) →
  pwp (v ← pop; if u32 v =? 0 then put (upd_pc b) else mret tt) (fun _ m' => later m m') m1.
Proof using Ht Hp.
  intros Hb Hok Hok1. apply pwp_seq; [apply _|]. intros v m' Hr. destruct (_ =? 0).
  - apply pwp_put. destruct (regs_fields _ Hr) as (_ & E2 & E3 & E4).
    destruct (later_forward M ok m b Ht Hp Hb Hok) as [G1 G2]. unfold EngineEnds.later.
    destruct (regs_measure M ok (upd_pc b m) (upd_pc b m')) as [H1 H2]; [unfold regs; simpl; congruence|].
    rewrite H2. auto.
  - by apply later_regs.
Qed.

Lemma enter_later f m2 : ok (m.(pc) + 1) → ok f.(fm_code_off) → regs m2 = regs m1 →
  pwp (enter f) (fun _ m' => later m m') m2.
Proof using Ht Hp.
  intros Hok1 Hok Hr. destruct (regs_fields _ Hr) as (E1 & E2 & E3 & E4). unfold enter.
  apply pwp_get. rewrite E2. apply pwp_trap_if; [done|]. intros Hc.
  apply pwp_get, pwp_trap_if; [done|]. intros _. do 3 apply pwp_get. rewrite E4.
  destruct (in_range _ _) eqn:Hin; [|done].
  apply pwp_bind, pwp_put, pwp_bind, pwp_put, pwp_get, pwp_bind, pwp_put, pwp_bind, pwp_put.
  apply pwp_seq; [apply _|]. intros _ m' Hr'. apply pwp_put. unfold regs in Hr'. simpl in Hr'. injection Hr' as F1 F2 F3 F4.
  eapply later_call; [done|lia|done| |done|exact Hok|unfold regs; simpl; rewrite F2, F3, F4, E3; reflexivity]. done.
Qed.

Lemma call_later fi : ok (m.(pc) + 1) → (∀ f, index M.(hm_funcs) fi = Some f → ok f.(fm_code_off)) →
  pwp (exec_call M fi) (fun _ m' => later m m') m1.
Proof using Ht Hp.
  intros Hok1 Hok. unfold exec_call. apply pwp_trap_if; [done|]. intros _. apply pwp_rd. intros f Hf.
  apply enter_later; auto.
Qed.

Lemma call_indirect_later ty : ok (m.(pc) + 1) → slots_ok →
  pwp (exec_call_indirect M ty) (fun _ m' => later m m') m1.
Proof using Ht Hp.
  intros Hok1 Hok. unfold exec_call_indirect. apply pwp_seq; [apply _|]. intros i m2 Hr2.
  apply pwp_trap_if; [done|]. intros _. apply pwp_rd. intros fi Hfi. apply pwp_trap_if; [done|]. intros Hnull.
  apply pwp_seq; [apply _|]. intros _ m3 Hr3. apply pwp_rd. intros f Hf.
  apply enter_later; [done| |by rewrite Hr3]. eapply Hok; [done..|lia].
Qed.

Lemma return_later : pwp exec_return (fun _ m' => later m m') m1.
Proof using Ht Hp.
  unfold exec_return. apply pwp_get. simpl. apply pwp_trap_if; [done|]. intros Hc.
  apply pwp_bind, pwp_put, pwp_get. simpl. apply pwp_rd. intros fr [_ Hfr]%index_Some.
  apply pwp_get, pwp_trap_if; [done|]. intros _. apply pwp_seq; [apply _|]. intros _ m2 Hr.
  apply pwp_bind, pwp_put, pwp_bind, pwp_put. unfold regs in Hr. simpl in Hr. injection Hr as E1 E2 E3 E4.
  destruct (_ - 1 =? 0) eqn:H1; [done|]. apply pwp_put.
  eapply later_return; [done|destruct Ht; lia|done|exact Hfr|unfold regs; simpl; by rewrite E2, E3, E4].
Qed.

(** Every op but a tail call. *)
Lemma exec_later in_ :
  goes_on m.(pc) in_ → slots_ok →
  match exec M in_ m1 with
  | (Val _, m') | (Trap ST_HOSTCALL_PENDING, m') => later m m'
  | _ => True
  end.
Proof using Ht Hp.
  intros [Hfw Htc Hnext Hbr Hca] Hslots. destruct (decide (in_.(cu_op) = OP_END_FUNC)) as [He|He].
  { pose proof return_later as Hr. replace (exec M in_) with exec_return by (unfold exec, exec_wide, exec_var, exec_control; by rewrite He).
    unfold pwp in Hr. destruct (exec_return m1) as [[[]|[]|w] m']; done. }
  specialize (Hnext He).
  assert (∀ c : EM unit, regs (c m1).2 = regs m1 → match c m1 with
    | (Val _, m') | (Trap ST_HOSTCALL_PENDING, m') => later m m' | _ => True end) as Hregs.
  { intros c Hr%later_regs; [|done]. destruct (c m1) as [[[]|[]|w] m']; done. }
  assert (∀ c : EM unit, Steady c → match c m1 with
    | (Val _, m') | (Trap ST_HOSTCALL_PENDING, m') => later m m' | _ => True end) as Hsteady.
  { intros c Hc. apply Hregs, Hc. }
  assert (∀ c : EM unit, pwp c (fun _ m' => later m m') m1 → match c m1 with
    | (Val _, m') | (Trap ST_HOSTCALL_PENDING, m') => later m m' | _ => True end) as Hpwp.
  { intros c. unfold pwp. destruct (c m1) as [[[]|[]|w] m']; done. }
  unfold exec.
  destruct (exec_alu _) eqn:E1; [apply Hsteady; by eapply exec_alu_steady|].
  destruct (exec_wide _) eqn:E2; [apply Hsteady; by eapply exec_wide_steady|].
  destruct (exec_var _ _) eqn:E3; [apply Hsteady; by eapply exec_var_steady|].
  destruct (exec_control _ _) as [c|] eqn:E4.
  - unfold exec_control in E4. cbv zeta in E4.
    repeat match type of E4 with (if ?b then _ else _) = _ => destruct b eqn:? end; try discriminate E4;
      injection E4 as <-; try (apply Hsteady; apply _).
    + apply Hpwp, br_later, Hbr. unfold is_branch. lia.
    + apply Hpwp, br_if_not_later; [unfold forward_if in Hfw; lia|apply Hbr; unfold is_branch; lia|done].
    + apply Hpwp, call_later; [done|]. apply Hca. lia.
    + lia.
    + apply Hpwp, return_later.
    + apply Hregs, exec_call_host_regs.
    + by apply Hpwp, call_indirect_later.
  - destruct (exec_memory _ _) eqn:E5; apply Hsteady; [by eapply exec_memory_steady|apply _].
Qed.
End exec.

Context (Hsize : L < 2 ^ 32) (Hslots : slots_ok).
Context (Hcode : ∀ p in_, ok p → index M.(hm_code) p = Some in_ → goes_on p in_).

Lemma step_later m : timed m →
  match step M m with
  | (Val _, m') | (Trap ST_HOSTCALL_PENDING, m') => later m m'
  | _ => True
  end.
Proof using Hsize Hslots Hcode.
  intros Ht. unfold step. unfold mbind at 1, EM_bind at 1. simpl. unfold trap_if.
  destruct (L <=? pc m) eqn:HL; [done|]. simpl. unfold rd. destruct (index _ _) as [in_|] eqn:Hin; [|done].
  pose proof (Hcode _ _ (timed_ok ok m Ht) Hin) as Hgo. apply index_Some in Hin as [H0 _]. simpl. rewrite u32_id by lia.
  pose proof (exec_later m Ht ltac:(lia) in_ Hgo Hslots) as He. unfold mbind, EM_bind. simpl.
  destruct (exec M in_ _) as [[[]|s|w] m']; [|done..]. simpl. by destruct (_ <? _).
Qed.

(** A round of at least one step. *)
Lemma run_instance_later n m : timed m →
  match run_instance M (S n) m with
  | (OutOfSteps, m') | (Stopped ST_HOSTCALL_PENDING, m') => later m m'
  | _ => True
  end.
Proof using Hsize Hslots Hcode.
  revert m. induction n as [|n IH]; intros m Ht; pose proof (step_later m Ht) as Hs.
  - simpl. destruct (step M m) as [[[]|[]|w] m']; done.
  - change (run_instance M (S (S n)) m) with
      match step M m with
      | (Val _, m') => run_instance M (S n) m'
      | (Trap s, m') => (Stopped s, m')
      | (UB w, m') => (Undefined w, m')
      end.
    destruct (step M m) as [[[]|[]|w] m']; try done. destruct Hs as [Ht' Hlt].
    specialize (IH m' Ht'). destruct (run_instance M (S n) m') as [[|[]|] m2]; try done; destruct IH; split; [done|lia|done|lia].
Qed.
End steps.

(** ** The driver *)

#[export] Instance s_store_next v : Steady (store_next v). Proof. unfold store_next. apply _. Qed.
#[export] Instance s_store_all vs : Steady (store_all vs). Proof. induction vs; simpl; apply _. Qed.
#[export] Instance s_push_results i n : Steady (push_results i n).
Proof. revert i. induction n; intros i; simpl; apply _. Qed.

(** More rounds than any run takes: the fuel of a run, plus one, times the number of
    configurations of the stack of frames. *)
Definition run_bound (M : HostModule) : Z := (1000000000000 + 1) * base M ^ (FRAME_CAP + 1).

Section ends.
Context {W : Type} (M : HostModule) (ok : Z → Prop) (host : HostFn W).
Context (Hsize : len M.(hm_code) < 2 ^ 32) (Hslots : slots_ok M ok).
Context (Hcode : ∀ p in_, ok p → index M.(hm_code) p = Some in_ → goes_on M ok p in_).

Abbreviation timed := (timed ok).

Lemma measure_nonneg m : timed m → 0 ≤ measure M m.
Proof.
  intros Ht. destruct (path_weight M ok m Ht) as [[H _] _]. unfold measure.
  pose proof (base_pos M (FRAME_CAP + 1) ltac:(unfold FRAME_CAP; lia)). destruct Ht. nia.
Qed.

Lemma drive_ends n nres rounds w m : timed m → measure M m < Z.of_nat rounds →
  (drive M host (S n) nres rounds w m).1.1 ≠ NotYet.
Proof using Hsize Hslots Hcode.
  revert w m. induction rounds as [|rounds IH]; intros w m Ht Hb; [pose proof (measure_nonneg m Ht); lia|].
  cbn [drive]. destruct (regs_measure M ok m (upd_msize M.(hm_mem_size) m) eq_refl) as [Ht1 Hm1]. specialize (Ht1 Ht).
  pose proof (run_instance_later M ok Hsize Hslots Hcode n _ Ht1) as Hr.
  destruct (run_instance M (S n) _) as [[|s|e] m2]; [|destruct s; try done|done].
  - destruct Hr as [Ht2 Hlt]. apply IH; [done|lia].
  - destruct (host _ _ _) as [[[success box] mem] w1]. destruct success; [|done]. simpl.
    set (m3 := upd_memory _ _). pose proof (steady (c := push_results 0 (Z.to_nat box.(mb_n_results))) m3) as [Hs _].
    destruct (push_results _ _ m3) as [[[]|s|e] m4]; [|done..]. destruct Hr as [Ht2 Hlt].
    destruct (regs_measure M ok m2 m4 Hs) as [Ht4 Hm4]. apply IH; [by apply Ht4|lia].
Qed.

Lemma boot_timed f args : ok f.(fm_code_off) → timed (boot M f args).2 ∧ measure M (boot M f args).2 < run_bound M.
Proof.
  intros Hok. assert (timed (blank M f)) as Ht.
  { split; unfold blank; cbn [csp frames fuel]; [unfold FRAME_CAP; lia| |lia|by apply Forall_singleton].
    unfold len. by rewrite length_insert, length_replicate. }
  pose proof (steady (c := store_all (args ++ replicate (Z.to_nat f.(fm_n_locals)) 0)) (blank M f)) as [Hs _].
  unfold boot. destruct (regs_measure M ok _ _ Hs) as [H1 H2]. split; [by apply H1|]. rewrite H2.
  destruct (path_weight M ok _ Ht) as [[_ Hw] _]. unfold measure, run_bound. change (fuel (blank M f)) with 1000000000000. lia.
Qed.

(** A run that starts at an address among [ok] ends. *)
Lemma run_ends f args max_steps rounds w :
  (∀ meta, index M.(hm_funcs) f = Some meta → ok meta.(fm_code_off)) →
  (0 < max_steps)%nat → run_bound M ≤ Z.of_nat rounds →
  (run_cpu M f args max_steps host rounds w).1.1 ≠ NotYet.
Proof using Hsize Hslots Hcode.
  intros Hok Hn Hr. unfold run_cpu. destruct (index _ f) as [meta|]; [|done].
  destruct (negb _); [done|]. destruct (boot_timed meta args (Hok _ eq_refl)) as [Ht Hm].
  destruct (boot M meta args) as [[[]|s|e] m]; [|done..]. destruct max_steps as [|n]; [lia|].
  apply drive_ends; [done|]. simpl in Hm. lia.
Qed.
End ends.
