(* ===== verification/RunEnds.v ===== *)
(** * Calls of a loaded module finish

    Translated code goes on only inside the span of a function, and turns back only by an
    unconditional branch, which costs fuel.  So a call of a loaded module without tail
    calls finishes, whatever the host does. *)

From S2P Require Import Prelude Cuop Wasm Lower LowerInv LowerSafety EnvTable Module ModuleSteps ModuleFacts ModuleTables.
From S2P Require Import Engine EngineFrame EngineSlice Verify VerifyFacts EngineInv EngineSafe EngineSound Loadable EngineEnds.
From stdpp Require Import base list strings.

Local Open Scope Z_scope.

(** Each function of the module is a closed span, or an import. *)
Definition all_closed (M : HostModule) : Prop :=
  Forall (fun f => ∃ consts, func_ok M.(hm_code) consts f) M.(hm_funcs).

(** An address in the code of a function. *)
Definition in_span (M : HostModule) (p : Z) : Prop :=
  ∃ f consts, closed_func M.(hm_code) consts f ∧ f.(fm_code_off) ≤ p < f.(fm_code_off) + f.(fm_code_len).

Lemma code_in_span M fi f :
  all_closed M → index M.(hm_funcs) fi = Some f → callee_has_code M fi = true → in_span M f.(fm_code_off).
Proof.
  unfold all_closed, callee_has_code. intros Hall Hf Hc. rewrite Hf in Hc. apply index_elem_of in Hf.
  rewrite Forall_forall in Hall. destruct (Hall f Hf) as (consts & [Hcl|(_ & Hn & _)]); [|lia].
  exists f, consts. split; [done|]. destruct Hcl. lia.
Qed.

Lemma in_span_goes_on M p in_ :
  all_closed M → loadable M = true → no_tail_calls M.(hm_code) = true →
  in_span M p → index M.(hm_code) p = Some in_ → goes_on M (in_span M) p in_.
Proof.
  intros Hall HL Htail (f & consts & Hcl & Hp) Hin. pose proof (index_elem_of _ _ _ Hin) as Hel.
  apply list_elem_of_In in Hel. apply index_Some in Hin as [H0 Hin].
  destruct Hcl as (Hlo & Hhi & (e & He & Hend) & Hops) eqn:Ecl. clear Ecl.
  assert (closed_func M.(hm_code) consts f) as Hcl' by (split_and!; [lia..|by exists e|done]).
  destruct (Hops (Z.to_nat p) in_ ltac:(lia) Hin) as [Hbr _]. rewrite Z2Nat.id in Hbr by lia. split.
  - unfold forward_if. destruct (in_.(cu_op) =? OP_BR_IF_NOT) eqn:Ho; [|done].
    destruct Hbr as [_ Hb]; [unfold is_branch; lia|]. simpl. lia.
  - unfold no_tail_calls in Htail. rewrite forallb_forall in Htail. specialize (Htail _ Hel). lia.
  - intros Hne. exists f, consts. split; [done|].
    destruct (decide (p = f.(fm_code_off) + f.(fm_code_len) - 1)) as [->|]; [congruence|lia].
  - intros Hb. exists f, consts. destruct (Hbr Hb). by split.
  - intros Hcall g Hg. eapply code_in_span; [done..|]. unfold loadable in HL. rewrite !andb_true_iff in HL.
    destruct HL as [[[[[[_ HL] _] _] _] _] _]. rewrite forallb_forall in HL. specialize (HL _ Hel).
    destruct in_ as [op a b]. unfold op_ok in HL. simpl in *. subst op. rewrite !andb_true_iff in HL. by destruct HL as [[_ ?] _].
Qed.

Lemma table_slots M : all_closed M → loadable M = true → slots_ok M (in_span M).
Proof.
  intros Hall HL i fi f Hi Hf _. eapply code_in_span; [done..|]. unfold loadable in HL. rewrite !andb_true_iff in HL.
  destruct HL as [[[[_ HL] _] _] _]. rewrite forallb_forall in HL. apply index_elem_of, list_elem_of_In in Hi.
  by apply HL, andb_true_iff in Hi as [_ ?].
Qed.

(** A call of such a module finishes. *)
Lemma call_finishes {W} M f args n (host : HostFn W) r w :
  all_closed M → loadable M = true → no_tail_calls M.(hm_code) = true → callable M f = true →
  (0 < n)%nat → run_bound M ≤ Z.of_nat r → (run_cpu M f args n host r w).1.1 ≠ NotYet.
Proof.
  intros Hall HL Htail Hc Hn Hr. apply (run_ends M (in_span M)); [|by apply table_slots| | |done|done].
  - unfold loadable in HL. rewrite !andb_true_iff in HL. lia.
  - intros p in_. by apply in_span_goes_on.
  - intros meta Hmeta. eapply code_in_span; [done..|]. unfold callable, callee_has_code in *.
    rewrite Hmeta in *. by apply andb_true_iff in Hc as [? _].
Qed.

(** The run has ended with a status. *)
Definition finished (r : RunResult) : bool := match r with Finished _ _ => true | _ => false end.

Lemma bound_shape M M' : M'.(hm_code) = M.(hm_code) → run_bound M' = run_bound M.
Proof. intros E. unfold run_bound, base. rewrite E. reflexivity. Qed.

Lemma calls_finish {W} (I : W → Prop) calls n (host : HostFn W) r : ∀ M w,
  verified M → loadable M = true → all_closed M → no_tail_calls M.(hm_code) = true →
  host_ok M I host → I w → forallb (fun c => callable M c.1) calls = true →
  (0 < n)%nat → run_bound M ≤ Z.of_nat r →
  forallb finished (run_calls M calls n host r w).1.1 = true.
Proof.
  induction calls as [|[fi args] calls IH]; intros M w HV HL Hall Ht Hh Hw Hc Hn Hr; [done|]. simpl in Hc |- *.
  apply andb_true_iff in Hc as [Hc Hcs].
  destruct (run_callable I M fi args n host r w HV HL Hc Hh Hw) as (Hx & HV1 & HL1 & Hs & Hw1).
  pose proof (call_finishes M fi args n host r w Hall HL Ht Hc Hn Hr) as Hny.
  destruct (run_cpu M fi args n host r w) as [[x M1] w1]. simpl in *. pose proof Hs as (Ec & Ef & _).
  assert (forallb finished (run_calls M1 calls n host r w1).1.1 = true) as Hrs.
  { apply IH; [done|done| | |by eapply host_ok_shape|done| |done|].
    - unfold all_closed. by rewrite Ec, Ef.
    - by rewrite Ec.
    - unfold callable in *. by rewrite Ef.
    - rewrite (bound_shape _ _ Ec). exact Hr. }
  destruct (run_calls M1 calls n host r w1) as [[xs M2] w2]. simpl in *. rewrite Hrs.
  by destruct x.
Qed.

(** The functions of a loaded module are closed spans. *)
Lemma loaded_closed ps M :
  forallb nested_payload ps = true → imports_first ps = true → forallb item_widths ps = true →
  module_load ps = Ok M → len M.(hm_code) < 2 ^ 32 → len M.(hm_consts) < 2 ^ 32 → len M.(hm_data_blob) < 2 ^ 32 →
  all_closed M.
Proof.
  intros Hn Hord Hw Hl Hc Hk Hb. destruct (module_load_set_funcs ps M Hl) as (M0 & Htr & Hv & fs & HM).
  assert (translated M0) as HT.
  { subst M. by eapply (translate_wasm_translated soroban_env (fun _ => ps) []). }
  destruct (verify_cuop_verified M0 M (tr_meta _ HT) Hv) as (fs' & HF & -> & _).
  destruct (translate_funcs_inv _ _ _ _ Hn Htr) as (s & (_ & _ & Hinv) & _ & Ec & Ek & Ef). simpl in *.
  rewrite <-Ec, <-Ek, <-Ef in Hinv. destruct (Hinv (conj Hc Hk)) as [Hfs _].
  apply Forall_lookup. intros i f' Hf'. destruct (Forall2_lookup_r _ _ _ _ _ HF Hf') as (f & Hf & m & ->).
  exists M0.(hm_consts). exact (Forall_lookup_1 _ _ _ _ Hfs Hf).
Qed.

(** ** Theorem *)

(** C6. Calls of a loaded module end. Take a module whose sections are in the order of
    the format with indices of 32 bits, whose bodies are well nested and that loads,
    with code, constants and data of less than 2^32 entries, which has none of what
    translator and verifier leave unchecked ([residual]: host calls with more than one
    result, tail calls with another number of results, table entries without code),
    and no tail calls. Then each call of a sequence ends with a status: within
    [run_bound] rounds of the CPU driver, a number that depends on the length of the
    code only, whatever the arguments, the slice length (at least one) and the host
    function, as long as each called function is [callable] (it has code, and its
    parameters and locals fit the 4096 slots of the stack) and the host leaves the
    mailbox and the memory their sizes and the mailbox its number of results
    ([host_ok]). *)
Theorem loaded_runs_finish {W} (I : W → Prop) ps M calls max_steps host rounds w :
  imports_first ps = true → forallb item_widths ps = true → forallb nested_payload ps = true →
  module_load ps = Ok M →
  len M.(hm_code) < 2 ^ 32 → len M.(hm_consts) < 2 ^ 32 → len M.(hm_data_blob) < 2 ^ 32 →
  residual M = true → no_tail_calls M.(hm_code) = true → host_ok M I host → I w →
  forallb (fun c => callable M c.1) calls = true → (0 < max_steps)%nat → run_bound M ≤ Z.of_nat rounds →
  forallb finished (run_calls M calls max_steps host rounds w).1.1 = true.
Proof.
  intros Hord Hw Hn Hl Hc Hk Hb Hr Ht Hh Hi Hcalls Hs Hrounds.
  destruct (module_load_sound ps M Hord Hw Hl Hc Hk Hb Hr) as [HV HL].
  eapply calls_finish; [exact HV|exact HL|by eapply loaded_closed|exact Ht|exact Hh|exact Hi|exact Hcalls|exact Hs|exact Hrounds].
Qed.

(** The module of [loaded_runs_safe_witness], which calls the host. *)
Lemma loaded_runs_finish_witness :
  ∃ M, module_load demo_payloads = Ok M ∧ ∀ a b n r, (0 < n)%nat → run_bound M ≤ Z.of_nat r →
    forallb finished (run_calls M [(1, a); (1, b)] n demo_host r 0).1.1 = true.
Proof.
  destruct (ok_such_that (module_load demo_payloads) (fun M => demo_checks M && no_tail_calls M.(hm_code)))
    as (M & HM & Hb); [vm_compute; reflexivity|].
  unfold demo_checks in Hb. rewrite !andb_true_iff, !Z.ltb_lt in Hb.
  destruct Hb as [[[[[[Hc Hk] Hd] Hr] Hf] _] Ht].
  exists M. split; [exact HM|]. intros a b n r Hn Hrounds.
  apply (loaded_runs_finish (fun k => 0 ≤ k) demo_payloads M [(1, a); (1, b)] n demo_host r 0);
    [vm_compute; reflexivity|vm_compute; reflexivity|vm_compute; reflexivity|exact HM|exact Hc|exact Hk|exact Hd
    |exact Hr|exact Ht| |lia| |exact Hn|exact Hrounds].
  - intros box mem k Hk0 Hask Hres Hmem. split; [lia|]. split; [reflexivity|]. intros _.
    split; [reflexivity|]. unfold len in *. simpl. rewrite length_insert. exact Hres.
  - simpl. rewrite Hf. reflexivity.
Defined.
