(* ===== verification/Behaviours.v ===== *)
(** * Behaviours at the seams

    What happens where two parts of the system meet and neither checks: bodies the
    lowering rejects, a memory that grows before a host call, functions with more
    locals than the stack has slots, imported functions in the table, an [if]
    whose condition is unreachable, and tail calls, which cost no fuel.  Each is shown on a small module that goes
    through translation, verification and the engine. *)

From S2P Require Import Prelude Cuop Wasm Lower LowerInv LowerSafety EnvTable Module.
From S2P Require Import ModuleSteps Engine Verify VerifyFacts.
From S2P Require Import EngineInv EngineSafe EngineSound Loadable.
From stdpp Require Import base list strings.

Local Open Scope Z_scope.

Definition run_export (ps : list (item Payload)) (fi : Z) (args : list Z)
    (host : HostFn unit) : option RunResult :=
  match module_load ps with Ok M => Some (run_cpu M fi args 1000 host 10 tt).1.1 | _ => None end.

Definition body (locals : list (Z * ValType)) (ops : list Operator) : item Payload :=
  Item (CodeSectionEntry (mkBody (Item (Item <$> locals)) (Item (Item <$> ops)))).

(** ** Rejected bodies *)

Lemma step_unreachable M m a b :
  index M.(hm_code) m.(pc) = Some (mkCuOp OP_UNREACHABLE a b) →
  (step M m).1 = Trap ST_TRAP_UNREACHABLE.
Proof.
  intros Hi. pose proof (index_lt _ _ _ Hi) as Hlt.
  unfold step, mbind, EM_bind, get. unfold trap_if.
  replace (len (hm_code M) <=? pc m) with false by lia. simpl. unfold rd. by rewrite Hi.
Qed.

(** C39. A body the lowering rejects does not fail the module: it is replaced by a
    stub, and a run that enters the function traps with [ST_TRAP_UNREACHABLE] at
    its first op, whatever the reason of the rejection (an unsupported operator
    included) and whatever was compiled after it. *)
Theorem rejected_body_traps ops np nr nl code consts fts ftis ids e out meta code' consts' M m :
  lower_operators ops np nr nl code consts fts ftis (u32 (len ids)) ids = (Err e, out) →
  lower_or_stub ops np nr nl code consts fts ftis ids = Ok (meta, code', consts') →
  len code' < 2 ^ 32 → code' `prefix_of` M.(hm_code) → m.(pc) = meta.(fm_code_off) →
  (step M m).1 = Trap ST_TRAP_UNREACHABLE.
Proof.
  intros Hlow. unfold lower_or_stub. rewrite Hlow. destruct out as [c k]. unfold stub.
  intros [= <- <- <-]. autorewrite with len. intros Hs Hpre Hpc. simpl in Hpc.
  pose proof (len_nonneg c). rewrite u32_id in Hpc by lia.
  apply (step_unreachable _ _ 0 0). apply index_Some. rewrite Hpc. split; [lia|].
  eapply prefix_lookup_Some; [|done]. unfold len. rewrite Nat2Z.id. by apply list_lookup_middle.
Qed.

Definition f32_payloads : list (item Payload) :=
  [ Item (TypeSection [Item [CtFunc [] []]]); Item (FunctionSection [Item 0]);
    body [] [OtherOp "F32Add"; End] ].

Definition f32_result : FuncMetaC * list CuOpC * list Z :=
  (mkFuncMeta 0 2 0 0 0 0, [mkCuOp OP_UNREACHABLE 0 0; mkCuOp OP_END_FUNC 0 0], []).

Definition f32_module : HostModule :=
  mkHostModule f32_result.1.2 [] [f32_result.1.1] [] [] [] 0 0 [] [] [] [] [] [0] [0] 0 [] [] [] [].

Lemma rejected_body_traps_witness :
  module_load f32_payloads = Ok f32_module ∧
  (step f32_module (blank f32_module f32_result.1.1)).1 = Trap ST_TRAP_UNREACHABLE.
Proof.
  split; [vm_compute; reflexivity|].
  apply (rejected_body_traps [OtherOp "F32Add"; End] 0 0 0 [] [] [([], [])] [0] []
    (msg "unsupported wasm opcode: {:?}") ([], []) f32_result.1.1 f32_result.1.2 []);
    [vm_compute; reflexivity|vm_compute; reflexivity|vm_compute; reflexivity| |reflexivity].
  exists []. reflexivity.
Defined.

(** ** Memory growth and host calls *)

(** [memory.grow 1], then [call] (or nothing), then [memory.size]; the memory
    starts with one page of two. *)
Definition grow_payloads (mid : list Operator) : list (item Payload) :=
  [ Item (TypeSection [Item [CtFunc [] []; CtFunc [] [I32]]]);
    Item (ImportSection [Item (mkImport "x" "8" (TrFunc 0))]);
    Item (FunctionSection [Item 1]);
    Item (MemorySection [Item (mkMemoryType 1 (Some 2%N) false false None)]);
    body [] ([I32Const 1; MemoryGrow 0; Drop] ++ mid ++ [MemorySize 0; End]) ].

(** Growth is lost across a host call on the CPU driver: the same function reports
    two pages without the host call and one page with it, because every round of
    the driver starts the interpreter with the module's initial size. *)
Theorem growth_lost_across_host_call :
  run_export (grow_payloads []) 1 [] (fun box mem w => (true, box, mem, w)) = Some (Finished ST_OK [2]) ∧
  run_export (grow_payloads [Call 0]) 1 [] (fun box mem w => (true, box, mem, w)) = Some (Finished ST_OK [1]).
Proof. split; vm_compute; reflexivity. Qed.

(** ** Locals and the stack *)

(** Values written from the stack pointer on, as far as the stack goes. *)
Lemma store_next_spec v m xs y ys :
  m.(stack) = xs ++ y :: ys → m.(sp) = len xs → len xs < 2 ^ 32 - 1 →
  store_next v m = (Val tt, upd_sp (len xs + 1) (upd_stack (xs ++ u64 v :: ys) m)).
Proof.
  intros Hs Hp Hlt. pose proof (len_nonneg xs). unfold store_next, stack_set, mbind, EM_bind, get. rewrite Hp, Hs.
  replace (in_range (xs ++ y :: ys) (len xs)) with true
    by (unfold in_range; autorewrite with len; pose proof (len_nonneg ys); lia).
  unfold put. replace (Z.to_nat (len xs)) with (length xs) by (unfold len; lia).
  rewrite insert_app_r_alt, Nat.sub_diag, u32_id by lia. done.
Qed.

Lemma store_all_spec vs : ∀ m xs ys,
  m.(stack) = xs ++ ys → m.(sp) = len xs → len xs + len ys < 2 ^ 32 → (length vs ≤ length ys)%nat →
  store_all vs m = (Val tt, upd_sp (len xs + len vs) (upd_stack (xs ++ (u64 <$> vs) ++ drop (length vs) ys) m)).
Proof.
  induction vs as [|v vs IH]; intros m xs ys Hs Hp Hlt Hle.
  - cbn [fmap list_fmap app length drop]. rewrite (@len_nil Z), Z.add_0_r, <-Hp.
    change (drop 0 ys) with ys. rewrite <-Hs. by destruct m.
  - destruct ys as [|y ys]; simpl in Hle; [lia|]. rewrite len_cons in Hlt. pose proof (len_nonneg ys).
    simpl. unfold mbind, EM_bind. rewrite (store_next_spec v m xs y ys) by (done || lia).
    rewrite (IH _ (xs ++ [u64 v]) ys); simpl; [| |autorewrite with len; lia..|lia].
    + rewrite <-app_assoc. unfold upd_sp, upd_stack. cbn. do 2 f_equal. rewrite len_app, !len_cons, (@len_nil Z). lia.
    + by rewrite <-app_assoc.
Qed.

Lemma store_all_overrun vs : ∀ m xs ys,
  m.(stack) = xs ++ ys → m.(sp) = len xs → len xs + len ys < 2 ^ 32 → (length ys < length vs)%nat →
  (store_all vs m).1 = UB "stack".
Proof.
  induction vs as [|v vs IH]; intros m xs ys Hs Hp Hlt Hle; simpl in Hle; [lia|].
  simpl. unfold mbind at 1, EM_bind. destruct ys as [|y ys].
  - unfold store_next, stack_set, mbind, EM_bind, get. rewrite Hp, Hs, app_nil_r.
    replace (in_range xs (len xs)) with false by (unfold in_range; lia). done.
  - rewrite len_cons in Hlt. pose proof (len_nonneg ys). simpl in Hle.
    rewrite (store_next_spec v m xs y ys) by (done || lia).
    apply (IH _ (xs ++ [u64 v]) ys); simpl; [by rewrite <-app_assoc|autorewrite with len; lia..|lia].
Qed.

(** C40. The bound on the locals of an entry function.  The driver writes the arguments and a
    zero for each local to a stack of [STACK_CAP] slots without checking that they fit.  When
    they do, it starts the interpreter with exactly them on an otherwise empty stack of the
    same size; with one slot more, for any module, arguments, host and number of rounds, the
    call writes past the end of the stack. *)
Theorem entry_locals_bound {W} M fi f args n (host : HostFn W) r w :
  index M.(hm_funcs) fi = Some f → len args = f.(fm_n_params) → 0 ≤ f.(fm_n_locals) →
  let vs := args ++ replicate (Z.to_nat f.(fm_n_locals)) 0 in
  let need := f.(fm_n_params) + f.(fm_n_locals) in
  (need ≤ STACK_CAP →
     let m := upd_sp need (upd_stack ((u64 <$> vs) ++ replicate (Z.to_nat (STACK_CAP - need)) 0) (blank M f)) in
     boot M f args = (Val tt, m) ∧ run_cpu M fi args n host r w = drive M host n f.(fm_n_results) r w m) ∧
  (STACK_CAP < need → (run_cpu M fi args n host r w).1.1 = Corrupted "stack").
Proof.
  intros Hf Ha Hl vs need.
  assert (len vs = need) as Hvs by (unfold vs, need; rewrite len_app, len_replicate, Ha; lia).
  pose proof (len_nonneg vs). unfold run_cpu. rewrite Hf, Ha, Z.eqb_refl. cbn [negb]. unfold boot. fold vs.
  assert (stack (blank M f) = [] ++ replicate (Z.to_nat STACK_CAP) 0) as Hs by done. split.
  - intros Hle. cbv zeta.
    rewrite (store_all_spec vs (blank M f) [] _ Hs eq_refl); [|rewrite len_replicate, (@len_nil Z); unfold STACK_CAP; lia|].
    + rewrite Hvs. change (len [] + need) with need. cbn [app]. rewrite drop_replicate.
      replace (Z.to_nat STACK_CAP - length vs)%nat with (Z.to_nat (STACK_CAP - need)) by (unfold len in Hvs; lia).
      by split.
    + rewrite length_replicate. unfold len in Hvs. lia.
  - intros Hlt. pose proof (store_all_overrun vs (blank M f) [] _ Hs eq_refl) as Ho.
    rewrite len_replicate, length_replicate, (@len_nil Z) in Ho. specialize (Ho ltac:(unfold STACK_CAP; lia)).
    assert (Z.to_nat STACK_CAP < length vs)%nat as Hn by (unfold len in Hvs; unfold STACK_CAP in *; lia). specialize (Ho Hn).
    destruct (store_all vs (blank M f)) as [[[]|s|e] m]; simpl in Ho; [done|done|]. injection Ho as ->. done.
Qed.

Definition locals_payloads (n : Z) : list (item Payload) :=
  [ Item (TypeSection [Item [CtFunc [] []]]); Item (FunctionSection [Item 0]);
    body [(n, I64)] [End] ].

(** A module with one local more than the stack has slots loads, and no call of it is safe. *)
Lemma entry_locals_bound_witness :
  ∃ M, module_load (locals_payloads (STACK_CAP + 1)) = Ok M ∧
    (run_cpu M 0 [] 100 no_host 7 tt).1.1 = Corrupted "stack".
Proof.
  destruct (ok_such_that (module_load (locals_payloads (STACK_CAP + 1)))
    (fun M => bool_decide (M.(hm_funcs) = [mkFuncMeta 0 1 0 0 4097 4097]))) as (M & HM & Hf%bool_decide_eq_true_1);
    [vm_compute; reflexivity|].
  exists M. split; [exact HM|].
  apply (entry_locals_bound M 0 (mkFuncMeta 0 1 0 0 4097 4097) [] 100 no_host 7 tt);
    [rewrite Hf; reflexivity|reflexivity|discriminate|reflexivity].
Defined.

(** Neither translator nor verifier bounds the locals: a function with as many as the stack
    has slots runs, and one with one more loads all the same. *)
Example locals_overrun_stack :
  run_export (locals_payloads STACK_CAP) 0 [] no_host = Some (Finished ST_OK []) ∧
  run_export (locals_payloads (STACK_CAP + 1)) 0 [] no_host = Some (Corrupted "stack").
Proof. split; vm_compute; reflexivity. Qed.

(** ** Imports in the table *)

(** Function 0 is a host import, function 1 returns 7 and function 2 calls slot 0
    of the table, which holds function [fi]. *)
Definition table_payloads (fi : Z) : list (item Payload) :=
  [ Item (TypeSection [Item [CtFunc [] [I64]]]);
    Item (ImportSection [Item (mkImport "x" "8" (TrFunc 0))]);
    Item (FunctionSection [Item 0; Item 0]);
    Item (TableSection [Item (mkTableType false true 1)]);
    Item (ElementSection [Item (mkElement (EkActive None [Item (I32Const 0); Item End])
                                  (EiFunctions [Item fi]))]);
    body [] [I64Const 7; End];
    body [] [I32Const 0; CallIndirect 0 0; End] ].

(** [call_indirect] of an imported function does not reach the host: with a host
    that refuses every call, the indirect call of the import returns what the first
    function of the module returns, as the call of that function itself does. *)
Theorem indirect_import_runs_first_function :
  run_export (table_payloads 1) 2 [] no_host = Some (Finished ST_OK [7]) ∧
  run_export (table_payloads 0) 2 [] no_host = Some (Finished ST_OK [7]).
Proof. split; vm_compute; reflexivity. Qed.

(** ** [else] in unreachable code *)

(** A valid body: after [unreachable], an [if] whose [else] branches to the
    enclosing block with one value. *)
Definition dead_else_ops (inner : list Operator) : list Operator :=
  [I32Const 1; Block (BtType I32); Unreachable; I32Const 0; If BtEmpty] ++ inner ++
  [End; End; I32Add; End].

Definition lower_i32 (ops : list Operator) : outcome FuncMetaC :=
  (lower_operators ops 0 1 0 [] [] [([], [I32])] [0] 0 []).1.

(** [else] makes the code after it live although the [if] was entered in
    unreachable code: the height there is taken as zero, so a valid branch from the
    [else] to an outer block with an operand below it is rejected and the function
    becomes a trap stub, while the same branch in the [then] part is accepted. *)
Theorem dead_else_rejected :
  lower_i32 (dead_else_ops [I32Const 5; Br 1; Else]) = Ok (mkFuncMeta 0 9 0 1 0 0) ∧
  lower_i32 (dead_else_ops [Else; I32Const 5; Br 1]) = Err (msg "branch stack underflow").
Proof. split; vm_compute; reflexivity. Qed.

(** ** Tail calls and fuel *)

(** A function that calls itself in tail position. *)
Definition spin_payloads : list (item Payload) :=
  [ Item (TypeSection [Item [CtFunc [] []]]); Item (FunctionSection [Item 0]);
    body [] [ReturnCall 0; End] ].

Definition spin_module : HostModule :=
  Eval vm_compute in match module_load spin_payloads with Ok M => M | _ => f32_module end.

(** The machine of [spin_module] as it enters the function. *)
Definition spinning : Machine := blank spin_module (mkFuncMeta 0 0 0 0 0 0).

Lemma spin_step : step spin_module spinning = (Val tt, spinning).
Proof. vm_compute. reflexivity. Qed.

Lemma spin_rounds n : run_instance spin_module n spinning = (OutOfSteps, spinning).
Proof. induction n as [|n IH]; [done|]. cbn [run_instance]. by rewrite spin_step. Qed.

Lemma spin_drive n r : (drive spin_module no_host n 0 r tt spinning).1.1 = NotYet.
Proof.
  induction r as [|r IH]; [done|]. cbn [drive].
  replace (upd_msize (hm_mem_size spin_module) spinning) with spinning by (vm_compute; reflexivity).
  by rewrite spin_rounds.
Qed.

(** A tail call costs no fuel: a function that only calls itself in tail position loads, and
    its run never ends, whatever the number of steps; [ST_OUT_OF_FUEL] is not reached. *)
Theorem tail_calls_never_end n r :
  module_load spin_payloads = Ok spin_module ∧ (run_cpu spin_module 0 [] n no_host r tt).1.1 = NotYet.
Proof. split; [vm_compute; reflexivity|]. apply spin_drive. Qed.
