(* ===== verification/Dispatch.v ===== *)
(** * Dispatching host calls

    [tools/contract-tests/src/dispatch.rs]: the host function a CuOp program calls
    through the mailbox.  It decodes the arguments, reads and writes the guest's
    linear memory, calls the soroban host, and translates between the host's object
    handles and the relative handles the guest sees.

    The soroban crates are not part of the sources: the representation of a [Val]
    ([ValRepr], with the laws of its documentation) and the host's functions
    ([HostOps], on a host state of any type) are arguments.  A [Val] is its 64-bit
    payload. *)

From S2P Require Import Prelude Cuop Wasm Lower EnvTable Module Engine.
From stdpp Require Import base list strings.

Local Open Scope Z_scope.

(** ** What the soroban crates provide *)

(** [soroban_env_common]: the tag of a value, whether it is an object, and an
    object's handle. *)
Class ValRepr := {
  get_tag : Z → Z;
  is_object : Z → bool;
  get_handle : Z → Z;
  from_handle_and_tag : Z → Z → Z;
  tag_u32 : Z;
  void_val : Z;
  u32_val : Z → Z;
  is_map : Z → bool;
  is_vec : Z → bool;
  is_i128 : Z → bool;
  is_address : Z → bool }.

(** An object value is its handle and its tag; a [U32Val] is its tag in the low byte and
    the number in the upper half, and a value with that low byte has that tag ([get_tag] is
    the low byte where that is a tag, and [Tag::Bad] elsewhere). *)
Class ValLaws `{ValRepr} : Prop := {
  object_payload v h : is_object v = true → 0 ≤ h < 2 ^ 32 →
    let w := from_handle_and_tag h (get_tag v) in
    is_object w = true ∧ get_handle w = h ∧ get_tag w = get_tag v ∧ 0 ≤ w < 2 ^ 64;
  u32_payload n : 0 ≤ n < 2 ^ 32 → u32_val n = n * 2 ^ 32 + tag_u32;
  u32_tag v : get_tag v = tag_u32 ↔ u8 v = tag_u32;
  tag_u32_range : 0 ≤ tag_u32 < 2 ^ 8 }.

Inductive StorageType := Temporary | Persistent | Instance.

(** A host function: a value or the text of its error, and the host after it. *)
Abbreviation HostCall H A := (H → (A + string) * H).

(** [soroban_env_host::Host], as far as it is called. *)
Record HostOps (H : Type) := mkHostOps {
  string_new_from_slice : list Z → HostCall H Z;
  symbol_new_from_slice : list Z → HostCall H Z;
  vec_new_from_slice : list Z → HostCall H Z;
  map_new_from_slices : list (list Z) → list Z → HostCall H Z;
  map_unpack_to_slice : Z → list (list Z) → list Z → HostCall H (list Z);
  has_contract_data : Z → StorageType → HostCall H Z;
  get_contract_data : Z → StorageType → HostCall H Z;
  put_contract_data : Z → Z → StorageType → HostCall H unit;
  extend_contract_data_ttl : Z → StorageType → Z → Z → HostCall H unit;
  extend_current_contract_instance_and_code_ttl : Z → Z → HostCall H unit;
  contract_event : Z → Z → HostCall H unit;
  get_ledger_sequence : HostCall H Z;
  obj_from_i128_pieces : Z → Z → HostCall H Z;
  obj_to_i128_lo64 : Z → HostCall H Z;
  obj_to_i128_hi64 : Z → HostCall H Z;
  require_auth : Z → HostCall H unit;
  bytes_new_from_slice : list Z → HostCall H Z;
  compute_hash_sha256 : Z → HostCall H Z;
  bytes_copy_to_slice : Z → HostCall H (list Z);
  (** [ScVal::try_from_val], its [Debug] text and its XDR bytes. *)
  scval : Z → H → option (string * option (list Z)) }.
Arguments string_new_from_slice {H} _.
Arguments symbol_new_from_slice {H} _.
Arguments vec_new_from_slice {H} _.
Arguments map_new_from_slices {H} _.
Arguments map_unpack_to_slice {H} _.
Arguments has_contract_data {H} _.
Arguments get_contract_data {H} _.
Arguments put_contract_data {H} _.
Arguments extend_contract_data_ttl {H} _.
Arguments extend_current_contract_instance_and_code_ttl {H} _.
Arguments contract_event {H} _.
Arguments get_ledger_sequence {H} _.
Arguments obj_from_i128_pieces {H} _.
Arguments obj_to_i128_lo64 {H} _.
Arguments obj_to_i128_hi64 {H} _.
Arguments require_auth {H} _.
Arguments bytes_new_from_slice {H} _.
Arguments compute_hash_sha256 {H} _.
Arguments bytes_copy_to_slice {H} _.
Arguments scval {H} _.

(** ** State *)

Record HostCallTrace := mkTrace {
  t_seq : Z;
  t_fn_id : Z;
  t_name : string;
  t_n_args : Z;
  t_raw_args : list Z;
  t_raw_result : Z;
  t_arg0 : option string * option string * option string;
  t_arg1 : option string * option string;
  t_result : option string * option string;
  t_vec_elem_raw : option (list Z) }.

(** [DispatchCtx], with the guest memory its pointer points to and the mailbox it
    is handed; [mem_size] does not change and is an argument. *)
Record DState (H : Type) := mkD {
  d_host : H;
  d_mem : list Z;
  d_rel : list Z;
  d_calls : list (string * Z);
  d_traces : list HostCallTrace;
  d_mb : HostMailbox }.
Arguments mkD {H} _ _ _ _ _ _.
Arguments d_host {H} _.
Arguments d_mem {H} _.
Arguments d_rel {H} _.
Arguments d_calls {H} _.
Arguments d_traces {H} _.
Arguments d_mb {H} _.

Definition set_host {H} (x : H) (d : DState H) : DState H :=
  mkD x d.(d_mem) d.(d_rel) d.(d_calls) d.(d_traces) d.(d_mb).
Definition set_dmem {H} x (d : DState H) : DState H :=
  mkD d.(d_host) x d.(d_rel) d.(d_calls) d.(d_traces) d.(d_mb).
Definition set_rel {H} x (d : DState H) : DState H :=
  mkD d.(d_host) d.(d_mem) x d.(d_calls) d.(d_traces) d.(d_mb).
Definition set_calls {H} x (d : DState H) : DState H :=
  mkD d.(d_host) d.(d_mem) d.(d_rel) x d.(d_traces) d.(d_mb).
Definition set_traces {H} x (d : DState H) : DState H :=
  mkD d.(d_host) d.(d_mem) d.(d_rel) d.(d_calls) x d.(d_mb).
Definition set_mb {H} x (d : DState H) : DState H :=
  mkD d.(d_host) d.(d_mem) d.(d_rel) d.(d_calls) d.(d_traces) x.

(** ** Bytes *)

(** [u64::from_le_bytes], [u32::from_le_bytes]; [to_le_bytes]. *)
Definition from_le (bs : list Z) : Z := foldr (fun b v => u8 b + 256 * v) 0 bs.

Fixpoint to_le (n : nat) (v : Z) : list Z :=
  match n with O => [] | S n' => u8 v :: to_le n' (Z.shiftr v 8) end.

(** [String::from_utf8]: the sequences of RFC 3629. *)
Definition cont (b : Z) : bool := (128 <=? b) && (b <=? 191).

Fixpoint utf8_ok (bs : list Z) : bool :=
  match bs with
  | [] => true
  | b0 :: r0 =>
      if b0 <=? 127 then utf8_ok r0
      else
        match r0 with
        | [] => false
        | b1 :: r1 =>
            if (194 <=? b0) && (b0 <=? 223) then cont b1 && utf8_ok r1
            else
              match r1 with
              | [] => false
              | b2 :: r2 =>
                  if (224 <=? b0) && (b0 <=? 239) then
                    cont b1 && cont b2 && negb ((b0 =? 224) && (b1 <? 160))
                    && negb ((b0 =? 237) && (159 <? b1)) && utf8_ok r2
                  else
                    match r2 with
                    | [] => false
                    | b3 :: r3 =>
                        (240 <=? b0) && (b0 <=? 244) && cont b1 && cont b2 && cont b3
                        && negb ((b0 =? 240) && (b1 <? 144))
                        && negb ((b0 =? 244) && (143 <? b1)) && utf8_ok r3
                    end
              end
        end
  end.

Section dispatch.
Context `{V : ValRepr} {H : Type} (ops : HostOps H) (root : list EnvMod) (mem_size : Z).
Abbreviation DM := (St (DState H)).

(** ** Guest memory *)

(** [n] bytes from [pos] through the raw pointer: outside the memory it is undefined. *)
Definition raw_read (pos : Z) (n : nat) : DM (list Z) := fun d =>
  if pos + Z.of_nat n <=? len d.(d_mem)
  then (Ok (take n (drop (Z.to_nat pos) d.(d_mem))), d) else (Panic "guest memory", d).

Definition raw_write (pos : Z) (bs : list Z) : DM unit := fun d =>
  if pos + len bs <=? len d.(d_mem)
  then (Ok tt, set_dmem (take (Z.to_nat pos) d.(d_mem) ++ bs
                         ++ drop (Z.to_nat pos + length bs) d.(d_mem)) d)
  else (Panic "guest memory", d).

(** [slice::from_raw_parts], also of length 0, wants a pointer that is not null; the
    memory of a module that has none is a null pointer. *)
Definition raw_slice (pos : Z) (n : nat) : DM (list Z) := fun d =>
  if len d.(d_mem) =? 0 then (Panic "null pointer", d) else raw_read pos n d.

Definition read_bytes (pos n : Z) : DM (list Z) :=
  if mem_size <? pos + n then fail (msg "guest memory oob") else raw_slice pos (Z.to_nat n).

(** [for i in 0..len]: from [off], [n] more. *)
Fixpoint descriptors (off : Z) (n : nat) : DM (list (Z * Z)) :=
  match n with
  | O => mret []
  | S n' =>
      buf ← raw_read off 8;
      rest ← descriptors (off + 8) n';
      mret ((from_le (take 4 buf), from_le (drop 4 buf)) :: rest)
  end.

Definition read_slice_descriptors (pos n : Z) : DM (list (Z * Z)) :=
  if mem_size <? pos + n * 8 then fail (msg "guest slice descriptor oob")
  else descriptors pos (Z.to_nat n).

Fixpoint symbol_keys (ds : list (Z * Z)) : DM (list (list Z)) :=
  match ds with
  | [] => mret []
  | (ptr, slen) :: ds' =>
      bytes ← read_bytes ptr slen;
      if negb (utf8_ok bytes) then fail (msg "symbol key utf8: {e}")
      else rest ← symbol_keys ds'; mret (bytes :: rest)
  end.

Definition read_symbol_keys (pos n : Z) : DM (list (list Z)) :=
  ds ← read_slice_descriptors pos n; symbol_keys ds.

(** ** Relative objects *)

Definition is_relative_handle (handle : Z) : bool := Z.land handle 1 =? 0.

Definition handle_to_index (handle : Z) : Z := Z.shiftr handle 1.

(** [u32::checked_shl] is [None] for shifts of 32 and more only: [checked_shl(1)]
    drops the top bit. *)
Definition checked_shl (x n : Z) : option Z :=
  if 32 <=? n then None else Some (u32 (Z.shiftl x n)).

Definition index_to_relative_handle (index : Z) : outcome Z :=
  if 2 ^ 32 <=? index then Err (msg "relative object index overflow")
  else ok_or (checked_shl index 1) (msg "relative object handle overflow").

Definition to_relative (val : Z) : DM Z :=
  if negb (is_object val) then mret val
  else
    index ← gets (fun d => len d.(d_rel));
    modify (fun d => set_rel (d.(d_rel) ++ [val]) d);;
    handle ← lift (index_to_relative_handle index);
    mret (from_handle_and_tag handle (get_tag val)).

Definition to_absolute (rel : list Z) (val : Z) : outcome Z :=
  if is_object val && is_relative_handle (get_handle val) then
    abs ← ok_or (rel !! Z.to_nat (handle_to_index (get_handle val)))
            (fmt_z "relative object index {index} out of range" (handle_to_index (get_handle val)));
    if negb (get_tag abs =? get_tag val) then Err (msg "relative object tag mismatch") else Ok abs
  else Ok val.

Definition decode_val (raw : Z) : DM Z := fun d => (to_absolute d.(d_rel) raw, d).

Definition decode_u32 (raw : Z) : outcome Z :=
  if negb (get_tag raw =? tag_u32) then Err (msg "expected U32Val, got {:?}")
  else
    let minor_mask := Z.shiftl 1 24 - 1 in
    let body := Z.shiftr raw 8 in
    Ok (u32 (Z.shiftr (Z.land body (u64 (Z.lnot minor_mask))) 24)).

Definition decode_storage_type (raw : Z) : outcome StorageType :=
  if raw =? 0 then Ok Temporary
  else if raw =? 1 then Ok Persistent
  else if raw =? 2 then Ok Instance
  else Err (fmt_z "bad StorageType {raw}" raw).

(** ** Values in guest memory *)

Fixpoint vals_raw (off : Z) (n : nat) : DM (list Z) :=
  match n with
  | O => mret []
  | S n' =>
      buf ← raw_read off 8;
      rest ← vals_raw (off + 8) n';
      mret (from_le buf :: rest)
  end.

Definition read_vals_raw (pos n : Z) : DM (list Z) :=
  if mem_size <? pos + n * 8 then fail (msg "guest val slice oob") else vals_raw pos (Z.to_nat n).

Fixpoint vals_abs (off : Z) (n : nat) : DM (list Z) :=
  match n with
  | O => mret []
  | S n' =>
      buf ← raw_read off 8;
      v ← decode_val (from_le buf);
      rest ← vals_abs (off + 8) n';
      mret (v :: rest)
  end.

Definition read_vals (pos n : Z) : DM (list Z) :=
  if mem_size <? pos + n * 8 then fail (msg "guest val slice oob") else vals_abs pos (Z.to_nat n).

Fixpoint vals_write (off : Z) (vals : list Z) : DM unit :=
  match vals with
  | [] => mret tt
  | v :: vals' =>
      rel ← to_relative v;
      raw_write off (to_le 8 rel);;
      vals_write (off + 8) vals'
  end.

Definition write_vals (pos : Z) (vals : list Z) : DM unit :=
  if mem_size <? pos + len vals * 8 then fail (msg "guest val write oob") else vals_write pos vals.

(** ** Results *)

Definition set_result (v : Z) (d : DState H) : DState H :=
  let b := d.(d_mb) in
  set_mb (mkMailbox b.(mb_fn_id) b.(mb_n_args) 1 b.(mb_args) (<[0%nat := v]> b.(mb_results))) d.

Definition finish (res : option Z) : DM unit :=
  match res with
  | None => modify (set_result void_val)
  | Some v =>
      out ← (if is_object v then to_relative v else mret v);
      modify (set_result out)
  end.

Definition finish_raw (raw : Z) : DM unit := modify (set_result raw).

(** [self.host.f(...).map_err(|e| format!("f: {e:?}"))?] *)
Definition host {A} (what : string) (c : HostCall H A) : DM A := fun d =>
  match c d.(d_host) with
  | (inl a, h) => (Ok a, set_host h d)
  | (inr e, h) => (Err (fmt_s (what +:+ ": {e:?}") [e]), set_host h d)
  end.

(** [mb.args[i]], an array of 16. *)
Definition arg (i : nat) : DM Z := gets (fun d => nth i d.(d_mb).(mb_args) 0).

Definition arg_u32 (i : nat) : DM Z := raw ← arg i; lift (decode_u32 raw).
Definition arg_val (i : nat) : DM Z := raw ← arg i; decode_val raw.
Definition arg_storage (i : nat) : DM StorageType := raw ← arg i; lift (decode_storage_type raw).

(** [.try_into().map_err(|_| ...)?] to an object of one kind. *)
Definition expect (ok : Z → bool) (e : string) (v : Z) : DM Z :=
  if ok v then mret v else fail (msg e).

(** ** Traces *)

Definition hex_digit (n : Z) : string :=
  nth (Z.to_nat n) ["0"; "1"; "2"; "3"; "4"; "5"; "6"; "7"; "8"; "9"; "a"; "b"; "c"; "d"; "e"; "f"] "".

Definition hex_bytes (bytes : list Z) : string :=
  foldr (fun b s => hex_digit (Z.shiftr b 4) +:+ hex_digit (Z.land b 15) +:+ s) "" bytes.

(** [r.ok()]: the error is dropped, the effects are not. *)
Definition attempt {A} (c : DM A) : DM (option A) := fun d =>
  match c d with
  | (Ok a, d') => (Ok (Some a), d')
  | (Err _, d') => (Ok None, d')
  | (Panic w, d') => (Panic w, d')
  end.

Definition host_sha256 (bytes : list Z) : DM (list Z) :=
  obj ← host "bytes_new_from_slice" (ops.(bytes_new_from_slice) bytes);
  hash_obj ← host "compute_hash_sha256" (ops.(compute_hash_sha256) obj);
  host "bytes_copy_to_slice" (ops.(bytes_copy_to_slice) hash_obj).

Definition describe_val (raw : Z) : DM (option string * option string * option string) :=
  abs ← attempt (decode_val raw);
  match abs with
  | None => mret (None, None, None)
  | Some abs =>
      sc ← gets (fun d => ops.(scval) abs d.(d_host));
      match sc with
      | None => mret (Some ("payload=0x" +:+ hex_bytes (rev (to_le 8 raw))), None, None)
      | Some (dbg, None) => mret (Some dbg, None, None)
      | Some (dbg, Some bytes) =>
          sha ← attempt (host_sha256 bytes);
          mret (Some dbg, Some (hex_bytes bytes), hex_bytes <$> sha)
      end
  end.

Definition is_name (name : string) (l : list string) : bool := bool_decide (name ∈ l).

(** The fields that depend on the function: arg0, arg1, result, elements. *)
Definition trace_details (name : string) :
    DM ((option string * option string * option string) * (option string * option string) *
        (option string * option string) * option (list Z)) :=
  if is_name name ["has_contract_data"; "get_contract_data"; "extend_contract_data_ttl"] then
    raw ← arg 0; a0 ← describe_val raw; mret (a0, (None, None), (None, None), None)
  else if is_name name ["put_contract_data"] then
    raw0 ← arg 0; a0 ← describe_val raw0;
    raw1 ← arg 1; a1 ← describe_val raw1;
    mret (a0, a1.1, (None, None), None)
  else if is_name name ["vec_new_from_linear_memory"] then
    raw0 ← arg 0; raw1 ← arg 1;
    elems ← match decode_u32 raw0, decode_u32 raw1 with
            | Ok pos, Ok n => attempt (read_vals_raw pos n)
            | _, _ => mret None
            end;
    res ← gets (fun d => nth 0 d.(d_mb).(mb_results) 0);
    r ← describe_val res;
    mret ((None, None, r.2), (None, None), r.1, elems)
  else if is_name name ["obj_from_i128_pieces"; "string_new_from_linear_memory"] then
    res ← gets (fun d => nth 0 d.(d_mb).(mb_results) 0);
    r ← describe_val res;
    mret ((None, None, None), (None, None), r.1, None)
  else mret ((None, None, None), (None, None), (None, None), None).

Definition record_trace (name : string) : DM unit :=
  b ← gets d_mb;
  seq ← gets (fun d => u32 (len d.(d_traces)));
  raw_args ← lift (if b.(mb_n_args) <=? len b.(mb_args)
                   then Ok (take (Z.to_nat b.(mb_n_args)) b.(mb_args))
                   else Panic "slice index out of range");
  '(a0, a1, r, elems) ← trace_details name;
  r ← (if is_name name ["get_contract_data"] then
         res ← gets (fun d => nth 0 d.(d_mb).(mb_results) 0);
         r ← describe_val res; mret r.1
       else mret r);
  modify (fun d => set_traces (d.(d_traces) ++
    [mkTrace seq b.(mb_fn_id) name b.(mb_n_args) raw_args (nth 0 b.(mb_results) 0) a0 a1 r elems]) d).

(** ** The functions *)

(** The arms that end in [Some(v)] or [None], by name. *)
Definition result_arm (name : string) : option (DM (option Z)) :=
  if is_name name ["string_new_from_linear_memory"] then Some (
    pos ← arg_u32 0; n ← arg_u32 1; bytes ← read_bytes pos n;
    v ← host "string_new_from_slice" (ops.(string_new_from_slice) bytes); mret (Some v))
  else if is_name name ["symbol_new_from_linear_memory"] then Some (
    pos ← arg_u32 0; n ← arg_u32 1; bytes ← read_bytes pos n;
    v ← host "symbol_new_from_slice" (ops.(symbol_new_from_slice) bytes); mret (Some v))
  else if is_name name ["vec_new_from_linear_memory"] then Some (
    pos ← arg_u32 0; n ← arg_u32 1; vals ← read_vals pos n;
    v ← host "vec_new_from_slice" (ops.(vec_new_from_slice) vals); mret (Some v))
  else if is_name name ["map_new_from_linear_memory"] then Some (
    keys_pos ← arg_u32 0; vals_pos ← arg_u32 1; n ← arg_u32 2;
    keys ← read_symbol_keys keys_pos n; vals ← read_vals vals_pos n;
    v ← host "map_new_from_slices" (ops.(map_new_from_slices) keys vals); mret (Some v))
  else if is_name name ["has_contract_data"] then Some (
    k ← arg_val 0; t ← arg_storage 1;
    v ← host "has_contract_data" (ops.(has_contract_data) k t); mret (Some v))
  else if is_name name ["get_contract_data"] then Some (
    k ← arg_val 0; t ← arg_storage 1;
    v ← host "get_contract_data" (ops.(get_contract_data) k t); mret (Some v))
  else if is_name name ["put_contract_data"] then Some (
    k ← arg_val 0; v ← arg_val 1; t ← arg_storage 2;
    host "put_contract_data" (ops.(put_contract_data) k v t);; mret None)
  else if is_name name ["extend_contract_data_ttl"] then Some (
    k ← arg_val 0; t ← arg_storage 1; threshold ← arg_u32 2; extend_to ← arg_u32 3;
    host "extend_contract_data_ttl"
      (ops.(extend_contract_data_ttl) k t (u32_val threshold) (u32_val extend_to));; mret None)
  else if is_name name ["extend_current_contract_instance_and_code_ttl"] then Some (
    threshold ← arg_u32 0; extend_to ← arg_u32 1;
    host "extend_current_contract_instance_and_code_ttl"
      (ops.(extend_current_contract_instance_and_code_ttl) (u32_val threshold) (u32_val extend_to));;
    mret None)
  else if is_name name ["contract_event"] then Some (
    v ← arg_val 0; topics ← expect is_vec "contract_event: topics not VecObject" v;
    data ← arg_val 1;
    host "contract_event" (ops.(contract_event) topics data);; mret None)
  else if is_name name ["get_ledger_sequence"] then Some (
    v ← host "get_ledger_sequence" ops.(get_ledger_sequence); mret (Some v))
  else if is_name name ["obj_from_i128_pieces"] then Some (
    hi ← arg 0; lo ← arg 1;
    v ← host "obj_from_i128_pieces" (ops.(obj_from_i128_pieces) (i64 hi) lo); mret (Some v))
  else if is_name name ["require_auth"] then Some (
    v ← arg_val 0; addr ← expect is_address "require_auth: not AddressObject" v;
    host "require_auth" (ops.(require_auth) addr);; mret None)
  else None.

(** The arms whose result is a raw word. *)
Definition raw_arm (name : string) : option (DM Z) :=
  if is_name name ["obj_to_i128_lo64"] then Some (
    v ← arg_val 0; obj ← expect is_i128 "not I128Object" v;
    host "obj_to_i128_lo64" (ops.(obj_to_i128_lo64) obj))
  else if is_name name ["obj_to_i128_hi64"] then Some (
    v ← arg_val 0; obj ← expect is_i128 "not I128Object" v;
    hi ← host "obj_to_i128_hi64" (ops.(obj_to_i128_hi64) obj); mret (u64 hi))
  else None.

(** [map_unpack_to_linear_memory] returns early. *)
Definition map_unpack : DM unit :=
  v ← arg_val 0; m ← expect is_map "map_unpack: arg0 not MapObject" v;
  keys_pos ← arg_u32 1; vals_pos ← arg_u32 2; n ← arg_u32 3;
  keys ← read_symbol_keys keys_pos n;
  vals ← host "map_unpack_to_slice"
           (ops.(map_unpack_to_slice) m keys (replicate (Z.to_nat n) void_val));
  write_vals vals_pos vals;;
  finish None.

Definition dispatch : DM unit :=
  b ← gets d_mb;
  let nm := default "?" (name root b.(mb_fn_id)) in
  modify (fun d => set_calls (d.(d_calls) ++ [(nm, b.(mb_n_args))]) d);;
  if is_name nm ["map_unpack_to_linear_memory"] then map_unpack
  else
    match raw_arm nm, result_arm nm with
    | Some c, _ => raw ← c; finish_raw raw;; record_trace nm
    | None, Some c => res ← c; finish res;; record_trace nm
    | None, None =>
        fail (fmt_s "unimplemented host function {key} ({other})"
                [default "?" (import_key root b.(mb_fn_id)); nm])
    end.

(** The callback: whether the call succeeded, and what is written to the error buffer
    of [err_cap] bytes, 0 for a null buffer ([text] renders an error); [null] when the
    context or the mailbox is a null pointer. *)
Definition error_bytes (text : list Z) (err_cap : Z) : list Z :=
  if 0 <? err_cap then take (Z.to_nat (Z.min (len text) (err_cap - 1))) text ++ [0] else [].

Definition host_dispatch (null : bool) (text : rust_err → list Z) (err_cap : Z) :
    DM (bool * list Z) := fun d =>
  if null then (Ok (false, []), d)
  else
    match dispatch d with
    | (Ok _, d') => (Ok (true, []), d')
    | (Err e, d') => (Ok (false, error_bytes (text e) err_cap), d')
    | (Panic w, d') => (Panic w, d')
    end.
End dispatch.
