(* ===== verification/DispatchFacts.v ===== *)
(** * Host calls: handles, guest memory and bookkeeping

    Relative handles lead back to the objects they were made for, values written to
    guest memory are read back, and every dispatched call keeps the shape of the
    memory and of the mailbox. *)

From S2P Require Import Prelude Cuop Wasm Lower EnvTable Module Engine Dispatch.
From stdpp Require Import base list strings.

Local Open Scope Z_scope.

(** ** Bytes *)

Lemma from_le_to_le n v : from_le (to_le n v) = v mod 256 ^ Z.of_nat n.
Proof.
  revert v. induction n as [|n IH]; intros v; [by rewrite Z.mod_1_r|].
  cbn [to_le from_le foldr]. fold (from_le (to_le n (Z.shiftr v 8))). rewrite IH.
  rewrite Z.shiftr_div_pow2 by lia. unfold u8. rewrite Z.mod_mod by lia. change (2 ^ 8) with 256.
  rewrite Nat2Z.inj_succ, Z.pow_succ_r by lia. rewrite Z.rem_mul_r by lia. lia.
Qed.

Lemma length_to_le n v : length (to_le n v) = n.
Proof. revert v. induction n as [|n IH]; intros v; simpl; [done|]. by rewrite IH. Qed.

Lemma from_le_nonneg bs : 0 ≤ from_le bs.
Proof.
  induction bs as [|b bs IH]; [done|]. cbn [from_le foldr]. fold (from_le bs).
  pose proof (Z.mod_pos_bound b (2 ^ 8)). unfold u8. lia.
Qed.

Section facts.
Context `{V : ValRepr} {L : ValLaws} {H : Type} (ops : HostOps H) (root : list EnvMod) (mem_size : Z).
Implicit Types (d : DState H) (v : Z).

(** ** Relative objects *)

Lemma relative_handle i :
  0 ≤ i < 2 ^ 31 →
  ∃ h, index_to_relative_handle i = Ok h ∧ 0 ≤ h < 2 ^ 32 ∧ is_relative_handle h = true ∧
    handle_to_index h = i.
Proof.
  intros Hi. unfold index_to_relative_handle, checked_shl.
  destruct (2 ^ 32 <=? i) eqn:?; [lia|]. rewrite Z.shiftl_mul_pow2 by lia.
  exists (i * 2). simpl. rewrite u32_id by lia. split_and!; [done|lia|lia| |].
  - unfold is_relative_handle. change 1 with (Z.ones 1). rewrite Z.land_ones by lia.
    change (2 ^ 1) with 2. rewrite Z.mod_mul by lia. done.
  - unfold handle_to_index. rewrite Z.shiftr_div_pow2 by lia. change (2 ^ 1) with 2.
    apply Z.div_mul. lia.
Qed.

(** The object entered into the table is found through its handle, also after the
    table has grown. *)
(** Nothing but the table changes. *)
Lemma to_relative_only v d r d' : to_relative v d = (Ok r, d') → ∃ rel, d' = set_rel rel d.
Proof.
  unfold to_relative. destruct (is_object v); simpl.
  - unfold mbind, St_bind, gets, modify, lift. simpl.
    destruct (index_to_relative_handle _); [|done..]. intros [= _ <-]. by eexists.
  - intros [= _ <-]. exists d.(d_rel). by destruct d.
Qed.

Lemma to_relative_spec v d :
  0 ≤ v < 2 ^ 64 → len d.(d_rel) < 2 ^ 31 →
  ∃ r d', to_relative v d = (Ok r, d') ∧ d'.(d_mem) = d.(d_mem) ∧
    d.(d_rel) `prefix_of` d'.(d_rel) ∧ len d'.(d_rel) ≤ len d.(d_rel) + 1 ∧ 0 ≤ r < 2 ^ 64 ∧
    ∀ rel, d'.(d_rel) `prefix_of` rel → to_absolute rel r = Ok v.
Proof.
  intros Hv Hl. unfold to_relative. destruct (is_object v) eqn:Ho; simpl.
  - unfold mbind, St_bind, gets, modify, lift, set_rel. simpl.
    destruct (relative_handle (len d.(d_rel))) as (h & Hh & Hrange & Hrel & Hidx).
    { pose proof (len_nonneg d.(d_rel)). lia. }
    destruct (object_payload v h Ho Hrange) as (Hw1 & Hw2 & Hw3 & Hw4).
    rewrite Hh. eexists _, _. split; [done|]. cbn [d_mem d_rel]. rewrite len_app.
    split_and!; [done|by apply prefix_app_r|done|lia|lia|]. intros rel Hpre. unfold to_absolute.
    rewrite Hw1, Hw2, Hw3, Hrel, Hidx. simpl. unfold len. rewrite Nat2Z.id.
    rewrite (prefix_lookup_Some _ _ _ v (list_lookup_middle _ [] _ _ eq_refl) Hpre). simpl.
    by rewrite Z.eqb_refl.
  - exists v, d. split_and!; try done; try lia. intros rel _. unfold to_absolute. by rewrite Ho.
Qed.

(** ** What a call leaves alone *)

(** From [d] to [d']: the table of relative objects grew, the mailbox and the records
    are as they were, and the guest memory is the same or, where [w], as long. *)
Record grows (w : bool) d d' : Prop := {
  gr_mem : if w then length d'.(d_mem) = length d.(d_mem) else d'.(d_mem) = d.(d_mem);
  gr_rel : d.(d_rel) `prefix_of` d'.(d_rel);
  gr_calls : d'.(d_calls) = d.(d_calls);
  gr_traces : d'.(d_traces) = d.(d_traces);
  gr_mb : d'.(d_mb) = d.(d_mb) }.

#[local] Instance grows_preorder w : PreOrder (grows w).
Proof.
  split.
  - intros d. split; try done. by destruct w.
  - intros d1 d2 d3 [] []. split; try congruence; [destruct w; congruence|by etrans].
Qed.

Lemma grows_weaken w d d' : grows w d d' → grows true d d'.
Proof. intros []. split; try done. destruct w; congruence. Qed.

(** The context is set up: there is a memory, as large as the context says, and the
    mailbox holds the arguments it counts. *)
Definition sane d : Prop :=
  mem_size ≤ len d.(d_mem) ∧ len d.(d_mem) ≠ 0 ∧ d.(d_mb).(mb_n_args) ≤ len d.(d_mb).(mb_args).

Lemma grows_sane w d d' : grows w d d' → sane d → sane d'.
Proof.
  intros [Hm ? ? ? Hb] (? & ? & ?). unfold sane, len in *. rewrite Hb.
  destruct w; [rewrite Hm|rewrite Hm]; done.
Qed.

(** [m] does not panic and leaves all this alone, whether it succeeds or fails. *)
Class Framed {A} (w : bool) (m : St (DState H) A) : Prop := framed d :
  sane d → wp m (fun _ => grows w d) (grows w d) d.

#[local] Instance framed_ret {A} w (a : A) : Framed w (mret a).
Proof. intros d _. by apply wp_ret. Qed.
#[local] Instance framed_fail {A} w e : Framed w (@fail (DState H) A e).
Proof. intros d _. by apply wp_fail. Qed.
#[local] Instance framed_gets {A} w (f : DState H → A) : Framed w (gets f).
Proof. intros d _. by apply wp_gets. Qed.
#[local] Instance framed_lift {A} w (o : outcome A) : NoPanic o → Framed w (lift o).
Proof. intros Ho d _. apply wp_lift; [done..|]. intros w'. apply Ho. Qed.
#[local] Instance framed_if {A} w (b : bool) (x y : St (DState H) A) :
  Framed w x → Framed w y → Framed w (if b then x else y).
Proof. by destruct b. Qed.

Lemma wp_after {A} w (m : St (DState H) A) d d1 :
  grows w d d1 → wp m (fun _ => grows w d1) (grows w d1) d1 → wp m (fun _ => grows w d) (grows w d) d1.
Proof.
  intros H1 Hm. eapply wp_mono; [exact Hm|intros a d2 H2|intros d2 H2]; exact (transitivity H1 H2).
Qed.

#[local] Instance framed_bind {A B} w (m : St (DState H) A) (f : A → St (DState H) B) :
  Framed w m → (∀ a, Framed w (f a)) → Framed w (m ≫= f).
Proof.
  intros Hm Hf d Hd. eapply wp_seq; [by apply Hm|]. intros a d1 H1. cbv beta in *.
  eapply wp_after; [done|]. apply Hf. eauto using grows_sane.
Qed.

#[local] Instance framed_host {A} w what (c : HostCall H A) : Framed w (host what c).
Proof.
  intros d _. unfold wp, host. destruct (c _) as [[] ?]; (split; try done; by destruct w).
Qed.

#[local] Instance framed_attempt {A} w (m : St (DState H) A) : Framed w m → Framed w (attempt m).
Proof. intros Hm d Hd. specialize (Hm d Hd). unfold wp, attempt in *. by destruct (m d) as [[] ?]. Qed.

#[local] Instance to_absolute_no_panic rel v : NoPanic (to_absolute rel v).
Proof. unfold to_absolute. no_panic_tac. Qed.
#[local] Instance decode_u32_no_panic v : NoPanic (decode_u32 v).
Proof. unfold decode_u32. no_panic_tac. Qed.
#[local] Instance decode_storage_type_no_panic v : NoPanic (decode_storage_type v).
Proof. unfold decode_storage_type. no_panic_tac. Qed.
#[local] Instance index_no_panic i : NoPanic (index_to_relative_handle i).
Proof. unfold index_to_relative_handle. no_panic_tac. Qed.

#[local] Instance framed_decode_val w v : Framed w (decode_val v).
Proof.
  intros d _. unfold wp, decode_val. pose proof (to_absolute_no_panic d.(d_rel) v) as Hp.
  destruct (to_absolute _ _) as [| |w']; [done..|by destruct (Hp w')].
Qed.

#[local] Instance framed_to_relative w v : Framed w (to_relative v).
Proof.
  unfold to_relative. apply framed_if; [apply _|]. apply framed_bind; [apply _|]. intros i.
  apply framed_bind; [|apply _]. intros d _. apply wp_modify.
  split; try done; [by destruct w|by apply prefix_app_r].
Qed.

(** ** Reading and writing the guest's memory *)

Lemma framed_raw_read w pos n d :
  pos + Z.of_nat n ≤ len d.(d_mem) → wp (raw_read pos n) (fun _ => grows w d) (grows w d) d.
Proof. intros. unfold wp, raw_read. by rewrite (proj2 (Z.leb_le _ _)). Qed.

Lemma framed_read_bytes w pos n : 0 ≤ n → Framed w (read_bytes mem_size pos n).
Proof.
  intros Hn d (Hd & Hne & _). unfold read_bytes. destruct (mem_size <? _) eqn:?; [by apply wp_fail|].
  unfold wp, raw_slice. rewrite (proj2 (Z.eqb_neq _ _) Hne). apply framed_raw_read. lia.
Qed.

(** Reading [n] words of eight bytes, whatever is done with each. *)
Lemma framed_words {A} w (f : list Z → St (DState H) A) (loop : Z → nat → St (DState H) (list A)) :
  (∀ buf, Framed w (f buf)) →
  (∀ off, loop off O = mret []) →
  (∀ off n, loop off (S n) =
    (buf ← raw_read off 8; a ← f buf; rest ← loop (off + 8) n; mret (a :: rest))) →
  ∀ n off d, sane d → off + Z.of_nat n * 8 ≤ len d.(d_mem) →
  wp (loop off n) (fun _ => grows w d) (grows w d) d.
Proof.
  intros Hf H0 HS. induction n as [|n IH]; intros off d Hd Hoff; [by rewrite H0; apply wp_ret|].
  rewrite HS. eapply wp_seq; [apply (framed_raw_read w); lia|]. intros buf d1 H1. cbv beta in *.
  eapply wp_seq; [apply (wp_after w _ _ _ H1), Hf; eauto using grows_sane|].
  intros a d2 H2. cbv beta in *. eapply wp_seq; [apply (wp_after w _ _ _ H2), IH|].
  - eauto using grows_sane.
  - destruct (grows_weaken _ _ _ H2) as [Hm ? ? ? ?]. unfold len in *. rewrite Hm. lia.
  - intros rest d3 H3. by apply wp_ret.
Qed.

Lemma framed_read_vals_raw w pos n : 0 ≤ n → Framed w (read_vals_raw mem_size pos n).
Proof.
  intros Hn d Hd. unfold read_vals_raw. destruct (mem_size <? _) eqn:?; [by apply wp_fail|].
  apply (framed_words w (fun buf => mret (from_le buf)) vals_raw); try done.
  - intros. apply _.
  - destruct Hd. lia.
Qed.

Lemma framed_read_vals w pos n : 0 ≤ n → Framed w (read_vals mem_size pos n).
Proof.
  intros Hn d Hd. unfold read_vals. destruct (mem_size <? _) eqn:?; [by apply wp_fail|].
  apply (framed_words w (fun buf => decode_val (from_le buf)) vals_abs); try done.
  - intros. apply _.
  - destruct Hd. lia.
Qed.

(** The descriptors that are read hold words. *)
Lemma descriptors_nonneg n off d ds d' :
  descriptors off n d = (Ok ds, d') → Forall (fun e => 0 ≤ e.2) ds.
Proof.
  revert off d ds d'. induction n as [|n IH]; intros off d ds d'; simpl; [by intros [= <- <-]|].
  unfold mbind, St_bind. destruct (raw_read off 8 d) as [[buf| |] d1]; [|done..].
  destruct (descriptors (off + 8) n d1) as [[rest| |] d2] eqn:Hr; [|done..].
  intros [= <- <-]. constructor; [apply from_le_nonneg|by eapply IH].
Qed.

Lemma framed_symbol_keys w ds :
  Forall (fun e => 0 ≤ e.2) ds → Framed w (symbol_keys mem_size ds).
Proof.
  induction 1 as [|[ptr n] ds Hn _ IH]; simpl; [apply _|].
  apply framed_bind; [by apply framed_read_bytes|]. intros bytes. apply _.
Qed.

Lemma framed_read_symbol_keys w pos n : 0 ≤ n → Framed w (read_symbol_keys mem_size pos n).
Proof.
  intros Hn d Hd. unfold read_symbol_keys, read_slice_descriptors.
  destruct (mem_size <? _) eqn:?; [by apply wp_fail|].
  assert (wp (descriptors pos (Z.to_nat n)) (fun _ => grows w d) (grows w d) d) as Hds.
  { apply (framed_words w (fun buf => mret (from_le (take 4 buf), from_le (drop 4 buf))) descriptors);
      try done; [intros; apply _|destruct Hd; lia]. }
  pose proof (descriptors_nonneg (Z.to_nat n) pos d) as Hnn. unfold wp, mbind, St_bind in *.
  destruct (descriptors _ _ d) as [[ds| |] d1]; [|done..].
  apply (wp_after w _ _ _ Hds), framed_symbol_keys; [by eapply Hnn|eauto using grows_sane].
Qed.

Lemma framed_raw_write pos bs d :
  0 ≤ pos → pos + len bs ≤ len d.(d_mem) → wp (raw_write pos bs) (fun _ => grows true d) (grows true d) d.
Proof.
  intros Hp Hb. unfold wp, raw_write. rewrite (proj2 (Z.leb_le _ _)) by done. split; try done.
  cbn [set_dmem d_mem]. unfold len in *. rewrite !length_app, length_take, length_drop. lia.
Qed.

Lemma framed_vals_write vals off d :
  sane d → 0 ≤ off → off + len vals * 8 ≤ len d.(d_mem) →
  wp (vals_write off vals) (fun _ => grows true d) (grows true d) d.
Proof.
  revert off d. induction vals as [|v vals IH]; intros off d Hd Hp Hl; [by apply wp_ret|].
  pose proof (len_nonneg vals). rewrite len_cons in Hl. cbn [vals_write].
  eapply wp_seq; [by apply (framed_to_relative true)|].
  intros r d1 H1. cbv beta in *. assert (len d1.(d_mem) = len d.(d_mem)) as E1
    by (unfold len; by rewrite (gr_mem _ _ _ H1)).
  eapply wp_seq; [apply (wp_after true _ _ _ H1), framed_raw_write; [lia|]|].
  { unfold len at 1. rewrite length_to_le, E1. lia. }
  intros [] d2 H2. cbv beta in *. apply (wp_after true _ _ _ H2), IH; [eauto using grows_sane|lia|].
  unfold len at 2. rewrite (gr_mem _ _ _ H2). unfold len in *. lia.
Qed.

Lemma framed_write_vals pos vals : 0 ≤ pos → Framed true (write_vals mem_size pos vals).
Proof.
  intros Hp d Hd. unfold write_vals. destruct (mem_size <? _) eqn:?; [by apply wp_fail|].
  apply framed_vals_write; [done..|]. destruct Hd. lia.
Qed.

Lemma decode_u32_nonneg raw n : decode_u32 raw = Ok n → 0 ≤ n.
Proof.
  unfold decode_u32. destruct (negb _); [done|]. intros [= <-]. apply u32_range.
Qed.

(** An argument that is a [U32Val] is a word. *)
Lemma framed_arg_u32 {A} w i (f : Z → St (DState H) A) :
  (∀ n, 0 ≤ n → Framed w (f n)) → Framed w (arg_u32 i ≫= f).
Proof.
  intros Hf. unfold arg_u32, arg. intros d Hd. unfold wp, mbind, St_bind, gets, lift. simpl.
  destruct (decode_u32 _) as [n| |w'] eqn:E; [|done|by destruct (decode_u32_no_panic _ w' E)].
  apply Hf; [by eapply decode_u32_nonneg|done].
Qed.

(** Along the code: binds, conditionals and the operations above. *)
Ltac framed_tac :=
  repeat first
    [ progress intros
    | apply _
    | apply framed_arg_u32
    | apply framed_read_bytes; done
    | apply framed_read_vals; done
    | apply framed_read_vals_raw; eauto using decode_u32_nonneg
    | apply framed_attempt
    | apply framed_read_symbol_keys; done
    | apply framed_write_vals; done
    | apply framed_bind
    | match goal with |- Framed _ (match ?x with _ => _ end) => destruct x eqn:? end ].

#[local] Instance framed_arg w i : Framed w (arg i : St (DState H) Z).
Proof. apply _. Qed.
#[local] Instance framed_arg_val w i : Framed w (arg_val i : St (DState H) Z).
Proof. unfold arg_val. framed_tac. Qed.
#[local] Instance framed_arg_storage w i : Framed w (arg_storage i : St (DState H) StorageType).
Proof. unfold arg_storage. framed_tac. Qed.
#[local] Instance framed_expect w ok e v : Framed w (expect ok e v : St (DState H) Z).
Proof. unfold expect. framed_tac. Qed.

#[local] Instance framed_host_sha256 w bytes : Framed w (host_sha256 ops bytes).
Proof. unfold host_sha256. framed_tac. Qed.
#[local] Instance framed_describe_val w raw : Framed w (describe_val ops raw).
Proof. unfold describe_val. framed_tac. Qed.

#[local] Instance framed_trace_details w nm : Framed w (trace_details ops mem_size nm).
Proof.
  unfold trace_details. repeat (apply framed_if; [framed_tac|]); framed_tac.
Qed.

(** Every arm but the unpacking of a map leaves the guest's memory as it is. *)
Lemma framed_result_arm nm c : result_arm ops mem_size nm = Some c → Framed false c.
Proof.
  unfold result_arm. intros Hc.
  repeat match type of Hc with (if ?b then _ else _) = _ =>
    destruct b; [injection Hc as <-; framed_tac|] end. done.
Qed.

Lemma framed_raw_arm nm c : raw_arm ops nm = Some c → Framed false c.
Proof.
  unfold raw_arm. intros Hc.
  repeat match type of Hc with (if ?b then _ else _) = _ =>
    destruct b; [injection Hc as <-; framed_tac|] end. done.
Qed.

(** ** Values written and read back *)

Lemma raw_write_spec pos bs d :
  0 ≤ pos → pos + len bs ≤ len d.(d_mem) →
  ∃ d', raw_write pos bs d = (Ok tt, d') ∧ d'.(d_rel) = d.(d_rel) ∧ len d'.(d_mem) = len d.(d_mem) ∧
    take (Z.to_nat pos + length bs) d'.(d_mem) = take (Z.to_nat pos) d.(d_mem) ++ bs.
Proof.
  intros Hp Hb. unfold raw_write. rewrite (proj2 (Z.leb_le _ _)) by done. eexists. split; [done|].
  cbn [set_dmem d_mem d_rel]. unfold len in *. split_and!; [done| |].
  - rewrite !length_app, length_take, length_drop. lia.
  - rewrite app_assoc, take_app_length'; [done|]. rewrite length_app, length_take. lia.
Qed.

Lemma vals_write_spec vals off d :
  0 ≤ off → off + len vals * 8 ≤ len d.(d_mem) → len d.(d_rel) + len vals ≤ 2 ^ 31 →
  Forall (fun v => 0 ≤ v < 2 ^ 64) vals →
  ∃ d', vals_write off vals d = (Ok tt, d') ∧ d.(d_rel) `prefix_of` d'.(d_rel) ∧
    len d'.(d_mem) = len d.(d_mem) ∧ take (Z.to_nat off) d'.(d_mem) = take (Z.to_nat off) d.(d_mem) ∧
    ∀ d2, d'.(d_rel) `prefix_of` d2.(d_rel) → d2.(d_mem) = d'.(d_mem) →
      vals_abs off (length vals) d2 = (Ok vals, d2).
Proof.
  revert off d. induction vals as [|v vals IH]; intros off d Hp Hl Hr Hv.
  { exists d. by split_and!. }
  apply Forall_cons in Hv as [Hv Hvs]. rewrite len_cons in Hl, Hr. pose proof (len_nonneg vals).
  cbn [vals_write vals_abs length].
  destruct (to_relative_spec v d Hv) as (r & d1 & Er & Hm1 & Hr1 & Hl1 & Hrange & Habs); [lia|].
  destruct (raw_write_spec off (to_le 8 r) d1) as (d2 & Ew & Hr2 & Hm2 & Ht2); [done| |].
  { unfold len at 1. rewrite length_to_le, Hm1. lia. }
  destruct (IH (off + 8) d2) as (d3 & Evs & Hr3 & Hm3 & Ht3 & Hread); [lia| | |done|].
  { rewrite Hm2, Hm1. lia. }
  { rewrite Hr2. lia. }
  rewrite length_to_le in Ht2. replace (Z.to_nat (off + 8)) with (Z.to_nat off + 8)%nat in Ht3 by lia.
  exists d3. split_and!.
  - unfold mbind, St_bind. by rewrite Er, Ew.
  - rewrite Hr2 in Hr3. by etrans.
  - by rewrite Hm3, Hm2, Hm1.
  - apply (f_equal (take (Z.to_nat off))) in Ht3. rewrite !take_take, Nat.min_l in Ht3 by lia.
    rewrite Ht3. apply (f_equal (take (Z.to_nat off))) in Ht2.
    rewrite take_take, Nat.min_l in Ht2 by lia. rewrite Ht2, <-Hm1.
    apply take_app_length'. rewrite length_take. unfold len in *. rewrite Hm1. lia.
  - intros d4 Hr4 Hm4. unfold mbind, St_bind, raw_read.
    rewrite (proj2 (Z.leb_le _ _)) by (rewrite Hm4, Hm3, Hm2, Hm1; lia).
    assert (take 8 (drop (Z.to_nat off) d4.(d_mem)) = to_le 8 r) as ->.
    { rewrite take_drop_commute, Hm4, Ht3, Ht2. apply drop_app_length'.
      rewrite length_take. unfold len in *. rewrite Hm1. lia. }
    rewrite from_le_to_le. change (256 ^ Z.of_nat 8) with (2 ^ 64). rewrite Z.mod_small by done.
    unfold decode_val. rewrite Habs by (etrans; [|exact Hr4]; by rewrite <-Hr2).
    by rewrite (Hread d4 Hr4 Hm4).
Qed.

(** ** Code that does not fail *)

Class Infallible {A} (m : St (DState H) A) : Prop := infallible d e d' : m d ≠ (Err e, d').

#[local] Instance infallible_ret {A} (a : A) : Infallible (mret a).
Proof. done. Qed.
#[local] Instance infallible_gets {A} (f : DState H → A) : Infallible (gets f).
Proof. done. Qed.
#[local] Instance infallible_attempt {A} (m : St (DState H) A) : Infallible (attempt m).
Proof. intros d e d'. unfold attempt. by destruct (m d) as [[] ?]. Qed.
#[local] Instance infallible_bind {A B} (m : St (DState H) A) (f : A → St (DState H) B) :
  Infallible m → (∀ a, Infallible (f a)) → Infallible (m ≫= f).
Proof.
  intros Hm Hf d e d'. unfold mbind, St_bind. pose proof (Hm d) as Hd.
  destruct (m d) as [[]]; [apply Hf| |done]. by destruct (Hd e0 d0).
Qed.
#[local] Instance infallible_if {A} (b : bool) (x y : St (DState H) A) :
  Infallible x → Infallible y → Infallible (if b then x else y).
Proof. by destruct b. Qed.

#[local] Instance infallible_describe_val raw : Infallible (describe_val ops raw).
Proof.
  unfold describe_val. apply infallible_bind; [apply _|]. intros [abs|]; [|apply _].
  apply infallible_bind; [apply _|]. intros [[dbg [bytes|]]|]; apply _.
Qed.

#[local] Instance infallible_trace_details nm : Infallible (trace_details ops mem_size nm).
Proof.
  unfold trace_details. repeat (apply infallible_if; [apply _|]); try apply _.
  apply infallible_if; [|apply _]. apply infallible_bind; [apply _|]. intros raw0.
  apply infallible_bind; [apply _|]. intros raw1. apply infallible_bind; [|apply _].
  destruct (decode_u32 raw0); [|apply _..]. destruct (decode_u32 raw1); apply _.
Qed.

Lemma wp_infallible {A} (m : St (DState H) A) Q E d :
  Infallible m → wp m Q E d → wp m Q (fun _ => False) d.
Proof.
  intros Hm. unfold wp. pose proof (Hm d) as Hd.
  destruct (m d) as [[| |] d']; [done| |done]. by destruct (Hd e d').
Qed.

(** ** The whole call *)

(** The entry of a call in the trace. *)
Definition traces_call nm (b : HostMailbox) seq t : Prop :=
  t.(t_seq) = seq ∧ t.(t_fn_id) = b.(mb_fn_id) ∧ t.(t_name) = nm ∧
  t.(t_n_args) = b.(mb_n_args) ∧ t.(t_raw_args) = take (Z.to_nat b.(mb_n_args)) b.(mb_args) ∧
  t.(t_raw_result) = nth 0 b.(mb_results) 0.

Lemma record_trace_spec nm d :
  sane d →
  wp (record_trace ops mem_size nm)
    (fun _ d' => ∃ d1 t, grows false d d1 ∧ traces_call nm d.(d_mb) (u32 (len d.(d_traces))) t ∧
       d' = set_traces (d.(d_traces) ++ [t]) d1)
    (fun _ => False) d.
Proof.
  intros Hd. unfold record_trace. apply wp_bind, wp_gets, wp_bind, wp_gets, wp_bind, wp_lift.
  2: { by destruct (_ <=? _). }
  2: { destruct Hd as (_ & _ & Hd). by rewrite (proj2 (Z.leb_le _ _)) by done. }
  intros raw_args Hargs. rewrite (proj2 (Z.leb_le _ _)) in Hargs by apply Hd.
  injection Hargs as <-. eapply wp_seq.
  { eapply wp_infallible; [apply _|]. by apply (framed_trace_details false). }
  intros [[[a0 a1] r] elems] d1 H1. cbv beta in *. eapply wp_seq.
  { eapply wp_infallible; [apply _|]. apply (wp_after false _ _ _ H1), framed.
    eauto using grows_sane. }
  intros r' d2 H2. cbv beta in *. apply wp_modify. exists d2. eexists. split; [done|].
  rewrite (gr_traces _ _ _ H2). by split; [|done].
Qed.

Lemma finish_spec res d :
  sane d →
  wp (finish res) (fun _ d' => ∃ d1 v, grows false d d1 ∧ d' = set_result v d1) (grows false d) d.
Proof.
  intros Hd. destruct res as [v|]; cbn [finish].
  - eapply wp_seq; [apply (framed (w := false) (m := if is_object v then to_relative v else mret v)); done|].
    intros out d1 H1. cbv beta in *. apply wp_modify. eauto.
  - apply wp_modify. exists d, void_val. by split.
Qed.

(** What a call leaves: the records of it and, when it succeeds, its result. *)
Record left_by nm (ok : bool) d d' : Prop := {
  lb_mem : if is_name nm ["map_unpack_to_linear_memory"] then length d'.(d_mem) = length d.(d_mem)
           else d'.(d_mem) = d.(d_mem);
  lb_rel : d.(d_rel) `prefix_of` d'.(d_rel);
  lb_calls : d'.(d_calls) = d.(d_calls) ++ [(nm, d.(d_mb).(mb_n_args))];
  lb_mb : if ok then ∃ v, d'.(d_mb) = (set_result v d).(d_mb) else d'.(d_mb) = d.(d_mb);
  lb_traces :
    if ok && negb (is_name nm ["map_unpack_to_linear_memory"])
    then ∃ t, traces_call nm d'.(d_mb) (u32 (len d.(d_traces))) t ∧ d'.(d_traces) = d.(d_traces) ++ [t]
    else d'.(d_traces) = d.(d_traces) }.

Definition called nm d : DState H := set_calls (d.(d_calls) ++ [(nm, d.(d_mb).(mb_n_args))]) d.

Lemma left_by_error nm d d' :
  grows (is_name nm ["map_unpack_to_linear_memory"]) (called nm d) d' → left_by nm false d d'.
Proof. intros [Hm Hr Hc Ht Hb]. by split. Qed.

(** The end of an arm that is traced. *)
Lemma traced_spec nm d (d1 : DState H) v :
  is_name nm ["map_unpack_to_linear_memory"] = false → sane d → grows false (called nm d) d1 →
  wp (record_trace ops mem_size nm) (fun _ => left_by nm true d) (fun _ => False) (set_result v d1).
Proof.
  intros Hnm Hd [Hm Hr Hc Ht Hb]. simpl in *. eapply wp_mono; [apply record_trace_spec| |done].
  - destruct Hd as (Hd1 & Hd2 & Hd3). split_and!; simpl; [by rewrite Hm..|]. by rewrite Hb.
  - intros [] d' (d2 & t & [Gm Gr Gc Gt Gb] & Htr & ->). simpl in *. rewrite Ht in Htr.
    split; simpl.
    + rewrite Hnm. congruence.
    + by etrans.
    + congruence.
    + exists v. rewrite Gb. by rewrite Hb.
    + rewrite Hnm. simpl. exists t. rewrite Gb, Ht. done.
Qed.

Lemma framed_map_unpack_values d :
  sane d → wp (map_unpack ops mem_size)
    (fun _ d' => ∃ d1, grows true d d1 ∧ d' = set_result void_val d1) (grows true d) d.
Proof.
  intros Hd. assert (Framed true (
    v ← arg_val 0; m ← expect is_map "map_unpack: arg0 not MapObject" v;
    keys_pos ← arg_u32 1; vals_pos ← arg_u32 2; n ← arg_u32 3;
    keys ← read_symbol_keys mem_size keys_pos n;
    vals ← host "map_unpack_to_slice"
             (ops.(map_unpack_to_slice) m keys (replicate (Z.to_nat n) void_val));
    write_vals mem_size vals_pos vals)) as Hf by framed_tac.
  specialize (Hf d Hd). unfold map_unpack, finish.
  unfold wp, mbind, St_bind, modify in *.
  repeat match goal with
  | H : context [match ?m ?s with (_, _) => _ end] |- _ => destruct (m s) as [[] ?] end;
  try done; eauto.
Qed.

Lemma dispatch_leaves d :
  sane d →
  let nm := default "?" (name root d.(d_mb).(mb_fn_id)) in
  wp (dispatch ops root mem_size) (fun _ => left_by nm true d) (left_by nm false d) d.
Proof.
  intros Hd nm. unfold dispatch. apply wp_bind, wp_gets, wp_bind, wp_modify. cbv beta. fold nm.
  fold (called nm d). assert (sane (called nm d)) as Hs by done.
  destruct (is_name nm ["map_unpack_to_linear_memory"]) eqn:Hnm.
  - eapply wp_mono; [by apply framed_map_unpack_values| |].
    + intros [] d' (d1 & [Hm Hr Hc Ht Hb] & ->). split; try rewrite Hnm; try done.
      exists void_val. simpl in *. by rewrite Hb.
    + intros d' Hg. apply left_by_error. by rewrite Hnm.
  - assert (∀ d', grows false (called nm d) d' → left_by nm false d d') as Herr
      by (intros; apply left_by_error; by rewrite Hnm).
    destruct (raw_arm ops nm) as [c|] eqn:Hraw; [|destruct (result_arm ops mem_size nm) as [c|] eqn:Hres].
    + eapply wp_seq; [eapply wp_mono; [by apply (framed_raw_arm _ _ Hraw)|done|done]|].
      intros raw d1 H1. cbv beta in *. apply wp_bind, wp_modify.
      eapply wp_mono; [by apply (traced_spec nm d d1)|done|done].
    + eapply wp_seq; [eapply wp_mono; [by apply (framed_result_arm _ _ Hres)|done|done]|].
      intros res d1 H1. cbv beta in *. eapply wp_seq.
      { eapply wp_mono; [apply finish_spec; eauto using grows_sane|done|].
        intros d2 H2. apply Herr. exact (transitivity H1 H2). }
      intros [] d2 (d3 & v & H3 & ->). eapply wp_mono; [apply (traced_spec nm d d3)|done|done]; try done.
      exact (transitivity H1 H3).
    + apply wp_fail, Herr. reflexivity.
Qed.

(** What a call that failed with error [e] reports in a buffer of [cap] bytes: a prefix of
    the text and a NUL, the whole text when it fits. *)
Definition reports (txt : list Z) (cap : Z) (bytes : list Z) : Prop :=
  if 0 <? cap
  then ∃ bs, bytes = bs ++ [0] ∧ bs `prefix_of` txt ∧ len bytes ≤ cap ∧ (len txt < cap → bs = txt)
  else bytes = [].

Lemma error_bytes_report txt cap : reports txt cap (error_bytes txt cap).
Proof.
  unfold reports, error_bytes. destruct (0 <? cap) eqn:Hc; [|done].
  set (n := Z.to_nat (Z.min (len txt) (cap - 1))). pose proof (len_nonneg txt).
  exists (take n txt). split_and!; [done| | |].
  - exists (drop n txt). by rewrite take_drop.
  - unfold len in *. rewrite length_app, length_take. simpl. lia.
  - intros Hl. apply take_ge. unfold len in *. lia.
Qed.

(** The callback's answer, for the context [d] with the call's memory and mailbox. *)
Lemma host_dispatch_leaves text cap d :
  sane d →
  let nm := default "?" (name root d.(d_mb).(mb_fn_id)) in
  ∃ ok bytes d', host_dispatch ops root mem_size false text cap d = (Ok (ok, bytes), d') ∧
    left_by nm ok d d' ∧ if ok then bytes = [] else ∃ e, reports (text e) cap bytes.
Proof.
  intros Hd nm. pose proof (dispatch_leaves d Hd) as Hl. fold nm in Hl. unfold wp in Hl.
  unfold host_dispatch. destruct (dispatch ops root mem_size d) as [[[]|e|w] d'] eqn:E; [| |done].
  - by exists true, [], d'.
  - exists false, (error_bytes (text e) cap), d'. eauto using error_bytes_report.
Qed.

(** C24. A host call in a context with a memory and the mailbox's arguments ([sane]),
    whatever the arguments are and whatever the host does, does not read or write
    outside the guest's memory and does not panic. It adds itself to the list of
    calls, keeps the table of relative objects (which can only grow), and leaves the
    guest's memory alone unless it unpacks a map. When it fails, the mailbox and the
    trace are untouched, and the callback writes a prefix of the error's text and a
    NUL within the caller's buffer, the whole text when it fits. When it succeeds, the
    mailbox has exactly one result, and the trace has exactly one entry more, which
    holds the call's arguments and that result; only [map_unpack_to_linear_memory],
    which writes to the guest's memory, adds no entry to the trace. *)
Theorem host_dispatch_spec text cap d :
  sane d →
  ∃ ok bytes d', host_dispatch ops root mem_size false text cap d = (Ok (ok, bytes), d') ∧
    left_by (default "?" (name root d.(d_mb).(mb_fn_id))) ok d d' ∧
    if ok then bytes = [] else ∃ e, reports (text e) cap bytes.
Proof. apply host_dispatch_leaves. Qed.

(** C26. Values written to the guest's memory come back: as long as they fit in the memory
    and the table of relative objects stays within 2^31 entries, [write_vals] succeeds,
    and [read_vals] of the same place, with the table then or as it grows later, returns
    the same host values, objects included. *)
Theorem write_read_vals pos vals d :
  0 ≤ pos → pos + len vals * 8 ≤ mem_size → sane d → len d.(d_rel) + len vals ≤ 2 ^ 31 →
  Forall (fun v => 0 ≤ v < 2 ^ 64) vals →
  ∃ d', write_vals mem_size pos vals d = (Ok tt, d') ∧
    ∀ d2, d'.(d_rel) `prefix_of` d2.(d_rel) → d2.(d_mem) = d'.(d_mem) →
      read_vals mem_size pos (len vals) d2 = (Ok vals, d2).
Proof.
  intros Hp Hl [Hm _] Hr Hv. unfold write_vals, read_vals. rewrite (proj2 (Z.ltb_ge _ _)) by done.
  destruct (vals_write_spec vals pos d) as (d' & Hw & _ & _ & _ & Hread); [lia..|done|].
  exists d'. split; [done|]. intros d2 Hr2 Hm2. unfold len. rewrite Nat2Z.id. by apply Hread.
Qed.

(** C27. The handle of an object a host call returns leads back to that object, in that
    state and in every later one: the result word is a valid relative handle, and decoding
    it yields the host's object. *)
Theorem result_decodes v d :
  0 ≤ v < 2 ^ 64 → len d.(d_rel) < 2 ^ 31 → d.(d_mb).(mb_results) ≠ [] →
  ∃ d' r, finish (Some v) d = (Ok tt, d') ∧ d'.(d_mb).(mb_results) !! 0%nat = Some r ∧
    d'.(d_mb).(mb_n_results) = 1 ∧
    ∀ d2, d'.(d_rel) `prefix_of` d2.(d_rel) → decode_val r d2 = (Ok v, d2).
Proof.
  intros Hv Hl Hres. destruct (to_relative_spec v d Hv Hl) as (r & d1 & Er & _ & _ & _ & _ & Habs).
  destruct (to_relative_only _ _ _ _ Er) as [rel Hd1].
  assert (d1.(d_mb) = d.(d_mb)) as Hb by by subst d1.
  assert ((if is_object v then to_relative v else mret v) d = (Ok r, d1)) as Ef.
  { revert Er. unfold to_relative. by destruct (is_object v). }
  exists (set_result r d1), r. cbn [finish]. split_and!.
  - unfold mbind, St_bind. by rewrite Ef.
  - simpl. rewrite Hb. destruct (mb_results _); [done|]. done.
  - done.
  - intros d2 Hpre. unfold decode_val. by rewrite Habs.
Qed.

(** ** Words *)

(** The mask of the low bits of the body does not matter: the number is the upper half. *)
Lemma decode_u32_upper raw :
  0 ≤ raw < 2 ^ 64 → get_tag raw = tag_u32 → decode_u32 raw = Ok (raw / 2 ^ 32).
Proof.
  intros Hr Ht. unfold decode_u32. rewrite Ht, Z.eqb_refl. simpl negb. cbv iota zeta. f_equal.
  rewrite Z.shiftr_land, Z.shiftr_shiftr by lia. change (8 + 24) with 32.
  change (Z.shiftr (u64 (Z.lnot (Z.shiftl 1 24 - 1))) 24) with (Z.ones 40).
  rewrite Z.land_ones, Z.shiftr_div_pow2 by lia.
  assert (0 ≤ raw / 2 ^ 32 < 2 ^ 32) by (split; [apply Z.div_pos|apply Z.div_lt_upper_bound]; lia).
  rewrite (Z.mod_small _ (2 ^ 40)) by lia. by apply u32_id.
Qed.

(** A number passed as a [U32Val] is decoded unchanged, and a word with any other
    tag is refused. *)
Theorem decode_u32_roundtrip n raw :
  0 ≤ n < 2 ^ 32 → get_tag raw ≠ tag_u32 →
  decode_u32 (u32_val n) = Ok n ∧ decode_u32 raw = Err (msg "expected U32Val, got {:?}").
Proof.
  intros Hn Hraw. pose proof tag_u32_range. split.
  - rewrite u32_payload by done. rewrite decode_u32_upper.
    + f_equal. rewrite Z.div_add_l, Z.div_small by lia. lia.
    + lia.
    + apply u32_tag. unfold u8. change (2 ^ 32) with (2 ^ 24 * 2 ^ 8). rewrite Z.mul_assoc.
      rewrite Z.add_comm, Z.mod_add, Z.mod_small by lia. done.
  - unfold decode_u32. by rewrite (proj2 (Z.eqb_neq _ _) Hraw).
Qed.

(** ** The bound of the table *)

(** [checked_shl] by one never fails: at 2^31 objects and more the handle wraps, and
    is the handle of the object 2^31 entries before. *)
Theorem relative_handle_wraps i :
  0 ≤ i < 2 ^ 31 → index_to_relative_handle (i + 2 ^ 31) = index_to_relative_handle i.
Proof.
  intros Hi. unfold index_to_relative_handle, checked_shl.
  rewrite !(proj2 (Z.leb_gt _ _)) by lia. simpl. f_equal. rewrite !Z.shiftl_mul_pow2 by lia.
  unfold u32. replace ((i + 2 ^ 31) * 2 ^ 1) with (i * 2 ^ 1 + 1 * 2 ^ 32) by lia.
  apply Z.mod_add. lia.
Qed.
End facts.

(** ** A representation that meets the laws *)

(** The layout of [Val]: the tag in the low byte, the objects' tags from 64 to 77, a
    handle or a number in the upper half. *)
#[local] Instance sample_val : ValRepr := {
  get_tag v := if (u8 v <=? 14) || ((64 <=? u8 v) && (u8 v <=? 77)) then u8 v else 127;
  is_object v := (64 <=? u8 v) && (u8 v <=? 77);
  get_handle v := u32 (Z.shiftr v 32);
  from_handle_and_tag h t := h * 2 ^ 32 + u8 t;
  tag_u32 := 4;
  void_val := 2;
  u32_val n := n * 2 ^ 32 + 4;
  is_map v := u8 v =? 76;
  is_vec v := u8 v =? 75;
  is_i128 v := u8 v =? 69;
  is_address v := u8 v =? 77 }.

Lemma word_parts h t :
  0 ≤ h < 2 ^ 32 → 0 ≤ t < 2 ^ 8 → u8 (h * 2 ^ 32 + t) = t ∧ u32 (Z.shiftr (h * 2 ^ 32 + t) 32) = h.
Proof.
  intros Hh Ht. split.
  - unfold u8. change (2 ^ 32) with (2 ^ 24 * 2 ^ 8). rewrite Z.mul_assoc.
    rewrite Z.add_comm, Z.mod_add, Z.mod_small by lia. done.
  - rewrite Z.shiftr_div_pow2, Z.div_add_l, Z.div_small by lia. rewrite Z.add_0_r. by apply u32_id.
Qed.

#[local] Instance sample_laws : ValLaws.
Proof.
  split.
  - intros v h Ho Hh. pose proof (Z.mod_pos_bound v (2 ^ 8)) as Hb. cbn in Ho |- *. fold (u8 v) in Hb.
    rewrite Ho, orb_true_r. replace (u8 (u8 v)) with (u8 v) by (unfold u8; by rewrite Z.mod_mod).
    destruct (word_parts h (u8 v)) as [-> ->]; [done|lia|]. rewrite Ho, orb_true_r. split_and!; try done; lia.
  - done.
  - intros v. cbn. destruct (_ || _) eqn:Ht; [done|]. split; [done|]. intros Hv. by rewrite Hv in Ht.
  - simpl. lia.
Qed.

(** A host that answers every call with the same object. *)
Definition sample_host : HostOps unit :=
  let v := 5 * 2 ^ 32 + 69 in
  let ret {A} (a : A) : HostCall unit A := fun h => (inl a, h) in
  mkHostOps unit (fun _ => ret v) (fun _ => ret v) (fun _ => ret v) (fun _ _ => ret v)
    (fun _ _ vs => ret vs) (fun _ _ => ret v) (fun _ _ => ret v) (fun _ _ _ => ret tt)
    (fun _ _ _ _ => ret tt) (fun _ _ => ret tt) (fun _ _ => ret tt) (ret v) (fun _ _ => ret v)
    (fun _ => ret 7) (fun _ => ret 7) (fun _ => ret tt) (fun _ => ret v) (fun _ => ret v)
    (fun _ => ret []) (fun _ _ => None).

Definition sample_env : list EnvMod := [mkEnvMod "i" [mkEnvFn "6" "obj_from_i128_pieces"]].

Definition sample_state (fn_id : Z) : DState unit :=
  mkD tt (replicate 24 0) [] [] [] (mkMailbox fn_id 2 0 (replicate 16 0) [0]).

Lemma write_read_vals_witness :
  ∃ d', write_vals 24 8 [3 * 2 ^ 32 + 69; 2] (sample_state 0) = (Ok tt, d') ∧
    read_vals 24 8 2 d' = (Ok [3 * 2 ^ 32 + 69; 2], d').
Proof.
  destruct (write_read_vals 24 8 [3 * 2 ^ 32 + 69; 2] (sample_state 0)) as (d' & Hw & Hr).
  - lia.
  - by vm_compute.
  - by split_and!; vm_compute.
  - by vm_compute.
  - repeat constructor; lia.
  - exists d'. split; [done|]. by apply Hr.
Defined.

Lemma result_decodes_witness :
  ∃ d' r, finish (Some (3 * 2 ^ 32 + 69)) (sample_state 0) = (Ok tt, d') ∧
    decode_val r d' = (Ok (3 * 2 ^ 32 + 69), d').
Proof.
  destruct (result_decodes (3 * 2 ^ 32 + 69) (sample_state 0)) as (d' & r & Hf & _ & _ & Hd).
  - lia.
  - by vm_compute.
  - done.
  - exists d', r. split; [done|]. by apply Hd.
Defined.

Lemma host_dispatch_spec_witness :
  ∃ d', host_dispatch sample_host sample_env 24 false (fun _ => []) 3 (sample_state 0) = (Ok (true, []), d') ∧
    left_by "obj_from_i128_pieces" true (sample_state 0) d'.
Proof.
  destruct (host_dispatch_spec sample_host sample_env 24 (fun _ => []) 3 (sample_state 0))
    as (ok & bytes & d' & Hd & Hl & Hb).
  - by split_and!; vm_compute.
  - assert (ok = true) as ->.
    { transitivity (match (host_dispatch sample_host sample_env 24 false (fun _ => []) 3
        (sample_state 0)).1 with Ok (b, _) => b | _ => false end); [by rewrite Hd|by vm_compute]. }
    subst bytes. exists d'. split; [exact Hd|exact Hl].
Defined.

Lemma decode_u32_roundtrip_witness :
  decode_u32 (u32_val 9) = Ok 9 ∧ decode_u32 69 = Err (msg "expected U32Val, got {:?}").
Proof. apply (decode_u32_roundtrip 9 69); [lia|by vm_compute]. Defined.

Lemma relative_handle_wraps_witness : index_to_relative_handle (2 ^ 31) = Ok 0.
Proof. rewrite (relative_handle_wraps 0 : _ → index_to_relative_handle (2 ^ 31) = _); [done|lia]. Defined.
