(* ===== verification/BTree.v ===== *)
(** * Counting maps and stable sorting

    What the tools use of [std::collections::BTreeMap] and of [slice::sort_by]: maps
    from ordered keys to counters, bumped by [*m.entry(k).or_default() += 1] and then
    read in key order, and stable sorting.  A map is the list of its entries in key
    order. *)

From S2P Require Import Prelude.
From stdpp Require Import base list strings sorting.

Local Open Scope Z_scope.

(** ** Orders *)

(** [Ord::cmp]. *)
Class KeyOrder {K} (cmp : K → K → comparison) : Prop := {
  cmp_eq a b : cmp a b = Eq ↔ a = b;
  cmp_opp a b : cmp b a = CompOpp (cmp a b);
  cmp_trans a b c : cmp a b = Lt → cmp b c = Lt → cmp a c = Lt }.

(** Lexicographic comparison of the bytes of two strings, and of pairs. *)
Definition str_cmp (a b : string) : comparison := String.compare a b.

Definition pair_cmp {A B} (ca : A → A → comparison) (cb : B → B → comparison) (x y : A * B) :
    comparison :=
  match ca x.1 y.1 with Eq => cb x.2 y.2 | c => c end.

Lemma ascii_cmp_eq a b : Ascii.compare a b = Eq ↔ a = b.
Proof.
  unfold Ascii.compare. rewrite N.compare_eq_iff. split; [|by intros ->].
  intros H. by rewrite <-(Ascii.ascii_N_embedding a), <-(Ascii.ascii_N_embedding b), H.
Qed.

#[export] Instance str_order : KeyOrder str_cmp.
Proof.
  split; unfold str_cmp.
  - intros a b. split; [apply String.compare_eq_iff|intros ->].
    induction b as [|c b IH]; simpl; [done|]. by rewrite (proj2 (ascii_cmp_eq c c) eq_refl).
  - intros a b. apply String.compare_antisym.
  - induction a as [|x a IH]; intros [|y b] [|z c]; simpl; try done.
    destruct (Ascii.compare x y) eqn:E1; [apply ascii_cmp_eq in E1 as ->| |done].
    + destruct (Ascii.compare y z); eauto.
    + intros _. destruct (Ascii.compare y z) eqn:E2; [apply ascii_cmp_eq in E2 as ->; by rewrite E1| |done].
      unfold Ascii.compare in *. rewrite N.compare_lt_iff in *. by rewrite (proj2 (N.compare_lt_iff _ _)) by lia.
Qed.

#[export] Instance Z_order : KeyOrder Z.compare.
Proof.
  split.
  - apply Z.compare_eq_iff.
  - intros. apply Z.compare_antisym.
  - intros a b c. rewrite !Z.compare_lt_iff. lia.
Qed.

#[export] Instance pair_order {A B} ca cb `{!@KeyOrder A ca, !@KeyOrder B cb} :
  KeyOrder (pair_cmp ca cb).
Proof.
  split; unfold pair_cmp.
  - intros [a b] [a' b']; simpl. destruct (ca a a') eqn:E.
    + apply cmp_eq in E as ->. rewrite cmp_eq. split; [by intros ->|by intros [= ->]].
    + split; [done|]. intros [= -> ->]. by rewrite (proj2 (cmp_eq a' a') eq_refl) in E.
    + split; [done|]. intros [= -> ->]. by rewrite (proj2 (cmp_eq a' a') eq_refl) in E.
  - intros [a b] [a' b']; simpl. rewrite (cmp_opp a a'). destruct (ca a a'); simpl; [apply cmp_opp|done..].
  - intros [a b] [a' b'] [a'' b'']; simpl.
    destruct (ca a a') eqn:E1; [apply cmp_eq in E1 as ->| |done].
    + destruct (ca a' a''); [apply cmp_trans|done..].
    + intros _. destruct (ca a' a'') eqn:E2; [apply cmp_eq in E2 as ->; by rewrite E1| |done].
      by rewrite (cmp_trans _ _ _ E1 E2).
Qed.

Lemma cmp_refl {K} cmp `{!@KeyOrder K cmp} a : cmp a a = Eq.
Proof. by apply cmp_eq. Qed.

(** ** Counters *)

(** The additions of a counter's type: [u32] or [u64]. *)
Class Counter (w : Z → Z) : Prop := {
  w_add a b : w (w a + b) = w (a + b);
  w_zero : w 0 = 0 }.

#[export] Instance u64_counter : Counter u64.
Proof. split; [|done]. intros. unfold u64. by rewrite Zplus_mod_idemp_l. Qed.
#[export] Instance u32_counter : Counter u32.
Proof. split; [|done]. intros. unfold u32. by rewrite Zplus_mod_idemp_l. Qed.

Lemma w_add_r w `{!Counter w} a b : w (a + w b) = w (a + b).
Proof. rewrite (Z.add_comm a (w b)), (Z.add_comm a b). apply w_add. Qed.

Lemma w_idem w `{!Counter w} a : w (w a) = w a.
Proof. pose proof (w_add a 0) as H. by rewrite !Z.add_0_r in H. Qed.

Section btree.
Context {K : Type} (cmp : K → K → comparison) (w : Z → Z).
Implicit Types (k : K) (m : list (K * Z)) (ks : list K).

(** [*m.entry(k).or_insert(0) += 1] *)
Fixpoint bump k m : list (K * Z) :=
  match m with
  | [] => [(k, w 1)]
  | (k', n) :: m' =>
      match cmp k k' with
      | Lt => (k, w 1) :: m
      | Eq => (k', w (n + 1)) :: m'
      | Gt => (k', n) :: bump k m'
      end
  end.

(** A count of each key of a list, in the order they come. *)
Definition tally ks : list (K * Z) := foldl (fun m k => bump k m) [] ks.

Fixpoint get_count k m : Z :=
  match m with
  | [] => 0
  | (k', n) :: m' => match cmp k k' with Eq => n | _ => get_count k m' end
  end.

Definition sum_counts m : Z := foldr (fun e s => e.2 + s) 0 m.

(** Keys strictly increase. *)
Definition increasing m : Prop := StronglySorted (fun x y => cmp x.1 y.1 = Lt) m.

Definition occurrences `{!EqDecision K} k ks : Z := len (filter (fun x => x = k) ks).
End btree.

Section facts.
Context {K : Type} {cmp : K → K → comparison} `{!KeyOrder cmp} {w : Z → Z} `{!Counter w}.
Context `{!EqDecision K}.
Implicit Types (k : K) (m : list (K * Z)) (ks : list K).

Lemma bump_keys k m x : x ∈ bump cmp w k m → x.1 = k ∨ ∃ n, (x.1, n) ∈ m.
Proof.
  induction m as [|[k' n] m IH]; simpl; [intros ->%list_elem_of_singleton; by left|].
  destruct (cmp k k') eqn:E.
  - apply cmp_eq in E as ->. intros [->|Hx]%elem_of_cons; [by left|]. right. destruct x. eexists. by right.
  - intros [->|Hx]%elem_of_cons; [by left|]. right. destruct x. by eexists.
  - intros [->|Hx]%elem_of_cons; [right; eexists; by left|].
    destruct (IH Hx) as [|[n' ?]]; [by left|]. right. exists n'. by right.
Qed.

(** Nothing is lost. *)
Lemma bump_elem k k' m : (∃ n, (k, n) ∈ m) ∨ k = k' → ∃ n, (k, n) ∈ bump cmp w k' m.
Proof.
  induction m as [|[k1 n1] m IH]; simpl; [intros [[n ?%elem_of_nil]| ->]; [done|]; eexists; by left|].
  destruct (cmp k' k1) eqn:E.
  - apply cmp_eq in E as ->. intros [[n [[= -> ->]|Hn]%elem_of_cons]| ->]; eexists; [by left|right; exact Hn|by left].
  - intros [[n Hn]| ->]; eexists; [right; exact Hn|by left].
  - intros [[n [[= -> ->]|Hn]%elem_of_cons]|Hk]; [eexists; by left| |]; destruct IH as [n' ?]; eauto; exists n'; by right.
Qed.

Lemma bump_increasing k m : increasing cmp m → increasing cmp (bump cmp w k m).
Proof.
  unfold increasing. induction m as [|[k' n] m IH]; intros Hm; simpl; [repeat constructor|].
  apply StronglySorted_inv in Hm as [Hm Hall]. rewrite Forall_forall in Hall.
  destruct (cmp k k') eqn:E.
  - constructor; [done|]. by apply Forall_forall.
  - constructor; [constructor; [done|by apply Forall_forall]|]. constructor; [done|].
    apply Forall_forall. intros x Hx. apply (cmp_trans _ _ _ E). by apply Hall.
  - constructor; [by apply IH|]. apply Forall_forall. intros x Hx. simpl.
    destruct (bump_keys _ _ _ Hx) as [->|[n' Hn]]; [by rewrite cmp_opp, E|]. apply (Hall _ Hn).
Qed.

(** A key below all others is not in the map. *)
Lemma get_count_below k m :
  Forall (fun x => cmp k x.1 = Lt) m → get_count cmp k m = 0.
Proof. induction 1 as [|[k' n] m Hk _ IH]; simpl; [done|]. simpl in Hk. by rewrite Hk. Qed.

Lemma get_bump k k' m :
  increasing cmp m →
  get_count cmp k (bump cmp w k' m) =
    if decide (k = k') then w (get_count cmp k m + 1) else get_count cmp k m.
Proof.
  unfold increasing. induction m as [|[k1 n] m IH]; intros Hm.
  - simpl. destruct (decide (k = k')) as [->|Hne]; [by rewrite cmp_refl|].
    destruct (cmp k k') eqn:E; [by apply cmp_eq in E|done..].
  - apply StronglySorted_inv in Hm as [Hm Hall]. simpl in Hall |- *.
    destruct (cmp k' k1) eqn:E.
    + apply cmp_eq in E as ->. simpl. destruct (decide (k = k1)) as [->|Hne]; [by rewrite cmp_refl|].
      destruct (cmp k k1) eqn:E'; [by apply cmp_eq in E'|done..].
    + simpl. destruct (decide (k = k')) as [->|Hne].
      * rewrite (cmp_refl cmp), E, (get_count_below k' m); [done|].
        eapply Forall_impl; [exact Hall|]. intros x Hx. by eapply cmp_trans.
      * destruct (cmp k k') eqn:E'; [by apply cmp_eq in E'|done..].
    + simpl. destruct (cmp k k1) eqn:E'; [|by apply IH..].
      apply cmp_eq in E' as ->. destruct (decide (k1 = k')) as [->|]; [|done].
      by rewrite cmp_refl in E.
Qed.

Lemma sum_bump k m : w (sum_counts (bump cmp w k m)) = w (sum_counts m + 1).
Proof.
  induction m as [|[k' n] m IH]; simpl; [by rewrite Z.add_0_r, w_idem|].
  destruct (cmp k k'); simpl.
  - rewrite w_add. f_equal. lia.
  - rewrite w_add. f_equal. lia.
  - rewrite <-w_add_r, IH, w_add_r by done. f_equal. lia.
Qed.

Lemma tally_snoc ks k : tally cmp w (ks ++ [k]) = bump cmp w k (tally cmp w ks).
Proof. unfold tally. by rewrite foldl_app. Qed.

Lemma tally_increasing ks : increasing cmp (tally cmp w ks).
Proof.
  induction ks as [|k ks IH] using rev_ind; [constructor|]. rewrite tally_snoc.
  by apply bump_increasing.
Qed.

(** The counter of a key is the number of its occurrences. *)
Lemma get_tally k ks : get_count cmp k (tally cmp w ks) = w (occurrences k ks).
Proof.
  induction ks as [|k' ks IH] using rev_ind; [by rewrite w_zero|].
  rewrite tally_snoc, get_bump by apply tally_increasing. unfold occurrences in *.
  rewrite filter_app, len_app. destruct (decide (k = k')) as [->|Hne].
  - rewrite IH, w_add. unfold len at 3. by rewrite filter_cons_True.
  - rewrite IH. unfold len at 3. rewrite filter_cons_False by congruence. simpl. by rewrite Z.add_0_r.
Qed.

Lemma sum_tally ks : w (sum_counts (tally cmp w ks)) = w (len ks).
Proof.
  induction ks as [|k ks IH] using rev_ind; [done|].
  rewrite tally_snoc, sum_bump, <-w_add, IH, w_add, len_app by done. done.
Qed.

Lemma tally_keys ks x : x ∈ tally cmp w ks → x.1 ∈ ks.
Proof.
  revert x. induction ks as [|k ks IH] using rev_ind; intros x; [by intros ?%elem_of_nil|].
  rewrite tally_snoc, elem_of_app. intros [->|[n Hn]]%bump_keys; [right; by left|].
  left. by apply IH in Hn.
Qed.
End facts.

(** ** Stable sorting *)

Lemma StronglySorted_weaken {A} (R R' : A → A → Prop) l :
  (∀ a b, R a b → R' a b) → StronglySorted R l → StronglySorted R' l.
Proof.
  intros HR. induction 1 as [|x l _ IH Hall]; constructor; [done|].
  eapply Forall_impl; [exact Hall|]. auto.
Qed.

Section sort.
Context {A : Type} (gt : A → A → bool).

(** [v.sort_by(f)], where [gt a b] is [f(a, b) == Greater]: before the first element
    that does not precede it, so that equal elements keep their order. *)
Fixpoint insert_by (x : A) (l : list A) : list A :=
  match l with
  | [] => [x]
  | y :: l' => if gt x y then y :: insert_by x l' else x :: l
  end.

Definition sort_by (l : list A) : list A := foldr insert_by [] l.

Lemma insert_by_perm x l : insert_by x l ≡ₚ x :: l.
Proof.
  induction l as [|y l IH]; simpl; [done|]. destruct (gt x y); [|done]. rewrite IH. constructor.
Qed.

Lemma sort_by_perm l : sort_by l ≡ₚ l.
Proof. induction l as [|x l IH]; simpl; [done|]. by rewrite insert_by_perm, IH. Qed.

Context (Htrans : ∀ a b c, gt a b = true → gt b c = true → gt a c = true)
  (Hneg : ∀ a b c, gt a b = false → gt b c = false → gt a c = false)
  (Hasym : ∀ a b, gt a b = true → gt b a = false).

Lemma sort_by_sorted l : StronglySorted (fun a b => gt a b = false) (sort_by l).
Proof using Hneg Hasym.
  induction l as [|x l IH]; simpl; [constructor|]. revert IH. generalize (sort_by l). clear l.
  induction l as [|y l IH]; intros Hl; simpl; [repeat constructor|].
  apply StronglySorted_inv in Hl as [Hl Hall]. destruct (gt x y) eqn:E.
  - constructor; [by apply IH|]. rewrite insert_by_perm. constructor; [by apply Hasym|done].
  - constructor; [by constructor|]. constructor; [done|].
    eapply Forall_impl; [exact Hall|]. intros z Hz. by eapply Hneg.
Qed.

(** Elements that compare equal stay in the order they had. *)
Lemma sort_by_stable (P : A → Prop) `{!∀ x, Decision (P x)} l :
  (∀ a b, P a → P b → gt a b = false) → filter P (sort_by l) = filter P l.
Proof using Type.
  intros HP. induction l as [|x l IH]; simpl; [done|].
  assert (∀ l, filter P (insert_by x l) = filter P (x :: l)) as Hins.
  { clear l IH. induction l as [|y l IH]; simpl; [done|]. destruct (gt x y) eqn:E; [|done].
    rewrite !filter_cons in *. destruct (decide (P x)), (decide (P y)); try (by rewrite IH).
    by rewrite HP in E. }
  rewrite Hins, !filter_cons, IH. done.
Qed.
End sort.
