(* ===== verification/Profile.v ===== *)
(** * Opcode profiles

    The counters the interpreter keeps when it is given a [RunProfile]
    ([include/cuwasm/interp.h], [include/cuwasm/cuop.h]), the profiled driver, and
    [tools/contract-tests/src/bin/emit-profiles.rs], which merges the profiles of
    several runs into a report. *)

From S2P Require Import Prelude Cuop Wasm Lower EnvTable Module Engine Dispatch BTree.
From stdpp Require Import base list strings sorting.

Local Open Scope Z_scope.

(** ** Counting in the interpreter *)

Definition CUWASM_OP_COUNT : Z := OP_CLZ + 1.

Record RunProfile := mkProfile {
  opcode_counts : list Z;
  unsupported_opcode_counts : list Z;
  total_ops : Z }.

Definition empty_profile : RunProfile :=
  mkProfile (replicate (Z.to_nat CUWASM_OP_COUNT) 0) (replicate (Z.to_nat CUWASM_OP_COUNT) 0) 0.

(** [counts[op]++] on [uint64_t]. *)
Definition inc_at (op : Z) (l : list Z) : list Z := alter (fun n => u64 (n + 1)) (Z.to_nat op) l.

(** After the fetch. *)
Definition count_op (op : Z) (P : RunProfile) : RunProfile :=
  if op <? CUWASM_OP_COUNT
  then mkProfile (inc_at op P.(opcode_counts)) P.(unsupported_opcode_counts) (u64 (P.(total_ops) + 1))
  else P.

(** The opcodes the switch has a case for. *)
Definition handled (M : HostModule) (in_ : CuOpC) : bool :=
  bool_decide (is_Some (exec_alu in_.(cu_op))) || bool_decide (is_Some (exec_wide in_)) ||
  bool_decide (is_Some (exec_var M in_)) || bool_decide (is_Some (exec_control M in_)) ||
  bool_decide (is_Some (exec_memory M in_)).

(** In the default case. *)
Definition count_unsupported (M : HostModule) (in_ : CuOpC) (P : RunProfile) : RunProfile :=
  if negb (handled M in_) && (in_.(cu_op) <? CUWASM_OP_COUNT)
  then mkProfile P.(opcode_counts) (inc_at in_.(cu_op) P.(unsupported_opcode_counts)) P.(total_ops)
  else P.

(** What one iteration of the interpreter's loop adds. *)
Definition note (M : HostModule) (m : Machine) (P : RunProfile) : RunProfile :=
  match index M.(hm_code) m.(pc) with
  | Some in_ => count_unsupported M in_ (count_op in_.(cu_op) P)
  | None => P
  end.

Fixpoint run_instance_p (M : HostModule) (max_steps : nat) (m : Machine) (P : RunProfile) :
    run_end * Machine * RunProfile :=
  match max_steps with
  | O => (OutOfSteps, m, P)
  | S n =>
      match step M m with
      | (Val _, m') => run_instance_p M n m' (note M m P)
      | (Trap s, m') => (Stopped s, m', note M m P)
      | (UB w, m') => (Undefined w, m', note M m P)
      end
  end.

(** The driver, handing the profile to every call of the interpreter. *)
Fixpoint drive_p {W} (M : HostModule) (host : HostFn W) (max_steps : nat) (nres : Z) (rounds : nat)
    (w : W) (m : Machine) (P : RunProfile) : RunResult * HostModule * W * RunProfile :=
  match rounds with
  | O => (NotYet, shared M m M.(hm_mem_size), w, P)
  | S r =>
      match run_instance_p M max_steps (upd_msize M.(hm_mem_size) m) P with
      | (Undefined e, m1, P1) => (Corrupted e, shared M m1 M.(hm_mem_size), w, P1)
      | (OutOfSteps, m1, P1) => drive_p M host max_steps nres r w m1 P1
      | (Stopped ST_HOSTCALL_PENDING, m1, P1) =>
          let '(ok, box, mem, w1) := host m1.(mb) m1.(memory) w in
          let m1 := upd_memory mem (upd_mb box m1) in
          if negb ok then (Finished ST_UNSUPPORTED_OP [], shared M m1 M.(hm_mem_size), w1, P1)
          else
            match push_results 0 (Z.to_nat box.(mb_n_results)) m1 with
            | (Val _, m2) => drive_p M host max_steps nres r w1 m2 P1
            | (Trap s, m2) => (Finished s [], shared M m2 M.(hm_mem_size), w1, P1)
            | (UB e, m2) => (Corrupted e, shared M m2 M.(hm_mem_size), w1, P1)
            end
      | (Stopped ST_OK, m1, P1) =>
          (Finished ST_OK (take (Z.to_nat nres) m1.(stack)), shared M m1 m1.(msize), w, P1)
      | (Stopped s, m1, P1) => (Finished s [], shared M m1 m1.(msize), w, P1)
      end
  end.

Definition run_cpu_p {W} (M : HostModule) (func_idx : Z) (args : list Z) (max_steps : nat)
    (host : HostFn W) (rounds : nat) (w : W) (P : RunProfile) :
    RunResult * HostModule * W * RunProfile :=
  match index M.(hm_funcs) func_idx with
  | None => (Finished ST_UNSUPPORTED_OP [], M, w, P)
  | Some f =>
      if negb (len args =? f.(fm_n_params)) then (Finished ST_UNSUPPORTED_OP [], M, w, P)
      else
        match boot M f args with
        | (Val _, m) => drive_p M host max_steps f.(fm_n_results) rounds w m P
        | (Trap s, m) => (Finished s [], shared M m M.(hm_mem_size), w, P)
        | (UB e, m) => (Corrupted e, shared M m M.(hm_mem_size), w, P)
        end
  end.

(** ** Merging (emit-profiles.rs) *)

Definition opcode_names : list string :=
  [ "unreachable"; "i64.const"; "local.get"; "local.set"; "i64.add"; "i64.sub"; "i64.eq";
    "i64.eqz"; "i64.le_s"; "i64.lt_s"; "br"; "br_if_not"; "call"; "return_call"; "return";
    "end"; "drop"; "select"; "i32.eqz"; "i32.eq"; "i32.ne"; "i32.lt_s"; "i32.lt_u";
    "i32.le_s"; "i32.le_u"; "i32.gt_s"; "i32.gt_u"; "i32.ge_s"; "i32.ge_u"; "i32.add";
    "i32.sub"; "i32.mul"; "i32.and"; "i32.or"; "i32.xor"; "i32.div_s"; "i32.div_u";
    "i32.rem_s"; "i32.rem_u"; "i32.shl"; "i32.shr_s"; "i32.shr_u"; "i32.wrap_i64";
    "i64.ne"; "i64.lt_u"; "i64.le_u"; "i64.gt_s"; "i64.gt_u"; "i64.ge_s"; "i64.ge_u";
    "i64.mul"; "i64.and"; "i64.or"; "i64.xor"; "i64.div_s"; "i64.div_u"; "i64.rem_s";
    "i64.rem_u"; "i64.shl"; "i64.shr_s"; "i64.shr_u"; "i64.extend_i32_s";
    "i64.extend_i32_u"; "global.get"; "global.set"; "unwind"; "i64.mul_wide_s";
    "i64.mul_wide_u"; "i64.add128"; "i64.sub128"; "load"; "store"; "memory.size";
    "memory.grow"; "memory.copy"; "memory.fill"; "memory.init"; "data.drop"; "call_host";
    "call_indirect"; "i32.clz" ].

Record HostCallEntry := mkHostCall { hc_name : string; hc_arg_count : Z; hc_count : Z }.
Record OpcodeEntry := mkOpcode { oe_op : string; oe_count : Z }.

Record ScenarioProfile := mkScenario {
  sp_export : string;
  sp_host_calls : list HostCallEntry;
  sp_host_calls_total : Z;
  sp_opcodes : list OpcodeEntry;
  sp_opcodes_total : Z;
  sp_unsupported : list OpcodeEntry }.

(** [RunProfileOut] of the harness; the counters are those of the engine's profile. *)
Record RunProfileOut := mkRunOut {
  po_host_calls : list (string * Z);
  po_traces : list HostCallTrace;
  po_profile : RunProfile }.

(** The loop's locals. *)
Record MergeState := mkMerge {
  host_map : list ((string * Z) * Z);
  op_map : list Z;
  uns_map : list Z;
  host_total : Z;
  op_total : Z }.

Definition add_counts (x y : list Z) : list Z := zip_with (fun a b => u64 (a + b)) x y.

Definition host_key_cmp : string * Z → string * Z → comparison := pair_cmp str_cmp Z.compare.

Definition merge_step (s : MergeState) (p : RunProfileOut) : MergeState :=
  mkMerge
    (foldl (fun m k => bump host_key_cmp u64 k m) s.(host_map) p.(po_host_calls))
    (add_counts s.(op_map) p.(po_profile).(opcode_counts))
    (add_counts s.(uns_map) p.(po_profile).(unsupported_opcode_counts))
    (foldl (fun n _ => u64 (n + 1)) s.(host_total) p.(po_host_calls))
    (u64 (s.(op_total) + p.(po_profile).(total_ops))).

Definition merge_start : MergeState :=
  mkMerge [] (replicate (Z.to_nat CUWASM_OP_COUNT) 0) (replicate (Z.to_nat CUWASM_OP_COUNT) 0) 0 0.

(** [.enumerate().filter(c > 0).map(name, c)], from index [i]. *)
Fixpoint entries (i : nat) (counts : list Z) : list OpcodeEntry :=
  match counts with
  | [] => []
  | c :: counts' =>
      if 0 <? c then mkOpcode (default "?" (opcode_names !! i)) c :: entries (S i) counts'
      else entries (S i) counts'
  end.

(** [b.count.cmp(&a.count) == Greater] *)
Definition less_frequent (a b : OpcodeEntry) : bool := a.(oe_count) <? b.(oe_count).

Definition merge_profiles (profiles : list RunProfileOut) :
    list HostCallEntry * list OpcodeEntry * list OpcodeEntry * Z * Z :=
  let s := foldl merge_step merge_start profiles in
  ((fun e => mkHostCall e.1.1 e.1.2 e.2) <$> s.(host_map),
   sort_by less_frequent (entries 0 s.(op_map)),
   entries 0 s.(uns_map), s.(host_total), s.(op_total)).

Definition scenario (export : string) (profiles : list RunProfileOut) : ScenarioProfile :=
  let '(host_calls, opcodes, unsupported_opcodes, host_calls_total, opcodes_total) :=
    merge_profiles profiles in
  mkScenario export host_calls host_calls_total opcodes opcodes_total unsupported_opcodes.
