(* ===== verification/ProfileFacts.v ===== *)
(** * Opcode profiles: what the counters mean

    Profiling does not change a run, the counters of a run add up, and the merged
    report accounts for every host call and every executed op. *)

From S2P Require Import Prelude Cuop Wasm Lower EnvTable Module Engine BTree Profile.
From S2P Require Import EngineSlice.
From stdpp Require Import base list strings sorting.

Local Open Scope Z_scope.

(** ** The interpreter's counters *)

Definition sumZ (l : list Z) : Z := foldr Z.add 0 l.
Arguments sumZ : simpl never.

Lemma sumZ_cons x l : sumZ (x :: l) = x + sumZ l.
Proof. done. Qed.

(** Every array has a slot per opcode, no supported opcode was counted as
    unsupported, and the counts add up to the total. *)
Record profile_ok (P : RunProfile) : Prop := {
  pf_len : length P.(opcode_counts) = Z.to_nat CUWASM_OP_COUNT;
  pf_uns : P.(unsupported_opcode_counts) = replicate (Z.to_nat CUWASM_OP_COUNT) 0;
  pf_sum : u64 (sumZ P.(opcode_counts)) = P.(total_ops) }.

Lemma empty_profile_ok : profile_ok empty_profile.
Proof. by split. Qed.

Lemma sum_inc op l : (Z.to_nat op < length l)%nat → u64 (sumZ (inc_at op l)) = u64 (sumZ l + 1).
Proof.
  unfold inc_at. generalize (Z.to_nat op). clear op. induction l as [|x l IH]; intros [|n] Hn;
    simpl in *; [lia|lia| |]; rewrite !sumZ_cons.
  - rewrite (w_add (w := u64)). f_equal. lia.
  - rewrite <-(w_add_r u64). etrans; [apply f_equal, f_equal, (IH n); lia|].
    rewrite (w_add_r u64). f_equal. lia.
Qed.

Lemma handled_all M in_ : 0 ≤ in_.(cu_op) < CUWASM_OP_COUNT → handled M in_ = true.
Proof.
  destruct in_ as [op a b]. simpl. intros Hop.
  assert (Forall (fun op => ∀ a b, handled M (mkCuOp op a b) = true) (seqZ 0 CUWASM_OP_COUNT)) as HF.
  { cbv [seqZ CUWASM_OP_COUNT]. simpl. repeat constructor; intros; vm_compute; reflexivity. }
  rewrite Forall_forall in HF. apply HF, elem_of_seqZ. lia.
Qed.

Section profiled.
Context {W : Type} (M : HostModule) (host : HostFn W).
Hypothesis Hcode : Forall (fun in_ => 0 ≤ in_.(cu_op)) M.(hm_code).

Lemma note_ok m P : profile_ok P → profile_ok (note M m P).
Proof using Hcode.
  intros [Hl Hu Hs]. unfold note. destruct (index _ _) as [in_|] eqn:Hi; [|done].
  assert (0 ≤ in_.(cu_op)) as Hop.
  { unfold index in Hi. destruct (0 <=? _); [|done]. by apply (Forall_lookup_1 _ _ _ _ Hcode Hi). }
  unfold count_unsupported, count_op.
  destruct (in_.(cu_op) <? CUWASM_OP_COUNT) eqn:E; [|by rewrite andb_false_r].
  rewrite handled_all by lia. simpl. split; simpl.
  - unfold inc_at. by rewrite length_alter.
  - done.
  - rewrite sum_inc by (rewrite Hl; lia). rewrite <-Hs. unfold u64. by rewrite Zplus_mod_idemp_l.
Qed.

Lemma run_instance_p_ok n m P :
  (run_instance_p M n m P).1 = run_instance M n m ∧
  (profile_ok P → profile_ok (run_instance_p M n m P).2).
Proof using Hcode.
  revert m P. induction n as [|n IH]; intros m P; simpl; [done|].
  destruct (step M m) as [[u|s|e] m']; [|split; [done|by apply note_ok]..].
  destruct (IH m' (note M m P)) as [? HP]. split; [done|]. intros. by apply HP, note_ok.
Qed.

Lemma drive_p_ok n nres r w m P :
  (drive_p M host n nres r w m P).1 = drive M host n nres r w m ∧
  (profile_ok P → profile_ok (drive_p M host n nres r w m P).2).
Proof using Hcode.
  revert w m P. induction r as [|r IH]; intros w m P; simpl; [done|].
  destruct (run_instance_p_ok n (upd_msize (hm_mem_size M) m) P) as [Hr HP].
  destruct (run_instance_p _ _ _ _) as [[e m1] P1]. simpl in *. rewrite <-Hr.
  destruct e as [|s|e]; [|destruct s; try done|done].
  - destruct (IH w m1 P1) as [? HP1]. split; [done|]. auto.
  - destruct (host _ _ _) as [[[[] box] mem] w1]; simpl; [|done].
    destruct (push_results _ _ _) as [[] m2]; [|done..].
    destruct (IH w1 m2 P1) as [? HP1]. split; [done|]. auto.
Qed.

Lemma run_cpu_p_ok fi args n r w P :
  (run_cpu_p M fi args n host r w P).1 = run_cpu M fi args n host r w ∧
  (profile_ok P → profile_ok (run_cpu_p M fi args n host r w P).2).
Proof using Hcode.
  unfold run_cpu_p, run_cpu. destruct (index _ _) as [f|]; [|done]. destruct (negb _); [done|].
  destruct (boot M f args) as [[] m]; [|done..]. apply drive_p_ok.
Qed.
End profiled.

(** C33. Profiling is transparent and the profile is consistent: a profiled run ends with
    the result, the module and the world of the run without a profile, each array has
    one counter per opcode, the counters add up to [total_ops] in 64 bits, and no
    opcode of the instruction set is ever counted as unsupported, for the switch has a
    case for each. *)
Theorem run_cpu_profile {W} M fi args n (host : HostFn W) r w :
  Forall (fun in_ => 0 ≤ in_.(cu_op)) M.(hm_code) →
  (run_cpu_p M fi args n host r w empty_profile).1 = run_cpu M fi args n host r w ∧
  profile_ok (run_cpu_p M fi args n host r w empty_profile).2.
Proof.
  intros Hc. destruct (run_cpu_p_ok M host Hc fi args n r w empty_profile) as [Hr HP].
  split; [done|]. apply HP, empty_profile_ok.
Qed.

Lemma run_cpu_profile_witness :
  (run_cpu_p down_module 0 [3] 5 no_host 20 tt empty_profile).1 = (Finished ST_OK [0], down_module, tt) ∧
  (run_cpu_p down_module 0 [3] 5 no_host 20 tt empty_profile).2.(total_ops) = 25 ∧
  profile_ok (run_cpu_p down_module 0 [3] 5 no_host 20 tt empty_profile).2.
Proof.
  split; [vm_compute; reflexivity|]. split; [vm_compute; reflexivity|].
  apply (run_cpu_profile down_module 0 [3] 5 no_host 20 tt).
  repeat constructor; vm_compute; discriminate.
Defined.

(** ** The report *)

(** The opcodes and their names. *)
Definition named_ops : list (Z * string) :=
  [ (OP_UNREACHABLE, "unreachable"); (OP_I64_CONST, "i64.const"); (OP_LOCAL_GET, "local.get");
    (OP_LOCAL_SET, "local.set"); (OP_I64_ADD, "i64.add"); (OP_I64_SUB, "i64.sub"); (OP_I64_EQ, "i64.eq");
    (OP_I64_EQZ, "i64.eqz"); (OP_I64_LE_S, "i64.le_s"); (OP_I64_LT_S, "i64.lt_s"); (OP_BR, "br");
    (OP_BR_IF_NOT, "br_if_not"); (OP_CALL, "call"); (OP_RETURN_CALL, "return_call"); (OP_RETURN, "return");
    (OP_END_FUNC, "end"); (OP_DROP, "drop"); (OP_SELECT, "select"); (OP_I32_EQZ, "i32.eqz");
    (OP_I32_EQ, "i32.eq"); (OP_I32_NE, "i32.ne"); (OP_I32_LT_S, "i32.lt_s"); (OP_I32_LT_U, "i32.lt_u");
    (OP_I32_LE_S, "i32.le_s"); (OP_I32_LE_U, "i32.le_u"); (OP_I32_GT_S, "i32.gt_s");
    (OP_I32_GT_U, "i32.gt_u"); (OP_I32_GE_S, "i32.ge_s"); (OP_I32_GE_U, "i32.ge_u"); (OP_I32_ADD, "i32.add");
    (OP_I32_SUB, "i32.sub"); (OP_I32_MUL, "i32.mul"); (OP_I32_AND, "i32.and"); (OP_I32_OR, "i32.or");
    (OP_I32_XOR, "i32.xor"); (OP_I32_DIV_S, "i32.div_s"); (OP_I32_DIV_U, "i32.div_u");
    (OP_I32_REM_S, "i32.rem_s"); (OP_I32_REM_U, "i32.rem_u"); (OP_I32_SHL, "i32.shl");
    (OP_I32_SHR_S, "i32.shr_s"); (OP_I32_SHR_U, "i32.shr_u"); (OP_I32_WRAP_I64, "i32.wrap_i64");
    (OP_I64_NE, "i64.ne"); (OP_I64_LT_U, "i64.lt_u"); (OP_I64_LE_U, "i64.le_u"); (OP_I64_GT_S, "i64.gt_s");
    (OP_I64_GT_U, "i64.gt_u"); (OP_I64_GE_S, "i64.ge_s"); (OP_I64_GE_U, "i64.ge_u"); (OP_I64_MUL, "i64.mul");
    (OP_I64_AND, "i64.and"); (OP_I64_OR, "i64.or"); (OP_I64_XOR, "i64.xor"); (OP_I64_DIV_S, "i64.div_s");
    (OP_I64_DIV_U, "i64.div_u"); (OP_I64_REM_S, "i64.rem_s"); (OP_I64_REM_U, "i64.rem_u");
    (OP_I64_SHL, "i64.shl"); (OP_I64_SHR_S, "i64.shr_s"); (OP_I64_SHR_U, "i64.shr_u");
    (OP_I64_EXTEND_I32_S, "i64.extend_i32_s"); (OP_I64_EXTEND_I32_U, "i64.extend_i32_u");
    (OP_GLOBAL_GET, "global.get"); (OP_GLOBAL_SET, "global.set"); (OP_UNWIND, "unwind");
    (OP_I64_MUL_WIDE_S, "i64.mul_wide_s"); (OP_I64_MUL_WIDE_U, "i64.mul_wide_u");
    (OP_I64_ADD128, "i64.add128"); (OP_I64_SUB128, "i64.sub128"); (OP_LOAD, "load"); (OP_STORE, "store");
    (OP_MEMORY_SIZE, "memory.size"); (OP_MEMORY_GROW, "memory.grow"); (OP_MEMORY_COPY, "memory.copy");
    (OP_MEMORY_FILL, "memory.fill"); (OP_MEMORY_INIT, "memory.init"); (OP_DATA_DROP, "data.drop");
    (OP_CALL_HOST, "call_host"); (OP_CALL_INDIRECT, "call_indirect"); (OP_CLZ, "i32.clz") ].

(** The names of the report are those of the opcodes, by number. *)
Lemma opcode_names_ok : named_ops = imap (fun i nm => (Z.of_nat i, nm)) opcode_names.
Proof. vm_compute. reflexivity. Qed.

(** The sums and the keys of a report. *)
Definition sum_entries (es : list OpcodeEntry) : Z := sumZ (oe_count <$> es).

Definition all_calls (ps : list RunProfileOut) : list (string * Z) := ps ≫= po_host_calls.

Lemma sumZ_app l1 l2 : sumZ (l1 ++ l2) = sumZ l1 + sumZ l2.
Proof. induction l1 as [|x l1 IH]; [done|]. simpl. rewrite !sumZ_cons, IH. lia. Qed.

Lemma sumZ_perm l1 l2 : l1 ≡ₚ l2 → sumZ l1 = sumZ l2.
Proof. induction 1; rewrite ?sumZ_cons; lia. Qed.

Lemma sum_add_counts x y :
  length x = length y → u64 (sumZ (add_counts x y)) = u64 (sumZ x + sumZ y).
Proof.
  revert y. induction x as [|a x IH]; intros [|b y] Hl; simpl in *; try done. rewrite !sumZ_cons.
  rewrite (w_add (w := u64)), <-(w_add_r u64 (a + b)), IH, (w_add_r u64) by lia. f_equal. lia.
Qed.

(** A counter that is not positive is zero. *)
Lemma sum_entries_of i counts :
  Forall (fun c => 0 ≤ c) counts → sum_entries (entries i counts) = sumZ counts.
Proof.
  intros HF. revert i. induction HF as [|c counts Hc _ IH]; intros i; [done|]. simpl.
  unfold sum_entries in *. rewrite sumZ_cons. destruct (0 <? c) eqn:E; simpl.
  - by rewrite sumZ_cons, IH.
  - rewrite IH. lia.
Qed.

(** The report of the entry with index [i]. *)
Lemma entries_elem e i counts :
  e ∈ entries i counts ↔
  ∃ k c, counts !! k = Some c ∧ 0 < c ∧ e = mkOpcode (default "?" (opcode_names !! (i + k)%nat)) c.
Proof.
  revert i. induction counts as [|c counts IH]; intros i; simpl.
  { rewrite elem_of_nil. split; [done|]. by intros (k & c & ? & _). }
  assert (e ∈ entries (S i) counts ↔ ∃ k c', (c :: counts) !! S k = Some c' ∧ 0 < c' ∧
    e = mkOpcode (default "?" (opcode_names !! (i + S k)%nat)) c') as Htl.
  { rewrite IH. split; intros (k & c' & ? & ? & ->); exists k, c'; split_and!; try done;
      do 2 f_equal; f_equal; lia. }
  destruct (0 <? c) eqn:E; [rewrite elem_of_cons|]; rewrite Htl; split.
  - intros [->|(k & c' & ?)]; [exists 0%nat, c; rewrite Nat.add_0_r; split_and!; [done|lia|done]|].
    by exists (S k), c'.
  - intros ([|k] & c' & Hc & ? & ->); [|right; eauto]. left. simplify_eq/=. by rewrite Nat.add_0_r.
  - intros (k & c' & ?). by exists (S k), c'.
  - intros ([|k] & c' & Hc & ? & ->); [|eauto]. simplify_eq/=. lia.
Qed.

(** *** The loop over the profiles *)

(** How often the runs executed opcode [op]. *)
Definition executed (ps : list RunProfileOut) (op : Z) : Z :=
  u64 (sumZ ((fun p => nth (Z.to_nat op) p.(po_profile).(opcode_counts) 0) <$> ps)).

(** The loop after the profiles [ps]. *)
Record merged (ps : list RunProfileOut) (s : MergeState) : Prop := {
  mg_host : s.(host_map) = tally host_key_cmp u64 (all_calls ps);
  mg_total : s.(host_total) = u64 (len (all_calls ps));
  mg_ops_total : s.(op_total) = u64 (sumZ ((fun p => p.(po_profile).(total_ops)) <$> ps));
  mg_ops : length s.(op_map) = Z.to_nat CUWASM_OP_COUNT;
  mg_counts : ∀ k : nat, (k < Z.to_nat CUWASM_OP_COUNT)%nat → s.(op_map) !! k = Some (executed ps (Z.of_nat k));
  mg_words : Forall (fun c => 0 ≤ c < 2 ^ 64) s.(op_map);
  mg_sum : Forall (fun p => profile_ok p.(po_profile)) ps → u64 (sumZ s.(op_map)) = s.(op_total);
  mg_uns : Forall (fun p => profile_ok p.(po_profile)) ps →
    s.(uns_map) = replicate (Z.to_nat CUWASM_OP_COUNT) 0 }.

Lemma count_loop (l : list (string * Z)) n : foldl (fun n _ => u64 (n + 1)) (u64 n) l = u64 (n + len l).
Proof.
  revert n. induction l as [|x l IH]; intros n; simpl; [by rewrite Z.add_0_r|].
  rewrite (w_add (w := u64)), IH, len_cons. f_equal. lia.
Qed.

Lemma add_counts_words x y : Forall (fun c => 0 ≤ c < 2 ^ 64) (add_counts x y).
Proof.
  revert y. induction x as [|a x IH]; intros [|b y]; simpl; constructor; [|apply IH].
  apply u64_range.
Qed.

Lemma merge_step_ok ps s p :
  length p.(po_profile).(opcode_counts) = Z.to_nat CUWASM_OP_COUNT →
  merged ps s → merged (ps ++ [p]) (merge_step s p).
Proof.
  intros Hp [H1 H2 HT H3 HC H4 H5 H6]. unfold merge_step.
  assert (all_calls (ps ++ [p]) = all_calls ps ++ po_host_calls p) as Hall.
  { unfold all_calls. rewrite bind_app. simpl. by rewrite app_nil_r. }
  split; simpl; rewrite ?Hall.
  - unfold tally in *. by rewrite H1, foldl_app.
  - rewrite H2, count_loop, len_app. done.
  - rewrite HT, fmap_app, sumZ_app. cbn [fmap list_fmap]. rewrite sumZ_cons, (w_add (w := u64)). f_equal. unfold sumZ at 3. simpl. lia.
  - unfold add_counts. rewrite length_zip_with. lia.
  - intros k Hk. unfold add_counts. rewrite lookup_zip_with, (HC k Hk). simpl.
    destruct (lookup_lt_is_Some_2 p.(po_profile).(opcode_counts) k) as [c Hc]; [lia|]. rewrite Hc. simpl. f_equal.
    unfold executed. rewrite fmap_app, sumZ_app. cbn [fmap list_fmap]. rewrite sumZ_cons, Nat2Z.id, (nth_lookup_Some _ _ _ _ Hc).
    rewrite (w_add (w := u64)). f_equal. unfold sumZ at 3. simpl. lia.
  - apply add_counts_words.
  - rewrite Forall_app, Forall_singleton. intros [HF [_ _ Hs]].
    rewrite sum_add_counts by lia. rewrite <-H5, <-Hs by done.
    by rewrite (w_add (w := u64)), (w_add_r u64).
  - rewrite Forall_app, Forall_singleton. intros [HF [_ Hu _]].
    rewrite H6, Hu by done. vm_compute. reflexivity.
Qed.

Lemma merge_ok ps :
  Forall (fun p => length p.(po_profile).(opcode_counts) = Z.to_nat CUWASM_OP_COUNT) ps →
  merged ps (foldl merge_step merge_start ps).
Proof.
  induction ps as [|p ps IH] using rev_ind; intros HF.
  - split; try done; [|apply Forall_replicate; simpl; lia]. intros k Hk.
    change (replicate (Z.to_nat CUWASM_OP_COUNT) 0 !! k = Some 0). by apply lookup_replicate_2.
  - apply Forall_app in HF as [HF Hp]. rewrite Forall_singleton in Hp.
    rewrite foldl_app. cbn [foldl].
    exact (merge_step_ok ps _ p Hp (IH HF)).
Qed.

#[local] Instance host_key_order : KeyOrder host_key_cmp.
Proof. apply _. Qed.

(** *** The entries *)

(** A key is in the map exactly when it occurs, with its count. *)
Lemma tally_elem ks k n :
  (k, n) ∈ tally host_key_cmp u64 ks ↔ k ∈ ks ∧ n = u64 (occurrences k ks).
Proof.
  rewrite <-(get_tally (cmp := host_key_cmp) (w := u64)).
  assert (∀ x, x ∈ tally host_key_cmp u64 ks → x.2 = get_count host_key_cmp x.1 (tally host_key_cmp u64 ks)) as Hget.
  { intros x Hin. pose proof (tally_increasing (cmp := host_key_cmp) (w := u64) ks) as Hinc.
    induction Hinc as [|[k' n'] l _ IH Hall]; [by apply elem_of_nil in Hin|]. simpl.
    apply elem_of_cons in Hin as [->|Hin]; [by rewrite (cmp_refl host_key_cmp)|].
    rewrite Forall_forall in Hall. specialize (Hall _ Hin). simpl in Hall.
    rewrite (cmp_opp (cmp := host_key_cmp)), Hall. simpl. by apply IH. }
  split.
  - intros Hin. split; [exact (tally_keys _ _ Hin)|exact (Hget _ Hin)].
  - intros [Hk ->]. assert (∃ n, (k, n) ∈ tally host_key_cmp u64 ks) as [n Hn].
    { clear Hget. induction ks as [|k' ks IH] using rev_ind; [by apply elem_of_nil in Hk|]. rewrite tally_snoc.
      rewrite elem_of_app, list_elem_of_singleton in Hk. apply bump_elem. destruct Hk as [Hk| ->]; [left; auto|by right]. }
    pose proof (Hget _ Hn) as E. simpl in E. by rewrite <-E.
Qed.

(** The entry of an opcode, if it was executed. *)
Definition opcode_entry (ps : list RunProfileOut) (o : Z * string) : option OpcodeEntry :=
  if 0 <? executed ps o.1 then Some (mkOpcode o.2 (executed ps o.1)) else None.

Lemma entries_omap ps counts : ∀ i,
  (∀ k c, counts !! k = Some c → c = executed ps (Z.of_nat (i + k))) →
  entries i counts = omap (opcode_entry ps) ((fun j => (Z.of_nat j, default "?" (opcode_names !! j))) <$> seq i (length counts)).
Proof.
  induction counts as [|c counts IH]; intros i Hc; [done|]. pose proof (Hc 0%nat c eq_refl) as H0. rewrite Nat.add_0_r in H0.
  cbn [entries length seq fmap list_fmap omap list_omap]. unfold opcode_entry at 1. cbn [fst snd].
  rewrite <-H0, (IH (S i)). { by destruct (0 <? c). }
  intros k c' Hk. rewrite (Hc (S k) c' Hk). f_equal. lia.
Qed.

Lemma named_seq :
  named_ops = (fun j => (Z.of_nat j, default "?" (opcode_names !! j))) <$> seq 0 (Z.to_nat CUWASM_OP_COUNT).
Proof. vm_compute. reflexivity. Qed.

(** C34. The merged report accounts for everything.  There is an entry for exactly the pairs of
    a host function and a number of arguments that the runs called, in increasing order,
    with the number of its calls, and their total is the number of calls made.  The opcode
    entries are those of the executed opcodes, each with its name and the number of times the
    runs executed it, most frequent first; they add up to the total, which is that of the
    runs; and no opcode is reported as unsupported.  The counters are 64-bit words, and the
    profiles are consistent, as those of a run are ([run_cpu_profile]). *)
Theorem merge_profiles_accounts ps hs os us ht ot :
  Forall (fun p => profile_ok p.(po_profile)) ps → merge_profiles ps = (hs, os, us, ht, ot) →
  StronglySorted (fun x y => host_key_cmp (x.(hc_name), x.(hc_arg_count))
                              (y.(hc_name), y.(hc_arg_count)) = Lt) hs ∧
  (∀ name n c, mkHostCall name n c ∈ hs ↔
     (name, n) ∈ all_calls ps ∧ c = u64 (occurrences (name, n) (all_calls ps))) ∧
  ht = u64 (len (all_calls ps)) ∧
  os ≡ₚ omap (opcode_entry ps) named_ops ∧
  StronglySorted (fun x y => y.(oe_count) ≤ x.(oe_count)) os ∧
  u64 (sum_entries os) = ot ∧ ot = u64 (sumZ ((fun p => p.(po_profile).(total_ops)) <$> ps)) ∧ us = [].
Proof.
  intros HF Hm. pose proof (merge_ok ps) as [H1 H2 HT H3 HC H4 H5 H6].
  { eapply Forall_impl; [exact HF|]. by intros p []. }
  unfold merge_profiles in Hm. set (s := foldl merge_step merge_start ps) in *.
  injection Hm as <- <- <- <- <-. specialize (H5 HF). specialize (H6 HF).
  pose proof (tally_increasing (cmp := host_key_cmp) (w := u64) (all_calls ps)) as Hinc.
  rewrite <-H1 in Hinc. split_and!.
  - unfold increasing in Hinc. clear -Hinc.
    induction Hinc as [|[[a b] c] l _ IH Hall]; simpl; constructor; [done|].
    rewrite Forall_fmap. eapply Forall_impl; [exact Hall|]. by intros [[] ?].
  - intros name n c. rewrite <-tally_elem, <-H1. split.
    + by intros ([[a b] k] & [= -> -> ->] & Hin)%list_elem_of_fmap.
    + intros Hin. apply list_elem_of_fmap. by exists ((name, n), c).
  - done.
  - rewrite sort_by_perm, named_seq, <-H3, <-(entries_omap ps _ 0); [done|].
    intros k c Hk. pose proof (lookup_lt_Some _ _ _ Hk) as Hlt. rewrite HC in Hk by lia. by injection Hk as <-.
  - pose proof (sort_by_sorted less_frequent) as Hs. unfold less_frequent in Hs.
    eapply StronglySorted_weaken; [|apply Hs]; simpl; intros; lia.
  - unfold sum_entries. rewrite (sumZ_perm _ (oe_count <$> entries 0 (op_map s))).
    + fold (sum_entries (entries 0 (op_map s))). rewrite sum_entries_of; [done|].
      eapply Forall_impl; [exact H4|]. simpl. lia.
    + by rewrite sort_by_perm.
  - done.
  - rewrite H6. vm_compute. reflexivity.
Qed.

Definition sample_out : RunProfileOut :=
  mkRunOut [("require_auth", 1); ("contract_event", 2); ("require_auth", 1)] []
    (mkProfile (7 :: 18 :: replicate 79 0) (replicate 81 0) 25).

Lemma merge_profiles_accounts_witness :
  (merge_profiles [sample_out; sample_out]).1.1.1.1 =
    [mkHostCall "contract_event" 2 2; mkHostCall "require_auth" 1 4] ∧
  (merge_profiles [sample_out; sample_out]).1.2 = 6 ∧
  (merge_profiles [sample_out; sample_out]).1.1.1.2 = [mkOpcode "i64.const" 36; mkOpcode "unreachable" 14] ∧
  u64 (sum_entries (merge_profiles [sample_out; sample_out]).1.1.1.2) = 50.
Proof.
  destruct (merge_profiles [sample_out; sample_out]) as [[[[hs os] us] ht] ot] eqn:E.
  destruct (merge_profiles_accounts [sample_out; sample_out] hs os us ht ot) as (_ & _ & Hh & _ & _ & Ho & _).
  - apply Forall_forall. intros p Hp. rewrite !elem_of_cons, elem_of_nil in Hp.
    destruct Hp as [->|[->|[]]]; split; vm_compute; reflexivity.
  - exact E.
  - vm_compute in E. injection E as <- <- <- <- <-. simpl. split; [reflexivity|].
    split; [rewrite Hh; reflexivity|]. split; [reflexivity|]. exact Ho.
Defined.
