(* ===== verification/Text.v ===== *)
(** * Text

    What the tools use of [str]: byte-indexed slicing, which panics inside a
    character, searching, trimming, and decimal numbers, those of the C library too.  A
    text is its list of UTF-8 bytes. *)

From S2P Require Import Prelude.
From stdpp Require Import base list strings pretty.
From Stdlib Require Import Ascii.

Local Open Scope Z_scope.

Abbreviation bytes := (list ascii).

Definition lit (s : string) : bytes := String.list_ascii_of_string s.
Definition unlit (s : bytes) : string := String.string_of_list_ascii s.

Definition code (c : ascii) : Z := Z.of_N (N_of_ascii c).
Definition same (c d : ascii) : bool := bool_decide (c = d).

(** ** Searching *)

Fixpoint starts_with (s p : bytes) : bool :=
  match p, s with
  | [], _ => true
  | _ :: _, [] => false
  | c :: p', d :: s' => same c d && starts_with s' p'
  end.

(** [s.find(p)] *)
Fixpoint find_str (p s : bytes) : option nat :=
  if starts_with s p then Some 0%nat
  else match s with [] => None | _ :: s' => S <$> find_str p s' end.

Definition contains (s p : bytes) : bool := bool_decide (is_Some (find_str p s)).

(** ** Slicing *)

(** A byte [10xxxxxx] is not the first of a character. *)
Definition is_cont (c : ascii) : bool := (128 <=? code c) && (code c <=? 191).

Definition is_char_boundary (s : bytes) (i : nat) : bool :=
  match s !! i with
  | Some c => negb (is_cont c)
  | None => (i =? length s)%nat
  end || (i =? 0)%nat.

(** [&s[i..]] and [&s[i..j]] *)
Definition slice_from (s : bytes) (i : nat) : outcome bytes :=
  if is_char_boundary s i then Ok (drop i s) else Panic "byte index is not a char boundary".

Definition slice (s : bytes) (i j : nat) : outcome bytes :=
  if is_char_boundary s i && is_char_boundary s j && (i <=? j)%nat then Ok (take (j - i) (drop i s))
  else Panic "byte index is not a char boundary".

(** In a text, a byte after an ASCII character starts a character. *)
Fixpoint text_from (prev : ascii) (s : bytes) : bool :=
  match s with
  | [] => true
  | c :: s' => negb ((code prev <=? 127) && is_cont c) && text_from c s'
  end.

Definition text_ok (s : bytes) : bool := text_from "000" s.

Definition ascii_only (s : bytes) : bool := forallb (fun c => code c <=? 127) s.

(** ** White space *)

(** The length of the white-space character a text starts with, 0 for none; the
    characters are those of the Unicode property [White_Space]. *)
Definition ws_len (s : bytes) : nat :=
  match code <$> take 3 s with
  | a :: r =>
      if ((9 <=? a) && (a <=? 13)) || (a =? 32) then 1%nat
      else
        match r with
        | b :: r' =>
            if (a =? 194) && ((b =? 133) || (b =? 160)) then 2%nat
            else
              match r' with
              | c :: _ =>
                  if ((a =? 225) && (b =? 154) && (c =? 128))
                     || ((a =? 226) && (b =? 128) &&
                         (((128 <=? c) && (c <=? 138)) || (c =? 168) || (c =? 169) || (c =? 175)))
                     || ((a =? 226) && (b =? 129) && (c =? 159))
                     || ((a =? 227) && (b =? 128) && (c =? 128))
                  then 3%nat else 0%nat
              | [] => 0%nat
              end
        | [] => 0%nat
        end
  | [] => 0%nat
  end.

Fixpoint trim_start_n (n : nat) (s : bytes) : bytes :=
  match n with
  | O => s
  | S n' => match ws_len s with O => s | k => trim_start_n n' (drop k s) end
  end.

Definition trim_start (s : bytes) : bytes := trim_start_n (length s) s.

(** The last white-space character of a text, of one, two or three bytes. *)
Definition ws_at_end (s : bytes) : nat :=
  let n := length s in
  if (ws_len (drop (n - 1) s) =? 1)%nat then 1%nat
  else if (ws_len (drop (n - 2) s) =? 2)%nat && (2 <=? n)%nat then 2%nat
  else if (ws_len (drop (n - 3) s) =? 3)%nat && (3 <=? n)%nat then 3%nat
  else 0%nat.

Fixpoint trim_end_n (n : nat) (s : bytes) : bytes :=
  match n with
  | O => s
  | S n' => match ws_at_end s with O => s | k => trim_end_n n' (take (length s - k) s) end
  end.

Definition trim (s : bytes) : bytes := trim_start (trim_end_n (length s) s).

(** [to_ascii_lowercase] *)
Definition lower (c : ascii) : ascii :=
  if (65 <=? code c) && (code c <=? 90) then ascii_of_N (N_of_ascii c + 32) else c.

(** ** Decimal numbers *)

Definition is_digit (c : ascii) : bool := (48 <=? code c) && (code c <=? 57).

(** Digits, most significant first, after [acc]. *)
Fixpoint digits (acc : Z) (s : bytes) : option Z :=
  match s with
  | [] => Some acc
  | c :: s' => if is_digit c then digits (acc * 10 + (code c - 48)) s' else None
  end.

(** [s.parse::<i64>()] *)
Definition parse_i64 (s : bytes) : option Z :=
  let '(neg, ds) :=
    match s with
    | c :: s' => if same c "-" then (true, s') else if same c "+" then (false, s') else (false, s)
    | [] => (false, s)
    end in
  match ds with
  | [] => None
  | _ =>
      v ← digits 0 ds;
      let v := if neg then - v else v in
      if (- 2 ^ 63 <=? v) && (v <? 2 ^ 63) then Some v else None
  end.

(** [n.to_string()] *)
Definition show (n : Z) : bytes := lit (pretty n).

(** ** Numbers of the C library *)

(** [strtoll] to base ten: white space, a sign, as many digits as there are; the value
    saturates. *)
Definition is_space (c : ascii) : bool := ((9 <=? code c) && (code c <=? 13)) || (code c =? 32).

Fixpoint skip_space (s : bytes) : bytes :=
  match s with c :: s' => if is_space c then skip_space s' else s | [] => s end.

Fixpoint leading_digits (acc : Z) (s : bytes) : Z :=
  match s with
  | c :: s' => if is_digit c then leading_digits (acc * 10 + (code c - 48)) s' else acc
  | [] => acc
  end.

Definition strtoll (s : bytes) : Z :=
  let v :=
    match skip_space s with
    | c :: s' =>
        if same c "-" then - leading_digits 0 s'
        else if same c "+" then leading_digits 0 s' else leading_digits 0 (c :: s')
    | [] => 0
    end in
  Z.max (- 2 ^ 63) (Z.min v (2 ^ 63 - 1)).

(** ** Facts *)

Lemma same_spec c d : same c d = true ↔ c = d.
Proof. unfold same. apply bool_decide_eq_true. Qed.

Lemma code_range c : 0 ≤ code c < 256.
Proof. unfold code. pose proof (N_ascii_bounded c). lia. Qed.

Lemma starts_with_nil s : starts_with s [] = true.
Proof. by destruct s. Qed.

Lemma starts_with_app s p : starts_with s p = true ↔ ∃ r, s = p ++ r.
Proof.
  revert s. induction p as [|c p IH]; intros s; [by split; [exists s|]; destruct s|].
  destruct s as [|d s]; simpl; [split; [done|by intros [r ?]]|].
  rewrite andb_true_iff, same_spec, IH. split.
  - intros [-> [r ->]]. by exists r.
  - intros [r [= -> ->]]. eauto.
Qed.

Lemma starts_with_length s p : starts_with s p = true → (length p ≤ length s)%nat.
Proof. intros [r ->]%starts_with_app. rewrite length_app. lia. Qed.

Lemma find_str_Some p s i :
  find_str p s = Some i ↔ starts_with (drop i s) p = true ∧ (i ≤ length s)%nat ∧
    ∀ k, (k < i)%nat → starts_with (drop k s) p = false.
Proof.
  revert i. induction s as [|c s IH]; intros i; cbn [find_str].
  - destruct (starts_with [] p) eqn:E; split.
    + intros [= <-]. simpl length. split_and!; [done|lia|lia].
    + simpl. intros (_ & Hi & _). f_equal. lia.
    + done.
    + simpl. intros (Hs & Hi & _). assert (i = 0%nat) as -> by lia. change (drop 0 []) with (@nil ascii) in Hs. congruence.
  - destruct (starts_with (c :: s) p) eqn:E; split.
    + intros [= <-]. simpl length. split_and!; [done|lia|lia].
    + intros (_ & _ & Hk). destruct i as [|i]; [done|]. specialize (Hk 0%nat ltac:(lia)).
      change (drop 0 (c :: s)) with (c :: s) in Hk. congruence.
    + intros (k & Hk & ->)%fmap_Some. apply IH in Hk as (H1 & H2 & H3). simpl.
      split_and!; [done|lia|]. intros [|k'] Hlt; [exact E|]. apply H3. lia.
    + intros (H1 & H2 & H3). destruct i as [|i]; [change (drop 0 (c :: s)) with (c :: s) in H1; congruence|]. simpl in H1, H2.
      apply fmap_Some. exists i. split; [|done]. apply IH. split_and!; [done|lia|].
      intros k Hk. apply (H3 (S k)). lia.
Qed.

Lemma find_str_None p s : find_str p s = None → ∀ k, starts_with (drop k s) p = false.
Proof.
  induction s as [|c s IH]; cbn [find_str]; intros Hf k.
  - rewrite drop_nil. by destruct (starts_with [] p).
  - destruct (starts_with (c :: s) p) eqn:E; [done|]. apply fmap_None in Hf.
    destruct k; [done|by apply IH].
Qed.

(** *** Numbers *)

Lemma digits_app acc s1 s2 :
  digits acc (s1 ++ s2) = (v ← digits acc s1; digits v s2).
Proof.
  revert acc. induction s1 as [|c s1 IH]; intros acc; simpl; [done|]. by destruct (is_digit c).
Qed.

Lemma lit_app s1 s2 : lit (s1 +:+ s2) = lit s1 ++ lit s2.
Proof. induction s1 as [|c s1 IH]; simpl; [done|]. unfold lit in *. by rewrite IH. Qed.

Lemma pretty_char x : (x < 10)%N → is_digit (pretty_N_char x) = true ∧ code (pretty_N_char x) = 48 + Z.of_N x.
Proof.
  intros Hx. assert (x = 0 ∨ x = 1 ∨ x = 2 ∨ x = 3 ∨ x = 4 ∨ x = 5 ∨ x = 6 ∨ x = 7 ∨ x = 8 ∨ x = 9)%N
    by lia. destruct_or!; subst; done.
Qed.

(** The digits of a number followed by a text, read after [acc]. *)
Lemma digits_pretty_go x s :
  ∃ k, 0 ≤ k ∧ ∀ acc, digits acc (lit (pretty_N_go x s)) = digits (acc * 10 ^ k + Z.of_N x) (lit s).
Proof.
  revert s. induction (N.lt_wf_0 x) as [x _ IH]; intros s.
  assert (x = 0 ∨ 0 < x)%N as [->|Hx] by lia.
  { exists 0. split; [done|]. intros acc. rewrite pretty_N_go_0. f_equal. simpl. lia. }
  destruct (IH (x `div` 10)%N ltac:(by apply N.div_lt)
    (String (pretty_N_char (x `mod` 10)) s)) as (k & Hk & Hgo).
  destruct (pretty_char (x `mod` 10)) as [Hd Hc]; [by apply N.mod_lt|].
  exists (k + 1). split; [lia|]. intros acc. rewrite pretty_N_go_step by done.
  rewrite Hgo. unfold lit in *. simpl. rewrite Hd, Hc. f_equal.
  rewrite Z.pow_add_r, N2Z.inj_div, N2Z.inj_mod by lia. pose proof (Z.div_mod (Z.of_N x) 10). lia.
Qed.

Lemma pretty_go_digits x s :
  Forall (fun c => is_digit c = true) (lit s) → Forall (fun c => is_digit c = true) (lit (pretty_N_go x s)).
Proof.
  revert s. induction (N.lt_wf_0 x) as [x _ IH]; intros s Hs.
  assert (x = 0 ∨ 0 < x)%N as [->|Hx] by lia; [by rewrite pretty_N_go_0|].
  rewrite pretty_N_go_step by done. apply IH; [by apply N.div_lt|]. unfold lit in *. simpl.
  constructor; [|done]. apply pretty_char. by apply N.mod_lt.
Qed.

Lemma digits_pretty (x : N) : digits 0 (lit (pretty x)) = Some (Z.of_N x).
Proof.
  unfold pretty, pretty_N. destruct (decide (x = 0%N)) as [->|]; [done|].
  destruct (digits_pretty_go x "") as (k & _ & ->). done.
Qed.

Lemma pretty_digits (x : N) : Forall (fun c => is_digit c = true) (lit (pretty x)).
Proof.
  unfold pretty, pretty_N. destruct (decide (x = 0%N)) as [->|]; [by repeat constructor|].
  by apply pretty_go_digits.
Qed.

Lemma pretty_nonempty (x : N) : lit (pretty x) ≠ [].
Proof. 
  intros Hn. destruct (decide (x = 0%N)) as [->|Hx]; [done|]. pose proof (digits_pretty x) as Hd.
  rewrite Hn in Hd. simpl in Hd. injection Hd. lia.
Qed.

(** A printed number is a sign, or none, and digits. *)
Lemma show_split z :
  ∃ ds, show z = (if z <? 0 then ["-"%char] else []) ++ ds ∧ ds ≠ [] ∧
    Forall (fun c => is_digit c = true) ds ∧ digits 0 ds = Some (Z.abs z).
Proof.
  exists (lit (pretty (Z.to_N (Z.abs z)))). split_and!.
  - unfold show, pretty at 1, pretty_Z. destruct z as [|p|p]; [done|done|]. simpl Z.abs.
    rewrite lit_app. done.
  - apply pretty_nonempty.
  - apply pretty_digits.
  - rewrite digits_pretty. f_equal. lia.
Qed.

Lemma digit_not_sign c : is_digit c = true → same c "-" = false ∧ same c "+" = false.
Proof. intros Hc. split; apply bool_decide_eq_false; intros ->; done. Qed.

(** Printing and parsing. *)
Lemma parse_show z : - 2 ^ 63 ≤ z < 2 ^ 63 → parse_i64 (show z) = Some z.
Proof.
  intros Hz. destruct (show_split z) as ([|c ds] & -> & Hne & Hd & Hv); [done|].
  assert (is_digit c = true) as Hc by (by inversion Hd).
  destruct (digit_not_sign c Hc) as [H1 H2]. unfold parse_i64.
  destruct (z <? 0) eqn:E; cbn [app].
  - replace (same "-" "-") with true by done. cbv beta iota zeta. rewrite Hv. cbn. destruct ((- 2 ^ 63 <=? - Z.abs z) && (- Z.abs z <? 2 ^ 63)) eqn:E2; [f_equal; lia|lia].
  - rewrite H1, H2. cbv beta iota zeta. rewrite Hv. cbn. destruct ((- 2 ^ 63 <=? Z.abs z) && (Z.abs z <? 2 ^ 63)) eqn:E2; [f_equal; lia|lia].
Qed.

(** *** Numbers of the C library *)

Lemma leading_digits_all acc s v : digits acc s = Some v → leading_digits acc s = v.
Proof.
  revert acc. induction s as [|c s IH]; intros acc; simpl; [by intros [= ->]|]. destruct (is_digit c); [apply IH|done].
Qed.

Lemma skip_space_no c s : is_space c = false → skip_space (c :: s) = c :: s.
Proof. intros H. simpl. by rewrite H. Qed.

Lemma digit_no_space c : is_digit c = true → is_space c = false.
Proof. unfold is_digit, is_space. lia. Qed.
