(* ===== verification/Wastprep.v ===== *)
(** * Splitting a spec test

    [tools/src/bin/wastprep.rs]: the module texts and the [assert_return]s of a .wast
    file, found by scanning for parentheses.  [wat::parse_str] and the JSON printer
    are arguments of [prep]. *)

From S2P Require Import Prelude Text.
From stdpp Require Import base list strings pretty.
From Stdlib Require Import Ascii.

Local Open Scope Z_scope.

Record Assertion := mkAssertion {
  as_module : Z;
  as_export : bytes;
  as_args : list Z;
  as_expected : list Z }.

Definition m_open : bytes := lit "(module".
Definition a_open : bytes := lit "(assert_return".

(** The scan for the matching parenthesis, common to both passes: from index [j], where
    the rest of the text is [s], at nesting [depth]. *)
Fixpoint close_at (s : bytes) (depth : Z) (j : nat) : nat :=
  match s with
  | [] => j
  | c :: s' =>
      if same c "(" then close_at s' (depth + 1) (S j)
      else if same c ")" then
        if depth - 1 =? 0 then S j else close_at s' (depth - 1) (S j)
      else close_at s' depth (S j)
  end.

(** ** Modules *)

(** [while i < src.len()], at most [fuel] rounds. *)
Fixpoint extract_loop (fuel : nat) (src : bytes) (i : nat) : outcome (list bytes) :=
  match fuel with
  | O => Panic "fuel"
  | S fuel' =>
      if (length src <=? i)%nat then Ok []
      else
        rest ← slice_from src i;
        match find_str m_open rest with
        | None => Ok []
        | Some rel =>
            let start := (i + rel)%nat in
            let j := close_at (drop start src) 0 start in
            m ← slice src start j;
            ms ← extract_loop fuel' src j;
            Ok (m :: ms)
        end
  end.

Definition extract_modules (src : bytes) : outcome (list bytes) :=
  extract_loop (S (length src)) src 0.

(** ** Numbers *)

Definition i64_const : bytes := lit "i64.const".

(** The end of the number a text starts with: a sign and digits. *)
Fixpoint digit_run (s : bytes) : nat :=
  match s with c :: s' => if is_digit c then S (digit_run s') else 0%nat | [] => 0%nat end.

Definition number_end (t : bytes) : nat :=
  match t with
  | c :: t' => if same c "-" || same c "+" then S (digit_run t') else digit_run t
  | [] => 0%nat
  end.

Fixpoint consts_loop (fuel : nat) (rest : bytes) : list Z :=
  match fuel with
  | O => []
  | S fuel' =>
      match find_str i64_const rest with
      | None => []
      | Some p =>
          let t := trim_start (drop (p + length i64_const) rest) in
          let e := number_end t in
          let more := consts_loop fuel' (drop (e `min` length t) t) in
          if (0 <? e)%nat then
            match parse_i64 (take e t) with Some v => v :: more | None => more end
          else more
      end
  end.

Definition parse_i64_consts (s : bytes) : list Z := consts_loop (S (length s)) s.

(** ** Assertions *)

Definition invoke_open : bytes := lit "invoke " ++ ["034"%char].

(** The body of the [assert_return] branch. *)
Definition parse_assertion (module : Z) (chunk : bytes) : outcome (option Assertion) :=
  match find_str invoke_open chunk with
  | None => Ok None
  | Some q1 =>
      rest ← slice_from chunk (q1 + 8);
      match find_str ["034"%char] rest with
      | None => Ok None
      | Some q2 =>
          export ← slice rest 0 q2;
          let nums := parse_i64_consts chunk in
          if (2 <=? length nums)%nat then
            Ok (Some (mkAssertion module export (removelast nums) [List.last nums 0]))
          else Ok None
      end
  end.

(** [while pos < src.len()] *)
Fixpoint assertions_loop (fuel : nat) (src : bytes) (pos : nat) (module : Z) (seen : bool) :
    outcome (list Assertion) :=
  match fuel with
  | O => Panic "fuel"
  | S fuel' =>
      if (length src <=? pos)%nat then Ok []
      else
        rest ← slice_from src pos;
        if starts_with rest m_open then
          assertions_loop fuel' src (pos + 7) (if seen then module + 1 else module) true
        else if starts_with rest a_open then
          let j := close_at (drop pos src) 0 pos in
          chunk ← slice src pos j;
          a ← parse_assertion module chunk;
          out ← assertions_loop fuel' src j module seen;
          Ok (match a with Some a => a :: out | None => out end)
        else assertions_loop fuel' src (S pos) module seen
  end.

Definition parse_assertions (src : bytes) : outcome (list Assertion) :=
  assertions_loop (S (length src)) src 0 0 false.

(** ** The program *)

(** How the program ends: an exit code and the files it wrote. *)
Record Exit := mkExit { exit_code : Z; written : list (string * bytes) }.

Definition mod_name (i : nat) : string := "mod" +:+ pretty i +:+ ".wasm".

(** The loop over the modules, from number [i]. *)
Fixpoint write_modules (parse_str : bytes → option bytes) (i : nat) (ms : list bytes)
    (files : list (string * bytes)) : Exit + list (string * bytes) :=
  match ms with
  | [] => inr files
  | wat :: ms' =>
      match parse_str wat with
      | None => inl (mkExit 1 files)
      | Some wasm => write_modules parse_str (S i) ms' (files ++ [(mod_name i, wasm)])
      end
  end.

Definition prep (parse_str : bytes → option bytes) (to_json : list Assertion → bytes) (src : bytes) :
    outcome Exit :=
  modules ← extract_modules src;
  if (length modules =? 0)%nat then Ok (mkExit 1 [])
  else
    match write_modules parse_str 0 modules [] with
    | inl e => Ok e
    | inr files =>
        assertions ← parse_assertions src;
        let files := files ++ [("assertions.json", to_json assertions)] in
        Ok (mkExit (if (length assertions =? 60)%nat then 0 else 1) files)
    end.
