(* ===== verification/WastprepFacts.v ===== *)
(** * Splitting a spec test: what is found

    The module scan ends, does not panic and returns the top-level module texts; on a
    script made of modules and assertions the two passes agree on which module an
    assertion is about. *)

From S2P Require Import Prelude Text Wastprep.
From stdpp Require Import base list strings pretty.
From Stdlib Require Import Ascii.

Local Open Scope Z_scope.

(** ** The parenthesis scan *)

(** The scan from [depth] stops exactly at the end of the text. *)
Fixpoint closed (depth : Z) (s : bytes) : bool :=
  match s with
  | [] => false
  | c :: s' =>
      if same c "(" then closed (depth + 1) s'
      else if same c ")" then
        if depth - 1 =? 0 then (length s' =? 0)%nat else closed (depth - 1) s'
      else closed depth s'
  end.

(** The scan from [depth] reaches the end of the text without stopping. *)
Fixpoint unclosed (depth : Z) (s : bytes) : bool :=
  match s with
  | [] => true
  | c :: s' =>
      if same c "(" then unclosed (depth + 1) s'
      else if same c ")" then negb (depth - 1 =? 0) && unclosed (depth - 1) s'
      else unclosed depth s'
  end.

Lemma close_at_closed m rest d j : closed d m = true → close_at (m ++ rest) d j = (j + length m)%nat.
Proof.
  revert d j. induction m as [|c m IH]; intros d j; simpl; [done|].
  destruct (same c "("); [intros; rewrite IH by done; lia|].
  destruct (same c ")"); [|intros; rewrite IH by done; lia].
  destruct (d - 1 =? 0); [|intros; rewrite IH by done; lia].
  destruct m; simpl; [lia|done].
Qed.

Lemma close_at_spec s d j :
  ∃ m rest, s = m ++ rest ∧ close_at s d j = (j + length m)%nat ∧
    (closed d m = true ∨ unclosed d m = true ∧ rest = []).
Proof.
  revert d j. induction s as [|c s IH]; intros d j; simpl.
  { exists [], []. split_and!; [done|simpl; lia|]. by right. }
  assert (∀ d', ∃ m rest, s = m ++ rest ∧ close_at s d' (S j) = (j + length (c :: m))%nat ∧
    (closed d' m = true ∨ unclosed d' m = true ∧ rest = [])) as Hd.
  { intros d'. destruct (IH d' (S j)) as (m & rest & -> & Hc & Hm). exists m, rest.
    split_and!; [done|simpl; lia|done]. }
  destruct (same c "(") eqn:Eo.
  { destruct (Hd (d + 1)) as (m & rest & -> & Hc & Hm). exists (c :: m), rest.
    split_and!; [done|done|]. simpl. by rewrite Eo. }
  destruct (same c ")") eqn:Ec.
  - destruct (d - 1 =? 0) eqn:E0.
    + exists [c], s. split_and!; [done|simpl; lia|]. left. simpl. by rewrite Eo, Ec, E0.
    + destruct (Hd (d - 1)) as (m & rest & -> & Hc & Hm). exists (c :: m), rest.
      split_and!; [done|done|]. simpl. by rewrite Eo, Ec, E0.
  - destruct (Hd d) as (m & rest & -> & Hc & Hm). exists (c :: m), rest.
    split_and!; [done|done|]. simpl. by rewrite Eo, Ec.
Qed.

(** A closed text ends with a closing parenthesis. *)
Lemma closed_last d m : closed d m = true → ∃ m', m = m' ++ [")"%char].
Proof.
  revert d. induction m as [|c m IH]; intros d; simpl; [done|].
  assert (∀ d', closed d' m = true → ∃ m', c :: m = m' ++ [")"%char]) as Hc.
  { intros d' [m' ->]%IH. by exists (c :: m'). }
  destruct (same c "("); [apply Hc|]. destruct (same c ")") eqn:E; [|apply Hc].
  apply same_spec in E as ->. destruct (d - 1 =? 0); [|apply Hc].
  destruct m; [|done]. intros _. by exists [].
Qed.

(** ** Character boundaries *)

Lemma boundary_end s : is_char_boundary s (length s) = true.
Proof. unfold is_char_boundary. rewrite lookup_ge_None_2 by done. by rewrite Nat.eqb_refl. Qed.

Lemma boundary_ascii s i c : s !! i = Some c → code c ≤ 127 → is_char_boundary s i = true.
Proof.
  intros Hi Hc. unfold is_char_boundary, is_cont. rewrite Hi.
  destruct (128 <=? code c) eqn:?; [lia|]. done.
Qed.

Lemma text_from_lookup p s i c :
  text_from p s = true → (p :: s) !! i = Some c → code c ≤ 127 →
  is_char_boundary (p :: s) (S i) = true.
Proof.
  revert p i. induction s as [|d s IH]; intros p i; cbn [text_from].
  - intros _ Hi Hc. destruct i as [|i]; [|by rewrite lookup_cons in Hi].
    unfold is_char_boundary. done.
  - rewrite andb_true_iff. intros [Hd Hs] Hi Hc. destruct i as [|i].
    + simpl in Hi. injection Hi as ->. unfold is_char_boundary. simpl. rewrite orb_false_r.
      destruct (code c <=? 127) eqn:E; [done|lia].
    + specialize (IH d i Hs Hi Hc). unfold is_char_boundary in *. simpl in *.
      rewrite orb_false_r in *. done.
Qed.

Lemma boundary_after s i c :
  text_ok s = true → s !! i = Some c → code c ≤ 127 → is_char_boundary s (S i) = true.
Proof.
  unfold text_ok. intros Hs Hi Hc.
  assert (is_char_boundary ("000"%char :: s) (S (S i)) = true) as Hb
    by (by eapply text_from_lookup).
  unfold is_char_boundary in *. simpl in *. by rewrite orb_false_r in *.
Qed.

Lemma boundary_in_ascii s i : ascii_only s = true → (i ≤ length s)%nat → is_char_boundary s i = true.
Proof.
  intros Hs Hi. destruct (s !! i) as [c|] eqn:E.
  - eapply boundary_ascii; [done|]. unfold ascii_only in Hs. rewrite forallb_forall in Hs.
    apply Z.leb_le, Hs. apply list_elem_of_In. by eapply list_elem_of_lookup_2.
  - apply lookup_ge_None in E. assert (i = length s) as -> by lia. apply boundary_end.
Qed.

(** ** Modules *)

(** The texts between the modules and the modules, from the left: each module starts at
    the first [(module] and ends where the scan stops; a module that is not closed
    takes the rest. *)
Inductive segments : bytes → list bytes → Prop :=
  | seg_none s : find_str m_open s = None → segments s []
  | seg_module gap m rest ms :
      find_str m_open (gap ++ m ++ rest) = Some (length gap) → closed 0 m = true →
      segments rest ms → segments (gap ++ m ++ rest) (m :: ms)
  | seg_open gap m :
      find_str m_open (gap ++ m) = Some (length gap) → unclosed 0 m = true →
      segments (gap ++ m) [m].

Lemma slice_ok s i j :
  is_char_boundary s i = true → is_char_boundary s j = true → (i ≤ j)%nat →
  slice s i j = Ok (take (j - i) (drop i s)).
Proof. intros Hi Hj Hl. unfold slice. rewrite Hi, Hj. by rewrite (proj2 (Nat.leb_le _ _)). Qed.

Lemma extract_loop_spec src fuel i :
  text_ok src = true → is_char_boundary src i = true → (length src < i + fuel)%nat →
  (i ≤ length src)%nat →
  ∃ ms, extract_loop fuel src i = Ok ms ∧ segments (drop i src) ms.
Proof.
  intros Ht. revert i. induction fuel as [|fuel IH]; intros i Hb Hf Hi; [lia|]. cbn [extract_loop].
  destruct (length src <=? i)%nat eqn:E.
  { apply Nat.leb_le in E. exists []. split; [done|]. rewrite drop_ge by lia. by constructor. }
  apply Nat.leb_gt in E. unfold slice_from. rewrite Hb. simpl.
  destruct (find_str m_open (drop i src)) as [rel|] eqn:Hfind; [|exists []; by split; [|constructor]].
  pose proof Hfind as (Hst & Hrel & _)%find_str_Some. rewrite drop_drop in Hst.
  set (start := (i + rel)%nat) in *. rewrite length_drop in Hrel.
  destruct (close_at_spec (drop start src) 0 start) as (m & rest & Hm & -> & Hcl).
  replace (rel + i)%nat with start in Hst by lia.
  assert (src !! start = Some "("%char) as Hopen.
  { apply starts_with_app in Hst as [r Hr]. rewrite <-(Nat.add_0_r start), <-lookup_drop, Hr. done. }
  assert (m ≠ []) as Hne.
  { intros ->. destruct Hcl as [|[_ ->]]; [done|]. apply (f_equal length) in Hm.
    rewrite length_drop in Hm. simpl in Hm. apply lookup_lt_Some in Hopen. lia. }
  assert (length m + length rest = length src - start)%nat as Hlen
    by (by rewrite <-length_app, <-Hm, length_drop).
  assert (0 < length m)%nat by (destruct m; simpl; [done|lia]).
  assert (is_char_boundary src (start + length m) = true) as Hb2.
  { destruct Hcl as [Hc|[_ ->]].
    - apply closed_last in Hc as [m' ->]. rewrite length_app in *. simpl in *.
      replace (start + (length m' + 1))%nat with (S (start + length m')) by lia.
      apply (boundary_after _ _ ")"); [done| |done]. rewrite <-lookup_drop, Hm, <-app_assoc.
      by rewrite lookup_app_r, Nat.sub_diag by lia.
    - simpl in Hlen. replace (start + length m)%nat with (length src) by lia. apply boundary_end. }
  rewrite slice_ok; [|by eapply boundary_ascii|done|lia].
  replace (take (start + length m - start) (drop start src)) with m
    by (rewrite Hm; replace (start + length m - start)%nat with (length m) by lia; by rewrite take_app_length).
  destruct (IH (start + length m)%nat) as (ms & Hms & Hseg); [done|lia|lia|].
  simpl. rewrite Hms. simpl. exists (m :: ms). split; [done|].
  assert (drop i src = take rel (drop i src) ++ m ++ rest) as Hsplit.
  { rewrite <-Hm. unfold start. rewrite <-drop_drop. by rewrite take_drop. }
  assert (length (take rel (drop i src)) = rel) as Hrl by (rewrite length_take, length_drop; lia).
  assert (drop (start + length m) src = rest) as Hrest.
  { rewrite <-drop_drop, Hm. apply drop_app_length. }
  rewrite Hrest in Hseg. rewrite Hsplit. rewrite Hsplit in Hfind. rewrite <-Hrl in Hfind at 2.
  destruct Hcl as [Hc|[Hu ->]]; [by constructor|].
  rewrite app_nil_r in *. inversion Hseg as [s Hn Hs|gap m1 r1 ms1 Hf1 _ _ Hg|gap m1 Hf1 _ Hg].
  - by constructor.
  - by rewrite Hg in Hf1.
  - by rewrite Hg in Hf1.
Qed.

(** C35. The module pass is total and finds what it should: on every text it ends without a
    panic, and its result is the decomposition of the text into the modules, each from
    the first [(module] after the previous one to the parenthesis that closes it, or to
    the end of the text. *)
Theorem extract_modules_segments src :
  text_ok src = true → ∃ ms, extract_modules src = Ok ms ∧ segments src ms.
Proof.
  intros Ht. destruct (extract_loop_spec src (S (length src)) 0 Ht) as (ms & Hms & Hs); [|lia..|].
  - unfold is_char_boundary. by rewrite orb_true_r.
  - exists ms. by rewrite drop_0 in Hs.
Qed.

(** ** Scripts *)

(** A top-level form of a script. *)
Inductive Form := FModule (m : bytes) | FAssert (a : bytes).

Definition form_text (f : Form) : bytes := match f with FModule m => m | FAssert a => a end.

(** A script: forms, each after some other text, and a tail. *)
Fixpoint text (fs : list (bytes * Form)) (tail : bytes) : bytes :=
  match fs with [] => tail | (gap, f) :: fs' => gap ++ form_text f ++ text fs' tail end.

(** [p] occurs nowhere in [s]. *)
Definition absent (p s : bytes) : bool := bool_decide (find_str p s = None).

Definition quiet (s : bytes) : bool := absent m_open s && absent a_open s && ascii_only s.

Definition form_ok (f : Form) : bool :=
  match f with
  | FModule m => starts_with m m_open && closed 0 m && quiet (drop 7 m) && ascii_only m
  | FAssert a => starts_with a a_open && closed 0 a && absent m_open a && ascii_only a
  end.

Definition script_ok (fs : list (bytes * Form)) (tail : bytes) : bool :=
  forallb (fun e => quiet e.1 && form_ok e.2) fs && quiet tail.

Definition modules_of (fs : list (bytes * Form)) : list bytes :=
  fs ≫= (fun e => match e.2 with FModule m => [m] | FAssert _ => [] end).

(** The assertions, each with the number of the module before it; [n] modules came
    before the script. *)
Fixpoint assertions_of (n : Z) (fs : list (bytes * Form)) : outcome (list Assertion) :=
  match fs with
  | [] => Ok []
  | (_, FModule _) :: fs' => assertions_of (n + 1) fs'
  | (_, FAssert a) :: fs' =>
      x ← parse_assertion (Z.max 0 (n - 1)) a;
      xs ← assertions_of n fs';
      Ok (match x with Some x => x :: xs | None => xs end)
  end.

(** *** Patterns do not straddle the parts *)

(** The patterns: a parenthesis, then no parenthesis. *)
Definition opener (p : bytes) : Prop :=
  ∃ q, p = ("("%char :: q) ∧ ("("%char ∉ q) ∧ (")"%char ∉ q).

Lemma m_opener : opener m_open.
Proof. exists (lit "module"). split; [done|]. split; refine (bool_decide_unpack _ _); by vm_compute. Qed.

Lemma a_opener : opener a_open.
Proof. exists (lit "assert_return"). split; [done|]. split; refine (bool_decide_unpack _ _); by vm_compute. Qed.

(** What may follow [x]: nothing, a form, or anything when [x] ends a form. *)
Definition sealed (x y : bytes) : Prop :=
  y = [] ∨ (∃ y', y = "("%char :: y') ∨ x = [] ∨ (∃ x', x = x' ++ [")"%char]).

Lemma no_straddle p x y k :
  opener p → sealed x y → (k < length x)%nat →
  starts_with (drop k (x ++ y)) p = starts_with (drop k x) p.
Proof.
  intros (q & -> & Ho & Hc) Hs Hk. rewrite drop_app_le by lia.
  destruct (starts_with (drop k x) ("("%char :: q)) eqn:E.
  { apply starts_with_app in E as [r ->]. apply starts_with_app. exists (r ++ y). by rewrite (app_assoc _ r). }
  apply not_true_is_false. intros E2. apply starts_with_app in E2 as [r Hr].
  destruct (app_eq_inv _ _ _ _ Hr) as [(l & Hl & _)|(l & Hl & Hl2)].
  { by rewrite Hl, (proj2 (starts_with_app _ _)) in E by eauto. }
  destruct l as [|c l]; [rewrite app_nil_r in Hl; rewrite <-Hl in E;
    by rewrite (proj2 (starts_with_app _ _)) in E by (exists []; by rewrite app_nil_r)|].
  destruct (drop k x) as [|d x1] eqn:Ex.
  { apply (f_equal length) in Ex. rewrite length_drop in Ex. simpl in Ex. lia. }
  injection Hl as <- Hq. destruct Hs as [->|[[y' ->]|[->|[x' ->]]]].
  - done.
  - injection Hl2 as <- _. apply Ho. rewrite Hq. apply elem_of_app. right. by left.
  - simpl in Hk. lia.
  - apply Hc. rewrite Hq. apply elem_of_app. left.
    rewrite length_app in Hk. simpl in Hk. rewrite drop_app_le in Ex by lia.
    destruct (drop k x') as [|e x2] eqn:Ex'; simpl in Ex; [done|]. injection Ex as -> <-.
    apply elem_of_app. right. by left.
Qed.

Lemma find_after p x y :
  (∀ k, (k < length x)%nat → starts_with (drop k (x ++ y)) p = false) →
  find_str p (x ++ y) = (fun n => (length x + n)%nat) <$> find_str p y.
Proof.
  induction x as [|c x IH]; intros Hk; [simpl; by destruct (find_str p y)|].
  pose proof (Hk 0%nat ltac:(simpl; lia)) as H0. change (drop 0 ((c :: x) ++ y)) with (c :: (x ++ y)) in H0.
  cbn [app find_str]. rewrite H0, IH; [by destruct (find_str p y)|].
  intros k Hl. apply (Hk (S k)). simpl. lia.
Qed.

Lemma quiet_parts s : quiet s = true → absent m_open s = true ∧ absent a_open s = true ∧ ascii_only s = true.
Proof. unfold quiet. rewrite !andb_true_iff. tauto. Qed.

(** Where a pattern is absent, no part of the text starts with it. *)
Lemma absent_no_start p x y k :
  opener p → absent p x = true → sealed x y → (k < length x)%nat →
  starts_with (drop k (x ++ y)) p = false.
Proof.
  intros Hp Ha%bool_decide_eq_true_1 Hs Hk. rewrite no_straddle by done. by apply find_str_None.
Qed.

Lemma find_absent p x y :
  opener p → absent p x = true → sealed x y →
  find_str p (x ++ y) = (fun n => (length x + n)%nat) <$> find_str p y.
Proof. intros Hp Ha Hs. apply find_after. intros k Hk. by apply absent_no_start. Qed.

Lemma absent_app p x y :
  opener p → sealed x y → absent p x = true → absent p y = true → absent p (x ++ y) = true.
Proof.
  unfold absent at 2 3. intros Hp Hs Hx Hy%bool_decide_eq_true_1. apply bool_decide_eq_true_2.
  rewrite find_absent by done. by rewrite Hy.
Qed.

(** Each form starts with a parenthesis and ends with one. *)
Lemma form_ends f : form_ok f = true → (∃ y, form_text f = "("%char :: y) ∧ closed 0 (form_text f) = true.
Proof.
  destruct f as [m|a]; simpl; rewrite !andb_true_iff.
  - intros (((Hs & Hc) & _) & _). split; [|done]. apply starts_with_app in Hs as [r ->]. by eexists.
  - intros (((Hs & Hc) & _) & _). split; [|done]. apply starts_with_app in Hs as [r ->]. by eexists.
Qed.

Lemma sealed_gap x f y : form_ok f = true → sealed x (form_text f ++ y).
Proof. intros [[z ->] _]%form_ends. right. left. by eexists. Qed.

Lemma sealed_form x f y : form_ok f = true → sealed (x ++ form_text f) y.
Proof.
  intros [_ [m' Hm]%closed_last]%form_ends. right. right. right. exists (x ++ m').
  by rewrite Hm, app_assoc.
Qed.

Lemma script_cons g f fs tail :
  script_ok ((g, f) :: fs) tail = true → quiet g = true ∧ form_ok f = true ∧ script_ok fs tail = true.
Proof. unfold script_ok. simpl. rewrite !andb_true_iff. tauto. Qed.

Lemma ascii_app x y : ascii_only (x ++ y) = ascii_only x && ascii_only y.
Proof. apply forallb_app. Qed.

Lemma script_ascii fs tail : script_ok fs tail = true → ascii_only (text fs tail) = true.
Proof.
  induction fs as [|[g f] fs IH]; simpl.
  - unfold script_ok. simpl. by intros (_ & _ & ?)%quiet_parts.
  - intros (Hg & Hf & Hs)%script_cons. rewrite !ascii_app, IH by done.
    apply quiet_parts in Hg as (_ & _ & ->). rewrite andb_true_r. simpl.
    destruct f; simpl in *; rewrite !andb_true_iff in Hf; tauto.
Qed.

(** *** The module pass *)

(** From the end of [pre], where [z] holds no module and can be followed by a gap. *)
Lemma extract_script fs tail : ∀ src pre z fuel,
  src = pre ++ z ++ text fs tail → script_ok fs tail = true → ascii_only src = true →
  absent m_open z = true → (z = [] ∨ ∃ z', z = z' ++ [")"%char]) →
  (length src < length pre + fuel)%nat →
  extract_loop fuel src (length pre) = Ok (modules_of fs).
Proof.
  induction fs as [|[g f] fs IH]; intros src pre z fuel Hsrc Hok Hasc Hz Hze Hf; simpl in Hsrc.
  - destruct fuel as [|fuel]; [subst; rewrite !length_app in Hf; lia|]. cbn [extract_loop].
    destruct (length src <=? length pre)%nat eqn:E; [done|]. unfold slice_from.
    rewrite boundary_in_ascii by (try done; subst; rewrite !length_app; lia).
    simpl. rewrite Hsrc, drop_app_length. unfold script_ok in Hok. simpl in Hok.
    apply quiet_parts in Hok as (Ht & _). rewrite find_absent; [|apply m_opener|done|].
    + unfold absent in Ht. apply bool_decide_eq_true_1 in Ht. by rewrite Ht.
    + right. right. destruct Hze; [by left|by right].
  - apply script_cons in Hok as (Hg & Hfo & Hok). pose proof (quiet_parts _ Hg) as (Hgm & _).
    assert (∀ y, sealed z y) as Hzg by (intros y; right; right; destruct Hze; [by left|by right]).
    destruct f as [m|a].
    + destruct fuel as [|fuel]; [subst; rewrite !length_app in Hf; lia|]. cbn [extract_loop].
      pose proof (form_ends _ Hfo) as [[y Hy] Hcl]. cbn [form_text] in *.
      assert (length m > 0)%nat by (rewrite Hy; simpl; lia).
      rewrite (proj2 (Nat.leb_gt _ _)) by (subst src; rewrite !length_app; lia).
      unfold slice_from. rewrite boundary_in_ascii by (try done; subst src; rewrite !length_app; lia).
      simpl. rewrite Hsrc at 1. rewrite drop_app_length, app_assoc.
      rewrite find_absent; [|apply m_opener|by apply absent_app; [apply m_opener|..]|].
      2: { rewrite <-(app_nil_r (m ++ _)), <-app_assoc. apply (sealed_gap _ (FModule m)). done. }
      assert (find_str m_open (m ++ text fs tail) = Some 0%nat) as ->.
      { apply find_str_Some. split_and!; [|lia|lia]. rewrite drop_0. simpl in Hfo.
        rewrite !andb_true_iff in Hfo. destruct Hfo as (((Hst & _) & _) & _).
        apply starts_with_app in Hst as [r ->]. apply starts_with_app. eexists. by rewrite <-app_assoc. }
      cbn [fmap option_fmap option_map]. rewrite Nat.add_0_r. cbv zeta.
      assert (drop (length pre + length (z ++ g)) src = m ++ text fs tail) as Hd.
      { rewrite Hsrc, <-drop_drop, drop_app_length, app_assoc. apply drop_app_length. }
      rewrite Hd, close_at_closed by done.
      rewrite slice_ok; [|apply boundary_in_ascii; [done|]..|lia].
      2: { subst src. rewrite !length_app. lia. }
      2: { subst src. rewrite !length_app. lia. }
      rewrite Hd, Nat.add_comm, Nat.add_sub, take_app_length. simpl.
      rewrite <-length_app, Nat.add_comm, <-length_app.
      rewrite (IH src ((pre ++ z ++ g) ++ m) []); [done| |done|done|done|by left|].
      * rewrite Hsrc. simpl. by rewrite <-!app_assoc.
      * subst src. rewrite !length_app in *. lia.
    + rewrite (IH src pre (z ++ g ++ a) fuel); [done| |done|done| | |done].
      * rewrite Hsrc. simpl. by rewrite <-!app_assoc.
      * simpl in Hfo. rewrite !andb_true_iff in Hfo.
        apply absent_app; [apply m_opener|done|done|]. apply absent_app; [apply m_opener|..]; try tauto.
        rewrite <-(app_nil_r a). by apply (sealed_gap _ (FAssert a)); simpl; rewrite !andb_true_iff.
      * right. apply form_ends in Hfo as [_ [a' Ha]%closed_last]. simpl in Ha. exists (z ++ g ++ a').
        by rewrite Ha, !app_assoc.
Qed.

(** *** The assertion pass *)

Lemma assertions_skip x : ∀ src pre y f n seen,
  src = pre ++ x ++ y → ascii_only src = true → quiet x = true → sealed x y →
  assertions_loop (length x + f) src (length pre) n seen =
  assertions_loop f src (length pre + length x) n seen.
Proof.
  assert (∀ src pre y f n seen, src = pre ++ x ++ y → ascii_only src = true →
    (∀ k, (k < length x)%nat → starts_with (drop k (x ++ y)) m_open = false ∧
       starts_with (drop k (x ++ y)) a_open = false) →
    assertions_loop (length x + f) src (length pre) n seen =
    assertions_loop f src (length pre + length x) n seen) as Hgen.
  { induction x as [|c x IH]; intros src pre y f n seen Hsrc Ha Hk; [by rewrite Nat.add_0_r|].
    cbn [length Nat.add assertions_loop].
    rewrite (proj2 (Nat.leb_gt _ _)) by (subst src; rewrite !length_app; simpl; lia).
    unfold slice_from. rewrite boundary_in_ascii by (try done; subst src; rewrite !length_app; lia).
    cbn [mbind outcome_bind].
    assert (drop (length pre) src = (c :: x) ++ y) as -> by (rewrite Hsrc; apply drop_app_length).
    destruct (Hk 0%nat) as [H1 H2]; [simpl; lia|]. rewrite drop_0 in H1, H2. rewrite H1, H2.
    rewrite <-Nat.add_succ_comm. replace (S (length pre)) with (length (pre ++ [c]))
      by (rewrite length_app; simpl; lia).
    apply (IH src (pre ++ [c]) y); [by rewrite Hsrc, <-app_assoc|done|].
    intros k Hl. apply (Hk (S k)). simpl. lia. }
  intros src pre y f n seen Hsrc Ha (Hm & Has & _)%quiet_parts Hs. apply (Hgen src pre y); [done..|].
  intros k Hk. split; apply absent_no_start; try done; [apply m_opener|apply a_opener].
Qed.

Lemma assertions_script fs tail : ∀ src pre fuel n,
  src = pre ++ text fs tail → script_ok fs tail = true → ascii_only src = true → 0 ≤ n →
  (length (text fs tail) < fuel)%nat →
  assertions_loop fuel src (length pre) (Z.max 0 (n - 1)) (0 <? n) = assertions_of n fs.
Proof.
  induction fs as [|[g f] fs IH]; intros src pre fuel n Hsrc Hok Ha Hn Hf; simpl in Hsrc, Hf.
  - unfold script_ok in Hok. simpl in Hok.
    replace fuel with (length tail + S (fuel - length tail - 1))%nat by lia.
    rewrite (assertions_skip tail src pre []); [|by rewrite app_nil_r|done|done|by left].
    cbn [assertions_loop]. by rewrite (proj2 (Nat.leb_le _ _)) by (subst src; rewrite length_app; lia).
  - apply script_cons in Hok as (Hg & Hfo & Hok). rewrite !length_app in Hf.
    replace fuel with (length g + S (fuel - length g - 1))%nat by lia.
    rewrite (assertions_skip g src pre (form_text f ++ text fs tail)); [|done|done|done|by apply sealed_gap].
    rewrite <-length_app. cbn [assertions_loop].
    pose proof (form_ends _ Hfo) as [[y Hy] Hcl].
    assert (0 < length (form_text f))%nat by (rewrite Hy; simpl; lia).
    assert (drop (length (pre ++ g)) src = form_text f ++ text fs tail) as Hd
      by (rewrite Hsrc, app_assoc; apply drop_app_length).
    rewrite (proj2 (Nat.leb_gt _ _)) by (subst src; rewrite !length_app; lia).
    unfold slice_from. rewrite boundary_in_ascii by (try done; subst src; rewrite !length_app; lia).
    cbn [mbind outcome_bind]. rewrite Hd. destruct f as [m|a]; cbn [form_text] in *.
    + simpl in Hfo. rewrite !andb_true_iff in Hfo. destruct Hfo as (((Hst & _) & Hq) & _).
      apply starts_with_app in Hst as [r Hr]. assert (length m = 7 + length r)%nat as Hlm by (by subst m).
      assert (drop 7 m = r) as Hdr by (by subst m). rewrite Hdr in Hq.
      rewrite (proj2 (starts_with_app _ _)) by (exists (r ++ text fs tail); by rewrite Hr, <-app_assoc).
      replace (length (pre ++ g) + 7)%nat with (length (pre ++ g ++ m_open))
        by (rewrite !length_app; simpl; lia).
      replace (fuel - length g - 1)%nat with (length r + (fuel - length g - 1 - length r))%nat by lia.
      rewrite (assertions_skip r src (pre ++ g ++ m_open) (text fs tail)); [| |done|done|].
      2: { rewrite Hsrc, Hr. by rewrite <-!app_assoc. }
      2: { apply closed_last in Hcl as [m' Hm']. right. right. rewrite Hr in Hm'.
           destruct r as [|c r _] using rev_ind; [by left|]. right. exists r.
           rewrite app_assoc in Hm'. by apply app_inj_tail in Hm' as [_ ->]. }
      rewrite <-length_app. cbn [assertions_of].
      rewrite <-(IH src (pre ++ g ++ m) (fuel - length g - 1 - length r)%nat (n + 1)); [|..|done|done|lia|lia].
      * f_equal; [rewrite Hr, !length_app; lia|destruct (0 <? n) eqn:?; lia|destruct (0 <? n) eqn:?; lia].
      * rewrite Hsrc. by rewrite <-!app_assoc.
    + pose proof Hfo as Hfo'. simpl in Hfo'. rewrite !andb_true_iff in Hfo'. destruct Hfo' as (((Hst & _) & _) & _).
      apply starts_with_app in Hst as [r Hr].
      replace (starts_with (a ++ text fs tail) m_open) with false by (rewrite Hr; reflexivity).
      replace (starts_with (a ++ text fs tail) a_open) with true
        by (symmetry; apply starts_with_app; exists (r ++ text fs tail); by rewrite Hr, <-app_assoc).
      cbv zeta. rewrite close_at_closed by done.
      rewrite slice_ok; [|apply boundary_in_ascii; [done|subst src; rewrite !length_app; lia]..|lia].
      rewrite Hd, Nat.add_comm, Nat.add_sub, take_app_length. cbn [mbind outcome_bind assertions_of].
      destruct (parse_assertion _ a) as [x|e|w]; [|done..]. cbn [mbind outcome_bind].
      rewrite Nat.add_comm, <-length_app, (IH src ((pre ++ g) ++ a) (fuel - length g - 1)%nat n); [done| |done|done|done|lia].
      rewrite Hsrc. by rewrite <-!app_assoc.
Qed.

(** C21. The two passes agree: on a script of modules and [assert_return]s with other text
    between them, the module pass returns the modules in order and the assertion pass
    returns, for each assertion, what its text says with the number of the last module
    before it, so that the numbers of assertions.json name the files mod0.wasm, ... *)
Theorem script_passes_agree fs tail :
  script_ok fs tail = true →
  extract_modules (text fs tail) = Ok (modules_of fs) ∧
  parse_assertions (text fs tail) = assertions_of 0 fs.
Proof.
  intros Hok. pose proof (script_ascii _ _ Hok) as Ha. split.
  - apply (extract_script fs tail _ [] []); [done..|by left|simpl; lia].
  - exact (assertions_script fs tail (text fs tail) [] (S (length (text fs tail))) 0
      eq_refl Hok Ha (Z.le_refl 0) (Nat.lt_succ_diag_r _)).
Qed.

(** ** Numbers *)

Lemma digit_run_app ds r :
  Forall (fun c => is_digit c = true) ds → (∀ c, head r = Some c → is_digit c = false) →
  digit_run (ds ++ r) = length ds.
Proof.
  intros Hd Hr. induction Hd as [|c ds Hc _ IH]; simpl; [|by rewrite Hc, IH].
  destruct r as [|c r]; simpl; [done|]. by rewrite (Hr c eq_refl).
Qed.

(** A printed number is taken whole. *)
Lemma number_end_show z r :
  (∀ c, head r = Some c → is_digit c = false) → number_end (show z ++ r) = length (show z).
Proof.
  intros Hr. destruct (show_split z) as ([|c ds] & -> & Hne & Hd & _); [done|].
  assert (is_digit c = true) as Hc by (by inversion Hd).
  destruct (digit_not_sign c Hc) as [H1 H2]. destruct (z <? 0); simpl.
  - f_equal. change (if is_digit c then S (digit_run (ds ++ r)) else 0%nat) with
      (digit_run ((c :: ds) ++ r)). by rewrite digit_run_app.
  - rewrite H1, H2. simpl. change (if is_digit c then S (digit_run (ds ++ r)) else 0%nat) with
      (digit_run ((c :: ds) ++ r)). by rewrite digit_run_app.
Qed.

Lemma ws_len_graphic c s : 33 ≤ code c ≤ 127 → ws_len (c :: s) = 0%nat.
Proof.
  intros Hc. unfold ws_len. simpl. replace ((9 <=? code c) && (code c <=? 13) || (code c =? 32)) with false by lia.
  replace (code c =? 194) with false by lia. replace (code c =? 225) with false by lia.
  replace (code c =? 226) with false by lia. replace (code c =? 227) with false by lia.
  destruct s as [|d [|e s]]; done.
Qed.

Lemma show_head z r : ∃ c s, show z ++ r = c :: s ∧ 33 ≤ code c ≤ 127.
Proof.
  destruct (show_split z) as ([|c ds] & -> & Hne & Hd & _); [done|].
  assert (is_digit c = true) as Hc by (by inversion Hd).
  destruct (z <? 0); simpl; eexists _, _; (split; [done|]); [done|].
  unfold is_digit in Hc. lia.
Qed.

Lemma trim_start_space t : (∃ c s, t = c :: s ∧ 33 ≤ code c ≤ 127) → trim_start (" "%char :: t) = t.
Proof.
  intros (c & s & -> & Hc). unfold trim_start.
  change (trim_start_n (length (" "%char :: c :: s)) (" "%char :: c :: s))
    with (trim_start_n (S (length s)) (c :: s)).
  cbn [trim_start_n]. by rewrite ws_len_graphic.
Qed.

(** One round of the number loop: up to the next [i64.const], then a blank and a number. *)
Lemma consts_loop_step sep z r fuel :
  find_str i64_const (sep ++ i64_const ++ " "%char :: show z ++ r) = Some (length sep) →
  (∀ c, head r = Some c → is_digit c = false) → - 2 ^ 63 ≤ z < 2 ^ 63 →
  consts_loop (S fuel) (sep ++ i64_const ++ " "%char :: show z ++ r) = z :: consts_loop fuel r.
Proof.
  intros Hf Hr Hz. cbn [consts_loop]. rewrite Hf. cbv zeta.
  rewrite <-drop_drop, drop_app_length, drop_app_length.
  rewrite trim_start_space by apply show_head. rewrite number_end_show by done.
  assert (0 < length (show z))%nat.
  { destruct (show_split z) as ([|c ds] & -> & Hne & _); [done|]. rewrite length_app. simpl. lia. }
  rewrite (proj2 (Nat.ltb_lt _ _)) by done. rewrite take_app_length, parse_show by done. f_equal.
  rewrite Nat.min_l by (rewrite length_app; lia). by rewrite drop_app_length.
Qed.

(** [ (i64.const z)] for each number. *)
Definition consts_text (zs : list Z) : bytes :=
  zs ≫= (fun z => lit " (" ++ i64_const ++ " "%char :: show z ++ lit ")").

(** The text of an assertion. *)
Definition assert_text (name : bytes) (args : list Z) (result : Z) : bytes :=
  lit "(assert_return (" ++ invoke_open ++ name ++ ["034"%char] ++ consts_text args ++
  lit ")" ++ consts_text [result] ++ lit ")".

(** No [i] is followed by a [6], nor last. *)
Fixpoint no_i6 (s : bytes) : bool :=
  match s with
  | [] => true
  | c :: s' =>
      (if same c "i" then match s' with [] => false | d :: _ => negb (same d "6") end else true) &&
      no_i6 s'
  end.

(** Names of exports that need no escapes and do not look like a constant. *)
Definition plain_name (name : bytes) : bool :=
  ascii_only name && forallb (fun c => negb (same c "034")) name && no_i6 name.

Lemma no_i6_app a b : no_i6 a = true → no_i6 b = true → no_i6 (a ++ b) = true.
Proof.
  intros Ha Hb. induction a as [|c a IH]; simpl in *; [done|]. apply andb_true_iff in Ha as [Hc Ha].
  rewrite (IH Ha), andb_true_r. destruct (same c "i"); [|done]. by destruct a.
Qed.

(** Up to the next number. *)
Lemma find_i64 sep x :
  no_i6 sep = true → find_str i64_const (sep ++ i64_const ++ x) = Some (length sep).
Proof.
  intros Hs. induction sep as [|c sep IH]; simpl in Hs.
  - apply find_str_Some. split_and!; [|simpl; lia|simpl; lia]. apply starts_with_app. by eexists.
  - apply andb_true_iff in Hs as [Hc Hs]. cbn [app find_str].
    replace (starts_with _ _) with false; [by rewrite (IH Hs)|].
    symmetry. apply not_true_is_false. intros [r Hr]%starts_with_app. injection Hr as -> Hr.
    simpl in Hc. destruct sep as [|d sep]; [done|]. by injection Hr as ->.
Qed.

Definition in_i64 (z : Z) : Prop := - 2 ^ 63 ≤ z < 2 ^ 63.

Lemma consts_text_cons z zs :
  consts_text (z :: zs) = lit " (" ++ i64_const ++ " "%char :: show z ++ lit ")" ++ consts_text zs.
Proof.
  unfold consts_text. cbn [mbind list_bind]. rewrite <-!app_assoc. cbn [app]. by rewrite <-!app_assoc.
Qed.

Lemma consts_loop_args sep args z fuel :
  no_i6 sep = true → Forall in_i64 args → in_i64 z → (length args < fuel)%nat →
  consts_loop (S fuel) (sep ++ consts_text args ++ lit ")" ++ consts_text [z] ++ lit ")") = args ++ [z].
Proof.
  intros Hs Ha Hz. revert sep fuel Hs. induction Ha as [|a args Ha _ IH]; intros sep fuel Hs Hf.
  - replace (sep ++ consts_text [] ++ lit ")" ++ consts_text [z] ++ lit ")")
      with ((sep ++ lit ") (") ++ i64_const ++ " "%char :: show z ++ lit "))")
      by (rewrite (consts_text_cons z []); change (consts_text []) with (@nil ascii);
          change (lit ") (") with (lit ")" ++ lit " ("); change (lit "))") with (lit ")" ++ lit ")");
          rewrite app_nil_r, <-!app_assoc; cbn [app]; by rewrite <-!app_assoc).
    rewrite consts_loop_step; [|apply find_i64; by apply no_i6_app|by intros c [= <-]|done].
    by destruct fuel; [lia|].
  - replace (sep ++ consts_text (a :: args) ++ lit ")" ++ consts_text [z] ++ lit ")")
      with ((sep ++ lit " (") ++ i64_const ++ " "%char :: show a ++
            (lit ")" ++ consts_text args ++ lit ")" ++ consts_text [z] ++ lit ")"))
      by (rewrite (consts_text_cons a args), <-!app_assoc; cbn [app]; by rewrite <-!app_assoc).
    rewrite consts_loop_step; [|apply find_i64; by apply no_i6_app|by intros c [= <-]|done].
    destruct fuel as [|fuel]; [simpl in Hf; lia|]. rewrite IH; [done|done|simpl in Hf; lia].
Qed.

Lemma show_ascii z : ascii_only (show z) = true.
Proof.
  destruct (show_split z) as (ds & -> & _ & Hd & _). rewrite ascii_app, andb_true_iff.
  split; [by destruct (z <? 0)|]. apply forallb_forall. intros c Hc%list_elem_of_In.
  rewrite Forall_forall in Hd. specialize (Hd c Hc). unfold is_digit in Hd. lia.
Qed.

Lemma consts_ascii zs : ascii_only (consts_text zs) = true.
Proof.
  induction zs as [|z zs IH]; [done|]. unfold consts_text in *. cbn [mbind list_bind].
  rewrite !ascii_app, IH, andb_true_r. rewrite andb_true_iff. split; [done|].
  rewrite andb_true_iff. split; [done|]. change (ascii_only (show z ++ lit ")") = true).
  by rewrite ascii_app, show_ascii.
Qed.

Lemma find_quote name x :
  forallb (fun c => negb (same c "034")) name = true →
  find_str ["034"%char] (name ++ "034"%char :: x) = Some (length name).
Proof.
  induction name as [|c name IH]; cbn [app forallb find_str starts_with].
  - by rewrite starts_with_nil.
  - rewrite andb_true_iff. intros [Hc Hn]. rewrite starts_with_nil, andb_true_r, (IH Hn).
    destruct (same "034" c) eqn:E; [apply same_spec in E as <-; done|done].
Qed.

(** C36. Printing and parsing an assertion: the text of an [assert_return] of an exported
    function on at least one [i64] argument is read back as that assertion, whatever
    the numbers, negative ones and the extremes included. *)
Theorem assertion_roundtrip n name args result :
  plain_name name = true → args ≠ [] → Forall in_i64 args → in_i64 result →
  parse_assertion n (assert_text name args result) = Ok (Some (mkAssertion n name args [result])).
Proof.
  unfold plain_name. rewrite !andb_true_iff. intros [[Ha Hq] H6] Hne Hargs Hres.
  set (x := consts_text args ++ lit ")" ++ consts_text [result] ++ lit ")").
  assert (ascii_only (assert_text name args result) = true) as Hascii.
  { unfold assert_text. rewrite !ascii_app, Ha, !consts_ascii. done. }
  assert (ascii_only (name ++ "034"%char :: x) = true) as Hasc2.
  { rewrite ascii_app, Ha. unfold x. change (ascii_only (["034"%char] ++ x) = true). unfold x.
    rewrite !ascii_app, !consts_ascii. done. }
  unfold parse_assertion.
  assert (find_str invoke_open (assert_text name args result) = Some 16%nat) as ->.
  { unfold assert_text. rewrite (find_after invoke_open (lit "(assert_return (")).
    - rewrite (proj2 (find_str_Some _ _ 0)); [done|]. split_and!; [|lia|lia]. rewrite drop_0.
      apply starts_with_app. by eexists.
    - intros k Hk. do 16 (destruct k as [|k]; [reflexivity|]). simpl in Hk. lia. }
  unfold slice_from. rewrite boundary_in_ascii; [|done|unfold assert_text; simpl; lia].
  change (drop (16 + 8) (assert_text name args result)) with (name ++ "034"%char :: x).
  cbn [mbind outcome_bind]. rewrite find_quote by done.
  rewrite slice_ok; [|apply boundary_in_ascii; [done|rewrite length_app; lia]..|lia].
  rewrite drop_0, Nat.sub_0_r, take_app_length. cbn [mbind outcome_bind].
  assert (parse_i64_consts (assert_text name args result) = args ++ [result]) as ->.
  { assert (assert_text name args result =
      (lit "(assert_return (" ++ invoke_open ++ name ++ ["034"%char]) ++ x) as ->
      by (unfold assert_text; by rewrite <-!app_assoc).
    unfold parse_i64_consts, x. rewrite consts_loop_args; [done| |done|done|].
    - apply no_i6_app; [done|]. apply no_i6_app; [done|]. by apply no_i6_app.
    - assert (length args ≤ length (consts_text args))%nat.
      { clear. induction args as [|a args IH]; [done|]. rewrite consts_text_cons, !length_app.
        cbn [length]. rewrite !length_app. lia. }
      rewrite !length_app. simpl. lia. }
  assert (2 ≤ length (args ++ [result]))%nat by (rewrite length_app; destruct args; simpl; [done|lia]).
  rewrite (proj2 (Nat.leb_le _ _)) by done. rewrite removelast_last, List.last_last. done.
Qed.

Lemma assertion_roundtrip_witness :
  parse_assertion 2 (assert_text (lit "fib") [-9223372036854775808; 7] 9223372036854775807) =
  Ok (Some (mkAssertion 2 (lit "fib") [-9223372036854775808; 7] [9223372036854775807])).
Proof.
  apply (assertion_roundtrip 2 (lit "fib") [-9223372036854775808; 7] 9223372036854775807).
  - vm_compute. reflexivity.
  - discriminate.
  - repeat constructor; vm_compute; discriminate.
  - split; vm_compute; [discriminate|reflexivity].
Defined.

(** ** What the scan does not see *)

(** Limits of the scan: it takes a parenthesis in a string or a comment for one of the
    text, it stops with a panic at a character outside ASCII that the module pass
    accepts, and it drops an assertion about a function without arguments. *)
Theorem wastprep_limits :
  (∃ m, extract_modules (lit "(module (; ( ;)) (module)") = Ok [m]) ∧
  extract_modules (lit ";; " ++ ["195"; "169"]%char ++ lit " (module)") = Ok [lit "(module)"] ∧
  (∃ w, parse_assertions (lit ";; " ++ ["195"; "169"]%char ++ lit " (module)") = Panic w) ∧
  parse_assertions (lit "(assert_return (invoke " ++ ["034"%char] ++ lit "f" ++ ["034"%char] ++
    lit ") (i64.const 1))") = Ok [].
Proof.
  split; [eexists; vm_compute; reflexivity|]. split; [vm_compute; reflexivity|].
  split; [eexists; vm_compute; reflexivity|]. vm_compute. reflexivity.
Qed.

Lemma extract_modules_segments_witness :
  ∃ ms, extract_modules (lit ";; x (module (func)) (module $b)") = Ok ms ∧
    ms = [lit "(module (func))"; lit "(module $b)"] ∧
    segments (lit ";; x (module (func)) (module $b)") ms.
Proof.
  destruct (extract_modules_segments (lit ";; x (module (func)) (module $b)")) as (ms & Hms & Hs);
    [vm_compute; reflexivity|].
  exists ms. split; [exact Hms|]. split; [|exact Hs]. vm_compute in Hms. injection Hms as <-.
  vm_compute. reflexivity.
Defined.

Definition sample_assert : bytes :=
  lit "(assert_return (invoke " ++ ["034"%char] ++ lit "fac" ++ ["034"%char] ++ lit " (i64.const 5)) (i64.const -120))".

Definition sample_script : list (bytes * Form) :=
  [(lit ";; a ", FModule (lit "(module (func))")); (lit " ", FAssert sample_assert);
   (lit " ", FModule (lit "(module $b)")); ([], FAssert sample_assert)].

Lemma script_passes_agree_witness :
  extract_modules (text sample_script (lit " ;; end")) = Ok [lit "(module (func))"; lit "(module $b)"] ∧
  parse_assertions (text sample_script (lit " ;; end")) =
    Ok [mkAssertion 0 (lit "fac") [5] [-120]; mkAssertion 1 (lit "fac") [5] [-120]].
Proof.
  destruct (script_passes_agree sample_script (lit " ;; end")) as [He Hp]; [vm_compute; reflexivity|].
  split; [rewrite He; reflexivity|]. rewrite Hp. vm_compute. reflexivity.
Defined.
