(* ===== verification/AssertReader.v ===== *)
(** * The reader of assertions of the C++ tests

    [parse_wast_assertions] of [src/run.cpp] reads the [assert_return]s of a script as
    [tools/src/bin/wastprep.rs] does, and fails where that one skips. *)

From S2P Require Import Prelude Text Wastprep.
From stdpp Require Import base list strings pretty.
From Stdlib Require Import Ascii.

Local Open Scope Z_scope.

(** [std::stoll]: [None] when it throws. *)
Definition stoll (s : bytes) : option Z :=
  let '(neg, ds) :=
    match skip_space s with
    | c :: s' => if same c "-" then (true, s') else if same c "+" then (false, s') else (false, c :: s')
    | [] => (false, [])
    end in
  if (digit_run ds =? 0)%nat then None
  else
    let v := if neg then - leading_digits 0 ds else leading_digits 0 ds in
    if (- 2 ^ 63 <=? v) && (v <? 2 ^ 63) then Some v else None.

(** A number, and the text after it. *)
Definition parse_int64_token (s : bytes) : option (Z * bytes) :=
  let u := skip_space s in
  let sign := match u with c :: _ => if same c "+" || same c "-" then 1%nat else 0%nat | [] => 0%nat end in
  let n := digit_run (drop sign u) in
  if (n =? 0)%nat then None
  else match stoll (take (sign + n) u) with Some v => Some (v, drop (sign + n) u) | None => None end.

(** The [while (true)] loop over a chunk, at most [fuel] rounds. *)
Fixpoint chunk_numbers (fuel : nat) (rest : bytes) : option (list Z + string) :=
  match fuel with
  | O => None
  | S fuel' =>
      match find_str i64_const rest with
      | None => Some (inl [])
      | Some p =>
          match parse_int64_token (drop (p + 9) rest) with
          | None => Some (inr "bad i64.const")
          | Some (v, rest') =>
              match chunk_numbers fuel' rest' with
              | Some (inl vs) => Some (inl (v :: vs))
              | r => r
              end
          end
      end
  end.

Definition read_assertion (module : Z) (chunk : bytes) : option (Assertion + string) :=
  match find_str invoke_open chunk with
  | None => Some (inr "assert_return missing invoke")
  | Some inv =>
      match find_str ["034"%char] (drop (inv + 8) chunk) with
      | None => Some (inr "unterminated export name")
      | Some n1 =>
          match chunk_numbers (S (length chunk)) chunk with
          | None => None
          | Some (inr e) => Some (inr e)
          | Some (inl nums) =>
              if (length nums <? 2)%nat then Some (inr "assert_return expected arg and result")
              else Some (inl (mkAssertion module (take n1 (drop (inv + 8) chunk)) (removelast nums) [List.last nums 0]))
          end
      end
  end.

(** The loop over the script, at most [fuel] rounds. *)
Fixpoint reader_loop (fuel : nat) (s : bytes) (pos : nat) (module : Z) (seen_module : bool) :
    option (list Assertion + string) :=
  match fuel with
  | O => None
  | S fuel' =>
      if (length s <=? pos)%nat then Some (inl [])
      else if starts_with (drop pos s) m_open then
        reader_loop fuel' s (pos + 7) (if seen_module then module + 1 else module) true
      else if starts_with (drop pos s) a_open then
        let j := close_at (drop pos s) 0 pos in
        match read_assertion module (take (j - pos) (drop pos s)) with
        | None => None
        | Some (inr e) => Some (inr e)
        | Some (inl a) =>
            match reader_loop fuel' s j module seen_module with
            | Some (inl out) => Some (inl (a :: out))
            | r => r
            end
        end
      else reader_loop fuel' s (S pos) module seen_module
  end.

Definition parse_wast_assertions (s : bytes) : option (list Assertion + string) :=
  reader_loop (S (length s)) s 0 0 false.

(** -1 for a script that cannot be read. *)
Definition count_assert_returns (s : bytes) : option Z :=
  match parse_wast_assertions s with
  | Some (inl a) => Some (i32 (len a))
  | Some (inr _) => Some (-1)
  | None => None
  end.
