(* ===== verification/AssertReaderFacts.v ===== *)
(** * The two readers of a script agree

    What [parse_wast_assertions] of the C++ tests reads, [parse_assertions] of wastprep
    reads too. *)

From S2P Require Import Prelude Text Wastprep WastprepFacts AssertReader.
From stdpp Require Import base list strings pretty.
From Stdlib Require Import Ascii.

Local Open Scope Z_scope.

(** ** White space *)

Lemma ascii_drop n s : ascii_only s = true → ascii_only (drop n s) = true.
Proof. intros H. rewrite <-(take_drop n s), ascii_app in H. by apply andb_true_iff in H as [_ ?]. Qed.

Lemma ascii_take n s : ascii_only s = true → ascii_only (take n s) = true.
Proof. intros H. rewrite <-(take_drop n s), ascii_app in H. by apply andb_true_iff in H as [? _]. Qed.

Lemma ws_len_ascii c s : code c ≤ 127 → ws_len (c :: s) = if is_space c then 1%nat else 0%nat.
Proof.
  intros Hc. unfold ws_len, is_space. simpl. destruct ((9 <=? code c) && (code c <=? 13) || (code c =? 32)); [done|].
  replace (code c =? 194) with false by lia. replace (code c =? 225) with false by lia.
  replace (code c =? 226) with false by lia. replace (code c =? 227) with false by lia.
  destruct s as [|d [|e s]]; done.
Qed.

Lemma trim_start_ascii s : ascii_only s = true → trim_start s = skip_space s.
Proof.
  unfold trim_start. intros Ha. assert (length s ≤ length s)%nat as Hn by done. revert Ha Hn.
  generalize (length s) at 2 3 as n. intros n. revert s. induction n as [|n IH]; intros [|c s] Ha Hn; simpl in Hn; try done; [lia|].
  simpl in Ha. apply andb_true_iff in Ha as [Hc Ha]. cbn [trim_start_n skip_space].
  rewrite ws_len_ascii by lia. destruct (is_space c); [|done]. apply IH; [done|lia].
Qed.

Lemma skip_space_suffix s : ∃ n, skip_space s = drop n s ∧ (n ≤ length s)%nat.
Proof.
  induction s as [|c s (n & E & Hn)]; [by exists 0%nat|]. simpl. destruct (is_space c); [exists (S n)|exists 0%nat]; simpl; split; try done; lia.
Qed.

(** ** Numbers *)

Lemma digit_run_le s : (digit_run s ≤ length s)%nat.
Proof. induction s as [|c s IH]; simpl; [done|]. destruct (is_digit c); lia. Qed.

Lemma digits_run acc s : ∃ v, digits acc (take (digit_run s) s) = Some v.
Proof.
  revert acc. induction s as [|c s IH]; intros acc; simpl; [by exists acc|].
  destruct (is_digit c) eqn:Hc; [|by exists acc]. simpl. rewrite Hc. apply IH.
Qed.

Lemma digit_run_take s : digit_run (take (digit_run s) s) = digit_run s.
Proof.
  induction s as [|c s IH]; [done|]. simpl. destruct (is_digit c) eqn:Hc; [|done]. simpl. by rewrite Hc, IH.
Qed.

(** On a sign and digits, [stoll] and [parse] are the same. *)
Lemma stoll_parse_i64 u n :
  (match u with c :: _ => is_space c = false | [] => True end) → n = number_end u →
  (digit_run (drop (match u with c :: _ => if same c "+" || same c "-" then 1 else 0 | [] => 0 end)%nat u) ≠ 0)%nat →
  stoll (take n u) = parse_i64 (take n u).
Proof.
  intros Hs -> Hd. destruct u as [|c u]; [done|]. unfold number_end. rewrite orb_comm.
  destruct (same c "+" || same c "-") eqn:Hc; simpl in Hd |- *.
  - destruct u as [|d u]; [done|]. simpl in Hd |- *. destruct (is_digit d) eqn:Hdd; [|done]. simpl.
    unfold stoll, parse_i64. rewrite skip_space_no by done.
    destruct (digits_run 0 (d :: u)) as [v Hv]. simpl in Hv. rewrite Hdd in Hv. cbn [take] in Hv.
    pose proof (leading_digits_all _ _ _ Hv) as Hl.
    assert ((digit_run (d :: take (digit_run u) u) =? 0)%nat = false) as Hr by (simpl; by rewrite Hdd).
    destruct (same c "-"); [by rewrite Hr, Hv, Hl|]. simpl in Hc. rewrite orb_false_r in Hc.
    by rewrite Hc, Hr, Hv, Hl.
  - destruct (is_digit c) eqn:Hdd; [|done]. simpl. apply orb_false_iff in Hc as [Hp Hm].
    unfold stoll, parse_i64. rewrite skip_space_no by done. rewrite Hp, Hm.
    destruct (digits_run 0 (c :: u)) as [v Hv]. simpl in Hv. rewrite Hdd in Hv. cbn [take] in Hv.
    pose proof (leading_digits_all _ _ _ Hv) as Hl.
    assert ((digit_run (c :: take (digit_run u) u) =? 0)%nat = false) as Hr by (simpl; by rewrite Hdd).
    by rewrite Hr, Hv, Hl.
Qed.

Lemma skip_space_head s : match skip_space s with c :: _ => is_space c = false | [] => True end.
Proof. induction s as [|c s IH]; [done|]. simpl. by destruct (is_space c) eqn:E. Qed.

(** A number the C++ reader takes is one wastprep takes, up to the same place. *)
Lemma token_ok s v r :
  ascii_only s = true → parse_int64_token s = Some (v, r) →
  let t := trim_start s in
  (0 < number_end t ≤ length t)%nat ∧ parse_i64 (take (number_end t) t) = Some v ∧ r = drop (number_end t) t.
Proof.
  intros Ha Hp. cbv zeta. rewrite trim_start_ascii by done. unfold parse_int64_token in Hp.
  pose proof (skip_space_head s) as Hh. set (u := skip_space s) in *.
  set (sg := (match u with c :: _ => if same c "+" || same c "-" then 1 else 0 | [] => 0 end)%nat) in *.
  destruct (digit_run (drop sg u) =? 0)%nat eqn:Hz; [done|]. apply Nat.eqb_neq in Hz.
  assert (number_end u = sg + digit_run (drop sg u))%nat as He.
  { unfold sg, number_end. destruct u as [|c u']; [done|]. rewrite orb_comm. by destruct (_ || _). }
  assert (sg ≤ length u)%nat as Hsg by (unfold sg; destruct u; simpl; [done|destruct (_ || _); lia]).
  pose proof (digit_run_le (drop sg u)) as Hle. rewrite length_drop in Hle. rewrite <-He in Hp.
  rewrite (stoll_parse_i64 u (number_end u) Hh eq_refl Hz) in Hp. destruct (parse_i64 _) as [w|]; [|done].
  injection Hp as <- <-. split_and!; [lia..|done|done].
Qed.

Lemma token_shorter s v r : parse_int64_token s = Some (v, r) → ∃ n, r = drop n s.
Proof.
  unfold parse_int64_token. destruct (skip_space_suffix s) as (m & -> & _).
  destruct (_ =? 0)%nat; [done|]. destruct (stoll _); [|done]. intros [= _ <-]. rewrite drop_drop. by eexists.
Qed.

Lemma numbers_agree fuel rest vs :
  ascii_only rest = true → chunk_numbers fuel rest = Some (inl vs) → consts_loop fuel rest = vs.
Proof.
  revert rest vs. induction fuel as [|fuel IH]; intros rest vs Ha; [done|]. simpl.
  destruct (find_str i64_const rest) as [p|]; [|by intros [= <-]].
  destruct (parse_int64_token (drop (p + 9) rest)) as [[v r]|] eqn:Ht; [|done].
  destruct (token_ok _ _ _ (ascii_drop _ _ Ha) Ht) as (Hn & Hv & ->). change (p + length i64_const)%nat with (p + 9)%nat.
  set (t := trim_start _) in *. destruct (chunk_numbers fuel _) as [[ws|]|] eqn:Hc; [|done..]. intros [= <-].
  rewrite (proj2 (Nat.ltb_lt _ _)) by lia. rewrite Hv, Nat.min_l by lia. f_equal. apply IH; [|done].
  unfold t. rewrite trim_start_ascii by (by apply ascii_drop). destruct (skip_space_suffix (drop (p + 9) rest)) as (m & -> & _).
  by do 3 apply ascii_drop.
Qed.

Lemma numbers_end fuel rest : (length rest < fuel)%nat → is_Some (chunk_numbers fuel rest).
Proof.
  revert rest. induction fuel as [|fuel IH]; intros rest Hf; [lia|]. simpl.
  destruct (find_str i64_const rest) as [p|] eqn:Hp; [|by eexists].
  apply find_str_Some in Hp as (Hs & _ & _). apply starts_with_length in Hs. rewrite length_drop in Hs.
  change (length i64_const) with 9%nat in Hs.
  destruct (parse_int64_token _) as [[v r]|] eqn:Ht; [|by eexists]. apply token_shorter in Ht as [n ->].
  destruct (IH (drop n (drop (p + 9) rest))) as [[] ->]; [rewrite !length_drop; lia|by eexists..].
Qed.

(** ** Assertions *)

Lemma assertion_agree module chunk a :
  ascii_only chunk = true → read_assertion module chunk = Some (inl a) → parse_assertion module chunk = Ok (Some a).
Proof.
  intros Ha. unfold read_assertion, parse_assertion. destruct (find_str invoke_open chunk) as [q|] eqn:Hq; [|done].
  apply find_str_Some in Hq as (Hs & _ & _). apply starts_with_length in Hs. rewrite length_drop in Hs.
  change (length invoke_open) with 8%nat in Hs.
  unfold slice_from. rewrite boundary_in_ascii by (done || lia). cbn [mbind outcome_bind].
  destruct (find_str _ (drop (q + 8) chunk)) as [n1|] eqn:Hn; [|done]. apply find_str_Some in Hn as (_ & Hn & _).
  pose proof (ascii_drop (q + 8) _ Ha) as Ha'. rewrite slice_ok by (try apply boundary_in_ascii; done || lia).
  rewrite Nat.sub_0_r, drop_0. cbn [mbind outcome_bind].
  destruct (chunk_numbers _ chunk) as [[nums|]|] eqn:Hc; [|done..]. apply numbers_agree in Hc as Hc'; [|done].
  unfold parse_i64_consts. rewrite Hc'. destruct (length nums <? 2)%nat eqn:Hl; [done|].
  apply Nat.ltb_ge in Hl. rewrite (proj2 (Nat.leb_le _ _)) by done. by intros [= <-].
Qed.

Lemma read_assertion_ends module chunk : is_Some (read_assertion module chunk).
Proof.
  unfold read_assertion. destruct (find_str _ chunk); [|by eexists]. destruct (find_str _ _); [|by eexists].
  destruct (numbers_end (S (length chunk)) chunk) as [[nums|e] ->]; [lia| |by eexists]. by destruct (_ <? _)%nat; eexists.
Qed.

(** The end of an assertion is after its start and in the text. *)
Lemma assertion_span s pos :
  starts_with (drop pos s) a_open = true →
  let j := close_at (drop pos s) 0 pos in (pos < j ≤ length s)%nat.
Proof.
  intros Hs. cbv zeta. destruct (close_at_spec (drop pos s) 0 pos) as (m & rest & Hd & -> & Hm).
  pose proof (f_equal length Hd) as Hl. rewrite length_drop, length_app in Hl.
  apply starts_with_length in Hs. rewrite length_drop in Hs. change (length a_open) with 14%nat in Hs.
  destruct m as [|c m]; [|simpl in *; lia].
  destruct Hm as [Hm|[_ ->]]; [done|]. simpl in Hl. lia.
Qed.

Lemma loops_agree fuel s : ascii_only s = true → ∀ pos module seen,
  (length s < fuel + pos)%nat → (pos ≤ length s)%nat → ∃ r, reader_loop fuel s pos module seen = Some r ∧
    ∀ l, r = inl l → assertions_loop fuel s pos module seen = Ok l.
Proof.
  intros Ha. induction fuel as [|fuel IH]; intros pos module seen Hf Hpos; [lia|]. simpl.
  destruct (length s <=? pos)%nat eqn:He; [exists (inl []); split; [done|]; by intros l [= <-]|]. apply Nat.leb_gt in He.
  unfold slice_from. rewrite boundary_in_ascii by (done || lia). cbn [mbind outcome_bind].
  destruct (starts_with (drop pos s) m_open) eqn:Hm.
  { apply starts_with_length in Hm. rewrite length_drop in Hm. change (length m_open) with 7%nat in Hm. apply IH; lia. }
  destruct (starts_with (drop pos s) a_open) eqn:Has; [|apply IH; lia].
  pose proof (assertion_span s pos Has) as Hj. cbv zeta in Hj. set (j := close_at _ _ _) in *.
  rewrite slice_ok by (try apply boundary_in_ascii; done || lia). cbn [mbind outcome_bind].
  destruct (read_assertion_ends module (take (j - pos) (drop pos s))) as [[a|e] Hr]; rewrite Hr; [|by exists (inr e)].
  apply assertion_agree in Hr; [|by apply ascii_take, ascii_drop]. rewrite Hr. cbn [mbind outcome_bind].
  destruct (IH j module seen) as (r & Hl & Hrest); [lia..|]. rewrite Hl. destruct r as [out|e]; [|by exists (inr e)].
  rewrite (Hrest out eq_refl). exists (inl (a :: out)). split; [done|]. by intros l [= <-].
Qed.

(** ** Theorem *)

(** C22. The two readers agree.  On a script in ASCII the C++ reader ends, and when it
    accepts the script, the list of assertions it reads is exactly the one wastprep reads:
    the same exports, arguments and results, on the same modules, in the same order. *)
Theorem readers_agree src :
  ascii_only src = true → ∃ r, parse_wast_assertions src = Some r ∧
    ∀ l, r = inl l → parse_assertions src = Ok l.
Proof. intros Ha. apply loops_agree; [done|lia..]. Qed.

Lemma readers_agree_witness :
  parse_assertions (text sample_script (lit " ;; end")) =
    Ok [mkAssertion 0 (lit "fac") [5] [-120]; mkAssertion 1 (lit "fac") [5] [-120]].
Proof.
  destruct (readers_agree (text sample_script (lit " ;; end"))) as (r & Hr & Hl); [vm_compute; reflexivity|].
  apply Hl. assert (Some r = Some (inl [mkAssertion 0 (lit "fac") [5] [-120]; mkAssertion 1 (lit "fac") [5] [-120]])) as Hs
    by (rewrite <-Hr; vm_compute; reflexivity).
  injection Hs as Hs. exact Hs.
Defined.

(** A script with an assertion that the C++ reader rejects and wastprep leaves out. *)
Example readers_differ :
  let src := lit "(module)(assert_return (f))" in
  parse_wast_assertions src = Some (inr "assert_return missing invoke"%string) ∧ parse_assertions src = Ok [].
Proof. split; vm_compute; reflexivity. Qed.
