(* ===== verification/Catalog.v ===== *)
(** * The catalogue of spec tests

    [tools/src/bin/wast-catalog.rs]: the directives of each .wast file become cases for
    the test runner, and each encoded module a numbered .wasm file.  Files, parsing
    and encoding are inputs: a file is what reading and parsing it gave, and a module
    directive carries the result of [encode()]. *)

From S2P Require Import Prelude BTree Text.
From stdpp Require Import base list strings pretty.
From Stdlib Require Import Ascii.

Local Open Scope Z_scope.

Record Case := mkCase {
  kind : string;
  file : string;
  export : string;
  wasm : string;
  skip : string;
  args : list string;
  arg_ty : list string;
  expected : list string;
  exp_ty : list string }.

(** ** The directives of the [wast] crate *)

(** [WastArg] and [WastRet]: integers of the core language, or anything else. *)
Inductive WastVal := VI32 (v : Z) | VI64 (v : Z) | VOther.

Definition Encoded := (list Z + string)%type.

Record WastInvoke := mkInvoke {
  inv_module : option string;
  inv_name : string;
  inv_args : list WastVal }.

Inductive WastExecute := ExInvoke (inv : WastInvoke) | ExWat (wat : Encoded) | ExGet.

Inductive WastDirective :=
  | Module (m : Encoded)
  | ModuleDefinition (m : Encoded)
  | Register
  | Invoke (inv : WastInvoke)
  | AssertReturn (exec : WastExecute) (results : list WastVal)
  | AssertTrap (exec : WastExecute)
  | AssertUnlinkable (m : Encoded)
  | AssertInvalid
  | AssertMalformed
  | AssertExhaustion
  | AssertException
  | AssertSuspension
  | OtherDirective.

(** A .wast file: it cannot be read, lexed or parsed, or it has directives. *)
Inductive Source :=
  | ReadErr (e : string)
  | BufErr (e : string)
  | ParseErr (e : string)
  | Parsed (ds : list WastDirective).

(** ** Values *)

Definition val_core (what : string) (a : WastVal) : (Z * string) + string :=
  match a with
  | VI32 v => inl (u32 v, "i32")
  | VI64 v => inl (u64 v, "i64")
  | VOther => inr what
  end.

Definition arg_core : WastVal → (Z * string) + string := val_core "non-int arg".
Definition ret_core : WastVal → (Z * string) + string := val_core "non-int result".

(** The loop over the arguments or the results: the values, their types, and the last
    error. *)
Fixpoint collect (core : WastVal → (Z * string) + string) (l : list WastVal)
    (acc : list string * list string * option string) : list string * list string * option string :=
  match l with
  | [] => acc
  | a :: l' =>
      let '(vs, tys, bad) := acc in
      match core a with
      | inl (bits, ty) => collect core l' (vs ++ [pretty bits], tys ++ [ty], bad)
      | inr e => collect core l' (vs, tys, Some e)
      end
  end.

(** ** State *)

Record CState := mkC {
  cases : list Case;
  wasm_n : Z;
  written : list (string * list Z);
  parse_fail : Z;
  current_wasm : option string;
  current_skip : option string }.

Definition push_case (c : Case) (s : CState) : CState :=
  mkC (s.(cases) ++ [c]) s.(wasm_n) s.(written) s.(parse_fail) s.(current_wasm) s.(current_skip).

Definition set_current (w sk : option string) (s : CState) : CState :=
  mkC s.(cases) s.(wasm_n) s.(written) s.(parse_fail) w sk.

Definition skip_case (rel exp w reason : string) : Case := mkCase "skip" rel exp w reason [] [] [] [].

(** [format!("{wasm_n:05}.wasm")] *)
Definition wasm_name (n : Z) : string :=
  let d := pretty n in
  String.concat "" (replicate (5 - String.length d) "0") +:+ d +:+ ".wasm".

(** [wasm_n += 1; fs::write(wasm_dir.join(&name), &bytes)]: the path is returned. *)
Definition write_wasm (b : list Z) (s : CState) : string * CState :=
  let n := u32 (s.(wasm_n) + 1) in
  ("wasm/" +:+ wasm_name n,
   mkC s.(cases) n (s.(written) ++ [(wasm_name n, b)]) s.(parse_fail) s.(current_wasm) s.(current_skip)).

(** ** Directives *)

Definition on_module (m : Encoded) (s : CState) : CState :=
  match m with
  | inl b => let '(path, s) := write_wasm b s in set_current (Some path) None s
  | inr e => set_current None (Some ("encode: " +:+ e)) s
  end.

(** A call of the current module, of the given kind and with the given results. *)
Definition on_call (k rel : string) (inv : WastInvoke) (results : list WastVal) (s : CState) : CState :=
  match s.(current_skip), s.(current_wasm) with
  | Some reason, _ => push_case (skip_case rel inv.(inv_name) "" reason) s
  | None, None => push_case (skip_case rel inv.(inv_name) "" "no module") s
  | None, Some w =>
      let '(args_v, tys, bad) := collect arg_core inv.(inv_args) ([], [], None) in
      let '(exp_v, etys, bad) := collect ret_core results ([], [], bad) in
      match bad with
      | Some e => push_case (skip_case rel inv.(inv_name) w e) s
      | None => push_case (mkCase k rel inv.(inv_name) w "" args_v tys exp_v etys) s
      end
  end.

(** A module that must not link. *)
Definition on_unlinkable (what rel : string) (m : Encoded) (s : CState) : CState :=
  match m with
  | inl b =>
      let '(path, s) := write_wasm b s in
      push_case (mkCase "unlinkable" rel "" path "" [] [] [] []) s
  | inr e => push_case (skip_case rel "" "" (what +:+ e)) s
  end.

Definition on_invoke (rel : string) (inv : WastInvoke) (s : CState) : CState :=
  on_call "invoke" rel inv [] s.

Definition on_assert_return (rel : string) (exec : WastExecute) (results : list WastVal) (s : CState) :
    CState :=
  match exec with
  | ExInvoke inv => on_call "return" rel inv results s
  | _ => push_case (skip_case rel "" "" "non-invoke assert_return") s
  end.

Definition on_assert_trap (rel : string) (exec : WastExecute) (s : CState) : CState :=
  match exec with
  | ExWat wat => on_unlinkable "instantiate-trap encode: " rel wat s
  | ExInvoke inv => on_call "trap" rel inv [] s
  | ExGet => push_case (skip_case rel "" "" "non-invoke assert_trap") s
  end.

Definition on_directive (rel : string) (s : CState) (d : WastDirective) : CState :=
  match d with
  | Module m | ModuleDefinition m => on_module m s
  | Register => s
  | Invoke inv => on_invoke rel inv s
  | AssertReturn exec results => on_assert_return rel exec results s
  | AssertTrap exec => on_assert_trap rel exec s
  | AssertUnlinkable m => on_unlinkable "unlinkable encode: " rel m s
  | AssertInvalid | AssertMalformed | AssertExhaustion | AssertException | AssertSuspension =>
      push_case (skip_case rel "" "" "assert_invalid/malformed") s
  | OtherDirective => s
  end.

(** ** Files *)

Definition fail_parse (s : CState) : CState :=
  mkC s.(cases) s.(wasm_n) s.(written) (u32 (s.(parse_fail) + 1)) s.(current_wasm) s.(current_skip).

Definition on_file (s : CState) (f : string * Source) : CState :=
  let rel := f.1 in
  match f.2 with
  | ReadErr e => push_case (skip_case rel "" "" ("read: " +:+ e)) s
  | BufErr e => push_case (skip_case rel "" "" ("parse: " +:+ e)) (fail_parse s)
  | ParseErr e => push_case (skip_case rel "" "" ("wast: " +:+ e)) (fail_parse s)
  | Parsed ds => foldl (on_directive rel) (set_current None None s) ds
  end.

Definition start : CState := mkC [] 0 [] 0 None None.

Definition catalog (files : list (string * Source)) : CState := foldl on_file start files.

(** ** The report *)

Definition kinds (cs : list Case) : list (string * Z) := tally str_cmp u32 (kind <$> cs).

Definition runnable (c : Case) : bool := negb (bool_decide (c.(kind) = "skip")).

Definition runnable_by_file (cs : list Case) : list (string * Z) :=
  tally str_cmp u32 (file <$> List.filter runnable cs).

(** catalog.jsonl: a line per case. *)
Definition jsonl (to_string : Case → bytes) (cs : list Case) : bytes :=
  cs ≫= (fun c => to_string c ++ ["010"%char]).
