(* ===== verification/CatalogFacts.v ===== *)
(** * The catalogue of spec tests: what its cases say

    Every case is well formed and names a module file that was written, the module a
    call is made on is the last one before it, and the report counts the cases. *)

From S2P Require Import Prelude BTree Text Catalog.
From stdpp Require Import base list strings pretty sets.
From Stdlib Require Import Ascii.

Local Open Scope Z_scope.

(** ** Names of module files *)

Lemma digits_zeros k ds : digits 0 (replicate k "0"%char ++ ds) = digits 0 ds.
Proof. induction k; simpl; [done|]. done. Qed.

Lemma lit_concat k : lit (String.concat "" (replicate k "0")) = replicate k "0"%char.
Proof.
  induction k as [|k IH]; [done|]. cbn [replicate]. destruct k; [done|].
  change (lit ("0" +:+ "" +:+ String.concat "" (replicate (S k) "0")) = "0"%char :: replicate (S k) "0"%char).
  by rewrite lit_app, lit_app, IH.
Qed.

Lemma show_nonneg n : 0 ≤ n → lit (pretty n) = lit (pretty (Z.to_N n)).
Proof. by destruct n. Qed.

Lemma lit_wasm_name n :
  0 ≤ n → ∃ k, lit (wasm_name n) = (replicate k "0"%char ++ lit (pretty (Z.to_N n))) ++ lit ".wasm".
Proof.
  intros Hn. unfold wasm_name. eexists. rewrite !lit_app, lit_concat, show_nonneg by done.
  by rewrite app_assoc.
Qed.

Lemma wasm_name_inj n m : 0 ≤ n → 0 ≤ m → wasm_name n = wasm_name m → n = m.
Proof.
  intros Hn Hm Heq. destruct (lit_wasm_name n Hn) as [k Hk]. destruct (lit_wasm_name m Hm) as [l Hl].
  rewrite <-Heq, Hk in Hl. apply app_inv_tail in Hl. apply (f_equal (digits 0)) in Hl.
  rewrite !digits_zeros, !digits_pretty in Hl. injection Hl. lia.
Qed.

(** ** Cases *)

Definition all_kinds : list string := ["skip"; "invoke"; "return"; "trap"; "unlinkable"].

(** A value as it is written: its decimal digits and its type. *)
Definition val_ok (v ty : string) : Prop :=
  (ty = "i32" ∧ ∃ z, 0 ≤ z < 2 ^ 32 ∧ v = pretty z) ∨ (ty = "i64" ∧ ∃ z, 0 ≤ z < 2 ^ 64 ∧ v = pretty z).

(** A case, given the module files written. *)
Record case_ok (files : list (string * list Z)) (c : Case) : Prop := {
  ck_kind : c.(kind) ∈ all_kinds;
  ck_skip : c.(kind) = "skip" ↔ c.(skip) ≠ "";
  ck_wasm : c.(kind) ≠ "skip" → ∃ nm b, (nm, b) ∈ files ∧ c.(wasm) = "wasm/" +:+ nm;
  ck_args : Forall2 val_ok c.(args) c.(arg_ty);
  ck_expected : Forall2 val_ok c.(expected) c.(exp_ty);
  ck_return : c.(expected) ≠ [] → c.(kind) = "return" }.

Lemma case_ok_mono fs fs' c : fs ⊆ fs' → case_ok fs c → case_ok fs' c.
Proof. intros Hs [H1 H2 H3 H4 H5 H6]. split; try done. intros Hk. destruct (H3 Hk) as (nm & b & ? & ?). eauto. Qed.

Lemma skip_ok fs rel exp w reason : reason ≠ "" → case_ok fs (skip_case rel exp w reason).
Proof. intros Hr. split; simpl; try done; [by left|constructor..]. Qed.

(** *** Values *)

Lemma collect_ok core l vs tys bad vs' tys' bad' :
  (∀ a x, core a = inl x → val_ok (pretty x.1) x.2) →
  Forall2 val_ok vs tys → collect core l (vs, tys, bad) = (vs', tys', bad') → Forall2 val_ok vs' tys'.
Proof.
  intros Hc. revert vs tys bad. induction l as [|a l IH]; intros vs tys bad HF; simpl; [by intros [= <- <- _]|].
  destruct (core a) as [[bits ty]|e] eqn:E; apply IH; [|done].
  apply Forall2_app; [done|]. constructor; [|constructor]. apply (Hc a (bits, ty) E).
Qed.

Lemma val_core_ok what a x : val_core what a = inl x → val_ok (pretty x.1) x.2.
Proof.
  destruct a; simpl; intros [= <-]; simpl.
  - left. split; [done|]. eexists. split; [apply u32_range|done].
  - right. split; [done|]. eexists. split; [apply u64_range|done].
Qed.

(** The text of an error is not empty. *)
Lemma collect_bad core l acc vs tys e :
  (∀ a e, core a = inr e → e ≠ "") → (∀ e, acc.2 = Some e → e ≠ "") →
  collect core l acc = (vs, tys, Some e) → e ≠ "".
Proof.
  intros Hc. revert acc. induction l as [|a l IH]; intros [[vs0 tys0] bad] Hb; simpl.
  - intros [= _ _ ->]. by apply Hb.
  - destruct (core a) as [[bits ty]|e0] eqn:E; apply IH; simpl; [done|]. intros ? [= <-]. by eapply Hc.
Qed.

(** *** State *)

(** The module files are numbered in the order they are written. *)
Record c_inv (s : CState) : Prop := {
  ci_n : s.(wasm_n) = u32 (len s.(written));
  ci_names : ∀ i e, s.(written) !! i = Some e → e.1 = wasm_name (u32 (Z.of_nat i + 1));
  ci_cases : Forall (case_ok s.(written)) s.(cases);
  ci_wasm : ∀ p, s.(current_wasm) = Some p → ∃ nm b, (nm, b) ∈ s.(written) ∧ p = "wasm/" +:+ nm;
  ci_skip : ∀ r, s.(current_skip) = Some r → r ≠ "" }.

Lemma push_inv c s : c_inv s → case_ok s.(written) c → c_inv (push_case c s).
Proof. intros [] Hc. split; simpl; try done. apply Forall_app. by split; [|constructor]. Qed.

Lemma write_inv b s path s' :
  c_inv s → write_wasm b s = (path, s') →
  c_inv s' ∧ s'.(cases) = s.(cases) ∧ s'.(current_wasm) = s.(current_wasm) ∧
  s'.(current_skip) = s.(current_skip) ∧ s.(written) ⊆ s'.(written) ∧
  ∃ nm, (nm, b) ∈ s'.(written) ∧ path = "wasm/" +:+ nm.
Proof.
  intros [Hn Hnm Hc Hw Hs]. unfold write_wasm. intros [= <- <-]. simpl.
  assert (s.(written) ⊆ s.(written) ++ [(wasm_name (u32 (s.(wasm_n) + 1)), b)]) as Hsub
    by (intros x Hx; apply elem_of_app; by left).
  assert (u32 (s.(wasm_n) + 1) = u32 (len s.(written) + 1)) as Hn1
    by (rewrite Hn; apply (w_add (w := u32))).
  split_and!; try done.
  - split; simpl.
    + rewrite Hn1, len_app. done.
    + intros i e He. apply lookup_snoc_Some in He as [[Hi He]|[-> <-]]; [by apply Hnm|].
      simpl. by rewrite Hn1.
    + eapply Forall_impl; [exact Hc|]. intros c. by apply case_ok_mono.
    + intros p Hp. destruct (Hw p Hp) as (nm & b' & ? & ?). eauto.
    + done.
  - eexists. split; [|done]. apply elem_of_app. right. by left.
Qed.

Lemma append_nonempty a b : a ≠ "" → a +:+ b ≠ "".
Proof. by destruct a. Qed.

Lemma on_module_inv m s : c_inv s → c_inv (on_module m s).
Proof.
  intros Hs. unfold on_module. destruct m as [b|e].
  - destruct (write_wasm b s) as [path s'] eqn:E.
    destruct (write_inv _ _ _ _ Hs E) as ([H1 H2 H3 H4 H5] & _ & _ & _ & _ & nm & Hin & ->).
    split; simpl; try done. intros p [= <-]. eauto.
  - destruct Hs as [H1 H2 H3 H4 H5]. split; simpl; try done. intros r [= <-]. by apply append_nonempty.
Qed.

Lemma on_call_inv k rel inv results s :
  c_inv s → k ∈ all_kinds → k ≠ "skip" → (results ≠ [] → k = "return") →
  c_inv (on_call k rel inv results s).
Proof.
  intros Hs Hk Hks Hr. unfold on_call. pose proof Hs as [_ _ _ Hw Hsk].
  destruct (current_skip s) as [r|]; [by apply push_inv, skip_ok; [|apply Hsk]|].
  destruct (current_wasm s) as [w|]; [|by apply push_inv, skip_ok].
  destruct (collect arg_core _ _) as [[args_v tys] bad] eqn:E1.
  destruct (collect ret_core _ _) as [[exp_v etys] bad'] eqn:E2.
  assert (Forall2 val_ok args_v tys) as Ha.
  { eapply (collect_ok arg_core); [intros; by eapply val_core_ok| |exact E1]. constructor. }
  assert (Forall2 val_ok exp_v etys) as He.
  { eapply (collect_ok ret_core); [intros; by eapply val_core_ok| |exact E2]. constructor. }
  destruct bad' as [e|].
  - apply push_inv, skip_ok; [done|]. eapply (collect_bad ret_core); [| |exact E2].
    + intros a e'. by destruct a; intros [= <-].
    + simpl. intros e' ->. eapply (collect_bad arg_core); [| |exact E1]; [|done].
      intros a e0. by destruct a; intros [= <-].
  - apply push_inv; [done|]. split; simpl; try done.
    + intros _. destruct (Hw w eq_refl) as (nm & b & ? & ?). eauto.
    + intros Hne. apply Hr. intros ->. simpl in E2. congruence.
Qed.

Lemma on_unlinkable_inv what rel m s : what ≠ "" → c_inv s → c_inv (on_unlinkable what rel m s).
Proof.
  intros Hwh Hs. unfold on_unlinkable. destruct m as [b|e].
  - destruct (write_wasm b s) as [path s'] eqn:E.
    destruct (write_inv _ _ _ _ Hs E) as (Hs' & _ & _ & _ & _ & nm & Hin & ->).
    apply push_inv; [done|]. split; simpl; try done; [set_unfold; tauto|eauto|constructor..].
  - apply push_inv, skip_ok; [done|]. by apply append_nonempty.
Qed.

Lemma on_directive_inv rel s d : c_inv s → c_inv (on_directive rel s d).
Proof.
  intros Hs. destruct d as [m|m| |inv|[inv|w|] results|[inv|w|]|m| | | | | |]; simpl; try done;
    try (by apply on_module_inv); try (by apply push_inv, skip_ok); try (by apply on_unlinkable_inv);
    apply on_call_inv; try done; set_unfold; tauto.
Qed.

Lemma on_file_inv s f : c_inv s → c_inv (on_file s f).
Proof.
  intros Hs. pose proof Hs as [H1 H2 H3 H4 H5]. unfold on_file. destruct f as [rel [e|e|e|ds]]; simpl.
  - by apply push_inv, skip_ok.
  - by apply push_inv, skip_ok.
  - by apply push_inv, skip_ok.
  - assert (c_inv (set_current None None s)) as Hs' by by split.
    revert Hs'. generalize (set_current None None s). clear. induction ds as [|d ds IH]; intros s Hs; simpl; [done|].
    by apply IH, on_directive_inv.
Qed.

Lemma catalog_inv files : c_inv (catalog files).
Proof.
  unfold catalog. assert (c_inv start) as Hs by by split. revert Hs. generalize start.
  induction files as [|f files IH]; intros s Hs; simpl; [done|]. by apply IH, on_file_inv.
Qed.

(** C37. The catalogue is well formed: every case has one of the five kinds, a reason exactly
    when it is skipped, and otherwise names a module file that was written; values are
    decimal words of their type, and only [return] cases expect any.  The module files
    have distinct names, and the report's counts of kinds add up to the number of
    cases. *)
Theorem catalog_wellformed files :
  let s := catalog files in
  Forall (case_ok s.(written)) s.(cases) ∧
  (len s.(written) < 2 ^ 32 → NoDup (s.(written).*1)) ∧
  u32 (sum_counts (kinds s.(cases))) = u32 (len s.(cases)) ∧
  (∀ k, get_count str_cmp k (kinds s.(cases)) = u32 (occurrences k (kind <$> s.(cases)))).
Proof.
  intros s. destruct (catalog_inv files) as [H1 H2 H3 _ _]. fold s in H1, H2, H3. split_and!; [done| | |].
  - intros Hl. apply NoDup_alt. intros i j x Hi Hj.
    rewrite list_lookup_fmap in Hi, Hj. apply fmap_Some in Hi as (e & He & ->).
    apply fmap_Some in Hj as (e' & He' & Heq). rewrite (H2 _ _ He), (H2 _ _ He') in Heq.
    apply lookup_lt_Some in He, He'. unfold len in Hl.
    rewrite !u32_id in Heq by lia. apply wasm_name_inj in Heq; lia.
  - unfold kinds. rewrite sum_tally. unfold len. by rewrite length_fmap.
  - intros k. unfold kinds. apply get_tally.
Qed.

(** ** The module a call is made on *)

(** The last module directive. *)
Definition last_module (ds : list WastDirective) : option Encoded :=
  foldl (fun acc d => match d with Module m | ModuleDefinition m => Some m | _ => acc end) None ds.

Definition current_ok (lm : option Encoded) (s : CState) : Prop :=
  match lm with
  | None => s.(current_wasm) = None ∧ s.(current_skip) = None
  | Some (inl b) => ∃ nm, (nm, b) ∈ s.(written) ∧ s.(current_wasm) = Some ("wasm/" +:+ nm) ∧
                      s.(current_skip) = None
  | Some (inr e) => s.(current_wasm) = None ∧ s.(current_skip) = Some ("encode: " +:+ e)
  end.

Lemma current_kept lm s s' :
  current_ok lm s → s'.(current_wasm) = s.(current_wasm) → s'.(current_skip) = s.(current_skip) →
  s.(written) ⊆ s'.(written) → current_ok lm s'.
Proof.
  unfold current_ok. intros Hc -> -> Hs. destruct lm as [[b|e]|]; [|done..].
  destruct Hc as (nm & ? & ?). eauto.
Qed.

Lemma on_call_current k rel inv results s :
  let s' := on_call k rel inv results s in
  s'.(current_wasm) = s.(current_wasm) ∧ s'.(current_skip) = s.(current_skip) ∧ s'.(written) = s.(written).
Proof.
  cbv zeta. unfold on_call. destruct s as [cs n wr pf [w|] [sk|]]; simpl; try done.
  destruct (collect arg_core _ _) as [[? ?] ?]. by destruct (collect ret_core _ _) as [[? ?] []].
Qed.

Lemma on_directive_current rel s d lm :
  c_inv s → current_ok lm s →
  current_ok (match d with Module m | ModuleDefinition m => Some m | _ => lm end) (on_directive rel s d).
Proof.
  intros Hs Hc.
  assert (∀ m, current_ok (Some m) (on_module m s)) as Hmod.
  { intros [b|e]; [|done]. unfold on_module. destruct (write_wasm b s) as [path s'] eqn:E.
    destruct (write_inv _ _ _ _ Hs E) as (_ & _ & _ & _ & _ & nm & Hin & ->). by exists nm. }
  assert (∀ k inv results, current_ok lm (on_call k rel inv results s)) as Hcall.
  { intros k inv results. destruct (on_call_current k rel inv results s) as (? & ? & Hw).
    eapply current_kept; [done..|]. by rewrite Hw. }
  assert (∀ what m, current_ok lm (on_unlinkable what rel m s)) as Hun.
  { intros what [b|e]; [|done]. unfold on_unlinkable. destruct (write_wasm b s) as [path s'] eqn:E.
    destruct (write_inv _ _ _ _ Hs E) as (_ & _ & ? & ? & ? & _). by eapply current_kept. }
  assert (∀ c, current_ok lm (push_case c s)) as Hpush by (intros c; exact Hc).
  destruct d as [m|m| |inv|[inv|w|] results|[inv|w|]|m| | | | | |]; cbn [on_directive on_invoke on_assert_return on_assert_trap];
    first [exact Hc|apply Hmod|apply Hcall|apply Hun|apply Hpush].
Qed.

Lemma directives_current rel ds s :
  c_inv s → s.(current_wasm) = None → s.(current_skip) = None →
  c_inv (foldl (on_directive rel) s ds) ∧ current_ok (last_module ds) (foldl (on_directive rel) s ds).
Proof.
  intros Hs Hw Hk. induction ds as [|d ds [IH1 IH2]] using rev_ind; [done|].
  unfold last_module. rewrite !foldl_app. cbn [foldl]. split; [by apply on_directive_inv|].
  by apply on_directive_current.
Qed.

(** A value as a case has it: decimal digits of a word, and its type. *)
Definition int_word (v : WastVal) : option (string * string) :=
  match v with
  | VI32 v => Some (pretty (v mod 2 ^ 32), "i32")
  | VI64 v => Some (pretty (v mod 2 ^ 64), "i64")
  | VOther => None
  end.

Lemma collect_ints what l : ∀ ws vs tys bad,
  mapM int_word l = Some ws → collect (val_core what) l (vs, tys, bad) = (vs ++ ws.*1, tys ++ ws.*2, bad).
Proof.
  induction l as [|v l IH]; intros ws vs tys bad Hw; simpl in *; [injection Hw as <-; simpl; by rewrite !app_nil_r|].
  destruct (int_word v) as [w|] eqn:Hv; [|done]. simpl in Hw. destruct (mapM int_word l) as [ws'|]; [|done]. injection Hw as <-.
  destruct v; simpl in *; [| |done]; injection Hv as <-; rewrite (IH ws') by done; simpl; by rewrite <-!app_assoc.
Qed.

Lemma collect_error what l : ∀ vs tys, (collect (val_core what) l (vs, tys, Some what)).2 = Some what.
Proof. induction l as [|[] l IH]; intros vs tys; simpl; [done|apply IH..]. Qed.

Lemma collect_other what l : ∀ vs tys bad,
  mapM int_word l = None → (collect (val_core what) l (vs, tys, bad)).2 = Some what.
Proof.
  induction l as [|v l IH]; intros vs tys bad Hw; [done|]. simpl in Hw.
  destruct (mapM int_word l) as [ws|] eqn:Hl; destruct v; simpl in *; try done; try (by apply IH); apply collect_error.
Qed.

(** The directives that call an export: the kind of the case, the call and the results the
    directive expects. *)
Definition call_of (d : WastDirective) : option (string * WastInvoke * list WastVal) :=
  match d with
  | Invoke inv => Some ("invoke", inv, [])
  | AssertReturn (ExInvoke inv) results => Some ("return", inv, results)
  | AssertTrap (ExInvoke inv) => Some ("trap", inv, [])
  | _ => None
  end.

(** C23. A call is run on the last module before it in its file.  Each of the directives that
    call an export ([invoke], [assert_return], [assert_trap]) adds one case and changes
    nothing else.  If the last module directive before it has been encoded, and all values
    are integers, the case is of the directive's kind, names a file that holds that encoding,
    and has the arguments and the expected results, in their order, as words with their types;
    a result that is no integer, or else an argument, makes it a skip that says so.  If that
    module could not be encoded, or there is none, it is a skip for that reason. *)
Theorem catalog_calls_last_module files rel ds d k inv results :
  call_of d = Some (k, inv, results) →
  let s := foldl (on_directive rel) (set_current None None (catalog files)) ds in
  ∃ c, on_directive rel s d = push_case c s ∧
    match last_module ds with
    | None => c = skip_case rel inv.(inv_name) "" "no module"
    | Some (inr e) => c = skip_case rel inv.(inv_name) "" ("encode: " +:+ e)
    | Some (inl b) =>
        ∃ nm, (nm, b) ∈ s.(written) ∧
          match mapM int_word inv.(inv_args), mapM int_word results with
          | Some vs, Some es => c = mkCase k rel inv.(inv_name) ("wasm/" +:+ nm) "" vs.*1 vs.*2 es.*1 es.*2
          | _, None => c = skip_case rel inv.(inv_name) ("wasm/" +:+ nm) "non-int result"
          | None, Some _ => c = skip_case rel inv.(inv_name) ("wasm/" +:+ nm) "non-int arg"
          end
    end.
Proof.
  intros Hd s. destruct (catalog_inv files) as [H1 H2 H3 _ _].
  destruct (directives_current rel ds (set_current None None (catalog files))) as [_ Hc]; [by split|done..|].
  fold s in Hc. assert (on_directive rel s d = on_call k rel inv results s) as ->.
  { by destruct d as [m|m| |i|[i|w|] rs|[i|w|]|m| | | | | |]; simplify_eq/=. }
  unfold on_call, current_ok in *. destruct (last_module ds) as [[b|e]|].
  - destruct Hc as (nm & Hin & -> & ->).
    destruct (mapM int_word (inv_args inv)) as [vs|] eqn:Ha.
    + unfold arg_core. rewrite (collect_ints _ _ vs) by done. destruct (mapM int_word results) as [es|] eqn:Hr.
      * unfold ret_core. rewrite (collect_ints _ _ es) by done. simpl. eexists. split; [done|]. by exists nm.
      * pose proof (collect_other "non-int result" results [] [] None Hr) as Ho. unfold ret_core. simpl.
        destruct (collect _ results _) as [[es etys] bad]. simpl in Ho. subst bad. eexists. split; [done|]. by exists nm.
    + pose proof (collect_other "non-int arg" _ [] [] None Ha) as Ho. unfold arg_core.
      destruct (collect _ (inv_args inv) _) as [[vs tys] bad]. simpl in Ho. subst bad.
      destruct (mapM int_word results) as [es|] eqn:Hr.
      * unfold ret_core. rewrite (collect_ints _ _ es) by done. eexists. split; [done|]. by exists nm.
      * pose proof (collect_other "non-int result" results [] [] (Some "non-int arg") Hr) as Ho. unfold ret_core.
        destruct (collect _ results _) as [[es etys] bad]. simpl in Ho. subst bad. eexists. split; [done|]. by exists nm.
  - destruct Hc as [-> ->]. by eexists.
  - destruct Hc as [-> ->]. by eexists.
Qed.

(** The second of two modules, and a result that is [-1] as a word. *)
Lemma catalog_calls_last_module_witness :
  ∃ nm, let ds := [Module (inl [1]); Module (inl [2])] in
  let d := AssertReturn (ExInvoke (mkInvoke None "f" [VI32 7])) [VI64 (-1)] in
  let s := foldl (on_directive "x.wast") (set_current None None (catalog [])) ds in
  (nm, [2]) ∈ s.(written) ∧ (on_directive "x.wast" s d).(cases) =
    [mkCase "return" "x.wast" "f" ("wasm/" +:+ nm) "" ["7"] ["i32"] ["18446744073709551615"] ["i64"]].
Proof.
  destruct (catalog_calls_last_module [] "x.wast" [Module (inl [1]); Module (inl [2])]
    (AssertReturn (ExInvoke (mkInvoke None "f" [VI32 7])) [VI64 (-1)]) "return" (mkInvoke None "f" [VI32 7]) [VI64 (-1)] eq_refl)
    as (c & Hs & nm & Hin & Hc).
  exists nm. split; [exact Hin|]. rewrite Hs. vm_compute in Hc. rewrite Hc. reflexivity.
Defined.

(** A call by module name is run on the current module all the same: after two modules,
    a call of the first by its name produces the case of the second. *)
Theorem named_invoke_uses_current :
  let inv := mkInvoke (Some "$a") "f" [VI32 (-1)] in
  (catalog [("x.wast", Parsed [Module (inl [1]); Module (inl [2]); Invoke inv])]).(cases) =
    [mkCase "invoke" "x.wast" "f" "wasm/00002.wasm" "" ["4294967295"] ["i32"] [] []].
Proof. vm_compute. reflexivity. Qed.
