(* ===== verification/WasmProfile.v ===== *)
(** * The inventory of a module

    [tools/src/bin/wasm-profile.rs]: sections, imports, exports and operators of a
    WASM binary, counted.  [wasmparser] delivers the payloads; the [Debug] texts the
    tool prints come with them. *)

From S2P Require Import Prelude Wasm BTree Text.
From stdpp Require Import base list strings pretty sorting.
From Stdlib Require Import Ascii.

Local Open Scope Z_scope.

(** ** Payloads, as far as they are read *)

Record MemTy := mkMemTy { mt_initial : Z; mt_maximum : option Z; mt_shared : bool; mt_memory64 : bool }.

(** The [Debug] text of an operator stands for the operator. *)
Inductive Pay :=
  | PVersion
  | PType
  | PImport (imports : list (item (string * string * string)))
  | PFunction (count : Z)
  | PTable (count : Z)
  | PMemory (ms : list (item MemTy))
  | PGlobal (count : Z)
  | PExport (exports : list (item (string * string)))
  | PStart
  | PElement (count : Z)
  | PData (count : Z)
  | PDataCount
  | PCodeEntry (ops : item (list (item bytes)))
  | PCustom (name : string)
  | POther.

Record Inventory := mkInv {
  imports : list (string * string * string);
  exports : list (string * string);
  ops : list (string * Z);
  sections : list (string * Z);
  n_funcs : Z;
  mem : option MemTy;
  n_globals : Z;
  n_tables : Z;
  n_data : Z;
  n_elem : Z;
  customs : list string;
  has_start : bool;
  float_ops : Z;
  simd_ops : Z }.

Definition empty_inv : Inventory := mkInv [] [] [] [] 0 None 0 0 0 0 [] false 0 0.

(** ** Updates *)

Definition count_section (nm : string) (v : Inventory) : Inventory :=
  mkInv v.(imports) v.(exports) v.(ops) (bump str_cmp u32 nm v.(sections)) v.(n_funcs) v.(mem)
    v.(n_globals) v.(n_tables) v.(n_data) v.(n_elem) v.(customs) v.(has_start) v.(float_ops) v.(simd_ops).

Definition add_import (i : string * string * string) (v : Inventory) : Inventory :=
  mkInv (v.(imports) ++ [i]) v.(exports) v.(ops) v.(sections) v.(n_funcs) v.(mem)
    v.(n_globals) v.(n_tables) v.(n_data) v.(n_elem) v.(customs) v.(has_start) v.(float_ops) v.(simd_ops).

Definition add_export (e : string * string) (v : Inventory) : Inventory :=
  mkInv v.(imports) (v.(exports) ++ [e]) v.(ops) v.(sections) v.(n_funcs) v.(mem)
    v.(n_globals) v.(n_tables) v.(n_data) v.(n_elem) v.(customs) v.(has_start) v.(float_ops) v.(simd_ops).

Definition set_mem (m : MemTy) (v : Inventory) : Inventory :=
  mkInv v.(imports) v.(exports) v.(ops) v.(sections) v.(n_funcs) (Some m)
    v.(n_globals) v.(n_tables) v.(n_data) v.(n_elem) v.(customs) v.(has_start) v.(float_ops) v.(simd_ops).

Definition set_counts (f g t d e : option Z) (v : Inventory) : Inventory :=
  mkInv v.(imports) v.(exports) v.(ops) v.(sections) (default v.(n_funcs) f) v.(mem)
    (default v.(n_globals) g) (default v.(n_tables) t) (default v.(n_data) d) (default v.(n_elem) e)
    v.(customs) v.(has_start) v.(float_ops) v.(simd_ops).

Definition set_start (v : Inventory) : Inventory :=
  mkInv v.(imports) v.(exports) v.(ops) v.(sections) v.(n_funcs) v.(mem)
    v.(n_globals) v.(n_tables) v.(n_data) v.(n_elem) v.(customs) true v.(float_ops) v.(simd_ops).

Definition add_custom (c : string) (v : Inventory) : Inventory :=
  mkInv v.(imports) v.(exports) v.(ops) v.(sections) v.(n_funcs) v.(mem)
    v.(n_globals) v.(n_tables) v.(n_data) v.(n_elem) (v.(customs) ++ [c]) v.(has_start) v.(float_ops) v.(simd_ops).

(** ** Operators *)

Fixpoint before_brace (s : bytes) : bytes :=
  match s with [] => [] | c :: s' => if same c "{" then [] else c :: before_brace s' end.

(** [s.split('{').next().unwrap_or(s).trim()] *)
Definition op_name (s : bytes) : bytes := trim (before_brace s).

Definition is_float (l : bytes) : bool := contains l (lit "f32") || contains l (lit "f64").
Definition is_simd (l : bytes) : bool :=
  contains l (lit "v128") || contains l (lit "i8x") || contains l (lit "i16x").

Definition count_operator (dbg : bytes) (v : Inventory) : Inventory :=
  let name := op_name dbg in
  let l := lower <$> name in
  mkInv v.(imports) v.(exports) (bump str_cmp u64 (unlit name) v.(ops)) v.(sections) v.(n_funcs) v.(mem)
    v.(n_globals) v.(n_tables) v.(n_data) v.(n_elem) v.(customs) v.(has_start)
    (if is_float l then u64 (v.(float_ops) + 1) else v.(float_ops))
    (if is_simd l then u64 (v.(simd_ops) + 1) else v.(simd_ops)).

(** ** The loop *)

(** [.expect(..)] *)
Definition expect_item {A} (what : string) (it : item A) : outcome A :=
  match it with Item x => Ok x | ReadErr _ => Panic what end.

Fixpoint each {A} (what : string) (f : A → Inventory → Inventory) (l : list (item A)) (v : Inventory) :
    outcome Inventory :=
  match l with
  | [] => Ok v
  | it :: l' => x ← expect_item what it; each what f l' (f x v)
  end.

Definition on_payload (v : Inventory) (p : Pay) : outcome Inventory :=
  match p with
  | PVersion | POther => Ok v
  | PType => Ok (count_section "type" v)
  | PImport l => each "import" add_import l (count_section "import" v)
  | PFunction n => Ok (set_counts (Some n) None None None None (count_section "function" v))
  | PTable n => Ok (set_counts None None (Some n) None None (count_section "table" v))
  | PMemory ms => each "mem" set_mem ms (count_section "memory" v)
  | PGlobal n => Ok (set_counts None (Some n) None None None (count_section "global" v))
  | PExport es => each "export" add_export es (count_section "export" v)
  | PStart => Ok (count_section "start" (set_start v))
  | PElement n => Ok (set_counts None None None None (Some n) (count_section "element" v))
  | PData n => Ok (set_counts None None None (Some n) None (count_section "data" v))
  | PDataCount => Ok (count_section "datacount" v)
  | PCodeEntry os => l ← expect_item "ops" os; each "op" count_operator l (count_section "code" v)
  | PCustom c => Ok (add_custom c (count_section "custom" v))
  end.

Fixpoint inventory (ps : list (item Pay)) (v : Inventory) : outcome Inventory :=
  match ps with
  | [] => Ok v
  | it :: ps' => p ← expect_item "parse" it; v' ← on_payload v p; inventory ps' v'
  end.

(** ** The ranking *)

(** [b.1.cmp(&a.1).then(a.0.cmp(&b.0)) == Greater] *)
Definition ranked_after (a b : string * Z) : bool :=
  match Z.compare b.2 a.2 with
  | Gt => true
  | Eq => match str_cmp a.1 b.1 with Gt => true | _ => false end
  | Lt => false
  end.

(** The operators by frequency and their total. *)
Definition ranked (v : Inventory) : list (string * Z) := sort_by ranked_after v.(ops).
Definition ops_total (v : Inventory) : Z := u64 (sum_counts (ranked v)).

Definition profile (ps : list (item Pay)) : outcome (Inventory * list (string * Z) * Z) :=
  v ← inventory ps empty_inv; Ok (v, ranked v, ops_total v).
