(* ===== verification/WasmProfileFacts.v ===== *)
(** * The inventory of a module: what is counted *)

From S2P Require Import Prelude Wasm BTree Text WasmProfile.
From stdpp Require Import base list strings pretty sorting.
From Stdlib Require Import Ascii.

Local Open Scope Z_scope.

(** ** Reference definitions *)

(** The items of a list of payloads, and the operators of a code entry. *)
Definition items {A} (l : list (item A)) : list A :=
  l ≫= (fun it => match it with Item x => [x] | ReadErr _ => [] end).

Definition clean {A} (l : list (item A)) : bool :=
  forallb (fun it => match it with Item _ => true | ReadErr _ => false end) l.

(** No reader of the payload fails. *)
Definition clean_pay (p : Pay) : bool :=
  match p with
  | PImport l => clean l
  | PMemory l => clean l
  | PExport l => clean l
  | PCodeEntry (Item l) => clean l
  | PCodeEntry (ReadErr _) => false
  | _ => true
  end.

Definition pay_ops (p : Pay) : list string :=
  match p with PCodeEntry (Item l) => (fun o => unlit (op_name o)) <$> items l | _ => [] end.

Definition pay_section (p : Pay) : list string :=
  match p with
  | PVersion | POther => []
  | PType => ["type"] | PImport _ => ["import"] | PFunction _ => ["function"] | PTable _ => ["table"]
  | PMemory _ => ["memory"] | PGlobal _ => ["global"] | PExport _ => ["export"] | PStart => ["start"]
  | PElement _ => ["element"] | PData _ => ["data"] | PDataCount => ["datacount"]
  | PCodeEntry _ => ["code"] | PCustom _ => ["custom"]
  end.

Definition pay_imports (p : Pay) := match p with PImport l => items l | _ => [] end.
Definition pay_exports (p : Pay) := match p with PExport l => items l | _ => [] end.

(** The counts after the payloads [ps]. *)
Record counted (ps : list Pay) (v : Inventory) : Prop := {
  ct_ops : v.(ops) = tally str_cmp u64 (ps ≫= pay_ops);
  ct_sections : v.(sections) = tally str_cmp u32 (ps ≫= pay_section);
  ct_imports : v.(imports) = ps ≫= pay_imports;
  ct_exports : v.(exports) = ps ≫= pay_exports }.

Lemma tally_app {K} (cmp : K → K → comparison) w ks ks' :
  tally cmp w (ks ++ ks') = foldl (fun m k => bump cmp w k m) (tally cmp w ks) ks'.
Proof. unfold tally. by rewrite foldl_app. Qed.

(** A loop over clean items is a fold; over others it panics. *)
Lemma each_clean {A} what (f : A → Inventory → Inventory) l v :
  clean l = true → each what f l v = Ok (foldl (fun v x => f x v) v (items l)).
Proof.
  revert v. induction l as [|[x|e] l IH]; intros v Hc; simpl in *; [done|by rewrite IH|done].
Qed.

Lemma each_dirty {A} what (f : A → Inventory → Inventory) l v :
  clean l = false → each what f l v = Panic what.
Proof. revert v. induction l as [|[x|e] l IH]; intros v Hc; simpl in *; [done|by rewrite IH|done]. Qed.

(** What a fold of one update leaves alone. *)
Lemma fold_field {A B} (g : Inventory → B) (f : A → Inventory → Inventory) l v :
  (∀ x v, g (f x v) = g v) → g (foldl (fun v x => f x v) v l) = g v.
Proof. intros Hg. revert v. induction l as [|x l IH]; intros v; simpl; [done|]. by rewrite IH, Hg. Qed.

Lemma fold_ops l v :
  (foldl (fun v x => count_operator x v) v l).(ops) =
  foldl (fun m k => bump str_cmp u64 k m) v.(ops) ((fun o => unlit (op_name o)) <$> l).
Proof. revert v. induction l as [|x l IH]; intros v; simpl; [done|]. by rewrite IH. Qed.

Lemma fold_snoc {A} (g : Inventory → list A) (f : A → Inventory → Inventory) l v :
  (∀ x v, g (f x v) = g v ++ [x]) → g (foldl (fun v x => f x v) v l) = g v ++ l.
Proof.
  intros Hg. revert v. induction l as [|x l IH]; intros v; simpl; [by rewrite app_nil_r|].
  by rewrite IH, Hg, <-app_assoc.
Qed.

(** What one payload adds. *)
Lemma on_payload_adds p v :
  if clean_pay p then
    ∃ v', on_payload v p = Ok v' ∧
      v'.(ops) = foldl (fun m k => bump str_cmp u64 k m) v.(ops) (pay_ops p) ∧
      v'.(sections) = foldl (fun m k => bump str_cmp u32 k m) v.(sections) (pay_section p) ∧
      v'.(imports) = v.(imports) ++ pay_imports p ∧ v'.(exports) = v.(exports) ++ pay_exports p
  else ∃ w, on_payload v p = Panic w.
Proof.
  destruct p as [| |l| | |l| |l| | | | |[l|e]| |]; simpl;
    try (eexists; split; [done|]; by rewrite ?app_nil_r); [..|by eexists];
    (destruct (clean l) eqn:E; [|rewrite each_dirty by done; by eexists]);
    rewrite each_clean by done; eexists; (split; [done|]); split_and!;
    rewrite ?fold_ops, ?(fold_field ops), ?(fold_field sections), ?(fold_field imports),
      ?(fold_field exports), ?(fold_snoc imports), ?(fold_snoc exports) by done;
    simpl; by rewrite ?app_nil_r.
Qed.

Lemma inventory_counted ps0 ps v :
  counted ps0 v → clean ps && forallb clean_pay (items ps) = true →
  ∃ v', inventory ps v = Ok v' ∧ counted (ps0 ++ items ps) v'.
Proof.
  revert ps0 v. induction ps as [|[p|e] ps IH]; intros ps0 v Hv; simpl; [|..|done].
  { exists v. by rewrite app_nil_r. }
  intros Hc. assert (clean_pay p = true ∧ clean ps && forallb clean_pay (items ps) = true) as [Hp Hps].
  { rewrite !andb_true_iff in *. tauto. }
  pose proof (on_payload_adds p v) as Ha. rewrite Hp in Ha.
  destruct Ha as (v1 & -> & A1 & A2 & A3 & A4). simpl. destruct Hv as [H1 H2 H3 H4].
  destruct (IH (ps0 ++ [p]) v1) as (v' & -> & Hv').
  - split; rewrite bind_app; simpl; rewrite app_nil_r, ?tally_app; congruence.
  - done.
  - exists v'. split; [done|]. by rewrite <-app_assoc in Hv'.
Qed.

Lemma inventory_dirty ps v :
  clean ps && forallb clean_pay (items ps) = false → ∃ w, inventory ps v = Panic w.
Proof.
  revert v. induction ps as [|[p|e] ps IH]; intros v; simpl; [done| |by eexists].
  intros Hc. pose proof (on_payload_adds p v) as Ha. destruct (clean_pay p).
  - destruct Ha as (v1 & -> & _). simpl. apply IH. exact Hc.
  - destruct Ha as [w ->]. by eexists.
Qed.

(** Descending counts, then names. *)
Lemma ranked_order : 
  (∀ a b c, ranked_after a b = false → ranked_after b c = false → ranked_after a c = false) ∧
  (∀ a b, ranked_after a b = true → ranked_after b a = false).
Proof.
  unfold ranked_after. split.
  - intros [a n] [b k] [c l]; simpl. destruct (Z.compare_spec k n), (Z.compare_spec l k), (Z.compare_spec l n);
      try done; try lia; subst.
    destruct (str_cmp a b) eqn:E1, (str_cmp b c) eqn:E2; try done; intros _ _.
    + apply cmp_eq in E1 as ->. by rewrite E2.
    + apply cmp_eq in E1 as ->. by rewrite E2.
    + apply cmp_eq in E2 as ->. by rewrite E1.
    + by rewrite (cmp_trans _ _ _ E1 E2).
  - intros [a n] [b k]; simpl. rewrite Z.compare_antisym. destruct (Z.compare n k) eqn:E; simpl; try done.
    rewrite (cmp_opp a b). by destruct (str_cmp a b).
Qed.

Lemma sum_perm {K} (l l' : list (K * Z)) : l ≡ₚ l' → sum_counts l = sum_counts l'.
Proof. induction 1; simpl; lia. Qed.

(** The inventory counts what the binary has: when no reader fails, every operator and
    section kind is counted as often as it occurs, the ranking lists the operators by
    decreasing count and then by name, without repetition, and its total is the number
    of operators; when a reader fails, the tool panics. *)
Theorem profile_counts ps :
  if clean ps && forallb clean_pay (items ps) then
    ∃ v r t, profile ps = Ok (v, r, t) ∧
      (∀ o, get_count str_cmp o v.(ops) = u64 (occurrences o (items ps ≫= pay_ops))) ∧
      (∀ k, get_count str_cmp k v.(sections) = u32 (occurrences k (items ps ≫= pay_section))) ∧
      r ≡ₚ v.(ops) ∧ increasing str_cmp v.(ops) ∧
      StronglySorted (fun a b => ranked_after a b = false) r ∧
      t = u64 (len (items ps ≫= pay_ops)) ∧
      v.(imports) = items ps ≫= pay_imports ∧ v.(exports) = items ps ≫= pay_exports
  else ∃ w, profile ps = Panic w.
Proof.
  unfold profile. destruct (_ && _) eqn:Hc.
  - destruct (inventory_counted [] ps empty_inv) as (v & -> & [H1 H2 H3 H4]); [by split|done|].
    simpl in *. exists v, (ranked v), (ops_total v). split; [done|].
    destruct ranked_order as [Hn Ha]. split_and!; try done.
    + intros o. rewrite H1. apply get_tally.
    + intros k. rewrite H2. apply get_tally.
    + apply sort_by_perm.
    + rewrite H1. apply tally_increasing.
    + by apply sort_by_sorted.
    + unfold ops_total. rewrite (sum_perm _ v.(ops)) by apply sort_by_perm. rewrite H1. apply sum_tally.
  - destruct (inventory_dirty ps empty_inv Hc) as [w ->]. by eexists.
Qed.

(** The names of operators, from their [Debug] texts. *)
Example op_name_examples :
  (fun s => unlit (op_name (lit s))) <$> ["LocalGet { local_index: 0 }"; "I64Add"; "End"] =
    ["LocalGet"; "I64Add"; "End"].
Proof. vm_compute. reflexivity. Qed.
