(* ===== verification/Harness.v ===== *)
(** * The contract-test harness

    [run_cuwasm_profile] of [tools/contract-tests/src/lib.rs]: load a contract, run one
    of its exports with the dispatcher as its host, and translate arguments and result
    between the host's objects and the guest's relative ones; and the part of
    [src/capi.cpp] it goes through, the bridge between the engine's mailbox and the C one.

    The engine's host function has the dispatcher's context as its world.  A panic in the
    callback cannot leave its [extern "C"] frame: the process is gone, and the world says
    so.  The rest of the C API is in [Capi] and [Loadable]. *)

From S2P Require Import Prelude Cuop Wasm Lower EnvTable Module Engine Verify Loadable.
From S2P Require Import Capi Dispatch BTree Profile.
From stdpp Require Import base list strings.

Local Open Scope Z_scope.

(** ** The C API (capi.cpp) *)

(** [CuwasmMailbox cmb{}] filled from the engine's mailbox. *)
Definition c_mailbox (box : HostMailbox) : HostMailbox :=
  let n := Z.to_nat (Z.min box.(mb_n_args) 16) in
  mkMailbox box.(mb_fn_id) box.(mb_n_args) box.(mb_n_results)
    (take n box.(mb_args) ++ replicate (16 - n) 0) [0].

Definition copy_back (cmb box : HostMailbox) : HostMailbox :=
  mkMailbox box.(mb_fn_id) box.(mb_n_args) cmb.(mb_n_results) box.(mb_args)
    (if 0 <? cmb.(mb_n_results) then <[0%nat := nth 0 cmb.(mb_results) 0]> box.(mb_results)
     else box.(mb_results)).

(** Without a function the bridge is [default_host_fn], which implements nothing. *)
Definition capi_host_bridge {W} (fn : option (HostFn W)) : HostFn W := fun box mem w =>
  match fn with
  | Some fn =>
      let '(ok, cmb, mem1, w1) := fn (c_mailbox box) mem w in
      if negb ok then (false, box, mem1, w1) else (true, copy_back cmb box, mem1, w1)
  | None => (false, box, mem, w)
  end.

Definition find_export (M : HostModule) (name : string) : Z :=
  match List.find (fun e => bool_decide (e.1 = name)) M.(hm_exports) with
  | Some e => i32 e.2
  | None => -1
  end.

(** A pointer is the bytes it points to, [None] when it is null. *)
Definition cuwasm_module_memory (M : HostModule) : option (list Z) :=
  match M.(hm_memory) with [] => None | l => Some l end.

Definition cuwasm_module_memory_size (M : HostModule) : Z := M.(hm_mem_size).

Record CuwasmRunResult := mkRunResult {
  cr_status : Status;
  cr_results : list Z;
  cr_n_results : Z }.

Inductive run_out :=
  | Ran (rc : Z) (out : CuwasmRunResult) (P : RunProfile)
  | RanWild (why : string)
  | StillRunning.

(** [out->results] is an array of 8, zeroed by the caller. *)
Definition results_array (rs : list Z) : list Z := take 8 rs ++ replicate (8 - length rs) 0.

Definition cuwasm_module_run {W} (M : HostModule) (func_idx : Z) (args : list Z) (max_steps : nat)
    (host : option (HostFn W)) (rounds : nat) (w : W) : run_out * W :=
  let '(r, _, w1, P) :=
    run_cpu_p M func_idx args max_steps (capi_host_bridge host) rounds w empty_profile in
  match r with
  | Finished s rs =>
      (Ran (if bool_decide (s = ST_OK) then 0 else 1)
           (mkRunResult s (results_array rs) (u32 (len rs))) P, w1)
  | Corrupted e => (RanWild e, w1)
  | NotYet => (StillRunning, w1)
  end.

(** ** The harness (lib.rs) *)

(** How a run ends: with the result, in a panic, in undefined behaviour, or not within
    the rounds it was given. *)
Inductive harness_end :=
  | Returned (v : Z) (out : RunProfileOut)
  | Panicked (why : string)
  | Wild (why : string)
  | Unfinished.

(** 10_000_000 steps in each round. *)
Definition MAX_STEPS : nat := Z.to_nat 10000000.

Section harness.
Context `{V : ValRepr} {H : Type} (ops : HostOps H) (text : rust_err → list Z).

(** The context, until a panic in the callback ends the process. *)
Definition world : Type := (DState H + string)%type.

(** [host_dispatch] as the C function [cuwasm_module_run] is given, with an error buffer
    of 256 bytes: the context reads and writes the engine's memory, and is handed the C
    mailbox. *)
Definition callback (mem_size : Z) : HostFn world := fun cmb mem w =>
  match w with
  | inr e => (false, cmb, mem, inr e)
  | inl d =>
      match host_dispatch ops soroban_env mem_size false text 256 (set_mb cmb (set_dmem mem d)) with
      | (Ok (ok, _), d') => (ok, d'.(d_mb), d'.(d_mem), inl d')
      | (Err _, d') => (false, d'.(d_mb), d'.(d_mem), inl d')
      | (Panic e, d') => (false, d'.(d_mb), d'.(d_mem), inr e)
      end
  end.

Definition start_ctx (h : H) (M : HostModule) : DState H :=
  mkD h (default [] (cuwasm_module_memory M)) [] [] [] (mkMailbox 0 0 0 (replicate 16 0) [0]).

(** [for &arg in args { rel_args.push(ctx.to_relative(arg)...) }] *)
Fixpoint to_relatives (args : list Z) : St (DState H) (list Z) :=
  match args with
  | [] => mret []
  | arg :: args' => r ← to_relative arg; rs ← to_relatives args'; mret (r :: rs)
  end.

Definition read_result (d : DState H) (out : CuwasmRunResult) (P : RunProfile) : harness_end :=
  let profile := mkRunOut d.(d_calls) d.(d_traces) P in
  if out.(cr_n_results) =? 0 then Returned void_val profile
  else if negb (out.(cr_n_results) =? 1) then Panicked "assertion `left == right` failed"
  else
    match to_absolute d.(d_rel) (nth 0 out.(cr_results) 0) with
    | Ok v => Returned v profile
    | Err _ => Panicked "to_absolute result"
    | Panic e => Panicked e
    end.

Definition run_cuwasm_profile (h : H) (ps : list (item Payload)) (export : string) (args : list Z)
    (rounds : nat) : harness_end :=
  match module_load ps with
  | Err _ => Panicked "translate: {}"
  | Panic e => Panicked e
  | Ok M =>
      if has_nul export then Panicked "CString::new"
      else
        let fi := find_export M export in
        if fi <? 0 then Panicked "missing export {export}"
        else
          let mem_size := cuwasm_module_memory_size M in
          match to_relatives args (start_ctx h M) with
          | (Err _, _) => Panicked "to_relative arg"
          | (Panic e, _) => Panicked e
          | (Ok payloads, ctx) =>
              match cuwasm_module_run M fi payloads MAX_STEPS (Some (callback mem_size)) rounds
                      (inl ctx) with
              | (_, inr e) => Panicked e
              | (Ran rc out P, inl d) =>
                  if negb (rc =? 0) then Panicked "cuwasm run status={} err={}"
                  else read_result d out P
              | (RanWild e, inl _) => Wild e
              | (StillRunning, inl _) => Unfinished
              end
          end
  end.
End harness.
