(* ===== verification/HarnessFacts.v ===== *)
(** * The harness is sound

    The dispatcher, behind the C bridge, is a host function the engine can rely on: it
    keeps the memory's length and answers with as many results as the import has.  So the
    harness does not run into undefined behaviour and the callback does not panic,
    whatever the soroban host answers; and what it hands to the contract and receives
    from it are the host's objects. *)

From S2P Require Import Prelude Cuop Wasm Lower EnvTable Module ModuleTables Engine Verify.
From S2P Require Import VerifyFacts EngineInv EngineSound Loadable Capi Dispatch DispatchFacts.
From S2P Require Import BTree Profile ProfileFacts Harness.
From stdpp Require Import base list strings.

Local Open Scope Z_scope.

(** ** Conditions on the module *)

(** Every host call of the module expects one result, as every soroban function has. *)
Definition one_result (M : HostModule) : bool :=
  forallb (fun in_ => negb (in_.(cu_op) =? OP_CALL_HOST) || (Z.land (Z.shiftr in_.(cu_a) 8) 255 =? 1))
    M.(hm_code).

(** [FuncMeta.n_results] and [CuOp.op] are [uint16_t]. *)
Definition narrow (M : HostModule) : bool :=
  forallb (fun f => f.(fm_n_results) <? 2 ^ 16) M.(hm_funcs) &&
  forallb (fun in_ => 0 <=? in_.(cu_op)) M.(hm_code).

(** What the code and the memory of a loaded module have to meet to be run with the
    dispatcher. *)
Record runnable (M : HostModule) : Prop := {
  ru_verified : verified M;
  ru_loadable : loadable M = true;
  ru_results : one_result M = true;
  ru_memory : M.(hm_memory) ≠ [];
  ru_narrow : narrow M = true }.

Section facts.
Context `{V : ValRepr} `{L : !ValLaws} {H : Type} (ops : HostOps H) (text : rust_err → list Z).

(** ** Arguments *)

Lemma to_relatives_spec args : ∀ d : DState H,
  Forall (fun v => 0 ≤ v < 2 ^ 64) args → len d.(d_rel) + len args ≤ 2 ^ 31 →
  ∃ rs d', to_relatives args d = (Ok rs, d') ∧ d.(d_rel) `prefix_of` d'.(d_rel) ∧
    d'.(d_calls) = d.(d_calls) ∧ d'.(d_traces) = d.(d_traces) ∧
    ∀ rel, d'.(d_rel) `prefix_of` rel → Forall2 (fun v r => to_absolute rel r = Ok v) args rs.
Proof using L.
  induction args as [|v args IH]; intros d Hv Hl; simpl.
  { exists [], d. by split_and!; [..|constructor]. }
  apply Forall_cons in Hv as [Hv Hvs]. rewrite len_cons in Hl. pose proof (len_nonneg args).
  destruct (to_relative_spec v d Hv) as (r & d1 & Er & _ & Hp & Hl1 & _ & Habs); [lia|].
  destruct (IH d1 Hvs) as (rs & d2 & Ers & Hp2 & Hc2 & Ht2 & Habs2); [lia|].
  destruct (to_relative_only _ _ _ _ Er) as [rel1 Hd1].
  exists (r :: rs), d2. unfold mbind, St_bind. rewrite Er, Ers. split_and!; [done|by etrans|..].
  - rewrite Hc2. by subst d1.
  - rewrite Ht2. by subst d1.
  - intros rel Hrel. constructor; [|by apply Habs2]. apply Habs. by etrans.
Qed.

(** ** The dispatcher as the engine's host *)

Context (M : HostModule) (HM : runnable M).

(** The context is alive, its table extends [rel], and every traced call is recorded. *)
Definition alive (rel : list Z) (w : @world H) : Prop :=
  ∃ d, w = inl d ∧ rel `prefix_of` d.(d_rel) ∧ len d.(d_traces) ≤ len d.(d_calls).

Lemma asks_one box : asked M box → box.(mb_n_results) = 1.
Proof using HM.
  intros (a & b & Hin & _ & _ & -> & _). pose proof (ru_results M HM) as Hr.
  unfold one_result in Hr. rewrite forallb_forall in Hr.
  specialize (Hr _ (proj1 (list_elem_of_In _ _) Hin)). simpl in Hr. lia.
Qed.

Lemma left_by_memory nm ok (d d' : DState H) : left_by nm ok d d' → len d'.(d_mem) = len d.(d_mem).
Proof. intros [Hm _ _ _ _]. unfold len. destruct (is_name _ _); by rewrite Hm. Qed.

Lemma left_by_records nm ok (d d' : DState H) :
  left_by nm ok d d' → len d.(d_traces) ≤ len d.(d_calls) → len d'.(d_traces) ≤ len d'.(d_calls).
Proof.
  intros [_ _ Hc _ Ht] Hl. rewrite Hc, len_app. change (len [_]) with 1.
  destruct (ok && _); [destruct Ht as (t & _ & ->)|rewrite Ht; lia]. rewrite len_app.
  change (len [_]) with 1. lia.
Qed.

Lemma bridge_ok rel :
  host_ok M (alive rel) (capi_host_bridge (Some (callback ops text M.(hm_mem_size)))).
Proof using HM.
  intros box mem w (d & -> & Hrel & Hrec) Hask Hres Hmem.
  pose proof (asks_one _ Hask) as Hone. destruct Hask as (a & b & _ & _ & _ & _ & Hn & Hn').
  set (d0 := set_mb (c_mailbox box) (set_dmem mem d)).
  assert (sane M.(hm_mem_size) d0) as Hs.
  { pose proof (ru_memory M HM) as Hne.
    destruct (loadable_parts M (ru_loadable M HM)) as (_ & _ & _ & _ & _ & _ & Hmo).
    unfold mem_ok in Hmo. unfold sane. simpl. split_and!; [lia| |].
    - rewrite Hmem. destruct (hm_memory M); [done|]. rewrite len_cons. pose proof (len_nonneg l). lia.
    - rewrite len_app. unfold len in *. rewrite length_take, length_replicate. lia. }
  destruct (host_dispatch_leaves ops soroban_env M.(hm_mem_size) text 256 d0 Hs)
    as (ok & bytes & d' & E & Hl & _).
  unfold capi_host_bridge, callback. fold d0. rewrite E.
  assert (alive rel (inl d')) as Ha.
  { exists d'. split_and!; [done| |].
    - etrans; [exact Hrel|]. exact (lb_rel _ _ _ _ Hl).
    - by eapply left_by_records. }
  pose proof (left_by_memory _ _ _ _ Hl) as Hm.
  destruct ok; simpl; [|by split_and!]. split_and!; [done|done|]. intros _. split.
  - destruct (lb_mb _ _ _ _ Hl) as [v ->]. simpl. by rewrite Hone.
  - destruct (lb_mb _ _ _ _ Hl) as [v ->]. simpl. unfold len in *. by rewrite length_insert.
Qed.

(** ** The run's results *)

Lemma drive_results {W} (host : HostFn W) n nres r : ∀ w m,
  match (drive M host n nres r w m).1.1 with
  | Finished s rs => len rs ≤ Z.max 0 nres
  | _ => True
  end.
Proof.
  induction r as [|r IH]; intros w m; simpl; [done|].
  destruct (run_instance _ _ _) as [[|s|] m1]; [apply IH| |done].
  destruct s; simpl; try (change (len []) with 0; lia).
  - unfold len. rewrite length_take. lia.
  - destruct (host _ _ _) as [[[[] box] mem] w1]; simpl; [|change (len []) with 0; lia].
    destruct (push_results _ _ _) as [[] m2]; [apply IH|simpl; change (len []) with 0; lia|done].
Qed.

Lemma run_results {W} (host : HostFn W) fi args n r w s rs :
  (run_cpu M fi args n host r w).1.1 = Finished s rs → len rs < 2 ^ 32.
Proof using HM.
  unfold run_cpu. destruct (index (hm_funcs M) fi) as [f|] eqn:Hf; [|by intros [= _ <-]].
  destruct (negb _); [by intros [= _ <-]|].
  destruct (boot M f args) as [[] m]; [|by intros [= _ <-]|by intros [=]].
  intros Hd. pose proof (drive_results host n (fm_n_results f) r w m) as Hl. rewrite Hd in Hl.
  pose proof (ru_narrow M HM) as Hn. apply andb_true_iff in Hn as [Hn _].
  rewrite forallb_forall in Hn.
  specialize (Hn f). rewrite <-list_elem_of_In in Hn. specialize (Hn (index_elem_of _ _ _ Hf)). lia.
Qed.

(** ** One run *)

Abbreviation bridge := (capi_host_bridge (Some (callback ops text M.(hm_mem_size)))).

Lemma ops_nonneg : Forall (fun in_ => 0 ≤ in_.(cu_op)) M.(hm_code).
Proof using HM.
  pose proof (ru_narrow M HM) as Hn. apply andb_true_iff in Hn as [_ Hn].
  apply Forall_forall. intros in_ Hin. rewrite forallb_forall in Hn.
  specialize (Hn in_). rewrite <-list_elem_of_In in Hn. specialize (Hn Hin). lia.
Qed.

(** What a run of the module behind the bridge ends in. *)
Lemma module_run_spec fi args n r d :
  callable M fi = true → len d.(d_traces) ≤ len d.(d_calls) →
  let run := run_cpu M fi args n bridge r (inl d) in
  ∃ d' P, d.(d_rel) `prefix_of` d'.(d_rel) ∧ len d'.(d_traces) ≤ len d'.(d_calls) ∧ profile_ok P ∧
    run.2 = inl d' ∧
    cuwasm_module_run M fi args n (Some (callback ops text M.(hm_mem_size))) r (inl d) =
      (match run.1.1 with
       | Finished s rs => Ran (if bool_decide (s = ST_OK) then 0 else 1)
                            (mkRunResult s (results_array rs) (len rs)) P
       | _ => StillRunning
       end, inl d').
Proof using HM.
  intros Hc Hrec run.
  destruct (run_callable (alive d.(d_rel)) M fi args n bridge r (inl d) (ru_verified M HM)
    (ru_loadable M HM) Hc (bridge_ok _)) as (Hnc & _ & _ & _ & d' & Hw & Hrel & Hrec'); [by exists d|].
  destruct (run_cpu_p_ok M bridge ops_nonneg fi args n r (inl d) empty_profile) as [Hp HP].
  specialize (HP empty_profile_ok). pose proof (run_results bridge fi args n r (inl d)) as Hres.
  fold run in Hnc, Hw, Hp, Hres. unfold cuwasm_module_run.
  destruct (run_cpu_p _ _ _ _ _ _ _ _) as [[[x M1] w1] P]. simpl in *. rewrite <-Hp in *. simpl in *.
  exists d', P. split_and!; try done. destruct x as [s rs| |]; [|done|by rewrite Hw].
  rewrite Hw, u32_id; [done|]. pose proof (len_nonneg rs). split; [done|by eapply Hres].
Qed.

(** The harness, once the arguments are relative: the run decides. *)
Lemma harness_unfold h ps export args rounds payloads d :
  module_load ps = Ok M → has_nul export = false → 0 ≤ find_export M export →
  callable M (find_export M export) = true →
  to_relatives args (start_ctx h M) = (Ok payloads, d) → len d.(d_traces) ≤ len d.(d_calls) →
  let run := run_cpu M (find_export M export) payloads MAX_STEPS bridge rounds (inl d) in
  ∃ d' P, d.(d_rel) `prefix_of` d'.(d_rel) ∧ len d'.(d_traces) ≤ len d'.(d_calls) ∧ profile_ok P ∧
    run.2 = inl d' ∧
    run_cuwasm_profile ops text h ps export args rounds =
      match run.1.1 with
      | Finished ST_OK rs => read_result d' (mkRunResult ST_OK (results_array rs) (len rs)) P
      | Finished _ _ => Panicked "cuwasm run status={} err={}"
      | _ => Unfinished
      end.
Proof using HM.
  intros Hl Hnul Hfi Hc Ha Hrec run.
  destruct (module_run_spec (find_export M export) payloads MAX_STEPS rounds d Hc Hrec)
    as (d' & P & Hrel & Hrec' & HP & Hw & Hrun). fold run in Hw, Hrun.
  exists d', P. split_and!; try done. unfold run_cuwasm_profile.
  rewrite Hl, Hnul, (proj2 (Z.ltb_ge _ _) Hfi), Ha. unfold cuwasm_module_memory_size.
  rewrite Hrun. by destruct run.1.1 as [[] rs| |].
Qed.
End facts.

(** ** Theorems *)

(** All that is asked of a contract and its export, checked on the loaded module: what
    [loaded_runs_safe] asks, a memory, host calls with one result, and a callable export. *)
Definition contract_ok (ps : list (item Payload)) (M : HostModule) (export : string) : bool :=
  imports_first ps && forallb item_widths ps && (len M.(hm_code) <? 2 ^ 32) &&
  (len M.(hm_consts) <? 2 ^ 32) && (len M.(hm_data_blob) <? 2 ^ 32) && residual M &&
  one_result M && narrow M && negb (bool_decide (M.(hm_memory) = [])) && negb (has_nul export) &&
  (0 <=? find_export M export) && callable M (find_export M export).

Lemma contract_ok_parts ps M export :
  module_load ps = Ok M → contract_ok ps M export = true →
  runnable M ∧ has_nul export = false ∧ 0 ≤ find_export M export ∧
  callable M (find_export M export) = true.
Proof.
  intros Hl Hc. unfold contract_ok in Hc. rewrite !andb_true_iff, !negb_true_iff in Hc.
  destruct Hc as (((((((((((H1 & H2) & H3) & H4) & H5) & H6) & H7) & H8) & H9) & H10) & H11) & H12).
  destruct (module_load_sound ps M) as [HV HL]; try done; [lia..|].
  split_and!; [split; try done; by apply bool_decide_eq_false in H9|done|lia|done].
Qed.

Section theorems.
Context `{V : ValRepr} `{L : !ValLaws} {H : Type} (ops : HostOps H) (text : rust_err → list Z).

(** The engine's run of an export, with the dispatcher for its host. *)
Definition contract_run (M : HostModule) (export : string) (payloads : list Z) (rounds : nat)
    (d : DState H) : RunResult * HostModule * @world H :=
  run_cpu M (find_export M export) payloads MAX_STEPS
    (capi_host_bridge (Some (callback ops text M.(hm_mem_size)))) rounds (inl d).

(** C12. The harness adds no failure of its own.  For a contract that loads and meets
    [contract_ok], with fewer than 2^31 arguments, whatever the soroban host does: the
    arguments are translated, nothing runs into undefined behaviour, and the callback
    does not panic.  It panics only when the run itself fails, when it has more than one
    result, or when the result is not a handle the guest was given; it returns exactly
    when the run does, with the run's result translated back (void for no result), the
    recorded host calls, of which only traced ones appear in the trace, and a consistent
    profile. *)
Theorem harness_sound h ps M export args rounds :
  module_load ps = Ok M → contract_ok ps M export = true →
  Forall (fun v => 0 ≤ v < 2 ^ 64) args → len args ≤ 2 ^ 31 →
  ∃ payloads d d', to_relatives args (start_ctx h M) = (Ok payloads, d) ∧
    (contract_run M export payloads rounds d).2 = inl d' ∧ d.(d_rel) `prefix_of` d'.(d_rel) ∧
    match run_cuwasm_profile ops text h ps export args rounds with
    | Wild _ => False
    | Unfinished => (contract_run M export payloads rounds d).1.1 = NotYet
    | Panicked _ => ∃ s rs, (contract_run M export payloads rounds d).1.1 = Finished s rs ∧
        (s ≠ ST_OK ∨ 1 < len rs ∨ ∃ r e, rs = [r] ∧ to_absolute d'.(d_rel) r = Err e)
    | Returned v out => ∃ rs, (contract_run M export payloads rounds d).1.1 = Finished ST_OK rs ∧
        (rs = [] ∧ v = void_val ∨ ∃ r, rs = [r] ∧ to_absolute d'.(d_rel) r = Ok v) ∧
        out.(po_host_calls) = d'.(d_calls) ∧ out.(po_traces) = d'.(d_traces) ∧
        len out.(po_traces) ≤ len out.(po_host_calls) ∧ profile_ok out.(po_profile)
    end.
Proof using L.
  intros Hl Hc Hargs Hlen. destruct (contract_ok_parts _ _ _ Hl Hc) as (HM & Hnul & Hfi & Hcall).
  destruct (to_relatives_spec args (start_ctx h M) Hargs) as (ps' & d & Ha & _ & Hd1 & Hd2 & _);
    [change (len (d_rel _)) with 0; lia|].
  destruct (harness_unfold ops text M HM h ps export args rounds ps' d)
    as (d' & P & Hrel & Hrec & HP & Hw & Hrun); try done; [by rewrite Hd1, Hd2|].
  exists ps', d, d'. split_and!; try done. rewrite Hrun. unfold contract_run.
  destruct (run_cpu _ _ _ _ _ _ _) as [[x M1] w1] eqn:E. simpl in *.
  destruct (run_callable (alive d.(d_rel)) M (find_export M export) ps' MAX_STEPS
    (capi_host_bridge (Some (callback ops text M.(hm_mem_size)))) rounds (inl d) (ru_verified M HM)
    (ru_loadable M HM) Hcall (bridge_ok ops text M HM _)) as (Hnc & _).
  { exists d. split_and!; try done. by rewrite Hd1, Hd2. }
  rewrite E in Hnc. destruct x as [s rs|e|]; [|done|done]. simpl.
  destruct s; try (eexists _, _; split; [done|by left]). unfold read_result. cbn [cr_n_results cr_results].
  destruct rs as [|r [|r2 rs]].
  - eexists. split; [done|]. split; [by left|]. done.
  - simpl. destruct (to_absolute (d_rel d') r) as [v|e|e] eqn:Habs.
    + eexists. split; [done|]. split; [right; eauto|]. done.
    + eexists _, _. split; [done|]. right; right. eauto.
    + exfalso. revert Habs. unfold to_absolute. repeat case_match; try done. unfold ok_or. case_match; simpl; [by case_match|done].
  - rewrite !len_cons. pose proof (len_nonneg rs).
    rewrite (proj2 (Z.eqb_neq _ 0)), (proj2 (Z.eqb_neq _ 1)) by lia. simpl.
    eexists _, _. split; [done|]. right; left. rewrite !len_cons. lia.
Qed.

(** C25. Objects survive the trip through the contract: when the run of the export returns
    the word it was given for one of its arguments, the harness returns that argument,
    whatever host calls were made in between. *)
Theorem harness_echo h ps M export args rounds payloads d i r v :
  module_load ps = Ok M → contract_ok ps M export = true →
  Forall (fun v => 0 ≤ v < 2 ^ 64) args → len args ≤ 2 ^ 31 →
  to_relatives args (start_ctx h M) = (Ok payloads, d) →
  payloads !! i = Some r → args !! i = Some v →
  (contract_run M export payloads rounds d).1.1 = Finished ST_OK [r] →
  ∃ out, run_cuwasm_profile ops text h ps export args rounds = Returned v out.
Proof using L.
  intros Hl Hc Hargs Hlen Ha Hr Hv Hrun.
  destruct (contract_ok_parts _ _ _ Hl Hc) as (HM & Hnul & Hfi & Hcall).
  destruct (to_relatives_spec args (start_ctx h M) Hargs) as (ps' & d0 & Ha' & _ & Hd1 & Hd2 & Habs);
    [change (len (d_rel _)) with 0; lia|].
  rewrite Ha' in Ha. injection Ha as -> ->.
  destruct (harness_unfold ops text M HM h ps export args rounds payloads d)
    as (d' & P & Hrel & _ & _ & _ & ->); try done; [by rewrite Hd1, Hd2|].
  unfold contract_run in Hrun. rewrite Hrun. unfold read_result. simpl.
  rewrite (Forall2_lookup_lr _ _ _ _ _ _ (Habs _ Hrel) Hv Hr). eauto.
Qed.
End theorems.

(** ** A contract *)

#[local] Existing Instance sample_val.
#[local] Existing Instance sample_laws.

(** Makes an [I128Object] through the host, drops it and returns its argument. *)
Definition echo_payloads : list (item Payload) :=
  [ Item (TypeSection [Item [CtFunc [I64; I64] [I64]]; Item [CtFunc [I64] [I64]]]);
    Item (ImportSection [Item (mkImport "i" "6" (TrFunc 0))]);
    Item (FunctionSection [Item 1]);
    Item (MemorySection [Item (mkMemoryType 1 (Some 1%N) false false None)]);
    Item (ExportSection [Item (mkExport "echo" true 1)]);
    Item (CodeSectionEntry (mkBody (Item []) (Item (Item <$>
      [I64Const 1; I64Const 2; Call 0; Drop; LocalGet 0; End])))) ].

Definition no_text : rust_err → list Z := fun _ => [].

Definition an_object : Z := 9 * 2 ^ 32 + 77.

Definition echo_run (M : HostModule) : bool :=
  contract_ok echo_payloads M "echo" &&
  match to_relatives [an_object] (start_ctx tt M) with
  | (Ok [r], d) =>
      bool_decide ((contract_run sample_host no_text M "echo" [r] 2 d).1.1 = Finished ST_OK [r]) &&
      negb (r =? an_object)
  | _ => false
  end.

Lemma echo_loads : ∃ M, module_load echo_payloads = Ok M ∧ echo_run M = true.
Proof. apply ok_such_that. vm_compute. reflexivity. Qed.

Lemma an_object_word : Forall (fun v => 0 ≤ v < 2 ^ 64) [an_object].
Proof. by repeat constructor. Qed.

Lemma harness_sound_witness :
  ∃ M payloads d d', module_load echo_payloads = Ok M ∧
    to_relatives [an_object] (start_ctx tt M) = (Ok payloads, d) ∧
    (contract_run sample_host no_text M "echo" payloads 2 d).2 = inl d'.
Proof.
  destruct echo_loads as (M & HM & Hb). unfold echo_run in Hb. apply andb_true_iff in Hb as [Hc _].
  destruct (harness_sound sample_host no_text tt echo_payloads M "echo" [an_object] 2)
    as (rs & d & d' & Ha & Hw & _); [exact HM|exact Hc|exact an_object_word|vm_compute; discriminate|].
  exists M, rs, d, d'. split; [exact HM|]. split; [exact Ha|exact Hw].
Defined.

Lemma harness_echo_witness :
  ∃ out, run_cuwasm_profile sample_host no_text tt echo_payloads "echo" [an_object] 2
    = Returned an_object out.
Proof.
  destruct echo_loads as (M & HM & Hb). unfold echo_run in Hb. apply andb_true_iff in Hb as [Hc Hr].
  destruct (to_relatives [an_object] (start_ctx tt M)) as [[[|r [|]]|e|e] d] eqn:Ha; try discriminate Hr.
  apply andb_true_iff in Hr as [Hr%bool_decide_eq_true_1 _].
  apply (harness_echo sample_host no_text tt echo_payloads M "echo" [an_object] 2 [r] d 0 r an_object);
    [exact HM|exact Hc|exact an_object_word|vm_compute; discriminate|exact Ha|reflexivity..|exact Hr].
Defined.
