(* ===== verification/Oracle.v ===== *)
(** * The oracle and the command line

    Two programs that run an export of a module on integers and print one line of JSON:
    [tools/src/bin/oracle.rs], which has [wasmi] run it, and [src/main_cpu.cpp], which
    translates, verifies and interprets it.  The tests compare what they print.

    [wasmi] is not in the repository: the class [Wasmi] has the functions the oracle calls.
    The file system is a function from paths, and [wasmparser] one from binaries to
    payloads.  Error texts stay arguments of the line they are printed in, quoted by the
    oracle ([{:?}]) and as they are on the command line. *)

From S2P Require Import Prelude Cuop Wasm Lower EnvTable Module Engine Verify Loadable Harness Text.
From stdpp Require Import base list strings.
From Stdlib Require Import Ascii.

Local Open Scope Z_scope.

(** ** Output *)

(** A literal of the source, with an apostrophe for each double quote. *)
Definition dq (s : string) : bytes := (fun c => if same c "'" then "034"%char else c) <$> lit s.

Inductive piece :=
  | Raw (s : bytes)
  | Quoted (e : bytes)
  | Said (e : rust_err).

(** How a process ends: with a code, by a panic, in undefined behaviour, or not yet. *)
Inductive process :=
  | Exits (code : Z) (stdout stderr : list piece)
  | Aborts (why : string)
  | Strays (why : string)
  | Continues.

(** A line with its end. *)
Definition ln (s : bytes) : bytes := s ++ ["010"%char].

Definition error_line (status : string) (e : list piece) : list piece :=
  Raw (dq "{'status': '" ++ lit status ++ dq "', 'results': [], 'error': ") :: e ++ [Raw (ln (lit "}"))].

(** ** Wasmi *)

Class Wasmi := {
  wm_module : Type;
  wm_pre : Type;
  wm_instance : Type;
  wm_func : Type;
  module_new : bool → bytes → wm_module + bytes;
  instantiate : wm_module → wm_pre + bytes;
  start : wm_pre → wm_instance + bytes;
  get_typed_func : wm_instance → bytes → wm_func + bytes;
  func_call : wm_instance → wm_func → Z → option (Z + bytes) }.

Section programs.
Context (read_file : bytes → bytes + bytes).

(** ** The oracle (oracle.rs) *)

(** The arguments of the guest, or the first one that is no number. *)
Fixpoint invoke_args (args : list bytes) : list Z + bytes :=
  match args with
  | [] => inl []
  | a :: args =>
      match parse_i64 a with
      | Some v => match invoke_args args with inl vs => inl (v :: vs) | inr b => inr b end
      | None => inr a
      end
  end.

(** [println!] of a result. *)
Definition ok_line (v : Z) : list piece :=
  [Raw (ln (dq "{'status': 'ok', 'results': [" ++ show v ++ lit "]}"))].

(** The run of export [export] of the module [wasm] on [n]; tail calls are enabled. *)
Definition oracle_run `{Wm : Wasmi} (wasm export : bytes) (n : Z) : process :=
  match module_new true wasm with
  | inr e => Exits 1 (error_line "unsupported_op" [Quoted e]) []
  | inl m =>
      match instantiate m with
      | inr e => Exits 1 (error_line "trap_unreachable" [Quoted e]) []
      | inl i =>
          match start i with
          | inr e => Exits 1 (error_line "trap_unreachable" [Quoted e]) []
          | inl inst =>
              match get_typed_func inst export with
              | inr e => Exits 1 (error_line "unsupported_op" [Quoted e]) []
              | inl func =>
                  match func_call inst func n with
                  | Some (inl v) => Exits 0 (ok_line v) []
                  | Some (inr e) => Exits 1 (error_line "trap_unreachable" [Quoted e]) []
                  | None => Continues
                  end
              end
          end
      end
  end.

Definition oracle_main `{Wm : Wasmi} (argv : list bytes) : process :=
  match argv with
  | _ :: path :: export :: rest =>
      match read_file path with
      | inr e => Exits 1 [] [Raw (ln (lit "read: " ++ e))]
      | inl wasm =>
          match invoke_args rest with
          | inr a => Exits 2 [] [Raw (ln (lit "bad arg " ++ a))]
          | inl [n] => oracle_run wasm export n
          | inl _ => Exits 2 [] [Raw (ln (lit "stage-1 oracle expects a single i64 argument"))]
          end
      end
  | _ => Exits 2 [] [Raw (ln (lit "usage: cuwasm-oracle <module.wasm> <export> [i64 args...]"))]
  end.

(** ** The command line (main_cpu.cpp) *)

Context (payloads : bytes → list (item Payload)).

Definition status_name (s : Status) : string :=
  match s with
  | ST_RUNNING => "running"
  | ST_OK => "ok"
  | ST_TRAP_UNREACHABLE => "trap_unreachable"
  | ST_TRAP_STACK_OVERFLOW => "trap_stack_overflow"
  | ST_TRAP_CALL_DEPTH => "trap_call_depth"
  | ST_OUT_OF_FUEL => "out_of_fuel"
  | ST_UNSUPPORTED_OP => "unsupported_op"
  | ST_TRAP_DIV_BY_ZERO => "trap_div_by_zero"
  | ST_TRAP_INT_OVERFLOW => "trap_int_overflow"
  | ST_TRAP_MEM_OOB => "trap_mem_oob"
  | ST_TRAP_INDIRECT_CALL => "trap_indirect_call"
  | ST_HOSTCALL_PENDING => "hostcall_pending"
  end.

(** The results as signed numbers, with commas between them. *)
Fixpoint results_text (rs : list Z) : bytes :=
  match rs with
  | [] => []
  | [r] => show (i64 r)
  | r :: rs => show (i64 r) ++ lit ", " ++ results_text rs
  end.

Definition run_line (s : Status) (rs : list Z) : list piece :=
  [Raw (ln (dq "{'status': '" ++ lit (status_name s) ++ dq "', 'results': [" ++ results_text rs ++ lit "]}"))].

Definition DEFAULT_MAX_STEPS : nat := Z.to_nat 10000000.

(** The host is [default_host_fn], which refuses every call.  Failures of the translator
    and of the verifier print the same line. *)
Definition cli_run (rounds : nat) (wasm export : bytes) (args : list Z) : process :=
  match module_load (payloads wasm) with
  | Err e => Exits 1 (error_line "unsupported_op" [Raw (dq "'"); Said e; Raw (dq "'")]) []
  | Panic e => Aborts e
  | Ok M =>
      let fi := find_export M (unlit export) in
      if fi <? 0 then Exits 1 (error_line "unsupported_op" [Raw (dq "'missing export'")]) []
      else
        match (run_cpu M fi args DEFAULT_MAX_STEPS no_host rounds tt).1.1 with
        | Finished s rs => Exits (if bool_decide (s = ST_OK) then 0 else 1) (run_line s rs) []
        | Corrupted e => Strays e
        | NotYet => Continues
        end
  end.

Definition cli_main (rounds : nat) (argv : list bytes) : process :=
  match argv with
  | _ :: path :: export :: rest =>
      match read_file path with
      | inr _ => Exits 1 (error_line "unsupported_op" [Raw (dq "'cannot open " ++ path ++ dq "'")]) []
      | inl wasm => cli_run rounds wasm export (u64 ∘ strtoll <$> rest)
      end
  | _ => Exits 2 [] [Raw (ln (lit "usage: cuwasm-run <module.wasm> <export> [i64 args...]"))]
  end.
End programs.
