(* ===== verification/Structured.v ===== *)
(** * WebAssembly with structured control

    A reference semantics for the operators the translator accepts: function bodies
    as trees of blocks, values on an operand stack that a block cannot look below,
    branches that unwind to their label.  Nothing here knows of CuOp: a number is
    computed from its mathematical definition and a branch from the nesting.  The
    lowering is measured against it.

    A program runs in an environment, the host, which answers a call from the history of
    the calls before it; the interface is the mailbox the engine documents.  [Stuck] is
    the result of a program that validation rejects, of an environment that does not keep
    to the interface, and of what the engine does not do as WebAssembly does ([run] names
    these); [Timeout] that of a run that needs more [fuel]. *)

From S2P Require Import Prelude Cuop Wasm Engine.
From stdpp Require Import base list strings.

Local Open Scope Z_scope.

(** ** Programs *)

Inductive instr :=
  | Basic (o : Operator)
  | IBlock (ty : BlockType) (body : list instr)
  | ILoop (ty : BlockType) (body : list instr)
  | IIf (ty : BlockType) (thn : list instr) (els : option (list instr)).

(** The operators of a body, in the order of the binary format. *)
Fixpoint flatten1 (i : instr) : list Operator :=
  match i with
  | Basic o => [o]
  | IBlock ty body => Block ty :: flat_map flatten1 body ++ [End]
  | ILoop ty body => Loop ty :: flat_map flatten1 body ++ [End]
  | IIf ty thn els =>
      If ty :: flat_map flatten1 thn ++
      match els with Some els => Else :: flat_map flatten1 els | None => [] end ++ [End]
  end.

Definition flatten (body : list instr) : list Operator := flat_map flatten1 body.

(** Induction over bodies and their rests. *)
Fixpoint isize (i : instr) : nat :=
  match i with
  | Basic _ => 1
  | IBlock _ body | ILoop _ body => S (sum_list_with isize body)
  | IIf _ thn els =>
      S (sum_list_with isize thn + match els with Some els => sum_list_with isize els | None => 0 end)
  end.

Lemma body_ind (Q : list instr → Prop) :
  Q [] →
  (∀ o rest, Q rest → Q (Basic o :: rest)) →
  (∀ ty body rest, Q body → Q rest → Q (IBlock ty body :: rest)) →
  (∀ ty body rest, Q body → Q rest → Q (ILoop ty body :: rest)) →
  (∀ ty thn rest, Q thn → Q rest → Q (IIf ty thn None :: rest)) →
  (∀ ty thn els rest, Q thn → Q els → Q rest → Q (IIf ty thn (Some els) :: rest)) →
  ∀ body, Q body.
Proof.
  intros H0 H1 H2 H3 H4 H5 body. remember (sum_list_with isize body) as n eqn:Hn.
  revert body Hn. induction (lt_wf n) as [n _ IH]. intros [|[o|ty b|ty b|ty t [e|]] rest] Hn; simpl in Hn.
  - done.
  - apply H1. eapply IH; [|done]. lia.
  - apply H2; (eapply IH; [|done]); lia.
  - apply H3; (eapply IH; [|done]); lia.
  - apply H5; (eapply IH; [|done]); lia.
  - apply H4; (eapply IH; [|done]); lia.
Qed.

(** A structured operator is never basic. *)
Definition is_basic (o : Operator) : bool :=
  match o with Block _ | Loop _ | If _ | Else | End => false | _ => true end.

Record FuncDef := mkFuncDef {
  fd_params : Z;
  fd_results : Z;
  fd_locals : Z;
  fd_body : list instr }.

(** A function of the host, with the numbers of its parameters and results, or of the
    module. *)
Inductive Func :=
  | Host (id np nr : Z)
  | Code (fd : FuncDef).

(** The functions by index, with the types; the table, the data segments, and the
    memory's initial size. *)
Record Prog := mkProg {
  p_funcs : list Func;
  p_types : list FuncType;
  p_typeidx : list Z;
  p_table : list (option Z);
  p_datas : list (list Z);
  p_msize : Z }.

(** ** Numbers *)

(** The unsigned and the signed reading of a word's low bits. *)
Definition w32 (a : Z) : Z := a mod 2 ^ 32.
Definition w64 (a : Z) : Z := a mod 2 ^ 64.
Definition signed (bits a : Z) : Z :=
  let u := a mod 2 ^ bits in if u <? 2 ^ (bits - 1) then u else u - 2 ^ bits.

Definition leading_zeros (bits a : Z) : Z :=
  let u := a mod 2 ^ bits in if u =? 0 then bits else bits - 1 - Z.log2 u.

Definition wasm_un (o : Operator) : option (Z → Z) :=
  match o with
  | I32Eqz => Some (fun a => b2z (w32 a =? 0))
  | I64Eqz => Some (fun a => b2z (w64 a =? 0))
  | I32WrapI64 | I64ExtendI32U => Some w32
  | I64Extend32S | I64ExtendI32S => Some (fun a => w64 (signed 32 a))
  | I32Clz => Some (leading_zeros 32)
  | I64Clz => Some (leading_zeros 64)
  | I32ReinterpretF32 | F32ReinterpretI32 | I64ReinterpretF64 | F64ReinterpretI64 => Some (fun a => a)
  | _ => None
  end.

(** Division truncates; the one overflow traps. *)
Definition wasm_div_s (bits a b : Z) : Z + Status :=
  if signed bits b =? 0 then inr ST_TRAP_DIV_BY_ZERO
  else
    let q := Z.quot (signed bits a) (signed bits b) in
    if q =? 2 ^ (bits - 1) then inr ST_TRAP_INT_OVERFLOW else inl (q mod 2 ^ bits).

Definition wasm_rem_s (bits a b : Z) : Z + Status :=
  if signed bits b =? 0 then inr ST_TRAP_DIV_BY_ZERO
  else inl (Z.rem (signed bits a) (signed bits b) mod 2 ^ bits).

Definition wasm_div_u (bits a b : Z) : Z + Status :=
  if b mod 2 ^ bits =? 0 then inr ST_TRAP_DIV_BY_ZERO
  else inl (a mod 2 ^ bits / (b mod 2 ^ bits)).

Definition wasm_rem_u (bits a b : Z) : Z + Status :=
  if b mod 2 ^ bits =? 0 then inr ST_TRAP_DIV_BY_ZERO
  else inl ((a mod 2 ^ bits) mod (b mod 2 ^ bits)).

Definition arith (bits : Z) (f : Z → Z → Z) (a b : Z) : Z + Status :=
  inl (f (a mod 2 ^ bits) (b mod 2 ^ bits) mod 2 ^ bits).
Definition cmp_u (bits : Z) (f : Z → Z → bool) (a b : Z) : Z + Status :=
  inl (b2z (f (a mod 2 ^ bits) (b mod 2 ^ bits))).
Definition cmp_s (bits : Z) (f : Z → Z → bool) (a b : Z) : Z + Status :=
  inl (b2z (f (signed bits a) (signed bits b))).
Definition shr_s (bits a b : Z) : Z + Status :=
  inl (signed bits a / 2 ^ (b mod bits) mod 2 ^ bits).

Definition shl (bits a b : Z) : Z := a * 2 ^ (b mod bits).
Definition shr_u (bits a b : Z) : Z := a / 2 ^ (b mod bits).

Definition wasm_bin (o : Operator) : option (Z → Z → Z + Status) :=
  match o with
  | I32Add => Some (arith 32 Z.add) | I64Add => Some (arith 64 Z.add)
  | I32Sub => Some (arith 32 Z.sub) | I64Sub => Some (arith 64 Z.sub)
  | I32Mul => Some (arith 32 Z.mul) | I64Mul => Some (arith 64 Z.mul)
  | I32And => Some (arith 32 Z.land) | I64And => Some (arith 64 Z.land)
  | I32Or => Some (arith 32 Z.lor) | I64Or => Some (arith 64 Z.lor)
  | I32Xor => Some (arith 32 Z.lxor) | I64Xor => Some (arith 64 Z.lxor)
  | I32Shl => Some (arith 32 (shl 32)) | I64Shl => Some (arith 64 (shl 64))
  | I32ShrU => Some (arith 32 (shr_u 32)) | I64ShrU => Some (arith 64 (shr_u 64))
  | I32ShrS => Some (shr_s 32) | I64ShrS => Some (shr_s 64)
  | I32DivS => Some (wasm_div_s 32) | I64DivS => Some (wasm_div_s 64)
  | I32DivU => Some (wasm_div_u 32) | I64DivU => Some (wasm_div_u 64)
  | I32RemS => Some (wasm_rem_s 32) | I64RemS => Some (wasm_rem_s 64)
  | I32RemU => Some (wasm_rem_u 32) | I64RemU => Some (wasm_rem_u 64)
  | I32Eq => Some (cmp_u 32 Z.eqb) | I64Eq => Some (cmp_u 64 Z.eqb)
  | I32Ne => Some (cmp_u 32 neqb) | I64Ne => Some (cmp_u 64 neqb)
  | I32LtU => Some (cmp_u 32 Z.ltb) | I64LtU => Some (cmp_u 64 Z.ltb)
  | I32LeU => Some (cmp_u 32 Z.leb) | I64LeU => Some (cmp_u 64 Z.leb)
  | I32GtU => Some (cmp_u 32 Z.gtb) | I64GtU => Some (cmp_u 64 Z.gtb)
  | I32GeU => Some (cmp_u 32 Z.geb) | I64GeU => Some (cmp_u 64 Z.geb)
  | I32LtS => Some (cmp_s 32 Z.ltb) | I64LtS => Some (cmp_s 64 Z.ltb)
  | I32LeS => Some (cmp_s 32 Z.leb) | I64LeS => Some (cmp_s 64 Z.leb)
  | I32GtS => Some (cmp_s 32 Z.gtb) | I64GtS => Some (cmp_s 64 Z.gtb)
  | I32GeS => Some (cmp_s 32 Z.geb) | I64GeS => Some (cmp_s 64 Z.geb)
  | _ => None
  end.

(** Constants, floats by their bits. *)
Definition wasm_const (o : Operator) : option Z :=
  match o with
  | I32Const v => Some (w32 v)
  | I64Const v => Some (w64 v)
  | F32Const bits => Some (w64 bits)
  | F64Const bits => Some (w64 bits)
  | _ => None
  end.

(** Two words, the low one first, of a number modulo 2^128. *)
Definition halves (v : Z) : Z * Z := (v mod 2 ^ 64, (v mod 2 ^ 128) / 2 ^ 64).

Definition wide (lo hi : Z) : Z := w64 lo + 2 ^ 64 * w64 hi.

(** ** State *)

(** Calls to the host so far, the last one first: what was in the mailbox, and the
    memory. *)
Definition Trace : Type := list (HostMailbox * list Z).

(** A segment is live until it is dropped. *)
Record Store := mkStore {
  s_globals : list Z;
  s_memory : list Z;
  s_msize : Z;
  s_live : list Z;
  s_box : HostMailbox;
  s_trace : Trace }.

Definition with_globals (x : list Z) (st : Store) : Store :=
  mkStore x st.(s_memory) st.(s_msize) st.(s_live) st.(s_box) st.(s_trace).
Definition with_memory (x : list Z) (st : Store) : Store :=
  mkStore st.(s_globals) x st.(s_msize) st.(s_live) st.(s_box) st.(s_trace).
Definition with_msize (x : Z) (st : Store) : Store :=
  mkStore st.(s_globals) st.(s_memory) x st.(s_live) st.(s_box) st.(s_trace).
Definition with_live (x : list Z) (st : Store) : Store :=
  mkStore st.(s_globals) st.(s_memory) st.(s_msize) x st.(s_box) st.(s_trace).

(** The result of a basic operator on the locals and the operand stack, top first. *)
Inductive bres :=
  | BOk (st : Store) (ls vs : list Z)
  | BTrap (s : Status)
  | BStuck.

(** *** Memory *)

(** [n] bytes from [a], little endian; [vals] written over the memory from [a]. *)
Definition le_value (bs : list Z) : Z := foldr (fun b v => b + 2 ^ 8 * v) 0 bs.
Fixpoint le_split (n : nat) (v : Z) : list Z :=
  match n with O => [] | S n' => v mod 2 ^ 8 :: le_split n' (v / 2 ^ 8) end.

Definition read_mem (mem : list Z) (a n : Z) : list Z := take (Z.to_nat n) (drop (Z.to_nat a) mem).
Definition write_mem (mem : list Z) (a : Z) (bs : list Z) : list Z :=
  take (Z.to_nat a) mem ++ bs ++ drop (Z.to_nat a + length bs) mem.

(** Width in bytes, sign, width of the result, offset. *)
Definition wasm_load (o : Operator) : option (Z * bool * Z * Z) :=
  match o with
  | I32Load m | F32Load m => Some (4, false, 32, m.(ma_offset))
  | I64Load m | F64Load m => Some (8, false, 64, m.(ma_offset))
  | I32Load8S m => Some (1, true, 32, m.(ma_offset))
  | I32Load8U m => Some (1, false, 32, m.(ma_offset))
  | I32Load16S m => Some (2, true, 32, m.(ma_offset))
  | I32Load16U m => Some (2, false, 32, m.(ma_offset))
  | I64Load8S m => Some (1, true, 64, m.(ma_offset))
  | I64Load8U m => Some (1, false, 64, m.(ma_offset))
  | I64Load16S m => Some (2, true, 64, m.(ma_offset))
  | I64Load16U m => Some (2, false, 64, m.(ma_offset))
  | I64Load32S m => Some (4, true, 64, m.(ma_offset))
  | I64Load32U m => Some (4, false, 64, m.(ma_offset))
  | _ => None
  end.

Definition wasm_store (o : Operator) : option (Z * Z) :=
  match o with
  | I32Store m | F32Store m | I64Store32 m => Some (4, m.(ma_offset))
  | I64Store m | F64Store m => Some (8, m.(ma_offset))
  | I32Store8 m | I64Store8 m => Some (1, m.(ma_offset))
  | I32Store16 m | I64Store16 m => Some (2, m.(ma_offset))
  | _ => None
  end.

(** Offsets are unsigned. *)
Definition offset_ok (o : Operator) : bool :=
  match wasm_load o, wasm_store o with
  | Some (_, _, _, off), _ | _, Some (_, off) => 0 <=? off
  | _, _ => true
  end.

Fixpoint tree_ok (i : instr) : bool :=
  match i with
  | Basic o => is_basic o && offset_ok o
  | IBlock _ body | ILoop _ body => forallb tree_ok body
  | IIf _ thn els => forallb tree_ok thn && match els with Some e => forallb tree_ok e | None => true end
  end.

Definition loaded (n : Z) (sg : bool) (bits v : Z) : Z :=
  if sg then signed (8 * n) v mod 2 ^ bits else v.

(** *** Operators without control *)

(** The bytes of segment [i] as they are now. *)
Definition segment (datas : list (list Z)) (st : Store) (i : Z) : option (list Z) :=
  bs ← index datas i; l ← index st.(s_live) i; Some (if l =? 0 then [] else bs).

Definition basic_step (datas : list (list Z)) (o : Operator) (st : Store) (ls vs : list Z) : bres :=
  match wasm_const o, wasm_un o, wasm_bin o, wasm_load o, wasm_store o with
  | Some v, _, _, _, _ => BOk st ls (v :: vs)
  | _, Some f, _, _, _ =>
      match vs with a :: vs => BOk st ls (f a :: vs) | _ => BStuck end
  | _, _, Some f, _, _ =>
      match vs with
      | b :: a :: vs => match f a b with inl v => BOk st ls (v :: vs) | inr t => BTrap t end
      | _ => BStuck
      end
  | _, _, _, Some (n, sg, bits, off), _ =>
      match vs with
      | a :: vs =>
          let ea := w32 a + off in
          if st.(s_msize) <? ea + n then BTrap ST_TRAP_MEM_OOB
          else BOk st ls (loaded n sg bits (le_value (read_mem st.(s_memory) ea n)) :: vs)
      | _ => BStuck
      end
  | _, _, _, _, Some (n, off) =>
      match vs with
      | v :: a :: vs =>
          let ea := w32 a + off in
          if st.(s_msize) <? ea + n then BTrap ST_TRAP_MEM_OOB
          else BOk (with_memory (write_mem st.(s_memory) ea (le_split (Z.to_nat n) v)) st) ls vs
      | _ => BStuck
      end
  | _, _, _, _, _ =>
      match o, vs with
      | Nop, _ => BOk st ls vs
      | Drop, _ :: vs => BOk st ls vs
      | (Select | TypedSelect), c :: b :: a :: vs => BOk st ls ((if w32 c =? 0 then b else a) :: vs)
      | LocalGet i, _ => match index ls i with Some v => BOk st ls (v :: vs) | None => BStuck end
      | LocalSet i, v :: vs =>
          if in_range ls i then BOk st (<[Z.to_nat i := v]> ls) vs else BStuck
      | LocalTee i, v :: vs =>
          if in_range ls i then BOk st (<[Z.to_nat i := v]> ls) (v :: vs) else BStuck
      | GlobalGet i, _ =>
          match index st.(s_globals) i with Some v => BOk st ls (v :: vs) | None => BStuck end
      | GlobalSet i, v :: vs =>
          if in_range st.(s_globals) i
          then BOk (with_globals (<[Z.to_nat i := v]> st.(s_globals)) st) ls vs
          else BStuck
      | I64MulWideU, b :: a :: vs =>
          let r := halves (w64 a * w64 b) in BOk st ls (r.2 :: r.1 :: vs)
      | I64MulWideS, b :: a :: vs =>
          let r := halves (signed 64 a * signed 64 b) in BOk st ls (r.2 :: r.1 :: vs)
      | I64Add128, bh :: bl :: ah :: al :: vs =>
          let r := halves (wide al ah + wide bl bh) in BOk st ls (r.2 :: r.1 :: vs)
      | I64Sub128, bh :: bl :: ah :: al :: vs =>
          let r := halves (wide al ah - wide bl bh) in BOk st ls (r.2 :: r.1 :: vs)
      | MemorySize 0, _ => BOk st ls (st.(s_msize) `div` WASM_PAGE :: vs)
      | MemoryGrow 0, d :: vs =>
          let old := st.(s_msize) `div` WASM_PAGE in
          if len st.(s_memory) `div` WASM_PAGE <? old + w32 d then BOk st ls (2 ^ 32 - 1 :: vs)
          else BOk (with_msize ((old + w32 d) * WASM_PAGE) st) ls (old :: vs)
      | MemoryCopy 0 0, n :: s :: d :: vs =>
          if (st.(s_msize) <? w32 s + w32 n) || (st.(s_msize) <? w32 d + w32 n) then BTrap ST_TRAP_MEM_OOB
          else BOk (with_memory (write_mem st.(s_memory) (w32 d) (read_mem st.(s_memory) (w32 s) (w32 n))) st) ls vs
      | MemoryFill 0, n :: v :: d :: vs =>
          if st.(s_msize) <? w32 d + w32 n then BTrap ST_TRAP_MEM_OOB
          else BOk (with_memory (write_mem st.(s_memory) (w32 d) (replicate (Z.to_nat (w32 n)) (v mod 2 ^ 8))) st) ls vs
      | MemoryInit i 0, n :: s :: d :: vs =>
          match segment datas st i with
          | Some bs =>
              if (len bs <? w32 s + w32 n) || (st.(s_msize) <? w32 d + w32 n) then BTrap ST_TRAP_MEM_OOB
              else BOk (with_memory (write_mem st.(s_memory) (w32 d) (read_mem bs (w32 s) (w32 n))) st) ls vs
          | None => BStuck
          end
      | DataDrop i, _ =>
          if in_range st.(s_live) i then BOk (with_live (<[Z.to_nat i := 0]> st.(s_live)) st) ls vs else BStuck
      | _, _ => BStuck
      end
  end.

(** ** Control *)

Inductive out :=
  | Next (st : Store) (ls vs : list Z)
  | Branch (d : nat) (st : Store) (ls vs : list Z)
  | Ret (st : Store) (vs : list Z)
  | Tail (f : Z) (st : Store) (vs : list Z)
  | Trapped (s : Status) (tr : Trace)
  | Stuck
  | Timeout.

(** What a call of a function leaves. *)
Inductive call_out :=
  | Returns (st : Store) (vs : list Z)
  | CTrapped (s : Status) (tr : Trace)
  | CStuck
  | CTimeout.

(** Arity of a block: parameters and results; only integer results have a shorthand. *)
Definition arity (types : list FuncType) (ty : BlockType) : option (nat * nat) :=
  match ty with
  | BtEmpty => Some (0, 0)%nat
  | BtType I32 | BtType I64 => Some (0, 1)%nat
  | BtType _ => None
  | BtFuncType i => (fun ft => (length ft.1, length ft.2)) <$> types !! Z.to_nat i
  end.

(** The top [n] of [vs], when there are that many. *)
Definition operands (n : nat) (vs : list Z) : option (list Z) :=
  if (n <=? length vs)%nat then Some (take n vs) else None.

(** A block that has ended, above the values [rest] it could not see: [n] results when
    it runs off its end, the [m] values of its label when it is branched to. *)
Definition leave (n : nat) (rest : list Z) (st : Store) (ls vs : list Z) : out :=
  if (length vs =? n)%nat then Next st ls (vs ++ rest) else Stuck.

Definition land_on (m : nat) (rest : list Z) (st : Store) (ls vs : list Z) : out :=
  match operands m vs with Some vs => Next st ls (vs ++ rest) | None => Stuck end.

Definition block_out (n : nat) (rest : list Z) (o : out) : out :=
  match o with
  | Next st ls vs => leave n rest st ls vs
  | Branch 0 st ls vs => land_on n rest st ls vs
  | Branch (S d) st ls vs => Branch d st ls vs
  | o => o
  end.

(** The rest of a body runs when control gets there. *)
Definition and_then (o : out) (next : Store → list Z → list Z → out) : out :=
  match o with
  | Next st ls vs => next st ls vs
  | Branch d st ls vs => Branch d st ls vs
  | Ret st vs => Ret st vs
  | Tail f st vs => Tail f st vs
  | Trapped s tr => Trapped s tr
  | Stuck => Stuck
  | Timeout => Timeout
  end.

(** The label [br_table] selects. *)
Definition table_label (dflt : Z) (ts : list (item Z)) (i : Z) : option Z :=
  match ts !! Z.to_nat i with
  | Some (Item d) => Some d
  | Some (ReadErr _) => None
  | None => Some dflt
  end.

(** *** The host *)

(** How the host answers a call: whether it succeeds, the mailbox and the memory after. *)
Definition Env : Type := Trace → HostMailbox → list Z → bool * HostMailbox * list Z.

(** It returns as many results as asked for, at most one, and leaves the memory's length. *)
Definition reply_ok (mem : list Z) (nr : Z) (box : HostMailbox) (mem' : list Z) : bool :=
  (box.(mb_n_results) =? nr) && (nr <=? 1) && (len box.(mb_results) =? 1) &&
  forallb (fun x => (0 <=? x) && (x <? 2 ^ 64)) box.(mb_results) &&
  (len mem' =? len mem) && forallb (fun x => (0 <=? x) && (x <? 2 ^ 8)) mem'.

Section semantics.
Context (P : Prog) (env : Env).

(** The function in slot [i] of the table, if its type is type [ty]. *)
Definition table_func (i ty : Z) : option Z + Status :=
  match index P.(p_table) i with
  | None | Some None => inr ST_TRAP_INDIRECT_CALL
  | Some (Some f) =>
      match index P.(p_funcs) f, index P.(p_typeidx) f, index P.(p_types) ty with
      | Some (Code _), Some t, Some ft =>
          match index P.(p_types) t with
          | Some ft' => if bool_decide (ft' = ft) then inl (Some f) else inr ST_TRAP_INDIRECT_CALL
          | None => inl None
          end
      | _, _, _ => inl None
      end
  end.

(** A call of the host's function [id].  The engine's driver forgets at a host call that
    the memory has grown: then the program is stuck. *)
Definition call_host (id np nr : Z) (st : Store) (vs : list Z) : call_out :=
  match operands (Z.to_nat np) vs with
  | Some ps =>
      let box := mkMailbox id np nr (rev ps ++ drop (length ps) st.(s_box).(mb_args)) st.(s_box).(mb_results) in
      let '(ok, box', mem') := env st.(s_trace) box st.(s_memory) in
      let tr := (box, st.(s_memory)) :: st.(s_trace) in
      if negb (st.(s_msize) =? P.(p_msize)) then CStuck
      else if negb ok then CTrapped ST_UNSUPPORTED_OP tr
      else if reply_ok st.(s_memory) nr box' mem' then
        Returns (mkStore st.(s_globals) mem' st.(s_msize) st.(s_live) box' tr)
          (take (Z.to_nat nr) box'.(mb_results) ++ drop (Z.to_nat np) vs)
      else CStuck
  | None => CStuck
  end.

(** One instruction, given how bodies run and functions are called. *)
Section instruction.
Context (run : list instr → Store → list Z → list Z → out) (call : Z → Store → list Z → call_out).

(** A block whose label is at its end. *)
Definition run_block (np nr : nat) (body : list instr) (st : Store) (ls vs : list Z) : out :=
  match operands np vs with
  | Some ps => block_out nr (drop np vs) (run body st ls ps)
  | None => Stuck
  end.

(** A loop: a branch to its label runs it again, on the label's values. *)
Definition run_loop (again : instr) (np nr : nat) (body : list instr) (st : Store) (ls vs : list Z) : out :=
  match operands np vs with
  | Some ps =>
      match run body st ls ps with
      | Branch 0 st ls vs' =>
          match operands np vs' with
          | Some ps => run [again] st ls (ps ++ drop np vs)
          | None => Stuck
          end
      | o => block_out nr (drop np vs) o
      end
  | None => Stuck
  end.

Definition run_if (np nr : nat) (thn : list instr) (els : option (list instr)) (st : Store)
    (ls vs : list Z) : out :=
  match vs with
  | [] => Stuck
  | c :: vs =>
      if w32 c =? 0 then
        match els with
        | Some els => run_block np nr els st ls vs
        | None => match operands np vs with Some ps => leave nr (drop np vs) st ls ps | None => Stuck end
        end
      else run_block np nr thn st ls vs
  end.

Definition run_basic (o : Operator) (st : Store) (ls vs : list Z) : out :=
  match o, vs with
  | Br d, _ => Branch (Z.to_nat d) st ls vs
  | BrIf d, c :: vs =>
      if w32 c =? 0 then Next st ls vs else Branch (Z.to_nat d) st ls vs
  | BrTable dflt ts, i :: vs =>
      match table_label dflt ts (w32 i) with
      | Some d => Branch (Z.to_nat d) st ls vs
      | None => Stuck
      end
  | Return, _ => Ret st vs
  | Unreachable, _ => Trapped ST_TRAP_UNREACHABLE st.(s_trace)
  | Call f, _ =>
      match call f st vs with
      | Returns st vs => Next st ls vs
      | CTrapped s tr => Trapped s tr
      | CStuck => Stuck
      | CTimeout => Timeout
      end
  | CallIndirect ty 0, i :: vs =>
      match table_func (w32 i) ty with
      | inl (Some f) =>
          match call f st vs with
          | Returns st vs => Next st ls vs
          | CTrapped s tr => Trapped s tr
          | CStuck => Stuck
          | CTimeout => Timeout
          end
      | inl None => Stuck
      | inr s => Trapped s st.(s_trace)
      end
  | ReturnCall f, _ => Tail f st vs
  | _, _ =>
      match basic_step P.(p_datas) o st ls vs with
      | BOk st ls vs => Next st ls vs
      | BTrap s => Trapped s st.(s_trace)
      | BStuck => Stuck
      end
  end.

Definition run_instr (i : instr) (st : Store) (ls vs : list Z) : out :=
  match i with
  | Basic o => run_basic o st ls vs
  | IBlock ty body =>
      match arity P.(p_types) ty with Some (np, nr) => run_block np nr body st ls vs | None => Stuck end
  | ILoop ty body =>
      match arity P.(p_types) ty with Some (np, nr) => run_loop i np nr body st ls vs | None => Stuck end
  | IIf ty thn els =>
      match arity P.(p_types) ty with Some (np, nr) => run_if np nr thn els st ls vs | None => Stuck end
  end.

(** What a function with [n] results makes of the end of its body, above [rest]; a tail
    call is a call with the frame gone, of a function with the same results. *)
Definition func_out (n : Z) (rest : list Z) (o : out) : call_out :=
  match o with
  | Next st _ vs => if (length vs =? Z.to_nat n)%nat then Returns st (vs ++ rest) else CStuck
  | Branch 0 st _ vs | Ret st vs =>
      match operands (Z.to_nat n) vs with Some vs => Returns st (vs ++ rest) | None => CStuck end
  | Tail f st vs =>
      match index P.(p_funcs) f with
      | Some (Code fd) =>
          if fd.(fd_results) =? n then
            match operands (Z.to_nat fd.(fd_params)) vs with
            | Some ps =>
                match call f st ps with
                | Returns st vs => Returns st (vs ++ rest)
                | CTrapped s tr => CTrapped s tr
                | CStuck => CStuck
                | CTimeout => CTimeout
                end
            | None => CStuck
            end
          else CStuck
      | _ => CStuck
      end
  | Branch (S _) _ _ _ | Stuck => CStuck
  | Trapped s tr => CTrapped s tr
  | Timeout => CTimeout
  end.

(** A function on its arguments, the last one on top; locals start at zero. *)
Definition run_func (fd : FuncDef) (st : Store) (vs : list Z) : call_out :=
  match operands (Z.to_nat fd.(fd_params)) vs with
  | Some ps =>
      func_out fd.(fd_results) (drop (Z.to_nat fd.(fd_params)) vs)
        (run fd.(fd_body) st (rev ps ++ replicate (Z.to_nat fd.(fd_locals)) 0) [])
  | None => CStuck
  end.
End instruction.

Fixpoint run (fuel : nat) (body : list instr) (st : Store) (ls vs : list Z) : out :=
  match fuel, body with
  | O, _ => Timeout
  | _, [] => Next st ls vs
  | S fuel, i :: rest =>
      and_then (run_instr (run fuel) (call fuel) i st ls vs) (run fuel rest)
  end
with call (fuel : nat) (f : Z) (st : Store) (vs : list Z) : call_out :=
  match fuel with
  | O => CTimeout
  | S fuel =>
      match index P.(p_funcs) f with
      | Some (Code fd) => run_func (run fuel) (call fuel) fd st vs
      | Some (Host id np nr) => call_host id np nr st vs
      | None => CStuck
      end
  end.

Lemma run_cons fuel i rest st ls vs :
  run (S fuel) (i :: rest) st ls vs = and_then (run_instr (run fuel) (call fuel) i st ls vs) (run fuel rest).
Proof. done. Qed.
End semantics.
