(* ===== verification/WasmFuel.v ===== *)
(** * More fuel changes no result of the reference semantics

    A run that has a result has the same one on more fuel, so that a call has one result at
    most. *)

From S2P Require Import Prelude Cuop Wasm Engine Structured.
From stdpp Require Import base list strings.

Local Open Scope Z_scope.

(** No result yet, or the same. *)
Definition out_le (o o' : out) : Prop := o = Timeout ∨ o = o'.
Definition call_le (c c' : call_out) : Prop := c = CTimeout ∨ c = c'.

#[export] Instance out_le_refl : Reflexive out_le.
Proof. by right. Qed.
#[export] Instance call_le_refl : Reflexive call_le.
Proof. by right. Qed.

Lemma out_le_Timeout o : out_le Timeout o.
Proof. by left. Qed.

Lemma and_then_le o o' next next' :
  out_le o o' → (∀ st ls vs, out_le (next st ls vs) (next' st ls vs)) → out_le (and_then o next) (and_then o' next').
Proof. intros [-> | ->] H; [apply out_le_Timeout|]. destruct o'; simpl; try reflexivity. apply H. Qed.

Lemma block_out_le n rest o o' : out_le o o' → out_le (block_out n rest o) (block_out n rest o').
Proof. intros [-> | ->]; [apply out_le_Timeout|reflexivity]. Qed.

Section mono.
Context (P : Prog) (env : Env).

Section step.
Context (run run' : list instr → Store → list Z → list Z → out).
Context (call call' : Z → Store → list Z → call_out).
Hypothesis Hrun : ∀ body st ls vs, out_le (run body st ls vs) (run' body st ls vs).
Hypothesis Hcall : ∀ f st vs, call_le (call f st vs) (call' f st vs).

Lemma run_block_le np nr body st ls vs : out_le (run_block run np nr body st ls vs) (run_block run' np nr body st ls vs).
Proof using Hrun. unfold run_block. destruct (operands np vs); [|reflexivity]. apply block_out_le, Hrun. Qed.

Lemma run_loop_le again np nr body st ls vs :
  out_le (run_loop run again np nr body st ls vs) (run_loop run' again np nr body st ls vs).
Proof using Hrun.
  unfold run_loop. destruct (operands np vs) as [ps|]; [|reflexivity].
  destruct (Hrun body st ls ps) as [-> | ->]; [apply out_le_Timeout|].
  destruct (run' body st ls ps) as [|[|d] st1 ls1 vs1| | | | |]; try reflexivity.
  destruct (operands np vs1); [apply Hrun|reflexivity].
Qed.

Lemma run_basic_le o st ls vs : out_le (run_basic P call o st ls vs) (run_basic P call' o st ls vs).
Proof using Hcall.
  destruct o; try reflexivity; simpl.
  - destruct (Hcall function_index st vs) as [-> | ->]; [apply out_le_Timeout|reflexivity].
  - destruct vs as [|i vs]; [reflexivity|]. destruct table_index; try reflexivity.
    destruct (table_func P (w32 i) type_index) as [[f|]|]; try reflexivity.
    destruct (Hcall f st vs) as [-> | ->]; [apply out_le_Timeout|reflexivity].
Qed.

Lemma run_instr_le i st ls vs : out_le (run_instr P run call i st ls vs) (run_instr P run' call' i st ls vs).
Proof using Hrun Hcall.
  destruct i as [o|ty body|ty body|ty thn els]; simpl; [apply run_basic_le|..];
    (destruct (arity _ _) as [[np nr]|]; [|reflexivity]).
  - apply run_block_le.
  - apply run_loop_le.
  - unfold run_if. destruct vs as [|c vs]; [reflexivity|]. destruct (_ =? 0); [|apply run_block_le].
    destruct els; [apply run_block_le|reflexivity].
Qed.

Lemma run_func_le fd st vs : call_le (run_func P run call fd st vs) (run_func P run' call' fd st vs).
Proof using Hrun Hcall.
  unfold run_func. destruct (operands _ _) as [ps|]; [|reflexivity].
  destruct (Hrun (fd_body fd) st (rev ps ++ replicate (Z.to_nat (fd_locals fd)) 0) []) as [-> | ->]; [by left|].
  destruct (run' _ _ _ _) as [| |  |f st1 vs1| | |]; try reflexivity. simpl.
  destruct (index _ f) as [[|fd']|]; try reflexivity. destruct (_ =? _); [|reflexivity].
  destruct (operands _ vs1) as [qs|]; [|reflexivity].
  destruct (Hcall f st1 qs) as [-> | ->]; [by left|reflexivity].
Qed.
End step.

Abbreviation run := (run P env).
Abbreviation call := (call P env).

Lemma fuel_S k :
  (∀ body st ls vs, out_le (run k body st ls vs) (run (S k) body st ls vs)) ∧
  (∀ f st vs, call_le (call k f st vs) (call (S k) f st vs)).
Proof.
  induction k as [|k [IHr IHc]]; [by split; left|]. split.
  - intros [|i rest] st ls vs; [reflexivity|]. rewrite !(run_cons P env).
    apply and_then_le; [by apply run_instr_le|apply IHr].
  - intros f st vs. remember (S k) as k'. rewrite Heqk' at 1. simpl.
    destruct (index _ f) as [[|fd]|]; [reflexivity| |reflexivity]. subst k'. by apply run_func_le.
Qed.

Lemma call_more k k' f st vs c : (k ≤ k')%nat → call k f st vs = c → c ≠ CTimeout → call k' f st vs = c.
Proof.
  intros Hle Hc Hne. induction Hle as [|k' Hle IH]; [done|].
  destruct (proj2 (fuel_S k') f st vs) as [H|H]; congruence.
Qed.

(** A call has one result at most. *)
Lemma call_det k k' f st vs :
  call k f st vs ≠ CTimeout → call k' f st vs ≠ CTimeout → call k f st vs = call k' f st vs.
Proof.
  intros H H'. destruct (Nat.le_ge_cases k k') as [Hle|Hle].
  - symmetry. by eapply call_more.
  - by eapply call_more.
Qed.
End mono.
