(* ===== verification/WasmProgram.v ===== *)
(** * The program a module describes

    What a module's sections declare, read off the payloads, and the program of the
    reference semantics they describe: function bodies as trees, imported functions by
    their numbers, the table, the data segments and the memory's size. *)

From S2P Require Import Prelude Cuop Wasm Lower EnvTable Module ModuleFacts ModuleTables Engine Structured.
From stdpp Require Import base list strings.

Local Open Scope Z_scope.

(** ** Declarations *)

Definition entry_types (ct : CompositeInnerType) : list FuncType :=
  match ct with CtFunc params results => [(params, results)] | CtOther => [] end.

Definition import_types (imp : Import) : list Z :=
  match imp.(imp_ty) with TrFunc t => [t] | TrOther _ => [] end.

(** What sections declare besides functions: types, the types of functions, data and
    element segments, and the sizes of the table and of the memory. *)
Record Decls := mkDecls {
  de_types : list FuncType;
  de_typeidx : list Z;
  de_datas : list (list Z);
  de_elems : list (Z * list Z);
  de_table : Z;
  de_memory : Z }.

Definition no_decl : Decls := mkDecls [] [] [] [] 0 0.

Definition decl_app (x y : Decls) : Decls :=
  mkDecls (x.(de_types) ++ y.(de_types)) (x.(de_typeidx) ++ y.(de_typeidx)) (x.(de_datas) ++ y.(de_datas))
    (x.(de_elems) ++ y.(de_elems)) (x.(de_table) + y.(de_table)) (x.(de_memory) + y.(de_memory)).

Definition decl_types (l : list FuncType) : Decls := mkDecls l [] [] [] 0 0.
Definition decl_typeidx (l : list Z) : Decls := mkDecls [] l [] [] 0 0.

Lemma decl_app_assoc x y z : decl_app (decl_app x y) z = decl_app x (decl_app y z).
Proof. unfold decl_app. simpl. by rewrite <-!app_assoc, !Z.add_assoc. Qed.

Lemma decl_app_nil_l x : decl_app no_decl x = x.
Proof. by destruct x. Qed.

Lemma decl_app_nil_r x : decl_app x no_decl = x.
Proof. unfold decl_app. destruct x. simpl. by rewrite !app_nil_r, !Z.add_0_r. Qed.

(** One item after another. *)
Definition decls {A} (g : A → Decls) (l : list A) : Decls := foldr (fun x => decl_app (g x)) no_decl l.

Definition ok_of {A} (o : outcome A) : option A := match o with Ok a => Some a | _ => None end.
Definition item_of {A} (it : item A) : option A := match it with Item x => Some x | ReadErr _ => None end.

Definition elem_decl (el : Element) : Decls :=
  match elem_offset el.(el_kind), elem_items el.(el_items) with
  | Ok off, Ok idxs => mkDecls [] [] [] [(off, idxs)] 0 0
  | _, _ => no_decl
  end.

Definition payload_decls (p : Payload) : Decls :=
  match p with
  | TypeSection r => decls (decls (decl_types ∘ entry_types)) (items r)
  | FunctionSection r => decls (fun t => decl_typeidx [t]) (items r)
  | ImportSection r => decls (decl_typeidx ∘ import_types) (items r)
  | DataSection r => decls (fun d => mkDecls [] [] [d.(d_data)] [] 0 0) (items r)
  | ElementSection r => decls elem_decl (items r)
  | TableSection r => decls (fun t => mkDecls [] [] [] [] (Z.max 0 t.(tt_initial)) 0) (items r)
  | MemorySection r => decls (fun m => mkDecls [] [] [] [] 0 (Z.of_N m.(mt_initial) * WASM_PAGE)) (items r)
  | _ => no_decl
  end.

Definition decls_of (ps : list (item Payload)) : Decls := decls payload_decls (items ps).

(** ** Bodies as trees *)

(** The instructions up to the [end] or [else] that closes them, and what follows it. *)
Fixpoint parse_seq (fuel : nat) (ops : list Operator) : option (list instr * Operator * list Operator) :=
  match fuel, ops with
  | S fuel, o :: ops =>
      let next i ops := '(l, t, r) ← parse_seq fuel ops; Some (i :: l, t, r) in
      match o with
      | End | Else => Some ([], o, ops)
      | Block ty =>
          match parse_seq fuel ops with Some (b, End, r) => next (IBlock ty b) r | _ => None end
      | Loop ty =>
          match parse_seq fuel ops with Some (b, End, r) => next (ILoop ty b) r | _ => None end
      | If ty =>
          match parse_seq fuel ops with
          | Some (b, End, r) => next (IIf ty b None) r
          | Some (b, Else, r) =>
              match parse_seq fuel r with Some (e, End, r') => next (IIf ty b (Some e)) r' | _ => None end
          | _ => None
          end
      | o => next (Basic o) ops
      end
  | _, _ => None
  end.

Definition parse_body (ops : list Operator) : option (list instr) :=
  match parse_seq (S (length ops)) ops with Some (b, End, []) => Some b | _ => None end.

Lemma parse_seq_flatten fuel ops l t r : parse_seq fuel ops = Some (l, t, r) → ops = flatten l ++ t :: r.
Proof.
  revert ops l t r. induction fuel as [|fuel IH]; intros [|o ops] l t r; [done..|].
  assert (∀ i ops', (('(l, t, r) ← parse_seq fuel ops'; Some (i :: l, t, r)) = Some (l, t, r)) →
    ∃ l', l = i :: l' ∧ ops' = flatten l' ++ t :: r) as Hnext.
  { intros i ops' H. destruct (parse_seq fuel ops') as [[[l1 t1] r1]|] eqn:E; [|done].
    injection H as <- <- <-. exists l1. split; [done|]. by apply IH. }
  destruct o; cbn [parse_seq]; cbv zeta;
    try (intros H; apply Hnext in H as (l' & -> & ->); done);
    try (by intros [= <- <- <-]).
  - destruct (parse_seq fuel ops) as [[[b []] r1]|] eqn:E; try done. apply IH in E as ->. intros H.
    apply Hnext in H as (l' & -> & ->). simpl. by rewrite <-!app_assoc.
  - destruct (parse_seq fuel ops) as [[[b []] r1]|] eqn:E; try done. apply IH in E as ->. intros H.
    apply Hnext in H as (l' & -> & ->). simpl. by rewrite <-!app_assoc.
  - destruct (parse_seq fuel ops) as [[[b []] r1]|] eqn:E; try done; apply IH in E as ->.
    + destruct (parse_seq fuel r1) as [[[e []] r2]|] eqn:E; try done. apply IH in E as ->. intros H.
      apply Hnext in H as (l' & -> & ->). simpl. rewrite <-!app_assoc. simpl. by rewrite <-app_assoc.
    + intros H. apply Hnext in H as (l' & -> & ->). simpl. by rewrite <-!app_assoc.
Qed.

Lemma parse_body_flatten ops body : parse_body ops = Some body → ops = flatten body ++ [End].
Proof.
  unfold parse_body. destruct (parse_seq _ _) as [[[b []] []]|] eqn:E; try done. intros [= <-].
  by apply parse_seq_flatten in E.
Qed.

(** ** The program of a module *)

(** The number of locals a body declares, and its instructions as a tree. *)
Definition body_parts (b : FunctionBody) : option (Z * list Operator) :=
  lr ← item_of b.(fb_locals); nl ← ok_of (count_locals lr 0);
  r ← item_of b.(fb_operators); ops ← ok_of (read_ops r);
  Some (nl, ops).

Definition body_tree (ops : list Operator) : option (list instr) :=
  body ← parse_body ops; if forallb tree_ok body then Some body else None.

(** A function of type [ft] with body [b], as it is written. *)
Definition source_def (ft : FuncType) (b : FunctionBody) : option FuncDef :=
  '(nl, ops) ← body_parts b; body ← body_tree ops;
  Some (mkFuncDef (len ft.1) (len ft.2) nl body).

(** Does the lowering give the body up? *)
Definition gives_up (s : TState) (ft : FuncType) (nl : Z) (ops : list Operator) : bool :=
  let ids := s.(ts_imports).(host_fn_ids) in
  match (lower_operators ops (u16 (len ft.1)) (u16 (len ft.2)) (u16 nl) s.(ts_out).(co_code) s.(ts_out).(co_consts)
           s.(ts_func_types) s.(ts_func_typeidx) (u32 (len ids)) ids).1 with
  | Ok _ => false
  | _ => true
  end.

(** The next function, with body [b], as the engine has it: [unreachable] when the lowering
    gives the body up. *)
Definition body_def (s : TState) (b : FunctionBody) : option FuncDef :=
  t ← s.(ts_func_typeidx) !! length s.(ts_out).(co_funcs);
  ft ← s.(ts_func_types) !! Z.to_nat t;
  '(nl, ops) ← body_parts b;
  if gives_up s ft nl ops then Some (mkFuncDef (u16 (len ft.1)) (u16 (len ft.2)) 0 [Basic Unreachable])
  else
    body ← body_tree ops;
    Some (mkFuncDef (u16 (len ft.1)) (u16 (len ft.2)) (u16 nl) body).

(** An imported function: the number the environment description gives it. *)
Definition import_def (root : list EnvMod) (types : list FuncType) (imp : Import) : option Func :=
  match imp.(imp_ty) with
  | TrFunc t =>
      ft ← types !! Z.to_nat t; id ← ok_of (lookup_fn root imp.(imp_module) imp.(imp_name));
      Some (Host id (u16 (len ft.1)) (u16 (len ft.2)))
  | TrOther _ => None
  end.

(** The functions a section adds, in the order of the function index space. *)
Definition payload_funcs (root : list EnvMod) (types : list FuncType) (p : Payload) (s : TState) : option (list Func) :=
  match p with
  | ImportSection r => mapM (import_def root types) (items r)
  | CodeSectionEntry b => fd ← body_def s b; Some [Code fd]
  | _ => Some []
  end.

Fixpoint functions_from (root : list EnvMod) (types : list FuncType) (ps : list (item Payload)) (s : TState)
    : option (list Func) :=
  match ps with
  | [] => Some []
  | ReadErr _ :: _ => None
  | Item p :: ps' =>
      match payload_step root p s with
      | (Ok _, s') => fs ← payload_funcs root types p s; fs' ← functions_from root types ps' s'; Some (fs ++ fs')
      | _ => None
      end
  end.

(** A slot of the engine's table. *)
Definition slot (f : Z) : option Z := if f =? TABLE_NULL then None else Some f.

(** The table: in each slot the last element written there. *)
Definition table_of (d : Decls) : list (option Z) :=
  (fun j => slot (table_image d.(de_elems) TABLE_NULL j)) <$> seq 0 (Z.to_nat d.(de_table)).

(** *** As it is written *)

(** The functions a section adds, the first of them with index [k]. *)
Definition source_funcs (root : list EnvMod) (d : Decls) (p : Payload) (k : nat) : option (list Func) :=
  match p with
  | ImportSection r => mapM (import_def root d.(de_types)) (items r)
  | CodeSectionEntry b =>
      t ← d.(de_typeidx) !! k; ft ← d.(de_types) !! Z.to_nat t; fd ← source_def ft b; Some [Code fd]
  | _ => Some []
  end.

Fixpoint source_from (root : list EnvMod) (d : Decls) (ps : list (item Payload)) (k : nat) : option (list Func) :=
  match ps with
  | [] => Some []
  | ReadErr _ :: _ => None
  | Item p :: ps' =>
      fs ← source_funcs root d p k; fs' ← source_from root d ps' (k + length fs)%nat; Some (fs ++ fs')
  end.

(** The program the sections describe: nothing here depends on the lowering. *)
Definition wasm_program (root : list EnvMod) (ps : list (item Payload)) : option Prog :=
  let d := decls_of ps in
  fs ← source_from root d ps 0;
  Some (mkProg fs d.(de_types) d.(de_typeidx) (table_of d) d.(de_datas) d.(de_memory)).

(** Function [f] of the engine's program stands for [g] of the source: it is [g], or traps
    because the lowering has given the body of [g] up. *)
Definition stands_for (g f : Func) : Prop :=
  f = g ∨ ∃ fd, g = Code fd ∧ f = Code (mkFuncDef fd.(fd_params) fd.(fd_results) 0 [Basic Unreachable]).

(** *** As the engine has it *)

(** The program of the sections with [unreachable] for each body the lowering gives up:
    function by function it stands for [wasm_program] ([LowerProgram.program_of_source]). *)
Definition program_of (root : list EnvMod) (ps : list (item Payload)) : option Prog :=
  let d := decls_of ps in
  fs ← functions_from root d.(de_types) ps init_state;
  Some (mkProg fs d.(de_types) d.(de_typeidx) (table_of d) d.(de_datas) d.(de_memory)).
