(* ===== verification/StackTyping.v ===== *)
(** * Stack typing of structured bodies

    The part of WebAssembly validation that concerns the operand stack's height: what
    every operator pops and pushes, that a block is left with the results it promises,
    that a block does not look below its own operands, and that code behind a branch is
    not constrained.  Value types play no role: a slot holds 64 bits whatever its type. *)

From S2P Require Import Prelude Cuop Wasm Engine Structured.
From stdpp Require Import base list strings.

Local Open Scope Z_scope.

Section typing.
Context (P : Prog).

Definition signature (f : Z) : option (Z * Z) :=
  match index P.(p_funcs) f with
  | Some (Host _ np nr) => Some (np, nr)
  | Some (Code fd) => Some (fd.(fd_params), fd.(fd_results))
  | None => None
  end.

(** In a function with [nl] locals, parameters included, and [nr] results, whose operand
    stack may hold [room] values. *)
Context (nl nr room : Z).

Definition local_ok (i : Z) : bool := (0 <=? i) && (i <? nl).

(** What an operator without control pops and pushes. *)
Definition stack_effect (o : Operator) : option (Z * Z) :=
  match wasm_const o, wasm_un o, wasm_bin o, wasm_load o, wasm_store o with
  | Some _, _, _, _, _ => Some (0, 1)
  | _, Some _, _, _, _ => Some (1, 1)
  | _, _, Some _, _, _ => Some (2, 1)
  | _, _, _, Some _, _ => Some (1, 1)
  | _, _, _, _, Some _ => Some (2, 0)
  | _, _, _, _, _ =>
      match o with
      | Nop | DataDrop _ => Some (0, 0)
      | Drop | GlobalSet _ => Some (1, 0)
      | Select | TypedSelect => Some (3, 1)
      | LocalGet i => if local_ok i then Some (0, 1) else None
      | LocalSet i => if local_ok i then Some (1, 0) else None
      | LocalTee i => if local_ok i then Some (1, 1) else None
      | GlobalGet _ | MemorySize 0 => Some (0, 1)
      | MemoryGrow 0 => Some (1, 1)
      | I64MulWideU | I64MulWideS => Some (2, 2)
      | I64Add128 | I64Sub128 => Some (4, 2)
      | MemoryCopy 0 0 | MemoryFill 0 | MemoryInit _ 0 => Some (3, 0)
      | Call f => signature f
      | CallIndirect ty 0 => (fun ft => (1 + len ft.1, len ft.2)) <$> index P.(p_types) ty
      | _ => None
      end
  end.

(** The height after an operator, [Some None] when control does not go past it, for the
    arities [labs] of the labels in scope, a block whose operands start at height [b], and
    the height [h]. *)
Definition op_type (labs : list Z) (b h : Z) (o : Operator) : option (option Z) :=
  match o with
  | Unreachable => Some None
  | Br d => n ← labs !! Z.to_nat d; if b + n <=? h then Some None else None
  | BrIf d => n ← labs !! Z.to_nat d; if b + 1 + n <=? h then Some (Some (h - 1)) else None
  | BrTable dflt ts =>
      n ← labs !! Z.to_nat dflt;
      let same d := match d with Item d => bool_decide (labs !! Z.to_nat d = Some n) | ReadErr _ => false end in
      if forallb same ts && (b + 1 + n <=? h) then Some None else None
  | Return => if b + nr <=? h then Some None else None
  | ReturnCall f =>
      s ← signature f; if (s.2 =? nr) && (b + s.1 <=? h) then Some None else None
  | _ =>
      s ← stack_effect o;
      if (b + s.1 <=? h) && (h - s.1 + s.2 <=? room) then Some (Some (h - s.1 + s.2)) else None
  end.

(** *** Bodies *)

Definition seq_with (one : Z → instr → option (option Z)) : Z → list instr → option (option Z) :=
  fix go h body :=
    match body with
    | [] => Some (Some h)
    | i :: rest => match one h i with Some (Some h1) => go h1 rest | r => r end
    end.

(** A block ends with its results on the stack, if control gets to its end. *)
Definition block_end (h : Z) (r : option (option Z)) : option (option Z) :=
  match r with
  | Some (Some h1) => if h1 =? h then Some (Some h) else None
  | Some None => Some (Some h)
  | None => None
  end.

Fixpoint instr_type (labs : list Z) (b h : Z) (i : instr) : option (option Z) :=
  match i with
  | Basic o => op_type labs b h o
  | IBlock ty body =>
      '(np, nr) ← arity P.(p_types) ty;
      let b' := h - Z.of_nat np in
      let h' := b' + Z.of_nat nr in
      if (b <=? b') && (h' <=? room)
      then block_end h' (seq_with (instr_type (Z.of_nat nr :: labs) b') h body) else None
  | ILoop ty body =>
      '(np, nr) ← arity P.(p_types) ty;
      let b' := h - Z.of_nat np in
      let h' := b' + Z.of_nat nr in
      if (b <=? b') && (h' <=? room)
      then block_end h' (seq_with (instr_type (Z.of_nat np :: labs) b') h body) else None
  | IIf ty thn els =>
      '(np, nr) ← arity P.(p_types) ty;
      let b' := h - 1 - Z.of_nat np in
      let h' := b' + Z.of_nat nr in
      let arm := seq_with (instr_type (Z.of_nat nr :: labs) b') (h - 1) in
      if (b <=? b') && (h' <=? room) then
        match els with
        | Some els => _ ← block_end h' (arm els); block_end h' (arm thn)
        | None => if (np =? nr)%nat then block_end h' (arm thn) else None
        end
      else None
  end.

Definition seq_type (labs : list Z) (b : Z) : Z → list instr → option (option Z) :=
  seq_with (instr_type labs b).
End typing.

(** Slots the engine has for the operands of a function: [max_stack] is a [uint16_t] that
    counts the locals too, and the lowering may use a local and a slot of its own. *)
Definition stack_room (fd : FuncDef) : Z := 2 ^ 16 - 1 - fd.(fd_params) - fd.(fd_locals) - 2.

Definition func_typed (P : Prog) (fd : FuncDef) : bool :=
  let nr := fd.(fd_results) in
  (nr <=? stack_room fd) &&
  bool_decide (is_Some (block_end nr
    (seq_type P (fd.(fd_params) + fd.(fd_locals)) nr (stack_room fd) [nr] 0 0 fd.(fd_body)))).

Definition program_typed (P : Prog) : bool :=
  forallb (fun f => match f with Code fd => func_typed P fd | Host _ _ _ => true end) P.(p_funcs).
