(* ===== verification/Backpatch.v ===== *)
(** * Backpatching

    The pass does not know the address of a forward label when it emits a branch to it:
    it records the place and patches it at the [end].  [resolves C labs X s] says that
    the finished code [C] is what the pass's code in state [s] becomes once its pending
    placeholders are filled with the labels' addresses.  The lemmas run backwards: what
    resolves the state after an effect of the pass also resolves the state before it,
    and has the op that was emitted, patched, in its place. *)

From S2P Require Import Prelude Cuop Wasm Lower LowerInv.
From stdpp Require Import base list strings.

Local Open Scope Z_scope.

(** ** Labels and placeholders *)

(** The label of a control entry: where a branch to it goes, the height and the number
    of values it unwinds to, and where the failing test of an [if] goes. *)
Record Lab := mkLab { l_target : Z; l_base : Z; l_arity : Z; l_else : Z }.

(** A placeholder and what it is to be filled with. *)
Abbreviation fill := (Z * Z)%type.

Definition fill_of (l : Lab) (c : Ctrl) : list fill :=
  ((fun p => (p, l.(l_target))) <$> c.(patches)) ++
  ((fun p => (p, if c.(has_else) then l.(l_target) else l.(l_else))) <$> test_hole c).

Lemma fill_of_pend l c : (fill_of l c).*1 = pend c.
Proof.
  unfold fill_of, pend. rewrite fmap_app, <-!list_fmap_compose. f_equal; by apply list_fmap_id.
Qed.

Section code.
(** The finished code. *)
Context (C : list CuOpC).

(** Placeholder [x.1] is an op of [s] that has become a branch to [x.2]. *)
Definition filled (s : LState) (x : fill) : Prop :=
  ∃ op, s.(st_code) !! Z.to_nat x.1 = Some op ∧ C !! Z.to_nat x.1 = Some (with_b x.2 op).

Record lab_of (l : Lab) (c : Ctrl) : Prop := {
  lo_loop : c.(kind) = KLoop → l.(l_target) = c.(start);
  lo_base : l.(l_base) = c.(base);
  lo_arity : l.(l_arity) = label_arity c }.

(** The fills of the control stack. *)
Definition fills (labs : list Lab) (k : list Ctrl) : list fill := concat (zip_with fill_of labs k).

Record resolves (labs : list Lab) (X : list fill) (s : LState) : Prop := {
  rs_labs : Forall2 lab_of labs s.(st_ctrl);
  rs_fill : Forall (filled s) (X ++ fills labs s.(st_ctrl));
  rs_code : ∀ (i : nat) op, s.(st_code) !! i = Some op →
    Z.of_nat i ∉ X.*1 ++ pends s.(st_ctrl) → C !! i = Some op }.

(** The placeholders are places of the code, each of one branch. *)
Record places (X : list fill) (s : LState) : Prop := {
  pl_nodup : NoDup (X.*1 ++ pends s.(st_ctrl));
  pl_range : Forall (fun p => 0 ≤ p < len s.(st_code)) (X.*1 ++ pends s.(st_ctrl)) }.

Lemma fills_pends labs k : length labs = length k → (fills labs k).*1 = pends k.
Proof.
  revert labs. induction k as [|c k IH]; intros [|l labs]; try done. intros [=Hl].
  unfold fills, pends in *. simpl. rewrite fmap_app, fill_of_pend, IH; done.
Qed.

(** Only the code and the control stack matter. *)
Lemma resolves_ext labs X s s' :
  s'.(st_code) = s.(st_code) → s'.(st_ctrl) = s.(st_ctrl) → resolves labs X s' → resolves labs X s.
Proof.
  intros Hc Hk [H1 H2 H3]. rewrite Hk in *. split; [done| |by rewrite Hc in H3].
  eapply Forall_impl; [exact H2|]. intros x (op & ? & ?). exists op. by rewrite <-Hc.
Qed.

Lemma places_ext X s s' :
  s'.(st_code) = s.(st_code) → s'.(st_ctrl) = s.(st_ctrl) → places X s → places X s'.
Proof. intros Hc Hk [H1 H2]. split; by rewrite ?Hc, Hk. Qed.

(** *** Appending an op *)

Lemma places_fresh X s : places X s → len s.(st_code) ∉ X.*1 ++ pends s.(st_ctrl).
Proof. intros [_ Hr] Hin. rewrite Forall_forall in Hr. specialize (Hr _ Hin). lia. Qed.

Lemma places_snoc X s op : places X s → places X (snoc_code op s).
Proof.
  intros [H1 H2]. split; [done|]. simpl. rewrite len_app. change (len [op]) with 1.
  eapply Forall_impl; [exact H2|]. simpl. lia.
Qed.

(** A placed op is where it was. *)
Lemma snoc_lookup s op p :
  0 ≤ p < len s.(st_code) → (snoc_code op s).(st_code) !! Z.to_nat p = s.(st_code) !! Z.to_nat p.
Proof. intros Hp. simpl. apply lookup_app_l. unfold len in Hp. lia. Qed.

Lemma filled_snoc s op Y :
  Forall (fun x : fill => 0 ≤ x.1 < len s.(st_code)) Y →
  Forall (filled (snoc_code op s)) Y → Forall (filled s) Y.
Proof.
  rewrite !Forall_forall. intros Hr Hf x Hx. destruct (Hf x Hx) as (o & Ho & HC).
  exists o. split; [|done]. by rewrite snoc_lookup in Ho by by apply Hr.
Qed.

Lemma places_fills labs X s :
  places X s → length labs = length s.(st_ctrl) →
  Forall (fun x : fill => 0 ≤ x.1 < len s.(st_code)) (X ++ fills labs s.(st_ctrl)).
Proof.
  intros [_ Hr] Hl. rewrite <-(fills_pends labs) in Hr by done. rewrite <-fmap_app, Forall_fmap in Hr.
  exact Hr.
Qed.

Lemma resolves_snoc labs X s op :
  places X s → resolves labs X (snoc_code op s) →
  resolves labs X s ∧ C !! length s.(st_code) = Some op.
Proof.
  intros HP [H1 H2 H3]. pose proof (places_fresh X s HP) as Hf.
  pose proof (Forall2_length _ _ _ H1) as Hl. split.
  - split; [done| |].
    + eapply filled_snoc; [by apply places_fills|done].
    + intros i o Hi Hn. apply H3; [by apply lookup_app_l_Some|done].
  - apply H3; [by apply list_lookup_middle|done].
Qed.

(** An op with a placeholder. *)
Lemma places_hole X s op t : places X s → places ((len s.(st_code), t) :: X) (snoc_code op s).
Proof.
  intros HP. pose proof (places_fresh X s HP) as Hf. destruct (places_snoc X s op HP) as [H1 H2].
  split; simpl.
  - by constructor.
  - constructor; [|done]. rewrite len_app. change (len [op]) with 1. pose proof (len_nonneg s.(st_code)). lia.
Qed.

Lemma resolves_hole labs X s op t :
  places X s → resolves labs ((len s.(st_code), t) :: X) (snoc_code op s) →
  resolves labs X s ∧ C !! length s.(st_code) = Some (with_b t op).
Proof.
  intros HP [H1 H2 H3]. pose proof (places_fresh X s HP) as Hf.
  pose proof (Forall2_length _ _ _ H1) as Hl. apply Forall_cons in H2 as [(o & Ho & HC) H2].
  simpl in *. unfold len in Ho, HC. rewrite Nat2Z.id in Ho, HC. split.
  - split; [done| |].
    + eapply filled_snoc; [by apply places_fills|done].
    + intros i o' Hi Hn. apply H3; [by apply lookup_app_l_Some|].
      rewrite not_elem_of_cons. split; [|done]. apply lookup_lt_Some in Hi. unfold len. lia.
  - rewrite list_lookup_middle in Ho by done. by injection Ho as ->.
Qed.

(** *** Patching *)

Lemma places_patched X s p t u : places ((p, u) :: X) s → places X (patched p t s).
Proof.
  intros [H1 H2]. simpl in *. apply NoDup_cons in H1 as [_ H1]. apply Forall_cons in H2 as [_ H2].
  split; [done|]. simpl. unfold len in *. by rewrite length_alter.
Qed.

Lemma resolves_patched labs X s p t u :
  places ((p, u) :: X) s → resolves labs X (patched p t s) → resolves labs ((p, t) :: X) s.
Proof.
  intros HP [H1 H2 H3]. pose proof HP as [Hn Hr]. simpl in *.
  apply NoDup_cons in Hn as [Hp _]. apply Forall_cons in Hr as [Hpr Hr].
  pose proof (Forall2_length _ _ _ H1) as Hl.
  destruct (lookup_lt_is_Some_2 s.(st_code) (Z.to_nat p)) as [op Hop]; [unfold len in Hpr; lia|].
  split; [done| |].
  - simpl. constructor.
    + exists op. split; [done|]. simpl. apply H3; [by rewrite list_lookup_alter_eq, Hop|].
      by rewrite Z2Nat.id by lia.
    + rewrite <-(fills_pends labs) in Hp by done. rewrite <-fmap_app in Hp.
      eapply Forall_impl; [apply Forall_and; split; [exact H2|]|].
      { apply Forall_forall. intros x Hx. exact (list_elem_of_fmap_2 fst _ _ Hx). }
      intros x [(o & Ho & HC) Hx]. simpl in Hx. rewrite fmap_app, fills_pends in Hx by done.
      rewrite fmap_app, fills_pends in Hp by done. rewrite Forall_forall in Hr.
      specialize (Hr _ Hx). exists o. split; [|done].
      rewrite <-Ho. symmetry. apply list_lookup_alter_ne. intros Heq. apply Hp.
      by replace p with x.1 by lia.
  - intros i o Hi Hni. apply not_elem_of_cons in Hni as [Hne Hni]. simpl in Hne.
    apply H3; [|done].
    rewrite list_lookup_alter_ne by (intros ?; lia). done.
Qed.

(** *** The control stack *)

Lemma pends_alter_patch p idx k :
  (idx < length k)%nat → pends (alter (add_patch p) idx k) ≡ₚ p :: pends k.
Proof.
  revert idx. induction k as [|c k IH]; intros [|idx] Hl; simpl in Hl; try lia.
  - simpl. rewrite !pends_cons. unfold pend at 1, add_patch, test_hole. simpl.
    unfold pend, test_hole. rewrite <-!app_assoc. simpl. by rewrite <-Permutation_middle.
  - change (alter (add_patch p) (S idx) (c :: k)) with (c :: alter (add_patch p) idx k).
    rewrite !pends_cons, IH by lia. by rewrite <-Permutation_middle.
Qed.

Lemma fills_alter_patch p idx labs k l :
  labs !! idx = Some l → length labs = length k →
  fills labs (alter (add_patch p) idx k) ≡ₚ (p, l.(l_target)) :: fills labs k.
Proof.
  revert idx labs. induction k as [|c k IH]; intros [|idx] [|l0 labs] Hl Hlen; try done.
  - injection Hl as ->. unfold fills. simpl. unfold fill_of at 1, test_hole. simpl.
    unfold fill_of, test_hole. rewrite fmap_app, <-!app_assoc. simpl. by rewrite <-Permutation_middle.
  - change (alter (add_patch p) (S idx) (c :: k)) with (c :: alter (add_patch p) idx k).
    unfold fills in *. simpl. rewrite (IH idx labs) by (done || by injection Hlen).
    by rewrite <-Permutation_middle.
Qed.

(** A placeholder handed to an enclosing label. *)
Lemma places_add_patch X s p t idx :
  (idx < length s.(st_ctrl))%nat → places ((p, t) :: X) s →
  places X (set_ctrl (alter (add_patch p) idx s.(st_ctrl)) s).
Proof.
  intros Hl [H1 H2]. split; simpl in *; rewrite pends_alter_patch, <-Permutation_middle by done; done.
Qed.

Lemma lab_of_alter f idx labs k :
  (∀ l c, lab_of l (f c) → lab_of l c) → Forall2 lab_of labs (alter f idx k) → Forall2 lab_of labs k.
Proof.
  intros Hf. revert idx labs. induction k as [|c k IH]; intros [|idx] labs; simpl; try done.
  - intros H. inversion H; subst. constructor; auto.
  - change (alter f (S idx) (c :: k)) with (c :: alter f idx k).
    intros H. inversion H; subst. constructor; eauto.
Qed.

Lemma resolves_add_patch labs X s p idx l :
  labs !! idx = Some l → resolves labs X (set_ctrl (alter (add_patch p) idx s.(st_ctrl)) s) →
  resolves labs ((p, l.(l_target)) :: X) s.
Proof.
  intros Hl [H1 H2 H3]. simpl in *.
  assert (Forall2 lab_of labs s.(st_ctrl)) as H1'.
  { eapply lab_of_alter; [|exact H1]. intros l0 c [A1 A2 A3]. by split. }
  pose proof (Forall2_length _ _ _ H1') as Hlen.
  assert (idx < length s.(st_ctrl))%nat by (rewrite <-Hlen; by eapply lookup_lt_Some).
  rewrite (fills_alter_patch p idx labs _ l), <-Permutation_middle in H2 by done. split; [done| |].
  - exact H2.
  - intros i op Hi Hn. apply H3; [done|]. intros Hin. apply Hn.
    rewrite pends_alter_patch, <-Permutation_middle in Hin by done. exact Hin.
Qed.

(** A new entry has no placeholder. *)
Lemma places_push X s c : pend c = [] → places X s → places X (set_ctrl (c :: s.(st_ctrl)) s).
Proof. intros Hc [H1 H2]. split; simpl; by rewrite pends_cons, Hc. Qed.

Lemma resolves_push l labs X s c :
  pend c = [] → resolves (l :: labs) X (set_ctrl (c :: s.(st_ctrl)) s) →
  resolves labs X s ∧ lab_of l c.
Proof.
  intros Hc [H1 H2 H3]. simpl in *. inversion H1; subst. split; [|done]. split; [done| |].
  - assert (fill_of l c = []) as E by (apply (fmap_nil_inv fst); by rewrite fill_of_pend).
    unfold fills in *. simpl in H2. by rewrite E in H2.
  - intros i op Hi Hn. apply H3; [done|]. by rewrite pends_cons, Hc.
Qed.

(** The top entry taken off: its placeholders are held instead. *)
Lemma places_pop X s c k l :
  s.(st_ctrl) = c :: k → places X s → places (fill_of l c ++ X) (set_ctrl k s).
Proof.
  intros Hk [H1 H2]. rewrite Hk, pends_cons in *. rewrite app_assoc, (Permutation_app_comm X.*1) in H1, H2.
  split; simpl; rewrite fmap_app, fill_of_pend; done.
Qed.

Lemma resolves_pop l labs X s c k :
  s.(st_ctrl) = c :: k → lab_of l c → resolves labs (fill_of l c ++ X) (set_ctrl k s) →
  resolves (l :: labs) X s.
Proof.
  intros Hk Hlc [H1 H2 H3]. simpl in *. split; rewrite ?Hk.
  - by constructor.
  - unfold fills in *. simpl. rewrite !Forall_app in *. tauto.
  - intros i op Hi Hn. apply H3; [done|]. rewrite pends_cons in Hn. rewrite fmap_app, fill_of_pend.
    rewrite !elem_of_app in *. tauto.
Qed.

(** The top entry changed, with a placeholder moved between it and what is held. *)
Lemma resolves_top l labs X Y Y' s c c' k :
  s.(st_ctrl) = c :: k → (lab_of l c' → lab_of l c) →
  Y' ++ fill_of l c' ≡ₚ Y ++ fill_of l c →
  resolves (l :: labs) (Y' ++ X) (set_ctrl (c' :: k) s) → resolves (l :: labs) (Y ++ X) s.
Proof.
  intros Hk Hlab HY [H1 H2 H3]. simpl in *. inversion H1; subst.
  assert (∀ R, Y' ++ X ++ fill_of l c' ++ R ≡ₚ Y ++ X ++ fill_of l c ++ R) as Hp.
  { intros R. rewrite (Permutation_app_comm X), (Permutation_app_comm X), !app_assoc, HY. done. }
  split; rewrite ?Hk.
  - constructor; auto.
  - unfold fills in *. simpl in *. rewrite <-app_assoc in *. by rewrite <-Hp.
  - intros i op Hi Hn. apply H3; [done|]. intros Hin. apply Hn. rewrite pends_cons in *.
    rewrite <-!(fill_of_pend l) in *. rewrite !fmap_app, !elem_of_app in *.
    assert (Z.of_nat i ∈ (Y' ++ fill_of l c').*1 ↔ Z.of_nat i ∈ (Y ++ fill_of l c).*1) as He
      by by rewrite HY.
    rewrite !fmap_app, !elem_of_app in He. tauto.
Qed.

Lemma places_top l X Y Y' s c c' k :
  s.(st_ctrl) = c :: k → Y' ++ fill_of l c' ≡ₚ Y ++ fill_of l c →
  places (Y ++ X) s → places (Y' ++ X) (set_ctrl (c' :: k) s).
Proof.
  intros Hk HY [H1 H2]. rewrite Hk, pends_cons, <-(fill_of_pend l) in *.
  assert ((Y' ++ X).*1 ++ (fill_of l c').*1 ++ pends k ≡ₚ
          (Y ++ X).*1 ++ (fill_of l c).*1 ++ pends k) as Hp.
  { rewrite !app_assoc, <-!fmap_app, <-!app_assoc, (Permutation_app_comm X), (Permutation_app_comm X).
    rewrite !app_assoc, HY. done. }
  split; simpl; rewrite pends_cons, <-(fill_of_pend l), Hp; done.
Qed.
End code.
