(* ===== verification/LowerTree.v ===== *)
(** * The code of a structured body

    [code_for] says what code a structured body has in the finished program: where each
    op is, with every branch at the address of its label.  A successful run of the pass
    over the operators of a body leaves that code. *)

From S2P Require Import Prelude Cuop Wasm Lower LowerInv Backpatch Engine Structured.
From stdpp Require Import base list strings.

Local Open Scope Z_scope.

Section tree.
(** The function's environment, the finished code and the finished pool. *)
Context (E : FnEnv) (C : list CuOpC) (K : list Z).

(** ** The code of an operator *)

Definition ops_at (pc : Z) (ops : list CuOpC) : Prop :=
  ∀ (i : nat) op, ops !! i = Some op → C !! (Z.to_nat pc + i)%nat = Some op.

(** A branch from operand height [h]. *)
Definition unwind_ops (h : Z) (l : Lab) : list CuOpC :=
  let dest := i32 (l.(l_base) + l.(l_arity)) in
  if dest <? h
  then [mkCuOp OP_UNWIND (u16 l.(l_arity)) (u32 (E.(e_n_params) + E.(e_n_locals) + u32 dest))] else [].

Definition jump_ops (h : Z) (l : Lab) : list CuOpC :=
  unwind_ops h l ++ [mkCuOp OP_BR 0 l.(l_target)].

(** A branch taken when the top of the stack is not zero. *)
Definition skip_ops (pc h : Z) (l : Lab) : list CuOpC :=
  mkCuOp OP_BR_IF_NOT 0 (pc + 1 + len (jump_ops h l)) :: jump_ops h l.

(** The label is in reach of a stack of height [h]. *)
Definition label_ok (labs : list Lab) (h d : Z) (l : Lab) : Prop :=
  labs !! Z.to_nat d = Some l ∧ i32 (l.(l_base) + l.(l_arity)) ≤ h.

(** The tests of a [br_table], from number [i] on. *)
Inductive table_code (labs : list Lab) (h sc : Z) : Z → list Z → Z → Z → Prop :=
  | tc_nil i pc : table_code labs h sc i [] pc pc
  | tc_cons i d ds pc pc' l idx :
      label_ok labs h d l → 0 ≤ idx → K !! Z.to_nat idx = Some (u64 (u32 i)) →
      ops_at pc ([mkCuOp OP_LOCAL_GET sc 0; mkCuOp OP_I64_CONST 0 idx; mkCuOp OP_I32_EQ 0 0] ++
                 skip_ops (pc + 3) h l) →
      table_code labs h sc (i + 1) ds (pc + 4 + len (jump_ops h l)) pc' →
      table_code labs h sc i (d :: ds) pc pc'.

(** Operators that emit ops and pop and push; [None]: the height is not touched. *)
Inductive emits : Operator → list CuOpC → option (Z * Z) → Prop :=
  | em_plain o opc pops pushes :
      plain_op o = Some (opc, pops, pushes) → emits o [mkCuOp opc 0 0] (Some (pops, pushes))
  | em_const o v idx :
      const_op o = Some v → 0 ≤ idx → K !! Z.to_nat idx = Some v →
      emits o [mkCuOp OP_I64_CONST 0 idx] (Some (0, 1))
  | em_load o nb sg i64dest m off :
      load_op o = Some (nb, sg, i64dest, m) → check_memarg m = Ok off →
      emits o [mkCuOp OP_LOAD (load_flags nb sg i64dest) off] (Some (1, 1))
  | em_store o nb m off :
      store_op o = Some (nb, m) → check_memarg m = Ok off →
      emits o [mkCuOp OP_STORE nb off] (Some (2, 0))
  | em_global_get i : emits (GlobalGet i) [mkCuOp OP_GLOBAL_GET 0 i] (Some (0, 1))
  | em_global_set i : emits (GlobalSet i) [mkCuOp OP_GLOBAL_SET 0 i] (Some (1, 0))
  | em_local_get i : emits (LocalGet i) [mkCuOp OP_LOCAL_GET (u16 i) 0] (Some (0, 1))
  | em_local_set i : emits (LocalSet i) [mkCuOp OP_LOCAL_SET (u16 i) 0] (Some (1, 0))
  | em_local_tee i :
      emits (LocalTee i) [mkCuOp OP_LOCAL_SET (u16 i) 0; mkCuOp OP_LOCAL_GET (u16 i) 0] None
  | em_memory_size : emits (MemorySize 0) [mkCuOp OP_MEMORY_SIZE 0 0] (Some (0, 1))
  | em_memory_grow : emits (MemoryGrow 0) [mkCuOp OP_MEMORY_GROW 0 0] (Some (1, 1))
  | em_clz32 : emits I32Clz [mkCuOp OP_CLZ 32 0] (Some (1, 1))
  | em_clz64 : emits I64Clz [mkCuOp OP_CLZ 64 0] (Some (1, 1))
  | em_reinterpret o : reinterpret_arm o = Some (consume 1 1) → emits o [] (Some (1, 1))
  | em_nop : emits Nop [] None
  | em_memory_copy : emits (MemoryCopy 0 0) [mkCuOp OP_MEMORY_COPY 0 0] (Some (3, 0))
  | em_memory_fill : emits (MemoryFill 0) [mkCuOp OP_MEMORY_FILL 0 0] (Some (3, 0))
  | em_memory_init i : emits (MemoryInit i 0) [mkCuOp OP_MEMORY_INIT (u16 i) 0] (Some (3, 0))
  | em_data_drop i : emits (DataDrop i) [mkCuOp OP_DATA_DROP (u16 i) 0] None
  | em_call f np nr :
      func_arity f E.(e_func_types) E.(e_func_typeidx) = Ok (np, nr) → E.(e_n_imports) ≤ f →
      emits (Call f) [mkCuOp OP_CALL 0 f] (Some (np, nr))
  | em_call_host f np nr id :
      func_arity f E.(e_func_types) E.(e_func_typeidx) = Ok (np, nr) → f < E.(e_n_imports) →
      E.(e_host_fn_ids) !! Z.to_nat f = Some id →
      emits (Call f) [mkCuOp OP_CALL_HOST (Z.lor np (u16 (Z.shiftl nr 8))) id] (Some (np, nr))
  | em_call_indirect ty ft :
      E.(e_func_types) !! Z.to_nat ty = Some ft →
      emits (CallIndirect ty 0) [mkCuOp OP_CALL_INDIRECT 0 ty] (Some (1 + i32 (len ft.1), i32 (len ft.2))).

Definition height_after (h : Z) (eff : option (Z * Z)) : Z :=
  match eff with Some (pops, pushes) => i32 (h - pops + pushes) | None => h end.

(** An operator at height [h] from [pc] to [pc']; the height after it, [None] when
    control does not go past it. *)
Inductive op_code (labs : list Lab) (h : Z) : Operator → Z → Z → option Z → Prop :=
  | oc_emit o ops eff pc pc' h' :
      emits o ops eff → (∀ pops pushes, eff = Some (pops, pushes) → pops ≤ h) →
      ops_at pc ops → pc' = pc + len ops → h' = height_after h eff → op_code labs h o pc pc' (Some h')
  | oc_br d l pc pc' :
      label_ok labs h d l → ops_at pc (jump_ops h l) → pc' = pc + len (jump_ops h l) →
      op_code labs h (Br d) pc pc' None
  | oc_br_if d l pc pc' h' :
      1 ≤ h → h' = i32 (h - 1 + 0) → label_ok labs h' d l → ops_at pc (skip_ops pc h' l) →
      pc' = pc + 1 + len (jump_ops h' l) → op_code labs h (BrIf d) pc pc' (Some h')
  | oc_br_table dflt ts ds sc l pc p1 pc' h' :
      E.(e_scratch) = Some sc → read_depths ts = Ok ds → 1 ≤ h → h' = i32 (h - 1 + 0) →
      ops_at pc [mkCuOp OP_LOCAL_SET sc 0] → table_code labs h' sc 0 ds (pc + 1) p1 →
      label_ok labs h' dflt l → ops_at p1 (jump_ops h' l) → pc' = p1 + len (jump_ops h' l) →
      op_code labs h (BrTable dflt ts) pc pc' None
  | oc_return pc pc' :
      ops_at pc [mkCuOp OP_RETURN E.(e_n_results) 0] → pc' = pc + 1 → op_code labs h Return pc pc' None
  | oc_unreachable pc pc' :
      ops_at pc [mkCuOp OP_UNREACHABLE 0 0] → pc' = pc + 1 → op_code labs h Unreachable pc pc' None
  | oc_return_call f pc pc' :
      E.(e_n_imports) ≤ f → ops_at pc [mkCuOp OP_RETURN_CALL 0 f] → pc' = pc + 1 →
      op_code labs h (ReturnCall f) pc pc' None.

(** ** The code of a body *)

Inductive code_for : list Lab → Z → list instr → Z → Z → Prop :=
  | cf_nil labs h pc : code_for labs h [] pc pc
  | cf_stop labs h o rest pc p1 pc' :
      op_code labs h o pc p1 None → p1 ≤ pc' → code_for labs h (Basic o :: rest) pc pc'
  | cf_op labs h o h1 rest pc p1 pc' :
      op_code labs h o pc p1 (Some h1) → code_for labs h1 rest p1 pc' →
      code_for labs h (Basic o :: rest) pc pc'
  | cf_block labs h ty body np nr base e rest pc p1 pc' :
      block_arity ty E.(e_func_types) = Ok (np, nr) → np ≤ h → base = i32 (h - np) →
      code_for (mkLab p1 base nr e :: labs) h body pc p1 →
      code_for labs (i32 (base + nr)) rest p1 pc' →
      code_for labs h (IBlock ty body :: rest) pc pc'
  | cf_loop labs h ty body np nr base e rest pc p1 pc' :
      block_arity ty E.(e_func_types) = Ok (np, nr) → np ≤ h → base = i32 (h - np) →
      code_for (mkLab pc base np e :: labs) h body pc p1 →
      code_for labs (i32 (base + nr)) rest p1 pc' →
      code_for labs h (ILoop ty body :: rest) pc pc'
  | cf_if labs h h1 ty thn np nr base e rest pc p1 pc' :
      block_arity ty E.(e_func_types) = Ok (np, nr) → 1 ≤ h → h1 = i32 (h - 1 + 0) → np ≤ h1 →
      base = i32 (h1 - np) → ops_at pc [mkCuOp OP_BR_IF_NOT 0 p1] →
      code_for (mkLab p1 base nr e :: labs) h1 thn (pc + 1) p1 →
      code_for labs (i32 (base + nr)) rest p1 pc' →
      code_for labs h (IIf ty thn None :: rest) pc pc'
  | cf_if_else labs h h1 ty thn els np nr base e rest pc p1 p2 pc' :
      block_arity ty E.(e_func_types) = Ok (np, nr) → 1 ≤ h → h1 = i32 (h - 1 + 0) → np ≤ h1 →
      base = i32 (h1 - np) → ops_at pc [mkCuOp OP_BR_IF_NOT 0 (p1 + 1)] →
      code_for (mkLab p2 base nr e :: labs) h1 thn (pc + 1) p1 →
      ops_at p1 [mkCuOp OP_BR 0 p2] →
      code_for (mkLab p2 base nr e :: labs) (i32 (base + np)) els (p1 + 1) p2 →
      code_for labs (i32 (base + nr)) rest p2 pc' →
      code_for labs h (IIf ty thn (Some els) :: rest) pc pc'.

Lemma table_code_mono labs h sc i ds pc pc' : table_code labs h sc i ds pc pc' → pc ≤ pc'.
Proof. induction 1; [lia|]. pose proof (len_nonneg (jump_ops h l)). lia. Qed.

Lemma op_code_mono labs h o pc pc' r : op_code labs h o pc pc' r → pc ≤ pc'.
Proof.
  inversion 1; subst; try lia; [pose proof (len_nonneg ops); lia|..];
    match goal with |- context [jump_ops ?h ?l] => pose proof (len_nonneg (jump_ops h l)) end; try lia.
  match goal with HT : table_code _ _ _ _ _ _ _ |- _ => apply table_code_mono in HT; lia end.
Qed.

Lemma code_for_mono labs h body pc pc' : code_for labs h body pc pc' → pc ≤ pc'.
Proof.
  induction 1; try match goal with HO : op_code _ _ _ _ _ _ |- _ => apply op_code_mono in HO end; lia.
Qed.
End tree.
