(* ===== verification/LowerBack.v ===== *)
(** * The pass produces the code of the body

    Each effect and each arm of the pass is followed backwards ([bk]): from code that
    resolves the state after it, to the same for the state before it, with the code of
    the operator. *)

From S2P Require Import Prelude Cuop Wasm Lower LowerInv Backpatch Engine Structured LowerTree.
From stdpp Require Import base list strings.

Local Open Scope Z_scope.

(** Taking a successful run apart. *)
Lemma bind_Ok {S A B} (m : St S A) (f : A → St S B) s b s' :
  (m ≫= f) s = (Ok b, s') → ∃ a s1, m s = (Ok a, s1) ∧ f a s1 = (Ok b, s').
Proof. unfold mbind, St_bind. destruct (m s) as [[a|e|w] s1]; [eauto|done..]. Qed.

Ltac inv_run H :=
  repeat match type of H with
  | (_ ≫= _) _ = (Ok _, _) =>
      let a := fresh "a" in let s1 := fresh "s" in let H1 := fresh "R" in
      apply bind_Ok in H as (a & s1 & H1 & H); inv_run H1
  | gets _ _ = (Ok _, _) => injection H as ? ?; subst
  | modify _ _ = (Ok _, _) => injection H as ? ?; subst
  | mret _ _ = (Ok _, _) => injection H as ? ?; subst
  | lift _ _ = (Ok _, _) => injection H as H ?; subst
  | fail _ _ = (Ok _, _) => discriminate H
  end.

(** Control entries, but for the recorded branches; a loop records none. *)
Definition core (c : Ctrl) : Ctrl :=
  mkCtrl c.(kind) c.(start) c.(br_if_not) c.(else_br)
    (if bool_decide (c.(kind) = KLoop) then c.(patches) else []) c.(has_else) c.(base) c.(c_n_params)
    c.(c_n_results) c.(dead_on_entry).

Lemma core_alter p (idx : nat) (k : list Ctrl) c :
  k !! idx = Some c → c.(kind) ≠ KLoop → core <$> alter (add_patch p) idx k = core <$> k.
Proof.
  revert idx. induction k as [|c0 k IH]; intros [|idx] Hc Hk; try done.
  - injection Hc as ->. simpl. unfold core at 1. simpl. rewrite bool_decide_eq_false_2 by done.
    unfold core at 2. by rewrite bool_decide_eq_false_2 by done.
  - change (alter (add_patch p) (S idx) (c0 :: k)) with (c0 :: alter (add_patch p) idx k).
    simpl. by rewrite IH.
Qed.

Lemma i32_idem z : i32 (i32 z) = i32 z.
Proof. apply i32_id, i32_range. Qed.

Lemma i32_add_l x y : i32 (i32 x + y) = i32 (x + y).
Proof.
  unfold i32. f_equal. replace ((x + 2 ^ 31) mod 2 ^ 32 - 2 ^ 31 + y + 2 ^ 31) with
    ((x + 2 ^ 31) mod 2 ^ 32 + y) by lia. rewrite Zplus_mod_idemp_l. f_equal. lia.
Qed.

Section back.
Context (E : FnEnv) (C : list CuOpC) (K : list Z) (Hpool : len K < 2 ^ 32).

Abbreviation ops_at := (ops_at C).

Record bk (labs : list Lab) (X : list fill) (s : LState) (labs' : list Lab) (X' : list fill)
    (s' : LState) (Q : Prop) : Prop := {
  bk_len : len s.(st_code) ≤ len s'.(st_code);
  bk_consts : s.(st_consts) `prefix_of` s'.(st_consts);
  bk_ok : len s'.(st_code) < 2 ^ 32 → s'.(st_consts) `prefix_of` K → places X s →
    places X' s' ∧ (resolves C labs' X' s' → resolves C labs X s ∧ Q) }.

Lemma bk_trans labs1 X1 s1 labs2 X2 s2 labs3 X3 s3 (Q1 Q2 : Prop) :
  bk labs1 X1 s1 labs2 X2 s2 Q1 → bk labs2 X2 s2 labs3 X3 s3 Q2 →
  bk labs1 X1 s1 labs3 X3 s3 (Q1 ∧ Q2).
Proof.
  intros [L1 C1 O1] [L2 C2 O2]. split; [lia|by etrans|]. intros Hs HK HP.
  destruct O1 as [HP1 R1]; [lia|by etrans|done|]. destruct O2 as [HP2 R2]; [done..|].
  split; [done|]. intros [H2 ?]%R2. destruct (R1 H2). done.
Qed.

Lemma bk_mono labs X s labs' X' s' (Q Q' : Prop) :
  bk labs X s labs' X' s' Q → (Q → Q') → bk labs X s labs' X' s' Q'.
Proof.
  intros [L1 C1 O1] HQ. split; [done..|]. intros Hs HK HP. destruct (O1 Hs HK HP) as [HP' HR].
  split; [done|]. intros [H1 H2]%HR. auto.
Qed.

(** A fact that holds whenever the code is small may be used. *)
Lemma bk_small labs X s labs' X' s' (Q : Prop) :
  len s.(st_code) ≤ len s'.(st_code) → s.(st_consts) `prefix_of` s'.(st_consts) →
  (len s'.(st_code) < 2 ^ 32 → bk labs X s labs' X' s' Q) → bk labs X s labs' X' s' Q.
Proof. intros HL HC H. split; [done..|]. intros Hs. by apply H. Qed.

Lemma bk_ext labs X s s' :
  s'.(st_code) = s.(st_code) → s'.(st_ctrl) = s.(st_ctrl) → s.(st_consts) `prefix_of` s'.(st_consts) →
  bk labs X s labs X s' True.
Proof.
  intros Hc Hk HK. split; [by rewrite Hc|done|]. intros _ _ HP. split; [by eapply places_ext|].
  intros. split; [by eapply resolves_ext|done].
Qed.

Lemma bk_refl labs X s : bk labs X s labs X s True.
Proof. by apply bk_ext. Qed.

(** *** Effects *)

Lemma len_snoc op s : len (snoc_code op s).(st_code) = len s.(st_code) + 1.
Proof. simpl. rewrite len_app. done. Qed.

Lemma ops_at_one pc op : ops_at pc [op] ↔ C !! Z.to_nat pc = Some op.
Proof.
  split.
  - intros H. rewrite <-(Nat.add_0_r (Z.to_nat pc)). by apply H.
  - intros H [|i] o Ho; [|done]. injection Ho as <-. by rewrite Nat.add_0_r.
Qed.

Lemma ops_at_app pc ops1 ops2 :
  0 ≤ pc → ops_at pc (ops1 ++ ops2) ↔ ops_at pc ops1 ∧ ops_at (pc + len ops1) ops2.
Proof.
  intros Hpc. assert (∀ i, Z.to_nat (pc + len ops1) + i = Z.to_nat pc + (length ops1 + i))%nat as Hadd
    by (unfold len; lia).
  split.
  - intros H. split; intros i o Ho; [by apply H, lookup_app_l_Some|].
    rewrite Hadd. apply H. rewrite lookup_app_r by lia. by replace (length ops1 + i - length ops1)%nat with i by lia.
  - intros [H1 H2] i o [Ho|[Hi Ho]]%lookup_app_Some; [by apply H1|].
    specialize (H2 _ _ Ho). rewrite Hadd in H2.
    by replace (length ops1 + (i - length ops1))%nat with i in H2 by lia.
Qed.

Lemma ops_at_cons pc op ops :
  0 ≤ pc → ops_at pc (op :: ops) ↔ C !! Z.to_nat pc = Some op ∧ ops_at (pc + 1) ops.
Proof. intros Hpc. rewrite <-ops_at_one. by apply (ops_at_app pc [op] ops). Qed.

Lemma bk_snoc labs X s op :
  bk labs X s labs X (snoc_code op s) (ops_at (len s.(st_code)) [op]).
Proof.
  split; [rewrite len_snoc; lia|done|]. intros _ _ HP. split; [by apply places_snoc|].
  intros HR. destruct (resolves_snoc C labs X s op HP HR) as [? HC]. split; [done|].
  apply ops_at_one. unfold len. by rewrite Nat2Z.id.
Qed.

Definition app_code (ops : list CuOpC) : LState → LState := set_code (fun code => code ++ ops).

Lemma bk_app labs X ops : ∀ s, bk labs X s labs X (app_code ops s) (ops_at (len s.(st_code)) ops).
Proof.
  induction ops as [|op ops IH]; intros s.
  - eapply bk_mono; [apply bk_ext; simpl; [apply app_nil_r|done..]|]. by intros _ i o Ho.
  - eapply bk_mono.
    + eapply bk_trans; [apply bk_snoc|].
      replace (app_code (op :: ops) s) with (app_code ops (snoc_code op s)); [apply IH|].
      destruct s. unfold app_code, snoc_code, set_code. simpl. by rewrite <-app_assoc.
    + rewrite len_snoc. intros [H1 H2]. apply ops_at_cons; [apply len_nonneg|].
      by rewrite ops_at_one in H1.
Qed.

Lemma bk_hole labs X s op p t :
  p = u32 (len s.(st_code)) →
  bk labs X s labs ((p, t) :: X) (snoc_code op s) (ops_at (len s.(st_code)) [with_b t op]).
Proof.
  intros ->. pose proof (len_nonneg s.(st_code)).
  split; [rewrite len_snoc; lia|done|]. rewrite len_snoc. intros Hs _ HP. rewrite u32_id by lia.
  split; [by apply places_hole|]. intros HR. destruct (resolves_hole C labs X s op t HP HR) as [? HC].
  split; [done|]. apply ops_at_one. unfold len. by rewrite Nat2Z.id.
Qed.

Lemma bk_patch labs X s p t : bk labs ((p, t) :: X) s labs X (patched p t s) True.
Proof.
  split; [simpl; unfold len; by rewrite length_alter|done|]. intros _ _ HP.
  split; [by eapply places_patched|]. intros HR. split; [by eapply resolves_patched|done].
Qed.

Lemma bk_add_patch labs X s p idx l :
  labs !! idx = Some l →
  bk labs ((p, l.(l_target)) :: X) s labs X (set_ctrl (alter (add_patch p) idx s.(st_ctrl)) s) True.
Proof.
  intros Hl. split; [done..|]. intros _ _ HP.
  destruct (decide (idx < length s.(st_ctrl)))%nat as [Hi|Hi].
  - split; [by eapply places_add_patch|]. intros HR. split; [by eapply resolves_add_patch|done].
  - assert (alter (add_patch p) idx s.(st_ctrl) = s.(st_ctrl)) as Ha.
    { apply list_eq. intros i. destruct (decide (i = idx)) as [->|].
      - rewrite list_lookup_alter_eq, lookup_ge_None_2 by lia. done.
      - by rewrite list_lookup_alter_ne. }
    rewrite Ha. destruct s. simpl in *. split.
    + destruct HP as [H1 H2]. simpl in *. apply NoDup_cons in H1 as [_ ?]. by apply Forall_cons in H2 as [_ ?].
    + intros [H1 _ _]. simpl in *. apply Forall2_length in H1. apply lookup_lt_Some in Hl. lia.
Qed.

(** What the state before has may be used. *)
Lemma bk_use labs X s labs' X' s' (Q Q' : Prop) :
  bk labs X s labs' X' s' Q → (len s'.(st_code) < 2 ^ 32 → resolves C labs X s → Q → Q') →
  bk labs X s labs' X' s' Q'.
Proof.
  intros [L1 C1 O1] HQ. split; [done..|]. intros Hs HK HP. destruct (O1 Hs HK HP) as [HP' HR].
  split; [done|]. intros [H1 H2]%HR. auto.
Qed.

Lemma lab_at labs X s idx c :
  resolves C labs X s → s.(st_ctrl) !! idx = Some c → ∃ l, labs !! idx = Some l ∧ lab_of l c.
Proof. intros [H1 _ _] Hc. destruct (Forall2_lookup_r _ _ _ _ _ H1 Hc) as (l & ? & ?). eauto. Qed.

(** *** Branches *)

(** The effects leave the rest of the state alone. *)
Record kept (s s' : LState) : Prop := {
  kp_ctrl : core <$> s'.(st_ctrl) = core <$> s.(st_ctrl);
  kp_h : s'.(st_h) = s.(st_h);
  kp_dead : s'.(st_dead) = s.(st_dead) }.

#[local] Instance kept_preorder : PreOrder kept.
Proof. split; [by split|]. intros ??? [] []. split; congruence. Qed.

Lemma emit_inv op a b s pc s' :
  emit op a b s = (Ok pc, s') → pc = u32 (len s.(st_code)) ∧ s' = snoc_code (mkCuOp op a b) s.
Proof.
  intros H. cbv [emit mbind St_bind gets modify mret St_ret] in H. by injection H as <- <-.
Qed.

Lemma emit_jump_back labs X idx s s' :
  emit_jump idx s = (Ok tt, s') →
  kept s s' ∧ len s'.(st_code) = len s.(st_code) + 1 ∧
  bk labs X s labs X s' (∃ l, labs !! idx = Some l ∧ ops_at (len s.(st_code)) [mkCuOp OP_BR 0 l.(l_target)]).
Proof.
  intros H. unfold emit_jump in H. apply bind_Ok in H as (c & s1 & Hc & H).
  unfold ctrl_at in Hc. destruct (s.(st_ctrl) !! idx) as [c0|] eqn:Hk; [|done]. injection Hc as -> ->.
  case_bool_decide as Hl.
  - apply bind_Ok in H as (pc & s2 & [_ ->]%emit_inv & H). injection H as <-.
    split_and!; [done|by rewrite len_snoc|]. eapply bk_use; [apply bk_snoc|].
    intros _ HR HC. destruct (lab_at _ _ _ _ _ HR Hk) as (l & Hll & [Hloop _ _]).
    exists l. split; [done|]. by rewrite Hloop.
  - apply bind_Ok in H as (pc & s2 & [-> ->]%emit_inv & H). injection H as <-.
    split_and!; [split; simpl; [by eapply core_alter|done..]|simpl; by rewrite len_app|].
    destruct (labs !! idx) as [l|] eqn:Hll.
    + eapply bk_mono.
      * eapply bk_trans; [by apply bk_hole|exact (bk_add_patch labs X (snoc_code _ s1) _ idx l Hll)].
      * intros [HC _]. eauto.
    + destruct (bk_hole labs X s1 (mkCuOp OP_BR 0 0) (u32 (len s1.(st_code))) 0 eq_refl) as [L1 C1 O1].
      split; [done..|]. intros Hs HK HP. destruct (O1 Hs HK HP) as [HP1 _]. split.
      * eapply (places_add_patch X (snoc_code _ s1)); [by eapply lookup_lt_Some|exact HP1].
      * intros [H1 _ _]. apply lookup_lt_Some in Hk. apply lookup_ge_None in Hll.
        apply Forall2_length in H1. simpl in H1. rewrite length_alter in H1. lia.
Qed.

Lemma unwind_back labs X idx s s' :
  unwind_if_live E idx s = (Ok tt, s') →
  kept s s' ∧ len s.(st_code) ≤ len s'.(st_code) ∧
  bk labs X s labs X s' (s.(st_dead) = false → ∀ l, labs !! idx = Some l →
    i32 (l.(l_base) + l.(l_arity)) ≤ s.(st_h) ∧ ops_at (len s.(st_code)) (unwind_ops E s.(st_h) l) ∧
    len s'.(st_code) = len s.(st_code) + len (unwind_ops E s.(st_h) l)).
Proof.
  intros H. unfold unwind_if_live in H. apply bind_Ok in H as (d & s1 & Hd & H). injection Hd as <- <-.
  destruct (st_dead s) eqn:Hdead.
  { injection H as <-. split_and!; [done|done|]. eapply bk_mono; [apply bk_refl|done]. }
  apply bind_Ok in H as (h & s1 & Hh & H). injection Hh as <- <-.
  apply bind_Ok in H as (c & s1 & Hc & H). unfold ctrl_at in Hc.
  destruct (s.(st_ctrl) !! idx) as [c0|] eqn:Hk; [|done]. injection Hc as -> ->.
  apply bind_Ok in H as (u & s2 & Hu & H). injection H as <-.
  assert (∀ l, lab_of l c → i32 (l.(l_base) + l.(l_arity)) = i32 (c.(base) + label_arity c)) as Hdest
    by by intros l [_ -> ->].
  unfold emit_unwind in Hu. destruct (st_h s1 <? _) eqn:Hlt; [done|].
  assert (∀ X, resolves C labs X s1 → ∀ l, labs !! idx = Some l → lab_of l c) as Hlab.
  { intros Y HR l Hl. destruct (lab_at _ _ _ _ _ HR Hk) as (l' & Hl' & ?). congruence. }
  destruct (i32 (base c + label_arity c) <? st_h s1) eqn:Hgt.
  - apply bind_Ok in Hu as (pc & s3 & [_ ->]%emit_inv & Hu). injection Hu as _ <-.
    split_and!; [done|rewrite len_snoc; lia|]. eapply bk_use; [apply bk_snoc|].
    intros _ HR HC _ l Hl. pose proof (Hlab _ HR l Hl) as Hlc. unfold unwind_ops. cbv zeta.
    rewrite (Hdest l Hlc), Hgt. destruct Hlc as [_ _ ->]. split_and!; [lia|done|by rewrite len_snoc].
  - injection Hu as _ <-. split_and!; [done|done|]. eapply bk_use; [apply bk_refl|].
    intros _ HR _ _ l Hl. pose proof (Hlab _ HR l Hl) as Hlc. unfold unwind_ops. cbv zeta.
    rewrite (Hdest l Hlc), Hgt. split_and!; [lia|by intros i o Ho|]. change (len []) with 0. lia.
Qed.

Lemma resolve_inv d s idx s' : resolve_m d s = (Ok idx, s') → idx = Z.to_nat d ∧ s' = s.
Proof.
  cbv [resolve_m mbind St_bind gets lift]. unfold resolve_br.
  destruct (1 + Z.to_nat d <=? length s.(st_ctrl))%nat; [|done]. by intros [= <- <-].
Qed.

Lemma jump_back labs X d s s1 s' :
  unwind_if_live E (Z.to_nat d) s = (Ok tt, s1) → emit_jump (Z.to_nat d) s1 = (Ok tt, s') →
  kept s s' ∧ bk labs X s labs X s' (s.(st_dead) = false → ∃ l, label_ok labs s.(st_h) d l ∧
    ops_at (len s.(st_code)) (jump_ops E s.(st_h) l) ∧
    len s'.(st_code) = len s.(st_code) + len (jump_ops E s.(st_h) l)).
Proof.
  intros R H. destruct (unwind_back labs X _ _ _ R) as (K1 & _ & B1).
  destruct (emit_jump_back labs X _ _ _ H) as (K2 & L2 & B2). split; [by etrans|].
  eapply bk_mono; [exact (bk_trans _ _ _ _ _ _ _ _ _ _ _ B1 B2)|].
  intros [Q1 (l & Hl & HC)] Hd. destruct (Q1 Hd l Hl) as (Hle & Hu & Hlen). exists l.
  unfold jump_ops. rewrite len_app. change (len [_]) with 1. split_and!; [by split| |lia].
  apply ops_at_app; [apply len_nonneg|]. rewrite Hlen in HC. done.
Qed.

Lemma branch_back labs X d s s' :
  branch_to E d s = (Ok tt, s') →
  kept s s' ∧ bk labs X s labs X s' (s.(st_dead) = false → ∃ l, label_ok labs s.(st_h) d l ∧
    ops_at (len s.(st_code)) (jump_ops E s.(st_h) l) ∧
    len s'.(st_code) = len s.(st_code) + len (jump_ops E s.(st_h) l)).
Proof.
  intros H. unfold branch_to in H. apply bind_Ok in H as (idx & s0 & [-> ->]%resolve_inv & H).
  apply bind_Ok in H as ([] & s1 & R & H). by eapply jump_back.
Qed.

Lemma patch_inv p b s s' : patch_b p b s = (Ok tt, s') → s' = patched p b s.
Proof. unfold patch_b. destruct (_ <? _); [|done]. by intros [= <-]. Qed.

(** The conditional branch. *)
Lemma skip_back labs X d s s' :
  br_skip E d s = (Ok tt, s') →
  kept s s' ∧ bk labs X s labs X s' (s.(st_dead) = false → ∃ l, label_ok labs s.(st_h) d l ∧
    ops_at (len s.(st_code)) (skip_ops E (len s.(st_code)) s.(st_h) l) ∧
    len s'.(st_code) = len s.(st_code) + 1 + len (jump_ops E s.(st_h) l)).
Proof.
  intros H. unfold br_skip in H. apply bind_Ok in H as (p & s1 & [Hp ->]%emit_inv & H).
  apply bind_Ok in H as (idx & s2 & [-> ->]%resolve_inv & H).
  apply bind_Ok in H as (h & s2 & Hh & H). injection Hh as <- <-.
  apply bind_Ok in H as ([] & s2 & R1 & H). apply bind_Ok in H as ([] & s3 & R2 & H).
  apply bind_Ok in H as ([] & s4 & Hm & H). injection Hm as <-.
  apply bind_Ok in H as (dest & s4 & Hd & H). injection Hd as <- <-. apply patch_inv in H as ->.
  set (s1 := snoc_code _ s) in *. set (t := u32 (len (st_code (set_h (st_h s1) s3)))).
  destruct (jump_back labs ((p, t) :: X) d s1 s2 s3 R1 R2) as ([Kc Kh Kd] & B2).
  split; [by split|].
  pose proof (bk_hole labs X s (mkCuOp OP_BR_IF_NOT 0 0) p t Hp) as B1. fold s1 in B1.
  assert (bk labs ((p, t) :: X) s3 labs X (patched p t (set_h (st_h s1) s3)) True) as B3.
  { eapply bk_mono; [eapply bk_trans; [apply bk_ext|apply bk_patch]; done|done]. }
  eapply bk_use; [exact (bk_trans _ _ _ _ _ _ _ _ _ _ _ B1 (bk_trans _ _ _ _ _ _ _ _ _ _ _ B2 B3))|].
  intros Hsmall HR [HC [HQ _]] Hdead. destruct (HQ Hdead) as (l & Hl & Hj & Hlen).
  unfold s1 in Hlen, Hj, Hl. rewrite len_snoc in Hlen, Hj.
  assert (∀ u, len (st_code (patched p u (set_h (st_h s1) s3))) = len s3.(st_code)) as Hlen'
    by (intros u; simpl; unfold len; by rewrite length_alter).
  rewrite Hlen' in Hsmall. rewrite Hlen'. exists l. split_and!; [done| |done]. unfold skip_ops.
  apply ops_at_cons; [apply len_nonneg|]. split; [|done].
  rewrite ops_at_one in HC. rewrite HC. unfold with_b, t. simpl.
  pose proof (len_nonneg s3.(st_code)). rewrite u32_id by (simpl in *; lia). by rewrite Hlen.
Qed.

(** *** Heights and constants *)

Record consumed (pops pushes : Z) (s s' : LState) : Prop := {
  cs_code : s'.(st_code) = s.(st_code);
  cs_ctrl : s'.(st_ctrl) = s.(st_ctrl);
  cs_consts : s'.(st_consts) = s.(st_consts);
  cs_dead : s'.(st_dead) = s.(st_dead);
  cs_h : if s.(st_dead) then s'.(st_h) = s.(st_h)
         else pops ≤ s.(st_h) ∧ s'.(st_h) = i32 (s.(st_h) - pops + pushes) }.

Lemma consume_inv pops pushes s s' : consume pops pushes s = (Ok tt, s') → consumed pops pushes s s'.
Proof.
  unfold consume. destruct (st_dead s) eqn:Hd; [|destruct (_ <? _) eqn:Hlt; [done|]];
    intros [= <-]; split; simpl; rewrite ?Hd; try done. lia.
Qed.

Lemma bk_consume labs X pops pushes s s' : consumed pops pushes s s' → bk labs X s labs X s' True.
Proof. intros [Hc Hk Hs _ _]. apply bk_ext; [done..|by rewrite Hs]. Qed.

Lemma intern_inv v s idx s' :
  intern_m v s = (Ok idx, s') →
  kept s s' ∧ s'.(st_code) = s.(st_code) ∧
  ∀ labs X, bk labs X s labs X s' (0 ≤ idx ∧ K !! Z.to_nat idx = Some v).
Proof using Hpool.
  unfold intern_m. destruct (intern _ v) as [i k] eqn:Hi. intros [= <- <-].
  destruct (intern_spec _ _ _ _ Hi) as (Hp & _ & Hidx). split_and!; [done..|]. intros labs X.
  split; [done|done|]. intros _ HpK HP. split; [by apply (places_ext X s)|]. intros HR.
  split; [exact (resolves_ext C labs X s (set_consts k s) eq_refl eq_refl HR)|]. simpl in HpK. pose proof HpK as [r Hr].
  destruct Hidx as [? Hl]. { rewrite Hr, len_app in Hpool. pose proof (len_nonneg r). lia. }
  split; [lia|]. by eapply prefix_lookup_Some.
Qed.

(** *** Tables of branches *)

Lemma table_entry_back labs X sc i d s s' :
  (idxc ← intern_m (u64 (u32 i));
   emit OP_LOCAL_GET sc 0;; consume 0 1;; emit OP_I64_CONST 0 idxc;; consume 0 1;;
   emit OP_I32_EQ 0 0;; consume 2 1;; consume 1 0;; br_skip E d) s = (Ok tt, s') →
  i32 s.(st_h) = s.(st_h) →
  kept s s' ∧ bk labs X s labs X s' (s.(st_dead) = false → ∃ l idx,
    label_ok labs s.(st_h) d l ∧ 0 ≤ idx ∧ K !! Z.to_nat idx = Some (u64 (u32 i)) ∧
    ops_at (len s.(st_code))
      ([mkCuOp OP_LOCAL_GET sc 0; mkCuOp OP_I64_CONST 0 idx; mkCuOp OP_I32_EQ 0 0] ++
       skip_ops E (len s.(st_code) + 3) s.(st_h) l) ∧
    len s'.(st_code) = len s.(st_code) + 4 + len (jump_ops E s.(st_h) l)).
Proof using Hpool.
  intros H Hh. apply bind_Ok in H as (idx & s1 & [K1 [Hc1 B1]]%intern_inv & H).
  apply bind_Ok in H as (? & s2 & [_ Hs2]%emit_inv & H).
  apply bind_Ok in H as ([] & s3 & C3%consume_inv & H).
  apply bind_Ok in H as (? & s4 & [_ Hs4]%emit_inv & H).
  apply bind_Ok in H as ([] & s5 & C5%consume_inv & H).
  apply bind_Ok in H as (? & s6 & [_ Hs6]%emit_inv & H).
  apply bind_Ok in H as ([] & s7 & C7%consume_inv & H).
  apply bind_Ok in H as ([] & s8 & C8%consume_inv & H).
  destruct (skip_back labs X d s8 s' H) as (K9 & B9).
  pose proof (bk_snoc labs X s1 (mkCuOp OP_LOCAL_GET sc 0)) as B2. rewrite <-Hs2 in B2.
  pose proof (bk_snoc labs X s3 (mkCuOp OP_I64_CONST 0 idx)) as B4. rewrite <-Hs4 in B4.
  pose proof (bk_snoc labs X s5 (mkCuOp OP_I32_EQ 0 0)) as B6. rewrite <-Hs6 in B6.
  pose proof (bk_trans _ _ _ _ _ _ _ _ _ _ _ (B1 labs X) (bk_trans _ _ _ _ _ _ _ _ _ _ _ B2
    (bk_trans _ _ _ _ _ _ _ _ _ _ _ (bk_consume labs X _ _ _ _ C3) (bk_trans _ _ _ _ _ _ _ _ _ _ _ B4
    (bk_trans _ _ _ _ _ _ _ _ _ _ _ (bk_consume labs X _ _ _ _ C5) (bk_trans _ _ _ _ _ _ _ _ _ _ _ B6
    (bk_trans _ _ _ _ _ _ _ _ _ _ _ (bk_consume labs X _ _ _ _ C7)
    (bk_trans _ _ _ _ _ _ _ _ _ _ _ (bk_consume labs X _ _ _ _ C8) B9)))))))) as B.
  destruct K1 as [Kc1 Kh1 Kd1]. destruct C3 as [D3 T3 _ E3 F3], C5 as [D5 T5 _ E5 F5],
    C7 as [D7 T7 _ E7 F7], C8 as [D8 T8 _ E8 F8]. destruct K9 as [Kc9 Kh9 Kd9].
  assert (s8.(st_ctrl) = s1.(st_ctrl)) as Hctrl by (subst; simpl in *; congruence).
  assert (s8.(st_dead) = s.(st_dead)) as Hdead by (subst; simpl in *; congruence).
  assert (len s8.(st_code) = len s.(st_code) + 3 ∧ len s3.(st_code) = len s.(st_code) + 1 ∧
    len s5.(st_code) = len s.(st_code) + 2) as (L8 & L3 & L5).
  { rewrite D8, D7, Hs6, len_snoc, D5, Hs4, len_snoc, D3, Hs2, len_snoc, Hc1. lia. }
  assert (s8.(st_h) = s.(st_h)) as Hh8.
  { rewrite E7, Hs6 in F8. simpl in F8. rewrite E5, Hs4 in F8. simpl in F8. rewrite E3, Hs2 in F8.
    simpl in F8. rewrite Hs6 in F7. simpl in F7. rewrite E5, Hs4 in F7. simpl in F7.
    rewrite E3, Hs2 in F7. simpl in F7. rewrite Hs4 in F5. simpl in F5. rewrite E3, Hs2 in F5.
    simpl in F5. rewrite Hs2 in F3. simpl in F3. rewrite Kh1 in F3. destruct (st_dead s1); [congruence|].
    destruct F8 as [_ ->], F7 as [_ ->], F5 as [_ ->], F3 as [_ ->]. rewrite <-Hh at 2.
    rewrite <-!Z.add_opp_r, <-!Z.add_assoc, i32_add_l, <-!Z.add_assoc, i32_add_l, <-!Z.add_assoc, i32_add_l.
    f_equal. lia. }
  split; [split; congruence|]. eapply bk_mono; [exact B|].
  intros ((Hi0 & HiK) & O1 & _ & O2 & _ & O3 & _ & _ & O4) Hlive.
  destruct O4 as (l & Hl & Ho & Hlen); [congruence|]. rewrite Hh8, L8 in *. exists l, idx.
  split_and!; [done..| |lia]. rewrite Hc1 in O1. rewrite L3 in O2. rewrite L5 in O3.
  pose proof (len_nonneg s.(st_code)). rewrite ops_at_one in O1, O2, O3. simpl.
  rewrite !ops_at_cons by lia. split_and!; [done|done|by rewrite <-Z.add_assoc|].
  by rewrite <-!Z.add_assoc.
Qed.

Lemma table_back labs X sc ds : ∀ i s s',
  br_table_loop E sc i ds s = (Ok tt, s') → i32 s.(st_h) = s.(st_h) →
  kept s s' ∧ bk labs X s labs X s' (s.(st_dead) = false →
    table_code E C K labs s.(st_h) sc i ds (len s.(st_code)) (len s'.(st_code))).
Proof using Hpool.
  induction ds as [|d ds IH]; intros i s s' H Hh.
  - injection H as <-. split; [done|]. eapply bk_mono; [apply bk_refl|]. intros _ _. constructor.
  - assert (∃ s1, (idxc ← intern_m (u64 (u32 i));
      emit OP_LOCAL_GET sc 0;; consume 0 1;; emit OP_I64_CONST 0 idxc;; consume 0 1;;
      emit OP_I32_EQ 0 0;; consume 2 1;; consume 1 0;; br_skip E d) s = (Ok tt, s1) ∧
      br_table_loop E sc (i + 1) ds s1 = (Ok tt, s')) as (s1 & H1 & H2).
    { simpl in H. unfold mbind, St_bind in *. destruct (intern_m _ s) as [[idx| |] t1]; try done.
      destruct (emit _ _ _ t1) as [[]  t2]; try done. destruct (consume _ _ t2) as [[] t3]; try done.
      destruct (emit _ _ _ t3) as [[] t4]; try done. destruct (consume _ _ t4) as [[] t5]; try done.
      destruct (emit _ _ _ t5) as [[] t6]; try done. destruct (consume _ _ t6) as [[] t7]; try done.
      destruct (consume _ _ t7) as [[] t8]; try done. destruct (br_skip E d t8) as [[[]| |] t9]; try done.
      eauto. }
    destruct (table_entry_back labs X sc i d s s1 H1 Hh) as (K1 & B1). pose proof K1 as [_ Kh1 Kd1].
    destruct (IH (i + 1) s1 s' H2) as (K2 & B2); [by rewrite Kh1|]. split; [by etrans|].
    eapply bk_mono; [exact (bk_trans _ _ _ _ _ _ _ _ _ _ _ B1 B2)|]. intros [Q1 Q2] Hd.
    destruct (Q1 Hd) as (l & idx & Hl & H0 & HK & Hops & Hlen). rewrite Kh1, Hlen in Q2.
    eapply tc_cons; [done..|]. apply Q2. congruence.
Qed.

(** ** Operators *)

(** What lowering an operator achieves. *)
Record lowered (labs : list Lab) (X : list fill) (o : Operator) (s s' : LState) : Prop := {
  lw_ctrl : core <$> s'.(st_ctrl) = core <$> s.(st_ctrl);
  lw_h : i32 s'.(st_h) = s'.(st_h);
  lw_bk : bk labs X s labs X s' (s.(st_dead) = false → ∃ r,
    op_code E C K labs s.(st_h) o (len s.(st_code)) (len s'.(st_code)) r ∧
    ∀ h', r = Some h' → s'.(st_dead) = false ∧ s'.(st_h) = h') }.

Lemma lowered_emits labs X o ops eff (Pre : Prop) s s' :
  bk labs X s labs X s' (ops_at (len s.(st_code)) ops ∧ Pre) → (Pre → emits E K o ops eff) →
  len s'.(st_code) = len s.(st_code) + len ops → s'.(st_ctrl) = s.(st_ctrl) →
  s'.(st_dead) = s.(st_dead) → i32 s.(st_h) = s.(st_h) →
  (if s.(st_dead) then s'.(st_h) = s.(st_h)
   else match eff with
        | Some (p, q) => p ≤ s.(st_h) ∧ s'.(st_h) = i32 (s.(st_h) - p + q)
        | None => s'.(st_h) = s.(st_h)
        end) →
  lowered labs X o s s'.
Proof.
  intros B HE Hlen Hctrl Hdead Hi Hh. split; [by rewrite Hctrl| |].
  - destruct (st_dead s); [by rewrite Hh|]. destruct eff as [[p q]|]; [|by rewrite Hh].
    destruct Hh as [_ ->]. apply i32_idem.
  - eapply bk_mono; [exact B|]. intros [Ho HP] Hd. rewrite Hd in Hh. exists (Some (s'.(st_h))). split.
    + eapply oc_emit; [by apply HE| |done|done|].
      * intros p q ->. lia.
      * destruct eff as [[p q]|]; [by destruct Hh|done].
    + intros h' [= <-]. split; [congruence|done].
Qed.

Lemma lowered_emit_consume labs X o op a b p q s s' :
  (emit op a b;; consume p q) s = (Ok tt, s') → i32 s.(st_h) = s.(st_h) →
  emits E K o [mkCuOp op a b] (Some (p, q)) → lowered labs X o s s'.
Proof.
  intros H Hi HE. apply bind_Ok in H as (pc & s1 & [_ Hs1]%emit_inv & H%consume_inv).
  pose proof (bk_snoc labs X s (mkCuOp op a b)) as B1. rewrite <-Hs1 in B1.
  eapply (lowered_emits labs X o [mkCuOp op a b] (Some (p, q)) True); [|done|..]; try done.
  - eapply bk_mono; [exact (bk_trans _ _ _ _ _ _ _ _ _ _ _ B1 (bk_consume labs X _ _ _ _ H))|done].
  - destruct H as [-> _ _ _ _]. subst s1. by rewrite len_snoc.
  - destruct H as [_ -> _ _ _]. by subst s1.
  - destruct H as [_ _ _ -> _]. by subst s1.
  - destruct H as [_ _ _ _ Hh]. by subst s1.
Qed.

(** An op that ends the reach of control. *)
Lemma lowered_stop labs X o op s s' :
  s'.(st_code) = s.(st_code) ++ [op] → s'.(st_ctrl) = s.(st_ctrl) →
  s'.(st_consts) = s.(st_consts) → i32 s'.(st_h) = s'.(st_h) →
  (∀ pc, ops_at pc [op] → op_code E C K labs s.(st_h) o pc (pc + 1) None) → lowered labs X o s s'.
Proof.
  intros Hc Hk Hs Hi HO. split; [by rewrite Hk|done|].
  assert (bk labs X s labs X s' (ops_at (len s.(st_code)) [op])) as B.
  { eapply bk_mono; [eapply bk_trans; [apply (bk_snoc labs X s op)|apply bk_ext]; [done..|by rewrite Hs]|].
    by intros [? _]. }
  eapply bk_mono; [exact B|]. intros Ho _. exists None. split; [|done]. rewrite Hc, len_app. by apply HO.
Qed.

Lemma lift_inv {S A} (o : outcome A) (s : S) a s' : lift o s = (Ok a, s') → o = Ok a ∧ s' = s.
Proof. by intros [= -> ->]. Qed.

Lemma lowered_stop_dead labs X o op a b f s s' :
  (emit op a b;; modify f) s = (Ok tt, s') → i32 s.(st_h) = s.(st_h) →
  (∀ t, (f t).(st_code) = t.(st_code) ∧ (f t).(st_ctrl) = t.(st_ctrl) ∧
        (f t).(st_consts) = t.(st_consts) ∧ (f t).(st_h) = t.(st_h)) →
  (∀ pc, ops_at pc [mkCuOp op a b] → op_code E C K labs s.(st_h) o pc (pc + 1) None) →
  lowered labs X o s s'.
Proof.
  intros H Hi Hf HO. apply bind_Ok in H as (pc & s1 & [_ Hs1]%emit_inv & H). injection H as <-.
  destruct (Hf s1) as (H1 & H2 & H3 & H4).
  by apply (lowered_stop labs X o (mkCuOp op a b)); rewrite ?H1, ?H2, ?H3, ?H4; subst s1.
Qed.

Lemma lowered_branch labs X d s s' :
  br_arm E d s = (Ok tt, s') → i32 s.(st_h) = s.(st_h) → lowered labs X (Br d) s s'.
Proof.
  intros H Hi. apply bind_Ok in H as ([] & s1 & H & Hm). injection Hm as <-.
  destruct (branch_back labs X d s s1 H) as ([Kc Kh Kd] & B). split; [done|simpl; congruence|].
  eapply bk_mono.
  - eapply bk_trans; [exact B|]. by apply (bk_ext labs X s1 (set_dead true s1)).
  - intros [HQ _] Hd. destruct (HQ Hd) as (l & Hl & Ho & Hlen). exists None. split; [|done].
    by eapply oc_br.
Qed.

Lemma lowered_br_if labs X d s s' :
  br_if_arm E d s = (Ok tt, s') → i32 s.(st_h) = s.(st_h) → lowered labs X (BrIf d) s s'.
Proof.
  intros H Hi. apply bind_Ok in H as ([] & s1 & HC%consume_inv & H).
  pose proof HC as [Hc Hk Hs Hd Hh]. destruct (skip_back labs X d s1 s' H) as ([Kc Kh Kd] & B).
  split; [by rewrite Kc, Hk| |].
  - rewrite Kh. destruct (st_dead s); [by rewrite Hh|]. destruct Hh as [_ ->]. apply i32_idem.
  - eapply bk_mono; [exact (bk_trans _ _ _ _ _ _ _ _ _ _ _ (bk_consume labs X _ _ _ _ HC) B)|].
    intros [_ HQ] Hlive. rewrite Hd, Hlive in *. destruct Hh as [H1 Hh].
    destruct (HQ eq_refl) as (l & Hl & Ho & Hlen). rewrite Hc in *. exists (Some s1.(st_h)). split.
    + by eapply oc_br_if.
    + intros h' [= <-]. done.
Qed.

Lemma lowered_br_table labs X dflt ts s s' :
  br_table_arm E dflt ts s = (Ok tt, s') → i32 s.(st_h) = s.(st_h) →
  lowered labs X (BrTable dflt ts) s s'.
Proof using Hpool.
  intros H Hi. apply bind_Ok in H as (sc & s0 & [Hsc ->]%lift_inv & H).
  apply bind_Ok in H as (ds & s0 & [Hds ->]%lift_inv & H).
  apply bind_Ok in H as (pc & s1 & [_ Hs1]%emit_inv & H).
  apply bind_Ok in H as ([] & s2 & HC%consume_inv & H).
  apply bind_Ok in H as ([] & s3 & HT & H). apply bind_Ok in H as ([] & s4 & HB & H). injection H as <-.
  pose proof HC as [Hc Hk Hs Hd Hh].
  assert (s1.(st_ctrl) = s.(st_ctrl) ∧ s1.(st_dead) = s.(st_dead) ∧ s1.(st_h) = s.(st_h) ∧
    len s1.(st_code) = len s.(st_code) + 1) as (Ek & Ed & Eh & El) by (subst s1; by rewrite len_snoc).
  rewrite Ed, Eh in Hh.
  assert (i32 s2.(st_h) = s2.(st_h)) as Hi2.
  { destruct (st_dead s); [by rewrite Hh|]. destruct Hh as [_ ->]. apply i32_idem. }
  destruct (table_back labs X sc ds 0 s2 s3 HT Hi2) as ([Kc Kh Kd] & B3).
  destruct (branch_back labs X dflt s3 s4 HB) as ([Lc Lh Ld] & B4).
  pose proof (bk_snoc labs X s (mkCuOp OP_LOCAL_SET sc 0)) as B1. rewrite <-Hs1 in B1.
  pose proof (bk_ext labs X s4 (set_dead true s4) eq_refl eq_refl ltac:(done)) as B5.
  pose proof (bk_trans _ _ _ _ _ _ _ _ _ _ _ B1 (bk_trans _ _ _ _ _ _ _ _ _ _ _
    (bk_consume labs X _ _ _ _ HC) (bk_trans _ _ _ _ _ _ _ _ _ _ _ B3
    (bk_trans _ _ _ _ _ _ _ _ _ _ _ B4 B5)))) as B.
  split; [simpl; congruence|simpl; congruence|]. eapply bk_mono; [exact B|].
  intros (O1 & _ & QT & QB & _) Hlive. rewrite Hlive in Hh. destruct Hh as [H1 Hh].
  assert (s2.(st_dead) = false) as Hd2 by congruence. rewrite Hc, El in QT.
  destruct QB as (l & Hl & Ho & Hlen); [congruence|]. rewrite Kh in *. exists None. split; [|done].
  destruct (e_scratch E) as [sc'|] eqn:Hsc'; [injection Hsc as ->|done].
  eapply oc_br_table; [exact Hsc'|exact Hds|exact H1|exact Hh|exact O1|exact (QT Hd2)|exact Hl|exact Ho|exact Hlen].
Qed.

Lemma lowered_call labs X f s s' :
  call_arm E f s = (Ok tt, s') → i32 s.(st_h) = s.(st_h) → lowered labs X (Call f) s s'.
Proof.
  intros H Hi. apply bind_Ok in H as ([np nr] & s0 & [Har ->]%lift_inv & H).
  destruct (f <? e_n_imports E) eqn:Himp.
  - apply bind_Ok in H as (r & s1 & H1 & H). apply bind_Ok in H1 as (id & s2 & [Hid ->]%lift_inv & H1).
    eapply lowered_emit_consume; [|done|apply em_call_host; [exact Har|lia|]].
    + unfold mbind, St_bind. rewrite H1. exact H.
    + destruct (e_host_fn_ids E !! Z.to_nat f); [by injection Hid as ->|done].
  - eapply lowered_emit_consume; [exact H|done|]. apply em_call; [done|lia].
Qed.

(** A successful consumption on its own. *)
Lemma lowered_quiet labs X o s s' p q :
  consume p q s = (Ok tt, s') → i32 s.(st_h) = s.(st_h) → emits E K o [] (Some (p, q)) →
  lowered labs X o s s'.
Proof.
  intros HC%consume_inv Hi HE.
  eapply (lowered_emits labs X o [] (Some (p, q)) True); [|done|..]; try done.
  - eapply bk_mono; [by eapply bk_consume|]. intros _. split; [by intros i op Hop|done].
  - destruct HC as [-> _ _ _ _]. change (len []) with 0. lia.
  - by destruct HC.
  - by destruct HC.
  - by destruct HC.
Qed.

Lemma lowered_tee labs X i s s' :
  (emit OP_LOCAL_SET (u16 i) 0;; emit OP_LOCAL_GET (u16 i) 0;; mret tt) s = (Ok tt, s') →
  i32 s.(st_h) = s.(st_h) → lowered labs X (LocalTee i) s s'.
Proof.
  intros H Hi. apply bind_Ok in H as (? & s1 & [_ Hs1]%emit_inv & H).
  apply bind_Ok in H as (? & s2 & [_ Hs2]%emit_inv & H). injection H as <-.
  assert (s2 = app_code [mkCuOp OP_LOCAL_SET (u16 i) 0; mkCuOp OP_LOCAL_GET (u16 i) 0] s) as ->.
  { subst s2 s1. destruct s. unfold snoc_code, app_code, set_code. simpl. by rewrite <-app_assoc. }
  eapply (lowered_emits labs X _ _ None True); try done.
  - eapply bk_mono; [apply bk_app|done].
  - intros _. apply em_local_tee.
  - simpl. rewrite len_app. done.
  - simpl. by destruct (st_dead s).
Qed.

Lemma lowered_drop labs X i s s' :
  (emit OP_DATA_DROP (u16 i) 0;; mret tt) s = (Ok tt, s') → i32 s.(st_h) = s.(st_h) →
  lowered labs X (DataDrop i) s s'.
Proof.
  intros H Hi. apply bind_Ok in H as (? & s1 & [_ ->]%emit_inv & H). injection H as <-.
  eapply (lowered_emits labs X _ _ None True); try done.
  - eapply bk_mono; [apply bk_snoc|done].
  - intros _. apply em_data_drop.
  - simpl. by rewrite len_app.
  - simpl. by destruct (st_dead s).
Qed.

Lemma lowered_const labs X o v s s' :
  const_op o = Some v → const_arm v s = (Ok tt, s') → i32 s.(st_h) = s.(st_h) →
  lowered labs X o s s'.
Proof using Hpool.
  intros Ho H Hi. apply bind_Ok in H as (idx & s1 & [[K1 Kh Kd] [Hc1 B1]]%intern_inv & H).
  apply bind_Ok in H as (pc & s2 & [_ Hs2]%emit_inv & HC%consume_inv).
  pose proof (bk_snoc labs X s1 (mkCuOp OP_I64_CONST 0 idx)) as B2. rewrite <-Hs2 in B2.
  pose proof (bk_trans _ _ _ _ _ _ _ _ _ _ _ (B1 labs X) (bk_trans _ _ _ _ _ _ _ _ _ _ _ B2
    (bk_consume labs X _ _ _ _ HC))) as B.
  assert (s2.(st_ctrl) = s1.(st_ctrl) ∧ s2.(st_dead) = s1.(st_dead) ∧ s2.(st_h) = s1.(st_h) ∧
    len s2.(st_code) = len s.(st_code) + 1) as (Ek & Ed & Eh & El)
    by (subst s2; rewrite len_snoc, Hc1; done).
  destruct HC as [Hc Hk Hs Hd Hh]. rewrite Ed, Kd, Eh, Kh in Hh.
  split; [by rewrite Hk, Ek| |].
  - destruct (st_dead s); [by rewrite Hh|]. destruct Hh as [_ ->]. apply i32_idem.
  - eapply bk_mono; [exact B|]. intros ((H0 & HK) & HO & _) Hlive. rewrite Hlive in Hh.
    destruct Hh as [H1 Hh]. rewrite Hc1 in HO. exists (Some s'.(st_h)). split.
    + eapply oc_emit; [by eapply em_const| |exact HO| |exact Hh].
      * intros p q [= <- <-]. done.
      * rewrite Hc, El. done.
    + intros h' [= <-]. split; [congruence|done].
Qed.

Lemma lowered_simple labs X o m s s' :
  simple_arm o = Some m → m s = (Ok tt, s') → i32 s.(st_h) = s.(st_h) → lowered labs X o s s'.
Proof.
  intros Ho H Hi. destruct o; try discriminate Ho; injection Ho as <-;
    first [ eapply lowered_emit_consume; [exact H|exact Hi|by constructor]
          | by eapply lowered_tee
          | eapply lowered_quiet; [exact H|exact Hi|by apply em_reinterpret]
          | idtac ].
  all: try match type of H with
    | (if negb (?mem =? 0) then _ else _) _ = _ =>
        destruct (Z.eqb_spec mem 0) as [->|]; simpl in H; [|discriminate H] end.
  all: try (eapply lowered_emit_consume; [exact H|exact Hi|by constructor]).
  - destruct (Z.eqb_spec dst_mem 0) as [->|]; [|discriminate H].
    destruct (Z.eqb_spec src_mem 0) as [->|]; [|discriminate H]. simpl in H.
    eapply lowered_emit_consume; [exact H|exact Hi|by constructor].
  - by eapply lowered_drop.
Qed.

(** Every operator without a nested body. *)
Lemma basic_lowered labs X o s s' :
  is_basic o = true → lower_op E o s = (Ok tt, s') → i32 s.(st_h) = s.(st_h) → lowered labs X o s s'.
Proof using Hpool.
  intros Hb H Hi. unfold lower_op in H.
  destruct (plain_op o) as [[[opc p] q]|] eqn:Hp.
  { eapply lowered_emit_consume; [exact H|done|by apply em_plain]. }
  destruct (const_op o) as [v|] eqn:Hc; [by eapply lowered_const|].
  destruct (load_op o) as [[[[nb sg] d64] ma]|] eqn:Hl.
  { apply bind_Ok in H as (off & s0 & [Ho ->]%lift_inv & H).
    eapply lowered_emit_consume; [exact H|done|by eapply em_load]. }
  destruct (store_op o) as [[nb ma]|] eqn:Hs.
  { apply bind_Ok in H as (off & s0 & [Ho ->]%lift_inv & H).
    eapply lowered_emit_consume; [exact H|done|by eapply em_store]. }
  destruct (simple_arm o) as [m|] eqn:Hm; [by eapply lowered_simple|].
  destruct o; try discriminate Hb; try discriminate H; try discriminate Hp; try discriminate Hm;
    try discriminate Hc; try discriminate Hl; try discriminate Hs.
  - injection H as <-. apply (lowered_emits labs X Nop [] None True s s).
    + eapply bk_mono; [apply bk_refl|]. intros _. split; [by intros i op Hop|done].
    + intros _. apply em_nop.
    + change (len []) with 0. lia.
    + done.
    + done.
    + done.
    + by destruct (st_dead s).
  - eapply (lowered_stop_dead labs X _ _ _ _ (set_dead true)); [exact H|done|done|].
    intros. by apply oc_unreachable.
  - by apply lowered_branch.
  - by apply lowered_br_if.
  - by apply lowered_br_table.
  - eapply (lowered_stop_dead labs X _ _ _ _ (set_dead true)); [exact H|done|done|].
    intros. by apply oc_return.
  - by apply lowered_call.
  - unfold return_call_arm in H. destruct (_ <? _) eqn:Hlt; [discriminate H|].
    eapply (lowered_stop_dead labs X _ _ _ _ (set_dead true)); [exact H|done|done|].
    intros. apply oc_return_call; [lia|done..].
  - unfold call_indirect_arm in H. destruct (Z.eqb_spec table_index 0) as [->|]; [|discriminate H]. simpl in H.
    destruct (e_func_types E !! _) as [ft|] eqn:Hft; [|discriminate H].
    eapply lowered_emit_consume; [exact H|done|by apply em_call_indirect].
Qed.
End back.
