(* ===== verification/LowerBlocks.v ===== *)
(** * The pass produces the code of the body: blocks and functions

    Entering and leaving a block moves placeholders between the control stack and the
    code.  By induction on the body the whole pass is covered: [lower_operators] leaves,
    from the function's offset on, the code [code_for] describes, closed by its
    [END_FUNC]. *)

From S2P Require Import Prelude Cuop Wasm Lower LowerInv Backpatch Engine Structured LowerTree LowerBack.
From stdpp Require Import base list strings.

Local Open Scope Z_scope.

Section blocks.
Context (E : FnEnv) (C : list CuOpC) (K : list Z) (Hpool : len K < 2 ^ 32).

Abbreviation ops_at := (ops_at C).
Abbreviation bk := (bk C K).
Abbreviation lowered := (lowered E C K).
Abbreviation bk_trans := (bk_trans C K).
Abbreviation bk_mono := (bk_mono C K).
Abbreviation bk_use := (bk_use C K).
Abbreviation bk_ext := (bk_ext C K).
Abbreviation bk_refl := (bk_refl C K).
Abbreviation bk_consume := (bk_consume C K).
Abbreviation bk_hole := (bk_hole C K).
Abbreviation bk_patch := (bk_patch C K).
Abbreviation bk_snoc := (bk_snoc C K).
Abbreviation bk_len := (bk_len C K).
Abbreviation basic_lowered := (basic_lowered E C K Hpool).

(** ** Blocks *)

Lemma bk_push labs X s c l :
  pend c = [] → bk labs X s (l :: labs) X (set_ctrl (c :: s.(st_ctrl)) s) (lab_of l c).
Proof.
  intros Hc. split; [done..|]. intros _ _ HP. split; [by apply places_push|]. by apply resolves_push.
Qed.

Lemma bk_pop labs X s c k l :
  s.(st_ctrl) = c :: k → lab_of l c → bk (l :: labs) X s labs (fill_of l c ++ X) (set_ctrl k s) True.
Proof.
  intros Hk Hl. split; [done..|]. intros _ _ HP. split; [by apply places_pop|].
  intros HR. split; [by eapply resolves_pop|done].
Qed.

Lemma bk_top l labs X Y Y' s c c' k :
  s.(st_ctrl) = c :: k → (lab_of l c' → lab_of l c) → Y' ++ fill_of l c' ≡ₚ Y ++ fill_of l c →
  bk (l :: labs) (Y ++ X) s (l :: labs) (Y' ++ X) (set_ctrl (c' :: k) s) True.
Proof.
  intros Hk Hl HY. split; [done..|]. intros _ _ HP. split; [by eapply places_top|].
  intros HR. split; [by eapply resolves_top|done].
Qed.

Lemma bk_perm labs X Y s : X ≡ₚ Y → bk labs X s labs Y s True.
Proof.
  intros HXY. split; [done..|]. intros _ _ [H1 H2].
  split; [split; by rewrite <-HXY|]. intros [R1 R2 R3]. split; [|done]. split; [done|by rewrite HXY|].
  intros i op Hi Hn. apply R3; [done|]. by rewrite <-HXY.
Qed.

(** The state but for code addresses. *)
Record same_rest (s s' : LState) : Prop := {
  sr_len : len s'.(st_code) = len s.(st_code);
  sr_ctrl : s'.(st_ctrl) = s.(st_ctrl);
  sr_consts : s'.(st_consts) = s.(st_consts);
  sr_h : s'.(st_h) = s.(st_h);
  sr_dead : s'.(st_dead) = s.(st_dead) }.

#[local] Instance same_rest_preorder : PreOrder same_rest.
Proof. split; [by split|]. intros ??? [] []. split; congruence. Qed.

Lemma same_rest_patched p b s : same_rest s (patched p b s).
Proof. split; try done. simpl. unfold len. by rewrite length_alter. Qed.

Lemma patch_all_back labs X t ps : ∀ s s',
  for_each ps (fun p => patch_b p t) s = (Ok tt, s') →
  same_rest s s' ∧ bk labs (((fun p => (p, t)) <$> ps) ++ X) s labs X s' True.
Proof.
  induction ps as [|p ps IH]; intros s s' H.
  - injection H as <-. split; [done|apply bk_refl].
  - apply bind_Ok in H as ([] & s1 & ->%patch_inv & H). destruct (IH _ _ H) as [Hs HB].
    split; [etrans; [apply same_rest_patched|exact Hs]|].
    eapply bk_mono; [eapply bk_trans; [apply bk_patch|exact HB]|done].
Qed.

Lemma patch_opt_back labs X t o s s' :
  patch_opt o t s = (Ok tt, s') →
  same_rest s s' ∧ bk labs (((fun p => (p, t)) <$> option_list o) ++ X) s labs X s' True.
Proof.
  destruct o as [p|]; simpl.
  - intros ->%patch_inv. split; [apply same_rest_patched|apply bk_patch].
  - intros [= <-]. split; [done|apply bk_refl].
Qed.

(** The [end] of a block: its placeholders go to the address reached. *)
Lemma end_back labs X l c k s s' :
  s.(st_ctrl) = c :: k → c.(kind) ≠ KFunc → end_arm E s = (Ok tt, s') → lab_of l c →
  (c.(kind) = KLoop → c.(patches) = []) → (c.(kind) ≠ KLoop → l.(l_target) = u32 (len s.(st_code))) →
  (c.(kind) = KIf → c.(has_else) = false → l.(l_else) = u32 (len s.(st_code))) →
  bk (l :: labs) X s labs X s' True ∧ s'.(st_ctrl) = k ∧ s'.(st_dead) = c.(dead_on_entry) ∧
  s'.(st_h) = i32 (c.(base) + c.(c_n_results)) ∧ len s'.(st_code) = len s.(st_code).
Proof.
  intros Hk Hf H Hlab Hloop Htgt Helse. unfold end_arm in H.
  apply bind_Ok in H as (c0 & s1 & Hp & H). unfold pop_ctrl in Hp. rewrite Hk in Hp.
  injection Hp as <- <-. apply bind_Ok in H as (join & s1 & Hj & H).
  rewrite bool_decide_eq_false_2 in Hj by done. injection Hj as <- <-.
  apply bind_Ok in H as ([] & s2 & H1 & H). apply bind_Ok in H as ([] & s3 & H2 & H). injection H as <-.
  change (len (st_code (set_ctrl k s))) with (len s.(st_code)) in *.
  set (t := u32 (len (st_code s))) in *. set (s0 := set_ctrl k s) in *.
  assert (same_rest s0 s2 ∧ ∀ Y, bk labs (((fun p => (p, t)) <$> test_hole c) ++ Y) s0 labs Y s2 True)
    as [Hs2 B2].
  { unfold patch_if, test_hole in *. case_bool_decide; [|injection H1 as <-; split; [done|]; intros; apply bk_refl].
    destruct (has_else c); (split; [by eapply (patch_opt_back labs [])|]; intros Y; by eapply patch_opt_back). }
  destruct (patch_all_back labs X t _ _ _ H2) as [Hs3 B3].
  destruct (transitivity Hs2 Hs3) as [L1 L2 L3 L4 L5]. split; [|by split_and!].
  assert (fill_of l c ≡ₚ ((fun p => (p, t)) <$> test_hole c) ++ ((fun p => (p, t)) <$> c.(patches))) as HF.
  { unfold fill_of. rewrite Permutation_app_comm. f_equiv.
    - apply Permutation_refl', list_fmap_ext. intros i p Hp. f_equal. unfold test_hole in Hp.
      case_bool_decide as Hif; [|done]. destruct (has_else c) eqn:He.
      + apply Htgt. by rewrite Hif.
      + by apply Helse.
    - destruct (decide (c.(kind) = KLoop)) as [Hl|Hl]; [by rewrite (Hloop Hl)|].
      by rewrite (Htgt Hl). }
  eapply bk_mono; [|done].
  eapply bk_trans; [by eapply (bk_pop labs X s c k l)|].
  eapply bk_trans; [apply (bk_perm labs _ (((fun p => (p, t)) <$> test_hole c) ++
    ((fun p => (p, t)) <$> c.(patches)) ++ X)); by rewrite HF, <-app_assoc|].
  eapply bk_trans; [apply B2|]. eapply bk_trans; [exact B3|]. by apply (bk_ext labs X s3).
  Unshelve. all: exact True.
Qed.

(** ** Bodies *)

Lemma for_each_app {S A} (l1 l2 : list A) (f : A → St S unit) s s' :
  for_each (l1 ++ l2) f s = (Ok tt, s') →
  ∃ s1, for_each l1 f s = (Ok tt, s1) ∧ for_each l2 f s1 = (Ok tt, s').
Proof.
  revert s. induction l1 as [|x l1 IH]; intros s H; simpl in *; [by exists s|].
  apply bind_Ok in H as ([] & s1 & H1 & H). destruct (IH _ H) as (s2 & H2 & H3).
  exists s2. split; [|done]. unfold mbind, St_bind. by rewrite H1.
Qed.

Definition lower_all (ops : list Operator) : LM unit := for_each ops (lower_op E).

Record tree_lowered (body : list instr) (labs : list Lab) (X : list fill) (s s' : LState) : Prop := {
  tl_ctrl : core <$> s'.(st_ctrl) = core <$> s.(st_ctrl);
  tl_h : i32 s'.(st_h) = s'.(st_h);
  tl_bk : bk labs X s labs X s' (s.(st_dead) = false →
    code_for E C K labs s.(st_h) body (len s.(st_code)) (len s'.(st_code))) }.

(** The control entry after the body is the one before, with its branches. *)
Lemma core_cons k' c k :
  core <$> k' = core <$> (c :: k) → ∃ c1 k1, k' = c1 :: k1 ∧ core c1 = core c ∧ core <$> k1 = core <$> k.
Proof. destruct k' as [|c1 k1]; [done|]. intros [= ? ? ? ? ? ? ? ? ? ? ?]. exists c1, k1. split_and!; try done. unfold core. congruence. Qed.

Lemma core_eq c1 c l : core c1 = core c → lab_of l c → lab_of l c1.
Proof.
  intros [= H1 H2 H3 H4 H5 H6 H7 H8 H9 H10] [A1 A2 A3].
  split; [by rewrite H1, H2|by rewrite H7|]. unfold label_arity in *. by rewrite H1, H8, H9.
Qed.

Lemma core_loop c1 c : core c1 = core c → c.(kind) = KLoop → c1.(patches) = c.(patches).
Proof.
  unfold core. intros [= H1 _ _ _ H5 _ _ _ _ _] Hk. rewrite H1, Hk in H5. by rewrite !bool_decide_eq_true_2 in H5.
Qed.

Lemma push_ctrl_back kd st np nr s s' :
  push_ctrl kd st np nr s = (Ok tt, s') →
  s' = set_ctrl (mkCtrl kd st None None [] false (if s.(st_dead) then 0 else i32 (s.(st_h) - np))
                   np nr s.(st_dead) :: s.(st_ctrl)) s ∧ (s.(st_dead) = false → np ≤ s.(st_h)).
Proof.
  unfold push_ctrl. destruct (st_dead s); simpl; [by intros [= <-]|].
  destruct (st_h s <? np) eqn:?; [done|]. intros [= <-]. split; [done|]. lia.
Qed.

(** A block or a loop, given its body. *)
Lemma block_back labs X kd ty body s s1 s2 s3 :
  kd = KBlock ∨ kd = KLoop → block_arm E kd ty s = (Ok tt, s1) →
  (∀ labs X, tree_lowered body labs X s1 s2) → end_arm E s2 = (Ok tt, s3) →
  ∃ np nr, block_arity ty E.(e_func_types) = Ok (np, nr) ∧ core <$> s3.(st_ctrl) = core <$> s.(st_ctrl) ∧
    let b0 := if s.(st_dead) then 0 else i32 (s.(st_h) - np) in
    s3.(st_dead) = s.(st_dead) ∧ s3.(st_h) = i32 (b0 + nr) ∧
    bk labs X s labs X s3 (s.(st_dead) = false → np ≤ s.(st_h) ∧
      code_for E C K (mkLab (if bool_decide (kd = KLoop) then len s.(st_code) else len s3.(st_code)) b0
                        (if bool_decide (kd = KLoop) then np else nr) 0 :: labs)
        s.(st_h) body (len s.(st_code)) (len s3.(st_code))).
Proof.
  intros Hkd H Hbody Hend. apply bind_Ok in H as ([np nr] & s0 & [Har ->]%lift_inv & H).
  apply bind_Ok in H as (pc & s0 & Hpc & H). injection Hpc as <- <-.
  apply push_ctrl_back in H as [Hs1 Hnp]. exists np, nr. split; [done|].
  set (b0 := if st_dead s then 0 else i32 (st_h s - np)) in *.
  set (c := mkCtrl kd _ None None [] false b0 np nr (st_dead s)) in *.
  pose proof (tl_ctrl _ _ _ _ _ (Hbody [] [])) as Hcore. rewrite Hs1 in Hcore. simpl in Hcore.
  destruct (core_cons _ _ _ Hcore) as (c1 & k1 & Hk2 & Hc1 & Hk1).
  set (l := mkLab (if bool_decide (kd = KLoop) then u32 (len s.(st_code)) else u32 (len s2.(st_code)))
              b0 (if bool_decide (kd = KLoop) then np else nr) 0).
  assert (lab_of l c) as Hlab.
  { split; simpl; [|done|done]. intros ->. by rewrite bool_decide_eq_true_2. }
  assert (c1.(kind) = kd ∧ c1.(dead_on_entry) = s.(st_dead) ∧ c1.(base) = b0 ∧ c1.(c_n_results) = nr ∧
    c1.(has_else) = false) as (K1 & K2 & K3 & K4 & K5) by (by injection Hc1).
  destruct (end_back labs X l c1 k1 s2 s3 Hk2) as (B3 & E1 & E2 & E3 & E4); try done.
  { rewrite K1. by destruct Hkd as [->| ->]. }
  { by eapply core_eq. }
  { rewrite K1. intros Hl. by rewrite (core_loop _ _ Hc1 Hl). }
  { rewrite K1. intros Hl. simpl. by rewrite bool_decide_eq_false_2. }
  { rewrite K1. by destruct Hkd as [->| ->]. }
  split; [by rewrite E1|]. cbv zeta. split; [by rewrite E2|]. split; [by rewrite E3, K3, K4|].
  assert (pend c = []) as Hpc by (by destruct Hkd as [->| ->]).
  pose proof (bk_push labs X s c l Hpc) as B1. rewrite <-Hs1 in B1.
  eapply bk_use; [exact (bk_trans _ _ _ _ _ _ _ _ _ _ _ B1 (bk_trans _ _ _ _ _ _ _ _ _ _ _
    (tl_bk _ _ _ _ _ (Hbody (l :: labs) X)) B3))|].
  intros Hsm HR (_ & HQ & _) Hlive. split; [by apply Hnp|]. rewrite E4 in *.
  assert (s1.(st_dead) = false) as Hd1 by (by rewrite Hs1). specialize (HQ Hd1).
  assert (s1.(st_h) = s.(st_h) ∧ s1.(st_code) = s.(st_code)) as [Hh1 Hco1] by (by rewrite Hs1).
  rewrite Hh1, Hco1 in HQ. pose proof (bk_len _ _ _ _ _ _ _ (tl_bk _ _ _ _ _ (Hbody [] []))) as HL.
  rewrite Hco1 in HL. pose proof (len_nonneg s.(st_code)). unfold l in HQ.
  rewrite !u32_id in HQ by lia. exact HQ.
Qed.

(** The start of an [if]: the test is a placeholder for [l_else]. *)
Lemma if_back labs X ty s s1 :
  if_arm E ty s = (Ok tt, s1) → i32 s.(st_h) = s.(st_h) →
  ∃ np nr p st b0 h1, let c := mkCtrl KIf st (Some p) None [] false b0 np nr s.(st_dead) in
    block_arity ty E.(e_func_types) = Ok (np, nr) ∧ s1.(st_ctrl) = c :: s.(st_ctrl) ∧
    s1.(st_dead) = s.(st_dead) ∧ s1.(st_h) = h1 ∧ i32 h1 = h1 ∧ len s1.(st_code) = len s.(st_code) + 1 ∧
    (s.(st_dead) = false → 1 ≤ s.(st_h) ∧ h1 = i32 (s.(st_h) - 1 + 0) ∧ np ≤ h1 ∧ b0 = i32 (h1 - np)) ∧
    ∀ l, lab_of l c → bk labs X s (l :: labs) X s1
      (ops_at (len s.(st_code)) [mkCuOp OP_BR_IF_NOT 0 l.(l_else)]).
Proof.
  intros H Hi. apply bind_Ok in H as ([np nr] & s0 & [Har ->]%lift_inv & H).
  apply bind_Ok in H as ([] & t1 & HC%consume_inv & H).
  apply bind_Ok in H as (p & t2 & [Hp Ht2]%emit_inv & H).
  apply bind_Ok in H as (st & t3 & Hst & H). injection Hst as Hst <-.
  apply bind_Ok in H as ([] & t4 & [Ht4 Hnp]%push_ctrl_back & H). injection H as <-.
  pose proof HC as [Hc Hk Hs Hd Hh].
  set (b0 := if st_dead t2 then 0 else i32 (st_h t2 - np)) in *.
  set (c0 := mkCtrl KIf st None None [] false b0 np nr (st_dead t2)) in *.
  assert (t2.(st_dead) = s.(st_dead) ∧ t2.(st_h) = t1.(st_h) ∧ t2.(st_ctrl) = s.(st_ctrl) ∧
    len t2.(st_code) = len s.(st_code) + 1) as (Ed & Eh & Ek & El)
    by (subst t2; rewrite len_snoc, Hc; done).
  exists np, nr, p, st, b0, t1.(st_h). cbv zeta.
  split_and!; try done.
  - rewrite Ht4. simpl. rewrite Ek. unfold c0. by rewrite Ed.
  - by rewrite Ht4.
  - by rewrite Ht4.
  - destruct (st_dead s); [by rewrite Hh|]. destruct Hh as [_ ->]. apply i32_idem.
  - by rewrite Ht4.
  - intros Hlive. rewrite Hlive in Hh. destruct Hh as [H1 Hh].
    rewrite <-Eh. split_and!; [done|by rewrite Eh|by apply Hnp; congruence|].
    unfold b0. by rewrite Ed, Hlive.
  - intros l Hl. pose proof (bk_hole labs X t1 (mkCuOp OP_BR_IF_NOT 0 0) p l.(l_else) Hp) as B2.
    rewrite <-Ht2 in B2.
    pose proof (bk_push labs ((p, l.(l_else)) :: X) t2 c0 l eq_refl) as B3.
    pose proof (bk_top l labs X [(p, l.(l_else))] [] (set_ctrl (c0 :: t2.(st_ctrl)) t2) c0
      (set_br_if_not p c0) t2.(st_ctrl) eq_refl ltac:(by intros [? ? ?]) (reflexivity _)) as B4.
    rewrite Ht4. eapply bk_mono; [exact (bk_trans _ _ _ _ _ _ _ _ _ _ _ (bk_consume labs X _ _ _ _ HC)
      (bk_trans _ _ _ _ _ _ _ _ _ _ _ B2 (bk_trans _ _ _ _ _ _ _ _ _ _ _ B3 B4)))|].
    rewrite Hc. intros (_ & HO & _). exact HO.
Qed.

(** The [else]: the first branch jumps to the end, the test comes here. *)
Lemma else_back labs X l c k p s s1 :
  s.(st_ctrl) = c :: k → c.(kind) = KIf → c.(has_else) = false → c.(br_if_not) = Some p →
  else_arm s = (Ok tt, s1) → (l.(l_else) = u32 (len s.(st_code) + 1)) →
  s1.(st_ctrl) = set_else_br (u32 (len s.(st_code))) c :: k ∧ s1.(st_dead) = false ∧
  s1.(st_h) = i32 (c.(base) + c.(c_n_params)) ∧ len s1.(st_code) = len s.(st_code) + 1 ∧
  bk (l :: labs) X s (l :: labs) X s1 (ops_at (len s.(st_code)) [mkCuOp OP_BR 0 l.(l_target)]).
Proof.
  intros Hk Hkd He Hb H Hl. apply bind_Ok in H as (o & s0 & Ho & H). injection Ho as <- <-.
  rewrite Hk in H. simpl in H. rewrite bool_decide_eq_false_2 in H by (by intros ?).
  apply bind_Ok in H as (br & t1 & [Hbr Ht1]%emit_inv & H).
  apply bind_Ok in H as ([] & t2 & Hm & H). injection Hm as Ht2.
  apply bind_Ok in H as (dest & t3 & Hd & H). injection Hd as Hdest <-.
  apply bind_Ok in H as ([] & t4 & Hp & H). injection H as <-. rewrite Hb in Hp. simpl in Hp.
  apply patch_inv in Hp.
  assert (t1.(st_ctrl) = c :: k) as Hk1 by by subst t1.
  assert (len t2.(st_code) = len s.(st_code) + 1) as El by (subst t2 t1; apply len_snoc).
  assert (t2 = set_ctrl (set_else_br br c :: k) t1) as Ht2'.
  { subst t2. by rewrite Hk1. }
  assert (len t4.(st_code) = len s.(st_code) + 1) as El4.
  { rewrite <-El. subst t4. simpl. unfold len. by rewrite length_alter. }
  split_and!; try done.
  - subst t4. simpl. rewrite Ht2'. by subst br.
  - pose proof (bk_hole (l :: labs) X s (mkCuOp OP_BR 0 0) br l.(l_target) Hbr) as B1. rewrite <-Ht1 in B1.
    assert (fill_of l c = ((fun q => (q, l.(l_target))) <$> c.(patches)) ++ [(p, l.(l_else))]) as F1.
    { unfold fill_of, test_hole. by rewrite bool_decide_eq_true_2, He, Hb. }
    assert (fill_of l (set_else_br br c) =
      ((fun q => (q, l.(l_target))) <$> c.(patches)) ++ [(br, l.(l_target))]) as F2.
    { unfold fill_of, test_hole. simpl. by rewrite bool_decide_eq_true_2. }
    assert (bk (l :: labs) ((br, l.(l_target)) :: X) t1 (l :: labs) ((p, l.(l_else)) :: X) t2 True) as B2.
    { rewrite Ht2'. apply (bk_top l labs X [(br, l.(l_target))] [(p, l.(l_else))] t1 c); [done| |].
      - intros [A1 A2 A3]. split; [by rewrite Hkd|done|done].
      - rewrite F1, F2. solve_Permutation. }
    assert (bk (l :: labs) ((p, l.(l_else)) :: X) t2 (l :: labs) X t4 True) as B3.
    { rewrite Hl. rewrite Hp, <-Hdest, El. apply bk_patch. }
    eapply bk_mono; [exact (bk_trans _ _ _ _ _ _ _ _ _ _ _ B1 (bk_trans _ _ _ _ _ _ _ _ _ _ _ B2
      (bk_trans _ _ _ _ _ _ _ _ _ _ _ B3 (bk_ext (l :: labs) X t4
        (set_dead false (set_h (i32 (base c + c_n_params c)) t4)) eq_refl eq_refl ltac:(done)))))|].
    intros [HO _]. exact HO.
Qed.

(** *** Instructions *)

(** What lowering one instruction achieves, whatever follows it. *)
Record one_lowered (i : instr) (labs : list Lab) (X : list fill) (s s' : LState) : Prop := {
  ol_ctrl : core <$> s'.(st_ctrl) = core <$> s.(st_ctrl);
  ol_h : i32 s'.(st_h) = s'.(st_h);
  ol_bk : bk labs X s labs X s' (s.(st_dead) = false → ∀ rest pc', len s'.(st_code) ≤ pc' →
    (s'.(st_dead) = false → code_for E C K labs s'.(st_h) rest (len s'.(st_code)) pc') →
    code_for E C K labs s.(st_h) (i :: rest) (len s.(st_code)) pc') }.

Lemma one_basic labs X o s s' :
  is_basic o = true → lower_op E o s = (Ok tt, s') → i32 s.(st_h) = s.(st_h) →
  one_lowered (Basic o) labs X s s'.
Proof using Hpool.
  intros Hb H Hi. destruct (basic_lowered labs X o s s' Hb H Hi) as [L1 L2 L3]. split; [done..|].
  pose proof (bk_len _ _ _ _ _ _ _ L3).
  eapply bk_mono; [exact L3|]. intros HQ Hd rest pc' Hle Hrest. destruct (HQ Hd) as ([h'|] & Hop & Hr).
  - destruct (Hr h' eq_refl) as [Hd' <-]. eapply cf_op; [exact Hop|by apply Hrest].
  - eapply cf_stop; [exact Hop|lia].
Qed.

Lemma one_block labs X kd ty body i s s1 s2 s3 :
  kd = KBlock ∧ i = IBlock ty body ∨ kd = KLoop ∧ i = ILoop ty body → block_arm E kd ty s = (Ok tt, s1) →
  i32 s.(st_h) = s.(st_h) → (∀ labs X, i32 s1.(st_h) = s1.(st_h) → tree_lowered body labs X s1 s2) →
  end_arm E s2 = (Ok tt, s3) → one_lowered i labs X s s3.
Proof.
  intros Hkd H Hi Hbody' Hend.
  assert (∀ labs X, tree_lowered body labs X s1 s2) as Hbody.
  { intros. apply Hbody'. apply bind_Ok in H as ([np nr] & s0 & [_ ->]%lift_inv & H).
    apply bind_Ok in H as (pc & s0 & Hpc & H). injection Hpc as _ <-.
    by apply push_ctrl_back in H as [-> _]. }
  destruct (block_back labs X kd ty body s s1 s2 s3) as (np & nr & Har & H1 & H2 & H3 & B);
    [by destruct Hkd as [[? _]|[? _]]; [left|right]|done..|].
  split; [done|by rewrite H3, i32_idem|]. eapply bk_mono; [exact B|]. intros HQ Hd rest pc' Hle Hrest.
  destruct (HQ Hd) as [Hnp Hc]. rewrite H2, H3 in Hrest. specialize (Hrest Hd). rewrite Hd in Hc, Hrest.
  destruct Hkd as [[-> ->]|[-> ->]].
  - by eapply cf_block.
  - by eapply cf_loop.
Qed.

(** The entry an [if] pushes, after its first branch. *)
Lemma one_if labs X ty thn s s1 s2 s3 :
  if_arm E ty s = (Ok tt, s1) → i32 s.(st_h) = s.(st_h) →
  (∀ labs X, i32 s1.(st_h) = s1.(st_h) → tree_lowered thn labs X s1 s2) → end_arm E s2 = (Ok tt, s3) →
  one_lowered (IIf ty thn None) labs X s s3.
Proof.
  intros H Hi Hthn Hend.
  destruct (if_back labs X ty s s1 H Hi) as (np & nr & p & st & b0 & h1 & Har & Hk & Hd & Hh & Hh1 & El & HL & B1).
  set (c := mkCtrl KIf _ _ None [] false b0 np nr _) in *.
  assert (∀ labs X, tree_lowered thn labs X s1 s2) as Hthn' by (intros; apply Hthn; by rewrite Hh).
  pose proof (tl_ctrl _ _ _ _ _ (Hthn' [] [])) as Hcore. rewrite Hk in Hcore.
  destruct (core_cons _ _ _ Hcore) as (c1 & k1 & Hk2 & Hc1 & Hk1).
  set (l := mkLab (u32 (len s2.(st_code))) b0 nr (u32 (len s2.(st_code)))).
  assert (lab_of l c) as Hlab by by split.
  assert (c1.(kind) = KIf ∧ c1.(dead_on_entry) = s.(st_dead) ∧ c1.(base) = b0 ∧ c1.(c_n_results) = nr)
    as (K1 & K2 & K3 & K4) by (by injection Hc1).
  destruct (end_back labs X l c1 k1 s2 s3 Hk2) as (B3 & E1 & E2 & E3 & E4); rewrite ?K1; try done.
  { by eapply core_eq. }
  split; [by rewrite E1|by rewrite E3, i32_idem|].
  eapply bk_use; [exact (bk_trans _ _ _ _ _ _ _ _ _ _ _ (B1 l Hlab) (bk_trans _ _ _ _ _ _ _ _ _ _ _
    (tl_bk _ _ _ _ _ (Hthn' (l :: labs) X)) B3))|].
  intros Hsm HR (HO & HQ & _) Hlive rest pc' Hle Hrest. rewrite E2, E3, K2, K3, K4, E4 in *.
  destruct (HL Hlive) as (H1 & -> & Hnp & Hb0). specialize (HQ ltac:(congruence)).
  pose proof (bk_len _ _ _ _ _ _ _ (tl_bk _ _ _ _ _ (Hthn' [] []))) as HLen.
  pose proof (len_nonneg s.(st_code)). rewrite El in HQ, HLen. rewrite Hh in HQ. unfold l in HQ, HO.
  simpl in HO. rewrite !u32_id in HQ by lia. rewrite u32_id in HO by lia.
  eapply cf_if; [exact Har|exact H1|exact eq_refl|exact Hnp|exact Hb0|exact HO|exact HQ|by apply Hrest].
Qed.

Lemma one_if_else labs X ty thn els s s1 s2 s3 s4 s5 :
  if_arm E ty s = (Ok tt, s1) → i32 s.(st_h) = s.(st_h) →
  (∀ labs X, i32 s1.(st_h) = s1.(st_h) → tree_lowered thn labs X s1 s2) → else_arm s2 = (Ok tt, s3) →
  (∀ labs X, i32 s3.(st_h) = s3.(st_h) → tree_lowered els labs X s3 s4) → end_arm E s4 = (Ok tt, s5) →
  one_lowered (IIf ty thn (Some els)) labs X s s5.
Proof.
  intros H Hi Hthn Helse Hels Hend.
  destruct (if_back labs X ty s s1 H Hi) as (np & nr & p & st & b0 & h1 & Har & Hk & Hd & Hh & Hh1 & El & HL & B1).
  set (c := mkCtrl KIf _ _ None [] false b0 np nr _) in *.
  assert (∀ labs X, tree_lowered thn labs X s1 s2) as Hthn' by (intros; apply Hthn; by rewrite Hh).
  pose proof (tl_ctrl _ _ _ _ _ (Hthn' [] [])) as Hcore. rewrite Hk in Hcore.
  destruct (core_cons _ _ _ Hcore) as (c1 & k1 & Hk2 & Hc1 & Hk1).
  set (l := mkLab (u32 (len s4.(st_code))) b0 nr (u32 (len s2.(st_code) + 1))).
  assert (lab_of l c) as Hlab by by split.
  assert (c1.(kind) = KIf ∧ c1.(dead_on_entry) = s.(st_dead) ∧ c1.(base) = b0 ∧ c1.(c_n_results) = nr ∧
    c1.(has_else) = false ∧ c1.(br_if_not) = Some p ∧ c1.(c_n_params) = np)
    as (K1 & K2 & K3 & K4 & K5 & K6 & K7) by (by injection Hc1).
  destruct (else_back labs X l c1 k1 p s2 s3 Hk2 K1 K5 K6 Helse eq_refl) as (F1 & F2 & F3 & F4 & B3).
  assert (∀ labs X, tree_lowered els labs X s3 s4) as Hels'
    by (intros; apply Hels; by rewrite F3, i32_idem).
  pose proof (tl_ctrl _ _ _ _ _ (Hels' [] [])) as Hcore2. rewrite F1 in Hcore2.
  destruct (core_cons _ _ _ Hcore2) as (c2 & k2 & Hk4 & Hc2 & Hk3).
  assert (c2.(kind) = KIf ∧ c2.(dead_on_entry) = s.(st_dead) ∧ c2.(base) = b0 ∧ c2.(c_n_results) = nr ∧
    c2.(has_else) = true) as (M1 & M2 & M3 & M4 & M5).
  { injection Hc2. simpl. intros. split_and!; congruence. }
  destruct (end_back labs X l c2 k2 s4 s5 Hk4) as (B5 & E1 & E2 & E3 & E4); rewrite ?M1; try done.
  { split; [by rewrite M1|by rewrite M3|]. unfold label_arity. rewrite M1. simpl. by rewrite M4. }
  { by rewrite M5. }
  split; [by rewrite E1, Hk3, Hk1|by rewrite E3, i32_idem|].
  eapply bk_use; [exact (bk_trans _ _ _ _ _ _ _ _ _ _ _ (B1 l Hlab) (bk_trans _ _ _ _ _ _ _ _ _ _ _
    (tl_bk _ _ _ _ _ (Hthn' (l :: labs) X)) (bk_trans _ _ _ _ _ _ _ _ _ _ _ B3
    (bk_trans _ _ _ _ _ _ _ _ _ _ _ (tl_bk _ _ _ _ _ (Hels' (l :: labs) X)) B5))))|].
  intros Hsm HR (HO & HQ & HB & HQ2 & _) Hlive rest pc' Hle Hrest. rewrite E2, E3, M2, M3, M4, E4 in *.
  destruct (HL Hlive) as (H1 & -> & Hnp & Hb0). specialize (HQ ltac:(congruence)). specialize (HQ2 F2).
  pose proof (bk_len _ _ _ _ _ _ _ (tl_bk _ _ _ _ _ (Hthn' [] []))) as HLen.
  pose proof (bk_len _ _ _ _ _ _ _ (tl_bk _ _ _ _ _ (Hels' [] []))) as HLen2.
  pose proof (len_nonneg s.(st_code)). rewrite El in HQ, HLen. rewrite F3, F4, K3, K7 in *. rewrite Hh in HQ.
  unfold l in HQ, HQ2, HO, HB. simpl in HO, HB.
  rewrite !u32_id in HQ by lia. rewrite !u32_id in HQ2 by lia. rewrite u32_id in HO by lia.
  rewrite u32_id in HB by lia.
  eapply cf_if_else; [exact Har|exact H1|exact eq_refl|exact Hnp|exact Hb0|exact HO|exact HQ|exact HB|exact HQ2|by apply Hrest].
Qed.

(** *** Trees *)

Lemma tree_cons i rest labs X s s1 s' :
  one_lowered i labs X s s1 → (i32 s1.(st_h) = s1.(st_h) → tree_lowered rest labs X s1 s') →
  tree_lowered (i :: rest) labs X s s'.
Proof.
  intros [L1 L2 L3] HT. destruct (HT L2) as [T1 T2 T3]. split; [congruence|done|].
  eapply bk_mono; [exact (bk_trans _ _ _ _ _ _ _ _ _ _ _ L3 T3)|]. intros [Q1 Q2] Hd.
  apply Q1; [done|by eapply bk_len|done].
Qed.

Lemma lower_all_app l1 l2 s s' :
  lower_all (l1 ++ l2) s = (Ok tt, s') → ∃ s1, lower_all l1 s = (Ok tt, s1) ∧ lower_all l2 s1 = (Ok tt, s').
Proof. apply for_each_app. Qed.

Lemma lower_all_cons o l s s' :
  lower_all (o :: l) s = (Ok tt, s') → ∃ s1, lower_op E o s = (Ok tt, s1) ∧ lower_all l s1 = (Ok tt, s').
Proof. intros H. apply bind_Ok in H as ([] & s1 & ? & ?). eauto. Qed.

Lemma lower_all_end l s s' :
  lower_all (End :: l) s = (Ok tt, s') → ∃ s1, end_arm E s = (Ok tt, s1) ∧ lower_all l s1 = (Ok tt, s').
Proof. apply lower_all_cons. Qed.

Lemma flatten_block ty b rest : flatten (IBlock ty b :: rest) = Block ty :: flatten b ++ End :: flatten rest.
Proof. unfold flatten. simpl. by rewrite <-app_assoc. Qed.

Lemma flatten_loop ty b rest : flatten (ILoop ty b :: rest) = Loop ty :: flatten b ++ End :: flatten rest.
Proof. unfold flatten. simpl. by rewrite <-app_assoc. Qed.

Lemma flatten_if ty t rest : flatten (IIf ty t None :: rest) = If ty :: flatten t ++ End :: flatten rest.
Proof. unfold flatten. simpl. by rewrite <-app_assoc. Qed.

Lemma flatten_if_else ty t e rest :
  flatten (IIf ty t (Some e) :: rest) = If ty :: flatten t ++ Else :: flatten e ++ End :: flatten rest.
Proof. unfold flatten. simpl. rewrite <-!app_assoc. simpl. by rewrite <-app_assoc. Qed.

Lemma tree_back body : forallb tree_ok body = true → ∀ labs X s s',
  lower_all (flatten body) s = (Ok tt, s') → i32 s.(st_h) = s.(st_h) → tree_lowered body labs X s s'.
Proof using Hpool.
  induction body as [|o rest IHr|ty body rest IHb IHr|ty body rest IHb IHr|ty thn rest IHt IHr|
    ty thn els rest IHt IHe IHr] using body_ind; intros Hok labs X s s' H Hi;
    rewrite ?andb_true_iff in Hok; simpl in Hok; rewrite ?andb_true_iff in Hok.
  - injection H as <-. split; [done..|]. eapply bk_mono; [apply bk_refl|]. intros _ _. constructor.
  - destruct Hok as [[Ho _] Hok]. apply lower_all_cons in H as (s1 & H1 & H).
    eapply tree_cons; [by apply one_basic|]. intros. by apply IHr.
  - destruct Hok as [Hb Hok]. rewrite flatten_block in H.
    apply lower_all_cons in H as (s1 & H1 & H). apply lower_all_app in H as (s2 & H2 & H).
    apply lower_all_end in H as (s3 & H3 & H).
    eapply tree_cons; [eapply (one_block labs X KBlock ty body); [by left|exact H1|done| |exact H3]|].
    + intros. by eapply IHb.
    + intros. by apply IHr.
  - destruct Hok as [Hb Hok]. rewrite flatten_loop in H.
    apply lower_all_cons in H as (s1 & H1 & H). apply lower_all_app in H as (s2 & H2 & H).
    apply lower_all_end in H as (s3 & H3 & H).
    eapply tree_cons; [eapply (one_block labs X KLoop ty body); [by right|exact H1|done| |exact H3]|].
    + intros. by eapply IHb.
    + intros. by apply IHr.
  - destruct Hok as [[Ht _] Hok]. rewrite flatten_if in H.
    apply lower_all_cons in H as (s1 & H1 & H). apply lower_all_app in H as (s2 & H2 & H).
    apply lower_all_end in H as (s3 & H3 & H).
    eapply tree_cons; [eapply (one_if labs X ty thn); [exact H1|done| |exact H3]|].
    + intros. by eapply IHt.
    + intros. by apply IHr.
  - destruct Hok as [[Ht He] Hok]. rewrite flatten_if_else in H.
    apply lower_all_cons in H as (s1 & H1 & H). apply lower_all_app in H as (s2 & H2 & H).
    apply lower_all_cons in H as (s3 & H3 & H).
    apply lower_all_app in H as (s4 & H4 & H). apply lower_all_end in H as (s5 & H5 & H).
    eapply tree_cons; [eapply (one_if_else labs X ty thn els); [exact H1|done| |exact H3| |exact H5]|].
    + intros. by eapply IHt.
    + intros. by eapply IHe.
    + intros. by apply IHr.
Qed.

(** ** Functions *)

(** The last [end]: branches to the function's label go to the closing op. *)
Lemma func_end_back l c s s' :
  s.(st_ctrl) = [c] → c.(kind) = KFunc → end_arm E s = (Ok tt, s') → lab_of l c →
  l.(l_target) = u32 (len s.(st_code)) →
  s'.(st_ctrl) = [] ∧ len s'.(st_code) = len s.(st_code) + 1 ∧
  bk [l] [] s [] [] s' (ops_at (len s.(st_code)) [mkCuOp OP_END_FUNC E.(e_n_results) 0]).
Proof.
  intros Hk Hf H Hlab Htgt. unfold end_arm in H.
  apply bind_Ok in H as (c0 & s0 & Hp & H). unfold pop_ctrl in Hp. rewrite Hk in Hp.
  injection Hp as <- <-. apply bind_Ok in H as (join & s1 & Hj & H).
  rewrite bool_decide_eq_true_2 in Hj by done. apply emit_inv in Hj as [-> Hs1].
  apply bind_Ok in H as ([] & s2 & H1 & H). apply bind_Ok in H as ([] & s3 & H2 & H). injection H as <-.
  unfold patch_if in H1. rewrite bool_decide_eq_false_2 in H1 by (by rewrite Hf). injection H1 as <-.
  change (len (st_code (set_ctrl [] s))) with (len s.(st_code)) in *.
  destruct (patch_all_back [] [] _ _ _ _ H2) as [[L1 L2 _ _ _] B3].
  assert (len s1.(st_code) = len s.(st_code) + 1 ∧ s1.(st_ctrl) = []) as [El Ek]
    by (subst s1; by rewrite len_snoc).
  split_and!; [by rewrite <-Ek|simpl; congruence|].
  assert (fill_of l c = (fun p => (p, u32 (len s.(st_code)))) <$> c.(patches)) as HF.
  { unfold fill_of, test_hole. rewrite bool_decide_eq_false_2 by (by rewrite Hf).
    rewrite Htgt. apply app_nil_r. }
  pose proof (bk_pop [] [] s c [] l Hk Hlab) as B1. rewrite HF in B1.
  pose proof (bk_snoc [] (((fun p => (p, u32 (len s.(st_code)))) <$> c.(patches)) ++ []) (set_ctrl [] s)
    (mkCuOp OP_END_FUNC E.(e_n_results) 0)) as B2. rewrite <-Hs1 in B2.
  eapply bk_mono; [exact (bk_trans _ _ _ _ _ _ _ _ _ _ _ B1 (bk_trans _ _ _ _ _ _ _ _ _ _ _ B2
    (bk_trans _ _ _ _ _ _ _ _ _ _ _ B3 (bk_ext [] [] s3
      (set_dead (dead_on_entry c) (set_h (i32 (base c + c_n_results c)) s3)) eq_refl eq_refl ltac:(done)))))|].
  intros (_ & HO & _). exact HO.
Qed.

(** The pass over a whole body, started on [code] and [consts]. *)
Lemma body_back body code consts s' :
  forallb tree_ok body = true →
  lower_body E (flatten body ++ [End])
    (mkLState code consts 0 false [func_ctrl (u32 (len code)) E.(e_n_results)]) = (Ok tt, s') →
  len s'.(st_code) < 2 ^ 32 → s'.(st_code) `prefix_of` C → s'.(st_consts) `prefix_of` K →
  ∃ p, len s'.(st_code) = p + 1 ∧ len code ≤ p ∧
    code_for E C K [mkLab p 0 E.(e_n_results) 0] 0 body (len code) p ∧
    ops_at p [mkCuOp OP_END_FUNC E.(e_n_results) 0].
Proof using Hpool.
  intros Hok H Hsm HC HK. apply bind_Ok in H as ([] & s2 & H & Hfin).
  assert (s2 = s') as ->.
  { apply bind_Ok in Hfin as (k & s3 & Hk & Hfin). injection Hk as <- <-.
    destruct (st_ctrl s2); [by injection Hfin|done]. }
  apply for_each_app in H as (s1 & H1 & H). apply bind_Ok in H as ([] & s3 & H2 & H). injection H as <-.
  set (s0 := mkLState code consts 0 false _) in *. set (c := func_ctrl _ _) in *.
  assert (∀ labs X, tree_lowered body labs X s0 s1) as HT by (intros; by apply tree_back).
  pose proof (tl_ctrl _ _ _ _ _ (HT [] [])) as Hcore.
  destruct (core_cons _ c [] Hcore) as (c1 & k1 & Hk & Hc1 & Hk1). apply fmap_nil_inv in Hk1 as ->.
  set (l := mkLab (u32 (len s1.(st_code))) 0 E.(e_n_results) 0).
  assert (lab_of l c) as Hlab by by split.
  destruct (func_end_back l c1 s1 s3 Hk) as (Hk3 & El & B2); [by injection Hc1|done|by eapply core_eq|done|].
  pose proof (bk_trans _ _ _ _ _ _ _ _ _ _ _ (tl_bk _ _ _ _ _ (HT [l] [])) B2) as [HL _ HB].
  pose proof (bk_len _ _ _ _ _ _ _ (tl_bk _ _ _ _ _ (HT [] []))) as HL1. simpl in HL1.
  pose proof (len_nonneg code). exists (len s1.(st_code)). split; [done|]. split; [done|].
  destruct HB as [_ HR]; [done|done|by split; [constructor|constructor]|].
  destruct HR as [_ [HQ HO]].
  - split.
    + rewrite Hk3. constructor.
    + rewrite Hk3. constructor.
    + intros i op Hi _. by eapply prefix_lookup_Some.
  - specialize (HQ eq_refl). unfold l in HQ. rewrite u32_id in HQ by lia. done.
Qed.
End blocks.

(** The environment [lower_operators] works in. *)
Definition body_env (ops : list Operator) (np nr nl : Z) (types : list FuncType) (typeidx : list Z)
    (n_imports : Z) (host_fn_ids : list Z) : FnEnv :=
  let '(nl', scratch) := reserve_scratch ops np nl in
  mkFnEnv np nr nl' scratch types typeidx n_imports host_fn_ids.

(** C10. The one-pass lowering with backpatching gives structured code: when a body, the
    operators of a tree of blocks, is lowered, the ops from its offset on are those the
    tree prescribes, block by block ([code_for]): every branch unwinds to the operand
    height of its label and targets the label's block (the start of a loop, the end of
    any other block), an [if] tests and skips to its [else] or its end, a [br_table] is
    a chain of tests on the scratch local, and the body is followed by its [end_func];
    also when more code and constants are added later. *)
Theorem lower_structured body np nr nl code consts types typeidx ni ids meta code' consts' C K :
  forallb tree_ok body = true →
  lower_operators (flatten body ++ [End]) np nr nl code consts types typeidx ni ids =
    (Ok meta, (code', consts')) →
  len code' < 2 ^ 32 → len K < 2 ^ 32 → code' `prefix_of` C → consts' `prefix_of` K →
  let E := body_env (flatten body ++ [End]) np nr nl types typeidx ni ids in
  meta.(fm_code_off) = len code ∧ ∃ p, len code' = p + 1 ∧ len code ≤ p ∧
    code_for E C K [mkLab p 0 nr 0] 0 body (len code) p ∧ ops_at C p [mkCuOp OP_END_FUNC nr 0].
Proof.
  intros Hok H Hsm HK HC HKp. cbv zeta. unfold body_env. unfold lower_operators in H.
  destruct (reserve_scratch _ _ _) as [nl' sc].
  set (E := mkFnEnv np nr nl' sc types typeidx ni ids) in *.
  destruct (lower_body _ _ _) as [[[]| |] s'] eqn:Hl; simplify_eq.
  destruct (body_back E C K HK body code consts s' Hok Hl Hsm HC HKp) as (p & Hp & Hle & Hcf & Ho).
  split; [|by exists p]. simpl. pose proof (len_nonneg code). apply u32_id. lia.
Qed.

(** Counts down in a loop, with an early exit through a [br_table] and an [if]. *)
Definition countdown_tree : list instr :=
  [IBlock BtEmpty
     [ILoop BtEmpty
        [Basic (LocalGet 0); Basic (BrTable 1 [Item 0; Item 1]);
         IIf BtEmpty [Basic Nop] None]];
   Basic (LocalGet 0); Basic (I32Const 7);
   IIf (BtType I32) [Basic (I32Const 1)] (Some [Basic (I32Const 3); Basic (LocalGet 0); Basic (BrIf 0)]);
   Basic Drop].

Definition countdown_out : outcome FuncMetaC * (list CuOpC * list Z) :=
  Eval vm_compute in lower_operators (flatten countdown_tree ++ [End]) 1 1 0 [mkCuOp OP_END_FUNC 0 0] [5] [] [] 0 [].

Lemma lower_structured_witness :
  let E := body_env (flatten countdown_tree ++ [End]) 1 1 0 [] [] 0 [] in
  let C := countdown_out.2.1 in
  ∃ p, len C = p + 1 ∧ 1 ≤ p ∧ code_for E C countdown_out.2.2 [mkLab p 0 1 0] 0 countdown_tree 1 p ∧
    ops_at C p [mkCuOp OP_END_FUNC 1 0].
Proof.
  destruct (lower_structured countdown_tree 1 1 0 [mkCuOp OP_END_FUNC 0 0] [5] [] [] 0 []
    (match countdown_out.1 with Ok meta => meta | _ => mkFuncMeta 0 0 0 0 0 0 end)
    countdown_out.2.1 countdown_out.2.2 countdown_out.2.1 countdown_out.2.2) as [_ H];
    [vm_compute; reflexivity|vm_compute; reflexivity|vm_compute; reflexivity|vm_compute; reflexivity
    |reflexivity|reflexivity|exact H].
Defined.
