(* ===== verification/EngineView.v ===== *)
(** * What a program can see of the machine

    A [View] is the part of the interpreter's state that determines a run: the program
    counter, the frame pointer, the live part of the two stacks and the shared data.
    [does] says what engine code does to a view and [goes] what a run does, host calls
    included; either may end early, as [T] allows, when one of the machine's bounds is
    reached. *)

From S2P Require Import Prelude Cuop Wasm Lower EnvTable Module ModuleSteps Engine EngineNum.
From S2P Require Import Verify VerifyFacts EngineInv Structured.
From stdpp Require Import base list strings.

Local Open Scope Z_scope.

Record View := mkView {
  v_pc : Z;
  v_fp : Z;
  v_frames : list Frame;
  v_stack : list Z;
  v_store : Store }.

Definition at_pc (x : Z) (v : View) : View :=
  mkView x v.(v_fp) v.(v_frames) v.(v_stack) v.(v_store).
Definition with_stack (x : list Z) (v : View) : View :=
  mkView v.(v_pc) v.(v_fp) v.(v_frames) x v.(v_store).
Definition with_store (x : Store) (v : View) : View :=
  mkView v.(v_pc) v.(v_fp) v.(v_frames) v.(v_stack) x.

Record sees (m : Machine) (v : View) : Prop := mkSees {
  se_pc : m.(pc) = v.(v_pc);
  se_fp : m.(fp) = v.(v_fp);
  se_csp : m.(csp) = len v.(v_frames);
  se_frames : v.(v_frames) `prefix_of` m.(frames);
  se_frames_len : len m.(frames) = FRAME_CAP;
  se_sp : m.(sp) = len v.(v_stack);
  se_stack : v.(v_stack) `prefix_of` m.(stack);
  se_stack_len : len m.(stack) = STACK_CAP;
  se_globals : m.(globals) = v.(v_store).(s_globals);
  se_memory : m.(memory) = v.(v_store).(s_memory);
  se_msize : m.(msize) = v.(v_store).(s_msize);
  se_live : m.(live) = v.(v_store).(s_live);
  se_box : m.(mb) = v.(v_store).(s_box) }.

Lemma prefix_length_Z {A} (l k : list A) : l `prefix_of` k → len l ≤ len k.
Proof. intros [r ->]. autorewrite with len. pose proof (len_nonneg r). lia. Qed.

Lemma sees_cap m v : sees m v → len v.(v_stack) ≤ STACK_CAP.
Proof. intros H. rewrite <-(se_stack_len m v H). apply prefix_length_Z, H. Qed.

(** The machine has run into one of its bounds. *)
Definition exhausted (s : Status) (m : Machine) : Prop :=
  match s with
  | ST_TRAP_STACK_OVERFLOW => STACK_CAP ≤ m.(sp)
  | ST_TRAP_CALL_DEPTH => FRAME_CAP ≤ m.(csp)
  | ST_OUT_OF_FUEL => m.(fuel) ≤ 0
  | _ => False
  end.

(** ** The host *)

(** A host function, and the world it starts in. *)
Class World := mkWorld {
  wd_type : Type;
  wd_host : HostFn wd_type;
  wd_init : wd_type }.

Section world.
Context {WD : World}.

(** The world after the calls of a trace. *)
Fixpoint world (tr : Trace) : wd_type :=
  match tr with
  | [] => wd_init
  | (box, mem) :: tr => (wd_host box mem (world tr)).2
  end.

(** The host function as an environment of the reference semantics. *)
Definition env_of : Env := fun tr box mem => (wd_host box mem (world tr)).1.

(** ** Runs *)

(** A run with its host calls: still going, stopped, or undefined. *)
Inductive sys_end :=
  | More (w : wd_type) (m : Machine)
  | Halt (s : Status) (w : wd_type) (m : Machine)
  | Broken.

(** The host's answer to a pending call, and the results on the stack. *)
Definition resume (size : Z) (w : wd_type) (m : Machine) : sys_end :=
  let '(ok, box, mem, w') := wd_host m.(mb) m.(memory) w in
  let m := upd_memory mem (upd_mb box m) in
  if negb ok then Halt ST_UNSUPPORTED_OP w' m
  else
    match push_results 0 (Z.to_nat box.(mb_n_results)) m with
    | (Val _, m') => More w' (upd_msize size m')
    | (Trap s, m') => Halt s w' m'
    | (UB _, _) => Broken
    end.

Fixpoint sys (M : HostModule) (n : nat) (w : wd_type) (m : Machine) : sys_end :=
  match n with
  | O => More w m
  | S n =>
      match step M m with
      | (Val _, m') => sys M n w m'
      | (Trap ST_HOSTCALL_PENDING, m') =>
          match resume M.(hm_mem_size) w m' with More w' m'' => sys M n w' m'' | e => e end
      | (Trap s, m') => Halt s w m'
      | (UB _, _) => Broken
      end
  end.
End world.

(** How a run may end: always at a bound, never waiting for the host. *)
Record ends (T : Trace → Status → Machine → Prop) : Prop := {
  en_out : ∀ tr s m, exhausted s m → T tr s m;
  en_host : ∀ tr m, ¬ T tr ST_HOSTCALL_PENDING m }.

Section view.
Context {WD : World} (M : HostModule) (T : Trace → Status → Machine → Prop) (HT : ends T).

(** The trace of a view. *)
Definition past (v : View) : Trace := v.(v_store).(s_trace).

(** Seen after engine code, which calls no host. *)
Definition seen (tr : Trace) (Q : View → Prop) (m : Machine) : Prop := ∃ v, sees m v ∧ past v = tr ∧ Q v.

(** Engine code from a view. *)
Definition does {A} (c : EM A) (v : View) (Q : A → View → Prop) : Prop :=
  ∀ m, sees m v → ewp c (fun a => seen (past v) (Q a)) (T (past v)) m.

(** A run from a view. *)
Definition goes (v : View) (Q : View → Prop) : Prop :=
  ∀ m, sees m v → ∃ n,
    match sys M n (world (past v)) m with
    | More w m' => ∃ v', sees m' v' ∧ w = world (past v') ∧ Q v'
    | Halt s w m' => ∃ tr, w = world tr ∧ T tr s m'
    | Broken => False
    end.

(** A run of at least one op. *)
Definition goes1 (v : View) (Q : View → Prop) : Prop :=
  ∀ m, sees m v → ∃ n,
    match sys M (S n) (world (past v)) m with
    | More w m' => ∃ v', sees m' v' ∧ w = world (past v') ∧ Q v'
    | Halt s w m' => ∃ tr, w = world tr ∧ T tr s m'
    | Broken => False
    end.

(** ** Rules *)

Lemma goes1_goes v Q : goes1 v Q → goes v Q.
Proof. intros H m Hm. destruct (H m Hm) as [n Hn]. by exists (S n). Qed.

Lemma does_ret {A} (a : A) v (Q : A → View → Prop) : Q a v → does (mret a) v Q.
Proof. intros HQ m Hm. by exists v. Qed.

Lemma does_bind {A B} (c : EM A) (k : A → EM B) v P Q :
  does c v P → (∀ a v', P a v' → does (k a) v' Q) → does (c ≫= k) v Q.
Proof.
  intros Hc Hk m Hm. apply ewp_bind. eapply ewp_mono; [by apply Hc|].
  intros a m' (v' & Hm' & Hp & HP). rewrite <-Hp. by apply (Hk a v').
Qed.

Lemma does_mono {A} (c : EM A) v (P Q : A → View → Prop) :
  does c v P → (∀ a v', P a v' → Q a v') → does c v Q.
Proof.
  intros Hc HPQ m Hm. eapply ewp_mono; [by apply Hc|]. intros a m' (v' & ? & ? & ?). exists v'. auto.
Qed.

Lemma does_trap {A} s v (Q : A → View → Prop) : (∀ m, T (past v) s m) → does (trap s) v Q.
Proof. intros H m _. apply H. Qed.

Lemma does_trap_if {B} (b : bool) s (k : unit → EM B) v Q :
  (b = true → ∀ m, sees m v → T (past v) s m) → (b = false → does (k tt) v Q) → does (trap_if b s ≫= k) v Q.
Proof.
  intros Ht Hf m Hm. apply ewp_trap_if; intros Hb; [by apply (Ht Hb)|by apply (Hf Hb)].
Qed.

Lemma does_get {A B} (f : Machine → A) (k : A → EM B) v Q x :
  (∀ m, sees m v → f m = x) → does (k x) v Q → does (get f ≫= k) v Q.
Proof. intros Hf Hk m Hm. apply ewp_bind. unfold ewp, get. rewrite (Hf m Hm). by apply Hk. Qed.

Lemma does_put (f : Machine → Machine) v v' (Q : unit → View → Prop) :
  (∀ m, sees m v → sees (f m) v') → Q tt v' → past v' = past v → does (put f) v Q.
Proof. intros Hf HQ Hp m Hm. exists v'. auto. Qed.

Lemma does_put_bind {B} (f : Machine → Machine) (k : unit → EM B) v v' Q :
  (∀ m, sees m v → sees (f m) v') → does (k tt) v' Q → past v' = past v → does (put f ≫= k) v Q.
Proof. intros Hf Hk Hp m Hm. apply ewp_bind. unfold ewp, put. rewrite <-Hp. by apply Hk, Hf. Qed.

Lemma does_rd {B C} w (l : list C) i x (k : C → EM B) v Q :
  index l i = Some x → does (k x) v Q → does (rd w l i ≫= k) v Q.
Proof. intros Hi Hk m Hm. apply ewp_bind. unfold rd. rewrite Hi. by apply Hk. Qed.

Lemma goes_here v (Q : View → Prop) : Q v → goes v Q.
Proof. intros HQ m Hm. exists 0%nat. by exists v. Qed.

Lemma sys_add n k w m :
  sys M (n + k) w m = match sys M n w m with More w' m' => sys M k w' m' | e => e end.
Proof.
  revert w m. induction n as [|n IH]; intros w m; [done|]. simpl.
  destruct (step M m) as [[|s|] m']; [apply IH| |done]. destruct s; try done.
  destruct (resume _ _ _); [apply IH|done|done].
Qed.

Lemma goes_bind v P Q : goes v P → (∀ v', P v' → goes v' Q) → goes v Q.
Proof.
  intros H1 H2 m Hm. destruct (H1 m Hm) as [n Hn]. destruct (sys M n _ m) as [w m'|s w m'|] eqn:E.
  - destruct Hn as (v' & Hm' & -> & HP). destruct (H2 v' HP m' Hm') as [k Hk]. exists (n + k)%nat.
    by rewrite sys_add, E.
  - exists n. by rewrite E.
  - done.
Qed.

(** The same with an op in the first stretch, or in the second. *)
Lemma goes1_bind v P Q : goes1 v P → (∀ v', P v' → goes v' Q) → goes1 v Q.
Proof.
  intros H1 H2 m Hm. destruct (H1 m Hm) as [n Hn]. destruct (sys M (S n) _ m) as [w m'|s w m'|] eqn:E.
  - destruct Hn as (v' & Hm' & -> & HP). destruct (H2 v' HP m' Hm') as [k Hk]. exists (n + k)%nat.
    by rewrite <-Nat.add_succ_l, sys_add, E.
  - exists n. by rewrite E.
  - done.
Qed.

Lemma goes_goes1 v P Q : goes v P → (∀ v', P v' → goes1 v' Q) → goes1 v Q.
Proof.
  intros H1 H2 m Hm. destruct (H1 m Hm) as [n Hn]. destruct (sys M n _ m) as [w m'|s w m'|] eqn:E.
  - destruct Hn as (v' & Hm' & -> & HP). destruct (H2 v' HP m' Hm') as [k Hk]. exists (n + k)%nat.
    by rewrite <-Nat.add_succ_r, sys_add, E.
  - exists n. by rewrite <-Nat.add_1_r, sys_add, E.
  - done.
Qed.

Lemma goes_mono v (P Q : View → Prop) : goes v P → (∀ v', P v' → Q v') → goes v Q.
Proof. intros H HPQ. eapply goes_bind; [exact H|]. intros. by apply goes_here, HPQ. Qed.

(** One op. *)
Lemma goes1_op in_ v P Q :
  index M.(hm_code) v.(v_pc) = Some in_ → v.(v_pc) + 1 < 2 ^ 32 →
  does (exec M in_) (at_pc (v.(v_pc) + 1) v) (fun _ => P) → (∀ v', P v' → goes v' Q) → goes1 v Q.
Proof.
  intros Hi Hpc Hd Hk m Hm. pose proof (index_lt _ _ _ Hi) as [H0 Hlt].
  assert (ewp (step M) (fun _ => seen (past v) P) (T (past v)) m) as Hs.
  { unfold step. apply ewp_bind. unfold ewp, get. rewrite (se_pc m v Hm).
    apply ewp_trap_if; [lia|intros _]. apply ewp_bind. unfold rd, ewp. rewrite Hi.
    apply ewp_bind. unfold ewp, put. rewrite u32_id by lia.
    eapply ewp_seq; [apply Hd|].
    - destruct Hm. by split.
    - intros _ m1 (v1 & Hm1 & Hp1 & HP). apply ewp_bind. unfold ewp, get. pose proof (sees_cap _ _ Hm1).
      rewrite (se_sp _ _ Hm1). unfold trap_if. replace (STACK_CAP <? _) with false by lia.
      by exists v1. }
  unfold ewp in Hs. destruct (step M m) as [[[]|s|w] m'] eqn:E; [| |done].
  - destruct Hs as (v' & Hm' & Hp & HP). destruct (Hk v' HP m' Hm') as [n Hn]. exists n. simpl.
    rewrite E, <-Hp. exact Hn.
  - exists 0%nat. simpl. rewrite E. destruct s; try by exists (past v). by destruct (en_host _ HT (past v) m').
Qed.

Lemma goes_op in_ v P Q :
  index M.(hm_code) v.(v_pc) = Some in_ → v.(v_pc) + 1 < 2 ^ 32 →
  does (exec M in_) (at_pc (v.(v_pc) + 1) v) (fun _ => P) → (∀ v', P v' → goes v' Q) → goes v Q.
Proof using HT. intros. by eapply goes1_goes, goes1_op. Qed.

(** ** The stack *)

Lemma does_stack_at {B} i x (k : Z → EM B) v Q :
  index v.(v_stack) i = Some x → does (k x) v Q → does (stack_at i ≫= k) v Q.
Proof.
  intros Hi Hk m Hm. apply ewp_bind. unfold stack_at. apply ewp_bind. unfold ewp at 1, get.
  apply index_Some in Hi as [H0 Hi]. pose proof (prefix_lookup_Some _ _ _ _ Hi (se_stack m v Hm)) as Hi'.
  unfold rd. replace (index m.(stack) i) with (Some x) by (symmetry; by apply index_Some).
  by apply Hk.
Qed.

Lemma insert_prefix {A} (l k : list A) i x : l `prefix_of` k → <[i:=x]> l `prefix_of` <[i:=x]> k ∨ (length l ≤ i)%nat.
Proof.
  intros [r ->]. destruct (decide (i < length l)%nat) as [H|H]; [left|right; lia].
  rewrite insert_app_l by done. by apply prefix_app_r.
Qed.

Lemma does_stack_set i x v (Q : unit → View → Prop) :
  in_range v.(v_stack) i = true → Q tt (with_stack (<[Z.to_nat i := x]> v.(v_stack)) v) →
  does (stack_set i x) v Q.
Proof.
  intros Hr HQ. unfold stack_set. intros m Hm. apply ewp_bind. unfold ewp, get.
  unfold in_range in Hr. apply andb_true_iff in Hr as [H0 H1]. apply Z.leb_le in H0. apply Z.ltb_lt in H1.
  pose proof (sees_cap _ _ Hm). unfold in_range. rewrite (se_stack_len _ _ Hm).
  replace ((0 <=? i) && (i <? STACK_CAP)) with true by lia.
  eexists. split; [|split; [|exact HQ]]; [|done]. destruct Hm. split; simpl; try done.
  - by rewrite len_insert.
  - destruct (insert_prefix v.(v_stack) m.(stack) (Z.to_nat i) x) as [|Hl]; [done..|]. unfold len in *. lia.
  - by rewrite len_insert.
Qed.

Lemma does_pop {B} (k : Z → EM B) v L x Q :
  v.(v_stack) = L ++ [x] → does (k x) (with_stack L v) Q → does (pop ≫= k) v Q.
Proof.
  intros HL Hk m Hm. apply ewp_bind. unfold pop. apply ewp_bind. unfold ewp at 1, get.
  pose proof (sees_cap _ _ Hm) as Hc. pose proof (len_nonneg L).
  rewrite HL in Hc. autorewrite with len in Hc. unfold STACK_CAP in Hc.
  assert (m.(sp) - 1 = len L) as Hsp by (rewrite (se_sp _ _ Hm), HL; autorewrite with len; lia).
  rewrite Hsp, u32_id by lia. apply ewp_bind. unfold ewp at 1, put. unfold stack_at. apply ewp_bind.
  unfold ewp at 1, get. unfold rd.
  assert (index (stack (upd_sp (len L) m)) (len L) = Some x) as ->.
  { apply index_Some. split; [done|]. simpl. eapply prefix_lookup_Some; [|apply Hm].
    rewrite HL. unfold len. rewrite Nat2Z.id. by apply list_lookup_middle. }
  apply Hk. destruct Hm. split; simpl; try done. etrans; [|exact se_stack0]. rewrite HL. by apply prefix_app_r.
Qed.

(** A value stored at the stack pointer. *)
Lemma sees_push x m v :
  sees m v → len v.(v_stack) < STACK_CAP →
  sees (upd_sp (u32 (len v.(v_stack) + 1)) (upd_stack (<[Z.to_nat (len v.(v_stack)) := x]> m.(stack)) m))
    (with_stack (v.(v_stack) ++ [x]) v).
Proof.
  intros [] Hc. pose proof (len_nonneg v.(v_stack)). unfold STACK_CAP in *. split; simpl; try done.
  - rewrite u32_id by lia. by autorewrite with len.
  - destruct se_stack0 as [r Hr]. rewrite Hr. unfold len. rewrite Nat2Z.id.
    rewrite insert_app_r_alt, Nat.sub_diag by lia. destruct r as [|y r].
    + rewrite (right_id_L [] (++)) in Hr. rewrite <-Hr in *. lia.
    + simpl. exists r. by rewrite <-app_assoc.
  - by rewrite len_insert.
Qed.

Lemma does_push x v (Q : unit → View → Prop) :
  Q tt (with_stack (v.(v_stack) ++ [u64 x]) v) → does (push x) v Q.
Proof using HT.
  intros HQ m Hm. unfold push. apply ewp_bind. unfold ewp at 1, get. rewrite (se_sp _ _ Hm).
  pose proof (len_nonneg v.(v_stack)).
  destruct (STACK_CAP <=? len (v_stack v)) eqn:Hc.
  { apply (en_out _ HT). simpl. rewrite (se_sp _ _ Hm). lia. }
  unfold stack_set. apply ewp_bind. apply ewp_bind. unfold ewp at 1, get. unfold in_range.
  rewrite (se_stack_len _ _ Hm). replace ((0 <=? _) && _) with true by lia.
  unfold ewp, put. eexists. split; [|split; [|exact HQ]]; [|done]. apply sees_push; [done|lia].
Qed.

Lemma does_push_bind {B} x v (k : unit → EM B) Q :
  does (k tt) (with_stack (v.(v_stack) ++ [u64 x]) v) Q → does (push x ≫= k) v Q.
Proof using HT.
  intros Hk. eapply (does_bind _ _ _ (fun _ v' => v' = with_stack (v.(v_stack) ++ [u64 x]) v)).
  - by apply does_push.
  - by intros [] v' ->.
Qed.
End view.
