(* ===== verification/ViewCalls.v ===== *)
(** * Frames, unwinding and moves of the stack, from a view *)

From S2P Require Import Prelude Cuop Wasm Lower EnvTable Module ModuleSteps Engine EngineNum.
From S2P Require Import Verify VerifyFacts EngineInv Structured EngineView.
From stdpp Require Import base list strings.

Local Open Scope Z_scope.

Section calls.
Context {WD : World} (M : HostModule) (T : Trace → Status → Machine → Prop) (HT : ends T).

Abbreviation does := (does T).

(** ** Moving values down *)

(** [n] values from [src] on, moved to [dst]. *)
Definition moved_down (L : list Z) (dst src : nat) (n : nat) : list Z :=
  take dst L ++ take n (drop src L) ++ drop (dst + n) L.

Lemma moved_down_0 L dst src : moved_down L dst src 0 = L.
Proof. unfold moved_down. simpl. by rewrite Nat.add_0_r, take_drop. Qed.

Lemma moved_down_step L dst src n x :
  (dst ≤ src)%nat → (src + n < length L)%nat → L !! src = Some x →
  moved_down (<[dst := x]> L) (S dst) (S src) n = moved_down L dst src (S n).
Proof.
  intros Hd Hl Hx. unfold moved_down.
  rewrite (take_S_r _ dst x) by (apply list_lookup_insert_eq; lia).
  rewrite take_insert_ge by lia. rewrite (drop_insert_lt _ (S src)) by lia.
  rewrite (drop_insert_lt _ (S dst + n)) by lia. rewrite (drop_S _ _ _ Hx). simpl.
  rewrite <-app_assoc. simpl. do 3 f_equal. f_equal. lia.
Qed.

Lemma does_copy_up n dst src i v (Q : unit → View → Prop) :
  0 ≤ dst ≤ src → 0 ≤ i → src + i + Z.of_nat n ≤ len v.(v_stack) →
  Q tt (with_stack (moved_down v.(v_stack) (Z.to_nat (dst + i)) (Z.to_nat (src + i)) n) v) →
  does (copy_up stack_at stack_set dst src i n) v Q.
Proof.
  revert i v. induction n as [|n IH]; intros i v Hd Hi Hl HQ.
  - rewrite moved_down_0 in HQ. apply does_ret. by destruct v.
  - cbn [copy_up]. destruct (index_is_Some v.(v_stack) (src + i)) as [x Hx]; [lia|].
    eapply does_stack_at; [exact Hx|]. apply index_Some in Hx as [_ Hx].
    eapply (does_bind _ _ _ _ (fun _ v' => v' = with_stack (<[Z.to_nat (dst + i) := x]> v.(v_stack)) v)).
    + apply does_stack_set; [unfold in_range; lia|done].
    + intros [] v' ->. apply IH; [done|lia|simpl; rewrite len_insert; lia|].
      unfold with_stack in *. simpl. replace (Z.to_nat (dst + (i + 1))) with (S (Z.to_nat (dst + i))) by lia.
      replace (Z.to_nat (src + (i + 1))) with (S (Z.to_nat (src + i))) by lia.
      rewrite moved_down_step; [exact HQ|lia|unfold len in Hl; lia|done].
Qed.

Lemma moved_down_top (L mid rs : list Z) :
  take (length L + length rs) (moved_down (L ++ mid ++ rs) (length L) (length L + length mid) (length rs)) = L ++ rs.
Proof.
  unfold moved_down. rewrite take_app_length. rewrite drop_app_add', drop_app_length by done.
  rewrite (take_ge rs) by done. rewrite app_assoc. apply take_app_length'. by rewrite length_app.
Qed.

Lemma does_move_down (L mid rs : list Z) v (Q : unit → View → Prop) :
  v.(v_stack) = L ++ mid ++ rs →
  (∀ L', take (length L + length rs) L' = L ++ rs → Q tt (with_stack L' v)) →
  does (stack_move (len L) (len L + len mid) (len rs)) v Q.
Proof.
  intros Hv HQ. unfold stack_move, move_within. pose proof (len_nonneg L). pose proof (len_nonneg mid).
  replace (len L <=? len L + len mid) with true by lia. pose proof (len_nonneg rs).
  apply does_copy_up; [lia|done|rewrite Hv; autorewrite with len; lia|].
  rewrite Hv, !Z.add_0_r. apply HQ. unfold len. rewrite Nat2Z.id, Z2Nat.inj_add, !Nat2Z.id by lia.
  apply moved_down_top.
Qed.

(** The stack pointer lowered. *)
Lemma sees_lower L m v :
  sees m v → take (length L) v.(v_stack) = L → sees (upd_sp (len L) m) (with_stack L v).
Proof.
  intros [] HL. split; simpl; try done. etrans; [|exact se_stack]. rewrite <-HL. apply prefix_take.
Qed.

(** ** [OP_UNWIND] *)

Lemma does_unwind (lo ls os1 mid os2 : list Z) pc frs st a b (Q : unit → View → Prop) :
  a = len os2 → b = len ls + len os1 + len os2 →
  Q tt (mkView pc (len lo) frs (lo ++ ls ++ os1 ++ os2) st) →
  does (exec M (mkCuOp OP_UNWIND a b)) (mkView pc (len lo) frs (lo ++ ls ++ os1 ++ mid ++ os2) st) Q.
Proof.
  intros -> -> HQ. set (v := mkView _ _ _ _ _).
  intros m Hm. pose proof (sees_cap _ _ Hm) as Hc. revert m Hm.
  change (does (exec_unwind (len os2) (len ls + len os1 + len os2)) v Q). simpl in Hc.
  autorewrite with len in Hc. unfold STACK_CAP in Hc.
  pose proof (len_nonneg lo). pose proof (len_nonneg ls). pose proof (len_nonneg os1).
  pose proof (len_nonneg mid). pose proof (len_nonneg os2).
  unfold exec_unwind. eapply does_get; [intros m Hm; apply Hm|]. eapply does_get; [intros m Hm; apply Hm|].
  simpl. rewrite u32_id by lia. autorewrite with len.
  apply does_trap_if; [intros ?; lia|intros _]. apply does_trap_if; [unfold STACK_CAP; intros ?; lia|intros _].
  set (L := lo ++ ls ++ os1).
  assert (len L = len lo + len ls + len os1) as HL by (unfold L; autorewrite with len; lia).
  eapply (does_bind _ _ _ _ (fun _ v' => ∃ L', take (length L + length os2) L' = L ++ os2 ∧ v' = with_stack L' v)).
  - destruct (_ =? _) eqn:He.
    + apply does_ret. exists v.(v_stack). split; [|by destruct v].
      assert (mid = []) as -> by (destruct mid; [done|]; autorewrite with len in He; pose proof (len_nonneg mid); lia).
      simpl. rewrite take_ge; unfold L; [by rewrite <-!app_assoc|]. rewrite !length_app. lia.
    + replace (len lo + (len ls + len os1 + len os2) - len os2) with (len L) by lia.
      replace (len lo + (len ls + (len os1 + (len mid + len os2))) - len os2) with (len L + len mid) by lia.
      eapply does_move_down; [unfold v, L; simpl; by rewrite <-!app_assoc|]. eauto.
  - intros [] v' (L' & HL' & ->). eapply does_put; [|exact HQ|done]. intros m Hm.
    replace (len lo + (len ls + len os1 + len os2)) with (len (L ++ os2)) by (autorewrite with len; lia).
    replace (mkView _ _ _ _ _) with (with_stack (L ++ os2) (with_stack L' v)).
    + apply sees_lower; [done|]. simpl. by rewrite length_app.
    + unfold with_stack, v, L. simpl. by rewrite <-!app_assoc.
Qed.

(** ** Branches *)

Lemma does_br a b v (Q : unit → View → Prop) :
  Q tt (at_pc b v) → does (exec M (mkCuOp OP_BR a b)) v Q.
Proof using HT.
  intros HQ. change (exec M (mkCuOp OP_BR a b)) with (exec_br b). unfold exec_br.
  eapply does_get; [intros m Hm; apply Hm|].
  eapply (does_bind _ _ _ _ (fun _ v' => v' = v)).
  - destruct (b <=? v_pc v); [|by apply does_ret]. intros m Hm. apply ewp_bind. unfold ewp at 1, get.
    apply ewp_bind. unfold ewp at 1, put. unfold trap_if.
    destruct (_ <=? 0) eqn:Hf.
    + apply (en_out _ HT). simpl. lia.
    + exists v. split; [|done]. destruct Hm. by split.
  - intros [] v' ->. eapply does_put; [|exact HQ|done]. intros m []. by split.
Qed.

Lemma does_br_if_not a b x L v (Q : unit → View → Prop) :
  v.(v_stack) = L ++ [x] →
  Q tt (if w32 x =? 0 then at_pc b (with_stack L v) else with_stack L v) →
  does (exec M (mkCuOp OP_BR_IF_NOT a b)) v Q.
Proof.
  intros Hv HQ. change (exec M (mkCuOp OP_BR_IF_NOT a b)) with
    (x ← pop; if u32 x =? 0 then put (upd_pc b) else mret tt).
  eapply does_pop; [exact Hv|]. change (u32 x) with (w32 x). destruct (w32 x =? 0).
  - eapply does_put; [|exact HQ|done]. intros m []. by split.
  - by apply does_ret.
Qed.

(** ** Calls *)

Lemma does_push_zeros n v (Q : unit → View → Prop) :
  Q tt (with_stack (v.(v_stack) ++ replicate n 0) v) → does (push_zeros n) v Q.
Proof using HT.
  revert v. induction n as [|n IH]; intros v HQ.
  - apply does_ret. simpl in HQ. rewrite (right_id_L [] (++)) in HQ. by destruct v.
  - simpl. apply does_push_bind; [done|]. apply IH. unfold with_stack in *. simpl in *.
    by rewrite <-app_assoc.
Qed.

Definition frame_of (f : FuncMetaC) (pc fp base : Z) : Frame := mkFrame pc fp base f.(fm_n_results).

Lemma does_enter f pc fp frs lo args st (Q : unit → View → Prop) :
  len args = f.(fm_n_params) →
  Q tt (mkView f.(fm_code_off) (len lo) (frs ++ [frame_of f pc fp (len lo)])
          (lo ++ args ++ replicate (Z.to_nat f.(fm_n_locals)) 0) st) →
  does (enter f) (mkView pc fp frs (lo ++ args) st) Q.
Proof using HT.
  intros Ha HQ. unfold enter. eapply does_get; [intros m Hm; apply Hm|].
  apply does_trap_if; [intros Hb m Hm; apply (en_out _ HT); simpl; rewrite (se_csp _ _ Hm); simpl in *; lia|].
  intros Hc. simpl in Hc. eapply does_get; [intros m Hm; apply Hm|]. simpl. autorewrite with len.
  pose proof (len_nonneg lo). pose proof (len_nonneg args). pose proof (len_nonneg frs).
  apply does_trap_if; [intros ?; lia|intros _].
  eapply does_get; [intros m Hm; apply Hm|]. eapply does_get; [intros m Hm; apply Hm|]. simpl.
  rewrite Ha. replace (len lo + fm_n_params f - fm_n_params f) with (len lo) by lia.
  set (fr := mkFrame _ _ _ _). set (v1 := mkView pc (len lo) (frs ++ [fr]) (lo ++ args) st).
  intros m Hm. apply ewp_bind. unfold ewp at 1, get. unfold in_range. rewrite (se_frames_len _ _ Hm).
  replace ((0 <=? len frs) && (len frs <? FRAME_CAP)) with true by lia.
  apply ewp_bind. unfold ewp at 1, put. apply ewp_bind. unfold ewp at 1, put.
  apply ewp_bind. unfold ewp at 1, get. apply ewp_bind. unfold ewp at 1, put.
  apply ewp_bind. unfold ewp at 1, put.
  set (m1 := upd_fp _ _).
  assert (sees m1 v1) as Hm1.
  { destruct Hm. split; simpl; try done.
    - by autorewrite with len.
    - destruct se_frames as [r Hr]. simpl in *. rewrite Hr. unfold len. rewrite Nat2Z.id.
      rewrite insert_app_r_alt, Nat.sub_diag by lia. destruct r as [|y r].
      + rewrite (right_id_L [] (++)) in Hr. rewrite Hr in se_frames_len. unfold FRAME_CAP in *. lia.
      + exists r. by rewrite <-app_assoc.
    - by rewrite len_insert. }
  revert Hm1. generalize m1. change (does (push_zeros (Z.to_nat f.(fm_n_locals));; put (upd_pc f.(fm_code_off))) v1 Q).
  eapply does_bind; [by apply (does_push_zeros _ v1 (fun _ v => v = with_stack (v1.(v_stack) ++ replicate (Z.to_nat f.(fm_n_locals)) 0) v1))|].
  intros [] v' ->. eapply does_put; [|exact HQ|done]. intros m2 [].
  simpl in *. rewrite <-app_assoc in *. by split.
Qed.

(** A tail call: the arguments move down to where the frame's locals were, and the frame
    is kept. *)
Lemma does_return_call f meta frs fr lo mid args pc st (Q : unit → View → Prop) :
  index M.(hm_funcs) f = Some meta → len args = meta.(fm_n_params) →
  fr.(fr_n_results) = meta.(fm_n_results) →
  Q tt (mkView meta.(fm_code_off) (len lo) (frs ++ [fr])
          (lo ++ args ++ replicate (Z.to_nat meta.(fm_n_locals)) 0) st) →
  does (exec_return_call M f) (mkView pc (len lo) (frs ++ [fr]) (lo ++ mid ++ args) st) Q.
Proof using HT.
  intros Hf Ha Hn HQ m0 Hm0. pose proof (sees_cap _ _ Hm0) as Hcap. revert m0 Hm0. simpl in Hcap.
  autorewrite with len in Hcap. unfold STACK_CAP in Hcap. set (v := mkView _ _ _ _ _).
  change (does (exec_return_call M f) v Q). pose proof (index_lt _ _ _ Hf).
  pose proof (len_nonneg lo). pose proof (len_nonneg mid). pose proof (len_nonneg args). pose proof (len_nonneg frs).
  unfold exec_return_call. apply does_trap_if; [lia|intros _]. eapply does_rd; [exact Hf|].
  eapply does_get; [intros m Hm; apply Hm|]. simpl. autorewrite with len. rewrite <-Ha.
  apply does_trap_if; [lia|intros _]. eapply does_get; [intros m Hm; apply Hm|]. simpl.
  replace (len lo + (len mid + len args) - len args) with (len lo + len mid) by lia.
  eapply (does_bind _ _ _ _ (fun _ v' => ∃ L', take (length lo + length args) L' = lo ++ args ∧ v' = with_stack L' v)).
  { eapply does_move_down; [reflexivity|]. eauto. }
  intros [] v' (L' & HL' & ->). eapply (does_put_bind _ _ _ _ (with_stack (lo ++ args) v)); [| |done].
  { intros m Hm. rewrite u32_id by lia. rewrite <-len_app. pose proof (sees_lower (lo ++ args) m _ Hm) as Hl.
    simpl in Hl. rewrite length_app in Hl. by apply Hl. }
  eapply does_bind; [by apply (does_push_zeros _ (with_stack (lo ++ args) v) (fun _ v' => v' =
    with_stack ((lo ++ args) ++ replicate (Z.to_nat meta.(fm_n_locals)) 0) v))|]. intros [] v1 ->.
  set (v1 := with_stack _ v). eapply does_get; [intros m Hm; apply Hm|]. simpl. autorewrite with len.
  replace (0 <? len frs + (0 + 1)) with true by lia.
  eapply (does_bind _ _ _ _ (fun _ v' => v' = v1)).
  - intros m Hm. apply ewp_bind. unfold ewp at 1, get.
    assert (index m.(frames) (len frs) = Some fr) as Hi.
    { apply index_Some. split; [done|]. unfold len. rewrite Nat2Z.id.
      eapply prefix_lookup_Some; [|apply Hm]. simpl. by apply list_lookup_middle. }
    replace (len frs + (0 + 1) - 1) with (len frs) by lia.
    apply ewp_bind. unfold ewp at 1, rd. rewrite Hi. exists v1. split; [|done].
    replace (mkFrame _ _ _ _) with fr by (rewrite <-Hn; by destruct fr).
    rewrite list_insert_id by (by apply index_Some in Hi as [_ Hi]). destruct Hm. by split.
  - intros [] v' ->. eapply does_put; [|exact HQ|done]. intros m []. simpl in *.
    rewrite <-app_assoc in *. by split.
Qed.

(** A return: the results move down to where the frame's locals were. *)
Lemma ewp_return m frs fr lo mid rs pc fp st (Q : unit → Machine → Prop) :
  sees m (mkView pc fp (frs ++ [fr]) (lo ++ mid ++ rs) st) → fr.(sp_base) = len lo → fr.(fr_n_results) = len rs →
  (∀ m', sees m' (mkView m'.(Engine.pc) fr.(fr_fp) frs (lo ++ rs) st) →
     if len frs =? 0 then T st.(s_trace) ST_OK m' else Q tt (upd_pc fr.(ret_pc) m')) →
  ewp exec_return Q (T st.(s_trace)) m.
Proof.
  intros Hm Hb Hn HQ. pose proof (len_nonneg frs). pose proof (len_nonneg lo). pose proof (len_nonneg mid).
  pose proof (len_nonneg rs). pose proof (sees_cap _ _ Hm) as Hcap. simpl in Hcap.
  autorewrite with len in Hcap. unfold STACK_CAP in Hcap.
  unfold exec_return. apply ewp_bind. unfold ewp at 1, get. rewrite (se_csp _ _ Hm). simpl.
  autorewrite with len. apply ewp_trap_if; [lia|intros _]. apply ewp_bind. unfold ewp at 1, put.
  replace (len frs + (0 + 1) - 1) with (len frs) by lia. set (m1 := upd_csp (len frs) m).
  apply ewp_bind. unfold ewp at 1, get. apply ewp_bind. unfold ewp at 1, rd.
  assert (index (frames m1) (len frs) = Some fr) as ->.
  { apply index_Some. split; [done|]. unfold len. rewrite Nat2Z.id.
    eapply prefix_lookup_Some; [|apply Hm]. simpl. by apply list_lookup_middle. }
  assert (sees m1 (mkView pc fp frs (lo ++ mid ++ rs) st)) as Hm1.
  { destruct Hm. split; simpl; try done. etrans; [|exact se_frames]. by apply prefix_app_r. }
  apply ewp_bind. unfold ewp at 1, get. rewrite (se_sp _ _ Hm1). simpl. autorewrite with len.
  rewrite Hn, Hb. apply ewp_trap_if; [lia|intros _].
  replace (len lo + (len mid + len rs) - len rs) with (len lo + len mid) by lia.
  eapply ewp_seq.
  { set (v := mkView pc fp frs (lo ++ mid ++ rs) st) in *.
    apply (does_move_down lo mid rs v (fun _ v' => ∃ L', take (length lo + length rs) L' = lo ++ rs ∧
      v' = with_stack L' v)); [done| |exact Hm1]. eauto. }
  intros [] m2 (v2 & Hm2 & _ & L' & HL' & ->). apply ewp_bind. unfold ewp at 1, put.
  rewrite u32_id by lia. apply ewp_bind. unfold ewp at 1, put.
  set (m3 := upd_fp _ _).
  assert (sees m3 (mkView m3.(Engine.pc) fr.(fr_fp) frs (lo ++ rs) st)) as Hm3.
  { pose proof (sees_lower (lo ++ rs) m2 _ Hm2) as Hl. simpl in Hl. rewrite length_app in Hl.
    destruct (Hl HL'). split; simpl in *; try done. by rewrite len_app. }
  specialize (HQ m3 Hm3). replace (len frs + 1 - 1 =? 0) with (len frs =? 0) in * by lia.
  destruct (len frs =? 0); exact HQ.
Qed.
End calls.
