(* ===== verification/ViewHost.v ===== *)
(** * Host calls, from a view

    [OP_CALL_HOST] suspends the interpreter with the arguments in the mailbox; the driver
    asks the host and pushes its results.  Together they answer a call as the
    environment of the reference semantics does. *)

From S2P Require Import Prelude Cuop Wasm Lower EnvTable Module ModuleSteps Engine EngineNum.
From S2P Require Import Verify VerifyFacts EngineInv Structured EngineView.
From stdpp Require Import base list strings.

Local Open Scope Z_scope.

(** ** The op *)

Lemma host_args_eq L vals rest m :
  m.(stack) = L ++ vals ++ rest → host_args (len L) (length vals) m = (Val vals, m).
Proof.
  revert L. induction vals as [|x vals IH]; intros L Hs; [done|]. cbn [length host_args].
  assert (index (L ++ (x :: vals) ++ rest) (len L) = Some x) as Hi.
  { apply index_Some. split; [apply len_nonneg|]. unfold len. rewrite Nat2Z.id. by apply list_lookup_middle. }
  assert (stack_at (len L) m = (Val x, m)) as Hx.
  { unfold stack_at, mbind, EM_bind, get, rd. by rewrite Hs, Hi. }
  unfold mbind, EM_bind. rewrite Hx. specialize (IH (L ++ [x])). rewrite <-app_assoc in IH.
  specialize (IH Hs). replace (len L + 1) with (len (L ++ [x])) by (autorewrite with len; lia). by rewrite IH.
Qed.

(** A mailbox with the arguments of a call in it. *)
Definition asked (id np nr : Z) (args : list Z) (box : HostMailbox) : HostMailbox :=
  mkMailbox id np nr (args ++ drop (length args) box.(mb_args)) box.(mb_results).

Definition with_box (box : HostMailbox) (st : Store) : Store :=
  mkStore st.(s_globals) st.(s_memory) st.(s_msize) st.(s_live) box st.(s_trace).

Lemma exec_host_suspends m pc fp frs L args st a id np nr :
  sees m (mkView pc fp frs (L ++ args) st) → Z.land a 255 = np → Z.land (Z.shiftr a 8) 255 = nr →
  np ≤ 16 → len args = np →
  ∃ m', exec_call_host a id m = (Trap ST_HOSTCALL_PENDING, m') ∧
    sees m' (mkView pc fp frs L (with_box (asked id np nr args st.(s_box)) st)).
Proof.
  intros Hm Hnp Hnr Hle Ha. set (v' := mkView pc fp frs L _).
  assert (ewp (exec_call_host a id) (fun _ _ => False) (fun s m' => s = ST_HOSTCALL_PENDING ∧ sees m' v') m) as He.
  2: { unfold ewp in He. destruct (exec_call_host a id m) as [[|s|] m']; [done| |done].
       destruct He as [-> He]. eauto. }
  unfold exec_call_host. rewrite Hnp, Hnr. pose proof (len_nonneg L). pose proof (len_nonneg args).
  assert (m.(sp) = len L + np) as Hsp by (rewrite (se_sp _ _ Hm); simpl; autorewrite with len; lia).
  apply ewp_trap_if; [lia|intros _]. apply ewp_bind. unfold ewp at 1, get. rewrite Hsp.
  apply ewp_trap_if; [lia|intros _]. replace (len L + np - np) with (len L) by lia.
  destruct (se_stack _ _ Hm) as [r Hr]. simpl in Hr. rewrite <-app_assoc in Hr.
  replace (Z.to_nat np) with (length args) by (unfold len in Ha; lia).
  apply ewp_bind. unfold ewp at 1. rewrite (host_args_eq _ _ _ _ Hr). apply ewp_bind. unfold ewp at 1, get.
  apply ewp_bind. unfold ewp at 1, put. apply ewp_bind. unfold ewp at 1, put. split; [done|].
  destruct Hm. split; simpl in *; try done.
  - exists (args ++ r). exact Hr.
  - unfold asked. by rewrite se_box.
Qed.

(** ** The answer *)

Section host.
Context {WD : World} (M : HostModule) (T : Trace → Status → Machine → Prop) (HT : ends T).

Lemma step_trap m v in_ s m' :
  sees m v → index M.(hm_code) v.(v_pc) = Some in_ → v.(v_pc) + 1 < 2 ^ 32 →
  exec M in_ (upd_pc (v.(v_pc) + 1) m) = (Trap s, m') → step M m = (Trap s, m').
Proof.
  intros Hm Hi Hpc He. pose proof (index_lt _ _ _ Hi) as [H0 Hlt].
  assert (ewp (step M) (fun _ _ => False) (fun s1 m1 => s1 = s ∧ m1 = m') m) as Hs.
  2: { unfold ewp in Hs. destruct (step M m) as [[|s1|] m1]; [done| |done]. by destruct Hs as [-> ->]. }
  unfold step. apply ewp_bind. unfold ewp at 1, get. rewrite (se_pc m v Hm).
  apply ewp_trap_if; [lia|intros _]. apply ewp_bind. unfold rd, ewp at 1. rewrite Hi.
  apply ewp_bind. unfold ewp at 1, put. rewrite u32_id by lia. apply ewp_bind. unfold ewp at 1. by rewrite He.
Qed.

(** The results of an answer on the stack. *)
Lemma push_results_sees box m v nr :
  sees m v → 0 ≤ nr → reply_ok v.(v_store).(s_memory) nr box v.(v_store).(s_memory) = true → m.(mb) = box →
  ewp (push_results 0 (Z.to_nat box.(mb_n_results)))
    (fun _ m' => sees m' (with_stack (v.(v_stack) ++ take (Z.to_nat nr) box.(mb_results)) v)) exhausted m.
Proof.
  intros Hm Hnr Hr Hbox. unfold reply_ok in Hr. rewrite !andb_true_iff in Hr.
  destruct Hr as [[[[[H1 H2] H3] H4] _] _]. apply Z.eqb_eq in H1 as ->. apply Z.leb_le in H2.
  destruct box.(mb_results) as [|x [|y l]] eqn:Hres; [done| |autorewrite with len in H3; pose proof (len_nonneg l); lia].
  destruct (decide (nr = 0)) as [->|Hne].
  - unfold ewp. simpl. rewrite app_nil_r. by destruct v.
  - assert (nr = 1) as -> by lia. change (Z.to_nat 1) with 1%nat. cbn [push_results].
    apply ewp_bind. unfold ewp at 1, get. rewrite (se_sp _ _ Hm).
    apply ewp_trap_if; [intros Hc; simpl; rewrite (se_sp _ _ Hm); lia|intros Hc].
    apply ewp_bind. unfold ewp at 1, get. apply ewp_bind. unfold ewp at 1, rd. rewrite Hbox, Hres. simpl.
    unfold store_next. apply ewp_bind. apply ewp_bind. unfold ewp at 1, get. rewrite (se_sp _ _ Hm).
    unfold stack_set. apply ewp_bind. apply ewp_bind. unfold ewp at 1, get. unfold in_range.
    rewrite (se_stack_len _ _ Hm). pose proof (len_nonneg v.(v_stack)).
    replace ((0 <=? _) && _) with true by lia. unfold ewp, put, mret, EM_ret.
    simpl in H4. rewrite (u64_id x) by (unfold in_u64; lia). apply sees_push; [done|lia].
Qed.

(** A call of the host's function [id] from the op at [pc]. *)
Lemma goes_call_host pc fp frs L args st a id np nr Q :
  index M.(hm_code) pc = Some (mkCuOp OP_CALL_HOST a id) → pc + 1 < 2 ^ 32 →
  Z.land a 255 = np → Z.land (Z.shiftr a 8) 255 = nr → np ≤ 16 → 0 ≤ nr → len args = np →
  st.(s_msize) = M.(hm_mem_size) →
  let box := asked id np nr args st.(s_box) in
  let '(ok, box', mem') := env_of st.(s_trace) box st.(s_memory) in
  let tr := (box, st.(s_memory)) :: st.(s_trace) in
  (if negb ok then ∀ m, T tr ST_UNSUPPORTED_OP m
   else reply_ok st.(s_memory) nr box' mem' = true ∧
     goes M T (mkView (pc + 1) fp frs (L ++ take (Z.to_nat nr) box'.(mb_results))
       (mkStore st.(s_globals) mem' st.(s_msize) st.(s_live) box' tr)) Q) →
  goes M T (mkView pc fp frs (L ++ args) st) Q.
Proof using HT.
  intros Hi Hpc Hnp Hnr Hle Hnr0 Ha Hsz. cbv zeta. set (box := asked _ _ _ _ _).
  destruct (env_of st.(s_trace) box st.(s_memory)) as [[ok box'] mem'] eqn:Henv. intros HQ m Hm.
  change (past (mkView pc fp frs (L ++ args) st)) with st.(s_trace).
  set (tr := (box, st.(s_memory)) :: st.(s_trace)) in *.
  destruct (exec_host_suspends (upd_pc (pc + 1) m) (pc + 1) fp frs L args st a id np nr) as (m1 & Hx & Hm1);
    [destruct Hm; by split|done..|].
  pose proof (step_trap m _ _ _ _ Hm Hi Hpc Hx) as Hstep. fold box in Hm1.
  assert (∃ w', wd_host m1.(mb) m1.(memory) (world st.(s_trace)) = (ok, box', mem', w') ∧ w' = world tr) as (w' & Hw & Hw').
  { rewrite (se_box _ _ Hm1), (se_memory _ _ Hm1). unfold env_of in Henv. simpl. unfold tr. simpl.
    destruct (wd_host box (s_memory st) (world (s_trace st))) as [r w']. simpl in *. subst r. by exists w'. }
  destruct ok; simpl in HQ.
  - destruct HQ as [Hok HQ]. set (m2 := upd_memory mem' (upd_mb box' m1)).
    set (st' := mkStore st.(s_globals) mem' st.(s_msize) st.(s_live) box' tr) in *.
    assert (sees m2 (mkView (pc + 1) fp frs L st')) as Hm2 by (destruct Hm1; by split).
    assert (reply_ok mem' nr box' mem' = true) as Hok'.
    { unfold reply_ok in *. rewrite !andb_true_iff in *. destruct Hok as [[[[[? ?] ?] ?] _] ?].
      split_and!; try done. lia. }
    pose proof (push_results_sees box' m2 _ nr Hm2 Hnr0 Hok' eq_refl) as Hp. unfold ewp in Hp.
    destruct (push_results 0 _ m2) as [[[]|s|e] m3] eqn:Hpush; [| |done].
    + destruct (HQ (upd_msize M.(hm_mem_size) m3)) as [n Hn]; [destruct Hp; by split|].
      exists (S n). simpl. rewrite Hstep. unfold resume. rewrite Hw. simpl.
      fold m2. rewrite Hpush. rewrite Hw'. exact Hn.
    + exists 1%nat. simpl. rewrite Hstep. unfold resume. rewrite Hw. simpl.
      fold m2. rewrite Hpush. exists tr. split; [done|]. by apply (en_out _ HT).
  - exists 1%nat. simpl. rewrite Hstep. unfold resume. rewrite Hw. simpl.
    exists tr. split; [done|]. apply HQ.
Qed.
End host.
