(* ===== verification/LowerNum.v ===== *)
(** * The engine computes WebAssembly's numbers

    Each row of the engine's arithmetic tables against the operator it is the
    translation of, on 64-bit words. *)

From S2P Require Import Prelude Cuop Wasm Lower EnvTable Module Engine EngineNum EngineInv Structured.
From stdpp Require Import base list strings.

Local Open Scope Z_scope.

(** ** Words *)

Lemma signed_i32 a : signed 32 a = i32 a.
Proof. unfold signed, i32. destruct (_ <? _) eqn:H; revert H; Z.to_euclidean_division_equations; lia. Qed.
Lemma signed_i64 a : signed 64 a = i64 a.
Proof. unfold signed, i64. destruct (_ <? _) eqn:H; revert H; Z.to_euclidean_division_equations; lia. Qed.

Lemma in_u64_u32 a : in_u64 (u32 a).
Proof. pose proof (u32_range a). unfold in_u64. lia. Qed.
Lemma in_u64_u64 a : in_u64 (u64 a).
Proof. apply u64_range. Qed.
Lemma in_u64_b2z b : in_u64 (b2z b).
Proof. by destruct b. Qed.

Lemma u64_b2z b : u64 (b2z b) = b2z b.
Proof. by destruct b. Qed.
Lemma u64_u32 a : u64 (u32 a) = u32 a.
Proof. apply u64_id, in_u64_u32. Qed.
Lemma u64_u64 a : u64 (u64 a) = u64 a.
Proof. apply u64_id, in_u64_u64. Qed.

Lemma land_31 b : Z.land b 31 = b mod 32.
Proof. change 31 with (Z.ones 5). by apply Z.land_ones. Qed.
Lemma land_63 b : Z.land b 63 = b mod 64.
Proof. change 63 with (Z.ones 6). by apply Z.land_ones. Qed.
Lemma u32_mod_32 b : u32 b mod 32 = b mod 32.
Proof. unfold u32. Z.to_euclidean_division_equations. lia. Qed.

(** ** Two operands *)

(** What an op of two operands does, from the engine's tables. *)
Definition alu2 (opc : Z) : option (Z → Z → Z + Status) :=
  match op_lookup opc unops with
  | Some _ => None
  | None =>
      match op_lookup opc binops with
      | Some f => Some (fun a b => inl (f a b))
      | None => op_lookup opc divops
      end
  end.

(** The result is pushed as a 64-bit word. *)
Definition pushed (r : Z + Status) : Z + Status :=
  match r with inl v => inl (u64 v) | inr s => inr s end.

Definition agree2 (g f : Z → Z → Z + Status) : Prop :=
  ∀ a b, in_u64 a → in_u64 b → pushed (g a b) = f a b ∧ ∀ v, f a b = inl v → in_u64 v.

Lemma agree2_inl g f :
  (∀ a b, in_u64 a → in_u64 b → inl (g a b) = f a b ∧ in_u64 (g a b)) → agree2 (fun a b => inl (g a b)) f.
Proof.
  intros H a b Ha Hb. destruct (H a b Ha Hb) as [<- Hin]. simpl. rewrite u64_id by exact Hin.
  split; [done|]. by intros v [= <-].
Qed.

Lemma agree_u32op f : agree2 (fun a b => inl (u32op f a b)) (arith 32 f).
Proof. apply agree2_inl. intros a b _ _. split; [done|apply in_u64_u32]. Qed.

Lemma agree_u64op f : agree2 (fun a b => inl (u64op f a b)) (arith 64 f).
Proof.
  apply agree2_inl. intros a b Ha Hb. split; [|apply in_u64_u64]. unfold u64op, arith, u64.
  by rewrite (Z.mod_small a), (Z.mod_small b) by done.
Qed.

Lemma agree_u32cmp f : agree2 (fun a b => inl (u32cmp f a b)) (cmp_u 32 f).
Proof. apply agree2_inl. intros a b _ _. split; [done|apply in_u64_b2z]. Qed.

Lemma agree_u64cmp f : agree2 (fun a b => inl (u64cmp f a b)) (cmp_u 64 f).
Proof.
  apply agree2_inl. intros a b Ha Hb. split; [|apply in_u64_b2z]. unfold u64cmp, cmp_u.
  by rewrite (Z.mod_small a), (Z.mod_small b) by done.
Qed.

Lemma agree_i32cmp f : agree2 (fun a b => inl (i32cmp f a b)) (cmp_s 32 f).
Proof.
  apply agree2_inl. intros a b _ _. unfold cmp_s. rewrite !signed_i32. split; [done|apply in_u64_b2z].
Qed.

Lemma agree_i64cmp f : agree2 (fun a b => inl (i64cmp f a b)) (cmp_s 64 f).
Proof.
  apply agree2_inl. intros a b _ _. unfold cmp_s. rewrite !signed_i64. split; [done|apply in_u64_b2z].
Qed.

Lemma agree_shl32 : agree2 (fun a b => inl (u32op (fun a b => Z.shiftl a (Z.land b 31)) a b)) (arith 32 (shl 32)).
Proof.
  intros a b Ha Hb. destruct (agree_u32op (fun a b => Z.shiftl a (Z.land b 31)) a b Ha Hb) as [-> H].
  split; [|intros v; unfold arith; intros [= <-]; apply in_u64_u32].
  unfold arith, shl. rewrite land_31, Z.shiftl_mul_pow2 by (apply Z.mod_pos_bound; done). done.
Qed.

Lemma agree_shl64 : agree2 (fun a b => inl (u64op (fun a b => Z.shiftl a (Z.land b 63)) a b)) (arith 64 (shl 64)).
Proof.
  intros a b Ha Hb. destruct (agree_u64op (fun a b => Z.shiftl a (Z.land b 63)) a b Ha Hb) as [-> H].
  split; [|intros v; unfold arith; intros [= <-]; apply in_u64_u64].
  unfold arith, shl. rewrite land_63, Z.shiftl_mul_pow2 by (apply Z.mod_pos_bound; done). done.
Qed.

Lemma agree_shru32 : agree2 (fun a b => inl (u32op (fun a b => Z.shiftr a (Z.land b 31)) a b)) (arith 32 (shr_u 32)).
Proof.
  intros a b Ha Hb. destruct (agree_u32op (fun a b => Z.shiftr a (Z.land b 31)) a b Ha Hb) as [-> H].
  split; [|intros v; unfold arith; intros [= <-]; apply in_u64_u32].
  unfold arith, shr_u. rewrite land_31, Z.shiftr_div_pow2 by (apply Z.mod_pos_bound; done). done.
Qed.

Lemma agree_shru64 : agree2 (fun a b => inl (u64op (fun a b => Z.shiftr a (Z.land b 63)) a b)) (arith 64 (shr_u 64)).
Proof.
  intros a b Ha Hb. destruct (agree_u64op (fun a b => Z.shiftr a (Z.land b 63)) a b Ha Hb) as [-> H].
  split; [|intros v; unfold arith; intros [= <-]; apply in_u64_u64].
  unfold arith, shr_u. rewrite land_63, Z.shiftr_div_pow2 by (apply Z.mod_pos_bound; done). done.
Qed.

Lemma agree_shrs32 : agree2 (fun a b => inl (u32 (Z.shiftr (i32 a) (Z.land (u32 b) 31)))) (shr_s 32).
Proof.
  apply agree2_inl. intros a b _ _. split; [|apply in_u64_u32]. unfold shr_s.
  rewrite signed_i32, land_31, u32_mod_32, Z.shiftr_div_pow2 by (apply Z.mod_pos_bound; done). done.
Qed.

Lemma agree_shrs64 : agree2 (fun a b => inl (u64 (Z.shiftr (i64 a) (Z.land b 63)))) (shr_s 64).
Proof.
  apply agree2_inl. intros a b _ _. split; [|apply in_u64_u64]. unfold shr_s.
  rewrite signed_i64, land_63, Z.shiftr_div_pow2 by (apply Z.mod_pos_bound; done). done.
Qed.

(** Division: the engine tests for the overflow before it divides. *)
Lemma quot_overflow (h a b : Z) :
  1 < h → - h ≤ a < h → - h ≤ b < h → b ≠ 0 →
  (Z.quot a b =? h) = ((a =? - h) && (b =? -1)).
Proof.
  intros Hh Ha Hb Hb0. destruct ((a =? - h) && (b =? -1)) eqn:E.
  - apply andb_true_iff in E as [->%Z.eqb_eq ->%Z.eqb_eq]. apply Z.eqb_eq.
    change (-1) with (-(1)). rewrite Z.quot_opp_opp, Z.quot_1_r by lia. done.
  - apply Z.eqb_neq. intros Hq. apply andb_false_iff in E.
    pose proof (Z.quot_rem a b Hb0) as Hqr. rewrite Hq in Hqr.
    assert (Z.abs (Z.rem a b) < Z.abs b) by (by apply Z.rem_bound_abs).
    assert (b = -1 ∨ b ≠ -1) as [->|Hb1] by lia; [rewrite Z.eqb_refl in E|].
    + destruct E as [E|]; [|done]. apply Z.eqb_neq in E. lia.
    + pose proof (Z.quot_rem (Z.abs a) (Z.abs b) ltac:(lia)) as Ha'.
      rewrite Z.quot_abs, Z.rem_abs, Hq in Ha' by done. nia.
Qed.

Lemma signed_range bits a : 0 < bits → - 2 ^ (bits - 1) ≤ signed bits a < 2 ^ (bits - 1).
Proof.
  intros Hb. unfold signed. pose proof (Z.mod_pos_bound a (2 ^ bits) ltac:(lia)).
  assert (2 ^ bits = 2 * 2 ^ (bits - 1)) as Hp by (rewrite <-Z.pow_succ_r by lia; f_equal; lia).
  destruct (_ <? _) eqn:E; lia.
Qed.

Lemma agree_div_s bits wrap sgn :
  1 < bits ≤ 64 → (∀ z, wrap z = z mod 2 ^ bits) → (∀ z, sgn z = signed bits z) →
  agree2 (div_s wrap sgn (- 2 ^ (bits - 1))) (wasm_div_s bits).
Proof.
  intros Hb Hw Hs a b _ _. unfold div_s, wasm_div_s. rewrite !Hs.
  destruct (signed bits b =? 0) eqn:E0; [done|]. apply Z.eqb_neq in E0. cbv zeta.
  assert (1 < 2 ^ (bits - 1)) by (apply (Z.pow_gt_1 2); lia).
  rewrite quot_overflow by (done || apply signed_range; lia).
  destruct (_ && _); [done|]. simpl. rewrite Hw. pose proof (Z.mod_pos_bound (Z.quot (signed bits a) (signed bits b)) (2 ^ bits) ltac:(lia)).
  assert (2 ^ bits ≤ 2 ^ 64) by (apply Z.pow_le_mono_r; lia). rewrite u64_id by lia.
  split; [done|]. intros v [= <-]. unfold in_u64. lia.
Qed.

Lemma agree_rem_s bits wrap sgn :
  1 < bits ≤ 64 → (∀ z, wrap z = z mod 2 ^ bits) → (∀ z, sgn z = signed bits z) →
  agree2 (rem_s wrap sgn (- 2 ^ (bits - 1))) (wasm_rem_s bits).
Proof.
  intros Hb Hw Hs a b _ _. unfold rem_s, wasm_rem_s. rewrite !Hs.
  destruct (signed bits b =? 0) eqn:E0; [done|].
  assert (2 ^ bits ≤ 2 ^ 64) by (apply Z.pow_le_mono_r; lia).
  pose proof (Z.mod_pos_bound (Z.rem (signed bits a) (signed bits b)) (2 ^ bits) ltac:(lia)).
  split; [|intros v [= <-]; unfold in_u64; lia].
  destruct (_ && _) eqn:E; simpl; [|rewrite Hw, u64_id by lia; done].
  apply andb_true_iff in E as [_ ->%Z.eqb_eq]. change (-1) with (-(1)).
  by rewrite Z.rem_opp_r, Z.rem_1_r.
Qed.

Lemma agree_divrem_u bits uns f :
  0 < bits ≤ 64 → (∀ z, uns z = z mod 2 ^ bits) → (∀ x y, 0 ≤ x → 0 < y → 0 ≤ f x y ≤ x) →
  agree2 (divrem_u uns f)
    (fun a b => if b mod 2 ^ bits =? 0 then inr ST_TRAP_DIV_BY_ZERO else inl (f (a mod 2 ^ bits) (b mod 2 ^ bits))).
Proof.
  intros Hb Hu Hf a b _ _. unfold divrem_u. rewrite !Hu. destruct (_ =? 0) eqn:E0; [done|].
  assert (2 ^ bits ≤ 2 ^ 64) by (apply Z.pow_le_mono_r; lia).
  pose proof (Z.mod_pos_bound a (2 ^ bits) ltac:(lia)). pose proof (Z.mod_pos_bound b (2 ^ bits) ltac:(lia)).
  destruct (Hf (a mod 2 ^ bits) (b mod 2 ^ bits)); [lia..|]. simpl. rewrite u64_id by lia.
  split; [done|]. intros v [= <-]. unfold in_u64. lia.
Qed.

(** The overflow-free instances. *)
Lemma div_le x y : 0 ≤ x → 0 < y → 0 ≤ x / y ≤ x.
Proof. intros. split; [by apply Z.div_pos|]. apply Z.div_le_upper_bound; nia. Qed.
Lemma mod_le x y : 0 ≤ x → 0 < y → 0 ≤ x mod y ≤ x.
Proof. intros. split; [by apply Z.mod_pos_bound|]. by apply Z.mod_le. Qed.

Lemma bin_agrees o f :
  wasm_bin o = Some f → ∃ opc g, plain_op o = Some (opc, 2, 1) ∧ alu2 opc = Some g ∧ agree2 g f.
Proof.
  destruct o; try discriminate; intros [= <-]; do 2 eexists; (split; [reflexivity|split; [reflexivity|]]);
    first [ apply agree_shl32 | apply agree_shl64 | apply agree_shru32 | apply agree_shru64
          | apply agree_shrs32 | apply agree_shrs64
          | apply agree_u32op | apply agree_u64op | apply agree_u32cmp | apply agree_u64cmp
          | apply agree_i32cmp | apply agree_i64cmp
          | apply (agree_div_s 32); [lia|done|intros; by rewrite signed_i32]
          | apply (agree_div_s 64); [lia|done|intros; by rewrite signed_i64]
          | apply (agree_rem_s 32); [lia|done|intros; by rewrite signed_i32]
          | apply (agree_rem_s 64); [lia|done|intros; by rewrite signed_i64]
          | apply (agree_divrem_u 32 u32 Z.div); [lia|done|apply div_le]
          | apply (agree_divrem_u 64 u64 Z.div); [lia|done|apply div_le]
          | apply (agree_divrem_u 32 u32 Z.modulo); [lia|done|apply mod_le]
          | apply (agree_divrem_u 64 u64 Z.modulo); [lia|done|apply mod_le] ].
Qed.

(** ** One operand *)

Definition agree1 (g f : Z → Z) : Prop := ∀ a, in_u64 a → u64 (g a) = f a ∧ in_u64 (f a).

Inductive un_code (o : Operator) (f : Z → Z) : Prop :=
  | uc_plain opc g :
      plain_op o = Some (opc, 1, 1) → op_lookup opc unops = Some g → agree1 g f → un_code o f
  | uc_clz bits : (bits = 32 ∨ bits = 64) →
      o = (if bits =? 32 then I32Clz else I64Clz) → f = leading_zeros bits → un_code o f
  | uc_same : reinterpret_arm o = Some (consume 1 1) → f = (fun a => a) → un_code o f.

Lemma un_agrees o f : wasm_un o = Some f → un_code o f.
Proof.
  destruct o; try discriminate; intros [= <-];
    first [ by apply uc_same | by apply (uc_clz _ _ 32); [left|..] | by apply (uc_clz _ _ 64); [right|..]
          | eapply uc_plain; [reflexivity|reflexivity|]; intros a Ha ];
    rewrite ?signed_i32; change (w32 a) with (u32 a); change (w64 ?x) with (u64 x);
    rewrite ?u64_b2z, ?u64_u32, ?u64_u64.
  all: try (split; [done|]; first [apply in_u64_u32|apply in_u64_u64|apply in_u64_b2z]).
  rewrite (u64_id a) by exact Ha. split; [done|apply in_u64_b2z].
Qed.

(** The loop of [clz] counts the leading zeros. *)
Lemma clz_agrees bits v :
  bits = 32 ∨ bits = 64 → in_u64 v → clz bits v = Some (leading_zeros bits v) ∧ in_u64 (leading_zeros bits v).
Proof.
  intros Hb Hv. destruct (clz_spec bits v Hb Hv) as (n & Hn & Hr & Hlt & Hge). cbv zeta in *.
  assert ((if bits =? 32 then u32 v else v) = v mod 2 ^ bits) as Hx.
  { destruct Hb as [-> | ->]; simpl; [done|]. symmetry. by apply Z.mod_small. }
  rewrite Hx in Hlt, Hge. pose proof (Z.mod_pos_bound v (2 ^ bits) ltac:(lia)) as Hm.
  assert (n = leading_zeros bits v) as <-.
  { unfold leading_zeros. destruct (v mod 2 ^ bits =? 0) eqn:E.
    - apply Z.eqb_eq in E. destruct (decide (n = bits)); [done|].
      unfold clz in Hn. rewrite land_u32 in Hn. rewrite Hx, E in Hn. simpl in Hn. congruence.
    - apply Z.eqb_neq in E. assert (n < bits) as Hnb.
      { destruct (decide (n = bits)) as [->|]; [|lia]. rewrite Z.sub_diag in Hlt. change (2 ^ 0) with 1 in Hlt. lia. }
      rewrite (Z.log2_unique (v mod 2 ^ bits) (bits - n - 1)); [lia|lia|].
      split; [apply Hge; lia|]. by replace (Z.succ (bits - n - 1)) with (bits - n) by lia. }
  split; [done|]. unfold in_u64. lia.
Qed.

(** ** 128 bits *)

Lemma halves_unique lo hi x :
  0 ≤ lo < 2 ^ 64 → 0 ≤ hi < 2 ^ 64 → lo + 2 ^ 64 * hi = x mod 2 ^ 128 → halves x = (lo, hi).
Proof.
  intros Hlo Hhi H. unfold halves. f_equal.
  - assert (x mod 2 ^ 64 = (x mod 2 ^ 128) mod 2 ^ 64) as ->.
    { change (2 ^ 128) with (2 ^ 64 * 2 ^ 64). rewrite Z.rem_mul_r by done.
      rewrite Z.mul_comm, Z_mod_plus_full. by rewrite Zmod_mod. }
    rewrite <-H, Z.mul_comm, Z_mod_plus_full. by apply Z.mod_small.
  - rewrite <-H. rewrite Z.mul_comm, Z_div_plus_full by done. rewrite Z.div_small by done. lia.
Qed.

Lemma wide_id lo hi : in_u64 lo → in_u64 hi → wide lo hi = lo + 2 ^ 64 * hi.
Proof. intros Hl Hh. unfold wide, w64. by rewrite !Z.mod_small. Qed.

Lemma add128_agrees al ah bl bh :
  in_u64 al → in_u64 ah → in_u64 bl → in_u64 bh →
  halves (wide al ah + wide bl bh) = add128 al ah bl bh.
Proof.
  intros H1 H2 H3 H4. unfold in_u64 in *. rewrite !wide_id by done. unfold add128.
  apply halves_unique; [apply u64_range..|]. unfold u64.
  destruct (_ <? al) eqn:Hc; revert Hc; Z.to_euclidean_division_equations; lia.
Qed.

Lemma sub128_agrees al ah bl bh :
  in_u64 al → in_u64 ah → in_u64 bl → in_u64 bh →
  halves (wide al ah - wide bl bh) = sub128 al ah bl bh.
Proof.
  intros H1 H2 H3 H4. unfold in_u64 in *. rewrite !wide_id by done. unfold sub128.
  apply halves_unique; [apply u64_range..|]. unfold u64.
  destruct (al <? bl) eqn:Hc; revert Hc; Z.to_euclidean_division_equations; lia.
Qed.

Lemma mul_wide_u_agrees a b : in_u64 a → in_u64 b → halves (w64 a * w64 b) = mul_wide_u a b.
Proof.
  intros Ha Hb. destruct (mul_wide_u_spec a b Ha Hb) as (lo & hi & -> & Hlo & Hhi & Hp).
  unfold w64. rewrite !Z.mod_small by done. apply halves_unique; [done..|].
  rewrite Hp. symmetry. apply Z.mod_small. unfold in_u64 in *. nia.
Qed.

Lemma mul_wide_s_agrees a b : in_u64 a → in_u64 b → halves (signed 64 a * signed 64 b) = mul_wide_s a b.
Proof.
  intros Ha Hb. unfold mul_wide_s. destruct (mul_wide_u_spec a b Ha Hb) as (lo & hi & -> & Hlo & Hhi & Hp).
  pose proof (mul_wide_s_hi a b hi Hhi) as Heq. cbn zeta in Heq. rewrite Heq.
  apply halves_unique; [done|apply u64_range|]. rewrite !signed_i64, !i64_neg by done.
  set (h := hi - neg a * b - neg b * a).
  assert ((a - 2 ^ 64 * neg a) * (b - 2 ^ 64 * neg b) = lo + 2 ^ 64 * h + 2 ^ 128 * (neg a * neg b)) as ->
    by (unfold h; nia).
  clearbody h. unfold u64. generalize (neg a * neg b). intros k.
  apply (Z.mod_unique_pos _ _ (h / 2 ^ 64 + k)).
  - Z.to_euclidean_division_equations. lia.
  - Z.to_euclidean_division_equations. lia.
Qed.

Lemma halves_in_u64 x : in_u64 (halves x).1 ∧ in_u64 (halves x).2.
Proof. unfold in_u64, halves. simpl. Z.to_euclidean_division_equations. lia. Qed.
