(* ===== verification/LowerMem.v ===== *)
(** * The engine reads and writes WebAssembly's memory

    The byte loops of [OP_LOAD] and [OP_STORE] against the little-endian numbers of the
    reference semantics, and the extension of a loaded value. *)

From S2P Require Import Prelude Cuop Wasm Lower EnvTable Module ModuleSteps Engine EngineNum.
From S2P Require Import Verify VerifyFacts EngineInv EngineMem Structured EngineView LowerNum.
From stdpp Require Import base list strings.

Local Open Scope Z_scope.

Definition is_byte (b : Z) : Prop := 0 ≤ b < 2 ^ 8.

Lemma le_value_range bs : Forall is_byte bs → 0 ≤ le_value bs < 2 ^ (8 * len bs).
Proof.
  induction 1 as [|b bs Hb _ IH]; [done|]. simpl. rewrite len_cons.
  replace (8 * (len bs + 1)) with (8 * len bs + 8) by lia. rewrite Z.pow_add_r by (pose proof (len_nonneg bs); lia).
  unfold is_byte in Hb. change (2 ^ 8) with 256 in *. lia.
Qed.

Lemma read_mem_cons mem a n x :
  0 ≤ a → 0 < n → index mem a = Some x → read_mem mem a n = x :: read_mem mem (a + 1) (n - 1).
Proof.
  intros Ha Hn [_ Hx]%index_Some. unfold read_mem. rewrite (drop_S _ _ _ Hx).
  replace (Z.to_nat n) with (S (Z.to_nat (n - 1))) by lia. simpl.
  by replace (Z.to_nat (a + 1)) with (S (Z.to_nat a)) by lia.
Qed.

Lemma read_mem_Forall (P : Z → Prop) mem a n : Forall P mem → Forall P (read_mem mem a n).
Proof. intros. by apply Forall_take, Forall_drop. Qed.

Lemma read_mem_len mem a n : 0 ≤ a → 0 ≤ n → a + n ≤ len mem → len (read_mem mem a n) = n.
Proof. intros. unfold read_mem, len in *. rewrite length_take, length_drop. lia. Qed.

Lemma mem_load_value n ea i m :
  0 ≤ ea → 0 ≤ i → ea + i + Z.of_nat n ≤ len m.(memory) → Forall is_byte m.(memory) →
  mem_load_le ea i n m = (Val (2 ^ (8 * i) * le_value (read_mem m.(memory) (ea + i) (Z.of_nat n))), m).
Proof.
  revert i. induction n as [|n IH]; intros i He Hi Hn Hb.
  - simpl. change (read_mem m.(memory) (ea + i) 0) with (@nil Z). simpl. by rewrite Z.mul_0_r.
  - destruct (index_is_Some m.(memory) (ea + i)) as [x Hx]; [lia|].
    assert (is_byte x) as Hxb by (apply index_Some in Hx as [_ Hx]; by eapply Forall_lookup_1).
    cbn [mem_load_le]. unfold mbind, EM_bind. rewrite (mem_at_eq _ _ _ Hx), IH by (lia || done).
    rewrite (read_mem_cons m.(memory) (ea + i) (Z.of_nat (S n)) x) by (lia || done).
    replace (Z.of_nat (S n) - 1) with (Z.of_nat n) by lia. rewrite <-Z.add_assoc.
    set (r := le_value (read_mem _ _ (Z.of_nat n))).
    assert (0 ≤ r) as Hr by (apply le_value_range, read_mem_Forall; done).
    assert (Z.lor (Z.shiftl x (8 * i)) (2 ^ (8 * (i + 1)) * r) = 2 ^ (8 * i) * (x + 2 ^ 8 * r)) as Hl; [|by rewrite Hl].
    rewrite Z.shiftl_mul_pow2 by lia.
    replace (2 ^ (8 * (i + 1)) * r) with (Z.shiftl r (8 * (i + 1))) by (rewrite Z.shiftl_mul_pow2; lia).
    assert (2 ^ (8 * (i + 1)) = 2 ^ (8 * i) * 2 ^ 8) as Hp by (rewrite <-Z.pow_add_r by lia; f_equal; lia).
    unfold is_byte in Hxb. rewrite lor_shiftl; [rewrite Hp; ring|lia| |done]. rewrite Hp. nia.
Qed.

Lemma u8_mod v : u8 v = v mod 2 ^ 8.
Proof. done. Qed.

(** Writing byte by byte. *)
Lemma write_mem_cons mem a b bs :
  0 ≤ a → a + 1 + len bs ≤ len mem → write_mem (<[Z.to_nat a := b]> mem) (a + 1) bs = write_mem mem a (b :: bs).
Proof.
  intros Ha Hl. unfold write_mem. simpl. replace (Z.to_nat (a + 1)) with (S (Z.to_nat a)) by lia.
  set (k := Z.to_nat a). assert (k < length mem)%nat as Hlt by (pose proof (len_nonneg bs); unfold len, k in *; lia).
  rewrite (take_S_r _ k b) by (by rewrite list_lookup_insert_eq).
  rewrite take_insert_ge by lia. rewrite drop_insert_lt by lia.
  rewrite <-app_assoc. simpl. repeat f_equal; lia.
Qed.

Lemma write_mem_nil mem a : write_mem mem a [] = mem.
Proof. unfold write_mem. simpl. by rewrite Nat.add_0_r, take_drop. Qed.

Lemma write_mem_len mem a bs : 0 ≤ a → a + len bs ≤ len mem → len (write_mem mem a bs) = len mem.
Proof. intros. unfold write_mem, len in *. rewrite !length_app, length_take, length_drop. lia. Qed.

Lemma le_split_length n v : length (le_split n v) = n.
Proof. revert v. induction n as [|n IH]; intros v; [done|]. simpl. by rewrite IH. Qed.

Lemma mem_store_write n ea i v m :
  0 ≤ ea → 0 ≤ i → ea + i + Z.of_nat n ≤ len m.(memory) →
  mem_store_le ea i n v m =
    (Val tt, upd_memory (write_mem m.(memory) (ea + i) (le_split n (v / 2 ^ (8 * i)))) m).
Proof.
  revert i m. induction n as [|n IH]; intros i m He Hi Hn.
  - simpl. rewrite write_mem_nil. by destruct m.
  - cbn [mem_store_le]. unfold mbind, EM_bind. rewrite mem_set_eq by lia.
    rewrite IH by (simpl; rewrite ?len_insert; lia). unfold upd_memory. cbn -[write_mem le_split]. do 2 f_equal.
    replace (v / 2 ^ (8 * (i + 1))) with (v / 2 ^ (8 * i) / 2 ^ 8).
    2: { rewrite Z.div_div by lia. rewrite <-Z.pow_add_r by lia. do 2 f_equal. lia. }
    rewrite Z.shiftr_div_pow2, Z.add_assoc by lia. apply write_mem_cons; [lia|].
    unfold len at 1. rewrite le_split_length. lia.
Qed.

(** ** Extension *)

Definition widths : list (Z * bool * bool) :=
  [(4, false, false); (8, false, true); (1, true, false); (1, false, false); (2, true, false);
   (2, false, false); (1, true, true); (1, false, true); (2, true, true); (2, false, true);
   (4, true, true); (4, false, true)].

Lemma load_agrees o nb sg i64dest m :
  load_op o = Some (nb, sg, i64dest, m) →
  wasm_load o = Some (nb, sg, if i64dest then 64 else 32, m.(ma_offset)) ∧ In (nb, sg, i64dest) widths.
Proof. destruct o; try discriminate; intros [= <- <- <- <-]; (split; [done|]); simpl; tauto. Qed.

Lemma store_agrees o nb m :
  store_op o = Some (nb, m) → wasm_store o = Some (nb, m.(ma_offset)) ∧ In nb [1; 2; 4; 8].
Proof. destruct o; try discriminate; intros [= <- <-]; (split; [done|]); simpl; tauto. Qed.

Lemma sext64_signed n v :
  n = 1 ∨ n = 2 ∨ n = 4 → 0 ≤ v < 2 ^ (8 * n) → sext64 v (n * 8) = signed (8 * n) v mod 2 ^ 64.
Proof.
  intros Hn Hv. unfold sext64, signed, u64, i64.
  rewrite Z.shiftl_mul_pow2, Z.shiftr_div_pow2 by lia. rewrite (Z.mod_small v) by lia.
  destruct Hn as [-> | [-> | ->]]; simpl (64 - _) in *; destruct (_ <? _) eqn:E; revert E;
    Z.to_euclidean_division_equations; lia.
Qed.

Lemma load_flags_fields nb sg i64dest :
  In (nb, sg, i64dest) widths →
  let a := load_flags nb sg i64dest in
  Z.land a 15 = nb ∧ negb (Z.land a 16 =? 0) = sg ∧ negb (Z.land a 32 =? 0) = i64dest ∧
  (sg = true → nb = 1 ∨ nb = 2 ∨ nb = 4) ∧ (i64dest = false → 1 ≤ nb ≤ 4) ∧ 1 ≤ nb ≤ 8.
Proof.
  unfold widths. simpl. intros Hin.
  repeat destruct Hin as [[= <- <- <-]|Hin]; [..|done]; (split_and!; [reflexivity|reflexivity|reflexivity|lia..]).
Qed.

Lemma extend_load_loaded nb sg i64dest v :
  In (nb, sg, i64dest) widths → 0 ≤ v < 2 ^ (8 * nb) →
  extend_load (load_flags nb sg i64dest) v = loaded nb sg (if i64dest then 64 else 32) v ∧
  in_u64 (loaded nb sg (if i64dest then 64 else 32) v).
Proof.
  intros Hin Hv. destruct (load_flags_fields _ _ _ Hin) as (F1 & F2 & F3 & Hs & Hd & Hn).
  unfold extend_load, loaded. rewrite F1, F2, F3. split.
  - destruct sg.
    + rewrite sext64_signed by auto. destruct i64dest; [done|]. unfold u32.
      Z.to_euclidean_division_equations; lia.
    + destruct i64dest; [done|]. simpl. replace (nb <? 8) with true by lia.
      apply u32_id. assert (2 ^ (8 * nb) ≤ 2 ^ 32) by (apply Z.pow_le_mono_r; lia). lia.
  - assert (2 ^ (8 * nb) ≤ 2 ^ 64) by (apply Z.pow_le_mono_r; lia). unfold in_u64.
    destruct sg, i64dest; Z.to_euclidean_division_equations; lia.
Qed.
