(* ===== verification/LowerOps.v ===== *)
(** * The ops of an operator do what the operator does

    One operator without control at a time: from the view of a function's activation,
    the ops [emits] gives it take the machine where [basic_step] says. *)

From S2P Require Import Prelude Cuop Wasm Lower EnvTable Module ModuleSteps Engine EngineNum.
From S2P Require Import Verify VerifyFacts EngineInv EngineMem LowerInv.
From S2P Require Import Structured Backpatch LowerTree LowerBack EngineView LowerNum LowerMem.
From stdpp Require Import base list strings.

Local Open Scope Z_scope.

(** ** Well-formed data *)

(** Words fit, bytes fit, and the memory in use is inside the image. *)
Record store_ok (M : HostModule) (st : Store) : Prop := {
  so_globals : Forall in_u64 st.(s_globals);
  so_memory : Forall is_byte st.(s_memory);
  so_msize : 0 ≤ st.(s_msize) ≤ len st.(s_memory);
  so_image : len st.(s_memory) = len M.(hm_memory);
  so_small : len M.(hm_memory) < 2 ^ 32;
  so_live : len st.(s_live) ≤ 2 ^ 16 }.

(** The segments of the program are where the module's descriptors say. *)
Record datas_ok (M : HostModule) (datas : list (list Z)) : Prop := {
  da_segment : ∀ (i : nat) bs, datas !! i = Some bs → ∃ off,
    M.(hm_data_off) !! i = Some off ∧ M.(hm_data_len) !! i = Some (len bs) ∧
    0 ≤ off ∧ off + len bs ≤ len M.(hm_data_blob) ∧ read_mem M.(hm_data_blob) off (len bs) = bs;
  da_blob : len M.(hm_data_blob) < 2 ^ 32;
  da_bytes : Forall is_byte M.(hm_data_blob) }.

Section ops.
Context {WD : World} (M : HostModule) (T : Trace → Status → Machine → Prop) (HT : ends T).
Context (E : FnEnv) (Hcode : len M.(hm_code) < 2 ^ 32).
(** The activation: the stack below it and the frames up to its own. *)
Context (lo : list Z) (frs : list Frame).

Abbreviation does := (does T).
Abbreviation goes := (goes M T).
Abbreviation ops_at := (ops_at M.(hm_code)).

(** Control at [pc], the locals [ls] and the operands [os], top first. *)
Definition fv (pc : Z) (st : Store) (ls os : list Z) : View :=
  mkView pc (len lo) frs (lo ++ ls ++ rev os) st.

Lemma does_cap {A} (c : EM A) v Q : (len v.(v_stack) ≤ STACK_CAP → does c v Q) → does c v Q.
Proof. intros H m Hm. apply H; [by eapply sees_cap|done]. Qed.

Lemma goes_cap v Q : (len v.(v_stack) ≤ STACK_CAP → goes v Q) → goes v Q.
Proof. intros H m Hm. apply H; [by eapply sees_cap|done]. Qed.

Lemma fv_len pc st ls os : len (fv pc st ls os).(v_stack) = len lo + len ls + len os.
Proof. simpl. autorewrite with len. unfold len at 3. rewrite length_rev. fold (len os). lia. Qed.

Lemma fv_cap pc st ls os Q :
  (len lo + len ls + len os ≤ STACK_CAP → goes (fv pc st ls os) Q) → goes (fv pc st ls os) Q.
Proof. intros H. apply goes_cap. by rewrite fv_len. Qed.

Lemma fv_cap1 pc st ls os Q :
  (len lo + len ls + len os ≤ STACK_CAP → goes1 M T (fv pc st ls os) Q) → goes1 M T (fv pc st ls os) Q.
Proof. intros H m Hm. pose proof (sees_cap _ _ Hm) as Hc. rewrite fv_len in Hc. by apply H. Qed.

Lemma fv_cons pc st ls a os :
  (fv pc st ls (a :: os)).(v_stack) = (fv pc st ls os).(v_stack) ++ [a].
Proof. simpl. by rewrite <-!app_assoc. Qed.

(** ** Symbolic execution *)

Lemma f_pop {B} (k : Z → EM B) pc st ls a os Q :
  does (k a) (fv pc st ls os) Q → does (pop ≫= k) (fv pc st ls (a :: os)) Q.
Proof. intros Hk. eapply does_pop; [apply fv_cons|exact Hk]. Qed.

Lemma f_push x pc st ls os (Q : unit → View → Prop) :
  in_u64 x → Q tt (fv pc st ls (x :: os)) → does (push x) (fv pc st ls os) Q.
Proof using HT.
  intros Hx HQ. apply does_push; [done|]. rewrite u64_id by exact Hx.
  unfold with_stack. simpl. rewrite <-!app_assoc. exact HQ.
Qed.

Lemma f_push_bind {B} x (k : unit → EM B) pc st ls os Q :
  in_u64 x → does (k tt) (fv pc st ls (x :: os)) Q → does (push x ≫= k) (fv pc st ls os) Q.
Proof using HT.
  intros Hx Hk. eapply (does_bind _ _ _ _ (fun _ v' => v' = fv pc st ls (x :: os))); [by apply f_push|].
  by intros [] v' ->.
Qed.

(** Reading the machine. *)
Lemma f_get {A B} (f : Machine → A) (k : A → EM B) v Q x :
  (∀ m, sees m v → f m = x) → does (k x) v Q → does (get f ≫= k) v Q.
Proof. apply does_get. Qed.

Lemma f_no_trap {B} (b : bool) s (k : unit → EM B) v Q :
  b = false → does (k tt) v Q → does (trap_if b s ≫= k) v Q.
Proof. intros -> Hk. by apply does_trap_if. Qed.

(** One op of the program. *)
Lemma f_op1 in_ pc st ls os v' Q :
  0 ≤ pc → ops_at pc [in_] →
  does (exec M in_) (fv (pc + 1) st ls os) (fun _ v => v = v') → goes v' Q → goes1 M T (fv pc st ls os) Q.
Proof using HT Hcode.
  intros Hpc Ho Hd Hk. apply ops_at_one in Ho. pose proof (lookup_lt_Some _ _ _ Ho) as Hl.
  eapply goes1_op; [exact HT|by apply index_Some|unfold len in *; simpl; lia|exact Hd|]. by intros ? ->.
Qed.

Lemma f_op in_ pc st ls os v' Q :
  0 ≤ pc → ops_at pc [in_] →
  does (exec M in_) (fv (pc + 1) st ls os) (fun _ v => v = v') → goes v' Q → goes (fv pc st ls os) Q.
Proof using HT Hcode. intros. by eapply goes1_goes, f_op1. Qed.

(** An op that traps. *)
Lemma f_op_trap in_ pc st ls os Q :
  0 ≤ pc → ops_at pc [in_] →
  does (exec M in_) (fv (pc + 1) st ls os) (fun _ _ => False) → goes (fv pc st ls os) Q.
Proof using HT Hcode.
  intros Hpc Ho Hd. apply ops_at_one in Ho. pose proof (lookup_lt_Some _ _ _ Ho) as Hl.
  eapply goes_op; [exact HT|by apply index_Some|unfold len in *; simpl; lia|exact Hd|]. done.
Qed.

(** ** Locals *)

Lemma f_local pc st ls os i x :
  index ls i = Some x → index (fv pc st ls os).(v_stack) (len lo + i) = Some x.
Proof.
  intros [H0 Hi]%index_Some. pose proof (len_nonneg lo). apply index_Some. split; [lia|]. simpl.
  rewrite lookup_app_r by (unfold len; lia). replace (Z.to_nat (len lo + i) - length lo)%nat with (Z.to_nat i)
    by (unfold len; lia). by apply lookup_app_l_Some.
Qed.

Lemma f_set_local pc st ls os i x :
  0 ≤ i < len ls → with_stack (<[Z.to_nat (len lo + i) := x]> (fv pc st ls os).(v_stack)) (fv pc st ls os) =
    fv pc st (<[Z.to_nat i := x]> ls) os.
Proof.
  intros Hi. unfold with_stack, fv. simpl. f_equal.
  replace (Z.to_nat (len lo + i)) with (length lo + Z.to_nat i)%nat by (unfold len; lia).
  rewrite insert_app_r. f_equal. apply insert_app_l. unfold len in Hi. lia.
Qed.

Lemma does_local_get a b pc st ls os x (Q : unit → View → Prop) :
  index ls a = Some x → in_u64 x → Q tt (fv pc st ls (x :: os)) →
  does (exec M (mkCuOp OP_LOCAL_GET a b)) (fv pc st ls os) Q.
Proof using HT.
  intros Hx Hin HQ. apply does_cap. rewrite fv_len. intros Hcap.
  pose proof (index_lt _ _ _ Hx) as Hlt. pose proof (len_nonneg lo). pose proof (len_nonneg os).
  unfold STACK_CAP in Hcap. change (exec M (mkCuOp OP_LOCAL_GET a b)) with
    (p ← get sp; trap_if (STACK_CAP <=? p) ST_TRAP_STACK_OVERFLOW;;
     f ← get fp; v ← stack_at (u32 (f + a)); push v).
  eapply f_get; [intros m Hm; apply Hm|]. apply does_trap_if.
  { intros Hb m Hm. apply (en_out _ HT). simpl. rewrite (se_sp _ _ Hm). simpl in *. lia. }
  intros _. eapply f_get; [intros m Hm; apply Hm|]. simpl. rewrite u32_id by lia.
  eapply does_stack_at; [by apply f_local|]. by apply f_push.
Qed.

Lemma does_local_set a b pc st ls os x (Q : unit → View → Prop) :
  0 ≤ a < len ls → Q tt (fv pc st (<[Z.to_nat a := x]> ls) os) →
  does (exec M (mkCuOp OP_LOCAL_SET a b)) (fv pc st ls (x :: os)) Q.
Proof.
  intros Ha HQ. apply does_cap. rewrite fv_len. intros Hcap. pose proof (len_nonneg lo).
  pose proof (len_nonneg (x :: os)). unfold STACK_CAP in Hcap.
  change (exec M (mkCuOp OP_LOCAL_SET a b)) with
    (v ← pop; f ← get fp; stack_set (u32 (f + a)) v).
  apply f_pop. eapply f_get; [intros m Hm; apply Hm|]. simpl. rewrite u32_id by lia.
  apply does_stack_set; [|rewrite f_set_local by done; exact HQ].
  unfold in_range. rewrite fv_len. pose proof (len_nonneg os). lia.
Qed.

(** ** Arithmetic *)

Lemma does_alu1 opc g a b x pc st ls os (Q : unit → View → Prop) :
  op_lookup opc unops = Some g → Q tt (fv pc st ls (u64 (g x) :: os)) →
  does (exec M (mkCuOp opc a b)) (fv pc st ls (x :: os)) Q.
Proof using HT.
  intros Hg HQ. unfold exec, exec_alu. cbn [cu_op]. rewrite Hg. apply f_pop. apply does_push; [done|].
  unfold with_stack. simpl. rewrite <-!app_assoc. exact HQ.
Qed.

Lemma does_alu2 opc g a b x y pc st ls os (Q : unit → View → Prop) :
  alu2 opc = Some g →
  match pushed (g x y) with
  | inl v => Q tt (fv pc st ls (v :: os))
  | inr s => ∀ m, T st.(s_trace) s m
  end → does (exec M (mkCuOp opc a b)) (fv pc st ls (y :: x :: os)) Q.
Proof using HT.
  intros Hg HQ. unfold exec, exec_alu. cbn [cu_op]. unfold alu2 in Hg.
  destruct (op_lookup opc unops); [done|]. destruct (op_lookup opc binops) as [f|].
  - injection Hg as <-. do 2 apply f_pop. apply does_push; [done|].
    unfold with_stack. simpl. rewrite <-!app_assoc. exact HQ.
  - rewrite Hg. do 2 apply f_pop. destruct (g x y) as [v|t]; simpl in HQ.
    + apply does_push; [done|]. unfold with_stack. simpl. rewrite <-!app_assoc. exact HQ.
    + by apply does_trap.
Qed.

Lemma f_push2 r pc st ls os (Q : unit → View → Prop) :
  in_u64 r.1 → in_u64 r.2 → Q tt (fv pc st ls (r.2 :: r.1 :: os)) → does (push2 r) (fv pc st ls os) Q.
Proof using HT. intros H1 H2 HQ. unfold push2. apply f_push_bind; [done..|]. by apply f_push. Qed.

Lemma does_clz bits b x pc st ls os (Q : unit → View → Prop) :
  bits = 32 ∨ bits = 64 → in_u64 x → Q tt (fv pc st ls (leading_zeros bits x :: os)) →
  does (exec M (mkCuOp OP_CLZ bits b)) (fv pc st ls (x :: os)) Q.
Proof using HT.
  intros Hb Hx HQ. change (exec M (mkCuOp OP_CLZ bits b)) with
    (v ← pop; match clz (if bits =? 0 then 64 else bits) v with Some n => push n | None => ub "clz" end).
  apply f_pop. replace (bits =? 0) with false by lia.
  destruct (clz_agrees bits x Hb Hx) as [-> Hin]. by apply f_push.
Qed.

Lemma does_const b v pc st ls os (Q : unit → View → Prop) :
  0 ≤ b → M.(hm_consts) !! Z.to_nat b = Some v → Q tt (fv pc st ls (u64 v :: os)) →
  does (exec M (mkCuOp OP_I64_CONST 0 b)) (fv pc st ls os) Q.
Proof using HT.
  intros Hb Hv HQ. change (exec M (mkCuOp OP_I64_CONST 0 b)) with
    (p ← get sp; trap_if (STACK_CAP <=? p) ST_TRAP_STACK_OVERFLOW;;
     v ← rd "consts" M.(hm_consts) b; push v).
  eapply f_get; [intros m Hm; apply Hm|]. apply does_trap_if.
  { intros Hc m Hm. apply (en_out _ HT). simpl. rewrite (se_sp _ _ Hm). simpl in *. lia. }
  intros _. eapply does_rd; [by apply index_Some|]. apply does_push; [done|].
  unfold with_stack. simpl. rewrite <-!app_assoc. exact HQ.
Qed.

(** ** Globals *)

Lemma does_global_get b v pc st ls os (Q : unit → View → Prop) :
  index st.(s_globals) b = Some v → in_u64 v → Q tt (fv pc st ls (v :: os)) →
  does (exec M (mkCuOp OP_GLOBAL_GET 0 b)) (fv pc st ls os) Q.
Proof using HT.
  intros Hv Hin HQ. change (exec M (mkCuOp OP_GLOBAL_GET 0 b)) with
    (g ← get globals; trap_if (len g <=? b) ST_UNSUPPORTED_OP;; v ← rd "globals" g b; push v).
  eapply f_get; [intros m Hm; apply Hm|]. simpl. pose proof (index_lt _ _ _ Hv).
  apply f_no_trap; [lia|]. eapply does_rd; [exact Hv|]. by apply f_push.
Qed.

Lemma does_global_set b v pc st ls os (Q : unit → View → Prop) :
  in_range st.(s_globals) b = true →
  Q tt (fv pc (with_globals (<[Z.to_nat b := v]> st.(s_globals)) st) ls os) →
  does (exec M (mkCuOp OP_GLOBAL_SET 0 b)) (fv pc st ls (v :: os)) Q.
Proof.
  intros Hr HQ. change (exec M (mkCuOp OP_GLOBAL_SET 0 b)) with
    (g ← get globals; trap_if (len g <=? b) ST_UNSUPPORTED_OP;;
     v ← pop; put (upd_globals (<[Z.to_nat b := v]> g))).
  eapply f_get; [intros m Hm; apply Hm|]. simpl. unfold in_range in Hr.
  apply f_no_trap; [lia|]. apply f_pop. eapply does_put; [|exact HQ|done].
  intros m []. by split.
Qed.

(** ** Memory *)

Lemma does_load nb sg i64dest off x pc st ls os (Q : unit → View → Prop) :
  store_ok M st → In (nb, sg, i64dest) widths → 0 ≤ off →
  let ea := w32 x + off in
  (if st.(s_msize) <? ea + nb then ∀ m, T st.(s_trace) ST_TRAP_MEM_OOB m
   else Q tt (fv pc st ls (loaded nb sg (if i64dest then 64 else 32) (le_value (read_mem st.(s_memory) ea nb)) :: os))) →
  does (exec M (mkCuOp OP_LOAD (load_flags nb sg i64dest) off)) (fv pc st ls (x :: os)) Q.
Proof using HT.
  intros Hst Hin Hoff ea HQ. destruct (load_flags_fields _ _ _ Hin) as (F1 & _ & _ & _ & _ & Hn).
  set (a := load_flags nb sg i64dest) in *.
  change (exec M (mkCuOp OP_LOAD a off)) with (exec_load a off). unfold exec_load. apply f_pop.
  eapply f_get; [intros m Hm; apply Hm|]. cbv zeta. rewrite F1. simpl. change (u32 x + off) with ea.
  assert (0 ≤ ea) as Hea by (unfold ea; pose proof (u32_range x) as Hr; unfold w32, u32 in *; lia).
  destruct Hst as [_ Hb Hms _ _ _]. unfold mem_in_bounds.
  destruct (s_msize st <? ea + nb) eqn:Ho.
  { apply does_trap_if; [intros _ m _; by apply HQ|].
    destruct (s_msize st <? nb) eqn:?; intros; exfalso; simpl in *; lia. }
  apply f_no_trap; [destruct (s_msize st <? nb) eqn:?; simpl; lia|].
  intros m Hm. apply ewp_bind. unfold ewp at 1.
  rewrite mem_load_value; [|lia|done|rewrite (se_memory _ _ Hm); simpl; lia|by rewrite (se_memory _ _ Hm)].
  rewrite (se_memory _ _ Hm). simpl (s_memory _). change (2 ^ (8 * 0)) with 1. rewrite Z.mul_1_l, Z.add_0_r, Z2Nat.id by lia.
  assert (0 ≤ le_value (read_mem st.(s_memory) ea nb) < 2 ^ (8 * nb)) as Hv.
  { pose proof (le_value_range _ (read_mem_Forall _ _ ea nb Hb)) as Hr.
    by rewrite (read_mem_len st.(s_memory) ea nb) in Hr by lia. }
  destruct (extend_load_loaded _ _ _ _ Hin Hv) as [He Hu]. fold a in He. rewrite He.
  exact (f_push _ pc st ls os Q Hu HQ m Hm).
Qed.

Lemma does_store nb off x v pc st ls os (Q : unit → View → Prop) :
  store_ok M st → In nb [1; 2; 4; 8] → 0 ≤ off →
  let ea := w32 x + off in
  (if st.(s_msize) <? ea + nb then ∀ m, T st.(s_trace) ST_TRAP_MEM_OOB m
   else Q tt (fv pc (with_memory (write_mem st.(s_memory) ea (le_split (Z.to_nat nb) v)) st) ls os)) →
  does (exec M (mkCuOp OP_STORE nb off)) (fv pc st ls (v :: x :: os)) Q.
Proof.
  intros Hst Hin Hoff ea HQ.
  change (exec M (mkCuOp OP_STORE nb off)) with (exec_store nb off). unfold exec_store. do 2 apply f_pop.
  eapply f_get; [intros m Hm; apply Hm|]. cbv zeta. simpl. change (u32 x + off) with ea.
  assert (0 ≤ ea) as Hea by (unfold ea; pose proof (u32_range x) as Hr; unfold w32, u32 in *; lia).
  assert (1 ≤ nb ≤ 8) as Hn by (simpl in Hin; lia).
  destruct Hst as [_ Hb Hms _ _ _]. unfold mem_in_bounds.
  destruct (s_msize st <? ea + nb) eqn:Ho.
  { apply does_trap_if; [intros _ m _; by apply HQ|].
    destruct (s_msize st <? nb) eqn:?; intros; exfalso; simpl in *; lia. }
  apply f_no_trap; [destruct (s_msize st <? nb) eqn:?; simpl; lia|].
  intros m Hm. unfold ewp.
  rewrite mem_store_write; [|lia|done|rewrite (se_memory _ _ Hm); simpl; lia].
  rewrite (se_memory _ _ Hm). simpl (s_memory _). change (2 ^ (8 * 0)) with 1. rewrite Z.add_0_r, Z.div_1_r.
  eexists. split; [|split; [|exact HQ]]; [destruct Hm; by split|done].
Qed.

Lemma does_size pc st ls os (Q : unit → View → Prop) :
  store_ok M st → Q tt (fv pc st ls (st.(s_msize) `div` WASM_PAGE :: os)) →
  does (exec M (mkCuOp OP_MEMORY_SIZE 0 0)) (fv pc st ls os) Q.
Proof using HT.
  intros [_ _ Hms Him Hsm _] HQ.
  change (exec M (mkCuOp OP_MEMORY_SIZE 0 0)) with (size ← get msize; push (size `div` WASM_PAGE)).
  eapply f_get; [intros m Hm; apply Hm|]. apply f_push; [|exact HQ]. simpl.
  unfold in_u64, WASM_PAGE. Z.to_euclidean_division_equations. lia.
Qed.

Lemma does_grow x pc st ls os (Q : unit → View → Prop) :
  store_ok M st →
  (let old := st.(s_msize) `div` WASM_PAGE in
   if len st.(s_memory) `div` WASM_PAGE <? old + w32 x then Q tt (fv pc st ls (2 ^ 32 - 1 :: os))
   else Q tt (fv pc (with_msize ((old + w32 x) * WASM_PAGE) st) ls (old :: os))) →
  does (exec M (mkCuOp OP_MEMORY_GROW 0 0)) (fv pc st ls (x :: os)) Q.
Proof using HT.
  intros [_ _ Hms Him Hsm _] HQ. change (exec M (mkCuOp OP_MEMORY_GROW 0 0)) with (exec_grow M).
  unfold exec_grow. apply f_pop. eapply f_get; [intros m Hm; apply Hm|]. cbv zeta in *. simpl.
  rewrite Him in HQ. change (u32 x) with (w32 x).
  set (old := st.(s_msize) `div` WASM_PAGE) in *. set (mx := len M.(hm_memory) `div` WASM_PAGE) in *.
  assert (mx ≤ 65536 ∧ mx * 65536 ≤ len M.(hm_memory) ∧ 0 ≤ old < 2 ^ 32) as (Hmx & Hmul & Hold).
  { unfold mx, old, WASM_PAGE. Z.to_euclidean_division_equations. lia. }
  assert (0 ≤ w32 x) by apply u32_range.
  destruct (mx <? old + w32 x) eqn:Hg; simpl.
  - by apply f_push.
  - replace (65536 <? old + w32 x) with false by lia.
    eapply does_put_bind; [|apply f_push; [|exact HQ]|done]; [|unfold in_u64; lia].
    intros m Hm. rewrite u32_id by (unfold WASM_PAGE; lia). destruct Hm. by split.
Qed.
End ops.
