(* ===== verification/LowerBulk.v ===== *)
(** * The bulk memory ops

    The loops of [memory.copy], [memory.fill] and [memory.init] write what the reference
    semantics writes, and the ops of the four bulk operators take a view of an
    activation where [basic_step] says. *)

From S2P Require Import Prelude Cuop Wasm Lower EnvTable Module ModuleSteps Engine EngineNum.
From S2P Require Import Verify VerifyFacts EngineInv EngineMem LowerInv.
From S2P Require Import Structured Backpatch LowerTree LowerBack EngineView LowerNum LowerMem LowerOps.
From stdpp Require Import base list strings.

Local Open Scope Z_scope.

(** ** Bytes *)

Lemma index_app {A} (l k : list A) i :
  index (l ++ k) i = if decide (i < len l) then index l i else index k (i - len l).
Proof.
  unfold index. destruct (decide (i < len l)) as [Hi|Hi].
  - destruct (0 <=? i) eqn:H0; [|done]. rewrite lookup_app_l; [done|]. unfold len in Hi. lia.
  - pose proof (len_nonneg l). replace (0 <=? i) with true by lia. replace (0 <=? i - len l) with true by lia.
    rewrite lookup_app_r by (unfold len in *; lia). f_equal. unfold len in *. lia.
Qed.

Lemma index_take {A} (l : list A) n i : i < n → index (take (Z.to_nat n) l) i = index l i.
Proof.
  intros Hi. unfold index. destruct (0 <=? i) eqn:H0; [|done]. apply lookup_take_lt. lia.
Qed.

Lemma index_drop {A} (l : list A) n i : 0 ≤ n → 0 ≤ i → index (drop (Z.to_nat n) l) i = index l (n + i).
Proof.
  intros Hn Hi. unfold index. replace (0 <=? i) with true by lia. replace (0 <=? n + i) with true by lia.
  rewrite lookup_drop. f_equal. lia.
Qed.

Lemma index_write mem d bs a :
  0 ≤ d → d + len bs ≤ len mem →
  index (write_mem mem d bs) a = if bool_decide (d ≤ a < d + len bs) then index bs (a - d) else index mem a.
Proof.
  intros Hd Hl. pose proof (len_nonneg bs). unfold write_mem.
  assert (len (take (Z.to_nat d) mem) = d) as Ht by (unfold len in *; rewrite length_take; lia).
  rewrite !index_app, Ht. destruct (decide (a < d)) as [Had|Had].
  - rewrite bool_decide_eq_false_2 by lia. by apply index_take.
  - destruct (decide _) as [Ha|Ha].
    + by rewrite bool_decide_eq_true_2 by lia.
    + rewrite bool_decide_eq_false_2 by lia. replace (Z.to_nat d + length bs)%nat with (Z.to_nat (d + len bs))
        by (unfold len; lia). rewrite index_drop by lia. f_equal. lia.
Qed.

Lemma index_read mem s n j : 0 ≤ s → 0 ≤ j < n → index (read_mem mem s n) j = index mem (s + j).
Proof. intros Hs Hj. unfold read_mem. rewrite index_take by lia. rewrite index_drop; lia || done. Qed.

Lemma index_ext (l k : list Z) : (∀ a, 0 ≤ a → index l a = index k a) → l = k.
Proof.
  intros H. apply list_eq. intros i. specialize (H (Z.of_nat i) ltac:(lia)). unfold index in H.
  rewrite (proj2 (Z.leb_le 0 (Z.of_nat i))), Nat2Z.id in H by apply Nat2Z.is_nonneg. done.
Qed.

(** ** Loops that touch the memory only *)

Definition memory_only {A} (c : EM A) : Prop := ∀ m, ∃ mem, (c m).2 = upd_memory mem m.

Lemma memory_only_ret {A} (a : A) : memory_only (mret a).
Proof. intros m. exists m.(memory). by destruct m. Qed.

Lemma memory_only_bind {A B} (c : EM A) (k : A → EM B) :
  memory_only c → (∀ a, memory_only (k a)) → memory_only (c ≫= k).
Proof.
  intros Hc Hk m. destruct (Hc m) as [mem1 H1]. unfold mbind, EM_bind.
  destruct (c m) as [[a|s|w] m1]; simpl in H1; subst m1; try by exists mem1.
  destruct (Hk a (upd_memory mem1 m)) as [mem2 ->]. by exists mem2.
Qed.

Lemma memory_only_at a : memory_only (mem_at a).
Proof.
  intros m. exists m.(memory). unfold mem_at, mbind, EM_bind, get, rd. destruct (index m.(memory) a); by destruct m.
Qed.

Lemma memory_only_set a v : memory_only (mem_set a v).
Proof.
  intros m. unfold mem_set. unfold mbind, EM_bind, get. destruct (in_range _ _); [by eexists|].
  exists m.(memory). by destruct m.
Qed.

#[local] Hint Resolve memory_only_ret memory_only_bind memory_only_at memory_only_set : core.

Lemma memory_only_move dst src n : memory_only (mem_move dst src n).
Proof.
  unfold mem_move, move_within. destruct (dst <=? src).
  - generalize 0. induction (Z.to_nat n) as [|k IH]; intros i; simpl; auto.
  - induction (Z.to_nat n) as [|k IH]; simpl; auto.
Qed.

Lemma mem_move_write dst src n m :
  0 ≤ n → 0 ≤ dst → 0 ≤ src → dst + n ≤ len m.(memory) → src + n ≤ len m.(memory) →
  mem_move dst src n m = (Val tt, upd_memory (write_mem m.(memory) dst (read_mem m.(memory) src n)) m).
Proof.
  intros Hn Hd Hs Hdn Hsn. destruct (memory_only_move dst src n m) as [mem Hmem].
  assert (∃ m', mem_move dst src n m = (Val tt, m') ∧
    ∀ a, 0 ≤ a → byte m' a = if bool_decide (dst ≤ a < dst + n) then byte m (src + (a - dst)) else byte m a)
    as (m' & Hm & Hb).
  { unfold mem_move, move_within. destruct (dst <=? src) eqn:Hle.
    - destruct (copy_up_spec (Z.to_nat n) dst src 0 m) as (m' & ? & _ & Hb); [lia..|].
      exists m'. split; [done|]. intros a Ha. rewrite Hb, Z2Nat.id, Z.add_0_r by done. done.
    - destruct (copy_down_spec (Z.to_nat n) dst src m) as (m' & ? & _ & Hb); [lia..|].
      exists m'. split; [done|]. intros a Ha. rewrite Hb, Z2Nat.id by done. done. }
  rewrite Hm in *. simpl in Hmem. subst m'. do 2 f_equal. apply index_ext. intros a Ha.
  specialize (Hb a Ha). unfold byte in Hb. simpl in Hb. rewrite Hb, index_write by (rewrite ?read_mem_len; lia).
  rewrite read_mem_len by lia. case_bool_decide; [|done]. by rewrite index_read by lia.
Qed.

Lemma fill_write dst i n v m :
  0 ≤ dst + i → dst + i + Z.of_nat n ≤ len m.(memory) →
  fill_loop dst i n v m = (Val tt, upd_memory (write_mem m.(memory) (dst + i) (replicate n v)) m).
Proof.
  revert i m. induction n as [|n IH]; intros i m H0 Hn.
  - simpl. rewrite write_mem_nil. by destruct m.
  - cbn [fill_loop]. unfold mbind, EM_bind. rewrite mem_set_eq by lia.
    rewrite IH by (simpl; rewrite ?len_insert; lia). unfold upd_memory. cbn -[write_mem]. do 2 f_equal.
    rewrite Z.add_assoc. apply write_mem_cons; [lia|]. rewrite len_replicate. lia.
Qed.

Lemma init_write M dst src i n m :
  0 ≤ src → 0 ≤ i → src + i + Z.of_nat n ≤ len M.(hm_data_blob) → len M.(hm_data_blob) < 2 ^ 32 →
  0 ≤ dst → dst + i + Z.of_nat n ≤ len m.(memory) →
  copy_up (fun i => blob_at M (u32 i)) mem_set dst src i n m =
    (Val tt, upd_memory (write_mem m.(memory) (dst + i) (read_mem M.(hm_data_blob) (src + i) (Z.of_nat n))) m).
Proof.
  intros Hs. revert i m. induction n as [|n IH]; intros i m Hi Hb Hsm Hd Hn.
  - simpl. change (read_mem _ _ 0) with (@nil Z). rewrite write_mem_nil. by destruct m.
  - destruct (index_is_Some M.(hm_data_blob) (src + i)) as [x Hx]; [lia|].
    cbn [copy_up]. unfold mbind, EM_bind. unfold blob_at at 1. rewrite u32_id by lia. unfold rd. rewrite Hx.
    unfold mret, EM_ret. rewrite mem_set_eq by lia.
    rewrite IH by (simpl; rewrite ?len_insert; lia). unfold upd_memory. cbn -[write_mem Z.of_nat]. do 2 f_equal.
    rewrite (read_mem_cons _ (src + i) (Z.of_nat (S n)) x), !Z.add_assoc by (lia || done).
    replace (Z.of_nat (S n) - 1) with (Z.of_nat n) by lia. apply write_mem_cons; [lia|].
    rewrite read_mem_len by lia. lia.
Qed.

(** ** The ops *)

Section bulk.
Context {WD : World} (M : HostModule) (T : Trace → Status → Machine → Prop).
Context (datas : list (list Z)) (HD : datas_ok M datas).
Context (lo : list Z) (frs : list Frame).

Abbreviation does := (does T).
Abbreviation fv := (fv lo frs).

(** Code that writes the memory. *)
Lemma f_write c mem pc st ls os (Q : unit → View → Prop) :
  (∀ m, m.(memory) = st.(s_memory) → c m = (Val tt, upd_memory mem m)) →
  Q tt (fv pc (with_memory mem st) ls os) → does c (fv pc st ls os) Q.
Proof.
  intros Hc HQ m Hm. unfold ewp. rewrite Hc by apply Hm. eexists. split; [|split; [|exact HQ]]; [|done].
  destruct Hm. by split.
Qed.

Lemma u32_nonneg x : 0 ≤ w32 x.
Proof. apply u32_range. Qed.

Lemma does_copy n s d pc st ls os (Q : unit → View → Prop) :
  store_ok M st →
  (if (st.(s_msize) <? w32 s + w32 n) || (st.(s_msize) <? w32 d + w32 n)
   then ∀ m, T st.(s_trace) ST_TRAP_MEM_OOB m
   else Q tt (fv pc (with_memory (write_mem st.(s_memory) (w32 d) (read_mem st.(s_memory) (w32 s) (w32 n))) st) ls os)) →
  does (exec M (mkCuOp OP_MEMORY_COPY 0 0)) (fv pc st ls (n :: s :: d :: os)) Q.
Proof.
  intros Hst HQ. change (exec M (mkCuOp OP_MEMORY_COPY 0 0)) with exec_copy. unfold exec_copy.
  do 3 apply f_pop. eapply f_get; [intros m Hm; apply Hm|]. simpl.
  change (u32 n) with (w32 n). change (u32 s) with (w32 s). change (u32 d) with (w32 d).
  pose proof (u32_nonneg n). pose proof (u32_nonneg s). pose proof (u32_nonneg d).
  apply does_trap_if; intros Hb; rewrite Hb in HQ; [by intros m _|].
  apply orb_false_iff in Hb as [Hc1 Hc2]. pose proof (so_msize _ _ Hst).
  eapply f_write; [|exact HQ]. intros m Hm. rewrite <-Hm in *. apply mem_move_write; lia.
Qed.

Lemma does_fill n x d pc st ls os (Q : unit → View → Prop) :
  store_ok M st →
  (if st.(s_msize) <? w32 d + w32 n then ∀ m, T st.(s_trace) ST_TRAP_MEM_OOB m
   else Q tt (fv pc (with_memory (write_mem st.(s_memory) (w32 d) (replicate (Z.to_nat (w32 n)) (x mod 2 ^ 8))) st) ls os)) →
  does (exec M (mkCuOp OP_MEMORY_FILL 0 0)) (fv pc st ls (n :: x :: d :: os)) Q.
Proof.
  intros Hst HQ. change (exec M (mkCuOp OP_MEMORY_FILL 0 0)) with exec_fill. unfold exec_fill.
  do 3 apply f_pop. eapply f_get; [intros m Hm; apply Hm|]. simpl.
  change (u32 n) with (w32 n). change (u32 d) with (w32 d).
  pose proof (u32_nonneg n). pose proof (u32_nonneg d).
  apply does_trap_if; intros Hb; rewrite Hb in HQ; [by intros m _|]. pose proof (so_msize _ _ Hst).
  eapply f_write; [|exact HQ]. intros m Hm. rewrite <-Hm in *. rewrite fill_write by lia. by rewrite Z.add_0_r.
Qed.

Lemma segment_bytes st i bs :
  segment datas st i = Some bs → Forall is_byte bs.
Proof using HD.
  unfold segment. destruct (index datas i) as [b|] eqn:Hb; [|done]. simpl.
  destruct (index st.(s_live) i) as [l|]; [|done]. simpl. intros [= <-]. destruct (l =? 0); [done|].
  apply index_Some in Hb as [_ Hb]. destruct HD as [Hs _ Hby].
  destruct (Hs _ _ Hb) as (off & _ & _ & _ & _ & <-). by apply read_mem_Forall.
Qed.

Lemma does_init i n s d pc st ls os bs (Q : unit → View → Prop) :
  store_ok M st → segment datas st i = Some bs →
  (if (len bs <? w32 s + w32 n) || (st.(s_msize) <? w32 d + w32 n)
   then ∀ m, T st.(s_trace) ST_TRAP_MEM_OOB m
   else Q tt (fv pc (with_memory (write_mem st.(s_memory) (w32 d) (read_mem bs (w32 s) (w32 n))) st) ls os)) →
  does (exec M (mkCuOp OP_MEMORY_INIT (u16 i) 0)) (fv pc st ls (n :: s :: d :: os)) Q.
Proof using HD.
  intros Hst Hseg HQ. unfold segment in Hseg. destruct (index datas i) as [b|] eqn:Hb; [|done]. simpl in Hseg.
  destruct (index st.(s_live) i) as [l|] eqn:Hl; [|done]. injection Hseg as Hbs.
  pose proof (index_lt _ _ _ Hl). pose proof (so_live _ _ Hst). rewrite u16_id by lia.
  change (exec M (mkCuOp OP_MEMORY_INIT i 0)) with (exec_init M i). unfold exec_init.
  do 3 apply f_pop. eapply f_get; [intros m Hm; apply Hm|]. simpl.
  apply f_no_trap; [lia|]. eapply does_rd; [exact Hl|].
  change (u32 n) with (w32 n). change (u32 s) with (w32 s). change (u32 d) with (w32 d).
  pose proof (u32_nonneg n). pose proof (u32_nonneg s). pose proof (u32_nonneg d).
  apply index_Some in Hb as [_ Hb]. destruct HD as [Hs Hblob _].
  destruct (Hs _ _ Hb) as (off & Ho & Hn & Hoff & Hend & Hread).
  set (v := fv pc st ls os). assert (∃ off', off' + len bs ≤ len M.(hm_data_blob) ∧ 0 ≤ off' ∧
    (∀ k, 0 ≤ k → w32 s + k ≤ len bs → read_mem M.(hm_data_blob) (off' + w32 s) k = read_mem bs (w32 s) k) ∧
    ∀ k R, does (k (len bs) off') v R →
      does (dlen ← (if l =? 0 then mret 0 else rd "data.len" M.(hm_data_len) i);
            doff ← (if l =? 0 then mret 0 else rd "data.off" M.(hm_data_off) i); k dlen doff : EM unit) v R)
    as (off' & Hle & Hoff' & Hsub & Hk).
  { destruct (l =? 0); subst bs.
    - exists 0. split_and!; [pose proof (len_nonneg M.(hm_data_blob)); by autorewrite with len| done| |done].
      intros k Hk Hle. autorewrite with len in Hle. by replace k with 0 by lia.
    - exists off. split_and!; [lia|done| |].
      + intros k Hk Hle. apply index_ext. intros a Ha. rewrite <-Hread.
        destruct (decide (a < k)) as [Hak|Hak].
        * rewrite !index_read by lia. f_equal. lia.
        * unfold index. replace (0 <=? a) with true by lia.
          rewrite !(proj2 (lookup_ge_None _ _)); [done|..];
            unfold read_mem; rewrite length_take; lia.
      + intros k R HR. eapply does_rd; [apply index_Some; split; [lia|exact Hn]|].
        eapply does_rd; [apply index_Some; split; [lia|exact Ho]|exact HR]. }
  apply Hk. eapply f_get; [intros m Hm; apply Hm|]. simpl.
  apply does_trap_if; intros Hcond; rewrite Hcond in HQ; [by intros m _|].
  apply orb_false_iff in Hcond as [Hc1 Hc2]. pose proof (so_msize _ _ Hst).
  destruct (len M.(hm_data_blob) =? 0) eqn:He.
  - apply does_ret. assert (w32 n = 0) as Hn0 by lia. rewrite Hn0 in HQ.
    change (read_mem bs (w32 s) 0) with (@nil Z) in HQ. rewrite write_mem_nil in HQ. by destruct st.
  - eapply f_write; [|exact HQ]. intros m Hm. rewrite <-Hm in *.
    rewrite init_write by lia. rewrite !Z.add_0_r, Z2Nat.id by lia. by rewrite Hsub by lia.
Qed.

Lemma does_drop i pc st ls os (Q : unit → View → Prop) :
  store_ok M st → in_range st.(s_live) i = true →
  Q tt (fv pc (with_live (<[Z.to_nat i := 0]> st.(s_live)) st) ls os) →
  does (exec M (mkCuOp OP_DATA_DROP (u16 i) 0)) (fv pc st ls os) Q.
Proof.
  intros Hst Hr HQ. unfold in_range in Hr. pose proof (so_live _ _ Hst). rewrite u16_id by lia.
  change (exec M (mkCuOp OP_DATA_DROP i 0)) with (exec_drop_data i). unfold exec_drop_data.
  eapply f_get; [intros m Hm; apply Hm|]. simpl. apply f_no_trap; [lia|].
  eapply does_put; [|exact HQ|done]. intros m []. by split.
Qed.
End bulk.
