(* ===== verification/LowerBasic.v ===== *)
(** * Operators without control

    [basic_step] is simulated by the ops [emits] gives: from the view of an activation
    the machine reaches the view of the result, or traps as the operator does. *)

From S2P Require Import Prelude Cuop Wasm Lower EnvTable Module ModuleSteps Engine EngineNum.
From S2P Require Import Verify VerifyFacts EngineInv EngineMem LowerInv.
From S2P Require Import Structured Backpatch LowerTree LowerBack EngineView LowerNum LowerMem LowerOps LowerBulk.
From stdpp Require Import base list strings.

Local Open Scope Z_scope.

(** ** The operand stack below *)

(** An operator that is not stuck does not look below its operands. *)
Lemma basic_step_below datas o st ls vs outer :
  basic_step datas o st ls vs ≠ BStuck →
  basic_step datas o st ls (vs ++ outer) =
    match basic_step datas o st ls vs with
    | BOk st' ls' vs' => BOk st' ls' (vs' ++ outer)
    | r => r
    end.
Proof.
  unfold basic_step.
  destruct (wasm_const o); [done|]. destruct (wasm_un o); [by destruct vs|].
  destruct (wasm_bin o) as [f|].
  { destruct vs as [|b [|a vs]]; [done..|]. simpl. by destruct (f a b). }
  destruct (wasm_load o) as [[[[n sg] bits] off]|].
  { destruct vs as [|a vs]; [done|]. simpl. by destruct (_ <? _). }
  destruct (wasm_store o) as [[n off]|].
  { destruct vs as [|v [|a vs]]; [done..|]. simpl. by destruct (_ <? _). }
  destruct o; try done; destruct vs as [|v1 [|v2 [|v3 [|v4 vs]]]]; simpl; try done;
    repeat (case_match; simpl; try done).
Qed.

(** ** Simulation *)

Section basic.
Context {WD : World} (M : HostModule) (T : Trace → Status → Machine → Prop) (HT : ends T).
Context (datas : list (list Z)) (HD : datas_ok M datas).
Context (E : FnEnv) (Hcode : len M.(hm_code) < 2 ^ 32).
Context (lo : list Z) (frs : list Frame).

Abbreviation goes := (goes M T).
Abbreviation ops_at := (ops_at M.(hm_code)).
Abbreviation fv := (fv lo frs).

(** Every run from [v] passes through [v']. *)
Definition reaches (v v' : View) : Prop := ∀ Q, goes v' Q → goes v Q.

#[local] Instance reaches_preorder : PreOrder reaches.
Proof. split; [by intros v Q|]. intros v1 v2 v3 H1 H2 Q HQ. by apply H1, H2. Qed.

Lemma reaches_op in_ pc st ls os v' :
  0 ≤ pc → ops_at pc [in_] →
  does T (exec M in_) (fv (pc + 1) st ls os) (fun _ v => v = v') → reaches (fv pc st ls os) v'.
Proof using HT Hcode. intros Hpc Ho Hd Q HQ. by eapply f_op. Qed.

(** With at least one op. *)
Definition reaches1 (v v' : View) : Prop := ∀ Q, goes v' Q → goes1 M T v Q.

Lemma reaches1_op in_ pc st ls os v' :
  0 ≤ pc → ops_at pc [in_] →
  does T (exec M in_) (fv (pc + 1) st ls os) (fun _ v => v = v') → reaches1 (fv pc st ls os) v'.
Proof using HT Hcode. intros Hpc Ho Hd Q HQ. by eapply f_op1. Qed.

Lemma reaches1_reaches v v' : reaches1 v v' → reaches v v'.
Proof. intros H Q HQ. by apply goes1_goes, H. Qed.

Lemma reaches_reaches1 v v1 v' : reaches v v1 → reaches1 v1 v' → reaches1 v v'.
Proof.
  intros H1 H2 Q HQ. eapply goes_goes1; [apply H1; by apply goes_here, (eq_refl v1)|]. intros v2 <-. by apply H2.
Qed.

Lemma Forall_insert_in {A} (P : A → Prop) l i x : Forall P l → P x → Forall P (<[i:=x]> l).
Proof. intros. by apply Forall_insert. Qed.

(** What holds of the result of an operator. *)
Record good (st : Store) (ls vs : list Z) : Prop := {
  gd_store : store_ok M st;
  gd_locals : Forall in_u64 ls;
  gd_operands : Forall in_u64 vs }.

Definition effect_len (eff : option (Z * Z)) (h : Z) : Z :=
  match eff with Some (p, q) => h - p + q | None => h end.

Definition simulated (ops : list CuOpC) (eff : option (Z * Z)) (scr : list Z) (pc : Z) (st : Store)
    (ls vs : list Z) (r : bres) : Prop :=
  match r with
  | BOk st' ls' vs' =>
      reaches (fv pc st (ls ++ scr) vs) (fv (pc + len ops) st' (ls' ++ scr) vs') ∧ good st' ls' vs' ∧
      len ls' = len ls ∧ len vs' = effect_len eff (len vs)
  | BTrap s => (∀ m, T st.(s_trace) s m) → ∀ Q, goes (fv pc st (ls ++ scr) vs) Q
  | BStuck => True
  end.

Lemma simulated_one in_ eff scr pc st ls vs st' ls' vs' :
  0 ≤ pc → ops_at pc [in_] →
  does T (exec M in_) (fv (pc + 1) st (ls ++ scr) vs) (fun _ v => v = fv (pc + 1) st' (ls' ++ scr) vs') →
  good st' ls' vs' → len ls' = len ls → len vs' = effect_len eff (len vs) →
  simulated [in_] eff scr pc st ls vs (BOk st' ls' vs').
Proof using HT Hcode. intros Hpc Hops Hd Hg Hl Hv. split_and!; [by eapply reaches_op|done..]. Qed.

Lemma simulated_trap in_ eff scr pc st ls vs s :
  0 ≤ pc → ops_at pc [in_] →
  ((∀ m, T st.(s_trace) s m) → does T (exec M in_) (fv (pc + 1) st (ls ++ scr) vs) (fun _ _ => False)) →
  simulated [in_] eff scr pc st ls vs (BTrap s).
Proof using HT Hcode. intros Hpc Hops Hd Ht Q. eapply f_op_trap; [done..|]. by apply Hd. Qed.

Lemma simulated_select scr pc st ls vs o :
  o = Select ∨ o = TypedSelect → 0 ≤ pc → ops_at pc [mkCuOp OP_SELECT 0 0] → good st ls vs →
  simulated [mkCuOp OP_SELECT 0 0] (Some (3, 1)) scr pc st ls vs (basic_step datas o st ls vs).
Proof using HT Hcode.
  intros Ho Hpc Hops [Hst Hls Hvs]. assert (basic_step datas o st ls vs = basic_step datas Select st ls vs) as ->
    by (by destruct Ho as [-> | ->]).
  destruct vs as [|c [|b [|a vs]]]; [done..|].
  apply Forall_cons in Hvs as [_ [Hb [Ha Hvs]%Forall_cons]%Forall_cons].
  change (basic_step _ _ _ _ _) with (BOk st ls ((if w32 c =? 0 then b else a) :: vs)).
  assert (in_u64 (if w32 c =? 0 then b else a)) by (by destruct (_ =? _)).
  apply simulated_one; [done..| |split; [done|done|by constructor]|done|simpl; autorewrite with len; lia].
  change (exec M (mkCuOp OP_SELECT 0 0)) with
    (c ← pop; b ← pop; a ← pop; push (if u32 c =? 0 then b else a)).
  do 3 apply f_pop. by apply f_push.
Qed.

(** Two words pushed, the low one first. *)
Lemma simulated_pair in_ p scr pc st ls vs os x :
  0 ≤ pc → ops_at pc [in_] →
  does T (exec M in_) (fv (pc + 1) st (ls ++ scr) vs)
    (fun _ v => v = fv (pc + 1) st (ls ++ scr) ((halves x).2 :: (halves x).1 :: os)) →
  good st ls os → len os = len vs - p →
  simulated [in_] (Some (p, 2)) scr pc st ls vs (BOk st ls ((halves x).2 :: (halves x).1 :: os)).
Proof using HT Hcode.
  intros Hpc Hops Hd [Hst Hls Hos] Hl. destruct (halves_in_u64 x).
  apply simulated_one; [done..|split; [done|done|constructor; [done|by constructor]]|done|].
  simpl. autorewrite with len. lia.
Qed.

(** The operators on 128 bits, [drop] and [select]. *)
Lemma simulated_other o opc p q pc st ls scr vs :
  plain_op o = Some (opc, p, q) → wasm_un o = None → wasm_bin o = None →
  0 ≤ pc → ops_at pc [mkCuOp opc 0 0] → good st ls vs →
  simulated [mkCuOp opc 0 0] (Some (p, q)) scr pc st ls vs (basic_step datas o st ls vs).
Proof using HT Hcode.
  intros Hp Hun Hbin Hpc Hops [Hst Hls Hvs].
  destruct o; try discriminate Hp; try discriminate Hun; try discriminate Hbin; injection Hp as <- <- <-.
  - destruct vs as [|a vs]; [done|]. apply Forall_cons in Hvs as [_ Hvs].
    apply simulated_one; [done..| |by split|done|simpl; autorewrite with len; lia].
    change (exec M (mkCuOp OP_DROP 0 0)) with (pop;; mret (M := EM) tt). apply f_pop. by apply does_ret.
  - apply simulated_select; [by left|done..].
  - apply simulated_select; [by right|done..].
  - destruct vs as [|b [|a vs]]; [done..|]. apply Forall_cons in Hvs as [Hb [Ha Hvs]%Forall_cons].
    apply simulated_pair; [done..| |by split|simpl; autorewrite with len; lia].
    change (exec M (mkCuOp OP_I64_MUL_WIDE_S 0 0)) with
      (b ← pop; a ← pop; push2 (mul_wide_s a b)). do 2 apply f_pop.
    rewrite <-mul_wide_s_agrees by done. by apply f_push2; [exact HT|apply halves_in_u64..|].
  - destruct vs as [|b [|a vs]]; [done..|]. apply Forall_cons in Hvs as [Hb [Ha Hvs]%Forall_cons].
    apply simulated_pair; [done..| |by split|simpl; autorewrite with len; lia].
    change (exec M (mkCuOp OP_I64_MUL_WIDE_U 0 0)) with
      (b ← pop; a ← pop; push2 (mul_wide_u a b)). do 2 apply f_pop.
    rewrite <-mul_wide_u_agrees by done. by apply f_push2; [exact HT|apply halves_in_u64..|].
  - destruct vs as [|bh [|bl [|ah [|al vs]]]]; [done..|].
    apply Forall_cons in Hvs as [Hbh [Hbl [Hah [Hal Hvs]%Forall_cons]%Forall_cons]%Forall_cons].
    apply simulated_pair; [done..| |by split|simpl; autorewrite with len; lia].
    change (exec M (mkCuOp OP_I64_ADD128 0 0)) with
      (rh ← pop; rl ← pop; lh ← pop; ll ← pop; push2 (add128 ll lh rl rh)). do 4 apply f_pop.
    rewrite <-add128_agrees by done. by apply f_push2; [exact HT|apply halves_in_u64..|].
  - destruct vs as [|bh [|bl [|ah [|al vs]]]]; [done..|].
    apply Forall_cons in Hvs as [Hbh [Hbl [Hah [Hal Hvs]%Forall_cons]%Forall_cons]%Forall_cons].
    apply simulated_pair; [done..| |by split|simpl; autorewrite with len; lia].
    change (exec M (mkCuOp OP_I64_SUB128 0 0)) with
      (rh ← pop; rl ← pop; lh ← pop; ll ← pop; push2 (sub128 ll lh rl rh)). do 4 apply f_pop.
    rewrite <-sub128_agrees by done. by apply f_push2; [exact HT|apply halves_in_u64..|].
Qed.

Lemma simulated_plain o opc p q pc st ls scr vs :
  plain_op o = Some (opc, p, q) → 0 ≤ pc → ops_at pc [mkCuOp opc 0 0] → good st ls vs →
  simulated [mkCuOp opc 0 0] (Some (p, q)) scr pc st ls vs (basic_step datas o st ls vs).
Proof using HT Hcode.
  intros Hp Hpc Hops Hg. destruct (wasm_un o) as [f|] eqn:Hun.
  - assert (basic_step datas o st ls vs = match vs with a :: vs => BOk st ls (f a :: vs) | _ => BStuck end) as ->.
    { unfold basic_step. rewrite Hun. by assert (wasm_const o = None) as -> by (by destruct o). }
    destruct Hg as [Hst Hls Hvs].
    destruct (un_agrees o f Hun) as [opc' g Hp' Hg Ha|bits Hb -> _|Hr _].
    + rewrite Hp' in Hp. injection Hp as -> <- <-. destruct vs as [|a vs]; [done|].
      apply Forall_cons in Hvs as [Hva Hvs]. destruct (Ha a Hva) as [Hf Hin].
      apply simulated_one; [done..| |by split; auto|done|simpl; autorewrite with len; lia].
      eapply does_alu1; [exact HT|done|]. by rewrite Hf.
    + destruct Hb as [-> | ->]; discriminate Hp.
    + destruct o; discriminate Hr || discriminate Hp.
  - destruct (wasm_bin o) as [f|] eqn:Hbin; [|by apply simulated_other].
    destruct (bin_agrees o f Hbin) as (opc' & g & Hp' & Hg' & Ha). rewrite Hp' in Hp. injection Hp as -> <- <-.
    assert (basic_step datas o st ls vs = match vs with b :: a :: vs =>
      match f a b with inl v => BOk st ls (v :: vs) | inr t => BTrap t end | _ => BStuck end) as ->.
    { unfold basic_step. rewrite Hun, Hbin. by assert (wasm_const o = None) as -> by (by destruct o). }
    destruct Hg as [Hst Hls Hvs]. destruct vs as [|b [|a vs]]; [done..|].
    apply Forall_cons in Hvs as [Hvb [Hva Hvs]%Forall_cons]. destruct (Ha a b Hva Hvb) as [Hf Hin].
    destruct (f a b) as [v|s].
    + apply simulated_one; [done..| |by split; auto|done|simpl; autorewrite with len; lia].
      eapply does_alu2; [exact HT|done|]. by rewrite Hf.
    + apply simulated_trap; [done..|]. intros Ht. eapply does_alu2; [exact HT|done|]. by rewrite Hf.
Qed.

(** ** The other operators *)

Lemma good_store st st' ls vs : store_ok M st' → good st ls vs → good st' ls vs.
Proof. intros ? []. by split. Qed.

Lemma good_push x st ls vs : in_u64 x → good st ls vs → good st ls (x :: vs).
Proof. intros Hx [H1 H2 H3]. split; [done|done|]. by constructor. Qed.

Lemma good_pop x st ls vs : good st ls (x :: vs) → in_u64 x ∧ good st ls vs.
Proof. intros [H1 H2 [Hx Hvs]%Forall_cons]. done. Qed.

Lemma simulated_const o v idx pc st ls scr vs :
  const_op o = Some v → 0 ≤ idx → M.(hm_consts) !! Z.to_nat idx = Some v →
  0 ≤ pc → ops_at pc [mkCuOp OP_I64_CONST 0 idx] → good st ls vs →
  simulated [mkCuOp OP_I64_CONST 0 idx] (Some (0, 1)) scr pc st ls vs (basic_step datas o st ls vs).
Proof using HT Hcode.
  intros Hc Hi HK Hpc Hops Hg. assert (basic_step datas o st ls vs = BOk st ls (u64 v :: vs)) as ->.
  { unfold basic_step. assert (wasm_const o = Some (u64 v)) as ->; [|done].
    destruct o; try discriminate Hc; injection Hc as <-; simpl;
      rewrite ?u64_u64, ?u64_u32; done. }
  apply simulated_one; [done..| |apply good_push; [apply in_u64_u64|done]|done|simpl; autorewrite with len; lia].
  by eapply does_const.
Qed.

Lemma check_memarg_off m off : check_memarg m = Ok off → 0 ≤ m.(ma_offset) → off = m.(ma_offset).
Proof.
  unfold check_memarg. destruct (negb _); [done|]. destruct (_ <? m.(ma_offset)) eqn:Ho; [done|].
  intros [= <-] ?. apply u32_id. lia.
Qed.

Lemma simulated_load o nb sg i64dest m off pc st ls scr vs :
  load_op o = Some (nb, sg, i64dest, m) → check_memarg m = Ok off → offset_ok o = true →
  0 ≤ pc → ops_at pc [mkCuOp OP_LOAD (load_flags nb sg i64dest) off] → good st ls vs →
  simulated [mkCuOp OP_LOAD (load_flags nb sg i64dest) off] (Some (1, 1)) scr pc st ls vs (basic_step datas o st ls vs).
Proof using HT Hcode.
  intros Hl Hoff Hok Hpc Hops Hg. destruct (load_agrees _ _ _ _ _ Hl) as [Hw Hin].
  assert (wasm_const o = None ∧ wasm_un o = None ∧ wasm_bin o = None) as (Hn1 & Hn2 & Hn3)
    by (by destruct o).
  unfold offset_ok in Hok. rewrite Hw in Hok. apply Z.leb_le in Hok.
  apply check_memarg_off in Hoff as ->; [|done].
  unfold basic_step. rewrite Hn1, Hn2, Hn3, Hw. destruct vs as [|a vs]; [done|]. cbv zeta.
  apply good_pop in Hg as [Ha Hg]. pose proof (gd_store _ _ _ Hg) as Hst.
  assert (0 ≤ w32 a) as Hwa by apply u32_range. pose proof (load_flags_fields _ _ _ Hin) as Hf. cbv zeta in Hf.
  destruct (s_msize st <? w32 a + ma_offset m + nb) eqn:Ho.
  - apply simulated_trap; [done..|]. intros Ht. eapply does_load; [exact HT|done..|]. by rewrite Ho.
  - apply simulated_one; [done..| | |done|simpl; autorewrite with len; lia].
    + eapply does_load; [exact HT|done..|]. by rewrite Ho.
    + apply good_push; [|done]. eapply extend_load_loaded; [done|].
      destruct Hst as [_ Hb Hms _ _ _].
      pose proof (le_value_range _ (read_mem_Forall _ _ (w32 a + ma_offset m) nb Hb)) as Hr.
      by rewrite read_mem_len in Hr by lia.
Qed.

Lemma le_split_bytes n v : Forall is_byte (le_split n v).
Proof.
  revert v. induction n as [|n IH]; intros v; simpl; constructor; [|done].
  unfold is_byte. by apply Z.mod_pos_bound.
Qed.

Lemma write_mem_ok st a bs :
  store_ok M st → Forall is_byte bs → 0 ≤ a → a + len bs ≤ len st.(s_memory) →
  store_ok M (with_memory (write_mem st.(s_memory) a bs) st).
Proof.
  intros [H1 H2 H3 H4 H5 H6] Hbs Ha Hlen. pose proof (write_mem_len _ _ _ Ha Hlen) as Hl.
  split; simpl; [done| |by rewrite Hl|by rewrite Hl|done|done].
  unfold write_mem. rewrite !Forall_app. split_and!; [by apply Forall_take|done|by apply Forall_drop].
Qed.

Lemma simulated_store o nb m off pc st ls scr vs :
  store_op o = Some (nb, m) → check_memarg m = Ok off → offset_ok o = true →
  0 ≤ pc → ops_at pc [mkCuOp OP_STORE nb off] → good st ls vs →
  simulated [mkCuOp OP_STORE nb off] (Some (2, 0)) scr pc st ls vs (basic_step datas o st ls vs).
Proof using HT Hcode.
  intros Hl Hoff Hok Hpc Hops Hg. destruct (store_agrees _ _ _ Hl) as [Hw Hin].
  assert (wasm_const o = None ∧ wasm_un o = None ∧ wasm_bin o = None ∧ wasm_load o = None)
    as (Hn1 & Hn2 & Hn3 & Hn4) by (by destruct o).
  unfold offset_ok in Hok. rewrite Hn4, Hw in Hok. apply Z.leb_le in Hok.
  apply check_memarg_off in Hoff as ->; [|done].
  unfold basic_step. rewrite Hn1, Hn2, Hn3, Hn4, Hw. destruct vs as [|v [|a vs]]; [done..|]. cbv zeta.
  apply good_pop in Hg as [Hv [Ha Hg]%good_pop]. pose proof (gd_store _ _ _ Hg) as Hst.
  assert (0 ≤ w32 a) as Hwa by apply u32_range.
  destruct (s_msize st <? w32 a + ma_offset m + nb) eqn:Ho.
  - apply simulated_trap; [done..|]. intros Ht. eapply does_store; [done..|]. by rewrite Ho.
  - apply simulated_one; [done..| | |done|simpl; autorewrite with len; lia].
    + eapply does_store; [done..|]. by rewrite Ho.
    + eapply good_store; [|done]. apply write_mem_ok; [done|apply le_split_bytes|lia|].
      destruct Hst as [_ _ Hms _ _ _]. unfold len at 1. rewrite le_split_length.
      simpl in Hin. lia.
Qed.

(** *** Variables *)

Lemma index_app_l {A} (l k : list A) i x : index l i = Some x → index (l ++ k) i = Some x.
Proof. intros [H0 Hi]%index_Some. apply index_Some. split; [done|]. by apply lookup_app_l_Some. Qed.

Lemma index_Forall {A} (P : A → Prop) l i x : Forall P l → index l i = Some x → P x.
Proof. intros HP [_ Hi]%index_Some. by eapply Forall_lookup_1. Qed.

Lemma in_range_iff {A} (l : list A) i : in_range l i = true ↔ 0 ≤ i < len l.
Proof. unfold in_range. lia. Qed.

Lemma insert_scr (ls scr : list Z) i x : 0 ≤ i < len ls → <[Z.to_nat i := x]> (ls ++ scr) = <[Z.to_nat i := x]> ls ++ scr.
Proof. intros Hi. apply insert_app_l. unfold len in Hi. lia. Qed.

(** A local of an activation that is on the stack has a small index. *)
Lemma does_small {A} (c : EM A) pc st ls scr os i Q :
  0 ≤ i < len ls → (u16 i = i → does T c (fv pc st (ls ++ scr) os) Q) → does T c (fv pc st (ls ++ scr) os) Q.
Proof.
  intros Hi H. apply does_cap. rewrite fv_len. intros Hc. autorewrite with len in Hc.
  pose proof (len_nonneg lo). pose proof (len_nonneg os). pose proof (len_nonneg scr).
  unfold STACK_CAP in Hc. apply H, u16_id. lia.
Qed.

Lemma does_local_get_in i pc st ls scr os x (Q : unit → View → Prop) :
  index ls i = Some x → in_u64 x → Q tt (fv pc st (ls ++ scr) (x :: os)) →
  does T (exec M (mkCuOp OP_LOCAL_GET (u16 i) 0)) (fv pc st (ls ++ scr) os) Q.
Proof using HT.
  intros Hx Hin HQ. eapply does_small; [by eapply index_lt|]. intros ->.
  eapply does_local_get; [exact HT|by apply index_app_l|done|done].
Qed.

Lemma does_local_set_in i pc st ls scr os x (Q : unit → View → Prop) :
  0 ≤ i < len ls → Q tt (fv pc st (<[Z.to_nat i := x]> ls ++ scr) os) →
  does T (exec M (mkCuOp OP_LOCAL_SET (u16 i) 0)) (fv pc st (ls ++ scr) (x :: os)) Q.
Proof.
  intros Hi HQ. eapply does_small; [done|]. intros ->. pose proof (len_nonneg scr).
  apply does_local_set; [autorewrite with len; lia|]. by rewrite insert_scr.
Qed.

Lemma good_set_local i x st ls vs : in_u64 x → good st ls vs → good st (<[Z.to_nat i := x]> ls) vs.
Proof. intros Hx [H1 H2 H3]. split; [done| |done]. by apply Forall_insert. Qed.

Lemma simulated_tee i pc st ls scr vs :
  0 ≤ pc → ops_at pc [mkCuOp OP_LOCAL_SET (u16 i) 0; mkCuOp OP_LOCAL_GET (u16 i) 0] → good st ls vs →
  simulated [mkCuOp OP_LOCAL_SET (u16 i) 0; mkCuOp OP_LOCAL_GET (u16 i) 0] None scr pc st ls vs
    (basic_step datas (LocalTee i) st ls vs).
Proof using HT Hcode.
  intros Hpc Hops Hg. apply ops_at_cons in Hops as [H1 H2]; [|done]. destruct vs as [|v vs]; [done|].
  cbn. destruct (in_range ls i) eqn:Hr; [|done]. apply in_range_iff in Hr.
  destruct (good_pop _ _ _ _ Hg) as [Hv Hg']. split_and!; [|by apply good_set_local|by rewrite len_insert|done].
  etrans.
  - eapply reaches_op; [done|by apply ops_at_one|]. by apply does_local_set_in.
  - replace (pc + len _) with (pc + 1 + 1) by (autorewrite with len; lia).
    eapply reaches_op; [lia|done|]. eapply (does_local_get_in i); [|exact Hv|done].
    apply index_Some. split; [lia|]. apply list_lookup_insert_eq. unfold len in Hr. lia.
Qed.

(** *** Bulk memory *)

Lemma simulated_memory in_ mem bs p st pc ls scr vs os :
  0 ≤ pc → ops_at pc [in_] → store_ok M st → Forall is_byte bs → 0 ≤ p → p + len bs ≤ len st.(s_memory) →
  mem = write_mem st.(s_memory) p bs → good st ls os → len vs = len os + 3 →
  does T (exec M in_) (fv (pc + 1) st (ls ++ scr) vs)
    (fun _ v => v = fv (pc + 1) (with_memory mem st) (ls ++ scr) os) →
  simulated [in_] (Some (3, 0)) scr pc st ls vs (BOk (with_memory mem st) ls os).
Proof using HT Hcode.
  intros Hpc Hops Hst Hbs Hp Hl -> Hg Hlen Hd. apply simulated_one; [done..| |done|simpl; lia].
  eapply good_store; [by apply write_mem_ok|done].
Qed.

Lemma simulated_copy pc st ls scr vs :
  0 ≤ pc → ops_at pc [mkCuOp OP_MEMORY_COPY 0 0] → good st ls vs →
  simulated [mkCuOp OP_MEMORY_COPY 0 0] (Some (3, 0)) scr pc st ls vs (basic_step datas (MemoryCopy 0 0) st ls vs).
Proof using HT Hcode.
  intros Hpc Hops Hg. pose proof (gd_store _ _ _ Hg) as Hst. destruct vs as [|n [|s [|d vs]]]; [done..|].
  apply good_pop in Hg as [_ [_ [_ Hg]%good_pop]%good_pop].
  pose proof (does_copy M T lo frs n s d (pc + 1) st (ls ++ scr) vs) as Hd.
  pose proof (u32_nonneg n). pose proof (u32_nonneg s). pose proof (u32_nonneg d). pose proof (so_msize _ _ Hst).
  cbn -[Z.add Z.ltb]. destruct (_ || _) eqn:Hb.
  - apply simulated_trap; [done..|]. intros Ht. by apply Hd.
  - apply orb_false_iff in Hb as [Hb1 Hb2].
    eapply simulated_memory; [done..| | | |reflexivity|done|autorewrite with len; lia|by apply Hd].
    + apply read_mem_Forall, Hst.
    + done.
    + rewrite read_mem_len; lia.
Qed.

Lemma simulated_fill pc st ls scr vs :
  0 ≤ pc → ops_at pc [mkCuOp OP_MEMORY_FILL 0 0] → good st ls vs →
  simulated [mkCuOp OP_MEMORY_FILL 0 0] (Some (3, 0)) scr pc st ls vs (basic_step datas (MemoryFill 0) st ls vs).
Proof using HT Hcode.
  intros Hpc Hops Hg. pose proof (gd_store _ _ _ Hg) as Hst. destruct vs as [|n [|x [|d vs]]]; [done..|].
  apply good_pop in Hg as [_ [_ [_ Hg]%good_pop]%good_pop].
  pose proof (does_fill M T lo frs n x d (pc + 1) st (ls ++ scr) vs) as Hd.
  pose proof (u32_nonneg n). pose proof (u32_nonneg d). pose proof (so_msize _ _ Hst).
  cbn -[Z.add Z.ltb Z.pow]. destruct (_ <? _) eqn:Hb.
  - apply simulated_trap; [done..|]. intros Ht. by apply Hd.
  - eapply simulated_memory; [done..| | | |reflexivity|done|autorewrite with len; lia|by apply Hd].
    + apply Forall_replicate. by apply Z.mod_pos_bound.
    + done.
    + rewrite len_replicate. lia.
Qed.

Lemma simulated_init i pc st ls scr vs :
  0 ≤ pc → ops_at pc [mkCuOp OP_MEMORY_INIT (u16 i) 0] → good st ls vs →
  simulated [mkCuOp OP_MEMORY_INIT (u16 i) 0] (Some (3, 0)) scr pc st ls vs (basic_step datas (MemoryInit i 0) st ls vs).
Proof using HT HD Hcode.
  intros Hpc Hops Hg. pose proof (gd_store _ _ _ Hg) as Hst. destruct vs as [|n [|s [|d vs]]]; [done..|].
  apply good_pop in Hg as [_ [_ [_ Hg]%good_pop]%good_pop]. cbn -[Z.add Z.ltb].
  destruct (segment datas st i) as [bs|] eqn:Hseg; [|done].
  pose proof (does_init M T datas HD lo frs i n s d (pc + 1) st (ls ++ scr) vs bs) as Hd.
  pose proof (u32_nonneg n). pose proof (u32_nonneg s). pose proof (u32_nonneg d). pose proof (so_msize _ _ Hst).
  destruct (_ || _) eqn:Hb.
  - apply simulated_trap; [done..|]. intros Ht. by apply Hd.
  - apply orb_false_iff in Hb as [Hb1 Hb2].
    eapply simulated_memory; [done..| | | |reflexivity|done|autorewrite with len; lia|by apply Hd].
    + by eapply read_mem_Forall, segment_bytes.
    + done.
    + rewrite read_mem_len; lia.
Qed.

Lemma simulated_drop i pc st ls scr vs :
  0 ≤ pc → ops_at pc [mkCuOp OP_DATA_DROP (u16 i) 0] → good st ls vs →
  simulated [mkCuOp OP_DATA_DROP (u16 i) 0] None scr pc st ls vs (basic_step datas (DataDrop i) st ls vs).
Proof using HT Hcode.
  intros Hpc Hops Hg. pose proof (gd_store _ _ _ Hg) as Hst. cbn. destruct (in_range _ i) eqn:Hr; [|done].
  apply simulated_one; [done..|by apply (does_drop M)| |done|done].
  eapply good_store; [|done]. destruct Hst. split; simpl; try done. by rewrite len_insert.
Qed.

(** ** Every operator without control *)

Definition is_call (o : Operator) : bool :=
  match o with Call _ | CallIndirect _ _ => true | _ => false end.

Lemma emits_simulated o ops eff pc st ls scr vs :
  emits E M.(hm_consts) o ops eff → is_call o = false → offset_ok o = true →
  0 ≤ pc → ops_at pc ops → good st ls vs →
  simulated ops eff scr pc st ls vs (basic_step datas o st ls vs).
Proof using HT HD Hcode.
  intros He Hcall Hoff Hpc Hops Hg. pose proof (gd_store _ _ _ Hg) as Hst.
  destruct He as [o opc p q Hp|o v idx Hc H0 HK|o nb sg d64 m off Hl Hm|o nb m off Hs Hm
    |i|i|i|i|i| | | | |o Hr| | | |i|i|f np nr Har Hni|f np nr id Har Hni Hid|ty ft Hft].
  - by apply simulated_plain.
  - by eapply simulated_const.
  - by eapply simulated_load.
  - by eapply simulated_store.
  - cbn. destruct (index (s_globals st) i) as [v|] eqn:Hv; [|done].
    assert (in_u64 v) by (eapply index_Forall; [apply Hst|exact Hv]).
    apply simulated_one; [done..| |by apply good_push|done|simpl; autorewrite with len; lia].
    by eapply does_global_get.
  - destruct vs as [|v vs]; [done|]. cbn. destruct (in_range _ i) eqn:Hr; [|done].
    destruct (good_pop _ _ _ _ Hg) as [Hv Hg'].
    apply simulated_one; [done..| | |done|simpl; autorewrite with len; lia].
    + by apply does_global_set.
    + eapply good_store; [|done]. destruct Hst as [S1 S2 S3 S4 S5 S6]. split; simpl; try done.
      by apply Forall_insert.
  - cbn. destruct (index ls i) as [v|] eqn:Hv; [|done].
    assert (in_u64 v) by (eapply index_Forall; [apply (gd_locals _ _ _ Hg)|exact Hv]).
    apply simulated_one; [done..| |by apply good_push|done|simpl; autorewrite with len; lia].
    by eapply does_local_get_in.
  - destruct vs as [|v vs]; [done|]. cbn. destruct (in_range ls i) eqn:Hr; [|done].
    apply in_range_iff in Hr. destruct (good_pop _ _ _ _ Hg) as [Hv Hg'].
    apply simulated_one; [done..| |by apply good_set_local|by rewrite len_insert|simpl; autorewrite with len; lia].
    by apply does_local_set_in.
  - by apply simulated_tee.
  - apply simulated_one; [done..| | |done|simpl; autorewrite with len; lia].
    + by apply does_size.
    + apply good_push; [|done]. destruct Hst as [_ _ Hms Him Hsm _].
      unfold in_u64, WASM_PAGE. Z.to_euclidean_division_equations. lia.
  - destruct vs as [|d vs]; [done|]. destruct (good_pop _ _ _ _ Hg) as [Hd Hg'].
    pose proof (does_grow M T HT lo frs d (pc + 1) st (ls ++ scr) vs) as HG. cbv zeta in HG.
    unfold basic_step. cbn -[Z.div Z.add Z.ltb WASM_PAGE Z.sub Z.pow]. destruct (_ <? _) eqn:Hgr.
    + apply simulated_one; [done..| |by apply good_push|done|simpl; autorewrite with len; lia]. by apply HG.
    + assert (0 ≤ w32 d) by apply u32_range. destruct Hst as [S1 S2 S3 S4 S5 S6].
      apply simulated_one; [done..| | |done|simpl; autorewrite with len; lia]; [by apply HG|].
      apply good_push; [|eapply good_store; [|done]; split; simpl; try done].
      * unfold in_u64, WASM_PAGE. Z.to_euclidean_division_equations. lia.
      * revert Hgr. unfold WASM_PAGE. Z.to_euclidean_division_equations. lia.
  - destruct vs as [|a vs]; [done|]. destruct (good_pop _ _ _ _ Hg) as [Ha Hg'].
    apply simulated_one; [done..| | |done|simpl; autorewrite with len; lia].
    + apply does_clz; [done|by left|done|done].
    + apply good_push; [|done]. apply (clz_agrees 32); auto.
  - destruct vs as [|a vs]; [done|]. destruct (good_pop _ _ _ _ Hg) as [Ha Hg'].
    apply simulated_one; [done..| | |done|simpl; autorewrite with len; lia].
    + apply does_clz; [done|by right|done|done].
    + apply good_push; [|done]. apply (clz_agrees 64); auto.
  - assert (basic_step datas o st ls vs = match vs with a :: vs => BOk st ls (a :: vs) | _ => BStuck end) as ->
      by (by destruct o).
    destruct vs as [|a vs]; [done|]. split_and!; [|done|done|simpl; lia].
    by rewrite Z.add_0_r.
  - cbn. split_and!; [by rewrite Z.add_0_r|done..].
  - by apply simulated_copy.
  - by apply simulated_fill.
  - by apply simulated_init.
  - by apply simulated_drop.
  - done.
  - done.
  - done.
Qed.
End basic.
