(* ===== verification/StackSound.v ===== *)
(** * Typed programs do not go wrong

    Stack typing is sound for the reference semantics: a typed program, whose indices are
    in range, in an environment that keeps to the interface of host calls, never gets
    stuck, and a call leaves as many values as its signature says. *)

From S2P Require Import Prelude Cuop Wasm Engine EngineInv VerifyFacts Structured StackTyping LowerMem LowerBasic.
From stdpp Require Import base list strings.

Local Open Scope Z_scope.

(** ** Programs and environments *)

Section sound.
Context (P : Prog) (ng : Z).

Definition is_host (f : Func) : bool := match f with Host _ _ _ => true | Code _ => false end.
Definition has_host : bool := existsb is_host P.(p_funcs).

(** Indices are in range; memory grows only where no host can forget it; a tail call is
    of a function with code. *)
Definition op_closed (o : Operator) : bool :=
  match o with
  | GlobalGet i | GlobalSet i => (0 <=? i) && (i <? ng)
  | MemoryInit i _ | DataDrop i => (0 <=? i) && (i <? len P.(p_datas))
  | MemoryGrow _ => negb has_host
  | ReturnCall f => match index P.(p_funcs) f with Some (Code _) => true | _ => false end
  | _ => true
  end.

Definition bytes_ok (l : list Z) : bool := forallb (fun x => (0 <=? x) && (x <? 2 ^ 8)) l.

Definition func_closed (f : Func) : bool :=
  match f with
  | Host _ np nr => (0 <=? np) && (0 <=? nr) && (nr <=? 1)
  | Code fd =>
      (0 <=? fd.(fd_params)) && (0 <=? fd.(fd_results)) && (0 <=? fd.(fd_locals)) &&
      forallb op_closed (flatten fd.(fd_body))
  end.

(** A slot of the table is empty or has a function with code, of its type. *)
Definition slot_closed (s : option Z) : bool :=
  match s with
  | None => true
  | Some f =>
      match index P.(p_funcs) f, index P.(p_typeidx) f with
      | Some (Code fd), Some t =>
          match index P.(p_types) t with
          | Some ft => (fd.(fd_params) =? len ft.1) && (fd.(fd_results) =? len ft.2)
          | None => false
          end
      | _, _ => false
      end
  end.

Definition program_closed : bool :=
  forallb func_closed P.(p_funcs) && forallb slot_closed P.(p_table) && forallb bytes_ok P.(p_datas).

(** The data of a program in a run: the counts do not change, and the mailbox has one
    result. *)
Record store_fits (st : Store) : Prop := {
  sf_globals : len st.(s_globals) = ng;
  sf_live : len st.(s_live) = len P.(p_datas);
  sf_memory : Forall is_byte st.(s_memory);
  sf_msize : has_host = true → st.(s_msize) = P.(p_msize);
  sf_box : len st.(s_box).(mb_results) = 1 ∧ Forall in_u64 st.(s_box).(mb_results) }.

(** The mailbox of a call the program may make. *)
Definition asks (box : HostMailbox) : Prop :=
  (∃ f, index P.(p_funcs) f = Some (Host box.(mb_fn_id) box.(mb_n_args) box.(mb_n_results))) ∧
  len box.(mb_results) = 1 ∧ Forall in_u64 box.(mb_results).

(** A reply that keeps to the interface. *)
Definition replies (mem : list Z) (box : HostMailbox) (r : bool * HostMailbox * list Z) : Prop :=
  let '(ok, box', mem') := r in ok = true → reply_ok mem box.(mb_n_results) box' mem' = true.

Definition well_behaved (env : Env) : Prop := ∀ tr box mem,
  asks box → Forall is_byte mem → replies mem box (env tr box mem).

Context (Hclosed : program_closed = true).

Lemma bytes_ok_Forall l : bytes_ok l = true → Forall is_byte l.
Proof. unfold bytes_ok. rewrite forallb_forall. intros H. apply List.Forall_forall. intros x Hx. specialize (H x Hx). unfold is_byte. lia. Qed.

Lemma func_closed_at f g : index P.(p_funcs) f = Some g → func_closed g = true.
Proof using Hclosed.
  intros Hf. unfold program_closed in Hclosed. rewrite !andb_true_iff, !forallb_forall in Hclosed.
  destruct Hclosed as [[H1 _] _]. apply H1, list_elem_of_In. by eapply index_elem_of.
Qed.

Lemma slot_closed_at i s : index P.(p_table) i = Some s → slot_closed s = true.
Proof using Hclosed.
  intros Hf. unfold program_closed in Hclosed. rewrite !andb_true_iff, !forallb_forall in Hclosed.
  destruct Hclosed as [[_ H1] _]. apply H1, list_elem_of_In. by eapply index_elem_of.
Qed.

Lemma data_bytes i bs : index P.(p_datas) i = Some bs → Forall is_byte bs.
Proof using Hclosed.
  intros Hf. unfold program_closed in Hclosed. rewrite !andb_true_iff, !forallb_forall in Hclosed.
  destruct Hclosed as [_ H1]. apply bytes_ok_Forall, H1, list_elem_of_In. by eapply index_elem_of.
Qed.

(** *** Memory *)

Lemma write_bytes mem a bs : Forall is_byte mem → Forall is_byte bs → Forall is_byte (write_mem mem a bs).
Proof. intros H1 H2. unfold write_mem. apply Forall_app. split; [by apply Forall_take|]. apply Forall_app. split; [done|by apply Forall_drop]. Qed.

Lemma fits_memory st mem : store_fits st → Forall is_byte mem → store_fits (with_memory mem st).
Proof. intros [] ?. by split. Qed.

(** The type a block ends with. *)
Lemma block_end_cases h r x :
  block_end h r = Some x → x = Some h ∧ ∃ r1, r = Some r1 ∧ (r1 = Some h ∨ r1 = None).
Proof.
  destruct r as [[h1|]|]; simpl; [|intros [= <-]; eauto|done]. destruct (h1 =? h) eqn:Hh; [|done].
  apply Z.eqb_eq in Hh as ->. intros [= <-]. eauto.
Qed.

(** ** Operators without control *)

Lemma index_range {A} (l : list A) i n : (0 <=? i) && (i <? n) = true → len l = n → ∃ x, index l i = Some x.
Proof. intros H Hl. apply index_is_Some. lia. Qed.

Lemma in_range_range {A} (l : list A) i n : (0 <=? i) && (i <? n) = true → len l = n → in_range l i = true.
Proof. intros H Hl. unfold in_range. lia. Qed.

Context (nl : Z).

(** An operator that is no call steps or traps, when the stack has its operands. *)
Definition good_step (vs : list Z) (p q : Z) (r : bres) : Prop :=
  match r with
  | BOk st ls vs' => store_fits st ∧ len ls = nl ∧ len vs' = len vs - p + q
  | BTrap _ => True
  | BStuck => False
  end.

(** With the operands in sight. *)
Ltac take_operands :=
  repeat match goal with
  | |- context [match ?vs with [] => _ | _ :: _ => _ end] =>
      is_var vs; destruct vs as [|? vs]; [exfalso; rewrite ?len_cons, ?len_nil in *; lia|]
  end.

Lemma basic_good o st ls vs p q :
  match o with Call _ | CallIndirect _ _ => False | _ => True end →
  stack_effect P nl o = Some (p, q) → op_closed o = true → p ≤ len vs → len ls = nl → store_fits st →
  good_step vs p q (basic_step P.(p_datas) o st ls vs).
Proof using Hclosed.
  intros Hcall Hs Hc Hp Hl Hf. unfold stack_effect in Hs. unfold basic_step.
  destruct (wasm_const o) as [v|].
  { injection Hs as <- <-. split_and!; [done..|]. rewrite len_cons. lia. }
  destruct (wasm_un o) as [g|].
  { injection Hs as <- <-. take_operands. split_and!; [done..|]. rewrite !len_cons. lia. }
  destruct (wasm_bin o) as [g|].
  { injection Hs as <- <-. take_operands. destruct (g _ _); [|done]. split_and!; [done..|]. rewrite !len_cons. lia. }
  destruct (wasm_load o) as [[[[n sg] bits] off]|].
  { injection Hs as <- <-. take_operands. cbv zeta. destruct (_ <? _); [done|]. split_and!; [done..|]. rewrite !len_cons. lia. }
  destruct (wasm_store o) as [[n off]|].
  { injection Hs as <- <-. take_operands. cbv zeta. destruct (_ <? _); [done|]. split_and!; [|done|rewrite !len_cons; lia].
    apply fits_memory; [done|]. apply write_bytes; [apply (sf_memory _ Hf)|apply le_split_bytes]. }
  assert (∀ st' ls' vs', store_fits st' → len ls' = nl → len vs' = len vs - p + q → good_step vs p q (BOk st' ls' vs'))
    as Hok by done.
  destruct o; try discriminate Hs; try done;
    try (injection Hs as <- <-; take_operands; apply Hok; [done|done|rewrite ?len_cons; lia]).
  - injection Hs as <- <-. destruct (index_range st.(s_globals) _ _ Hc (sf_globals _ Hf)) as [v ->].
    apply Hok; [done|done|rewrite len_cons; lia].
  - injection Hs as <- <-. take_operands. rewrite (in_range_range st.(s_globals) _ _ Hc (sf_globals _ Hf)).
    apply Hok; [|done|rewrite len_cons; lia]. destruct Hf. split; simpl; try done. by rewrite len_insert.
  - destruct (local_ok nl local_index) eqn:Hlo; [|discriminate Hs]. injection Hs as <- <-.
    destruct (index_range ls _ _ Hlo Hl) as [v ->]. apply Hok; [done|done|rewrite len_cons; lia].
  - destruct (local_ok nl local_index) eqn:Hlo; [|discriminate Hs]. injection Hs as <- <-. take_operands.
    rewrite (in_range_range ls _ _ Hlo Hl). apply Hok; [done|by rewrite len_insert|rewrite len_cons; lia].
  - destruct (local_ok nl local_index) eqn:Hlo; [|discriminate Hs]. injection Hs as <- <-. take_operands.
    rewrite (in_range_range ls _ _ Hlo Hl). apply Hok; [done|by rewrite len_insert|rewrite !len_cons; lia].
  - destruct mem; try discriminate Hs. injection Hs as <- <-. apply Hok; [done|done|rewrite len_cons; lia].
  - destruct mem; try discriminate Hs. injection Hs as <- <-. take_operands.
    destruct (_ <? _); apply Hok; try done; try (rewrite !len_cons; lia).
    destruct Hf. split; simpl; try done. intros Hh. simpl in Hc. by rewrite Hh in Hc.
  - destruct dst_mem; try discriminate Hs. destruct src_mem; try discriminate Hs. injection Hs as <- <-. take_operands.
    destruct (_ || _); [done|]. apply Hok; [|done|rewrite !len_cons; lia].
    apply fits_memory; [done|]. apply write_bytes; [|apply read_mem_Forall]; apply (sf_memory _ Hf).
  - destruct mem; try discriminate Hs. injection Hs as <- <-. take_operands.
    destruct (_ <? _); [done|]. apply Hok; [|done|rewrite !len_cons; lia].
    apply fits_memory; [done|]. apply write_bytes; [apply (sf_memory _ Hf)|]. apply Forall_replicate.
    unfold is_byte. by apply Z.mod_pos_bound.
  - destruct mem; try discriminate Hs. injection Hs as <- <-. take_operands.
    destruct (index_range P.(p_datas) _ _ Hc eq_refl) as [bs Hbs]. destruct (index_range st.(s_live) _ _ Hc (sf_live _ Hf)) as [l Hlive].
    unfold segment. rewrite Hbs, Hlive. simpl. destruct (_ || _); [done|]. apply Hok; [|done|rewrite !len_cons; lia].
    apply fits_memory; [done|]. apply write_bytes; [apply (sf_memory _ Hf)|]. apply read_mem_Forall.
    destruct (l =? 0); [constructor|by eapply data_bytes].
  - injection Hs as <- <-. rewrite (in_range_range st.(s_live) _ _ Hc (sf_live _ Hf)). apply Hok; [|done|lia].
    destruct Hf. split; simpl; try done. by rewrite len_insert.
Qed.

(** ** Control *)

Definition good_call (np nr : Z) (vs : list Z) (c : call_out) : Prop :=
  match c with
  | Returns st vs' => store_fits st ∧ len vs' = len vs - np + nr
  | CTrapped _ _ | CTimeout => True
  | CStuck => False
  end.

(** How the body of a function with [nr] results may end, at height [b] of its operands and
    under labels of arities [labs], when it is typed [r]. *)
Definition good_out (nr : Z) (labs : list Z) (b : Z) (r : option Z) (o : out) : Prop :=
  match o with
  | Next st ls vs => store_fits st ∧ len ls = nl ∧ r = Some (b + len vs)
  | Branch d st ls vs => store_fits st ∧ len ls = nl ∧ ∃ n, labs !! d = Some n ∧ n ≤ len vs
  | Ret st vs => store_fits st ∧ nr ≤ len vs
  | Tail f st vs => store_fits st ∧ ∃ fd, index P.(p_funcs) f = Some (Code fd) ∧ fd.(fd_results) = nr ∧ fd.(fd_params) ≤ len vs
  | Trapped _ _ | Timeout => True
  | Stuck => False
  end.

Lemma operands_ge n vs : Z.of_nat n ≤ len vs → operands n vs = Some (take n vs) ∧ len (take n vs) = Z.of_nat n ∧
  len (drop n vs) = len vs - Z.of_nat n.
Proof.
  intros H. unfold operands, len in *. rewrite length_take, length_drop.
  rewrite (proj2 (Nat.leb_le _ _)) by lia. split_and!; [done|lia..].
Qed.

Lemma code_signature f fd :
  index P.(p_funcs) f = Some (Code fd) →
  signature P f = Some (fd.(fd_params), fd.(fd_results)) ∧ 0 ≤ fd.(fd_params) ∧ 0 ≤ fd.(fd_results) ∧ 0 ≤ fd.(fd_locals) ∧
  forallb op_closed (flatten fd.(fd_body)) = true.
Proof using Hclosed.
  intros Hf. unfold signature. rewrite Hf. pose proof (func_closed_at _ _ Hf) as Hc. simpl in Hc.
  rewrite !andb_true_iff in Hc. destruct Hc as [[[H1 H2] H3] H4]. split_and!; [done|lia|lia|lia|done].
Qed.

(** A call through the table is of a function with the expected signature. *)
Lemma table_func_good i ty ft :
  index P.(p_types) ty = Some ft →
  match table_func P i ty with
  | inl (Some f) => signature P f = Some (len ft.1, len ft.2)
  | inl None => False
  | inr _ => True
  end.
Proof using Hclosed.
  intros Hty. unfold table_func. destruct (index (p_table P) i) as [[f|]|] eqn:Hi; [|done..].
  apply slot_closed_at in Hi. unfold slot_closed in Hi. rewrite Hty.
  destruct (index (p_funcs P) f) as [[|fd]|] eqn:Hf; try done.
  destruct (index (p_typeidx P) f) as [t|]; [|done]. destruct (index (p_types P) t) as [ft'|]; [|done].
  apply andb_true_iff in Hi as [E1%Z.eqb_eq E2%Z.eqb_eq]. case_bool_decide as He; [|done]. subst ft'.
  destruct (code_signature _ _ Hf) as (-> & _). by rewrite E1, E2.
Qed.

Section body.
Context (env : Env) (nr room : Z).
Context (run : list instr → Store → list Z → list Z → out) (call : Z → Store → list Z → call_out).
Hypothesis Hcall : ∀ f st vs np nr, signature P f = Some (np, nr) → np ≤ len vs → store_fits st →
  good_call np nr vs (call f st vs).

Lemma call_good f st ls vs b labs np nr' :
  signature P f = Some (np, nr') → np ≤ len vs → len ls = nl → store_fits st →
  good_out nr labs b (Some (b + len vs - np + nr'))
    match call f st vs with
    | Returns st vs => Next st ls vs
    | CTrapped s tr => Trapped s tr
    | CStuck => Stuck
    | CTimeout => Timeout
    end.
Proof using Hcall.
  intros Hs Hp Hl Hf. pose proof (Hcall f st vs np nr' Hs Hp Hf) as Hc.
  destruct (call f st vs); simpl in *; try done. destruct Hc as [? ->]. split_and!; [done|done|]. f_equal. lia.
Qed.

(** An operator whose typing is what it pops and pushes. *)
Lemma step_good labs b h o r st ls vs :
  match o with Call _ | CallIndirect _ _ => False | _ => True end →
  (s ← stack_effect P nl o;
   if (b + s.1 <=? h) && (h - s.1 + s.2 <=? room) then Some (Some (h - s.1 + s.2)) else None) = Some r →
  op_closed o = true → len vs = h - b → len ls = nl → store_fits st →
  good_out nr labs b r
    match basic_step P.(p_datas) o st ls vs with
    | BOk st ls vs => Next st ls vs
    | BTrap s => Trapped s st.(s_trace)
    | BStuck => Stuck
    end.
Proof using Hclosed.
  intros Ho Ht Hc Hv Hl Hf. destruct (stack_effect P nl o) as [[p q]|] eqn:Hs; [|done]. simpl in Ht.
  destruct (_ && _) eqn:Hfit; [|done]. injection Ht as <-. apply andb_true_iff in Hfit as [G1%Z.leb_le _].
  pose proof (basic_good o st ls vs p q Ho Hs Hc ltac:(lia) Hl Hf) as Hg.
  destruct (basic_step _ _ _ _ _); simpl in *; try done. destruct Hg as (? & ? & ->). split_and!; [done|done|]. f_equal. lia.
Qed.

Lemma op_good labs b h o r st ls vs :
  op_type P nl nr room labs b h o = Some r → Forall (λ n, 0 ≤ n) labs → op_closed o = true →
  len vs = h - b → len ls = nl → store_fits st → good_out nr labs b r (run_basic P call o st ls vs).
Proof using Hcall Hclosed.
  intros Ht Hlabs Hc Hv Hl Hf. destruct o; try (by eapply step_good).
  - by injection Ht as <-.
  - simpl in Ht. destruct (labs !! _) as [n|] eqn:Hn; [|done]. simpl in Ht. destruct (_ <=? _) eqn:Hle; [|done].
    injection Ht as <-. split_and!; [done|done|]. exists n. split; [done|lia].
  - simpl in Ht. destruct (labs !! _) as [n|] eqn:Hn; [|done]. simpl in Ht. destruct (_ <=? _) eqn:Hle; [|done].
    injection Ht as <-. pose proof (Forall_lookup_1 _ _ _ _ Hlabs Hn) as Hn0. simpl in Hn0.
    destruct vs as [|c vs]; [rewrite len_nil in Hv; lia|]. rewrite len_cons in Hv. simpl. destruct (_ =? 0).
    + split_and!; [done|done|]. f_equal. lia.
    + split_and!; [done|done|]. exists n. split; [done|lia].
  - simpl in Ht. destruct (labs !! _) as [n|] eqn:Hn; [|done]. simpl in Ht. destruct (_ && _) eqn:Hfit; [|done].
    injection Ht as <-. apply andb_true_iff in Hfit as [Hts Hle]. pose proof (Forall_lookup_1 _ _ _ _ Hlabs Hn) as Hn0. simpl in Hn0.
    destruct vs as [|i vs]; [rewrite len_nil in Hv; lia|]. rewrite len_cons in Hv. simpl.
    assert (∃ d, table_label default targets (w32 i) = Some d ∧ labs !! Z.to_nat d = Some n) as (d & -> & Hd).
    { unfold table_label. destruct (targets !! _) as [[d|e]|] eqn:Hd; [|exfalso|by eexists].
      - rewrite forallb_forall in Hts. specialize (Hts (Item d)). rewrite <-list_elem_of_In in Hts.
        exists d. split; [done|]. by apply list_elem_of_lookup_2, Hts, bool_decide_eq_true_1 in Hd.
      - rewrite forallb_forall in Hts. specialize (Hts (ReadErr e)). rewrite <-list_elem_of_In in Hts.
        by apply list_elem_of_lookup_2, Hts in Hd. }
    split_and!; [done|done|]. exists n. split; [done|lia].
  - simpl in Ht. destruct (_ <=? _) eqn:Hle; [|done]. injection Ht as <-. split; [done|lia].
  - change (op_type P nl nr room labs b h (Call function_index)) with (s ← signature P function_index;
      if (b + s.1 <=? h) && (h - s.1 + s.2 <=? room) then Some (Some (h - s.1 + s.2)) else None) in Ht.
    destruct (signature P function_index) as [[np nr']|] eqn:Hs; [|done]. simpl in Ht.
    destruct (_ && _) eqn:Hfit; [|done]. injection Ht as <-. apply andb_true_iff in Hfit as [G1%Z.leb_le _].
    simpl. replace (h - np + nr') with (b + len vs - np + nr') by lia. apply call_good; [done|lia|done|done].
  - simpl in Ht. destruct (signature P _) as [[np nr']|] eqn:Hs; [|done]. simpl in Ht. destruct (_ && _) eqn:Hfit; [|done].
    injection Ht as <-. apply andb_true_iff in Hfit as [G1%Z.eqb_eq G2%Z.leb_le]. simpl in Hc. simpl.
    destruct (index (p_funcs P) _) as [[|fd]|] eqn:Hi; try done. destruct (code_signature _ _ Hi) as (Hs' & _).
    rewrite Hs in Hs'. injection Hs' as -> ->. split; [done|]. exists fd. split_and!; [done|done|lia].
  - destruct table_index; try discriminate Ht.
    change (op_type P nl nr room labs b h (CallIndirect type_index 0)) with
      (s ← (fun ft : FuncType => (1 + len ft.1, len ft.2)) <$> index P.(p_types) type_index;
      if (b + s.1 <=? h) && (h - s.1 + s.2 <=? room) then Some (Some (h - s.1 + s.2)) else None) in Ht.
    destruct (index P.(p_types) type_index) as [ft|] eqn:Hty; [|done]. cbn -[len] in Ht.
    destruct (_ && _) eqn:Hfit; [|done]. injection Ht as <-. apply andb_true_iff in Hfit as [G1%Z.leb_le _].
    pose proof (len_nonneg ft.1). destruct vs as [|i vs]; [rewrite len_nil in Hv; lia|]. rewrite len_cons in Hv. simpl.
    pose proof (table_func_good (w32 i) type_index ft Hty) as Hg. destruct (table_func P _ _) as [[f|]|t]; [|done|done].
    replace (h - _ + _) with (b + len vs - len ft.1 + len ft.2) by lia. apply call_good; [done|lia|done|done].
Qed.

(** *** Bodies *)

Definition body_good (body : list instr) : Prop := ∀ labs b h r st ls vs,
  seq_type P nl nr room labs b h body = Some r → Forall (λ n, 0 ≤ n) labs →
  len vs = h - b → len ls = nl → store_fits st → good_out nr labs b r (run body st ls vs).

(** A block whose body is good is good; [n] is what its label takes. *)
Lemma block_good labs b b' h' r np m body st ls vs :
  body_good body → seq_type P nl nr room (Z.of_nat m :: labs) b' (b' + Z.of_nat np) body = Some r →
  r = Some h' ∨ r = None → h' = b' + Z.of_nat m → Forall (λ n, 0 ≤ n) labs →
  b ≤ b' → len vs = b' + Z.of_nat np - b → len ls = nl → store_fits st →
  good_out nr labs b (Some h') (run_block run np m body st ls vs).
Proof.
  intros Hb Ht Hr -> Hlabs Hle Hv Hl Hf. unfold run_block.
  destruct (operands_ge np vs) as (-> & H1 & H2); [lia|].
  pose proof (Hb _ _ _ _ st ls (take np vs) Ht ltac:(constructor; [lia|done]) ltac:(lia) Hl Hf) as Hg.
  destruct (run body st ls (take np vs)) as [st' ls' vs'|[|d] st' ls' vs'|st' vs'|f st' vs'|s tr| |]; simpl in *; try done.
  - destruct Hg as (? & ? & ->). destruct Hr as [[= Hr]|]; [|done]. unfold leave.
    rewrite (proj2 (Nat.eqb_eq _ _)) by (unfold len in *; lia). split_and!; [done|done|]. f_equal. rewrite len_app. lia.
  - destruct Hg as (? & ? & n & [= <-] & Hn). unfold land_on. destruct (operands_ge m vs') as (-> & H3 & _); [lia|].
    split_and!; [done|done|]. f_equal. rewrite len_app. lia.
Qed.
Hypothesis Hrun : ∀ body, forallb op_closed (flatten body) = true → body_good body.

Lemma instr_good labs b h i r st ls vs :
  instr_type P nl nr room labs b h i = Some r → Forall (λ n, 0 ≤ n) labs → forallb op_closed (flatten1 i) = true →
  len vs = h - b → len ls = nl → store_fits st → good_out nr labs b r (run_instr P run call i st ls vs).
Proof using Hcall Hclosed Hrun.
  intros Ht Hlabs Hc Hv Hl Hf. destruct i as [o|ty body|ty body|ty thn els].
  - simpl in Hc. apply andb_true_iff in Hc as [Hc _]. by eapply op_good.
  - simpl in Ht, Hc |- *. rewrite forallb_app, andb_true_iff in Hc. destruct Hc as [Hc _].
    destruct (arity _ _) as [[np m]|]; [|done]. cbn -[seq_with instr_type] in Ht.
    destruct (_ && _) eqn:Hfit; [|done]. apply andb_true_iff in Hfit as [G1%Z.leb_le _].
    destruct (block_end_cases _ _ _ Ht) as (-> & r1 & Hr1 & Hcase).
    eapply block_good; [by apply Hrun| |exact Hcase|done|done|exact G1|lia|done|done].
    replace (h - Z.of_nat np + Z.of_nat np) with h by lia. exact Hr1.
  - assert (seq_type P nl nr room labs b h [ILoop ty body] = Some r) as Hagain
      by (unfold seq_type; cbn [seq_with]; rewrite Ht; by destruct r).
    simpl in Ht, Hc |- *. rewrite forallb_app, andb_true_iff in Hc. destruct Hc as [Hc _].
    destruct (arity _ _) as [[np m]|]; [|done]. cbn -[seq_with instr_type] in Ht.
    destruct (_ && _) eqn:Hfit; [|done]. apply andb_true_iff in Hfit as [G1%Z.leb_le _].
    destruct (block_end_cases _ _ _ Ht) as (-> & r1 & Hr1 & Hcase). unfold run_loop.
    destruct (operands_ge np vs) as (-> & H1 & H2); [lia|].
    pose proof (Hrun body Hc _ _ _ _ st ls (take np vs) Hr1 ltac:(constructor; [lia|done]) ltac:(lia) Hl Hf) as Hg.
    destruct (run body st ls (take np vs)) as [st' ls' vs'|[|d] st' ls' vs'|st' vs'|f st' vs'|s tr| |]; simpl in *; try done.
    + destruct Hg as (? & ? & ->). destruct Hcase as [[= Hr]|]; [|done]. unfold leave.
      rewrite (proj2 (Nat.eqb_eq _ _)) by (unfold len in *; lia). split_and!; [done|done|]. f_equal. rewrite len_app. lia.
    + destruct Hg as (? & ? & n & [= <-] & Hn). destruct (operands_ge np vs') as (-> & H3 & _); [lia|].
      eapply Hrun; [|exact Hagain|done| |done|done].
      * simpl. by rewrite app_nil_r, forallb_app, Hc.
      * rewrite len_app. lia.
  - simpl in Ht, Hc |- *. rewrite !forallb_app, !andb_true_iff in Hc. destruct Hc as (Hc & Hce & _).
    destruct (arity _ _) as [[np m]|]; [|done]. cbn -[seq_with instr_type] in Ht.
    destruct (_ && _) eqn:Hfit; [|done]. apply andb_true_iff in Hfit as [G1%Z.leb_le _].
    destruct vs as [|c vs]; [rewrite len_nil in Hv; lia|]. rewrite len_cons in Hv. simpl.
    assert (∀ body r1, forallb op_closed (flatten body) = true →
      seq_with (instr_type P nl nr room (Z.of_nat m :: labs) (h - 1 - Z.of_nat np)) (h - 1) body = Some r1 →
      r1 = Some (h - 1 - Z.of_nat np + Z.of_nat m) ∨ r1 = None →
      good_out nr labs b (Some (h - 1 - Z.of_nat np + Z.of_nat m)) (run_block run np m body st ls vs)) as Harm.
    { intros body r1 Hcb Hr1 Hcase. eapply block_good; [by apply Hrun| |exact Hcase|done|done|exact G1|lia|done|done].
      replace (h - 1 - Z.of_nat np + Z.of_nat np) with (h - 1) by lia. exact Hr1. }
    destruct els as [els|].
    + destruct (block_end _ (seq_with _ _ els)) as [re|] eqn:He; [|done]. cbn -[seq_with instr_type] in Ht.
      destruct (block_end_cases _ _ _ He) as (_ & r2 & Hr2 & Hcase2).
      destruct (block_end_cases _ _ _ Ht) as (-> & r1 & Hr1 & Hcase1).
      destruct (_ =? 0); [by eapply Harm|by eapply Harm].
    + destruct (np =? m)%nat eqn:Hnm; [|done]. apply Nat.eqb_eq in Hnm as <-.
      destruct (block_end_cases _ _ _ Ht) as (-> & r1 & Hr1 & Hcase1).
      destruct (_ =? 0); [|by eapply Harm]. destruct (operands_ge np vs) as (-> & H1 & H2); [lia|]. unfold leave.
      rewrite (proj2 (Nat.eqb_eq _ _)) by (unfold len in *; lia). split_and!; [done|done|]. f_equal. rewrite len_app. lia.
Qed.
End body.
End sound.

(** ** Runs *)

Section runs.
Context (P : Prog) (ng : Z) (env : Env).
Context (Hclosed : program_closed P ng = true) (Htyped : program_typed P = true) (Henv : well_behaved P env).

Abbreviation good_call := (good_call P ng).

Lemma has_host_at f id np nr : index P.(p_funcs) f = Some (Host id np nr) → has_host P = true.
Proof.
  intros Hf%index_elem_of. unfold has_host. apply existsb_exists. exists (Host id np nr).
  split; [by apply list_elem_of_In|done].
Qed.

Lemma call_host_good f id np nr st vs :
  index P.(p_funcs) f = Some (Host id np nr) → np ≤ len vs → store_fits P ng st →
  good_call np nr vs (call_host P env id np nr st vs).
Proof using Hclosed Henv.
  intros Hf Hp Hst. pose proof (func_closed_at P ng Hclosed _ _ Hf) as Hc. simpl in Hc.
  rewrite !andb_true_iff in Hc. destruct Hc as [[Hc1%Z.leb_le Hc2%Z.leb_le] Hc3%Z.leb_le]. unfold call_host.
  destruct (operands_ge (Z.to_nat np) vs) as (-> & H1 & H2); [lia|].
  set (box := mkMailbox id np nr _ _). destruct (sf_box _ _ _ Hst) as [B1 B2].
  pose proof (Henv st.(s_trace) box st.(s_memory) ltac:(by split; [exists f|]) (sf_memory _ _ _ Hst)) as He.
  unfold replies in He. destruct (env _ _ _) as [[ok box'] mem']. rewrite (sf_msize _ _ _ Hst (has_host_at _ _ _ _ Hf)), Z.eqb_refl. simpl.
  destruct ok; simpl; [|done]. specialize (He eq_refl). simpl in He. rewrite He. unfold reply_ok in He.
  rewrite !andb_true_iff in He. destruct He as [[[[[E1 E2] E3%Z.eqb_eq] E4] E5] E6]. split.
  - destruct Hst. split; simpl; try done.
    + apply bytes_ok_Forall. exact E6.
    + split; [done|]. apply List.Forall_forall. rewrite forallb_forall in E4. intros x Hx. specialize (E4 x Hx).
      unfold in_u64. lia.
  - rewrite len_app, H2. unfold len in *. rewrite length_take. lia.
Qed.

Lemma func_good run call f fd st vs :
  (∀ nl nr room body, forallb (op_closed P ng) (flatten body) = true → body_good P ng nl nr room run body) →
  (∀ f st vs np nr, signature P f = Some (np, nr) → np ≤ len vs → store_fits P ng st → good_call np nr vs (call f st vs)) →
  index P.(p_funcs) f = Some (Code fd) → fd.(fd_params) ≤ len vs → store_fits P ng st →
  good_call fd.(fd_params) fd.(fd_results) vs (run_func P run call fd st vs).
Proof using Hclosed Htyped.
  intros Hrun Hcall Hf Hp Hst. destruct (code_signature P ng Hclosed _ _ Hf) as (_ & Hc1 & Hc2 & Hc3 & Hc4).
  unfold program_typed in Htyped. rewrite forallb_forall in Htyped. pose proof (Htyped (Code fd)) as Ht.
  rewrite <-list_elem_of_In in Ht. specialize (Ht (index_elem_of _ _ _ Hf)). unfold func_typed in Ht.
  apply andb_true_iff in Ht as [_ Ht%bool_decide_eq_true_1]. destruct Ht as [x Ht].
  destruct (block_end_cases _ _ _ Ht) as (_ & r & Hr & Hcase). unfold run_func.
  destruct (operands_ge (Z.to_nat fd.(fd_params)) vs) as (-> & H1 & H2); [lia|].
  set (ls := rev _ ++ _). assert (len ls = fd.(fd_params) + fd.(fd_locals)) as Hls.
  { unfold ls. rewrite len_app, len_replicate. unfold len at 1. rewrite length_rev. fold (len (take (Z.to_nat (fd_params fd)) vs)). lia. }
  pose proof (Hrun _ fd.(fd_results) _ _ Hc4 _ _ _ _ st ls [] Hr ltac:(by repeat constructor) eq_refl Hls Hst) as Hg.
  destruct (run _ _ _ _) as [st' ls' vs'|[|d] st' ls' vs'|st' vs'|g st' vs'|s tr| |]; simpl in *; try done.
  - destruct Hg as (? & _ & ->). destruct Hcase as [[= Hr']|]; [|done].
    rewrite (proj2 (Nat.eqb_eq _ _)) by (unfold len in *; lia). split; [done|]. rewrite len_app. lia.
  - destruct Hg as (? & _ & n & [= <-] & Hn). destruct (operands_ge (Z.to_nat fd.(fd_results)) vs') as (-> & H3 & _); [lia|].
    split; [done|]. rewrite len_app. lia.
  - by destruct Hg as (_ & _ & n & ? & _).
  - destruct Hg as (? & Hn). destruct (operands_ge (Z.to_nat fd.(fd_results)) vs') as (-> & H3 & _); [lia|].
    split; [done|]. rewrite len_app. lia.
  - destruct Hg as (? & fd' & Hg & Hrs & Hps). rewrite Hg, (proj2 (Z.eqb_eq _ _) Hrs).
    destruct (code_signature P ng Hclosed _ _ Hg) as (Hsg & Hp0 & _).
    destruct (operands_ge (Z.to_nat fd'.(fd_params)) vs') as (-> & H3 & _); [lia|].
    pose proof (Hcall g st' (take (Z.to_nat fd'.(fd_params)) vs') _ _ Hsg ltac:(lia) ltac:(done)) as Hc.
    destruct (call _ _ _); simpl in *; try done. destruct Hc as [? Hc]. split; [done|]. rewrite len_app. lia.
Qed.

Lemma run_good fuel :
  (∀ nl nr room body, forallb (op_closed P ng) (flatten body) = true → body_good P ng nl nr room (run P env fuel) body) ∧
  (∀ f st vs np nr, signature P f = Some (np, nr) → np ≤ len vs → store_fits P ng st →
    good_call np nr vs (call P env fuel f st vs)).
Proof using Hclosed Htyped Henv.
  induction fuel as [|fuel [IHr IHc]]; [split; [intros ???? _ ???????; intros; done|done]|]. split.
  - intros nl nr room [|i rest] Hc labs b h r st ls vs Ht Hlabs Hv Hl Hst.
    { injection Ht as <-. split_and!; [done|done|]. f_equal. lia. }
    rewrite run_cons.
    unfold flatten in Hc. simpl in Hc. rewrite forallb_app in Hc. apply andb_true_iff in Hc as [Hc1 Hc2].
    unfold seq_type in Ht. cbn [seq_with] in Ht.
    destruct (instr_type P nl nr room labs b h i) as [r1|] eqn:Hi; [|done].
    pose proof (instr_good P ng Hclosed nl nr room (run P env fuel) (call P env fuel) IHc (IHr nl nr room)
      labs b h i r1 st ls vs Hi Hlabs Hc1 Hv Hl Hst) as Hg.
    destruct (run_instr _ _ _ _ _ _ _) as [st' ls' vs'|d st' ls' vs'|st' vs'|f st' vs'|s tr| |]; simpl in *; try done.
    destruct Hg as (? & ? & ->). eapply IHr; try done. lia.
  - intros f st vs np nr Hs Hp Hst. simpl. unfold signature in Hs.
    destruct (index (p_funcs P) f) as [[id np' nr'|fd]|] eqn:Hf; [| |done]; injection Hs as <- <-.
    + by eapply call_host_good.
    + by eapply func_good.
Qed.
End runs.

(** Stack typing is sound.  Take a program whose bodies are typed and whose indices are
    in range, in an environment that answers the calls of its host functions as the
    interface asks: with as many results as the import declares, and memory of the same
    length.  Then a call with enough arguments is never stuck, whatever its arguments,
    the data, the fuel and the environment's answers: it returns as many values as the
    function's signature says in place of its arguments, on data as before, or traps, or
    needs more fuel. *)
Lemma typed_program_sound P ng env fuel f st vs np nr :
  program_typed P = true → program_closed P ng = true → well_behaved P env →
  signature P f = Some (np, nr) → np ≤ len vs → store_fits P ng st →
  match call P env fuel f st vs with
  | Returns st' vs' => store_fits P ng st' ∧ len vs' = len vs - np + nr
  | CTrapped _ _ | CTimeout => True
  | CStuck => False
  end.
Proof.
  intros HT HC HE Hs Hp Hst. by apply (proj2 (run_good P ng env HC HT HE fuel) f st vs np nr).
Qed.
