(* ===== verification/LowerSim.v ===== *)
(** * Branches of a lowered body

    A branch of the code unwinds the operands to its label's height, and the tests of a
    [br_table] find the label the operand selects. *)

From S2P Require Import Prelude Cuop Wasm Lower EnvTable Module ModuleSteps Engine EngineNum.
From S2P Require Import Verify VerifyFacts EngineInv LowerInv Structured Backpatch LowerTree LowerBack.
From S2P Require Import EngineView ViewCalls LowerNum LowerMem LowerOps LowerBulk LowerBasic.
From stdpp Require Import base list strings.

Local Open Scope Z_scope.

(** The [n] bottom values of an operand stack. *)
Definition lowest (n : Z) (os : list Z) : list Z := drop (length os - Z.to_nat n) os.

Lemma lowest_app n vs os : 0 ≤ n ≤ len os → lowest n (vs ++ os) = lowest n os.
Proof.
  intros Hn. unfold lowest. rewrite length_app, drop_app_ge by (unfold len in Hn; lia).
  f_equal. unfold len in Hn. lia.
Qed.

Lemma lowest_all os : lowest (len os) os = os.
Proof. unfold lowest, len. by rewrite Nat2Z.id, Nat.sub_diag. Qed.

(** The locals of an activation: the function's own, and the scratch slot if there is one. *)
Record frame_ok (E : FnEnv) (n : Z) (scr : list Z) : Prop := {
  fo_total : n + len scr = E.(e_n_params) + E.(e_n_locals);
  fo_params : 0 ≤ E.(e_n_params) ∧ 0 ≤ E.(e_n_results);
  fo_scratch : ∀ sc, E.(e_scratch) = Some sc →
    sc = u16 (E.(e_n_params) + E.(e_n_locals) - 1) ∧
    E.(e_n_locals) = Z.min (n - E.(e_n_params) + 1) (2 ^ 16 - 1) }.

Section branches.
Context {WD : World} (M : HostModule) (T : Trace → Status → Machine → Prop) (HT : ends T).
Context (E : FnEnv) (Hcode : len M.(hm_code) < 2 ^ 32).
Context (lo : list Z) (frs : list Frame).

Abbreviation goes := (goes M T).
Abbreviation ops_at := (ops_at M.(hm_code)).
Abbreviation fv := (fv lo frs).
Abbreviation reaches := (reaches M T).
Abbreviation reaches1 := (reaches1 M T).

#[local] Existing Instance reaches_preorder.

(** Only an activation that is on the stack matters. *)
Lemma reaches_cap pc st ls os v' :
  (len lo + len ls + len os ≤ STACK_CAP → reaches (fv pc st ls os) v') → reaches (fv pc st ls os) v'.
Proof. intros H Q HQ. apply fv_cap. intros Hc. by apply H. Qed.

Lemma unwind_reaches h l vs outer pc st ls scr :
  frame_ok E (len ls) scr → h = i32 (len vs + len outer) →
  (∃ n, l.(l_base) = i32 n ∧ 0 ≤ n ≤ len outer) → 0 ≤ l.(l_arity) ≤ len vs →
  i32 (l.(l_base) + l.(l_arity)) ≤ h → 0 ≤ pc → ops_at pc (unwind_ops E h l) →
  reaches (fv pc st (ls ++ scr) (vs ++ outer))
    (fv (pc + len (unwind_ops E h l)) st (ls ++ scr)
       (take (Z.to_nat l.(l_arity)) vs ++ lowest l.(l_base) outer)).
Proof using HT Hcode.
  intros [Hfo1 Hfo2 _] Hh (n & Hb & Hn) Ha Hle Hpc Hops. apply reaches_cap. autorewrite with len. intros Hc.
  pose proof (len_nonneg lo). pose proof (len_nonneg ls). pose proof (len_nonneg scr).
  pose proof (len_nonneg vs). unfold STACK_CAP in Hc.
  rewrite i32_id in Hb, Hh by lia. subst h. unfold unwind_ops in *. cbv zeta in *. rewrite Hb in *.
  rewrite i32_id in * by lia. destruct (_ <? _) eqn:Hlt.
  - set (os2 := take (Z.to_nat l.(l_arity)) vs). set (mid := drop (Z.to_nat l.(l_arity)) vs ++ take (length outer - Z.to_nat n) outer).
    assert (vs ++ outer = os2 ++ mid ++ lowest n outer) as Hos.
    { unfold os2, mid, lowest. by rewrite <-app_assoc, take_drop, app_assoc, take_drop. }
    assert (len os2 = l.(l_arity)) as Hl2 by (unfold os2, len in *; rewrite length_take; lia).
    assert (len (lowest n outer) = n) as Hlb by (unfold lowest, len in *; rewrite length_drop; lia).
    change (len [_]) with 1. eapply reaches_op; [exact HT|done|done|exact Hops|].
    rewrite Hos. unfold LowerOps.fv. rewrite !rev_app_distr, <-!app_assoc.
    rewrite (app_assoc ls). eapply does_unwind.
    + rewrite u16_id by lia. unfold len in *. by rewrite length_rev.
    + rewrite u32_id, u32_id by (rewrite ?u32_id; lia). autorewrite with len. rewrite Hfo1.
      unfold len in *. rewrite !length_rev. lia.
    + by rewrite <-?app_assoc.
  - change (len []) with 0. rewrite Z.add_0_r.
    assert (n = len outer ∧ l.(l_arity) = len vs) as [-> Hav] by lia.
    rewrite lowest_all, Hav. rewrite take_ge; [done|]. unfold len. by rewrite Nat2Z.id.
Qed.

(** ** Jumps *)

(** A label of a block that encloses the operands [vs], with [outer] below them. *)
Definition label_in (outer : list Z) (l : Lab) : Prop :=
  (∃ n, l.(l_base) = i32 n ∧ 0 ≤ n ≤ len outer) ∧ 0 ≤ l.(l_arity).

(** Where a branch to [l] arrives. *)
Definition landing (l : Lab) (st : Store) (ls vs outer : list Z) : View :=
  fv l.(l_target) st ls (take (Z.to_nat l.(l_arity)) vs ++ lowest l.(l_base) outer).

Lemma jump_reaches h l vs outer pc st ls scr :
  frame_ok E (len ls) scr → h = i32 (len vs + len outer) → label_in outer l → l.(l_arity) ≤ len vs →
  i32 (l.(l_base) + l.(l_arity)) ≤ h → 0 ≤ pc → ops_at pc (jump_ops E h l) →
  reaches1 (fv pc st (ls ++ scr) (vs ++ outer)) (landing l st (ls ++ scr) vs outer).
Proof using Hcode HT.
  intros Hf Hh [Hb Ha0] Ha Hle Hpc Hops. unfold jump_ops in Hops. apply ops_at_app in Hops as [H1 H2]; [|done].
  eapply reaches_reaches1; [by eapply unwind_reaches|]. pose proof (len_nonneg (unwind_ops E h l)).
  eapply reaches1_op; [exact HT|done|lia|done|]. by apply does_br.
Qed.

Lemma jump_len h l : 1 ≤ len (jump_ops E h l).
Proof. unfold jump_ops. autorewrite with len. pose proof (len_nonneg (unwind_ops E h l)). lia. Qed.

(** The operand on top decides. *)
Lemma skip_reaches h l c vs outer pc st ls scr :
  frame_ok E (len ls) scr → h = i32 (len vs + len outer) → label_in outer l →
  i32 (l.(l_base) + l.(l_arity)) ≤ h → 0 ≤ pc → ops_at pc (skip_ops E pc h l) →
  if w32 c =? 0
  then reaches (fv pc st (ls ++ scr) (c :: vs ++ outer))
         (fv (pc + 1 + len (jump_ops E h l)) st (ls ++ scr) (vs ++ outer))
  else l.(l_arity) ≤ len vs →
       reaches1 (fv pc st (ls ++ scr) (c :: vs ++ outer)) (landing l st (ls ++ scr) vs outer).
Proof using Hcode HT.
  intros Hf Hh Hl Hle Hpc Hops. apply ops_at_cons in Hops as [H1 H2]; [|done]. apply ops_at_one in H1.
  assert (∀ v', (if w32 c =? 0 then v' = fv (pc + 1 + len (jump_ops E h l)) st (ls ++ scr) (vs ++ outer)
    else v' = fv (pc + 1) st (ls ++ scr) (vs ++ outer)) → reaches (fv pc st (ls ++ scr) (c :: vs ++ outer)) v') as Hr.
  { intros v' Hv'. eapply reaches_op; [exact HT|done|done|exact H1|].
    eapply does_br_if_not; [apply (fv_cons lo frs (pc + 1) st (ls ++ scr) c (vs ++ outer))|].
    destruct (w32 c =? 0); by rewrite Hv'. }
  destruct (w32 c =? 0); [by apply Hr|]. intros Ha. eapply reaches_reaches1; [by apply Hr|].
  eapply jump_reaches; try done. lia.
Qed.

(** ** Tables *)

Lemma ops_at_bound pc ops : 0 ≤ pc → ops_at pc ops → ops ≠ [] → pc + len ops ≤ len M.(hm_code).
Proof.
  intros Hpc H Hne. destruct (last ops) as [op|] eqn:Hl; [|by apply last_None in Hl].
  rewrite last_lookup in Hl. apply H, lookup_lt_Some in Hl. destruct ops; [done|]. unfold len. simpl in *. lia.
Qed.

Lemma table_len K labs h sc i ds pc pc' :
  table_code E M.(hm_code) K labs h sc i ds pc pc' → 0 ≤ pc → len ds ≤ len M.(hm_code) - pc ∨ ds = [].
Proof.
  induction 1 as [|i d ds pc pc' l idx Hl H0 HK Hops Ht IH]; intros Hpc; [by right|left].
  pose proof (jump_len h l). assert (pc + len ([mkCuOp OP_LOCAL_GET sc 0; mkCuOp OP_I64_CONST 0 idx; mkCuOp OP_I32_EQ 0 0] ++
    skip_ops E (pc + 3) h l) ≤ len M.(hm_code)) as Hb by (apply ops_at_bound; [exact Hpc|exact Hops|discriminate]).
  unfold skip_ops in Hb. autorewrite with len in *. destruct IH as [IH| ->]; [lia|lia|]. change (len []) with 0. lia.
Qed.

(** The tests from number [i] on, for an operand that is none of those before. *)
Lemma table_reaches labs h sc i ds pc pc' x vs outer st ls :
  table_code E M.(hm_code) M.(hm_consts) labs h sc i ds pc pc' →
  frame_ok E (len ls) [x] → E.(e_scratch) = Some sc → in_u64 x → h = i32 (len vs + len outer) →
  Forall (label_in outer) labs → 0 ≤ pc → 0 ≤ i ≤ w32 x → i + len ds < 2 ^ 32 →
  match ds !! Z.to_nat (w32 x - i) with
  | None => reaches (fv pc st (ls ++ [x]) (vs ++ outer)) (fv pc' st (ls ++ [x]) (vs ++ outer))
  | Some d => ∀ l, labs !! Z.to_nat d = Some l → l.(l_arity) ≤ len vs →
      reaches1 (fv pc st (ls ++ [x]) (vs ++ outer)) (landing l st (ls ++ [x]) vs outer)
  end.
Proof using Hcode HT.
  intros Ht Hf Hsc Hx Hh Hlabs. revert Hx. induction Ht as [i pc|i d ds pc pc' l idx [Hl Hle] H0 HK Hops Ht IH];
    intros Hx Hpc Hi Hlen; [rewrite lookup_nil; reflexivity|].
  autorewrite with len in Hlen. pose proof (len_nonneg ds).
  assert (label_in outer l) as Hlin by (by eapply Forall_lookup_1).
  rewrite !ops_at_app in Hops by done. destruct Hops as [Hops Hskip].
  rewrite !ops_at_cons in Hops by lia. destruct Hops as (O1 & O2 & O3 & _).
  change (len [_; _; _]) with 3 in Hskip.
  set (c := b2z (w32 x =? i)).
  assert (reaches (fv pc st (ls ++ [x]) (vs ++ outer)) (fv (pc + 3) st (ls ++ [x]) (c :: vs ++ outer))) as Hr.
  { apply reaches_cap. autorewrite with len. intros Hc. pose proof (len_nonneg lo). pose proof (len_nonneg ls).
    pose proof (len_nonneg vs). pose proof (len_nonneg outer). unfold STACK_CAP in Hc.
    destruct Hf as [Hf1 Hf2 Hf3]. destruct (Hf3 sc Hsc) as [Hsc1 Hsc2]. change (len [x]) with 1 in Hf1.
    assert (sc = len ls) as -> by (rewrite Hsc1, u16_id by lia; lia).
    etrans. { eapply reaches_op; [exact HT|done|done|by apply ops_at_one|].
      apply (does_local_get M T HT lo frs (len ls) 0 _ _ _ _ x); [|done|done].
      apply index_Some. split; [done|]. unfold len. rewrite Nat2Z.id. by apply list_lookup_middle. }
    etrans. { eapply reaches_op; [exact HT|done|lia|by apply ops_at_one|]. by eapply does_const. }
    eapply reaches_op; [exact HT|done|lia|by apply ops_at_one|].
    assert (pushed (inl (u32cmp Z.eqb x (u64 (u64 (u32 i))))) = inl c) as Hc'.
    { unfold pushed, u32cmp, c. rewrite u64_b2z, !u64_u32, (u32_id (u32 i)), (u32_id i) by (apply u32_range || lia).
      done. }
    eapply (does_alu2 M T HT lo frs OP_I32_EQ (fun a b => inl (u32cmp Z.eqb a b))); [done|].
    rewrite Hc'. by rewrite <-!Z.add_assoc. }
  pose proof (skip_reaches h l c vs outer (pc + 3) st ls [x] Hf Hh Hlin Hle ltac:(lia) Hskip) as Hs.
  unfold c in Hs at 1. destruct (w32 x =? i) eqn:Heq; simpl in Hs.
  - apply Z.eqb_eq in Heq. rewrite Heq, Z.sub_diag. simpl. intros l' Hl' Ha. assert (l' = l) as -> by congruence.
    eapply reaches_reaches1; [exact Hr|by apply Hs].
  - apply Z.eqb_neq in Heq. replace (Z.to_nat (w32 x - i)) with (S (Z.to_nat (w32 x - (i + 1)))) by lia. simpl.
    specialize (IH Hx ltac:(pose proof (jump_len h l); lia) ltac:(lia) ltac:(lia)).
    replace (pc + 3 + 1 + len (jump_ops E h l)) with (pc + 4 + len (jump_ops E h l)) in Hs by lia.
    assert (reaches (fv pc st (ls ++ [x]) (vs ++ outer)) (fv (pc + 4 + len (jump_ops E h l)) st (ls ++ [x]) (vs ++ outer)))
      as Hr2 by (etrans; [exact Hr|exact Hs]).
    destruct (ds !! _); [|by etrans]. intros l' Hl' Ha. eapply reaches_reaches1; [exact Hr2|by apply IH].
Qed.
End branches.
