(* ===== verification/LowerOutcome.v ===== *)
(** * Outcomes of lowered code

    What it means that a module holds the code of a program ([linked]), and that a run
    from the view of an activation ends as an outcome of the reference semantics says:
    at the body's end, at the label it branches to, at the op it returns or calls by, or
    with its trap.  Blocks and loops, given how bodies run. *)

From S2P Require Import Prelude Cuop Wasm Lower EnvTable Module ModuleSteps Engine EngineNum.
From S2P Require Import Verify VerifyFacts EngineInv LowerInv Structured WasmProgram Backpatch LowerTree LowerBack.
From S2P Require Import ModuleTables EngineView ViewCalls ViewHost LowerNum LowerMem LowerOps LowerBulk LowerBasic LowerSim.
From stdpp Require Import base list strings.

Local Open Scope Z_scope.

(** ** Linking *)

(** What a function's code knows of the program it is part of: the types, and which
    functions are the host's. *)
Record env_ok (P : Prog) (E : FnEnv) : Prop := {
  ev_types : E.(e_func_types) `prefix_of` P.(p_types);
  ev_code : ∀ f fd, index P.(p_funcs) f = Some (Code fd) → E.(e_n_imports) ≤ f ∧
    ∀ np nr, func_arity f E.(e_func_types) E.(e_func_typeidx) = Ok (np, nr) →
      fd.(fd_params) = np ∧ fd.(fd_results) = nr;
  ev_host : ∀ f id np' nr', index P.(p_funcs) f = Some (Host id np' nr') → f < E.(e_n_imports) ∧
    (∀ id', E.(e_host_fn_ids) !! Z.to_nat f = Some id' → id' = id) ∧
    ∀ np nr, func_arity f E.(e_func_types) E.(e_func_typeidx) = Ok (np, nr) → np' = np ∧ nr' = nr ∧ np ≤ 8 ∧ nr ≤ 8 }.

(** Function [fd] of [P] compiled at [meta]'s offset; its last op is at [p]. *)
Record compiled (M : HostModule) (P : Prog) (fd : FuncDef) (meta : FuncMetaC) (E : FnEnv) (p : Z) : Prop := {
  cp_params : meta.(fm_n_params) = fd.(fd_params) ∧ E.(e_n_params) = fd.(fd_params) ∧ 0 ≤ fd.(fd_params);
  cp_results : meta.(fm_n_results) = fd.(fd_results) ∧ E.(e_n_results) = fd.(fd_results) ∧ 0 ≤ fd.(fd_results);
  cp_nlocals : meta.(fm_n_locals) = E.(e_n_locals) ∧ 0 ≤ fd.(fd_locals) < 2 ^ 16;
  cp_locals : match E.(e_scratch) with
    | Some sc => E.(e_n_locals) = Z.min (fd.(fd_locals) + 1) (2 ^ 16 - 1) ∧
                 sc = u16 (E.(e_n_params) + E.(e_n_locals) - 1)
    | None => E.(e_n_locals) = fd.(fd_locals)
    end;
  cp_env : env_ok P E;
  cp_tree : forallb tree_ok fd.(fd_body) = true;
  cp_off : 0 ≤ meta.(fm_code_off);
  cp_len : meta.(fm_code_len) = p + 1 - meta.(fm_code_off);
  cp_code : code_for E M.(hm_code) M.(hm_consts) [mkLab p 0 fd.(fd_results) 0] 0 fd.(fd_body) meta.(fm_code_off) p;
  cp_end : ops_at M.(hm_code) p [mkCuOp OP_END_FUNC fd.(fd_results) 0] }.

(** The module holds the code of every function of the program, and its tables. *)
Record linked (M : HostModule) (P : Prog) : Prop := {
  lk_code : len M.(hm_code) < 2 ^ 32;
  lk_types : Forall (fun ft : FuncType => len ft.1 ≤ 8 ∧ len ft.2 ≤ 8) P.(p_types);
  lk_funcs : ∀ f fd, index P.(p_funcs) f = Some (Code fd) →
    ∃ meta E p, index M.(hm_funcs) f = Some meta ∧ compiled M P fd meta E p;
  lk_typed : ∀ f fd t ft, index P.(p_funcs) f = Some (Code fd) → index P.(p_typeidx) f = Some t →
    index P.(p_types) t = Some ft → fd.(fd_params) = len ft.1 ∧ fd.(fd_results) = len ft.2;
  lk_typeidx : M.(hm_func_typeidx) = P.(p_typeidx);
  lk_fps : fingerprints P.(p_types) = Ok M.(hm_type_fp);
  lk_table : P.(p_table) = slot <$> M.(hm_table);
  lk_datas : datas_ok M P.(p_datas);
  lk_msize : P.(p_msize) = M.(hm_mem_size) }.

Section correct.
Context (M : HostModule) (P : Prog) (HL : linked M P).
Context {WD : World} (T : Trace → Status → Machine → Prop) (HT : ends T).

Abbreviation run := (run P env_of).
Abbreviation call := (call P env_of).

Abbreviation goes := (goes M T).
Abbreviation goes1 := (goes1 M T).
Abbreviation ops_at := (ops_at M.(hm_code)).
Abbreviation good := (good M).
Abbreviation code_for E := (code_for E M.(hm_code) M.(hm_consts)).

(** ** Outcomes *)

(** The activation at [pc], whatever the [k] scratch slots hold. *)
Definition act (lo : list Z) (frs : list Frame) (k pc : Z) (st : Store) (ls os : list Z) (v : View) : Prop :=
  ∃ scr, len scr = k ∧ v = fv lo frs pc st (ls ++ scr) os.

(** About to call function [f] on [ps] in the frame's place. *)
Definition at_tail (lo : list Z) (frs : list Frame) (f : Z) (st : Store) (ps : list Z) (v : View) : Prop :=
  ∃ pcr ls os, 0 ≤ pcr ∧ ops_at pcr [mkCuOp OP_RETURN_CALL 0 f] ∧ v = fv lo frs pcr st ls (ps ++ os).

(** About to return [rs]. *)
Definition at_return (lo : list Z) (frs : list Frame) (st : Store) (rs : list Z) (v : View) : Prop :=
  ∃ op a b pcr ls os, (op = OP_RETURN ∨ op = OP_END_FUNC) ∧ 0 ≤ pcr ∧ ops_at pcr [mkCuOp op a b] ∧
    v = fv lo frs pcr st ls (rs ++ os).

Section outcome.
Context (E : FnEnv) (lo : list Z) (frs : list Frame) (k : Z) (n : Z).

(** The run from [v0] ends as the reference semantics says. *)
Definition outcome_ok (labs : list Lab) (outer : list Z) (v0 : View) (pc' : Z) (o : out) : Prop :=
  match o with
  | Next st ls vs => goes v0 (act lo frs k pc' st ls (vs ++ outer)) ∧ good st ls vs ∧ len ls = n
  | Branch d st ls vs =>
      good st ls vs ∧ len ls = n ∧
      ∀ l, labs !! d = Some l → l.(l_arity) ≤ len vs →
        goes1 v0 (act lo frs k l.(l_target) st ls (take (Z.to_nat l.(l_arity)) vs ++ lowest l.(l_base) outer))
  | Ret st vs =>
      store_ok M st ∧ Forall in_u64 vs ∧
      (E.(e_n_results) ≤ len vs → goes v0 (at_return lo frs st (take (Z.to_nat E.(e_n_results)) vs)))
  | Tail f st vs =>
      store_ok M st ∧ Forall in_u64 vs ∧
      ∀ fd, index P.(p_funcs) f = Some (Code fd) → fd.(fd_params) ≤ len vs →
        goes v0 (at_tail lo frs f st (take (Z.to_nat fd.(fd_params)) vs))
  | Trapped s tr => (∀ m, T tr s m) → goes v0 (fun _ => False)
  | Stuck | Timeout => True
  end.

(** A run that starts earlier ends the same. *)
Lemma outcome_from labs outer v0 S pc' o :
  goes v0 S → (∀ v, S v → outcome_ok labs outer v pc' o) → (∃ v, S v) → outcome_ok labs outer v0 pc' o.
Proof.
  intros H0 HS [v Hv]. pose proof (HS v Hv) as Ho. destruct o; simpl in *; try done.
  - destruct Ho as (_ & ? & ?). split_and!; [|done..]. eapply goes_bind; [exact H0|]. intros v' Hv'. by apply HS.
  - destruct Ho as (? & ? & _). split_and!; [done..|]. intros l Hl Ha.
    eapply goes_goes1; [exact H0|]. intros v' Hv'. by apply (HS v' Hv').
  - destruct Ho as (? & ? & _). split_and!; [done..|]. intros Hle.
    eapply goes_bind; [exact H0|]. intros v' Hv'. by apply (HS v' Hv').
  - destruct Ho as (? & ? & _). split_and!; [done..|]. intros fd Hfd Hle.
    eapply goes_bind; [exact H0|]. intros v' Hv'. by apply (HS v' Hv').
  - intros Ht. eapply goes_bind; [exact H0|]. intros v' Hv'. by apply (HS v' Hv').
Qed.
End outcome.

(** ** Blocks *)

Lemma operands_Some n vs ps : operands n vs = Some ps → ps = take n vs ∧ (n ≤ length vs)%nat.
Proof. unfold operands. destruct (_ <=? _)%nat eqn:H; [|done]. intros [= <-]. apply Nat.leb_le in H. done. Qed.

Lemma label_in_app vs outer l : label_in outer l → label_in (vs ++ outer) l.
Proof.
  intros [(n & Hb & Hn) Ha]. split; [|done]. exists n. split; [done|]. autorewrite with len.
  pose proof (len_nonneg vs). lia.
Qed.

Lemma good_app st ls vs ws : good st ls vs → Forall in_u64 ws → good st ls (vs ++ ws).
Proof. intros [] ?. split; [done..|]. by apply Forall_app. Qed.

Lemma good_take st ls vs n : good st ls vs → good st ls (take n vs).
Proof. intros []. split; [done..|]. by apply Forall_take. Qed.

(** A view of an activation too big for the stack goes anywhere. *)
Lemma goes_act_cap lo frs pc st ls os S :
  (len lo + len ls + len os ≤ STACK_CAP → goes (fv lo frs pc st ls os) S) → goes (fv lo frs pc st ls os) S.
Proof. apply fv_cap. Qed.

Lemma goes1_act_cap lo frs pc st ls os S :
  (len lo + len ls + len os ≤ STACK_CAP → goes1 (fv lo frs pc st ls os) S) → goes1 (fv lo frs pc st ls os) S.
Proof. apply fv_cap1. Qed.

Lemma block_out_ok E lo frs k n labs rest outer l pc st0 ls0 os0 p1 nr o :
  let v0 := fv lo frs pc st0 ls0 os0 in
  len rest + len outer ≤ len os0 →
  l.(l_target) = p1 → l.(l_arity) = Z.of_nat nr → l.(l_base) = i32 (len rest + len outer) →
  Forall (label_in outer) labs → Forall in_u64 rest →
  outcome_ok E lo frs k n (l :: labs) (rest ++ outer) v0 p1 o →
  outcome_ok E lo frs k n labs outer v0 p1 (block_out nr rest o) ∧
  (∀ st' ls' vs', block_out nr rest o = Next st' ls' vs' → len vs' = Z.of_nat nr + len rest).
Proof.
  intros v0 Hos Ht Ha Hb Hlabs Hrest. pose proof (len_nonneg lo) as Hlo. pose proof (len_nonneg ls0) as Hls0.
  assert (∀ x, len rest + len outer ≤ x → x ≤ STACK_CAP → l.(l_base) = len (rest ++ outer)) as Hbase.
  { intros x H1 H2. rewrite Hb, i32_id; [by autorewrite with len|]. pose proof (len_nonneg rest).
    pose proof (len_nonneg outer). unfold STACK_CAP in H2. lia. }
  destruct o as [st ls vs|[|d] st ls vs| | | | |]; simpl.
  - intros (Hg & Hgd & Hn). unfold leave. destruct (_ =? _)%nat eqn:Hl; [|done]. apply Nat.eqb_eq in Hl. split.
    + simpl. rewrite <-app_assoc. split_and!; [done|by apply good_app|done].
    + intros ??? [= _ _ <-]. autorewrite with len. unfold len. lia.
  - intros (Hgd & Hn & Hbr). unfold land_on. destruct (operands nr vs) as [ps|] eqn:Htop; [|done].
    apply operands_Some in Htop as [-> Hle]. split.
    + split_and!; [|by apply good_app; [apply good_take|]|done]. apply goes_act_cap. intros Hc.
      specialize (Hbr l eq_refl ltac:(unfold len; lia)). apply goes1_goes in Hbr. rewrite Ht, Ha, Nat2Z.id in Hbr.
      rewrite (Hbase (len os0)), lowest_all in Hbr by lia. by rewrite <-app_assoc.
    + intros ??? [= _ _ <-]. autorewrite with len. unfold len. rewrite length_take. lia.
  - intros (Hgd & Hn & Hbr). split; [|done]. split_and!; [done..|]. intros l' Hl' Hal.
    specialize (Hbr l' Hl' Hal). assert (label_in outer l') as [(nb & Hnb & Hr) _] by (eapply Forall_lookup_1; [exact Hlabs|exact Hl']).
    apply goes1_act_cap. intros Hc. rewrite lowest_app in Hbr; [done|]. rewrite Hnb, i32_id; [done|].
    pose proof (len_nonneg rest). unfold STACK_CAP in Hc. lia.
  - done.
  - done.
  - done.
  - done.
  - done.
Qed.

(** ** The start of a body *)

Record ready (E : FnEnv) (scr : list Z) (labs : list Lab) (h pc : Z) (st : Store) (ls vs outer : list Z) : Prop := {
  rd_env : env_ok P E;
  rd_frame : frame_ok E (len ls) scr;
  rd_pc : 0 ≤ pc;
  rd_h : h = i32 (len vs + len outer);
  rd_labs : Forall (label_in outer) labs;
  rd_good : good st ls vs;
  rd_outer : Forall in_u64 outer }.

Definition body_sim (fuel : nat) : Prop := ∀ E lo frs scr labs h body pc pc' st ls vs outer,
  frs ≠ [] → ready E scr labs h pc st ls vs outer → forallb tree_ok body = true →
  code_for E labs h body pc pc' →
  outcome_ok E lo frs (len scr) (len ls) labs outer (fv lo frs pc st (ls ++ scr) (vs ++ outer)) pc'
    (run fuel body st ls vs).

(** Function [f] of the module on its arguments, from the start of its code. *)
Definition func_sim (fuel : nat) : Prop := ∀ f fd meta lo frs fr st ps,
  index P.(p_funcs) f = Some (Code fd) → index M.(hm_funcs) f = Some meta → fr.(fr_n_results) = fd.(fd_results) →
  store_ok M st → Forall in_u64 ps → len ps = fd.(fd_params) →
  let v0 := mkView meta.(fm_code_off) (len lo) (frs ++ [fr])
    (lo ++ rev ps ++ replicate (Z.to_nat meta.(fm_n_locals)) 0) st in
  match call fuel f st ps with
  | Returns st' rs => store_ok M st' ∧ len rs = fd.(fd_results) ∧ Forall in_u64 rs ∧
      goes v0 (at_return lo (frs ++ [fr]) st' rs)
  | CTrapped s tr => (∀ m, T tr s m) → goes v0 (fun _ => False)
  | CStuck | CTimeout => True
  end.

(** The operands of a block are taken off; the rest is out of its sight. *)
Lemma ready_block E scr labs h pc st ls vs outer np base p1 t nr e :
  ready E scr labs h pc st ls vs outer → (np ≤ length vs)%nat → base = i32 (h - Z.of_nat np) → 0 ≤ nr →
  0 ≤ p1 → ready E scr (mkLab t base nr e :: labs) h p1 st ls (take np vs) (drop np vs ++ outer).
Proof.
  intros [H1 H2 H3 H4 H5 H6 H7] Hnp Hb Hnr Hp1.
  assert (len (drop np vs ++ outer) = len vs - Z.of_nat np + len outer) as Hl.
  { autorewrite with len. unfold len. rewrite length_drop. lia. }
  pose proof (len_nonneg outer). split; try done.
  - rewrite H4, Hl. f_equal. unfold len. rewrite length_take. lia.
  - constructor.
    + split; [|done]. exists (len (drop np vs ++ outer)). split; [|pose proof (len_nonneg (drop np vs ++ outer)); lia].
      rewrite Hl. simpl. rewrite Hb, H4. rewrite <-Z.add_opp_r, i32_add_l. f_equal. lia.
    + eapply Forall_impl; [exact H5|]. intros l Hlin. by apply label_in_app.
  - by apply good_take.
  - apply Forall_app. split; [|done]. by apply Forall_drop, (gd_operands _ _ _ _ H6).
Qed.

Lemma take_drop_app {A} n (vs outer : list A) : take n vs ++ drop n vs ++ outer = vs ++ outer.
Proof. by rewrite app_assoc, take_drop. Qed.

(** The end of a body, where control may still have to jump to the label. *)
Definition joins (lo : list Z) (frs : list Frame) (p1 p2 : Z) : Prop :=
  ∀ st ls os, goes (fv lo frs p1 st ls os) (eq (fv lo frs p2 st ls os)).

Lemma joins_refl lo frs p : joins lo frs p p.
Proof. intros st ls os. by apply goes_here. Qed.

Lemma outcome_joins E lo frs k n labs outer v0 p1 p2 o :
  joins lo frs p1 p2 → outcome_ok E lo frs k n labs outer v0 p1 o → outcome_ok E lo frs k n labs outer v0 p2 o.
Proof.
  intros Hj. destruct o; simpl; try done. intros (Hg & ? & ?). split_and!; [|done..].
  eapply goes_bind; [exact Hg|]. intros v (scr & Hs & ->).
  eapply goes_mono; [apply Hj|]. intros v' <-. by exists scr.
Qed.

(** A block with its label at its end. *)
Lemma block_sim fuel E lo frs scr labs h pc p1 p2 st ls vs outer np nr base e body :
  body_sim fuel → frs ≠ [] → ready E scr labs h pc st ls vs outer → forallb tree_ok body = true →
  base = i32 (h - Z.of_nat np) → code_for E (mkLab p2 base (Z.of_nat nr) e :: labs) h body pc p1 →
  joins lo frs p1 p2 →
  outcome_ok E lo frs (len scr) (len ls) labs outer (fv lo frs pc st (ls ++ scr) (vs ++ outer)) p2
    (run_block (run fuel) np nr body st ls vs) ∧
  ∀ st' ls' vs', run_block (run fuel) np nr body st ls vs = Next st' ls' vs' →
    len vs' + Z.of_nat np = Z.of_nat nr + len vs.
Proof.
  intros IH Hfrs Hrd Hok Hb Hcf Hj. unfold run_block. destruct (operands np vs) as [ps|] eqn:Hps; [|done].
  apply operands_Some in Hps as [-> Hnp].
  pose proof (ready_block E scr labs h pc st ls vs outer np base pc p2 (Z.of_nat nr) e Hrd Hnp Hb ltac:(lia)
    (rd_pc _ _ _ _ _ _ _ _ _ Hrd)) as Hrd'.
  pose proof (IH E lo frs scr _ h body pc p1 st ls _ _ Hfrs Hrd' Hok Hcf) as Ho. rewrite take_drop_app in Ho.
  apply (outcome_joins _ _ _ _ _ _ _ _ _ _ _ Hj) in Ho.
  assert (len (drop np vs) = len vs - Z.of_nat np) as Hld by (unfold len; rewrite length_drop; lia).
  destruct (block_out_ok E lo frs (len scr) (len ls) labs (drop np vs) outer (mkLab p2 base (Z.of_nat nr) e) pc st
    (ls ++ scr) (vs ++ outer) p2 nr (run fuel body st ls (take np vs))) as [H1 H2]; try done.
  - rewrite Hld. autorewrite with len. lia.
  - simpl. rewrite Hb, (rd_h _ _ _ _ _ _ _ _ _ Hrd), <-Z.add_opp_r, i32_add_l, Hld. f_equal. lia.
  - apply Hrd.
  - by apply Forall_drop, (gd_operands _ _ _ _ (rd_good _ _ _ _ _ _ _ _ _ Hrd)).
  - split; [done|]. intros st' ls' vs' Hn. rewrite (H2 _ _ _ Hn), Hld. lia.
Qed.

(** What a loop leaves when it ends. *)
Lemma loop_len fuel ty body np nr :
  arity P.(p_types) ty = Some (np, nr) → ∀ st ls vs st' ls' vs',
  (run_loop (run fuel) (ILoop ty body) np nr body st ls vs = Next st' ls' vs' ∨
   run fuel [ILoop ty body] st ls vs = Next st' ls' vs') → len vs' + Z.of_nat np = Z.of_nat nr + len vs.
Proof.
  intros Har. induction fuel as [|fuel IH]; intros st ls vs st' ls' vs' [H|H].
  - unfold run_loop in H. by destruct (operands np vs).
  - done.
  - unfold run_loop in H. destruct (operands np vs) as [ps|] eqn:Hps; [|done]. apply operands_Some in Hps as [-> Hnp].
    destruct (run (S fuel) body st ls (take np vs)) as [st1 ls1 vs1|[|d] st1 ls1 vs1| | | | |] eqn:Hb; try done.
    + simpl in H. unfold leave in H. destruct (_ =? _)%nat eqn:Hl; [|done]. apply Nat.eqb_eq in Hl.
      injection H as _ _ <-. autorewrite with len. unfold len. rewrite length_drop. lia.
    + destruct (operands np vs1) as [ps|] eqn:Hps1; [|done]. apply operands_Some in Hps1 as [-> Hnp1].
      simpl in H. rewrite Har in H.
      destruct (run_loop _ _ _ _ _ _ _ _) as [st2 ls2 vs2| | | | | |] eqn:Hr; try done.
      apply (fun X => IH _ _ _ _ _ _ (or_introl X)) in Hr. destruct fuel; [done|]. simpl in H. injection H as _ _ <-.
      autorewrite with len in Hr. unfold len in *. rewrite length_take, length_drop in Hr. lia.
  - simpl in H. rewrite Har in H.
    destruct (run_loop _ _ _ _ _ _ _ _) as [st2 ls2 vs2| | | | | |] eqn:Hr; try done.
    apply (fun X => IH _ _ _ _ _ _ (or_introl X)) in Hr. destruct fuel; [done|]. simpl in H. by injection H as _ _ <-.
Qed.

Lemma act_inhabited lo frs k pc st ls os : 0 ≤ k → ∃ v, act lo frs k pc st ls os v.
Proof. intros Hk. exists (fv lo frs pc st (ls ++ replicate (Z.to_nat k) 0) os), (replicate (Z.to_nat k) 0). split; [|done]. autorewrite with len. lia. Qed.

Lemma ready_again E scr scr' labs h pc p1 st ls vs outer st' ls' vs' :
  ready E scr labs h pc st ls vs outer → len scr' = len scr → len ls' = len ls → 0 ≤ p1 →
  good st' ls' vs' → ready E scr' labs (i32 (len vs' + len outer)) p1 st' ls' vs' outer.
Proof.
  intros [H1 [F1 F2 F3] H3 H4 H5 H6 H7] Hs Hl Hp Hg. split; try done. split; rewrite ?Hl, ?Hs; done.
Qed.

(** A branch to a loop's label goes back to its start, where the loop can run again. *)
Lemma loop_back fuel E lo frs scr labs h pc p1 st ls vs outer np base e body st1 ls1 vs1 :
  body_sim fuel → frs ≠ [] → ready E scr labs h pc st ls vs outer → forallb tree_ok body = true →
  base = i32 (h - Z.of_nat np) → code_for E (mkLab pc base (Z.of_nat np) e :: labs) h body pc p1 →
  (np ≤ length vs)%nat → run fuel body st ls (take np vs) = Branch 0 st1 ls1 vs1 → (np ≤ length vs1)%nat →
  let vs2 := take np vs1 ++ drop np vs in
  goes1 (fv lo frs pc st (ls ++ scr) (vs ++ outer)) (act lo frs (len scr) pc st1 ls1 (vs2 ++ outer)) ∧
  len ls1 = len ls ∧ ∀ scr', len scr' = len scr → ready E scr' labs h pc st1 ls1 vs2 outer.
Proof.
  intros IH Hfrs Hrd Hok Hb Hcf Hnp Hrun Hnp1 vs2.
  pose proof (ready_block E scr labs h pc st ls vs outer np base pc pc (Z.of_nat np) e Hrd Hnp Hb ltac:(lia)
    (rd_pc _ _ _ _ _ _ _ _ _ Hrd)) as Hrd'.
  pose proof (IH E lo frs scr _ h body pc p1 st ls _ _ Hfrs Hrd' Hok Hcf) as Ho. rewrite take_drop_app, Hrun in Ho.
  destruct Ho as (Hgd & Hn & Hbr). specialize (Hbr _ eq_refl). simpl l_arity in Hbr. specialize (Hbr ltac:(unfold len; lia)).
  assert (len (drop np vs) = len vs - Z.of_nat np) as Hld by (unfold len; rewrite length_drop; lia).
  assert (Forall in_u64 (drop np vs)) as Hdrop
    by (apply Forall_drop, (gd_operands _ _ _ _ (rd_good _ _ _ _ _ _ _ _ _ Hrd))).
  assert (len vs2 = len vs) as Hl2 by (unfold vs2; autorewrite with len; rewrite Hld; unfold len; rewrite length_take; lia).
  split_and!; [|done|].
  - apply goes1_act_cap. intros Hc. autorewrite with len in Hc. unfold STACK_CAP in Hc. simpl l_base in Hbr.
    pose proof (len_nonneg lo). pose proof (len_nonneg ls). pose proof (len_nonneg scr). pose proof (len_nonneg outer).
    assert (base = len (drop np vs ++ outer)) as Hbase.
    { rewrite Hb, (rd_h _ _ _ _ _ _ _ _ _ Hrd), <-Z.add_opp_r, i32_add_l, i32_id; autorewrite with len; unfold len in *; lia. }
    rewrite Hbase, lowest_all, Nat2Z.id in Hbr. unfold vs2. by rewrite <-app_assoc.
  - intros scr' Hs'. rewrite (rd_h _ _ _ _ _ _ _ _ _ Hrd), <-Hl2. eapply ready_again; [exact Hrd|done|done|apply Hrd|].
    by apply good_app; [apply good_take|].
Qed.

(** A loop, with its label at its start. *)
Lemma loop_sim fuel E lo frs scr labs h pc p1 st ls vs outer ty np nr base e body :
  body_sim fuel → frs ≠ [] → ready E scr labs h pc st ls vs outer → forallb tree_ok body = true →
  arity P.(p_types) ty = Some (np, nr) →
  block_arity ty E.(e_func_types) = Ok (Z.of_nat np, Z.of_nat nr) → Z.of_nat np ≤ h → base = i32 (h - Z.of_nat np) →
  code_for E (mkLab pc base (Z.of_nat np) e :: labs) h body pc p1 →
  outcome_ok E lo frs (len scr) (len ls) labs outer (fv lo frs pc st (ls ++ scr) (vs ++ outer)) p1
    (run_loop (run fuel) (ILoop ty body) np nr body st ls vs).
Proof.
  intros IH Hfrs Hrd Hok Har Hba Hnph Hb Hcf. unfold run_loop.
  destruct (operands np vs) as [ps|] eqn:Hps; [|done]. apply operands_Some in Hps as [-> Hnp].
  pose proof (ready_block E scr labs h pc st ls vs outer np base pc pc (Z.of_nat np) e Hrd Hnp Hb ltac:(lia)
    (rd_pc _ _ _ _ _ _ _ _ _ Hrd)) as Hrd'.
  pose proof (IH E lo frs scr _ h body pc p1 st ls _ _ Hfrs Hrd' Hok Hcf) as Ho. rewrite take_drop_app in Ho.
  assert (len (drop np vs) = len vs - Z.of_nat np) as Hld by (unfold len; rewrite length_drop; lia).
  assert (Forall in_u64 (drop np vs)) as Hdrop
    by (apply Forall_drop, (gd_operands _ _ _ _ (rd_good _ _ _ _ _ _ _ _ _ Hrd))).
  destruct (run fuel body st ls (take np vs)) as [st1 ls1 vs1|[|d] st1 ls1 vs1| | | | |] eqn:Hrun; try done.
  - simpl. unfold leave. destruct (_ =? _)%nat; [|done]. destruct Ho as (Hg & Hgd & Hn).
    split_and!; [by rewrite <-app_assoc|by apply good_app|done].
  - destruct (operands np vs1) as [ps|] eqn:Hps1; [|done]. apply operands_Some in Hps1 as [-> Hnp1].
    destruct (loop_back fuel E lo frs scr labs h pc p1 st ls vs outer np base e body st1 ls1 vs1) as (Hback & Hn & Hrd2); try done.
    set (vs2 := take np vs1 ++ drop np vs) in *.
    apply (outcome_from E lo frs (len scr) (len ls) labs outer _ (act lo frs (len scr) pc st1 ls1 (vs2 ++ outer)) p1);
      [by apply goes1_goes| |apply act_inhabited, len_nonneg].
    intros v (scr' & Hs' & ->). rewrite <-Hs', <-Hn.
    apply (IH E lo frs scr' labs h [ILoop ty body] pc p1 st1 ls1 vs2 outer); [done|by apply Hrd2|simpl; by rewrite Hok|].
    eapply cf_loop; [exact Hba|exact Hnph|exact Hb|exact Hcf|apply cf_nil].
  - simpl. destruct (block_out_ok E lo frs (len scr) (len ls) labs (drop np vs) outer
      (mkLab p1 base (Z.of_nat nr) e) pc st (ls ++ scr) (vs ++ outer) p1 nr (Branch (S d) st1 ls1 vs1)) as [H1 _];
      try done.
    + rewrite Hld. autorewrite with len. lia.
    + simpl. rewrite Hb, (rd_h _ _ _ _ _ _ _ _ _ Hrd), <-Z.add_opp_r, i32_add_l, Hld. f_equal. lia.
    + apply Hrd.
Qed.

End correct.
