(* ===== verification/LowerCalls.v ===== *)
(** * Calls of a lowered program

    Functions of the module, direct or through the table, and of the host, given how the
    code of a function runs from its start: a call reaches the op after it with the
    results the reference semantics gives where the arguments were. *)

From S2P Require Import Prelude Cuop Wasm Lower EnvTable Module ModuleSteps Engine EngineNum.
From S2P Require Import Verify VerifyFacts EngineInv LowerInv Structured WasmProgram Backpatch LowerTree LowerBack.
From S2P Require Import ModuleTables EngineView ViewCalls ViewHost LowerNum LowerMem LowerOps LowerBulk LowerBasic LowerSim LowerOutcome.
From stdpp Require Import base list strings.

Local Open Scope Z_scope.

Lemma len_rev {A} (l : list A) : len (rev l) = len l.
Proof. unfold len. by rewrite length_rev. Qed.

Lemma index_fmap {A B} (f : A → B) l i : index (f <$> l) i = f <$> index l i.
Proof. unfold index. destruct (0 <=? i); [|done]. apply list_lookup_fmap. Qed.

Section calls.
Context (M : HostModule) (P : Prog) (HL : linked M P).
Context {WD : World} (T : Trace → Status → Machine → Prop) (HT : ends T).

Abbreviation run := (run P env_of).
Abbreviation call := (call P env_of).
Abbreviation run_basic := (run_basic P).
Abbreviation goes := (goes M T).
Abbreviation goes1 := (goes1 M T).
Abbreviation does := (does T).
Abbreviation ops_at := (ops_at M.(hm_code)).
Abbreviation func_sim := (func_sim M P T).

(** ** Returns *)

Lemma exec_return_op op a b : op = OP_RETURN ∨ op = OP_END_FUNC → exec M (mkCuOp op a b) = exec_return.
Proof. by intros [-> | ->]. Qed.

(** A return leaves the results where the arguments were; that of the last frame ends
    the run. *)
Lemma return_goes lo frs fr st rs v Q :
  at_return M lo (frs ++ [fr]) st rs v → fr.(sp_base) = len lo → fr.(fr_n_results) = len rs →
  (frs = [] → ∀ m p, sees m (mkView p fr.(fr_fp) [] (lo ++ rev rs) st) → T st.(s_trace) ST_OK m) →
  (frs ≠ [] → goes (mkView fr.(ret_pc) fr.(fr_fp) frs (lo ++ rev rs) st) Q) → goes v Q.
Proof using HL HT.
  intros (op & a & b & p & ls & os & Hop & Hp & Hops & ->) Hbase Hn Hstop Hgo. pose proof (lk_code _ _ HL) as Hcode.
  apply ops_at_one in Hops. pose proof (lookup_lt_Some _ _ _ Hops) as Hlt.
  eapply (goes_op M T HT _ _ (fun v' => frs ≠ [] ∧ v' = mkView fr.(ret_pc) fr.(fr_fp) frs (lo ++ rev rs) st)).
  - apply index_Some. split; [exact Hp|exact Hops].
  - unfold len in Hcode. simpl. lia.
  - rewrite exec_return_op by done. intros m Hm.
    eapply (ewp_return T m frs fr lo (ls ++ rev os) (rev rs)); [|done|by rewrite len_rev|].
    + unfold fv, at_pc in Hm. simpl in Hm. rewrite rev_app_distr in Hm. by rewrite <-app_assoc.
    + intros m' Hm'. destruct frs as [|fr0 frs']; [by eapply Hstop|].
      destruct (len (fr0 :: frs') =? 0) eqn:He; [autorewrite with len in He; pose proof (len_nonneg frs'); lia|].
      exists (mkView fr.(ret_pc) fr.(fr_fp) (fr0 :: frs') (lo ++ rev rs) st). split; [destruct Hm'; by split|done].
  - intros v' [Hne ->]. by apply Hgo.
Qed.

(** A tail call starts the function in the frame of its caller. *)
Lemma tail_goes lo frs fr f meta st ps v Q :
  at_tail M lo (frs ++ [fr]) f st ps v → index M.(hm_funcs) f = Some meta → len ps = meta.(fm_n_params) →
  fr.(fr_n_results) = meta.(fm_n_results) →
  goes (mkView meta.(fm_code_off) (len lo) (frs ++ [fr])
    (lo ++ rev ps ++ replicate (Z.to_nat meta.(fm_n_locals)) 0) st) Q → goes1 v Q.
Proof using HL HT.
  intros (p & ls & os & Hp & Hops & ->) Hf Hlen Hn Hgo. pose proof (lk_code _ _ HL) as Hcode.
  apply ops_at_one in Hops. pose proof (lookup_lt_Some _ _ _ Hops) as Hlt.
  eapply (goes1_op M T HT _ _ (fun v' => goes v' Q)); [apply index_Some; split; [exact Hp|exact Hops]|unfold len in Hcode; simpl; lia| |].
  - change (exec M (mkCuOp OP_RETURN_CALL 0 f)) with (exec_return_call M f). unfold fv, at_pc. simpl.
    rewrite rev_app_distr, (app_assoc ls).
    eapply (does_return_call M T HT f meta frs fr lo); [done|by rewrite len_rev|done|exact Hgo].
  - done.
Qed.

(** ** Calls *)

(** What a call at [v0] leaves at [pc], over [lo]; [d] operands when it returns. *)
Definition call_ok (v0 : View) (lo : list Z) (fp : Z) (frs : list Frame) (pc d : Z) (c : call_out) : Prop :=
  match c with
  | Returns st' vs' =>
      goes v0 (fun v => v = mkView pc fp frs (lo ++ rev vs') st') ∧ store_ok M st' ∧ Forall in_u64 vs' ∧ len vs' = d
  | CTrapped s tr => (∀ m, T tr s m) → goes v0 (fun _ => False)
  | CStuck | CTimeout => True
  end.

Definition over (rest : list Z) (c : call_out) : call_out :=
  match c with Returns st vs => Returns st (vs ++ rest) | c => c end.

Lemma func_out_over cl n rest o : func_out P cl n rest o = over rest (func_out P cl n [] o).
Proof.
  destruct o as [| [|d]| | | | |]; simpl; repeat case_match; simplify_eq/=; by rewrite ?app_nil_r.
Qed.

(** A function of the module does not look below its arguments. *)
Lemma call_over fuel f fd st vs ps :
  index P.(p_funcs) f = Some (Code fd) → operands (Z.to_nat fd.(fd_params)) vs = Some ps →
  call fuel f st vs = over (drop (Z.to_nat fd.(fd_params)) vs) (call fuel f st ps).
Proof.
  intros Hf Hps. destruct fuel as [|fuel]; [done|]. simpl. rewrite Hf. unfold run_func. rewrite Hps.
  apply operands_Some in Hps as [-> Hle]. unfold operands. rewrite length_take, take_take, !Nat.min_id, Nat.min_l by lia.
  rewrite Nat.leb_refl. rewrite (drop_ge (take _ _)) by (rewrite length_take; lia). apply func_out_over.
Qed.

(** Where a function starts that is called on the top [n] of [vs]. *)
Definition start_of (meta : FuncMetaC) (n : nat) (lo : list Z) (fp : Z) (frs : list Frame) (pc : Z)
    (st : Store) (vs : list Z) : View :=
  let lo' := lo ++ rev (drop n vs) in
  mkView meta.(fm_code_off) (len lo') (frs ++ [frame_of meta pc fp (len lo')])
    (lo' ++ rev (take n vs) ++ replicate (Z.to_nat meta.(fm_n_locals)) 0) st.

Lemma does_start meta n lo fp frs pc st vs Q :
  (n ≤ length vs)%nat → meta.(fm_n_params) = Z.of_nat n → goes (start_of meta n lo fp frs pc st vs) Q →
  does (enter meta) (mkView pc fp frs (lo ++ rev vs) st) (fun _ v => goes v Q).
Proof using HT.
  intros Hn Hp HQ. rewrite <-(take_drop n vs) at 1. rewrite rev_app_distr, app_assoc.
  eapply does_enter; [done| |exact HQ]. rewrite len_rev. unfold len. rewrite length_take. lia.
Qed.

Lemma call_code_sim fuel f fd st vs lo fp frs pc v0 :
  func_sim fuel → index P.(p_funcs) f = Some (Code fd) → frs ≠ [] → store_ok M st → Forall in_u64 vs →
  (∀ meta Q, index M.(hm_funcs) f = Some meta →
    does (enter meta) (mkView pc fp frs (lo ++ rev vs) st) (fun _ v => goes v Q) → goes v0 Q) →
  call_ok v0 lo fp frs pc (len vs - fd.(fd_params) + fd.(fd_results)) (call fuel f st vs).
Proof using HL HT.
  intros IH Hf Hfrs Hst Hvs Hin. destruct (lk_funcs _ _ HL f fd Hf) as (meta & E & p & Hmeta & Hc).
  pose proof (cp_params _ _ _ _ _ _ Hc) as (P1 & P2 & P3). pose proof (cp_results _ _ _ _ _ _ Hc) as (R1 & R2 & R3).
  destruct (operands (Z.to_nat fd.(fd_params)) vs) as [ps|] eqn:Hps.
  2: { destruct fuel; [done|]. simpl. rewrite Hf. unfold run_func. by rewrite Hps. }
  rewrite (call_over _ _ _ _ _ _ Hf Hps). apply operands_Some in Hps as [-> Hle].
  set (ps := take _ vs) in *. set (rest := drop _ vs).
  assert (len ps = fd.(fd_params)) as Hlps by (unfold ps, len; rewrite length_take; lia).
  assert (vs = ps ++ rest) as Hsplit by (symmetry; apply take_drop).
  set (fr := frame_of meta pc fp (len (lo ++ rev rest))).
  pose proof (IH f fd meta (lo ++ rev rest) frs fr st ps Hf Hmeta R1 Hst ltac:(by apply Forall_take) Hlps) as Ho.
  cbv zeta in Ho. assert (∀ Q, goes (mkView meta.(fm_code_off) (len (lo ++ rev rest)) (frs ++ [fr])
    ((lo ++ rev rest) ++ rev ps ++ replicate (Z.to_nat meta.(fm_n_locals)) 0) st) Q → goes v0 Q) as Hgo.
  { intros Q HQ. apply (Hin meta Q Hmeta). apply (does_start meta (Z.to_nat fd.(fd_params))); [lia|lia|exact HQ]. }
  destruct (call fuel f st ps) as [st' rs|s tr| |]; [|intros Ht; by apply Hgo, Ho|done..].
  destruct Ho as (Hst' & Hlr & Hrs & Hret). split_and!; [|done| |].
  - apply Hgo. eapply goes_bind; [exact Hret|]. intros v Hv.
    eapply return_goes; [exact Hv|done|simpl; lia|by intros ->|]. intros _. apply goes_here. simpl.
    by rewrite rev_app_distr, app_assoc.
  - apply Forall_app. split; [done|by apply Forall_drop].
  - rewrite len_app, Hlr, Hsplit, len_app, Hlps. lia.
Qed.

(** The op of a call of the host's function [id]. *)
Definition host_flags (np nr : Z) : Z := Z.lor np (u16 (Z.shiftl nr 8)).

Lemma host_flags_fields np nr :
  0 ≤ np ≤ 8 → 0 ≤ nr ≤ 8 →
  Z.land (host_flags np nr) 255 = np ∧ Z.land (Z.shiftr (host_flags np nr) 8) 255 = nr.
Proof.
  intros Hp Hr. assert (host_flags np nr = np + 256 * nr) as ->.
  { unfold host_flags. rewrite Z.shiftl_mul_pow2, u16_id, <-Z.shiftl_mul_pow2, lor_shiftl by lia. lia. }
  change 255 with (Z.ones 8). rewrite !Z.land_ones, Z.shiftr_div_pow2 by lia.
  split; Z.to_euclidean_division_equations; lia.
Qed.

Lemma call_host_sim id np nr st vs lo fp frs pc :
  0 ≤ np ≤ 8 → 0 ≤ nr ≤ 8 → 0 ≤ pc → ops_at pc [mkCuOp OP_CALL_HOST (host_flags np nr) id] → store_ok M st → Forall in_u64 vs →
  call_ok (mkView pc fp frs (lo ++ rev vs) st) lo fp frs (pc + 1) (len vs - np + nr) (call_host P env_of id np nr st vs).
Proof using HL HT.
  intros Hnp Hnr Hpc Hops Hst Hvs. unfold call_host. destruct (operands _ vs) as [ps|] eqn:Hps; [|done].
  apply operands_Some in Hps as [-> Hle]. set (ps := take _ vs). set (rest := drop _ vs).
  assert (len ps = np) as Hlps by (unfold ps, len; rewrite length_take; lia).
  assert (vs = ps ++ rest) as Hsplit by (symmetry; apply take_drop).
  destruct (host_flags_fields np nr Hnp Hnr) as [F1 F2]. apply ops_at_one in Hops.
  pose proof (lookup_lt_Some _ _ _ Hops) as Hlt. pose proof (lk_code _ _ HL) as Hcode.
  pose proof (goes_call_host M T HT pc fp frs (lo ++ rev rest) (rev ps) st (host_flags np nr) id np nr) as Hgo.
  unfold asked in Hgo. rewrite length_rev in Hgo. cbv zeta in *.
  set (box := mkMailbox id np nr _ _) in *. destruct (env_of _ box _) as [[ok box'] mem'].
  destruct (s_msize st =? p_msize P) eqn:Hsz; simpl; [|done]. apply Z.eqb_eq in Hsz.
  assert (∀ Q, (if negb ok then ∀ m, T ((box, st.(s_memory)) :: st.(s_trace)) ST_UNSUPPORTED_OP m
    else reply_ok st.(s_memory) nr box' mem' = true ∧ goes (mkView (pc + 1) fp frs
      ((lo ++ rev rest) ++ take (Z.to_nat nr) box'.(mb_results))
      (mkStore st.(s_globals) mem' st.(s_msize) st.(s_live) box' ((box, st.(s_memory)) :: st.(s_trace)))) Q) →
    goes (mkView pc fp frs (lo ++ rev vs) st) Q) as Hin.
  { intros Q HQ. rewrite Hsplit, rev_app_distr, app_assoc. apply Hgo; try done.
    - apply index_Some. split; [done|exact Hops].
    - unfold len in Hcode. lia.
    - lia.
    - lia.
    - by rewrite len_rev.
    - by rewrite Hsz, (lk_msize _ _ HL). }
  destruct ok; simpl in *; [|intros Ht; by apply Hin].
  destruct (reply_ok _ _ _ _) eqn:Hr; [|done].
  assert (take (Z.to_nat nr) box'.(mb_results) = rev (take (Z.to_nat nr) box'.(mb_results)) ∧
    len (take (Z.to_nat nr) box'.(mb_results)) = nr ∧ Forall in_u64 box'.(mb_results) ∧
    len mem' = len st.(s_memory) ∧ Forall is_byte mem') as (Hrev & Hlr & Hu & Hlm & Hbm).
  { unfold reply_ok in Hr. rewrite !andb_true_iff, !forallb_forall in Hr.
    destruct Hr as [[[[[_ H2] H3] H4] H5] H6].
    destruct (mb_results box') as [|x [|y l]]; [done| |autorewrite with len in H3; pose proof (len_nonneg l); lia].
    split_and!.
    - by destruct (Z.to_nat nr) as [|[|]].
    - unfold len. rewrite length_take. simpl. lia.
    - constructor; [|done]. specialize (H4 x (or_introl eq_refl)). unfold in_u64. lia.
    - lia.
    - apply Forall_forall. intros b Hb%list_elem_of_In. specialize (H6 b Hb). unfold is_byte. lia. }
  split_and!.
  - apply Hin. split; [done|]. apply goes_here. by rewrite rev_app_distr, <-Hrev, <-app_assoc.
  - destruct Hst. split; simpl; try done; lia.
  - apply Forall_app. split; [by apply Forall_take|by apply Forall_drop].
  - rewrite len_app, Hlr, Hsplit, len_app, Hlps. lia.
Qed.

(** ** The table *)

Lemma table_func_code i ty f :
  table_func P i ty = inl (Some f) → ∃ fd t ft, index P.(p_table) i = Some (Some f) ∧
    index P.(p_funcs) f = Some (Code fd) ∧ index P.(p_typeidx) f = Some t ∧
    index P.(p_types) ty = Some ft ∧ index P.(p_types) t = Some ft.
Proof.
  unfold table_func. destruct (index (p_table P) i) as [[g|]|] eqn:Hg; try done.
  destruct (index (p_funcs P) g) as [[|fd]|] eqn:Hfd; try done.
  destruct (index (p_typeidx P) g) as [t|] eqn:Ht; [|done].
  destruct (index (p_types P) ty) as [ft|] eqn:Hft; [|done].
  destruct (index (p_types P) t) as [ft'|] eqn:Hft'; [|done].
  case_bool_decide; [|done]. intros [= <-]. subst ft'. by exists fd, t, ft.
Qed.

Lemma table_func_trap i ty s :
  table_func P i ty = inr s → s = ST_TRAP_INDIRECT_CALL ∧
    (index P.(p_table) i = None ∨ index P.(p_table) i = Some None ∨
     ∃ f fd t ft ft', index P.(p_table) i = Some (Some f) ∧ index P.(p_funcs) f = Some (Code fd) ∧
       index P.(p_typeidx) f = Some t ∧ index P.(p_types) ty = Some ft ∧ index P.(p_types) t = Some ft' ∧ ft' ≠ ft).
Proof.
  unfold table_func. destruct (index (p_table P) i) as [[g|]|] eqn:Hg; try (intros [= <-]; auto).
  destruct (index (p_funcs P) g) as [[|fd]|] eqn:Hfd; try done.
  destruct (index (p_typeidx P) g) as [t|] eqn:Ht; [|done].
  destruct (index (p_types P) ty) as [ft|] eqn:Hft; [|done].
  destruct (index (p_types P) t) as [ft'|] eqn:Hft'; [|done].
  case_bool_decide; [done|]. intros [= <-]. split; [done|]. right. right. by exists g, fd, t, ft, ft'.
Qed.

(** Entry [i] of the engine's table, through a type of the program. *)
Lemma index_type_fp t ft :
  index P.(p_types) t = Some ft → ∃ x, index M.(hm_type_fp) t = Some x ∧ type_fingerprint ft.1 ft.2 = Ok x.
Proof using HL.
  intros [H0 Ht]%index_Some. destruct (fingerprints_lookup _ _ _ _ (lk_fps _ _ HL) Ht) as (x & Hx & Hfp).
  exists x. split; [by apply index_Some|done].
Qed.

Lemma index_nonempty {A} (l : list A) i x : index l i = Some x → negb (len l =? 0) = true.
Proof. intros H%index_lt. lia. Qed.

(** The type check of the engine is that of the reference semantics. *)
Lemma does_type_check f fd t ft ft' ty v (Q : unit → View → Prop) (k : EM unit) :
  index P.(p_funcs) f = Some (Code fd) → index P.(p_typeidx) f = Some t →
  index P.(p_types) ty = Some ft → index P.(p_types) t = Some ft' →
  (if bool_decide (ft' = ft) then does k v Q else ∀ m, T (past v) ST_TRAP_INDIRECT_CALL m) →
  does ((if negb (len M.(hm_func_typeidx) =? 0) && negb (len M.(hm_type_fp) =? 0) && (ty <? len M.(hm_type_fp)) then
     have ← rd "func_typeidx" M.(hm_func_typeidx) f;
     trap_if (len M.(hm_type_fp) <=? have) ST_TRAP_INDIRECT_CALL;;
     x ← rd "type_fp" M.(hm_type_fp) have;
     y ← rd "type_fp" M.(hm_type_fp) ty;
     trap_if (negb (x =? y)) ST_TRAP_INDIRECT_CALL
   else trap ST_TRAP_INDIRECT_CALL);; k) v Q.
Proof using HL.
  intros Hf Ht Hty Hty' HQ. destruct (index_type_fp _ _ Hty) as (y & Hy & Fy).
  destruct (index_type_fp _ _ Hty') as (x & Hx & Fx). pose proof (index_lt _ _ _ Hx). pose proof (index_lt _ _ _ Hy).
  rewrite (lk_typeidx _ _ HL), (index_nonempty _ _ _ Ht), (index_nonempty _ _ _ Hx).
  replace (ty <? len M.(hm_type_fp)) with true by lia. simpl.
  destruct (type_fingerprint_inj _ _ _ _ _ _ Fx Fy) as [Hiff _].
  assert (x = y ↔ ft' = ft) as Hxy.
  { rewrite Hiff. destruct ft, ft'; simpl. split; [by intros [-> ->]|by intros [= -> ->]]. }
  apply (does_bind _ _ _ _ (fun _ v' => v' = v ∧ ft' = ft)).
  - eapply does_rd; [exact Ht|]. apply does_trap_if; [lia|intros _]. eapply does_rd; [exact Hx|].
    eapply does_rd; [exact Hy|]. unfold trap_if. destruct (x =? y) eqn:He; simpl.
    + apply does_ret. split; [done|]. apply Hxy. lia.
    + apply does_trap. rewrite bool_decide_eq_false_2 in HQ; [done|]. rewrite <-Hxy. lia.
  - intros [] v' [-> ->]. by rewrite bool_decide_eq_true_2 in HQ.
Qed.

Lemma table_entry_index i o :
  index P.(p_table) i = Some o → ∃ fi, index M.(hm_table) i = Some fi ∧ o = slot fi.
Proof using HL.
  rewrite (lk_table _ _ HL), index_fmap. destruct (index _ _) as [fi|]; [|done]. intros [= <-]. by exists fi.
Qed.

(** [OP_CALL_INDIRECT]: the callee starts, or the engine traps as the semantics does. *)
Lemma does_call_indirect lo frs ty i pc st ls os (Q : unit → View → Prop) a :
  match table_func P (w32 i) ty with
  | inl (Some f) => ∀ meta, index M.(hm_funcs) f = Some meta → does (enter meta) (fv lo frs pc st ls os) Q
  | inl None => False
  | inr s => ∀ m, T st.(s_trace) s m
  end → does (exec M (mkCuOp OP_CALL_INDIRECT a ty)) (fv lo frs pc st ls (i :: os)) Q.
Proof using HL.
  intros HQ. change (exec M (mkCuOp OP_CALL_INDIRECT a ty)) with (exec_call_indirect M ty).
  unfold exec_call_indirect. apply f_pop. change (u32 i) with (w32 i). cbv zeta.
  pose proof (u32_nonneg i) as Hi0. assert (len P.(p_table) = len M.(hm_table)) as Hlen
    by (rewrite (lk_table _ _ HL); unfold len; by rewrite length_fmap).
  assert (∀ f, index P.(p_table) (w32 i) = Some (Some f) → index M.(hm_table) (w32 i) = Some f ∧ f ≠ TABLE_NULL) as Hslot.
  { intros f Hf. destruct (table_entry_index _ _ Hf) as (fi & Hfi & Hs). unfold slot in Hs.
    destruct (fi =? TABLE_NULL) eqn:He; [done|]. injection Hs as ->. split; [done|lia]. }
  assert (∀ f fd, index P.(p_table) (w32 i) = Some (Some f) → index P.(p_funcs) f = Some (Code fd) → ∀ k,
    (∀ meta, index M.(hm_funcs) f = Some meta → does (k f) (fv lo frs pc st ls os) Q) →
    does (trap_if (len M.(hm_table) <=? w32 i) ST_TRAP_INDIRECT_CALL;; fi ← rd "table" M.(hm_table) (w32 i);
          trap_if ((fi =? TABLE_NULL) || (len M.(hm_funcs) <=? fi)) ST_TRAP_INDIRECT_CALL;; k fi)
      (fv lo frs pc st ls os) Q) as Hfetch.
  { intros f fd Hf Hfd k Hk. destruct (Hslot f Hf) as [Hfi Hne]. pose proof (index_lt _ _ _ Hfi).
    destruct (lk_funcs _ _ HL f fd Hfd) as (meta & E & p & Hmeta & _). pose proof (index_lt _ _ _ Hmeta).
    apply f_no_trap; [lia|]. eapply does_rd; [exact Hfi|]. apply f_no_trap; [|by eapply Hk].
    rewrite (proj2 (Z.eqb_neq _ _) Hne). simpl. lia. }
  destruct (table_func P (w32 i) ty) as [[f|]|s] eqn:Htf; [|done|].
  - destruct (table_func_code _ _ _ Htf) as (fd & t & ft & Htab & Hfd & Ht & Hty & Hty').
    eapply (Hfetch f fd Htab Hfd). intros meta Hmeta. eapply does_type_check; [exact Hfd|exact Ht|exact Hty|exact Hty'|].
    rewrite bool_decide_eq_true_2 by done. eapply does_rd; [exact Hmeta|by apply HQ].
  - destruct (table_func_trap _ _ _ Htf) as (-> & [Hn|[Hn|(f & fd & t & ft & ft' & Htab & Hfd & Ht & Hty & Hty' & Hne)]]).
    + apply does_trap_if; [by intros _ m _|]. intros Hb. destruct (index_is_Some P.(p_table) (w32 i)) as [x Hx]; [lia|].
      congruence.
    + destruct (table_entry_index _ _ Hn) as (fi & Hfi & Hs). pose proof (index_lt _ _ _ Hfi).
      apply f_no_trap; [lia|]. eapply does_rd; [exact Hfi|]. unfold slot in Hs.
      destruct (fi =? TABLE_NULL) eqn:He; [|done]. apply does_trap_if; [by intros _ m _|discriminate].
    + eapply (Hfetch f fd Htab Hfd). intros meta Hmeta.
      eapply does_type_check; [exact Hfd|exact Ht|exact Hty|exact Hty'|]. by rewrite bool_decide_eq_false_2.
Qed.

(** ** Functions *)

Lemma in_u64_zeros n : Forall in_u64 (replicate n 0).
Proof. apply Forall_replicate. by unfold in_u64. Qed.

Lemma compiled_frame fd meta E p ps :
  compiled M P fd meta E p → len ps = fd.(fd_params) →
  let ls := rev ps ++ replicate (Z.to_nat fd.(fd_locals)) 0 in
  let scr := replicate (Z.to_nat (meta.(fm_n_locals) - fd.(fd_locals))) 0 in
  rev ps ++ replicate (Z.to_nat meta.(fm_n_locals)) 0 = ls ++ scr ∧ frame_ok E (len ls) scr.
Proof.
  intros [(P1 & P2 & P3) (R1 & R2 & R3) (N1 & N2) L _ _ _ _ _] Hps. cbv zeta.
  assert (len (rev ps) = fd.(fd_params)) as Hr by (rewrite <-Hps; unfold len; by rewrite length_rev).
  assert (fd.(fd_locals) ≤ E.(e_n_locals)) as Hle by (destruct (e_scratch E); lia). split.
  - rewrite <-app_assoc. f_equal. rewrite <-replicate_add. f_equal. lia.
  - split; autorewrite with len; rewrite ?Hr; [lia|lia|]. intros sc Hsc. rewrite Hsc in L. lia.
Qed.
End calls.
