(* ===== verification/LowerCorrect.v ===== *)
(** * The lowered code runs as the WebAssembly program does

    By induction on the fuel of the reference semantics: from the view of an activation
    at the start of a body's code, the machine reaches the body's end, the label it
    branches to, or the op it returns or calls by, with the locals, the operands and the
    store the reference semantics gives. *)

From S2P Require Import Prelude Cuop Wasm Lower EnvTable Module ModuleSteps Engine EngineNum.
From S2P Require Import Verify VerifyFacts EngineInv LowerInv Structured Backpatch LowerTree LowerBack.
From S2P Require Import ModuleTables EngineView ViewCalls ViewHost LowerNum LowerMem LowerOps LowerBulk LowerBasic LowerSim LowerOutcome LowerCalls.
From stdpp Require Import base list strings.

Local Open Scope Z_scope.

Section correct.
Context (M : HostModule) (P : Prog) (HL : linked M P).
Context {WD : World} (T : Trace → Status → Machine → Prop) (HT : ends T).

Abbreviation run := (run P env_of).
Abbreviation call := (call P env_of).
Abbreviation run_basic := (run_basic P).
Abbreviation goes := (goes M T).
Abbreviation goes1 := (goes1 M T).
Abbreviation ops_at := (ops_at M.(hm_code)).
Abbreviation good := (good M).
Abbreviation code_for E := (code_for E M.(hm_code) M.(hm_consts)).
Abbreviation outcome_ok := (outcome_ok M P T).
Abbreviation ready := (ready M P).
Abbreviation body_sim := (body_sim M P T).
Abbreviation func_sim := (func_sim M P T).
Abbreviation call_ok := (call_ok M T).
Abbreviation act := LowerOutcome.act.
Abbreviation joins := (joins M T).

(** ** Operators *)

Lemma emits_run_basic E K o ops eff cl st ls vs :
  emits E K o ops eff → is_call o = false →
  run_basic cl o st ls vs =
    match basic_step P.(p_datas) o st ls vs with
    | BOk st ls vs => Next st ls vs
    | BTrap s => Trapped s st.(s_trace)
    | BStuck => Stuck
    end.
Proof.
  intros He Hc. destruct He; try done; by destruct o.
Qed.

Lemma emit_sim fuel E lo frs scr labs h pc st ls vs outer o ops eff :
  ready E scr labs h pc st ls vs outer → emits E M.(hm_consts) o ops eff → is_call o = false →
  offset_ok o = true → ops_at pc ops →
  outcome_ok E lo frs (len scr) (len ls) labs outer (fv lo frs pc st (ls ++ scr) (vs ++ outer)) (pc + len ops)
    (run_basic (call fuel) o st ls vs) ∧
  ∀ st' ls' vs', run_basic (call fuel) o st ls vs = Next st' ls' vs' →
    height_after h eff = i32 (len vs' + len outer).
Proof using HL HT.
  intros [Hev Hf Hpc Hh Hlabs Hg Hout] He Hcall Hoff Hops. rewrite (emits_run_basic _ _ _ _ _ _ _ _ _ He Hcall).
  destruct (basic_step P.(p_datas) o st ls vs) as [st' ls' vs'|s|] eqn:Hstep; [| |done].
  all: pose proof (basic_step_below P.(p_datas) o st ls vs outer ltac:(by rewrite Hstep)) as Hbelow; rewrite Hstep in Hbelow.
  all: pose proof (emits_simulated M T HT P.(p_datas) (lk_datas _ _ HL) E (lk_code _ _ HL) lo frs o ops eff pc st ls scr (vs ++ outer) He Hcall Hoff
    Hpc Hops (good_app _ _ _ _ _ Hg Hout)) as Hsim; rewrite Hbelow in Hsim.
  - destruct Hsim as (Hr & [G1 G2 G3] & Hl & Hlen). apply Forall_app in G3 as [G3 _]. split.
    + split_and!; [|by split|done]. apply Hr, goes_here. by exists scr.
    + intros ??? [= _ _ <-]. autorewrite with len in Hlen. rewrite Hh.
      destruct eff as [[p q]|]; simpl in *.
      * rewrite <-Z.add_opp_r, <-Z.add_assoc, i32_add_l. f_equal. lia.
      * f_equal. lia.
  - split; [|done]. intros Ht. by apply Hsim.
Qed.

(** *** Calls *)

Definition after (c : call_out) (ls : list Z) : out :=
  match c with
  | Returns st vs => Next st ls vs
  | CTrapped s tr => Trapped s tr
  | CStuck => Stuck
  | CTimeout => Timeout
  end.

Lemma after_sim E lo frs scr labs st ls vs outer v0 pc d c :
  good st ls vs → call_ok v0 (lo ++ (ls ++ scr) ++ rev outer) (len lo) frs pc d c →
  outcome_ok E lo frs (len scr) (len ls) labs outer v0 pc (after c ls) ∧
  ∀ st' ls' vs', after c ls = Next st' ls' vs' → len vs' = d.
Proof.
  intros Hg Hc. destruct c as [st' vs'|s tr| |]; simpl in *; [|done..].
  destruct Hc as (Hgo & Hst' & Hvs' & Hd). split; [|by intros ??? [= _ _ <-]].
  split_and!; [|by split; [..|apply Hg|]|done]. eapply goes_mono; [exact Hgo|]. intros v ->.
  exists scr. split; [done|]. unfold fv. by rewrite rev_app_distr, <-!app_assoc.
Qed.

Lemma fv_call lo frs pc st ls scr vs outer :
  fv lo frs pc st (ls ++ scr) (vs ++ outer) =
    mkView pc (len lo) frs ((lo ++ (ls ++ scr) ++ rev outer) ++ rev vs) st.
Proof. unfold fv. by rewrite rev_app_distr, <-!app_assoc. Qed.

(** A call as an instruction: the operands it leaves. *)
Lemma call_height (h nv no np nr : Z) : h = i32 (nv + no) → i32 (h - np + nr) = i32 (nv - np + nr + no).
Proof. intros ->. rewrite <-Z.add_opp_r, <-Z.add_assoc, i32_add_l. f_equal. lia. Qed.

(** Control enters the function a call names. *)
Lemma call_in lo frs pc st ls os f : 0 ≤ pc → ops_at pc [mkCuOp OP_CALL 0 f] → ∀ meta Q, index M.(hm_funcs) f = Some meta →
  does T (enter meta) (fv lo frs (pc + 1) st ls os) (fun _ v => goes v Q) → goes1 (fv lo frs pc st ls os) Q.
Proof using HL HT.
  intros Hpc Hops meta Q Hmeta HQ. pose proof (lk_code _ _ HL) as Hcode. apply ops_at_one in Hops.
  pose proof (lookup_lt_Some _ _ _ Hops) as Hlt.
  eapply (goes1_op M T HT _ _ (fun v => goes v Q)); [by apply index_Some|unfold len in Hcode; simpl; lia| |done].
  change (exec M (mkCuOp OP_CALL 0 f)) with (exec_call M f). unfold exec_call.
  apply does_trap_if; [pose proof (index_lt _ _ _ Hmeta); lia|intros _]. eapply does_rd; [exact Hmeta|exact HQ].
Qed.

Lemma indirect_in lo frs pc st ls i os ty f : 0 ≤ pc → ops_at pc [mkCuOp OP_CALL_INDIRECT 0 ty] →
  table_func P (w32 i) ty = inl (Some f) → ∀ meta Q, index M.(hm_funcs) f = Some meta →
  does T (enter meta) (fv lo frs (pc + 1) st ls os) (fun _ v => goes v Q) → goes1 (fv lo frs pc st ls (i :: os)) Q.
Proof using HL HT.
  intros Hpc Hops Htf meta Q Hmeta HQ. pose proof (lk_code _ _ HL) as Hcode. apply ops_at_one in Hops.
  pose proof (lookup_lt_Some _ _ _ Hops) as Hlt.
  eapply (goes1_op M T HT _ _ (fun v => goes v Q)); [by apply index_Some|unfold len in Hcode; simpl; lia| |done].
  apply (does_call_indirect M P HL T). rewrite Htf. intros meta' Hmeta'. rewrite Hmeta in Hmeta'. by injection Hmeta' as <-.
Qed.

(** A call of a function of the module. *)
Lemma call_sim fuel E lo frs scr labs h pc st ls vs outer f np nr :
  func_sim fuel → frs ≠ [] → ready E scr labs h pc st ls vs outer → E.(e_n_imports) ≤ f →
  func_arity f E.(e_func_types) E.(e_func_typeidx) = Ok (np, nr) → ops_at pc [mkCuOp OP_CALL 0 f] →
  outcome_ok E lo frs (len scr) (len ls) labs outer (fv lo frs pc st (ls ++ scr) (vs ++ outer)) (pc + 1)
    (run_basic (call fuel) (Call f) st ls vs) ∧
  ∀ st' ls' vs', run_basic (call fuel) (Call f) st ls vs = Next st' ls' vs' →
    i32 (h - np + nr) = i32 (len vs' + len outer).
Proof using HL HT.
  intros IH Hfrs [Hev Hf Hpc Hh Hlabs Hg Hout] Hni Har Hops.
  change (run_basic (call fuel) (Call f) st ls vs) with (after (call fuel f st vs) ls).
  destruct (index P.(p_funcs) f) as [[id np' nr'|fd]|] eqn:Hfd.
  - destruct (ev_host _ _ Hev _ _ _ _ Hfd). lia.
  - destruct (after_sim E lo frs scr labs st ls vs outer (fv lo frs pc st (ls ++ scr) (vs ++ outer)) (pc + 1)
      (len vs - fd.(fd_params) + fd.(fd_results)) (call fuel f st vs) Hg) as [H1 H2].
    + apply (call_code_sim M P HL T HT); [exact IH|exact Hfd|done|apply Hg|apply Hg|].
      rewrite <-fv_call. intros. by eapply goes1_goes, call_in.
    + split; [done|]. intros st' ls' vs' Hn. rewrite (H2 _ _ _ Hn).
      destruct (ev_code _ _ Hev _ _ Hfd) as [_ Ha]. destruct (Ha _ _ Har) as [-> ->]. by apply call_height.
  - by destruct fuel; simpl; rewrite ?Hfd.
Qed.

(** A call of the host. *)
Lemma host_sim fuel E lo frs scr labs h pc st ls vs outer f np nr id :
  frs ≠ [] → ready E scr labs h pc st ls vs outer → f < E.(e_n_imports) →
  func_arity f E.(e_func_types) E.(e_func_typeidx) = Ok (np, nr) → E.(e_host_fn_ids) !! Z.to_nat f = Some id →
  ops_at pc [mkCuOp OP_CALL_HOST (host_flags np nr) id] →
  outcome_ok E lo frs (len scr) (len ls) labs outer (fv lo frs pc st (ls ++ scr) (vs ++ outer)) (pc + 1)
    (run_basic (call fuel) (Call f) st ls vs) ∧
  ∀ st' ls' vs', run_basic (call fuel) (Call f) st ls vs = Next st' ls' vs' →
    i32 (h - np + nr) = i32 (len vs' + len outer).
Proof using HL HT.
  intros Hfrs [Hev Hf Hpc Hh Hlabs Hg Hout] Hni Har Hid Hops.
  change (run_basic (call fuel) (Call f) st ls vs) with (after (call fuel f st vs) ls).
  destruct fuel as [|fuel]; [done|]. simpl. destruct (index P.(p_funcs) f) as [[id' np' nr'|fd]|] eqn:Hfd; [|destruct (ev_code _ _ Hev _ _ Hfd); lia|done].
  destruct (ev_host _ _ Hev _ _ _ _ Hfd) as (_ & Hi & Ha). apply Hi in Hid as <-. destruct (Ha _ _ Har) as (-> & -> & Hn1 & Hn2).
  assert (0 ≤ np ∧ 0 ≤ nr) as [Hn3 Hn4].
  { unfold func_arity in Har. repeat case_match; try done. injection Har as <- <-.
    match goal with |- 0 ≤ u16 ?x ∧ 0 ≤ u16 ?y => pose proof (u16_range x); pose proof (u16_range y) end. lia. }
  destruct (after_sim E lo frs scr labs st ls vs outer (fv lo frs pc st (ls ++ scr) (vs ++ outer)) (pc + 1)
    (len vs - np + nr) (call_host P env_of id np nr st vs) Hg) as [H1 H2].
  - rewrite fv_call. apply (call_host_sim M P HL T HT); try done; apply Hg.
  - split; [done|]. intros st' ls' vs' Hn. rewrite (H2 _ _ _ Hn). by apply call_height.
Qed.

(** A call through the table. *)
Lemma indirect_sim fuel E lo frs scr labs h pc st ls vs outer ty ft :
  func_sim fuel → frs ≠ [] → ready E scr labs h pc st ls vs outer → E.(e_func_types) !! Z.to_nat ty = Some ft →
  ops_at pc [mkCuOp OP_CALL_INDIRECT 0 ty] →
  outcome_ok E lo frs (len scr) (len ls) labs outer (fv lo frs pc st (ls ++ scr) (vs ++ outer)) (pc + 1)
    (run_basic (call fuel) (CallIndirect ty 0) st ls vs) ∧
  ∀ st' ls' vs', run_basic (call fuel) (CallIndirect ty 0) st ls vs = Next st' ls' vs' →
    i32 (h - (1 + i32 (len ft.1)) + i32 (len ft.2)) = i32 (len vs' + len outer).
Proof using HL HT.
  intros IH Hfrs [Hev Hf Hpc Hh Hlabs Hg Hout] Hft Hops. destruct vs as [|i vs]; [done|].
  apply good_pop in Hg as [_ Hg]. simpl.
  destruct (table_func P (w32 i) ty) as [[f|]|s] eqn:Htf; [|done|].
  - destruct (table_func_code _ _ _ _ Htf) as (fd & t & ft1 & Htab & Hfd & Ht & Hty & Hty').
    assert (ft1 = ft) as ->.
    { apply index_Some in Hty as [_ Hty]. rewrite (prefix_lookup_Some _ _ _ _ Hft (ev_types _ _ Hev)) in Hty. congruence. }
    destruct (lk_typed _ _ HL _ _ _ _ Hfd Ht Hty') as [Hp Hr].
    pose proof (index_Forall _ _ _ _ (lk_types _ _ HL) Hty') as [L1 L2]. pose proof (len_nonneg ft.1). pose proof (len_nonneg ft.2).
    destruct (after_sim E lo frs scr labs st ls vs outer (fv lo frs pc st (ls ++ scr) (i :: vs ++ outer)) (pc + 1)
      (len vs - fd.(fd_params) + fd.(fd_results)) (call fuel f st vs) Hg) as [H1 H2].
    + apply (call_code_sim M P HL T HT); [exact IH|exact Hfd|done|apply Hg|apply Hg|].
      rewrite <-fv_call. intros. by eapply goes1_goes, indirect_in.
    + split; [exact H1|]. intros st' ls' vs' Hn. rewrite (H2 _ _ _ Hn), Hp, Hr, (i32_id (len ft.1)), (i32_id (len ft.2)), Hh by lia.
      rewrite <-Z.add_opp_r, <-Z.add_assoc, i32_add_l. f_equal. autorewrite with len. lia.
  - split; [|done]. intros Htr. eapply f_op_trap; [exact HT|apply HL|done|exact Hops|].
    apply (does_call_indirect M P HL T). rewrite Htf. exact Htr.
Qed.

Lemma table_label_at dflt ts ds i d :
  read_depths ts = Ok ds → table_label dflt ts i = Some d →
  match ds !! Z.to_nat i with Some d' => d' = d | None => d = dflt end.
Proof.
  intros Hr. unfold table_label. generalize (Z.to_nat i). clear i. revert ds Hr.
  induction ts as [|[x|e] ts IH]; intros ds Hr n.
  - injection Hr as <-. rewrite !lookup_nil. by intros [= <-].
  - simpl in Hr. destruct (read_depths ts) as [ds'| |]; try discriminate Hr. injection Hr as <-.
    destruct n as [|n]; [by intros [= <-]|]. exact (IH ds' eq_refl n).
  - discriminate Hr.
Qed.

(** *** Branches *)

Lemma ready_pop E scr labs h pc pc' st ls c vs outer :
  ready E scr labs h pc st ls (c :: vs) outer → 0 ≤ pc' → ready E scr labs (i32 (h - 1 + 0)) pc' st ls vs outer.
Proof.
  intros [H1 H2 H3 H4 H5 H6 H7] Hpc. split; try done.
  - rewrite H4. autorewrite with len. rewrite <-Z.add_opp_r, <-Z.add_assoc, i32_add_l. f_equal. lia.
  - by apply good_pop in H6 as [_ ?].
Qed.

Lemma reaches_act lo frs k pc st ls scr os v0 :
  reaches M T v0 (fv lo frs pc st (ls ++ scr) os) → len scr = k → goes v0 (act lo frs k pc st ls os).
Proof. intros Hr Hk. apply Hr, goes_here. by exists scr. Qed.

Lemma reaches1_act lo frs k pc st ls scr os v0 :
  reaches1 M T v0 (fv lo frs pc st (ls ++ scr) os) → len scr = k → goes1 v0 (act lo frs k pc st ls os).
Proof. intros Hr Hk. apply Hr, goes_here. by exists scr. Qed.

Lemma branch_sim E lo frs scr labs h pc pc' st ls vs outer d l :
  ready E scr labs h pc st ls vs outer → label_ok labs h d l → ops_at pc (jump_ops E h l) →
  outcome_ok E lo frs (len scr) (len ls) labs outer (fv lo frs pc st (ls ++ scr) (vs ++ outer)) pc'
    (Branch (Z.to_nat d) st ls vs).
Proof using HL HT.
  intros [Hev Hf Hpc Hh Hlabs Hg Hout] [Hl Hle] Hops. split_and!; [done..|]. intros l' Hl' Ha.
  assert (l' = l) as -> by congruence. eapply reaches1_act; [|done].
  apply (jump_reaches M T HT E (lk_code _ _ HL) lo frs h l vs outer pc st ls scr); try done.
  eapply Forall_lookup_1; [exact Hlabs|exact Hl].
Qed.

Lemma br_if_sim E lo frs scr labs h h' pc st ls c vs outer d l :
  ready E scr labs h pc st ls (c :: vs) outer → h' = i32 (h - 1 + 0) → label_ok labs h' d l →
  ops_at pc (skip_ops E pc h' l) →
  outcome_ok E lo frs (len scr) (len ls) labs outer (fv lo frs pc st (ls ++ scr) (c :: vs ++ outer))
    (pc + 1 + len (jump_ops E h' l))
    (if w32 c =? 0 then Next st ls vs else Branch (Z.to_nat d) st ls vs).
Proof using HL HT.
  intros Hrd -> [Hl Hle] Hops. pose proof (ready_pop _ _ _ _ _ pc _ _ _ _ _ Hrd (rd_pc _ _ _ _ _ _ _ _ _ _ _ Hrd))
    as [Hev Hf Hpc Hh Hlabs Hg Hout].
  pose proof (skip_reaches M T HT E (lk_code _ _ HL) lo frs _ l c vs outer pc st ls scr Hf Hh
    ltac:(eapply Forall_lookup_1; [exact Hlabs|exact Hl]) Hle Hpc Hops) as Hs.
  destruct (w32 c =? 0).
  - split_and!; [|done|done]. by eapply reaches_act.
  - split_and!; [done|done|]. intros l' Hl' Ha. assert (l' = l) as -> by congruence.
    eapply reaches1_act; [by apply Hs|done].
Qed.

(** The operand of [br_table], kept in the scratch local. *)
Lemma scratch_set E lo frs scr pc st ls x os sc :
  frame_ok E (len ls) scr → E.(e_scratch) = Some sc → 0 ≤ pc → ops_at pc [mkCuOp OP_LOCAL_SET sc 0] →
  ∀ Q, (frame_ok E (len ls) [x] → len scr = 1 → goes (fv lo frs (pc + 1) st (ls ++ [x]) os) Q) →
  goes1 (fv lo frs pc st (ls ++ scr) (x :: os)) Q.
Proof using HL HT.
  intros [F1 F2 F3] Hsc Hpc Hops Q HQ. apply goes1_act_cap. autorewrite with len. intros Hc.
  destruct (F3 sc Hsc) as [S1 S2]. pose proof (len_nonneg lo). pose proof (len_nonneg ls).
  pose proof (len_nonneg os). unfold STACK_CAP in Hc.
  assert (len scr = 1) as Hs1 by lia. assert (sc = len ls) as Hsc1 by (rewrite S1, u16_id by lia; lia).
  assert (∃ y, scr = [y]) as [y Hy].
  { destruct scr as [|y [|z scr]]; [done|by exists y|]. autorewrite with len in Hs1. pose proof (len_nonneg scr). lia. }
  assert (frame_ok E (len ls) [x]) as Hf' by (split; [change (len [x]) with 1; lia|done|done]).
  specialize (HQ Hf' Hs1). revert HQ. eapply (reaches1_op M T HT (lk_code _ _ HL) lo frs); [exact Hpc|exact Hops|].
  subst sc. apply does_local_set; [autorewrite with len; lia|].
  rewrite Hsc1.   assert (<[Z.to_nat (len ls) := x]> (ls ++ scr) = ls ++ [x]) as ->; [|done].
  subst scr. unfold len. rewrite Nat2Z.id. by rewrite insert_app_r_alt, Nat.sub_diag by done.
Qed.

Lemma br_table_sim E lo frs scr labs h h' pc p1 pc' st ls x vs outer dflt ts ds sc l d :
  ready E scr labs h pc st ls (x :: vs) outer → h' = i32 (h - 1 + 0) → E.(e_scratch) = Some sc →
  read_depths ts = Ok ds → ops_at pc [mkCuOp OP_LOCAL_SET sc 0] →
  table_code E M.(hm_code) M.(hm_consts) labs h' sc 0 ds (pc + 1) p1 → label_ok labs h' dflt l →
  ops_at p1 (jump_ops E h' l) → 0 ≤ p1 → table_label dflt ts (w32 x) = Some d →
  outcome_ok E lo frs (len scr) (len ls) labs outer (fv lo frs pc st (ls ++ scr) (x :: vs ++ outer)) pc'
    (Branch (Z.to_nat d) st ls vs).
Proof using HL HT.
  intros Hrd -> Hsc Hds Hops Ht [Hl Hle] Hops1 Hp1 Hd.
  destruct (good_pop _ _ _ _ _ (rd_good _ _ _ _ _ _ _ _ _ _ _ Hrd)) as [Hx _].
  pose proof (ready_pop _ _ _ _ _ (pc + 1) _ _ _ _ _ Hrd ltac:(pose proof (rd_pc _ _ _ _ _ _ _ _ _ _ _ Hrd); lia))
    as [Hev Hf Hpc Hh Hlabs Hg Hout].
  split_and!; [done|done|]. intros l' Hl' Ha.
  eapply scratch_set; [exact Hf|exact Hsc|apply Hrd|exact Hops|]. intros Hf' Hs1.
  assert (len ds < 2 ^ 32) as Hlen.
  { pose proof (lk_code _ _ HL). destruct (table_len M E _ _ _ _ _ _ _ _ Ht Hpc) as [?| ->]; [lia|done]. }
  pose proof (table_reaches M T HT E (lk_code _ _ HL) lo frs labs _ sc 0 ds (pc + 1) p1 x vs outer st ls Ht Hf' Hsc Hx Hh
    Hlabs Hpc ltac:(pose proof (u32_range x); unfold w32, u32 in *; lia) ltac:(lia)) as Htr.
  rewrite Z.sub_0_r in Htr. pose proof (table_label_at _ _ _ _ _ Hds Hd) as Hlab.
  destruct (ds !! Z.to_nat (w32 x)) as [d'|].
  - subst d'. eapply goes1_goes, (reaches1_act _ _ _ _ _ _ [x]); [by apply Htr|]. by rewrite Hs1.
  - subst d. assert (l' = l) as -> by congruence. apply Htr. eapply goes1_goes, (reaches1_act _ _ _ _ _ _ [x]); [|by rewrite Hs1].
    apply (jump_reaches M T HT E (lk_code _ _ HL) lo frs (i32 (h - 1 + 0)) l vs outer p1 st ls [x]); try done.
    eapply Forall_lookup_1; [exact Hlabs|exact Hl'].
Qed.

(** *** Returns and traps *)

Lemma return_sim E lo frs scr labs h pc pc' st ls vs outer op b :
  ready E scr labs h pc st ls vs outer → op = OP_RETURN ∨ op = OP_END_FUNC → ops_at pc [mkCuOp op E.(e_n_results) b] →
  outcome_ok E lo frs (len scr) (len ls) labs outer (fv lo frs pc st (ls ++ scr) (vs ++ outer)) pc' (Ret st vs).
Proof.
  intros [Hev Hf Hpc Hh Hlabs Hg Hout] Hop Hops. split_and!; [apply Hg|apply Hg|]. intros Hle. apply goes_here.
  exists op, E.(e_n_results), b, pc, (ls ++ scr), (drop (Z.to_nat E.(e_n_results)) vs ++ outer).
  split_and!; [done..|]. by rewrite take_drop_app.
Qed.

Lemma unreachable_sim lo frs pc st ls os :
  0 ≤ pc → ops_at pc [mkCuOp OP_UNREACHABLE 0 0] → (∀ m, T st.(s_trace) ST_TRAP_UNREACHABLE m) →
  goes (fv lo frs pc st ls os) (fun _ => False).
Proof using HL HT.
  intros Hpc Hops Ht. eapply f_op_trap; [exact HT|apply HL|done|exact Hops|].
  change (exec M (mkCuOp OP_UNREACHABLE 0 0)) with (@trap unit ST_TRAP_UNREACHABLE). by apply does_trap.
Qed.

(** *** Every operator *)

(** A tail call. *)
Lemma tail_sim E lo frs scr labs h pc pc' st ls vs outer f :
  ready E scr labs h pc st ls vs outer → ops_at pc [mkCuOp OP_RETURN_CALL 0 f] →
  outcome_ok E lo frs (len scr) (len ls) labs outer (fv lo frs pc st (ls ++ scr) (vs ++ outer)) pc' (Tail f st vs).
Proof.
  intros [Hev Hf Hpc Hh Hlabs Hg Hout] Hops. split_and!; [apply Hg|apply Hg|]. intros fd Hfd Hle. apply goes_here.
  exists pc, (ls ++ scr), (drop (Z.to_nat fd.(fd_params)) vs ++ outer). split_and!; [done..|]. by rewrite take_drop_app.
Qed.

(** Operators that emit. *)
Lemma emitted_sim fuel E lo frs scr labs h pc st ls vs outer o ops eff :
  func_sim fuel → frs ≠ [] → ready E scr labs h pc st ls vs outer → offset_ok o = true →
  emits E M.(hm_consts) o ops eff → ops_at pc ops →
  outcome_ok E lo frs (len scr) (len ls) labs outer (fv lo frs pc st (ls ++ scr) (vs ++ outer)) (pc + len ops)
    (run_basic (call fuel) o st ls vs) ∧
  ∀ st' ls' vs', run_basic (call fuel) o st ls vs = Next st' ls' vs' → height_after h eff = i32 (len vs' + len outer).
Proof using HL HT.
  intros IH Hfrs Hrd Hoff He Hops. destruct (is_call o) eqn:Hc; [|by apply (emit_sim _ _ _ _ _ _ _ _ _ _ _ _ _ _ _ Hrd He Hc Hoff)].
  destruct He; try discriminate Hc; try (by destruct o); change (len [_]) with 1.
  - by apply call_sim.
  - by eapply host_sim.
  - by apply indirect_sim.
Qed.

Lemma op_sim fuel E lo frs scr labs h pc p1 st ls vs outer o r :
  func_sim fuel → frs ≠ [] → ready E scr labs h pc st ls vs outer → offset_ok o = true →
  op_code E M.(hm_code) M.(hm_consts) labs h o pc p1 r →
  outcome_ok E lo frs (len scr) (len ls) labs outer (fv lo frs pc st (ls ++ scr) (vs ++ outer)) p1
    (run_basic (call fuel) o st ls vs) ∧
  ∀ st' ls' vs', run_basic (call fuel) o st ls vs = Next st' ls' vs' → r = Some (i32 (len vs' + len outer)).
Proof using HL HT.
  intros IH Hfrs Hrd Hoff Ho. pose proof (rd_pc _ _ _ _ _ _ _ _ _ _ _ Hrd) as Hpc.
  destruct Ho as [o ops eff pc p1 h' He _ Hops -> ->|d l pc p1 Hl Hops|d l pc p1 h' H1 Hh' Hl Hops ->
    |dflt ts ds sc l pc p2 p1 h' Hsc Hds H1 Hh' Hops Ht Hl Hops1|pc p1 Hops|pc p1 Hops|f pc p1 Hni Hops].
  - destruct (emitted_sim fuel E lo frs scr labs h pc st ls vs outer o ops eff IH Hfrs Hrd Hoff He Hops) as [H2 H3].
    split; [exact H2|]. intros st' ls' vs' Hn. f_equal. by eapply H3.
  - split; [|done]. by eapply branch_sim.
  - destruct vs as [|c vs]; [done|]. split; [by eapply br_if_sim|]. simpl. intros st' ls' vs'.
    destruct (w32 c =? 0); [|done]. intros [= _ _ <-].
    rewrite <-(rd_h _ _ _ _ _ _ _ _ _ _ _ (ready_pop _ _ _ _ _ pc _ _ _ _ _ Hrd Hpc)). by rewrite Hh'.
  - destruct vs as [|x vs]; [done|]. simpl. destruct (table_label dflt ts (w32 x)) as [d|] eqn:Hd; [|done].
    split; [|done]. pose proof (table_code_mono _ _ _ _ _ _ _ _ _ _ Ht). eapply br_table_sim; try done. lia.
  - split; [|done]. eapply return_sim; [exact Hrd|by left|exact Hops].
  - split; [|done]. intros Ht. by apply unreachable_sim.
  - split; [|done]. by eapply tail_sim.
Qed.

(** ** Bodies *)

Lemma arity_agrees E ty np nr n m :
  env_ok P E → block_arity ty E.(e_func_types) = Ok (np, nr) → arity P.(p_types) ty = Some (n, m) →
  np = Z.of_nat n ∧ nr = Z.of_nat m.
Proof.
  intros [Hty _] Hb Ha. destruct ty as [|t|i]; simpl in *.
  - by simplify_eq.
  - destruct t; simpl in *; simplify_eq/=; done.
  - destruct (e_func_types E !! Z.to_nat i) as [ft|] eqn:Hft; [|done].
    rewrite (prefix_lookup_Some _ _ _ _ Hft Hty) in Ha.
    pose proof (Forall_lookup_1 _ _ _ _ (lk_types _ _ HL) (prefix_lookup_Some _ _ _ _ Hft Hty)) as [H1 H2].
    simpl in *. simplify_eq/=. pose proof (len_nonneg ft.1). pose proof (len_nonneg ft.2).
    rewrite !u16_id by lia. done.
Qed.

(** An instruction, then the rest of the body. *)
Lemma seq_sim fuel E lo frs scr labs h pc p1 pc' st ls vs outer rest o :
  body_sim fuel → frs ≠ [] → ready E scr labs h pc st ls vs outer → forallb tree_ok rest = true →
  outcome_ok E lo frs (len scr) (len ls) labs outer (fv lo frs pc st (ls ++ scr) (vs ++ outer)) p1 o → 0 ≤ p1 →
  (∀ st' ls' vs', o = Next st' ls' vs' → code_for E labs (i32 (len vs' + len outer)) rest p1 pc') →
  outcome_ok E lo frs (len scr) (len ls) labs outer (fv lo frs pc st (ls ++ scr) (vs ++ outer)) pc'
    (and_then o (run fuel rest)).
Proof.
  intros IH Hfrs Hrd Hok Ho Hp1 Hrest. destruct o as [st1 ls1 vs1| | | | | |]; try exact Ho.
  destruct Ho as (Hgo & Hg & Hn). specialize (Hrest _ _ _ eq_refl).
  eapply outcome_from; [exact Hgo| |apply act_inhabited, len_nonneg].
  intros v (scr' & Hs' & ->). rewrite <-Hs', <-Hn. eapply IH; [done| |done|exact Hrest].
  by eapply ready_again.
Qed.

(** The test of an [if]: the operand is taken off, and control goes to [pc1]. *)
Lemma if_test_goes E lo frs scr labs h pc st ls c vs outer b :
  ready E scr labs h pc st ls (c :: vs) outer → ops_at pc [mkCuOp OP_BR_IF_NOT 0 b] →
  goes (fv lo frs pc st (ls ++ scr) (c :: vs ++ outer))
    (eq (fv lo frs (if w32 c =? 0 then b else pc + 1) st (ls ++ scr) (vs ++ outer))).
Proof using HL HT.
  intros Hrd Hops. pose proof (rd_pc _ _ _ _ _ _ _ _ _ _ _ Hrd) as Hpc.
  eapply (reaches_op M T HT (lk_code _ _ HL) lo frs); [exact Hpc|exact Hops| |by apply goes_here].
  eapply does_br_if_not; [apply (fv_cons lo frs (pc + 1) st (ls ++ scr) c (vs ++ outer))|].
  by destruct (w32 c =? 0).
Qed.

(** Heights after a block. *)
Lemma height_block h np nr (vs vs' outer : list Z) :
  h = i32 (len vs + len outer) → len vs' + np = nr + len vs →
  i32 (i32 (h - np) + nr) = i32 (len vs' + len outer).
Proof. intros -> Hl. rewrite i32_add_l, <-!Z.add_opp_r, <-Z.add_assoc, i32_add_l. f_equal. lia. Qed.

Lemma if_sim fuel E lo frs scr labs h h1 pc p1 st ls vs outer np nr base e thn :
  body_sim fuel → frs ≠ [] → ready E scr labs h pc st ls vs outer → forallb tree_ok thn = true →
  h1 = i32 (h - 1 + 0) → base = i32 (h1 - Z.of_nat np) → 0 ≤ p1 →
  ops_at pc [mkCuOp OP_BR_IF_NOT 0 p1] →
  code_for E (mkLab p1 base (Z.of_nat nr) e :: labs) h1 thn (pc + 1) p1 →
  outcome_ok E lo frs (len scr) (len ls) labs outer (fv lo frs pc st (ls ++ scr) (vs ++ outer)) p1
    (run_if (run fuel) np nr thn None st ls vs) ∧
  ∀ st' ls' vs', run_if (run fuel) np nr thn None st ls vs = Next st' ls' vs' →
    i32 (base + Z.of_nat nr) = i32 (len vs' + len outer).
Proof using HL HT.
  intros IH Hfrs Hrd Hok Hh1 Hb Hp1 Hops Hcf. destruct vs as [|c vs]; [done|].
  pose proof (ready_pop _ _ _ _ _ (pc + 1) _ _ _ _ _ Hrd ltac:(pose proof (rd_pc _ _ _ _ _ _ _ _ _ _ _ Hrd); lia)) as Hrd1.
  rewrite <-Hh1 in Hrd1. pose proof (if_test_goes E lo frs scr labs h pc st ls c vs outer p1 Hrd Hops) as Htest.
  simpl. destruct (w32 c =? 0).
  - destruct (operands np vs) as [ps|] eqn:Hps; [|done]. apply operands_Some in Hps as [-> Hnp].
    unfold leave. destruct (_ =? _)%nat eqn:Hl; [|done]. apply Nat.eqb_eq in Hl. rewrite length_take in Hl.
    rewrite take_drop. split.
    + split_and!; [|apply Hrd1|done]. eapply goes_mono; [exact Htest|]. intros v <-. by exists scr.
    + intros ??? [= _ _ <-]. rewrite Hb. eapply height_block; [apply Hrd1|lia].
  - destruct (block_sim M P T fuel E lo frs scr labs h1 (pc + 1) p1 p1 st ls vs outer np nr base e thn) as [H1 H2];
      try done; [apply joins_refl|]. split.
    + eapply outcome_from; [exact Htest| |eauto]. by intros v <-.
    + intros st' ls' vs' Hn. rewrite Hb. eapply height_block; [apply Hrd1|]. by apply H2 in Hn.
Qed.

Lemma joins_br lo frs p1 p2 : 0 ≤ p1 → ops_at p1 [mkCuOp OP_BR 0 p2] → joins lo frs p1 p2.
Proof using HL HT.
  intros Hp Hops st ls os. eapply (reaches_op M T HT (lk_code _ _ HL) lo frs); [exact Hp|exact Hops| |by apply goes_here].
  by apply does_br.
Qed.

Lemma if_else_sim fuel E lo frs scr labs h h1 pc p1 p2 st ls vs outer np nr base e thn els :
  body_sim fuel → frs ≠ [] → ready E scr labs h pc st ls vs outer →
  forallb tree_ok thn = true → forallb tree_ok els = true →
  h1 = i32 (h - 1 + 0) → base = i32 (h1 - Z.of_nat np) → 0 ≤ p1 →
  ops_at pc [mkCuOp OP_BR_IF_NOT 0 (p1 + 1)] → ops_at p1 [mkCuOp OP_BR 0 p2] →
  code_for E (mkLab p2 base (Z.of_nat nr) e :: labs) h1 thn (pc + 1) p1 →
  code_for E (mkLab p2 base (Z.of_nat nr) e :: labs) h1 els (p1 + 1) p2 →
  outcome_ok E lo frs (len scr) (len ls) labs outer (fv lo frs pc st (ls ++ scr) (vs ++ outer)) p2
    (run_if (run fuel) np nr thn (Some els) st ls vs) ∧
  ∀ st' ls' vs', run_if (run fuel) np nr thn (Some els) st ls vs = Next st' ls' vs' →
    i32 (base + Z.of_nat nr) = i32 (len vs' + len outer).
Proof using HL HT.
  intros IH Hfrs Hrd Hok1 Hok2 Hh1 Hb Hp1 Hops Hbr Hcf1 Hcf2. destruct vs as [|c vs]; [done|].
  pose proof (if_test_goes E lo frs scr labs h pc st ls c vs outer _ Hrd Hops) as Htest.
  assert (∀ pc', 0 ≤ pc' → ready E scr labs h1 pc' st ls vs outer) as Hrd1
    by (intros; rewrite Hh1; by eapply ready_pop).
  pose proof (rd_pc _ _ _ _ _ _ _ _ _ _ _ Hrd) as Hpc. simpl. destruct (w32 c =? 0).
  - destruct (block_sim M P T fuel E lo frs scr labs h1 (p1 + 1) p2 p2 st ls vs outer np nr base e els) as [H1 H2];
      try done; [apply Hrd1; lia|apply joins_refl|]. split.
    + eapply outcome_from; [exact Htest| |eauto]. by intros v <-.
    + intros st' ls' vs' Hn. rewrite Hb. eapply height_block; [apply (Hrd1 0); lia|]. by apply H2 in Hn.
  - destruct (block_sim M P T fuel E lo frs scr labs h1 (pc + 1) p1 p2 st ls vs outer np nr base e thn) as [H1 H2];
      try done; [apply Hrd1; lia|by apply joins_br|]. split.
    + eapply outcome_from; [exact Htest| |eauto]. by intros v <-.
    + intros st' ls' vs' Hn. rewrite Hb. eapply height_block; [apply (Hrd1 0); lia|]. by apply H2 in Hn.
Qed.

(** ** The induction on the fuel *)

Lemma body_sim_0 : body_sim 0.
Proof. done. Qed.

(** One instruction of a body: its outcome, and the code of the rest where it goes on. *)
Lemma instr_sim fuel E lo frs scr labs h i rest pc pc' st ls vs outer :
  body_sim fuel → func_sim fuel → frs ≠ [] → ready E scr labs h pc st ls vs outer →
  forallb tree_ok (i :: rest) = true → code_for E labs h (i :: rest) pc pc' →
  let o := run_instr P (run fuel) (call fuel) i st ls vs in
  ∃ p1, 0 ≤ p1 ∧
    outcome_ok E lo frs (len scr) (len ls) labs outer (fv lo frs pc st (ls ++ scr) (vs ++ outer)) p1 o ∧
    ∀ st' ls' vs', o = Next st' ls' vs' → code_for E labs (i32 (len vs' + len outer)) rest p1 pc'.
Proof using HL HT.
  intros IHb IHc Hfrs Hrd Hok Hcf. cbv zeta.
  pose proof (rd_env _ _ _ _ _ _ _ _ _ _ _ Hrd) as Hev. pose proof (rd_pc _ _ _ _ _ _ _ _ _ _ _ Hrd) as Hpc.
  inversion Hcf as [|labs0 h0 o rest0 pc0 p1 pc0' Ho Hle|labs0 h0 o h1 rest0 pc0 p1 pc0' Ho Hcr
    |labs0 h0 ty body np nr base e rest0 pc0 p1 pc0' Hba Hnp Hb Hcb Hcr
    |labs0 h0 ty body np nr base e rest0 pc0 p1 pc0' Hba Hnp Hb Hcb Hcr
    |labs0 h0 h1 ty thn np nr base e rest0 pc0 p1 pc0' Hba H1 Hh1 Hnp Hb Hops Hct Hcr
    |labs0 h0 h1 ty thn els np nr base e rest0 pc0 p1 p2 pc0' Hba H1 Hh1 Hnp Hb Hops Hct Hbr Hce Hcr]; subst labs0 h0 rest0 pc0 pc0' i;
    simpl in Hok; rewrite ?andb_true_iff in Hok.
  - destruct Hok as [[_ Hoff] _]. destruct (op_sim fuel E lo frs scr labs h pc p1 st ls vs outer o None IHc Hfrs Hrd Hoff Ho) as [H1 H2].
    exists p1. split_and!; [apply op_code_mono in Ho; lia|exact H1|]. intros st' ls' vs' Hn. by apply H2 in Hn.
  - destruct Hok as [[_ Hoff] _].
    destruct (op_sim fuel E lo frs scr labs h pc p1 st ls vs outer o _ IHc Hfrs Hrd Hoff Ho) as [H1 H2].
    exists p1. split_and!; [apply op_code_mono in Ho; lia|exact H1|]. intros st' ls' vs' Hn. apply H2 in Hn. by injection Hn as <-.
  - destruct Hok as [Hok1 _]. pose proof (code_for_mono _ _ _ _ _ _ _ _ Hcb). exists p1. split; [lia|].
    unfold run_instr. destruct (arity (p_types P) ty) as [[n m]|] eqn:Har; [|done].
    destruct (arity_agrees _ _ _ _ _ _ Hev Hba Har) as [-> ->].
    destruct (block_sim M P T fuel E lo frs scr labs h pc p1 p1 st ls vs outer n m base e body) as [H1 H2];
      try done; [apply joins_refl|]. split; [exact H1|]. intros st' ls' vs' Hn. apply H2 in Hn. rewrite Hb in Hcr.
    by rewrite (height_block h _ _ vs vs' outer) in Hcr by (done || apply Hrd).
  - destruct Hok as [Hok1 _]. pose proof (code_for_mono _ _ _ _ _ _ _ _ Hcb). exists p1. split; [lia|].
    unfold run_instr. destruct (arity (p_types P) ty) as [[n m]|] eqn:Har; [|done].
    destruct (arity_agrees _ _ _ _ _ _ Hev Hba Har) as [-> ->]. split; [by eapply loop_sim|].
    intros st' ls' vs' Hn. apply (fun X => loop_len P fuel ty body n m Har _ _ _ _ _ _ (or_introl X)) in Hn.
    rewrite Hb in Hcr. by rewrite (height_block h _ _ vs vs' outer) in Hcr by (done || apply Hrd).
  - destruct Hok as [[Hok1 _] _]. pose proof (code_for_mono _ _ _ _ _ _ _ _ Hct). exists p1. split; [lia|].
    unfold run_instr. destruct (arity (p_types P) ty) as [[n m]|] eqn:Har; [|done].
    destruct (arity_agrees _ _ _ _ _ _ Hev Hba Har) as [-> ->].
    destruct (if_sim fuel E lo frs scr labs h h1 pc p1 st ls vs outer n m base e thn) as [S1 S2]; try done; [lia|].
    split; [exact S1|]. intros st' ls' vs' Hn. apply S2 in Hn. by rewrite Hn in Hcr.
  - destruct Hok as [[Hok1 Hok3] _]. pose proof (code_for_mono _ _ _ _ _ _ _ _ Hct).
    pose proof (code_for_mono _ _ _ _ _ _ _ _ Hce). exists p2. split; [lia|].
    unfold run_instr. destruct (arity (p_types P) ty) as [[n m]|] eqn:Har; [|done].
    destruct (arity_agrees _ _ _ _ _ _ Hev Hba Har) as [-> ->].
    assert (i32 (base + Z.of_nat n) = h1) as Hbase.
    { rewrite Hb, i32_add_l. replace (h1 - Z.of_nat n + Z.of_nat n) with h1 by lia. rewrite Hh1. apply i32_idem. }
    rewrite Hbase in Hce.
    destruct (if_else_sim fuel E lo frs scr labs h h1 pc p1 p2 st ls vs outer n m base e thn els) as [S1 S2];
      try done; [lia|]. split; [exact S1|]. intros st' ls' vs' Hn. apply S2 in Hn. by rewrite Hn in Hcr.
Qed.

Lemma body_sim_S fuel : body_sim fuel → func_sim fuel → body_sim (S fuel).
Proof using HL HT.
  intros IHb IHc E lo frs scr labs h [|i rest] pc pc' st ls vs outer Hfrs Hrd Hok Hcf.
  - inversion Hcf; subst. split_and!; [|apply Hrd|done]. apply goes_here. by exists scr.
  - destruct (instr_sim fuel E lo frs scr labs h i rest pc pc' st ls vs outer) as (p1 & Hp1 & Ho & Hrest); try done.
    rewrite run_cons. simpl in Hok. apply andb_true_iff in Hok as [_ Hok].
    by apply (seq_sim fuel E lo frs scr labs h pc p1 pc' st ls vs outer rest).
Qed.

(** ** Functions *)

Lemma func_sim_0 : func_sim 0.
Proof. by intros f fd meta lo frs fr st ps. Qed.

(** The end of a function's body: a return, or a call in the function's place. *)
Lemma func_end fuel fd meta E p lo frs fr v0 o :
  func_sim fuel → compiled M P fd meta E p → fr.(fr_n_results) = fd.(fd_results) →
  (∃ n k ls, outcome_ok E lo (frs ++ [fr]) k n [mkLab p 0 fd.(fd_results) 0] ls v0 p o ∧ ls = []) →
  match func_out P (call fuel) fd.(fd_results) [] o with
  | Returns st' rs => store_ok M st' ∧ len rs = fd.(fd_results) ∧ Forall in_u64 rs ∧
      goes v0 (at_return M lo (frs ++ [fr]) st' rs)
  | CTrapped s tr => (∀ m, T tr s m) → goes v0 (fun _ => False)
  | CStuck | CTimeout => True
  end.
Proof using HL HT.
  intros IH Hc Hfr (n & k & outer & Ho & ->). pose proof (code_for_mono _ _ _ _ _ _ _ _ (cp_code _ _ _ _ _ _ Hc)) as Hp.
  pose proof (cp_off _ _ _ _ _ _ Hc). pose proof (cp_end _ _ _ _ _ _ Hc) as Hend.
  destruct (cp_results _ _ _ _ _ _ Hc) as (R1 & R2 & R3).
  assert (∀ st ls vs Q, goes v0 (act lo (frs ++ [fr]) k p st ls (vs ++ [])) → len vs = fd.(fd_results) →
    (∀ v, at_return M lo (frs ++ [fr]) st vs v → Q v) → goes v0 Q) as Hret.
  { intros st ls vs Q Hgo Hl HQ. eapply goes_mono; [exact Hgo|]. intros v (scr' & _ & ->). apply HQ.
    exists OP_END_FUNC, fd.(fd_results), 0, p, (ls ++ scr'), []. split_and!; [by right|lia|exact Hend|done]. }
  destruct o as [st' ls' vs|[|d] st' ls' vs|st' vs|g st' vs|s tr| |]; simpl in Ho |- *; try done.
  - destruct (_ =? _)%nat eqn:Hl; [|done]. apply Nat.eqb_eq in Hl. destruct Ho as (Hgo & Hg & _).
    rewrite app_nil_r in *. split_and!; [apply Hg|unfold len; lia|apply Hg|].
    eapply Hret; [by rewrite app_nil_r|unfold len; lia|done].
  - destruct (operands _ vs) as [rs|] eqn:Hrs; [|done]. apply operands_Some in Hrs as [-> Hle].
    destruct Ho as (Hg & _ & Hgo). rewrite app_nil_r.
    assert (len (take (Z.to_nat fd.(fd_results)) vs) = fd.(fd_results)) as Hl by (unfold len; rewrite length_take; lia).
    split_and!; [apply Hg|exact Hl|apply Forall_take, Hg|].
    eapply Hret; [apply goes1_goes, (Hgo _ eq_refl); simpl; unfold len; lia|exact Hl|done].
  - destruct (operands _ vs) as [rs|] eqn:Hrs; [|done]. apply operands_Some in Hrs as [-> Hle].
    destruct Ho as (Hst' & Hvs & Hgo). rewrite app_nil_r. rewrite R2 in Hgo. split_and!; [done| |by apply Forall_take|].
    + unfold len. rewrite length_take. lia.
    + apply Hgo. unfold len. lia.
  - destruct (index P.(p_funcs) g) as [[|fd']|] eqn:Hfd'; [done| |done].
    destruct (fd'.(fd_results) =? fd.(fd_results)) eqn:Hres; [|done]. apply Z.eqb_eq in Hres.
    destruct (operands _ vs) as [ps|] eqn:Hps; [|done]. apply operands_Some in Hps as [-> Hle].
    destruct Ho as (Hst' & Hvs & Hgo). destruct (lk_funcs _ _ HL _ _ Hfd') as (meta' & E' & p' & Hmeta' & Hc').
    destruct (cp_params _ _ _ _ _ _ Hc') as (P1 & _ & P3). destruct (cp_results _ _ _ _ _ _ Hc') as (R1' & _).
    set (ps := take _ vs) in *. assert (len ps = fd'.(fd_params)) as Hl by (unfold ps, len; rewrite length_take; lia).
    pose proof (IH g fd' meta' lo frs fr st' ps Hfd' Hmeta' ltac:(congruence) Hst' ltac:(by apply Forall_take) Hl) as Hcall.
    cbv zeta in Hcall.
    assert (∀ Q, goes (mkView meta'.(fm_code_off) (len lo) (frs ++ [fr])
      (lo ++ rev ps ++ replicate (Z.to_nat meta'.(fm_n_locals)) 0) st') Q → goes v0 Q) as Hin.
    { intros Q HQ. eapply goes_bind; [apply (Hgo _ eq_refl); unfold len; lia|]. intros v Hv.
      eapply goes1_goes, (tail_goes M P HL T HT); [exact Hv|exact Hmeta'|rewrite P1; exact Hl|congruence|exact HQ]. }
    destruct (call fuel g st' ps) as [st2 rs|s tr| |]; [|intros Ht; by apply Hin, Hcall|done..].
    destruct Hcall as (? & ? & ? & ?). rewrite app_nil_r. split_and!; [done|lia|done|by apply Hin].
Qed.

(** A function starts its body on its arguments and zeros, with no operands. *)
Lemma call_start fuel f fd meta E p lo frs fr st ps :
  index P.(p_funcs) f = Some (Code fd) → compiled M P fd meta E p → store_ok M st → Forall in_u64 ps →
  len ps = fd.(fd_params) → ∃ ls scr,
    call (S fuel) f st ps = func_out P (call fuel) fd.(fd_results) [] (run fuel fd.(fd_body) st ls []) ∧
    ready E scr [mkLab p 0 fd.(fd_results) 0] 0 meta.(fm_code_off) st ls [] [] ∧
    mkView meta.(fm_code_off) (len lo) (frs ++ [fr]) (lo ++ rev ps ++ replicate (Z.to_nat meta.(fm_n_locals)) 0) st =
      fv lo (frs ++ [fr]) meta.(fm_code_off) st (ls ++ scr) ([] ++ []).
Proof.
  intros Hfd Hc Hst Hps Hlen. destruct (compiled_frame M P _ _ _ _ _ Hc Hlen) as [Hls Hframe].
  pose proof (cp_results _ _ _ _ _ _ Hc) as (R1 & R2 & R3). eexists _, _. split_and!.
  - simpl. rewrite Hfd. unfold run_func.
    assert (operands (Z.to_nat fd.(fd_params)) ps = Some ps ∧ drop (Z.to_nat fd.(fd_params)) ps = []) as [-> ->]; [|done].
    unfold operands. rewrite <-Hlen. unfold len. rewrite Nat2Z.id, Nat.leb_refl, take_ge, drop_ge by done. done.
  - split; [apply Hc|exact Hframe|apply Hc|done| |split|]; try done.
    + constructor; [|done]. split; [exists 0; done|done].
    + apply Forall_app. split; [by apply Forall_rev|apply in_u64_zeros].
  - rewrite Hls. unfold fv. simpl. by rewrite app_nil_r.
Qed.

Lemma func_sim_S fuel : body_sim fuel → func_sim fuel → func_sim (S fuel).
Proof using HL HT.
  intros IHb IHf f fd meta lo frs fr st ps Hfd Hmeta Hfr Hst Hps Hlen. cbv zeta.
  destruct (lk_funcs _ _ HL f fd Hfd) as (meta' & E & p & Hmeta' & Hc). rewrite Hmeta in Hmeta'. injection Hmeta' as <-.
  destruct (call_start fuel f fd meta E p lo frs fr st ps) as (ls & scr & -> & Hrd & ->); try done.
  eapply func_end; [done|exact Hc|exact Hfr|]. exists (len ls), (len scr), []. split; [|done].
  by apply (IHb E lo (frs ++ [fr]) scr _ 0 fd.(fd_body) meta.(fm_code_off) p st ls [] []);
    [by destruct frs|exact Hrd|apply Hc|apply Hc].
Qed.

Theorem sims fuel : body_sim fuel ∧ func_sim fuel.
Proof using HL HT.
  induction fuel as [|fuel [IHb IHf]]; [split; [apply body_sim_0|apply func_sim_0]|].
  split; [by apply body_sim_S|by apply func_sim_S].
Qed.
End correct.
