(* ===== verification/LowerDiverge.v ===== *)
(** * A run lasts as long as the reference semantics goes on

    When the reference semantics gives no result on some fuel, the machine takes a number
    of steps that grows with that fuel, unless one of its bounds stops it.  Between two
    ops of the machine the reference semantics uses up at most the size of a function
    body: it goes into bodies for nothing, but a loop turns back by a branch, and a call
    is an op. *)

From S2P Require Import Prelude Cuop Wasm Lower EnvTable Module ModuleSteps Engine EngineNum.
From S2P Require Import Verify VerifyFacts EngineInv LowerInv Structured Backpatch LowerTree LowerBack.
From S2P Require Import ModuleTables EngineView ViewCalls ViewHost LowerNum LowerMem LowerOps LowerBulk LowerBasic LowerSim LowerOutcome LowerCalls LowerCorrect.
From stdpp Require Import base list strings.

Local Open Scope Z_scope.

(** The number of instructions of a body, and of the longest one of a program. *)
Definition body_size (body : list instr) : nat := sum_list_with isize body.
Definition func_size (f : Func) : nat := match f with Code fd => body_size fd.(fd_body) | Host _ _ _ => 0 end.
Definition longest (P : Prog) : nat := max_list_with func_size P.(p_funcs).

Lemma func_size_le P f fd : index P.(p_funcs) f = Some (Code fd) → (body_size fd.(fd_body) ≤ longest P)%nat.
Proof.
  intros [_ H]%index_Some. unfold longest. revert H. generalize (Z.to_nat f). induction (p_funcs P) as [|g fs IH]; [done|].
  intros [|n]; simpl; [intros [= ->]; simpl; lia|]. intros H. specialize (IH n H). lia.
Qed.

Section lasts.
Context {WD : World} (M : HostModule).

(** Only a bound of the machine ends the run. *)
Definition bound_only (tr : Trace) (s : Status) (m : Machine) : Prop := exhausted s m.

Lemma bound_only_ends : ends bound_only.
Proof. by split; [|intros tr m H]. Qed.

Abbreviation goes := (goes M bound_only).
Abbreviation goes1 := (goes1 M bound_only).

Definition fine (e : sys_end) : Prop :=
  match e with
  | More _ _ => True
  | Halt s w m => ∃ tr, w = world tr ∧ exhausted s m
  | Broken => False
  end.

(** The machine takes [k] steps, unless a bound stops it. *)
Definition lasts (k : nat) (v : View) : Prop := ∀ m, sees m v → fine (sys M k (world (past v)) m).

Lemma fine_less j k w m : (j ≤ k)%nat → fine (sys M k w m) → fine (sys M j w m).
Proof.
  intros Hj. replace k with (j + (k - j))%nat by lia. rewrite sys_add. by destruct (sys M j w m).
Qed.

Lemma lasts_0 v : lasts 0 v.
Proof. done. Qed.

Lemma lasts_goes k v P : goes v P → (∀ v', P v' → lasts k v') → lasts k v.
Proof.
  intros Hg Hl m Hm. destruct (Hg m Hm) as [n Hn]. apply (fine_less _ (n + k)); [lia|]. rewrite sys_add.
  destruct (sys M n _ m); [|done..]. destruct Hn as (v' & Hm' & -> & HP). by apply (Hl v' HP).
Qed.

Lemma lasts_goes1 k v P : goes1 v P → (∀ v', P v' → lasts k v') → lasts (S k) v.
Proof.
  intros Hg Hl m Hm. destruct (Hg m Hm) as [n Hn]. apply (fine_less _ (S n + k)); [lia|]. rewrite sys_add.
  destruct (sys M (S n) _ m); [|done..]. destruct Hn as (v' & Hm' & -> & HP). by apply (Hl v' HP).
Qed.

Lemma lasts_goes1_eq k v v0 : (∀ Q, goes v0 Q → goes1 v Q) → lasts k v0 → lasts (S k) v.
Proof. intros Hg Hl. eapply lasts_goes1; [by apply Hg, (goes_here _ _ _ (eq v0))|]. by intros v' <-. Qed.
End lasts.

Section diverge.
Context (M : HostModule) (P : Prog) (HL : linked M P) {WD : World}.

Abbreviation HT := bound_only_ends.
Abbreviation run := (run P env_of).
Abbreviation call := (call P env_of).
Abbreviation goes := (goes M bound_only).
Abbreviation goes1 := (goes1 M bound_only).
Abbreviation lasts := (lasts M).
Abbreviation ready := (ready M P).
Abbreviation ops_at := (ops_at M.(hm_code)).
Abbreviation code_for E := (code_for E M.(hm_code) M.(hm_consts)).

(** Fuel that the reference semantics may use up before the next op. *)
Let W : nat := S (longest P).

Definition body_lasts (k : nat) : Prop := ∀ n E lo frs scr labs h body pc pc' st ls vs outer,
  (n * W + body_size body ≤ k)%nat → frs ≠ [] → ready E scr labs h pc st ls vs outer →
  forallb tree_ok body = true → code_for E labs h body pc pc' →
  run k body st ls vs = Timeout → lasts n (fv lo frs pc st (ls ++ scr) (vs ++ outer)).

Definition func_lasts (k : nat) : Prop := ∀ n f fd meta lo frs fr st ps,
  (n * W + W ≤ k)%nat → index P.(p_funcs) f = Some (Code fd) → index M.(hm_funcs) f = Some meta →
  fr.(fr_n_results) = fd.(fd_results) → store_ok M st → Forall in_u64 ps → len ps = fd.(fd_params) →
  call k f st ps = CTimeout →
  lasts n (mkView meta.(fm_code_off) (len lo) (frs ++ [fr])
    (lo ++ rev ps ++ replicate (Z.to_nat meta.(fm_n_locals)) 0) st).

(** ** Calls *)

(** A call, direct or through the table, whose callee is out of fuel. *)
Lemma callee_lasts k n f st vs lo fp frs pc v0 :
  func_lasts k → (n * W ≤ k)%nat → store_ok M st → Forall in_u64 vs →
  (∀ meta Q, index M.(hm_funcs) f = Some meta →
    does bound_only (enter meta) (mkView pc fp frs (lo ++ rev vs) st) (fun _ v => goes v Q) → goes1 v0 Q) →
  (∃ fd, index P.(p_funcs) f = Some (Code fd)) → call k f st vs = CTimeout → lasts n v0.
Proof using HL.
  intros IH Hn Hst Hvs Hin [fd Hf] Hc. destruct n as [|n]; [apply lasts_0|].
  destruct (lk_funcs _ _ HL f fd Hf) as (meta & E & p & Hmeta & Hcp). pose proof (cp_params _ _ _ _ _ _ Hcp) as (P1 & P2 & P3).
  pose proof (cp_results _ _ _ _ _ _ Hcp) as (R1 & R2 & R3).
  destruct (operands (Z.to_nat fd.(fd_params)) vs) as [ps|] eqn:Hps.
  2: { destruct k; [simpl in Hn; lia|]. simpl in Hc. rewrite Hf in Hc. unfold run_func in Hc. by rewrite Hps in Hc. }
  rewrite (call_over P _ _ _ _ _ _ Hf Hps) in Hc.
  assert (call k f st ps = CTimeout) as Hc' by (by destruct (call k f st ps)).
  apply operands_Some in Hps as [-> Hle].
  eapply (lasts_goes1_eq _ _ _ (start_of meta (Z.to_nat fd.(fd_params)) lo fp frs pc st vs)).
  - intros Q HQ. apply (Hin meta Q Hmeta). eapply (does_start M _ HT); [exact Hle|lia|exact HQ].
  - unfold start_of. cbv zeta. eapply (IH n f fd); [simpl in Hn; lia|exact Hf|exact Hmeta|exact R1|exact Hst|by apply Forall_take| |exact Hc'].
    unfold len. rewrite length_take. lia.
Qed.

Lemma basic_timeout k o st ls vs :
  run_basic P (call k) o st ls vs = Timeout →
  (∃ f, o = Call f ∧ call k f st vs = CTimeout) ∨
  (∃ ty i vs' f, o = CallIndirect ty 0 ∧ vs = i :: vs' ∧ table_func P (w32 i) ty = inl (Some f) ∧
    call k f st vs' = CTimeout).
Proof.
  intros H. destruct o; try (unfold run_basic in H; repeat case_match; done).
  - left. eexists. split; [done|]. simpl in H. by destruct (call k _ st vs).
  - right. destruct vs as [|i vs]; [simpl in H; by case_match|]. destruct table_index as [|p|p]; [|done..].
    simpl in H. destruct (table_func P (w32 i) _) as [[f|]|] eqn:Hf; [|done..].
    eexists _, i, vs, f. split_and!; [done|done|done|]. by destruct (call k f st vs).
Qed.

(** An operator whose callee is out of fuel: a host function never is. *)
Lemma op_lasts k n E lo frs scr labs h pc p1 st ls vs outer o r :
  func_lasts k → (n * W ≤ k)%nat → frs ≠ [] → ready E scr labs h pc st ls vs outer →
  op_code E M.(hm_code) M.(hm_consts) labs h o pc p1 r →
  run_basic P (call k) o st ls vs = Timeout → lasts n (fv lo frs pc st (ls ++ scr) (vs ++ outer)).
Proof using HL.
  intros IH Hn Hfrs Hrd Ho Ht. destruct n as [|n]; [apply lasts_0|].
  pose proof (rd_pc _ _ _ _ _ _ _ _ _ _ _ Hrd) as Hpc. pose proof (rd_good _ _ _ _ _ _ _ _ _ _ _ Hrd) as Hg.
  pose proof (rd_env _ _ _ _ _ _ _ _ _ _ _ Hrd) as Hev.
  destruct (basic_timeout _ _ _ _ _ Ht) as [(f & -> & Hc)|(ty & i & vs' & f & -> & -> & Htf & Hc)].
  - assert (∃ fd, index P.(p_funcs) f = Some (Code fd)) as [fd Hfd].
    { destruct k as [|k]; [simpl in Hn; lia|]. simpl in Hc. destruct (index _ f) as [[id np nr|fd]|]; [|by exists fd|done].
      unfold call_host in Hc. by repeat case_match. }
    destruct (ev_code _ _ Hev _ _ Hfd) as [Hni _].
    inversion Ho as [o' ops eff ? ? h' He _ Hops _ _| | | | | |]; subst. inversion He; subst; [by destruct_or?; simplify_eq/=..| |lia].
    eapply (callee_lasts k _ f st vs (lo ++ (ls ++ scr) ++ rev outer) (len lo) frs (pc + 1)); [exact IH|exact Hn|apply Hg|apply Hg| |by exists fd|exact Hc].
    rewrite <-fv_call. by apply (call_in M P HL _ HT).
  - destruct (table_func_code _ _ _ _ Htf) as (fd & _ & _ & _ & Hfd & _). apply good_pop in Hg as [_ Hg].
    inversion Ho as [o' ops eff ? ? h' He _ Hops _ _| | | | | |]; subst. inversion He; subst; [by simplify_eq/=..|].
    eapply (callee_lasts k _ f st vs' (lo ++ (ls ++ scr) ++ rev outer) (len lo) frs (pc + 1)); [exact IH|exact Hn|apply Hg|apply Hg| |by exists fd|exact Hc].
    rewrite <-fv_call. by eapply (indirect_in M P HL _ HT).
Qed.

(** ** Blocks *)

Lemma block_out_timeout n rest o : block_out n rest o = Timeout → o = Timeout.
Proof. destruct o as [| [|d] | | | | |]; simpl; unfold leave, land_on; by repeat case_match. Qed.

Lemma block_lasts k n E lo frs scr labs h pc p1 t st ls vs outer np nr base e body :
  body_lasts k → (n * W + body_size body ≤ k)%nat → frs ≠ [] → ready E scr labs h pc st ls vs outer →
  forallb tree_ok body = true → base = i32 (h - Z.of_nat np) → 0 ≤ nr →
  code_for E (mkLab t base nr e :: labs) h body pc p1 → (np ≤ length vs)%nat →
  run k body st ls (take np vs) = Timeout → lasts n (fv lo frs pc st (ls ++ scr) (vs ++ outer)).
Proof.
  intros IH Hn Hfrs Hrd Hok Hb Hnr Hcf Hnp Ht. rewrite <-(take_drop_app np vs outer).
  eapply IH; [exact Hn|exact Hfrs| |exact Hok|exact Hcf|exact Ht].
  eapply ready_block; [exact Hrd|done|exact Hb|done|by eapply rd_pc].
Qed.

Lemma run_block_lasts k n E lo frs scr labs h pc p1 t st ls vs outer np nr base e body :
  body_lasts k → (n * W + body_size body ≤ k)%nat → frs ≠ [] → ready E scr labs h pc st ls vs outer →
  forallb tree_ok body = true → base = i32 (h - Z.of_nat np) →
  code_for E (mkLab t base (Z.of_nat nr) e :: labs) h body pc p1 →
  run_block (run k) np nr body st ls vs = Timeout → lasts n (fv lo frs pc st (ls ++ scr) (vs ++ outer)).
Proof.
  intros IH Hn Hfrs Hrd Hok Hb Hcf Ht. unfold run_block in Ht. destruct (operands np vs) as [ps|] eqn:Hps; [|done].
  apply operands_Some in Hps as [-> Hnp]. apply block_out_timeout in Ht. 
  eapply block_lasts; [exact IH|exact Hn|exact Hfrs|exact Hrd|exact Hok|exact Hb|apply Nat2Z.is_nonneg|exact Hcf|exact Hnp|exact Ht].
Qed.

(** A loop turns back by an op. *)
Lemma run_loop_lasts k n E lo frs scr labs h pc p1 st ls vs outer ty np nr base e body :
  body_lasts k → (n * W + body_size body ≤ k)%nat → frs ≠ [] → ready E scr labs h pc st ls vs outer →
  forallb tree_ok body = true → base = i32 (h - Z.of_nat np) → Z.of_nat np ≤ h →
  block_arity ty E.(e_func_types) = Ok (Z.of_nat np, Z.of_nat nr) →
  code_for E (mkLab pc base (Z.of_nat np) e :: labs) h body pc p1 →
  run_loop (run k) (ILoop ty body) np nr body st ls vs = Timeout →
  lasts n (fv lo frs pc st (ls ++ scr) (vs ++ outer)).
Proof using HL.
  intros IH Hn Hfrs Hrd Hok Hb Hh Hba Hcf Ht. unfold run_loop in Ht.
  destruct (operands np vs) as [ps|] eqn:Hps; [|done]. apply operands_Some in Hps as [-> Hnp].
  destruct (run k body st ls (take np vs)) as [|[|d] st1 ls1 vs1| | | | |] eqn:Hrun;
    try by apply block_out_timeout in Ht.
  - destruct (operands np vs1) as [ps|] eqn:Hps1; [|done]. apply operands_Some in Hps1 as [-> Hnp1].
    destruct n as [|n]; [apply lasts_0|]. destruct (sims M P HL bound_only HT k) as [Hsim _].
    destruct (loop_back M P bound_only k E lo frs scr labs h pc p1 st ls vs outer np base e body st1 ls1 vs1)
      as (Hback & _ & Hrd2); try done.
    eapply lasts_goes1; [exact Hback|]. intros v (scr' & Hs' & ->).
    eapply IH; [|exact Hfrs|by apply Hrd2| | |exact Ht].
    + unfold body_size in *. simpl in *. lia.
    + simpl. by rewrite Hok.
    + eapply cf_loop; [exact Hba|exact Hh|exact Hb|exact Hcf|apply cf_nil].
  - eapply block_lasts; [exact IH|exact Hn|exact Hfrs|exact Hrd|exact Hok|exact Hb|apply Nat2Z.is_nonneg|exact Hcf|exact Hnp|exact Hrun].
Qed.

Lemma run_if_lasts k n E lo frs scr labs h h1 pc pt st ls vs outer np nr thn els :
  ready E scr labs h pc st ls vs outer → ops_at pc [mkCuOp OP_BR_IF_NOT 0 pt] → h1 = i32 (h - 1 + 0) →
  (∀ body pc1 vs1, 0 ≤ pc1 → (body = thn ∧ pc1 = pc + 1 ∨ els = Some body ∧ pc1 = pt) →
    ready E scr labs h1 pc1 st ls vs1 outer → run_block (run k) np nr body st ls vs1 = Timeout →
    lasts n (fv lo frs pc1 st (ls ++ scr) (vs1 ++ outer))) → 0 ≤ pt →
  run_if (run k) np nr thn els st ls vs = Timeout → lasts n (fv lo frs pc st (ls ++ scr) (vs ++ outer)).
Proof using HL.
  intros Hrd Hops -> IH Hpt Ht. destruct vs as [|c vs]; [done|]. pose proof (rd_pc _ _ _ _ _ _ _ _ _ _ _ Hrd) as Hpc.
  eapply lasts_goes; [by eapply (if_test_goes M P HL _ HT)|]. intros v <-. simpl in Ht. destruct (w32 c =? 0).
  - destruct els as [els|]; [eapply IH; [done|by right|by eapply ready_pop|exact Ht]|].
    unfold leave in Ht. by repeat case_match.
  - eapply IH; [lia|by left|eapply ready_pop; [exact Hrd|lia]|exact Ht].
Qed.

(** ** Bodies *)

Lemma instr_lasts k n E lo frs scr labs h i rest pc pc' st ls vs outer :
  body_lasts k → func_lasts k → (n * W + pred (isize i) ≤ k)%nat → frs ≠ [] → ready E scr labs h pc st ls vs outer →
  forallb tree_ok (i :: rest) = true → code_for E labs h (i :: rest) pc pc' →
  run_instr P (run k) (call k) i st ls vs = Timeout → lasts n (fv lo frs pc st (ls ++ scr) (vs ++ outer)).
Proof using HL.
  intros IHb IHf Hn Hfrs Hrd Hok Hcf Ht. pose proof (rd_env _ _ _ _ _ _ _ _ _ _ _ Hrd) as Hev.
  pose proof (rd_pc _ _ _ _ _ _ _ _ _ _ _ Hrd) as Hpc. simpl in Hok. rewrite ?andb_true_iff in Hok.
  inversion Hcf as [|? ? o ? ? p1 ? Ho ?|? ? o h1 ? ? p1 ? Ho Hcr
    |? ? ty body np nr base e ? ? p1 ? Hba Hnp Hb Hcb Hcr|? ? ty body np nr base e ? ? p1 ? Hba Hnp Hb Hcb Hcr
    |? ? h1 ty thn np nr base e ? ? p1 ? Hba H1 Hh1 Hnp Hb Hops Hct Hcr
    |? ? h1 ty thn els np nr base e ? ? p1 p2 ? Hba H1 Hh1 Hnp Hb Hops Hct Hbr Hce Hcr]; subst i; subst;
    simpl in Hn, Ht, Hok; rewrite ?andb_true_iff in Hok.
  1, 2: by eapply op_lasts; [exact IHf|lia|exact Hfrs|exact Hrd|exact Ho|exact Ht].
  all: destruct (arity (p_types P) ty) as [[n1 m1]|] eqn:Har; [|done];
    destruct (arity_agrees M P HL _ _ _ _ _ _ Hev Hba Har) as [-> ->].
  - eapply run_block_lasts; [exact IHb|exact Hn|exact Hfrs|exact Hrd|apply Hok|done|exact Hcb|exact Ht].
  - eapply run_loop_lasts; [exact IHb|exact Hn|exact Hfrs|exact Hrd|apply Hok|done|exact Hnp|exact Hba|exact Hcb|exact Ht].
  - pose proof (code_for_mono _ _ _ _ _ _ _ _ Hct).
    eapply run_if_lasts; [exact Hrd|exact Hops|done| |lia|exact Ht].
    destruct Hok as [[Hok1 _] _]. intros body pc1 vs1 _ [[-> ->]|[]] Hrd1 Ht1; [|done].
    eapply run_block_lasts; [exact IHb| |exact Hfrs|exact Hrd1|exact Hok1|done|exact Hct|exact Ht1]. unfold body_size. lia.
  - pose proof (code_for_mono _ _ _ _ _ _ _ _ Hct). pose proof (code_for_mono _ _ _ _ _ _ _ _ Hce).
    eapply run_if_lasts; [exact Hrd|exact Hops|done| |lia|exact Ht]. destruct Hok as [[Hok1 Hok2] _].
    intros body pc1 vs1 _ [[-> ->]|[[= <-] ->]] Hrd1 Ht1.
    + eapply run_block_lasts; [exact IHb| |exact Hfrs|exact Hrd1|exact Hok1|done|exact Hct|exact Ht1]. unfold body_size. lia.
    + rewrite i32_add_l, Z.sub_add, i32_idem in Hce.
      eapply run_block_lasts; [exact IHb| |exact Hfrs|exact Hrd1|exact Hok2|done|exact Hce|exact Ht1]. unfold body_size. lia.
Qed.

Lemma body_lasts_S k : body_lasts k → func_lasts k → body_lasts (S k).
Proof using HL.
  intros IHb IHf n E lo frs scr labs h [|i rest] pc pc' st ls vs outer Hn Hfrs Hrd Hok Hcf Ht; [done|].
  rewrite run_cons in Ht. change (body_size (i :: rest)) with (isize i + body_size rest)%nat in Hn.
  assert (0 < isize i)%nat as Hi by (destruct i; simpl; lia). destruct (sims M P HL bound_only HT k) as [Hsb Hsf].
  destruct (instr_sim M P HL bound_only HT k E lo frs scr labs h i rest pc pc' st ls vs outer Hsb Hsf Hfrs Hrd Hok Hcf)
    as (p1 & Hp1 & Ho & Hrest). cbv zeta in *.
  destruct (run_instr P (run k) (call k) i st ls vs) as [st1 ls1 vs1| | | | | |] eqn:Hr; try done.
  - destruct Ho as (Hgo & Hg & Hl). eapply lasts_goes; [exact Hgo|]. intros v (scr' & Hs' & ->).
    eapply IHb; [|exact Hfrs| | |by eapply Hrest|exact Ht].
    + lia.
    + by eapply ready_again.
    + simpl in Hok. by apply andb_true_iff in Hok as [_ ?].
  - eapply instr_lasts; [exact IHb|exact IHf| |exact Hfrs|exact Hrd|exact Hok|exact Hcf|exact Hr]. lia.
Qed.

(** ** Functions *)

Lemma func_out_timeout k nr o :
  func_out P (call k) nr [] o = CTimeout →
  o = Timeout ∨ ∃ g st vs fd, o = Tail g st vs ∧ index P.(p_funcs) g = Some (Code fd) ∧ fd.(fd_results) = nr ∧
    (Z.to_nat fd.(fd_params) ≤ length vs)%nat ∧ call k g st (take (Z.to_nat fd.(fd_params)) vs) = CTimeout.
Proof.
  destruct o as [|[|d]| |g st vs| | |]; simpl; try (by repeat case_match); [|by left]. intros H. right.
  destruct (index _ g) as [[|fd]|] eqn:Hg; [done| |done]. destruct (_ =? nr) eqn:Hnr; [|done].
  destruct (operands _ vs) as [ps|] eqn:Hps; [|done]. apply operands_Some in Hps as [-> Hle].
  exists g, st, vs, fd. split_and!; [done|done|lia|done|]. by destruct (call k g st _).
Qed.

Lemma func_lasts_S k : body_lasts k → func_lasts k → func_lasts (S k).
Proof using HL.
  intros IHb IHf n f fd meta lo frs fr st ps Hn Hfd Hmeta Hfr Hst Hps Hlen Ht.
  pose proof (func_size_le _ _ _ Hfd) as Hsize. assert (n * W + longest P ≤ k)%nat as Hn' by (unfold W in *; lia).
  destruct (lk_funcs _ _ HL f fd Hfd) as (meta' & E & p & Hmeta' & Hc). rewrite Hmeta in Hmeta'. injection Hmeta' as <-.
  destruct (call_start M P k f fd meta E p lo frs fr st ps) as (ls & scr & Hcall & Hrd & ->); try done.
  rewrite Hcall in Ht. assert (frs ++ [fr] ≠ []) as Hfrs by (by destruct frs).
  destruct (func_out_timeout _ _ _ Ht) as [Hb|(g & st1 & vs & fd' & Hb & Hfd' & Hres & Hle & Hc')].
  - eapply IHb; [|exact Hfrs|exact Hrd|apply Hc|apply Hc|exact Hb]. lia.
  - destruct n as [|n]; [apply lasts_0|]. destruct (sims M P HL bound_only HT k) as [Hsim _].
    pose proof (Hsim E lo (frs ++ [fr]) scr _ 0 fd.(fd_body) meta.(fm_code_off) p st ls [] [] Hfrs Hrd
      (cp_tree _ _ _ _ _ _ Hc) (cp_code _ _ _ _ _ _ Hc)) as Ho. rewrite Hb in Ho. destruct Ho as (Hst1 & Hvs & Hgo).
    destruct (lk_funcs _ _ HL _ _ Hfd') as (meta' & E' & p' & Hmeta' & Hcp').
    destruct (cp_params _ _ _ _ _ _ Hcp') as (P1 & _ & P3). destruct (cp_results _ _ _ _ _ _ Hcp') as (R1' & _).
    set (qs := take (Z.to_nat fd'.(fd_params)) vs) in *.
    assert (len qs = fd'.(fd_params)) as Hqs by (unfold qs, len; rewrite length_take; lia).
    eapply lasts_goes; [apply (Hgo fd' Hfd'); unfold len; lia|]. intros v Hv.
    eapply lasts_goes1_eq; [intros Q HQ; eapply (tail_goes M P HL _ HT); [exact Hv|exact Hmeta'|by rewrite P1|congruence|exact HQ]|].
    eapply (IHf n g fd'); [unfold W in *; lia|exact Hfd'|exact Hmeta'|congruence|exact Hst1|by apply Forall_take|exact Hqs|exact Hc'].
Qed.

Lemma lasting k : body_lasts k ∧ func_lasts k.
Proof using HL.
  induction k as [|k [IHb IHf]]; [|split; [by apply body_lasts_S|by apply func_lasts_S]].
  split; intros n; intros; (destruct n as [|n]; [apply lasts_0|unfold W in *; lia]).
Qed.
End diverge.
