(* ===== verification/LowerTyped.v ===== *)
(** * Lowered code has a typing

    The code of a body that is typed has heights the verifier accepts: they are those of
    the body's operands, with a label's target at the height its block starts or ends
    with.  Built span by span ([cover]), as the code is. *)

From S2P Require Import Prelude Cuop Wasm Lower EnvTable Module ModuleSteps Engine EngineNum.
From S2P Require Import Verify VerifyFacts VerifyComplete EngineInv LowerInv Structured WasmProgram StackTyping.
From S2P Require Import Backpatch LowerTree LowerBack ModuleTables LowerBasic LowerSim LowerOutcome LowerCalls LowerCorrect.
From stdpp Require Import base gmap list strings.

Local Open Scope Z_scope.

(** ** Covers *)

Section cover.
Context (M : HostModule) (f : FuncMetaC).

(** At the op [pc] with height [h] the checks pass, and the heights of its successors
    are in [R]. *)
Definition op_typed (R : Z → Z → Prop) (pc h : Z) : Prop :=
  0 ≤ h ∧ f.(fm_n_params) + f.(fm_n_locals) + h ≤ 65535 ∧
  ∃ in_ e, index M.(hm_code) pc = Some in_ ∧ effect M f in_ h = Ok e ∧ index_checks M f in_ = Ok tt ∧
    (∀ t th, e.(jump) = Some (t, th) → R (f.(fm_code_off) + t) th) ∧
    (e.(falls) = true → R (pc + 1) e.(next_h)).

(** Heights [G] for the code from [pc] to [pc'], entered with height [h] and left at its
    end with height [r], if at all; other exits are in [X]. *)
Record covers (X : Z → Z → Prop) (pc h pc' : Z) (r : option Z) (G : gmap Z Z) : Prop := {
  cv_le : pc ≤ pc';
  cv_dom : ∀ q y, G !! q = Some y → pc ≤ q < pc';
  cv_entry : G !! pc = Some h ∨ pc = pc' ∧ r = Some h;
  cv_ops : ∀ q y, G !! q = Some y →
    op_typed (λ p x, G !! p = Some x ∨ X p x ∨ p = pc' ∧ r = Some x) q y }.

Definition cover X pc h pc' r : Prop := ∃ G, covers X pc h pc' r G.

Lemma op_typed_mono (R R' : Z → Z → Prop) pc h :
  op_typed R pc h → (∀ q y, R q y → R' q y) → op_typed R' pc h.
Proof.
  intros (H0 & H1 & in_ & e & H2 & H3 & H4 & H5 & H6) HR. split_and!; [done..|].
  exists in_, e. split_and!; auto.
Qed.

Lemma cover_nil X pc h : cover X pc h pc (Some h).
Proof. exists ∅. split; [done|intros ??; by rewrite lookup_empty|by right|intros ??; by rewrite lookup_empty]. Qed.

Lemma cover_one (X : Z → Z → Prop) pc h r :
  op_typed (λ p x, X p x ∨ p = pc + 1 ∧ r = Some x) pc h → cover X pc h (pc + 1) r.
Proof.
  intros Ho. exists {[pc := h]}. split; [lia|..].
  - intros q y [<- <-]%lookup_singleton_Some. lia.
  - left. by apply lookup_singleton_Some.
  - intros q y [<- <-]%lookup_singleton_Some. eapply op_typed_mono; [exact Ho|]. simpl. auto.
Qed.

(** Exits at the end may be the end's. *)
Lemma cover_mono (X X' : Z → Z → Prop) pc h pc' r r' :
  cover X pc h pc' r → (∀ q y, X q y → X' q y ∨ q = pc' ∧ r' = Some y) → r = None ∨ r = r' →
  cover X' pc h pc' r'.
Proof.
  intros [G [L D N O]] HX Hr. exists G. split; [done|done|..].
  - destruct N as [?|[? ->]]; [by left|]. destruct Hr as [?|<-]; [done|by right].
  - intros q y Hq. eapply op_typed_mono; [by apply O|]. simpl. intros p x [?|[Hx|[? ->]]]; auto.
    destruct Hr as [?|<-]; [done|auto].
Qed.

Lemma cover_seq (X1 X : Z → Z → Prop) pc h p1 h1 pc' r :
  cover X1 pc h p1 (Some h1) → cover X p1 h1 pc' r → (∀ q y, X1 q y → X q y ∨ q = p1 ∧ y = h1) →
  cover X pc h pc' r.
Proof.
  intros [G1 [L1 D1 N1 O1]] [G2 [L2 D2 N2 O2]] HX. exists (G1 ∪ G2).
  assert (∀ q y, G2 !! q = Some y → (G1 ∪ G2) !! q = Some y) as HG2.
  { intros q y Hq. rewrite lookup_union_r; [done|]. destruct (G1 !! q) as [x|] eqn:Hx; [|done].
    apply D1 in Hx. apply D2 in Hq. lia. }
  assert (∀ q y, G1 !! q = Some y → (G1 ∪ G2) !! q = Some y) as HG1 by (intros; by apply lookup_union_Some_l).
  assert ((G1 ∪ G2) !! p1 = Some h1 ∨ p1 = pc' ∧ r = Some h1) as Hmid
    by (destruct N2 as [?|?]; [left; by apply HG2|by right]).
  split; [lia|..].
  - intros q y [Hq|[_ Hq]]%lookup_union_Some_raw; [apply D1 in Hq|apply D2 in Hq]; lia.
  - destruct N1 as [?|[-> [= ->]]]; [left; by apply HG1|done].
  - intros q y [Hq|[_ Hq]]%lookup_union_Some_raw.
    + eapply op_typed_mono; [by apply O1|]. simpl. intros p x [?|[Hx|[-> [= <-]]]]; [left; by apply HG1| |].
      * destruct (HX _ _ Hx) as [?|[-> ->]]; [auto|]. destruct Hmid; auto.
      * destruct Hmid; auto.
    + eapply op_typed_mono; [by apply O2|]. simpl. intros p x [?|?]; [left; by apply HG2|auto].
Qed.

(** A loop may exit to its start. *)
Lemma cover_loop (X1 X : Z → Z → Prop) pc h pc' r :
  cover X1 pc h pc' r → (∀ q y, X1 q y → X q y ∨ q = pc ∧ y = h) → cover X pc h pc' r.
Proof.
  intros [G [L D N O]] HX. exists G. split; [done|done|done|].
  intros q y Hq. eapply op_typed_mono; [by apply O|]. simpl. intros p x [?|[Hx|?]]; auto.
  destruct (HX _ _ Hx) as [?|[-> ->]]; [auto|]. destruct N as [?|[-> _]]; [auto|]. apply D in Hq. lia.
Qed.

(** Code no control gets to may follow. *)
Lemma cover_extend X pc h p1 pc' : cover X pc h p1 None → p1 ≤ pc' → cover X pc h pc' None.
Proof.
  intros [G [L D N O]] Hle. exists G. split; [lia|..].
  - intros q y Hq. apply D in Hq. lia.
  - destruct N as [?|[_ ?]]; [by left|done].
  - intros q y Hq. eapply op_typed_mono; [by apply O|]. simpl. intros p x [?|[?|[_ ?]]]; auto. done.
Qed.

(** A cover without exits is a typing of the function. *)
Lemma cover_typable :
  cover (λ _ _, False) f.(fm_code_off) 0 (f.(fm_code_off) + f.(fm_code_len)) None →
  ∃ H, typed M f H ∧ in_bounds f H.
Proof.
  intros [G [L D N O]]. set (H := (λ i, default (-1) (G !! (f.(fm_code_off) + Z.of_nat i))) <$> seq 0 (Z.to_nat f.(fm_code_len))).
  assert (∀ rel, index H rel = if (0 <=? rel) && (rel <? f.(fm_code_len))
    then Some (default (-1) (G !! (f.(fm_code_off) + rel))) else None) as Hidx.
  { intros rel. unfold index, H. destruct (0 <=? rel) eqn:H0; [|done]. simpl. rewrite list_lookup_fmap.
    destruct (rel <? f.(fm_code_len)) eqn:Hlt.
    - rewrite lookup_seq_lt by lia. simpl. rewrite Z2Nat.id by lia. done.
    - rewrite lookup_seq_ge by lia. done. }
  assert (∀ rel h, index H rel = Some h → 0 ≤ h → G !! (f.(fm_code_off) + rel) = Some h) as HG.
  { intros rel h Hi Hh. rewrite Hidx in Hi. destruct (_ && _); [|done]. injection Hi as Hi.
    destruct (G !! (f.(fm_code_off) + rel)) as [x|]; simpl in Hi; [by subst|lia]. }
  assert (∀ q h, G !! q = Some h → index H (q - f.(fm_code_off)) = Some h ∧ 0 ≤ h) as HG'.
  { intros q h Hq. pose proof (D _ _ Hq). destruct (O _ _ Hq) as [? _]. split; [|done].
    rewrite Hidx. replace ((0 <=? _) && _) with true by lia.
    replace (f.(fm_code_off) + (q - f.(fm_code_off))) with q by lia. by rewrite Hq. }
  exists H. split.
  - split_and!.
    + unfold H, len. rewrite length_fmap, length_seq. lia.
    + destruct N as [Hn|[_ ?]]; [|done]. apply HG' in Hn as [Hn _]. by rewrite Z.sub_diag in Hn.
    + intros rel h Hi Hh. apply (HG _ _ Hi) in Hh. destruct (O _ _ Hh) as (_ & _ & in_ & e & H2 & H3 & H4 & H5 & H6).
      exists in_, e. split_and!; [done..| |].
      * intros t th Hj. destruct (H5 t th Hj) as [Hq|[?|[_ ?]]]; [|done..]. apply HG' in Hq.
        by replace (f.(fm_code_off) + t - f.(fm_code_off)) with t in Hq by lia.
      * intros Hf. destruct (H6 Hf) as [Hq|[?|[_ ?]]]; [|done..]. apply HG' in Hq.
        by replace (f.(fm_code_off) + rel + 1 - f.(fm_code_off)) with (rel + 1) in Hq by lia.
  - intros rel h Hi. destruct (decide (0 ≤ h)) as [Hh|].
    + apply (HG _ _ Hi) in Hh. by destruct (O _ _ Hh) as (_ & ? & _).
    + destruct N as [Hn|[_ ?]]; [|done]. destruct (O _ _ Hn) as (? & ? & _). lia.
Qed.
End cover.

(** ** Ops *)

Lemma plain_row o opc p q :
  plain_op o = Some (opc, p, q) →
  ∃ e, op_lookup opc height_table = Some (p, q - p, e) ∧
    negb (opc =? OP_LOCAL_GET) && negb (opc =? OP_LOCAL_SET) && negb (opc =? OP_I64_CONST) = true.
Proof. destruct o; try discriminate; intros [= <- <- <-]; eexists; (split; vm_compute; reflexivity). Qed.

Lemma plain_effect P nl o opc p q : plain_op o = Some (opc, p, q) → stack_effect P nl o = Some (p, q).
Proof. by destruct o; try discriminate; intros [= <- <- <-]. Qed.

Section lowered.
Context (M : HostModule) (P : Prog) (HL : linked M P).
Context (fd : FuncDef) (meta : FuncMetaC) (E : FnEnv) (pe : Z) (HC : compiled M P fd meta E pe).
Context (Hroom : 0 ≤ stack_room fd).

Abbreviation room := (stack_room fd).
Abbreviation nl := (fd.(fd_params) + fd.(fd_locals)).
Abbreviation off := meta.(fm_code_off).
Abbreviation cover := (cover M meta).
Abbreviation op_typed := (op_typed M meta).
Abbreviation ops_at := (ops_at M.(hm_code)).

(** The frame: the program's locals, and one more if a [br_table] needs it. *)
Lemma frame_size :
  0 ≤ meta.(fm_n_params) ∧ 0 ≤ fd.(fd_locals) ≤ meta.(fm_n_locals) ∧ meta.(fm_n_params) = fd.(fd_params) ∧
  E.(e_n_params) = meta.(fm_n_params) ∧ E.(e_n_locals) = meta.(fm_n_locals) ∧
  meta.(fm_n_params) + meta.(fm_n_locals) + room + 1 ≤ 65535.
Proof using HC Hroom.
  destruct (cp_params _ _ _ _ _ _ HC) as (P1 & P2 & P3). destruct (cp_nlocals _ _ _ _ _ _ HC) as [N1 N2].
  pose proof (cp_locals _ _ _ _ _ _ HC) as Hl. unfold stack_room in *. destruct (e_scratch E); lia.
Qed.

Lemma in_slots h : h ≤ room + 1 → meta.(fm_n_params) + meta.(fm_n_locals) + h ≤ 65535.
Proof using HC Hroom. destruct frame_size as (_ & _ & _ & _ & _ & ?). lia. Qed.

Lemma fetch pc (i : nat) ops op : 0 ≤ pc → ops_at pc ops → ops !! i = Some op → index M.(hm_code) (pc + Z.of_nat i) = Some op.
Proof. intros Hpc Ho Hi. apply index_Some. split; [lia|]. rewrite Z2Nat.inj_add, Nat2Z.id by lia. by apply Ho. Qed.

Lemma fetch_one pc op ops : 0 ≤ pc → ops_at pc (op :: ops) → index M.(hm_code) pc = Some op.
Proof. intros Hpc Ho. rewrite <-(Z.add_0_r pc). by apply (fetch pc 0 (op :: ops)). Qed.

(** The three ops with an index to check, and the others. *)
Lemma checks_other op a b :
  negb (op =? OP_LOCAL_GET) && negb (op =? OP_LOCAL_SET) && negb (op =? OP_I64_CONST) = true →
  index_checks M meta (mkCuOp op a b) = Ok tt.
Proof. rewrite !andb_true_iff. intros [[H1 H2] H3]. unfold index_checks. simpl. by rewrite H1, H2, H3. Qed.

Lemma checks_local op a b :
  op = OP_LOCAL_GET ∨ op = OP_LOCAL_SET → a < meta.(fm_n_params) + meta.(fm_n_locals) →
  index_checks M meta (mkCuOp op a b) = Ok tt.
Proof using HC Hroom.
  intros Hop Ha. destruct frame_size as (? & ? & _ & _ & _ & ?). unfold index_checks. simpl.
  rewrite u16_id by lia. rewrite (proj2 (Z.ltb_lt _ _) Ha). by destruct Hop as [-> | ->].
Qed.

Lemma checks_const a idx : idx < len M.(hm_consts) → index_checks M meta (mkCuOp OP_I64_CONST a idx) = Ok tt.
Proof. intros Hi. unfold index_checks. simpl. by rewrite (proj2 (Z.ltb_lt _ _) Hi). Qed.

(** An op of the height table. *)
Lemma cover_row X pc h op a b p net e :
  0 ≤ pc → ops_at pc [mkCuOp op a b] → op_lookup op height_table = Some (p, net, e) →
  index_checks M meta (mkCuOp op a b) = Ok tt → p ≤ h → 0 ≤ h ≤ room + 1 →
  cover X pc h (pc + 1) (Some (h + net)).
Proof using HC Hroom.
  intros Hpc Ho Hrow Hck Hp Hh. apply cover_one. split_and!; [lia|apply in_slots; lia|].
  exists (mkCuOp op a b), (mkEffect (h + net) true None). split_and!; [by eapply fetch_one| |done|done|by right].
  unfold effect. cbn [cu_op]. rewrite Hrow. simpl. by rewrite (proj2 (Z.leb_le _ _) Hp).
Qed.

(** An op that control does not pass. *)
Lemma cover_last (X : Z → Z → Prop) pc h in_ :
  0 ≤ pc → ops_at pc [in_] → 0 ≤ h ≤ room + 1 →
  effect M meta in_ h = Ok (mkEffect h false None) → index_checks M meta in_ = Ok tt → cover X pc h (pc + 1) None.
Proof using HC Hroom.
  intros Hpc Ho Hh He Hck. apply cover_one. split_and!; [lia|apply in_slots; lia|].
  exists in_, (mkEffect h false None). split_and!; [by eapply fetch_one|done..].
Qed.

(** *** Branches *)

Definition in_span (t : Z) : Prop := off ≤ t ≤ pe.

Definition lab_in (l : Lab) : Prop :=
  in_span l.(l_target) ∧ 0 ≤ l.(l_base) ∧ 0 ≤ l.(l_arity) ∧ l.(l_base) + l.(l_arity) ≤ room.

(** Where branches go, with the height they leave. *)
Definition gotos (labs : list Lab) (q y : Z) : Prop :=
  ∃ l, l ∈ labs ∧ q = l.(l_target) ∧ y = l.(l_base) + l.(l_arity).

Lemma target_in_span t : in_span t → target_in meta t = true.
Proof using HC. unfold in_span, target_in. rewrite (cp_len _ _ _ _ _ _ HC). lia. Qed.

Lemma cover_br (X : Z → Z → Prop) pc h t :
  0 ≤ pc → ops_at pc [mkCuOp OP_BR 0 t] → 0 ≤ h ≤ room + 1 → in_span t → X t h → cover X pc h (pc + 1) None.
Proof using HC Hroom.
  intros Hpc Ho Hh Ht HX. apply cover_one. split_and!; [lia|apply in_slots; lia|].
  exists (mkCuOp OP_BR 0 t), (mkEffect h false (Some (t - off, h))).
  split_and!; [by eapply fetch_one| |done| |done].
  - unfold effect. simpl. unfold br_effect. by rewrite target_in_span.
  - simpl. intros ?? [= <- <-]. left. by replace (off + (t - off)) with t by lia.
Qed.

Lemma cover_br_if_not (X : Z → Z → Prop) pc h t :
  0 ≤ pc → ops_at pc [mkCuOp OP_BR_IF_NOT 0 t] → 1 ≤ h ≤ room + 1 → in_span t → X t (h - 1) →
  cover X pc h (pc + 1) (Some (h - 1)).
Proof using HC Hroom.
  intros Hpc Ho Hh Ht HX. apply cover_one. split_and!; [lia|apply in_slots; lia|].
  exists (mkCuOp OP_BR_IF_NOT 0 t), (mkEffect (h - 1) true (Some (t - off, h - 1))).
  split_and!; [by eapply fetch_one| |done| |by right].
  - unfold effect. simpl. unfold br_if_not_effect. rewrite (proj2 (Z.leb_le 1 h)) by lia. simpl. by rewrite target_in_span.
  - simpl. intros ?? [= <- <-]. left. by replace (off + (t - off)) with t by lia.
Qed.

Lemma cover_unwind X pc h a dest :
  0 ≤ pc → ops_at pc [mkCuOp OP_UNWIND a (u32 (E.(e_n_params) + E.(e_n_locals) + u32 dest))] →
  0 ≤ dest ≤ h → h ≤ room + 1 → cover X pc h (pc + 1) (Some dest).
Proof using HC Hroom.
  intros Hpc Ho Hd Hh. destruct frame_size as (F1 & F2 & F3 & F4 & F5 & F6).
  apply cover_one. split_and!; [lia|apply in_slots; lia|].
  eexists _, (mkEffect dest true None). split_and!; [by eapply fetch_one| |done|done|by right].
  unfold effect. simpl. unfold unwind_effect. rewrite F4, F5, (u32_id dest), u32_id, i32_id by lia.
  replace (_ - _ - _) with dest by lia. rewrite !(proj2 (Z.leb_le _ _)) by lia. done.
Qed.

Lemma cover_jump labs pc h d l :
  Forall lab_in labs → label_ok labs h d l → 0 ≤ pc → ops_at pc (jump_ops E h l) → 0 ≤ h ≤ room + 1 →
  cover (gotos labs) pc h (pc + len (jump_ops E h l)) None.
Proof using HC Hroom.
  intros Hlabs [Hl Hle] Hpc Ho Hh. pose proof (Forall_lookup_1 _ _ _ _ Hlabs Hl) as (L1 & L2 & L3 & L4).
  destruct frame_size as (F1 & F2 & _ & _ & _ & F6).
  rewrite i32_id in Hle by lia. assert (gotos labs l.(l_target) (l.(l_base) + l.(l_arity))) as Hgo.
  { exists l. split_and!; [by eapply list_elem_of_lookup_2|done..]. }
  unfold jump_ops, unwind_ops in *. rewrite i32_id in * by lia. destruct (_ <? h) eqn:Hlt; simpl in Ho |- *.
  - apply (ops_at_app _ pc [_]) in Ho as [Ho1 Ho2]; [|done]. change (len [_; _]) with 2.
    replace (pc + 2) with (pc + 1 + 1) by lia.
    eapply (cover_seq _ _ (gotos labs)); [eapply cover_unwind; [done|exact Ho1|lia|lia]| |auto].
    eapply cover_br; [lia|exact Ho2|lia|done|done].
  - change (len [_]) with 1. replace (l.(l_base) + l.(l_arity)) with h in Hgo by lia. by eapply cover_br.
Qed.

(** A conditional branch; it tests the top of the stack. *)
Lemma cover_skip labs pc h d l :
  Forall lab_in labs → label_ok labs h d l → off ≤ pc → ops_at pc (skip_ops E pc h l) → 0 ≤ h ≤ room →
  pc + 1 + len (jump_ops E h l) ≤ pe →
  cover (gotos labs) pc (h + 1) (pc + 1 + len (jump_ops E h l)) (Some h).
Proof using HC Hroom.
  intros Hlabs Hl Hpc Ho Hh Hpe. pose proof (cp_off _ _ _ _ _ _ HC). pose proof (len_nonneg (jump_ops E h l)).
  set (t := pc + 1 + len (jump_ops E h l)) in *. unfold skip_ops in Ho. fold t in Ho.
  apply (ops_at_app _ pc [_]) in Ho as [Ho1 Ho2]; [|lia]. change (len [_]) with 1 in Ho2.
  set (X := λ q y, gotos labs q y ∨ q = t ∧ y = h).
  eapply (cover_mono _ _ X _ _ _ _ (Some h)); [|intros q y [?|[-> ->]]; auto|by right].
  eapply (cover_seq _ _ X); [eapply cover_br_if_not; [lia|exact Ho1|lia|unfold in_span; lia|]| |auto].
  - right. split; [done|lia].
  - replace (h + 1 - 1) with h by lia. eapply (cover_mono _ _ (gotos labs)); [|unfold X; auto|by left].
    apply (cover_jump labs _ h d l); [done|done|lia|done|lia].
Qed.
(** The tests of a [br_table]. *)
Lemma scratch_in_frame sc : E.(e_scratch) = Some sc → sc < meta.(fm_n_params) + meta.(fm_n_locals).
Proof using HC Hroom.
  intros Hsc. destruct frame_size as (F1 & F2 & F3 & F4 & F5 & F6). pose proof (cp_locals _ _ _ _ _ _ HC) as Hl.
  rewrite Hsc in Hl. destruct Hl as [L1 ->]. rewrite u16_id; lia.
Qed.

Lemma cover_table labs h sc i ds pc pc' :
  table_code E M.(hm_code) M.(hm_consts) labs h sc i ds pc pc' → Forall lab_in labs →
  sc < meta.(fm_n_params) + meta.(fm_n_locals) → off ≤ pc → pc' ≤ pe → 0 ≤ h → h + 1 ≤ room →
  cover (gotos labs) pc h pc' (Some h).
Proof using HC Hroom.
  intros HT Hlabs Hsc Hpc Hpe H0 Hh. pose proof (cp_off _ _ _ _ _ _ HC).
  induction HT as [i pc|i d ds pc pc' l idx Hl Hi Hidx Ho HT IH]; [apply cover_nil|].
  pose proof (table_code_mono _ _ _ _ _ _ _ _ _ _ HT). pose proof (len_nonneg (jump_ops E h l)).
  apply (ops_at_app _ pc [_; _; _]) in Ho as [Ho Hskip]; [|lia]. change (len [_; _; _]) with 3 in Hskip.
  apply (ops_at_app _ pc [_]) in Ho as [O1 Ho]; [|lia]. change (len [_]) with 1 in Ho.
  apply (ops_at_app _ (pc + 1) [_]) in Ho as [O2 O3]; [|lia]. change (len [_]) with 1 in O3.
  eapply (cover_seq _ _ (gotos labs)); [|apply IH; lia|auto]. replace (pc + 4 + _) with (pc + 3 + 1 + len (jump_ops E h l)) by lia.
  eapply (cover_seq _ _ (gotos labs) _ pc h (pc + 1) (h + 1)); [|clear O1|auto].
  { eapply cover_row; [lia|exact O1|reflexivity|apply checks_local; [by left|done]|lia|lia]. }
  eapply (cover_seq _ _ (gotos labs) _ _ _ (pc + 1 + 1) (h + 2)); [|clear O2|auto].
  { replace (h + 2) with (h + 1 + 1) by lia. eapply cover_row; [lia|exact O2|reflexivity| |lia|lia].
    apply checks_const. apply lookup_lt_Some in Hidx. unfold len. lia. }
  eapply (cover_seq _ _ (gotos labs) _ _ _ (pc + 1 + 1 + 1) (h + 1)); [|clear O3|auto].
  { replace (h + 1) with (h + 2 + -1) by lia. eapply cover_row; [lia|exact O3|reflexivity|done|lia|lia]. }
  replace (pc + 1 + 1 + 1) with (pc + 3) by lia. eapply cover_skip; [done|done|lia|done|lia|lia].
Qed.

(** *** Operators *)

Lemma const_effect o v : const_op o = Some v → stack_effect P nl o = Some (0, 1).
Proof. by destruct o. Qed.

Lemma load_effect o r : load_op o = Some r → stack_effect P nl o = Some (1, 1).
Proof. by destruct o. Qed.

Lemma store_effect o r : store_op o = Some r → stack_effect P nl o = Some (2, 0).
Proof. by destruct o. Qed.

(** A function's signature is that of its record. *)
Lemma callee_signature f np nr s :
  func_arity f E.(e_func_types) E.(e_func_typeidx) = Ok (np, nr) → E.(e_n_imports) ≤ f → signature P f = Some s →
  s = (np, nr) ∧ ∃ g, index M.(hm_funcs) f = Some g ∧ g.(fm_n_params) = np ∧ g.(fm_n_results) = nr.
Proof using HL HC.
  intros Har Hf Hs. pose proof (cp_env _ _ _ _ _ _ HC) as Hev. unfold signature in Hs.
  destruct (index (p_funcs P) f) as [[id np' nr'|g]|] eqn:Hi; [|injection Hs as <-|done].
  - destruct (ev_host _ _ Hev _ _ _ _ Hi) as [? _]. lia.
  - destruct (ev_code _ _ Hev _ _ Hi) as [_ Hg]. destruct (Hg _ _ Har) as [-> ->]. split; [done|].
    destruct (lk_funcs _ _ HL _ _ Hi) as (mg & Eg & p & Hmg & Hcg). exists mg.
    destruct (cp_params _ _ _ _ _ _ Hcg) as [? _], (cp_results _ _ _ _ _ _ Hcg) as [? _].
    destruct (Hg _ _ Har). split_and!; congruence.
Qed.

Lemma host_signature f np nr s :
  func_arity f E.(e_func_types) E.(e_func_typeidx) = Ok (np, nr) → f < E.(e_n_imports) → signature P f = Some s →
  s = (np, nr) ∧ 0 ≤ np ≤ 8 ∧ 0 ≤ nr ≤ 8.
Proof using HC.
  intros Har Hf Hs. pose proof (cp_env _ _ _ _ _ _ HC) as Hev. unfold signature in Hs.
  destruct (index (p_funcs P) f) as [[id np' nr'|g]|] eqn:Hi; [injection Hs as <-| |done].
  - destruct (ev_host _ _ Hev _ _ _ _ Hi) as (_ & _ & Hh). destruct (Hh _ _ Har) as (-> & -> & ? & ?).
    unfold func_arity in Har. destruct (_ !! _) as [t|]; [|done]. destruct (_ !! _) as [ft|]; [|done]. injection Har as <- <-.
    pose proof (u16_range (len ft.1)). pose proof (u16_range (len ft.2)). split_and!; [done|lia..].
  - destruct (ev_code _ _ Hev _ _ Hi) as [? _]. lia.
Qed.
(** A call, with the effect the verifier computes. *)
Lemma cover_call X pc h in_ np nr :
  0 ≤ pc → ops_at pc [in_] → 0 ≤ h ≤ room → effect M meta in_ h = Ok (mkEffect (h - np + nr) true None) →
  index_checks M meta in_ = Ok tt → cover X pc h (pc + 1) (Some (h - np + nr)).
Proof using HC Hroom.
  intros Hpc Ho Hh He Hck. apply cover_one. split_and!; [lia|apply in_slots; lia|].
  exists in_, (mkEffect (h - np + nr) true None). split_and!; [by eapply fetch_one|done|done|done|by right].
Qed.

Lemma cover_emits X o ops eff pc h p q :
  emits E M.(hm_consts) o ops eff → stack_effect P nl o = Some (p, q) → p ≤ h → 0 ≤ h ≤ room → 0 ≤ h - p + q ≤ room →
  0 ≤ pc → ops_at pc ops → cover X pc h (pc + len ops) (Some (h - p + q)) ∧ height_after h eff = h - p + q.
Proof using HL HC Hroom.
  intros He Hs Hp Hh Hq Hpc Ho. destruct frame_size as (F1 & F2 & F3 & F4 & F5 & F6).
  assert (∀ a b, (a, b) = (p, q) → i32 (h - a + b) = h - p + q) as Hi by (intros a b [= -> ->]; apply i32_id; lia).
  assert (∀ op a b e, ops_at pc [mkCuOp op a b] → op_lookup op height_table = Some (p, q - p, e) →
    index_checks M meta (mkCuOp op a b) = Ok tt → cover X pc h (pc + 1) (Some (h - p + q))) as Hrow.
  { intros op a b e H1 H2 H3. replace (h - p + q) with (h + (q - p)) by lia. eapply cover_row; try done. lia. }
  assert (∀ i, local_ok nl i = true → u16 i < meta.(fm_n_params) + meta.(fm_n_locals)) as Hloc.
  { intros i [? ?]%andb_true_iff. rewrite u16_id; lia. }
  destruct He.
  - rewrite (plain_effect _ _ _ _ _ _ H) in Hs. injection Hs as <- <-. split; [|by apply Hi].
    destruct (plain_row _ _ _ _ H) as (e & H1 & H2). by eapply Hrow, checks_other.
  - rewrite (const_effect _ _ H) in Hs. injection Hs as <- <-. split; [|by apply Hi].
    eapply Hrow; [done|reflexivity|]. apply checks_const. apply lookup_lt_Some in H1. unfold len. lia.
  - rewrite (load_effect _ _ H) in Hs. injection Hs as <- <-. split; [|by apply Hi]. by eapply Hrow.
  - rewrite (store_effect _ _ H) in Hs. injection Hs as <- <-. split; [|by apply Hi]. by eapply Hrow.
  - injection Hs as <- <-. split; [|by apply Hi]. by eapply Hrow.
  - injection Hs as <- <-. split; [|by apply Hi]. by eapply Hrow.
  - cbn -[local_ok] in Hs. destruct (local_ok nl i) eqn:Hlo; [|done]. injection Hs as <- <-. split; [|by apply Hi].
    eapply Hrow; [done|reflexivity|]. apply checks_local; auto.
  - cbn -[local_ok] in Hs. destruct (local_ok nl i) eqn:Hlo; [|done]. injection Hs as <- <-. split; [|by apply Hi].
    eapply Hrow; [done|reflexivity|]. apply checks_local; auto.
  - cbn -[local_ok] in Hs. destruct (local_ok nl i) eqn:Hlo; [|done]. injection Hs as <- <-. split; [|simpl; lia].
    apply (ops_at_app _ pc [_]) in Ho as [O1 O2]; [|done]. change (len [_; _]) with 2.
    replace (pc + 2) with (pc + 1 + 1) by lia.
    eapply (cover_seq _ _ X); [eapply cover_row; [done|exact O1|reflexivity|apply checks_local; auto|lia|lia]| |auto].
    replace (h - 1 + 1) with (h + -1 + 1) by lia. eapply cover_row; [lia|exact O2|reflexivity|apply checks_local; auto|lia|lia].
  - injection Hs as <- <-. split; [|by apply Hi]. by eapply Hrow.
  - injection Hs as <- <-. split; [|by apply Hi]. by eapply Hrow.
  - injection Hs as <- <-. split; [|by apply Hi]. by eapply Hrow.
  - injection Hs as <- <-. split; [|by apply Hi]. by eapply Hrow.
  - assert ((1, 1) = (p, q)) as [= <- <-] by (destruct o; try discriminate H; exact (f_equal (default (0, 0)) Hs)).
    split; [|by apply Hi]. change (len []) with 0. replace (pc + 0) with pc by lia. replace (h - 1 + 1) with h by lia. apply cover_nil.
  - injection Hs as <- <-. change (len []) with 0. replace (pc + 0) with pc by lia. replace (h - 0 + 0) with h by lia.
    split; [apply cover_nil|done].
  - injection Hs as <- <-. split; [|by apply Hi]. by eapply Hrow.
  - injection Hs as <- <-. split; [|by apply Hi]. by eapply Hrow.
  - injection Hs as <- <-. split; [|by apply Hi]. by eapply Hrow.
  - injection Hs as <- <-. split; [|simpl; lia]. by eapply Hrow.
  - destruct (callee_signature _ _ _ _ H H0 Hs) as ([= -> ->] & g & Hg & <- & <-). split; [|by apply Hi].
    apply (cover_call _ _ _ (mkCuOp OP_CALL 0 f)); [done..| |done]. unfold effect. simpl. unfold call_effect, callee. rewrite Hg. simpl.
    by rewrite (proj2 (Z.leb_le _ _)).
  - rename id into hid. destruct (host_signature _ _ _ _ H H0 Hs) as ([= -> ->] & Hnp & Hnr). split; [|by apply Hi].
    destruct (host_flags_fields np nr Hnp Hnr) as [E1 E2]. unfold host_flags in E1, E2.
    eapply cover_call; [exact Hpc|exact Ho|exact Hh| |reflexivity]. unfold effect. simpl. unfold call_host_effect. rewrite E1, E2.
    by rewrite (proj2 (Z.leb_le _ _)).
  - cbn -[index len Z.add] in Hs. destruct (index (p_types P) ty) as [ft'|] eqn:Hty; [|discriminate Hs]. injection Hs as <- <-.
    pose proof (proj1 (index_Some _ _ _) Hty) as [Hty0 Hty'].
    rewrite (prefix_lookup_Some _ _ _ _ H (ev_types _ _ (cp_env _ _ _ _ _ _ HC))) in Hty'. injection Hty' as <-.
    destruct (index_type_fp M P HL _ _ Hty) as (x & Hx & Hfp). apply type_fingerprint_counts in Hfp as (E1 & E2 & L1 & L2).
    pose proof (len_nonneg ft.1). pose proof (len_nonneg ft.2). split; [|apply Hi; rewrite !i32_id by lia; done].
    eapply cover_call; [exact Hpc|exact Ho|exact Hh| |reflexivity]. unfold effect. simpl. unfold call_indirect_effect.
    rewrite (proj2 (Z.leb_le 1 h)) by lia. simpl. rewrite Hx. simpl. rewrite E1, E2, (proj2 (Z.leb_le _ _)) by lia.
    simpl. do 2 f_equal. lia.
Qed.
(** Operators that emit ops are typed by what they pop and push. *)
Lemma emits_type o ops eff tl b h :
  emits E M.(hm_consts) o ops eff →
  op_type P nl meta.(fm_n_results) room tl b h o =
    (s ← stack_effect P nl o;
     if (b + s.1 <=? h) && (h - s.1 + s.2 <=? room) then Some (Some (h - s.1 + s.2)) else None).
Proof. by destruct 1; try done; destruct o. Qed.

Lemma plain_nonneg o opc p q : plain_op o = Some (opc, p, q) → 0 ≤ q.
Proof. by destruct o; try discriminate; intros [= <- <- <-]. Qed.

Lemma emits_nonneg o ops eff p q :
  emits E M.(hm_consts) o ops eff → stack_effect P nl o = Some (p, q) → 0 ≤ q.
Proof using HL HC.
  assert (∀ a b, Some (a, b) = Some (p, q) → 0 ≤ b → 0 ≤ q) as Hq by (by intros a b [= -> ->]).
  intros He Hs. destruct He.
  - rewrite (plain_effect _ _ _ _ _ _ H) in Hs. eapply Hq; [exact Hs|by eapply plain_nonneg].
  - rewrite (const_effect _ _ H) in Hs. by eapply Hq; [exact Hs|].
  - rewrite (load_effect _ _ H) in Hs. by eapply Hq; [exact Hs|].
  - rewrite (store_effect _ _ H) in Hs. by eapply Hq; [exact Hs|].
  - by eapply Hq; [exact Hs|].
  - by eapply Hq; [exact Hs|].
  - cbn -[local_ok] in Hs. destruct (local_ok nl i); [|discriminate Hs]. by eapply Hq; [exact Hs|].
  - cbn -[local_ok] in Hs. destruct (local_ok nl i); [|discriminate Hs]. by eapply Hq; [exact Hs|].
  - cbn -[local_ok] in Hs. destruct (local_ok nl i); [|discriminate Hs]. by eapply Hq; [exact Hs|].
  - by eapply Hq; [exact Hs|].
  - by eapply Hq; [exact Hs|].
  - by eapply Hq; [exact Hs|].
  - by eapply Hq; [exact Hs|].
  - destruct o; try discriminate H; by eapply Hq; [exact Hs|].
  - by eapply Hq; [exact Hs|].
  - by eapply Hq; [exact Hs|].
  - by eapply Hq; [exact Hs|].
  - by eapply Hq; [exact Hs|].
  - by eapply Hq; [exact Hs|].
  - destruct (callee_signature _ _ _ _ H H0 Hs) as ([= -> ->] & _).
    unfold func_arity in H. destruct (_ !! _); [|done]. destruct (_ !! _) as [ft|]; [|done]. injection H as <- <-.
    pose proof (u16_range (len ft.2)). lia.
  - destruct (host_signature _ _ _ _ H H0 Hs) as ([= -> ->] & _ & ?). lia.
  - cbn -[index len Z.add] in Hs. destruct (index (p_types P) ty) as [ft'|]; [|discriminate Hs].
    eapply Hq; [exact Hs|apply len_nonneg].
Qed.

Lemma op_covered labs tl b h o pc pc' r r' :
  op_code E M.(hm_code) M.(hm_consts) labs h o pc pc' r → op_type P nl meta.(fm_n_results) room tl b h o = Some r' →
  Forall lab_in labs → 0 ≤ b → 0 ≤ h ≤ room → off ≤ pc → pc' ≤ pe →
  r' = r ∧ cover (gotos labs) pc h pc' r ∧ (∀ h', r = Some h' → 0 ≤ h' ≤ room).
Proof using HL HC Hroom.
  intros Ho Ht Hlabs Hb Hh Hpc Hpe. pose proof (cp_off _ _ _ _ _ _ HC).
  destruct frame_size as (F1 & F2 & _ & _ & _ & F6).
  assert (1 ≤ h → i32 (h - 1 + 0) = h - 1) as Hi by (intros; rewrite i32_id; lia).
  destruct Ho as [o ops eff pc pc' h' He Hpops Ho -> ->|d l pc pc' Hl Ho ->|d l pc pc' h' H1 -> Hl Ho ->
    |dflt ts ds sc l pc p1 pc' h' Hsc Hds H1 -> Ho HT Hl Hj ->|pc pc' Ho ->|pc pc' Ho ->|f pc pc' Hf Ho ->].
  - rewrite (emits_type _ _ _ _ _ _ He) in Ht. destruct (stack_effect P nl o) as [[p q]|] eqn:Hs; [|done].
    simpl in Ht. destruct (_ && _) eqn:Hfit; [|done]. injection Ht as <-. apply andb_true_iff in Hfit as [G1 G2].
    pose proof (emits_nonneg _ _ _ _ _ He Hs).
    destruct (cover_emits (gotos labs) o ops eff pc h p q) as [Hc ->]; try done; try lia.
    split_and!; [done|done|]. intros ? [= <-]. lia.
  - simpl in Ht. destruct (tl !! _); [|done]. simpl in Ht. destruct (_ <=? _); [|done]. injection Ht as <-.
    split_and!; [done| |done]. eapply cover_jump; [done|done|lia|done|lia].
  - simpl in Ht. destruct (tl !! _) as [n|]; [|done]. simpl in Ht. destruct (_ <=? _); [|done]. injection Ht as <-.
    rewrite Hi in * by done. split_and!; [done| |].
    + replace h with (h - 1 + 1) at 1 by lia. eapply cover_skip; [done|done|done|done|lia|done].
    + intros ? [= <-]. lia.
  - simpl in Ht. destruct (tl !! _) as [n|]; [|done]. simpl in Ht. destruct (_ && _); [|done]. injection Ht as <-.
    rewrite Hi in * by done. split_and!; [done| |done]. pose proof (table_code_mono _ _ _ _ _ _ _ _ _ _ HT).
    pose proof (len_nonneg (jump_ops E (h - 1) l)).
    eapply (cover_seq _ _ (gotos labs) _ pc h (pc + 1) (h - 1)); [|eapply (cover_seq _ _ (gotos labs) _ _ _ p1 (h - 1))|auto].
    + replace (h - 1) with (h + -1) by lia. eapply cover_row; [lia|exact Ho|reflexivity| |lia|lia].
      apply checks_local; [by right|by apply scratch_in_frame].
    + eapply cover_table; [done|done|by apply scratch_in_frame|lia|lia|lia|lia].
    + eapply cover_jump; [done|done|lia|done|lia].
    + auto.
  - simpl in Ht. destruct (_ <=? h) eqn:Hle; [|done]. injection Ht as <-. split_and!; [done| |done].
    eapply cover_last; [lia|exact Ho|lia| |done]. unfold effect. simpl. by rewrite (proj2 (Z.leb_le _ h)) by lia.
  - injection Ht as <-. split_and!; [done| |done]. eapply cover_last; [lia|exact Ho|lia|done|done].
  - simpl in Ht. destruct (signature P f) as [[np nr]|] eqn:Hs; [|done]. simpl in Ht.
    destruct (_ && _) eqn:Hfit; [|done]. injection Ht as <-. apply andb_true_iff in Hfit as [_ G2].
    split_and!; [done| |done]. eapply cover_last; [lia|exact Ho|lia| |done].
    pose proof (cp_env _ _ _ _ _ _ HC) as Hev. unfold signature in Hs.
    destruct (index (p_funcs P) f) as [[id np' nr'|g]|] eqn:Hf'; [|injection Hs as <- <-|done].
    { destruct (ev_host _ _ Hev _ _ _ _ Hf') as [? _]. lia. }
    destruct (lk_funcs _ _ HL _ _ Hf') as (mg & Eg & p & Hmg & Hcg). destruct (cp_params _ _ _ _ _ _ Hcg) as [Hpg _].
    unfold effect. simpl. unfold return_call_effect, callee. rewrite Hmg. simpl. rewrite Hpg.
    by rewrite (proj2 (Z.leb_le _ h)) by lia.
Qed.
(** *** Bodies *)

Lemma block_end_Some h r x : block_end h r = Some x → x = Some h ∧ (r = Some (Some h) ∨ r = Some None).
Proof.
  destruct r as [[h1|]|]; simpl; [|intros [= <-]; auto|done]. destruct (h1 =? h) eqn:Hh; [|done].
  apply Z.eqb_eq in Hh as ->. intros [= <-]. auto.
Qed.

Lemma block_end_inv h r x :
  block_end h r = Some x → x = Some h ∧ ∃ r1, r = Some r1 ∧ (r1 = Some h ∨ r1 = None).
Proof. intros [-> H]%block_end_Some. split; [done|]. destruct H; eauto. Qed.

(** The block of label [l] is left at its end, by falling through or by a branch. *)
Lemma cover_block labs l pc h p1 r r1 pc' r' :
  cover (gotos (l :: labs)) pc h p1 r1 → r1 = Some (l.(l_base) + l.(l_arity)) ∨ r1 = None → l.(l_target) = p1 →
  r = l.(l_base) + l.(l_arity) → cover (gotos labs) p1 r pc' r' → cover (gotos labs) pc h pc' r'.
Proof.
  intros H1 Hr Hl -> H2. eapply (cover_seq _ _ (gotos labs)); [|exact H2|auto].
  eapply cover_mono; [exact H1| |by destruct Hr as [-> | ->]; auto].
  intros q y (l' & Hl' & -> & ->). apply elem_of_cons in Hl' as [->|Hl']; [right; by rewrite Hl|left]. by exists l'.
Qed.

Lemma gotos_top l labs : gotos (l :: labs) l.(l_target) (l.(l_base) + l.(l_arity)).
Proof. exists l. split_and!; [by left|done..]. Qed.

(** The test of an [if]; [t] is where its other branch goes. *)
Lemma cover_test (X : Z → Z → Prop) pc h t p1 r thn_h :
  off ≤ pc → ops_at pc [mkCuOp OP_BR_IF_NOT 0 t] → 1 ≤ h ≤ room → in_span t → X t (h - 1) → thn_h = h - 1 →
  cover X (pc + 1) thn_h p1 r → cover X pc h p1 r.
Proof using HC Hroom.
  intros Hpc Ho Hh Ht HX -> H2. pose proof (cp_off _ _ _ _ _ _ HC).
  eapply (cover_seq _ _ X); [|exact H2|auto]. eapply cover_br_if_not; [lia|exact Ho|lia|done|done].
Qed.

(** The two arms of an [if], each left for the end [p2]. *)
Lemma cover_arms X pc h t p1 p2 h1 h' r1 r2 :
  off ≤ pc → ops_at pc [mkCuOp OP_BR_IF_NOT 0 t] → t = p1 + 1 → 1 ≤ h ≤ room → h1 = h - 1 → pc + 1 ≤ p1 → p1 + 1 ≤ p2 ≤ pe →
  ops_at p1 [mkCuOp OP_BR 0 p2] → 0 ≤ h' ≤ room → X p2 h' →
  cover X (pc + 1) h1 p1 r1 → r1 = Some h' ∨ r1 = None → cover X (p1 + 1) h1 p2 r2 → cover X pc h p2 r2.
Proof using HC Hroom.
  intros Hpc Ho -> Hh -> Hp1 Hp2 Hb Hh' HX Ht Hr He. pose proof (cp_off _ _ _ _ _ _ HC).
  set (X1 := λ q y, X q y ∨ q = p1 + 1 ∧ y = h - 1).
  eapply (cover_seq M meta X X); [|exact He|auto].
  eapply (cover_mono _ _ X1 _ _ _ _ None); [|intros q y [?|[-> ->]]; auto|by left].
  eapply cover_test; [done|exact Ho|lia|unfold in_span; lia|by right|done|].
  eapply (cover_seq _ _ X1 X1 _ _ p1 h'); [|eapply cover_br; [lia|exact Hb|lia|unfold in_span; lia|by left]|auto].
  eapply cover_mono; [exact Ht|unfold X1; auto|by destruct Hr as [-> | ->]; auto].
Qed.

(** The typing of a block: its arity is the lowering's, and its heights fit. *)
Ltac enter_block ty Hba Hev Ht n m :=
  let Har := fresh "Har" in let Hfit := fresh "Hfit" in
  destruct (arity (p_types P) ty) as [[n m]|] eqn:Har; [|done]; cbn -[seq_with instr_type] in Ht;
  destruct (arity_agrees M P HL _ _ _ _ _ _ Hev Hba Har) as [-> ->];
  destruct (_ && _) eqn:Hfit in Ht; [|done];
  let G1 := fresh "G" in let G2 := fresh "G" in
  apply andb_true_iff in Hfit as [G1 G2]; apply Z.leb_le in G1, G2.

Lemma code_covered labs h body pc pc' :
  code_for E M.(hm_code) M.(hm_consts) labs h body pc pc' →
  ∀ tl b r, seq_type P nl meta.(fm_n_results) room tl b h body = Some r → Forall lab_in labs →
    0 ≤ b → 0 ≤ h ≤ room → off ≤ pc → pc' ≤ pe → cover (gotos labs) pc h pc' r.
Proof using HL HC Hroom.
  pose proof (cp_env _ _ _ _ _ _ HC) as Hev. pose proof (cp_off _ _ _ _ _ _ HC) as Hoff.
  destruct frame_size as (F1 & F2 & _ & _ & _ & F6).
  induction 1 as [labs h pc|labs h o rest pc p1 pc' Ho Hle|labs h o h1 rest pc p1 pc' Ho Hcr IH
    |labs h ty body np nr base e rest pc p1 pc' Hba Hnp Hbase Hcb IHb Hcr IHr
    |labs h ty body np nr base e rest pc p1 pc' Hba Hnp Hbase Hcb IHb Hcr IHr
    |labs h h1 ty thn np nr base e rest pc p1 pc' Hba H1 Hh1 Hnp Hbase Ho Hct IHt Hcr IHr
    |labs h h1 ty thn els np nr base e rest pc p1 p2 pc' Hba H1 Hh1 Hnp Hbase Ho Hct IHt Hb2 Hce IHe Hcr IHr];
    intros tl b r Ht Hlabs Hb Hh Hpc Hpe; unfold seq_type in Ht; cbn [seq_with instr_type] in Ht.
  - injection Ht as <-. apply cover_nil.
  - destruct (op_type _ _ _ _ _ _ _ _) as [r1|] eqn:Hot; [|done].
    pose proof (op_code_mono _ _ _ _ _ _ _ _ _ Ho).
    destruct (op_covered _ _ _ _ _ _ _ _ _ Ho Hot) as (-> & Hc & _); try done; [lia|]. injection Ht as <-.
    by eapply cover_extend.
  - destruct (op_type _ _ _ _ _ _ _ _) as [r1|] eqn:Hot; [|done].
    pose proof (op_code_mono _ _ _ _ _ _ _ _ _ Ho). pose proof (code_for_mono _ _ _ _ _ _ _ _ Hcr).
    destruct (op_covered _ _ _ _ _ _ _ _ _ Ho Hot) as (-> & Hc & Hh1); try done; [lia|].
    eapply (cover_seq _ _ (gotos labs)); [exact Hc|eapply IH; [exact Ht|done|done|by apply Hh1|lia|done]|auto].
  - enter_block ty Hba Hev Ht n m. destruct (block_end _ _) as [rb|] eqn:Hbe; [|done].
    apply block_end_inv in Hbe as (-> & r1 & Hr1 & Hcase).
    pose proof (code_for_mono _ _ _ _ _ _ _ _ Hcb). pose proof (code_for_mono _ _ _ _ _ _ _ _ Hcr).
    assert (base = h - Z.of_nat n) as -> by (rewrite Hbase, i32_id; lia). rewrite i32_id in * by lia.
    set (l := mkLab p1 (h - Z.of_nat n) (Z.of_nat m) e) in *.
    assert (lab_in l) as Hlab by (unfold lab_in, in_span; simpl; lia).
    eapply (cover_block labs l); [eapply IHb; [exact Hr1|by constructor|lia..]|exact Hcase|done|done|].
    eapply IHr; [exact Ht|done|lia..].
  - enter_block ty Hba Hev Ht n m. destruct (block_end _ _) as [rb|] eqn:Hbe; [|done].
    apply block_end_inv in Hbe as (-> & r1 & Hr1 & Hcase).
    pose proof (code_for_mono _ _ _ _ _ _ _ _ Hcb). pose proof (code_for_mono _ _ _ _ _ _ _ _ Hcr).
    assert (base = h - Z.of_nat n) as -> by (rewrite Hbase, i32_id; lia). rewrite i32_id in * by lia.
    set (l := mkLab pc (h - Z.of_nat n) (Z.of_nat n) e) in *.
    assert (lab_in l) as Hlab by (unfold lab_in, in_span; simpl; lia).
    eapply (cover_seq _ _ (gotos labs)); [|eapply IHr; [exact Ht|done|lia..]|auto].
    eapply (cover_mono _ _ (gotos labs) _ _ _ _ r1); [|auto|destruct Hcase as [-> | ->]; auto].
    eapply cover_loop; [eapply IHb; [exact Hr1|by constructor|lia..]|].
    intros q y (l' & Hl' & -> & ->). apply elem_of_cons in Hl' as [-> |Hl']; [right; simpl; lia|left]. by exists l'.
  - enter_block ty Hba Hev Ht n m. destruct (n =? m)%nat eqn:Hnm; [|done]. apply Nat.eqb_eq in Hnm as <-.
    destruct (block_end _ _) as [rb|] eqn:Hbe; [|done]. apply block_end_inv in Hbe as (-> & r1 & Hr1 & Hcase).
    pose proof (code_for_mono _ _ _ _ _ _ _ _ Hct). pose proof (code_for_mono _ _ _ _ _ _ _ _ Hcr).
    assert (h1 = h - 1) as -> by (rewrite Hh1, i32_id; lia).
    assert (base = h - 1 - Z.of_nat n) as -> by (rewrite Hbase, i32_id; lia). rewrite i32_id in * by lia.
    set (l := mkLab p1 (h - 1 - Z.of_nat n) (Z.of_nat n) e) in *.
    assert (lab_in l) as Hlab by (unfold lab_in, in_span; simpl; lia).
    eapply (cover_block labs l); [|exact Hcase|done|done|eapply IHr; [exact Ht|done|lia..]].
    apply (cover_test _ pc h p1 p1 r1 (h - 1)); [done|exact Ho|lia|apply Hlab| |done|eapply IHt; [exact Hr1|by constructor|lia..]].
    replace (h - 1) with (l.(l_base) + l.(l_arity)) by (simpl; lia). apply gotos_top.
  - enter_block ty Hba Hev Ht n m. destruct (block_end _ (seq_with _ _ els)) as [re|] eqn:Hbe; [|done].
    cbn -[seq_with instr_type] in Ht.
    apply block_end_inv in Hbe as (_ & r2 & Hr2 & Hcase2).
    destruct (block_end _ _) as [rb|] eqn:Hbe; [|done]. apply block_end_inv in Hbe as (-> & r1 & Hr1 & Hcase1).
    pose proof (code_for_mono _ _ _ _ _ _ _ _ Hct). pose proof (code_for_mono _ _ _ _ _ _ _ _ Hce).
    pose proof (code_for_mono _ _ _ _ _ _ _ _ Hcr). assert (h1 = h - 1) as -> by (rewrite Hh1, i32_id; lia).
    assert (base = h - 1 - Z.of_nat n) as -> by (rewrite Hbase, i32_id; lia).
    assert (i32 (h - 1 - Z.of_nat n + Z.of_nat n) = h - 1) as He1 by (rewrite i32_id; lia). rewrite He1 in *.
    rewrite i32_id in * by lia. set (l := mkLab p2 (h - 1 - Z.of_nat n) (Z.of_nat m) e) in *.
    assert (lab_in l) as Hlab by (unfold lab_in, in_span; simpl; lia).
    eapply (cover_block labs l); [|exact Hcase2|done|done|eapply IHr; [exact Ht|done|lia..]].
    apply (cover_arms _ pc h (p1 + 1) p1 p2 (h - 1) (h - 1 - Z.of_nat n + Z.of_nat m) r1 r2);
      [done|exact Ho|done|lia|done|lia|lia|exact Hb2| |apply (gotos_top l)| |exact Hcase1|].
    + simpl. lia.
    + eapply IHt; [exact Hr1|by constructor|lia..].
    + eapply IHe; [exact Hr2|by constructor|lia..].
Qed.
End lowered.

(** ** Functions *)

(** The function of a typed body is one the verifier should accept. *)
Lemma compiled_typable M P fd meta E pe :
  linked M P → compiled M P fd meta E pe → func_typed P fd = true → typable M meta.
Proof.
  intros HL HC Hf. unfold func_typed in Hf. apply andb_true_iff in Hf as [Hr%Z.leb_le Hb%bool_decide_eq_true_1].
  destruct (cp_results _ _ _ _ _ _ HC) as (R1 & _ & R3). assert (0 ≤ stack_room fd) as Hroom by lia.
  destruct Hb as [r0 Hb]. apply block_end_inv in Hb as (-> & r & Hb & Hcase). rewrite <-R1 in Hb, Hcase, Hr, R3.
  pose proof (cp_code _ _ _ _ _ _ HC) as Hcode. pose proof (code_for_mono _ _ _ _ _ _ _ _ Hcode) as Hmono.
  pose proof (cp_off _ _ _ _ _ _ HC) as Hoff. pose proof (cp_len _ _ _ _ _ _ HC) as Hlen.
  pose proof (fetch_one M pe _ [] ltac:(lia) (cp_end _ _ _ _ _ _ HC)) as Hend. pose proof (index_lt _ _ _ Hend).
  split; [unfold span_ok; lia|]. split.
  { exists (mkCuOp OP_END_FUNC fd.(fd_results) 0). split; [|by right].
    by replace (fm_code_off meta + fm_code_len meta - 1) with pe by lia. }
  apply cover_typable. replace (fm_code_off meta + fm_code_len meta) with (pe + 1) by lia.
  set (l := mkLab pe 0 fd.(fd_results) 0) in *.
  eapply (cover_seq _ _ (λ _ _, False) _ _ _ pe meta.(fm_n_results)); [| |auto].
  - eapply (cover_mono _ _ (gotos [l]) _ _ _ _ r); [|intros q y|destruct Hcase as [-> | ->]; auto].
    + eapply (code_covered M P HL fd meta E pe HC Hroom); [exact Hcode|exact Hb| |lia..].
      constructor; [|constructor]. unfold lab_in, in_span. simpl. lia.
    + intros (l' & Hl' & -> & ->). apply list_elem_of_singleton in Hl' as ->. right. simpl. by rewrite R1.
  - eapply (cover_last M P fd meta E pe HC Hroom); [lia|exact (cp_end _ _ _ _ _ _ HC)|lia| |done].
    unfold effect. simpl. by rewrite Z.leb_refl.
Qed.
