(* ===== verification/LowerRun.v ===== *)
(** * A run of a linked module

    The CPU driver, from the first frame to the result: a call of a function of the
    reference semantics that returns or traps is what [run_cpu] does, unless the machine
    runs out of stack, frames or fuel first. *)

From S2P Require Import Prelude Cuop Wasm Lower EnvTable Module ModuleSteps Engine EngineNum.
From S2P Require Import Verify VerifyFacts EngineInv LowerInv Structured Backpatch LowerTree LowerBack.
From S2P Require Import EngineSound EngineView ViewCalls ViewHost LowerNum LowerMem LowerOps LowerBulk LowerBasic LowerSim.
From S2P Require Import LowerOutcome LowerCalls LowerCorrect.
From stdpp Require Import base list strings.

Local Open Scope Z_scope.

(** ** Traps of the reference semantics *)

Definition program_trap (s : Status) : Prop :=
  s = ST_TRAP_UNREACHABLE ∨ s = ST_TRAP_DIV_BY_ZERO ∨ s = ST_TRAP_INT_OVERFLOW ∨ s = ST_TRAP_MEM_OOB ∨
  s = ST_TRAP_INDIRECT_CALL ∨ s = ST_UNSUPPORTED_OP.

Lemma wasm_bin_traps o f a b s : wasm_bin o = Some f → f a b = inr s → program_trap s.
Proof.
  unfold program_trap. destruct o; simpl; intros [= <-];
    unfold arith, cmp_u, cmp_s, shr_s, wasm_div_s, wasm_div_u, wasm_rem_s, wasm_rem_u; try done;
    repeat case_match; intros [= <-]; auto.
Qed.

Lemma basic_step_traps datas o st ls vs s : basic_step datas o st ls vs = BTrap s → program_trap s.
Proof.
  unfold basic_step. destruct (wasm_const o); [done|]. destruct (wasm_un o); [by destruct vs|].
  destruct (wasm_bin o) as [f|] eqn:Hb.
  { destruct vs as [|b [|a vs]]; [done..|]. destruct (f a b) eqn:Hf; [done|]. intros [= <-].
    by eapply wasm_bin_traps. }
  unfold program_trap.
  destruct (wasm_load o) as [[[[n sg] bits] off]|].
  { destruct vs as [|a vs]; [done|]. cbv zeta. destruct (_ <? _); [|done]. intros [= <-]. auto. }
  destruct (wasm_store o) as [[n off]|].
  { destruct vs as [|v [|a vs]]; [done..|]. cbv zeta. destruct (_ <? _); [|done]. intros [= <-]. auto. }
  destruct o; try done; repeat case_match; try done; intros [= <-]; auto.
Qed.

Definition traps_well (o : out) : Prop := ∀ s tr, o = Trapped s tr → program_trap s.

Section traps.
Context (P : Prog) (env : Env).

Lemma block_out_traps n rest o : traps_well o → traps_well (block_out n rest o).
Proof.
  intros H s tr. destruct o as [| [|d] | | | | |]; simpl; unfold leave, land_on; repeat case_match; try done.
  intros [= <- <-]. by eapply H.
Qed.

Section step.
Context (run : list instr → Store → list Z → list Z → out) (call : Z → Store → list Z → call_out).
Hypothesis Hrun : ∀ body st ls vs, traps_well (run body st ls vs).
Hypothesis Hcall : ∀ f st vs s tr, call f st vs = CTrapped s tr → program_trap s.

Lemma run_block_traps np nr body st ls vs : traps_well (run_block run np nr body st ls vs).
Proof using Hrun. unfold run_block. destruct (operands np vs); [|by intros s]. apply block_out_traps, Hrun. Qed.

Lemma table_traps i ty s : table_func P i ty = inr s → program_trap s.
Proof. intros H%table_func_trap. destruct H as [-> _]. unfold program_trap. auto 7. Qed.

Lemma run_basic_traps o st ls vs : traps_well (run_basic P call o st ls vs).
Proof using Hcall.
  intros s tr. unfold run_basic.
  destruct (basic_step P.(p_datas) o st ls vs) as [| |] eqn:Hb; destruct o; try done; repeat case_match; try done;
    intros [= <- <-];
    (by eapply basic_step_traps) || (by eapply Hcall) || (by eapply table_traps) || by left.
Qed.

Lemma run_instr_traps i st ls vs : traps_well (run_instr P run call i st ls vs).
Proof using Hrun Hcall.
  destruct i as [o|ty body|ty body|ty thn els]; simpl; [apply run_basic_traps|..];
    (destruct (arity _ _) as [[np nr]|]; [|by intros s]).
  - apply run_block_traps.
  - unfold run_loop. destruct (operands np vs) as [ps|]; [|by intros s].
    pose proof (Hrun body st ls ps) as Hb.
    destruct (run body st ls ps) as [| [|d] | | | | |]; try by apply block_out_traps.
    destruct (operands _ _); [apply Hrun|by intros s].
  - unfold run_if. destruct vs as [|c vs]; [by intros s|]. destruct (_ =? 0); [|apply run_block_traps].
    destruct els; [apply run_block_traps|]. destruct (operands _ _); [|by intros s]. unfold leave.
    intros s tr. by case_match.
Qed.

Lemma func_out_traps n rest o s tr :
  traps_well o → func_out P call n rest o = CTrapped s tr → program_trap s.
Proof using Hcall.
  intros Ho. destruct o as [| [|d] | | | | |]; simpl; repeat case_match; try done; intros [= <- <-];
    (by eapply Hcall) || (by eapply Ho).
Qed.
End step.

Lemma call_host_traps id np nr st vs s tr : call_host P env id np nr st vs = CTrapped s tr → program_trap s.
Proof.
  unfold call_host, program_trap. repeat case_match; try done. intros [= <- <-]. auto 7.
Qed.

Lemma run_traps fuel :
  (∀ body st ls vs, traps_well (run P env fuel body st ls vs)) ∧
  (∀ f st vs s tr, call P env fuel f st vs = CTrapped s tr → program_trap s).
Proof.
  induction fuel as [|fuel [IHb IHc]]; [done|]. split.
  - intros [|i rest] st ls vs s tr; [done|]. rewrite run_cons. intros H.
    pose proof (run_instr_traps (run P env fuel) (call P env fuel) IHb IHc i st ls vs) as Hi.
    destruct (run_instr _ _ _ _ _ _ _); simpl in H; try done; [by eapply IHb|]. injection H as <- <-. by eapply Hi.
  - intros f st vs s tr. simpl. destruct (index _ _) as [[|fd]|]; [apply call_host_traps| |done]. unfold run_func.
    destruct (operands _ _); [|done]. apply func_out_traps; [exact IHc|apply IHb].
Qed.
End traps.

(** ** The first frame *)

Lemma does_store_all (T : Trace → Status → Machine → Prop) vs v (Q : unit → View → Prop) :
  Forall in_u64 vs → len v.(v_stack) + len vs ≤ STACK_CAP → Q tt (with_stack (v.(v_stack) ++ vs) v) →
  does T (store_all vs) v Q.
Proof.
  intros Hvs. revert v. induction Hvs as [|x vs Hx Hvs IH]; intros v Hcap HQ.
  - apply does_ret. rewrite app_nil_r in HQ. by destruct v.
  - autorewrite with len in Hcap. pose proof (len_nonneg v.(v_stack)). pose proof (len_nonneg vs).
    eapply (does_bind _ _ _ _ (fun _ v' => v' = with_stack (v.(v_stack) ++ [x]) v)).
    + intros m Hm. unfold store_next. apply ewp_bind. unfold ewp at 1, get. rewrite (se_sp _ _ Hm).
      unfold stack_set. apply ewp_bind. apply ewp_bind. unfold ewp at 1, get. unfold in_range.
      rewrite (se_stack_len _ _ Hm). replace ((0 <=? _) && _) with true by lia. unfold ewp, put.
      rewrite (u64_id x) by done. exists (with_stack (v.(v_stack) ++ [x]) v). split; [|done]. apply sees_push; [done|lia].
    + intros [] v' ->. apply IH; simpl; [autorewrite with len; lia|].
      unfold with_stack in *. simpl. by rewrite <-app_assoc.
Qed.

Section boot.
Context (M : HostModule).

Lemma run_instance_stopped n k m s m' :
  run_instance M n m = (Stopped s, m') → (n ≤ k)%nat → run_instance M k m = (Stopped s, m').
Proof.
  revert k m. induction n as [|n IH]; intros k m H Hk; [done|]. destruct k as [|k]; [lia|]. simpl in *.
  destruct (step M m) as [[]]; [apply IH; [done|lia]|done..].
Qed.

(** The store a module starts with. *)
Definition store_of : Store :=
  mkStore M.(hm_globals) M.(hm_memory) M.(hm_mem_size) M.(hm_data_live) (mkMailbox 0 0 0 (replicate 16 0) [0]) [].

Definition first_frame (f : FuncMetaC) : Frame := mkFrame 0 0 0 f.(fm_n_results).

Lemma sees_blank f : sees (blank M f) (mkView f.(fm_code_off) 0 [first_frame f] [] store_of).
Proof.
  split; try done.
  - by exists (replicate (Z.to_nat FRAME_CAP - 1) (mkFrame 0 0 0 0)).
  - apply prefix_nil.
Qed.

Lemma boot_sees f args :
  Forall in_u64 args → len args + Z.max 0 f.(fm_n_locals) ≤ STACK_CAP →
  ∃ m, boot M f args = (Val tt, m) ∧
    sees m (mkView f.(fm_code_off) 0 [first_frame f] (args ++ replicate (Z.to_nat f.(fm_n_locals)) 0) store_of).
Proof.
  intros Ha Hcap. set (vs := args ++ _).
  pose proof (does_store_all (fun _ _ _ => False) vs (mkView f.(fm_code_off) 0 [first_frame f] [] store_of)
    (fun _ v => v = mkView f.(fm_code_off) 0 [first_frame f] vs store_of)) as Hd.
  specialize (Hd ltac:(by apply Forall_app; split; [|apply in_u64_zeros])).
  specialize (Hd ltac:(unfold vs; simpl; autorewrite with len; lia) eq_refl _ (sees_blank f)).
  unfold ewp, boot in *. fold vs. destruct (store_all vs _) as [[[]|s|w] m].
  - destruct Hd as (v & Hm & _ & ->). eauto.
  - done.
  - done.
Qed.
End boot.

(** ** The driver *)

(** One of the machine's bounds was reached. *)
Definition out_of_resources (s : Status) : Prop :=
  s = ST_TRAP_STACK_OVERFLOW ∨ s = ST_TRAP_CALL_DEPTH ∨ s = ST_OUT_OF_FUEL.

Lemma exhausted_resources s m : exhausted s m → out_of_resources s.
Proof. unfold out_of_resources. destruct s; simpl; auto; done. Qed.

(** The module with its data as in [st]. *)
Definition holding (M : HostModule) (st : Store) : HostModule :=
  mkHostModule M.(hm_code) M.(hm_consts) M.(hm_funcs) M.(hm_exports) st.(s_globals) st.(s_memory)
    st.(s_msize) M.(hm_mem_max) M.(hm_data_blob) M.(hm_data_off) M.(hm_data_len) st.(s_live) M.(hm_table)
    M.(hm_func_typeidx) M.(hm_type_fp) M.(hm_n_host_imports) M.(hm_host_fn_id)
    M.(hm_host_import_mod) M.(hm_host_import_name) M.(hm_host_import_env).

(** A run without results: a trap of the program, or of the machine. *)
Definition run_ends {W} (s : Status) (w : W) (x : RunResult * HostModule * W) : Prop :=
  ∃ M', x = (Finished s [], M', w).

(** A host function as an environment, and the world its calls leave. *)
Definition host_env {W} (host : HostFn W) (w : W) : Env := @env_of (mkWorld W host w).
Definition host_world {W} (host : HostFn W) (w : W) (tr : Trace) : W := @world (mkWorld W host w) tr.

Lemma push_results_trap i n m s m' : push_results i n m = (Trap s, m') → s = ST_TRAP_STACK_OVERFLOW.
Proof.
  revert i m. induction n as [|n IH]; intros i m; [done|]. cbn [push_results].
  unfold mbind, EM_bind, get, trap_if, rd. destruct (_ <=? _); [by intros [= <- <-]|]. simpl.
  destruct (index _ _) as [x|]; [|done]. simpl. unfold store_next, stack_set, mbind, EM_bind, get.
  destruct (in_range _ _); simpl; [apply IH|done].
Qed.

Section driver.
Context {W : Type} (M : HostModule) (host : HostFn W) (w0 : W).

#[local] Instance the_world : World := mkWorld W host w0.

(** The stretch of a run up to its first host call, on a budget that is big enough. *)
Lemma sys_stretch N w m s w' m' :
  sys M N w m = Halt s w' m' → ∀ n, (N ≤ n)%nat →
  (run_instance M n m = (Stopped s, m') ∧ w' = w ∧ s ≠ ST_HOSTCALL_PENDING) ∨
  ∃ m1, run_instance M n m = (Stopped ST_HOSTCALL_PENDING, m1) ∧
    (resume M.(hm_mem_size) w m1 = Halt s w' m' ∨
     ∃ w2 m2 N', resume M.(hm_mem_size) w m1 = More w2 m2 ∧ (N' < N)%nat ∧ sys M N' w2 m2 = Halt s w' m').
Proof.
  revert w m. induction N as [|N IH]; intros w m H n Hn; [done|]. destruct n as [|n]; [lia|]. simpl in *.
  destruct (step M m) as [[u|s1|e] m1]; [|..|done].
  - destruct (IH _ _ H n ltac:(lia)) as [?|(m2 & H1 & [H2|(w2 & m3 & N' & H2 & H3 & H4)])]; [by left|right..].
    + exists m2. auto.
    + exists m2. split; [done|]. right. exists w2, m3, N'. split_and!; [done|lia|done].
  - destruct (decide (s1 = ST_HOSTCALL_PENDING)) as [->|Hne].
    + right. exists m1. split; [done|]. destruct (resume (WD := the_world) M.(hm_mem_size) w m1) as [w2 m2|s2 w2 m2|] eqn:Hr; [right|by left|done].
      exists w2, m2, N. split_and!; [done|lia|done].
    + left. assert (Halt s1 w m1 = Halt s w' m') as [= -> <- ->] by (by destruct s1). done.
Qed.

(** The results of the driver do not depend on the memory size it is given. *)
Lemma drive_upd_msize n nres r w m :
  drive M host n nres (S r) w (upd_msize M.(hm_mem_size) m) = drive M host n nres (S r) w m.
Proof. done. Qed.

Definition driven (nres : Z) (s : Status) (w : W) (m : Machine) (x : RunResult * HostModule * W) : Prop :=
  ∃ res size, x = (Finished s res, shared M m size, w) ∧
    if bool_decide (s = ST_OK) then res = take (Z.to_nat nres) m.(stack) ∧ size = m.(msize) else res = [].

(** A run that halts is what the driver does, with slices of enough steps and enough of
    them. *)
Lemma sys_drive N nres w m s w' m' :
  m.(msize) = M.(hm_mem_size) → sys M N w m = Halt s w' m' →
  ∃ x, driven nres s w' m' x ∧ ∀ n r, (N ≤ n)%nat → (N ≤ r)%nat → drive M host n nres r w m = x.
Proof.
  revert w m. induction (lt_wf N) as [N _ IH]. intros w m Hsz H.
  assert (upd_msize M.(hm_mem_size) m = m) as Hid by (rewrite <-Hsz; by destruct m).
  destruct N as [|N0]; [done|]. set (N := S N0) in *.
  destruct (sys_stretch N w m s w' m' H N ltac:(lia)) as [(H1 & -> & Hs)|(m1 & H1 & Hres)].
  - exists (Finished s (if bool_decide (s = ST_OK) then take (Z.to_nat nres) m'.(stack) else []), shared M m' m'.(msize), w).
    split; [by eexists _, _; split; [done|]; case_bool_decide|]. intros n [|r] Hn Hr; [lia|]. cbn [drive].
    rewrite Hid, (run_instance_stopped _ _ _ _ _ _ H1 Hn). by destruct s.
  - assert (∀ n r, (N ≤ n)%nat → drive M host n nres (S r) w m =
      match resume M.(hm_mem_size) w m1 with
      | More w2 m2 => drive M host n nres r w2 m2
      | Halt s w2 m2 => (Finished s [], shared M m2 M.(hm_mem_size), w2)
      | Broken => drive M host n nres (S r) w m
      end) as Hd.
    { intros n r Hn. cbn [drive]. rewrite Hid, (run_instance_stopped _ _ _ _ _ _ H1 Hn). unfold resume. cbn.
      destruct (host (mb m1) (memory m1) w) as [[[[] box] mem] w1]; simpl; [|done].
      destruct (push_results _ _ _) as [[] m2]; try done. by destruct r. }
    destruct Hres as [Hres|(w2 & m2 & N' & Hres & Hlt & H2)].
    + rewrite Hres in Hd. eexists. split; [|by intros n [|r] Hn Hr; [lia|apply Hd]].
      exists [], M.(hm_mem_size). split; [done|]. rewrite bool_decide_eq_false_2; [done|].
      intros ->. unfold resume in Hres. cbn in Hres. destruct (host _ _ _) as [[[[] box] mem] w1]; simpl in Hres; [|done].
      destruct (push_results _ _ _) as [[] m3] eqn:Hp; try done. injection Hres as -> _ _. by apply push_results_trap in Hp.
    + assert (m2.(msize) = M.(hm_mem_size)) as Hm2.
      { unfold resume in Hres. cbn in Hres. destruct (host _ _ _) as [[[[] box] mem] w1]; simpl in Hres; [|done].
        destruct (push_results _ _ _) as [[] m3]; try done. by injection Hres as _ <-. }
      destruct (IH N' Hlt w2 m2 Hm2 H2) as (x & Hx & Hdx). exists x. split; [done|].
      intros n [|r] Hn Hr; [lia|]. rewrite Hd, Hres by done. apply Hdx; lia.
Qed.

(** A run that must end does so. *)
Lemma goes_drive (T : Trace → Status → Machine → Prop) v m nres :
  goes M T v (fun _ => False) → sees m v → v.(v_store).(s_msize) = M.(hm_mem_size) → past v = [] →
  ∃ N tr s m' x, T tr s m' ∧ driven nres s (world tr) m' x ∧
    ∀ n r, (N ≤ n)%nat → (N ≤ r)%nat → drive M host n nres r w0 m = x.
Proof.
  intros Hg Hm Hsz Hp. destruct (Hg m Hm) as [N HN]. rewrite Hp in HN. simpl in HN.
  destruct (sys (WD := the_world) M N w0 m) as [w m'|s w m'|] eqn:HE; [by destruct HN as (? & ? & ? & ?)| |done].
  destruct HN as (tr & -> & HT). destruct (sys_drive N nres w0 m s (world tr) m') as (x & Hx & Hd); [|done|].
  - by rewrite (se_msize _ _ Hm).
  - by exists N, tr, s, m', x.
Qed.
End driver.

Lemma sees_holding M m v : sees m v → shared M m m.(msize) = holding M v.(v_store).
Proof. intros []. unfold shared, holding. congruence. Qed.

Lemma program_trap_not s : program_trap s → s ≠ ST_OK ∧ s ≠ ST_HOSTCALL_PENDING.
Proof. unfold program_trap. intros H. by repeat destruct H as [->|H]; [..|subst s]. Qed.

(** What the machine may stop with when the reference semantics gives [c]. *)
Definition stops (c : call_out) (tr : Trace) (s : Status) (m : Machine) : Prop :=
  exhausted s m ∨
  match c with
  | Returns st rs => s = ST_OK ∧ tr = st.(s_trace) ∧ ∃ p, sees m (mkView p 0 [] (rev rs) st)
  | CTrapped s' tr' => s = s' ∧ tr = tr'
  | CStuck | CTimeout => False
  end.

Lemma stops_ends P env fuel f st vs : ends (stops (call P env fuel f st vs)).
Proof.
  split; [by left|]. intros tr m [Hx|Hx]; [done|]. destruct (call _ _ _ _ _ _) as [st' rs|s tr'| |] eqn:E; try done.
  - by destruct Hx.
  - destruct Hx as [<- _]. apply (proj2 (run_traps P env fuel)) in E. by apply program_trap_not in E as [_ ?].
Qed.

Section program.
Context {W : Type} (M : HostModule) (P : Prog) (HL : linked M P) (Hst : store_ok M (store_of M)).
Context (f : Z) (args : list Z) (host : HostFn W) (w : W).

#[local] Existing Instance the_world.

Abbreviation call := (call P (host_env host w)).

(** From the first frame the run must end. *)
Lemma first_frame_goes fuel fd meta :
  index P.(p_funcs) f = Some (Code fd) → index M.(hm_funcs) f = Some meta →
  len args = fd.(fd_params) → Forall in_u64 args →
  let c := call fuel f (store_of M) (rev args) in
  c ≠ CStuck → c ≠ CTimeout →
  (∀ st rs, c = Returns st rs → len rs = meta.(fm_n_results)) ∧
  goes (WD := the_world host w) M (stops c) (mkView meta.(fm_code_off) 0 [first_frame meta]
    (args ++ replicate (Z.to_nat meta.(fm_n_locals)) 0) (store_of M)) (fun _ => False).
Proof using HL Hst.
  intros Hf Hmeta Hlen Hargs c Hc1 Hc2. pose proof (stops_ends P (host_env host w) fuel f (store_of M) (rev args)) as HT.
  fold c in HT. destruct (lk_funcs _ _ HL f fd Hf) as (meta' & E & p & Hmeta' & Hc). rewrite Hmeta in Hmeta'. injection Hmeta' as <-.
  pose proof (cp_results _ _ _ _ _ _ Hc) as (R1 & _ & R3).
  destruct (sims M P HL (WD := the_world host w) (stops c) HT fuel) as [_ IH].
  pose proof (IH f fd meta [] [] (first_frame meta) (store_of M) (rev args) Hf Hmeta R1 Hst
    ltac:(by apply Forall_rev) ltac:(by rewrite len_rev)) as Ho. cbv zeta in Ho.
  change (Structured.call P env_of fuel f (store_of M) (rev args)) with c in Ho.
  rewrite rev_involutive in Ho. destruct c as [st' rs|s tr| |]; try done.
  - destruct Ho as (_ & Hlr & _ & Hgo). split; [by intros ?? [= <- <-]; lia|].
    eapply goes_bind; [exact Hgo|]. intros v Hv.
    eapply (return_goes M P HL _ HT [] []); [exact Hv|done|simpl; lia| |done].
    intros _ m q Hm. right. split_and!; [done|done|]. by exists q.
  - split; [done|]. apply Ho. intros m. by right.
Qed.

Lemma boot_drive fuel fd meta :
  index P.(p_funcs) f = Some (Code fd) → index M.(hm_funcs) f = Some meta →
  len args = fd.(fd_params) → Forall in_u64 args →
  meta.(fm_n_params) + meta.(fm_n_locals) ≤ STACK_CAP →
  let c := call fuel f (store_of M) (rev args) in
  c ≠ CStuck → c ≠ CTimeout →
  ∃ N tr s m' x, stops c tr s m' ∧ driven M meta.(fm_n_results) s (host_world host w tr) m' x ∧
    ∀ n r, (N ≤ n)%nat → (N ≤ r)%nat → run_cpu M f args n host r w = x.
Proof using HL Hst.
  intros Hf Hmeta Hlen Hargs Hcap c Hc1 Hc2.
  destruct (first_frame_goes fuel fd meta Hf Hmeta Hlen Hargs Hc1 Hc2) as [_ Hgo].
  destruct (lk_funcs _ _ HL f fd Hf) as (meta' & E & p & Hmeta' & Hc). rewrite Hmeta in Hmeta'. injection Hmeta' as <-.
  pose proof (cp_params _ _ _ _ _ _ Hc) as (P1 & _ & P3). pose proof (cp_nlocals _ _ _ _ _ _ Hc) as [N1 N2].
  assert (0 ≤ E.(e_n_locals)) by (pose proof (cp_locals _ _ _ _ _ _ Hc); destruct (e_scratch E); lia).
  pose proof (len_nonneg args).
  destruct (boot_sees M meta args Hargs) as (m & Hboot & Hm); [unfold STACK_CAP in *; lia|].
  destruct (goes_drive M host w (stops c) _ m meta.(fm_n_results) Hgo Hm eq_refl eq_refl)
    as (N & tr & s & m' & x & Hs & Hx & Hd).
  exists N, tr, s, m', x. split_and!; [done..|]. intros n r Hn Hr. unfold run_cpu. rewrite Hmeta.
  replace (len args =? fm_n_params meta) with true by lia. simpl negb. cbv iota. rewrite Hboot. by apply Hd.
Qed.
End program.

(** The driver runs a linked module as the reference semantics runs its program. *)
Lemma linked_runs {W} M P fuel f fd args (host : HostFn W) w :
  linked M P → store_ok M (store_of M) → index P.(p_funcs) f = Some (Code fd) → callable M f = true →
  len args = fd.(fd_params) → Forall in_u64 args →
  let c := call P (host_env host w) fuel f (store_of M) (rev args) in
  c ≠ CStuck → c ≠ CTimeout →
  ∃ N x, (∀ n r, (N ≤ n)%nat → (N ≤ r)%nat → run_cpu M f args n host r w = x) ∧
    (match c with
     | Returns st rs => x = (Finished ST_OK (rev rs), holding M st, host_world host w st.(s_trace))
     | CTrapped s tr => program_trap s ∧ run_ends s (host_world host w tr) x
     | CStuck | CTimeout => False
     end ∨ ∃ s tr, out_of_resources s ∧ run_ends s (host_world host w tr) x).
Proof.
  intros HL Hst Hf Hcall Hlen Hargs c Hc1 Hc2.
  destruct (lk_funcs _ _ HL f fd Hf) as (meta & E & p & Hmeta & Hc).
  unfold callable in Hcall. rewrite Hmeta in Hcall. apply andb_true_iff in Hcall as [_ Hcap]. apply Z.leb_le in Hcap.
  destruct (boot_drive M P HL Hst f args host w fuel fd meta Hf Hmeta Hlen Hargs Hcap Hc1 Hc2)
    as (N & tr & s & m' & x & Hs & (res & size & -> & Hres) & HN).
  destruct (first_frame_goes M P HL Hst f args host w fuel fd meta Hf Hmeta Hlen Hargs Hc1 Hc2) as [Hlr _].
  fold c in Hs, Hlr. eexists N, _. split; [exact HN|]. destruct Hs as [Hx|Hs].
  - right. exists s, tr. apply exhausted_resources in Hx. split; [done|].
    rewrite bool_decide_eq_false_2 in Hres by (by destruct Hx as [-> | [-> | ->]]). subst res. by eexists.
  - left. destruct c as [st rs|s' tr'| |] eqn:Ec; try done.
    + destruct Hs as (-> & -> & q & Hm). destruct Hres as [-> ->]. rewrite (sees_holding _ _ _ Hm). do 3 f_equal.
      rewrite <-(Hlr _ _ eq_refl). destruct (se_stack _ _ Hm) as [z ->]. simpl. apply take_app_length'.
      rewrite length_rev. unfold len. lia.
    + destruct Hs as [-> ->]. apply (proj2 (run_traps P (host_env host w) fuel)) in Ec. split; [done|].
      apply program_trap_not in Ec as [? _]. rewrite bool_decide_eq_false_2 in Hres by done. subst res. by eexists.
Qed.
