(* ===== verification/LowerResults.v ===== *)
(** * Every result of the engine is one of the program

    The other direction of [LowerRun]: the reference semantics, on enough fuel, explains
    what the CPU driver of a linked module ends with.  A result that comes too early for
    that is one of the machine's bounds, because the run of a call without a result lasts
    ([LowerDiverge]). *)

From S2P Require Import Prelude Cuop Wasm Lower EnvTable Module ModuleSteps Engine EngineNum EngineFrame EngineSlice.
From S2P Require Import Verify VerifyFacts EngineInv LowerInv Structured Backpatch LowerTree LowerBack.
From S2P Require Import EngineSound EngineView ViewCalls ViewHost LowerNum LowerMem LowerOps LowerBulk LowerBasic LowerSim.
From S2P Require Import LowerOutcome LowerCalls LowerCorrect LowerDiverge LowerRun.
From stdpp Require Import base list strings.

Local Open Scope Z_scope.

(** ** Slices of a run *)

Section slices.
Context {W : Type} (M : HostModule) (host : HostFn W) (w0 : W) (nres : Z) (HG : no_grow M = true).

#[local] Existing Instance the_world.
#[local] Abbreviation sys := (sys (WD := the_world host w0) M).

(** The driver's result at the end of a run. *)
Definition ends_as (x : RunResult * HostModule * W) (e : sys_end (WD := the_world host w0)) : Prop :=
  match e with
  | More _ _ => False
  | Halt s w m => ∃ M' res, x = (Finished s res, M', w) ∧ (s ≠ ST_OK → res = [])
  | Broken => True
  end.

(** A turn is a step of the system, for a module that keeps its memory size. *)
Lemma turn_sys w m :
  at_size M m →
  match turn M host nres w m with
  | inl (w', m') => sys 1 w m = More (WD := the_world host w0) w' m'
  | inr x => ends_as x (sys 1 w m)
  end.
Proof using HG.
  intros Hm. destruct (turn M host nres w m) as [[w' m']|x] eqn:Ht.
  - pose proof (turn_at_size M host nres HG _ _ _ _ Hm Ht) as Hm'. unfold turn in Ht. simpl.
    destruct (step M m) as [[u|s|e] m1]; simplify_eq/=; [done|]. unfold stopped in Ht.
    destruct s; simplify_eq/=. unfold resume. cbn [wd_host the_world].
    destruct (host _ _ _) as [[[[] box] mem] w1]; [|done]. simpl in *.
    destruct (push_results _ _ _) as [[] m2]; simplify_eq/=. by rewrite (upd_msize_id M).
  - unfold turn in Ht. simpl. destruct (step M m) as [[u|s|e] m1]; simplify_eq/=; [|done].
    unfold stopped in Ht. destruct s; simplify_eq/=; try (eexists _, _; split; [done|]; done).
    unfold resume. cbn [wd_host the_world]. destruct (host _ _ _) as [[[[] box] mem] w1]; simplify_eq/=.
    + destruct (push_results _ _ _) as [[] m2]; simplify_eq/=; [|done]. eexists _, _. by split.
    + eexists _, _. by split.
Qed.

(** A result of the driver is the end of a run of at most as many steps as its slices have. *)
Lemma slice_sys n r : ∀ k w m,
  at_size M m → (slice M host nres n k r w m).1.1 ≠ NotYet →
  ∃ j, (j ≤ k + n * r)%nat ∧ ends_as (slice M host nres n k r w m) (sys j w m).
Proof using HG.
  assert (∀ r k, (∀ w m, at_size M m → (slice M host nres n 0 r w m).1.1 ≠ NotYet →
      ∃ j, (j ≤ n * r)%nat ∧ ends_as (slice M host nres n 0 r w m) (sys j w m)) →
    ∀ w m, at_size M m → (slice M host nres n k r w m).1.1 ≠ NotYet →
      ∃ j, (j ≤ k + n * r)%nat ∧ ends_as (slice M host nres n k r w m) (sys j w m)) as Hk.
  { intros r' k H0. induction k as [|k IH]; intros w m Hm; [apply H0, Hm|]. rewrite slice_S.
    pose proof (turn_sys w m Hm) as Ht. destruct (turn M host nres w m) as [[w' m']|x] eqn:Htu.
    - pose proof (turn_at_size M host nres HG _ _ _ _ Hm Htu) as Hm'.
      assert (∀ j x, ends_as x (sys j w' m') → ends_as x (sys (1 + j) w m)) as Hj
        by (intros j x Hx; rewrite sys_add; by rewrite Ht).
      destruct (step M m) as [[] ?]; intros Hx; [destruct (IH w' m' Hm' Hx) as (j & Hle & He)|
        destruct (H0 w' m' Hm' Hx) as (j & Hle & He)..]; (exists (1 + j)%nat; split; [lia|by apply Hj]).
    - intros _. exists 1%nat. split; [lia|done]. }
  induction r as [|r IH]; intros k; apply Hk; intros w m Hm; rewrite slice_0; [done|].
  rewrite (slice_full M host nres n r w m Hm). intros Hx. destruct (IH n w m Hm Hx) as (j & Hj & He).
  exists j. split; [lia|done].
Qed.
End slices.

(** ** Linked modules *)

(** What the CPU driver may end with, given what the call gives: a program that gets stuck
    says nothing. *)
Definition explains {W} (M : HostModule) (host : HostFn W) (w : W) (c : call_out)
    (x : RunResult * HostModule * W) : Prop :=
  match c with
  | Returns st rs => x = (Finished ST_OK (rev rs), holding M st, host_world host w st.(s_trace))
  | CTrapped s tr => program_trap s ∧ run_ends s (host_world host w tr) x
  | CStuck => True
  | CTimeout => False
  end.

Definition gives_up {W} (host : HostFn W) (w : W) (x : RunResult * HostModule * W) : Prop :=
  ∃ s tr, out_of_resources s ∧ run_ends s (host_world host w tr) x.

Section results.
Context {W : Type} (M : HostModule) (P : Prog) (HL : linked M P) (Hst : store_ok M (store_of M)) (HG : no_grow M = true).
Context (f : Z) (fd : FuncDef) (args : list Z) (host : HostFn W) (w : W).
Hypothesis Hf : index P.(p_funcs) f = Some (Code fd).
Hypothesis Hcall : callable M f = true.
Hypothesis Hlen : len args = fd.(fd_params).
Hypothesis Hargs : Forall in_u64 args.

#[local] Existing Instance the_world.
Abbreviation call := (call P (host_env host w)).

(** Enough fuel for a run of [n] steps. *)
Definition fuel_for (n : nat) : nat := n * S (longest P) + S (longest P).

(** A result that comes within [n * r] steps of a call without a result is a bound. *)
Lemma early_gives_up n r :
  call (fuel_for (n * r)) f (store_of M) (rev args) = CTimeout →
  (run_cpu M f args n host r w).1.1 ≠ NotYet → gives_up host w (run_cpu M f args n host r w).
Proof using HL Hst HG Hf Hcall Hlen Hargs.
  intros Hc. destruct (lk_funcs _ _ HL f fd Hf) as (meta & E & p & Hmeta & Hcp).
  unfold callable in Hcall. rewrite Hmeta in Hcall. apply andb_true_iff in Hcall as [_ Hcap%Z.leb_le].
  destruct (cp_params _ _ _ _ _ _ Hcp) as (P1 & _ & P3). destruct (cp_results _ _ _ _ _ _ Hcp) as (R1 & _ & R3).
  pose proof (cp_nlocals _ _ _ _ _ _ Hcp) as [N1 N2]. pose proof (len_nonneg args).
  assert (0 ≤ E.(e_n_locals)) by (pose proof (cp_locals _ _ _ _ _ _ Hcp); destruct (e_scratch E); lia).
  destruct (boot_sees M meta args Hargs) as (m & Hboot & Hm); [unfold STACK_CAP in *; lia|].
  unfold run_cpu. rewrite Hmeta. replace (len args =? fm_n_params meta) with true by lia. simpl negb. cbv iota.
  rewrite Hboot, <-slice_0. assert (at_size M m) as Hsz by (unfold at_size; by rewrite (se_msize _ _ Hm)).
  intros Hx. destruct (slice_sys M host w _ HG n r 0 w m Hsz Hx) as (j & Hj & He).
  destruct (lasting M P HL (WD := the_world host w) (fuel_for (n * r))) as [_ HF].
  pose proof (HF (n * r)%nat f fd meta [] [] (first_frame meta) (store_of M) (rev args)) as Hl.
  rewrite rev_involutive in Hl. specialize (Hl ltac:(unfold fuel_for; lia) Hf Hmeta R1 Hst ltac:(by apply Forall_rev)
    ltac:(by rewrite len_rev) Hc m Hm). apply (fine_less M j) in Hl; [|lia].
  change (fine (WD := the_world host w) (sys (WD := the_world host w) M j w m)) in Hl.
  destruct (sys (WD := the_world host w) M j w m) as [|s w' m'|]; [done| |done]. destruct He as (M' & res & -> & Hres).
  destruct Hl as (tr & -> & Hb%exhausted_resources). exists s, tr. split; [done|]. exists M'.
  rewrite Hres; [done|]. by destruct Hb as [-> | [-> | ->]].
Qed.

Lemma linked_results n r :
  (0 < n)%nat → (run_cpu M f args n host r w).1.1 ≠ NotYet →
  (∃ fuel, explains M host w (call fuel f (store_of M) (rev args)) (run_cpu M f args n host r w)) ∨
  gives_up host w (run_cpu M f args n host r w).
Proof using HL Hst HG Hf Hcall Hlen Hargs.
  intros Hn Hx. set (x := run_cpu M f args n host r w) in *. set (k := fuel_for (n * r)).
  pose proof (early_gives_up n r) as Hearly. fold k x in Hearly.
  pose proof (linked_runs M P k f fd args host w HL Hst Hf Hcall Hlen Hargs) as Hr. cbv zeta in Hr.
  assert (∀ N y, (∀ n r, (N ≤ n)%nat → (N ≤ r)%nat → run_cpu M f args n host r w = y) → y.1.1 ≠ NotYet → x = y) as Hdet.
  { intros N y Hy Hny. eapply run_ref_det.
    - eapply (proj1 (run_cpu_ref M f args n host w x HG Hn Hx)). by exists r.
    - eapply (proj1 (run_cpu_ref M f args (S N) host w y HG ltac:(lia) Hny)). exists N. apply Hy; lia. }
  destruct (call k f (store_of M) (rev args)) as [st rs|s tr| |] eqn:Hc; [..|right; by apply Hearly].
  1, 2: destruct Hr as (N & y & Hy & Hr); [done..|]; assert (y.1.1 ≠ NotYet) as Hny
    by (destruct Hr as [Hr|(s' & tr' & _ & M' & ->)]; [|done]; (by rewrite Hr) || (by destruct Hr as (_ & M' & ->)));
    rewrite (Hdet N y Hy Hny); destruct Hr as [Hr|Hr]; [left; exists k; by rewrite Hc|by right].
  left. exists k. by rewrite Hc.
Qed.
End results.
