(* ===== verification/LowerLink.v ===== *)
(** * A translated module is linked to its program

    The translator's state holds, section by section, the code of the program the module
    describes and what the module declares. *)

From S2P Require Import Prelude Cuop Wasm Lower LowerInv LowerSafety EnvTable Module ModuleSteps.
From S2P Require Import ModuleFacts ModuleTables Engine Structured WasmProgram Backpatch LowerTree LowerBack LowerBlocks.
From stdpp Require Import base list strings.

Local Open Scope Z_scope.

(** ** Code in place *)

(** Function [fd] lowered into [code] in the environment [E], after the imports [ids]. *)
Record placed (types : list FuncType) (typeidx : list Z) (ids : list Z) (code : list CuOpC) (consts : list Z)
    (fd : FuncDef) (meta : FuncMetaC) (E : FnEnv) : Prop := {
  pl_params : meta.(fm_n_params) = fd.(fd_params) ∧ E.(e_n_params) = fd.(fd_params) ∧ 0 ≤ fd.(fd_params);
  pl_results : meta.(fm_n_results) = fd.(fd_results) ∧ E.(e_n_results) = fd.(fd_results) ∧ 0 ≤ fd.(fd_results);
  pl_nlocals : meta.(fm_n_locals) = E.(e_n_locals) ∧ 0 ≤ fd.(fd_locals) < 2 ^ 16;
  pl_locals : match E.(e_scratch) with
    | Some sc => E.(e_n_locals) = Z.min (fd.(fd_locals) + 1) (2 ^ 16 - 1) ∧
                 sc = u16 (E.(e_n_params) + E.(e_n_locals) - 1)
    | None => E.(e_n_locals) = fd.(fd_locals)
    end;
  pl_types : E.(e_func_types) `prefix_of` types;
  pl_typeidx : E.(e_func_typeidx) `prefix_of` typeidx;
  pl_imports : E.(e_n_imports) = u32 (len ids) ∧ E.(e_host_fn_ids) = ids;
  pl_tree : forallb tree_ok fd.(fd_body) = true;
  pl_code : ∀ C K, small_out C K → code `prefix_of` C → consts `prefix_of` K →
    0 ≤ meta.(fm_code_off) ∧ ∃ p, meta.(fm_code_len) = p + 1 - meta.(fm_code_off) ∧
      code_for E C K [mkLab p 0 fd.(fd_results) 0] 0 fd.(fd_body) meta.(fm_code_off) p ∧
      ops_at C p [mkCuOp OP_END_FUNC fd.(fd_results) 0] }.

Definition host_id (f : Func) : option Z := match f with Host id _ _ => Some id | Code _ => None end.

(** Function [i] of [F] has its signature, and its code is in place. *)
Definition fn_ok (F : list Func) (types : list FuncType) (typeidx : list Z) (code : list CuOpC) (consts : list Z)
    (i : nat) (meta : FuncMetaC) (f : Func) : Prop :=
  match f with
  | Host _ np nr => meta.(fm_n_params) = np ∧ meta.(fm_n_results) = nr
  | Code fd => ∃ E, placed types typeidx (omap host_id (take i F)) code consts fd meta E
  end.

(** What is emitted later extends what is there. *)
Definition extends (code : list CuOpC) (consts : list Z) (code' : list CuOpC) (consts' : list Z) : Prop :=
  ∀ C K, small_out C K → code' `prefix_of` C → consts' `prefix_of` K → code `prefix_of` C ∧ consts `prefix_of` K.

Lemma fn_ok_mono F ts xs code consts ts' xs' code' consts' i meta f :
  ts `prefix_of` ts' → xs `prefix_of` xs' → extends code consts code' consts' →
  fn_ok F ts xs code consts i meta f → fn_ok F ts' xs' code' consts' i meta f.
Proof.
  intros Ht Hx He. destruct f as [id np nr|fd]; [done|]. intros [E [P1 P2 P3 P4 P5 P6 P7 P8 P9]]. exists E.
  split; try done; [by etrans..|]. intros C K Hs HC HK. apply P9; [done|by eapply He..].
Qed.

(** ** Lowering one body *)

Lemma small_out_prefix code consts C K :
  small_out C K → code `prefix_of` C → consts `prefix_of` K → small_out code consts.
Proof. intros [H1 H2] HC%prefix_len HK%prefix_len. split; lia. Qed.

Lemma lower_extends ops np nr nl code consts ts xs ids meta code' consts' :
  lower_or_stub ops np nr nl code consts ts xs ids = Ok (meta, code', consts') →
  extends code consts code' consts'.
Proof.
  intros H C K Hs HC HK. destruct (lower_or_stub_appends _ _ _ _ _ _ _ _ _ _ _ _ false ltac:(done) H) as (_ & Hk & _ & Ha).
  destruct (Ha (small_out_prefix _ _ _ _ Hs HC HK)) as (Hc & _). split; by etrans.
Qed.

Lemma placed_lowered body np nr nl code consts ts xs ids meta code' consts' :
  forallb tree_ok body = true → 0 ≤ np → 0 ≤ nr → 0 ≤ nl < 2 ^ 16 →
  lower_operators (flatten body ++ [End]) np nr nl code consts ts xs (u32 (len ids)) ids = (Ok meta, (code', consts')) →
  ∃ E, placed ts xs ids code' consts' (mkFuncDef np nr nl body) meta E.
Proof.
  intros Hok Hnp Hnr Hnl H. unfold lower_operators in H.
  destruct (reserve_scratch _ np nl) as [nl' sc] eqn:Hrs.
  set (E := mkFnEnv np nr nl' sc ts xs (u32 (len ids)) ids) in *. exists E.
  destruct (lower_body _ _ _) as [[[]| |] s] eqn:Hl; [|discriminate H..]. injection H as <- <- <-.
  pose proof (len_nonneg ids). pose proof (len_nonneg code). split; try done.
  - unfold reserve_scratch in Hrs. simpl. by destruct (existsb _ _); injection Hrs as <- <-.
  - intros C K Hs HC HK. pose proof (small_out_prefix _ _ _ _ Hs HC HK) as [Hs1 _].
    destruct (body_back E C K (proj2 Hs) body code consts s Hok Hl Hs1 HC HK) as (p & Hp & Hle & Hcf & Ho).
    simpl. rewrite (u32_id (len code)) by lia. split_and!; [done|]. exists p.
    split_and!; [|done..]. rewrite !u32_id by (rewrite ?u32_id; lia). lia.
Qed.

Lemma placed_stub np nr code consts ts xs ids :
  0 ≤ np → 0 ≤ nr →
  ∃ E, placed ts xs ids (stub code np nr).2 consts (mkFuncDef np nr 0 [Basic Unreachable]) (stub code np nr).1 E.
Proof.
  intros Hnp Hnr. exists (mkFnEnv np nr 0 None [] [] (u32 (len ids)) ids). pose proof (len_nonneg code).
  split; try done; try apply prefix_nil. intros C K Hs HC HK. simpl in *.
  pose proof (small_out_prefix _ _ _ _ Hs HC HK) as [Hs1 _]. autorewrite with len in Hs1.
  rewrite u32_id by lia. split_and!; [done|]. exists (len code + 1). split_and!; [lia| |].
  - eapply cf_stop; [|done]. apply oc_unreachable; [|done].
    apply ops_at_one. eapply prefix_lookup_Some; [|exact HC]. unfold len. rewrite Nat2Z.id. by apply list_lookup_middle.
  - apply ops_at_one. eapply prefix_lookup_Some; [|exact HC]. rewrite lookup_app_r by (unfold len; lia).
    by replace (Z.to_nat (len code + 1) - length code)%nat with 1%nat by (unfold len; lia).
Qed.

(** ** Section by section *)

(** What the translator's state has of the declarations. *)
Definition state_decls (s : TState) : Decls :=
  mkDecls s.(ts_func_types) s.(ts_func_typeidx) (snd <$> s.(ts_data)) s.(ts_elem) (len s.(ts_table))
    (if s.(ts_mem).(has_memory) then Z.of_N s.(ts_mem).(mem_min) * WASM_PAGE else 0).

Section progress.
Context (D : Decls) (F : list Func).

(** With the declarations [to] and the functions [fp] still to come. *)
Definition progress (to : Decls) (fp : list Func) (s : TState) : Prop :=
  decl_app (state_decls s) to = D ∧
  ∃ fds, fds ++ fp = F ∧ length fds = length s.(ts_out).(co_funcs) ∧
    s.(ts_imports).(host_fn_ids) = omap host_id fds ∧
    ∀ (i : nat) meta f, s.(ts_out).(co_funcs) !! i = Some meta → fds !! i = Some f →
      fn_ok F s.(ts_func_types) s.(ts_func_typeidx) s.(ts_out).(co_code) s.(ts_out).(co_consts) i meta f.

Lemma extends_refl code consts : extends code consts code consts.
Proof. done. Qed.

(** A declaration that is no function. *)
Lemma progress_decl d to fp s s' :
  progress (decl_app d to) fp s → state_decls s' = decl_app (state_decls s) d →
  s'.(ts_out) = s.(ts_out) → s'.(ts_imports) = s.(ts_imports) → progress to fp s'.
Proof.
  intros (H1 & fds & H2 & H3 & H4 & H5) Hd Ho Hi. split; [by rewrite Hd, decl_app_assoc|].
  exists fds. rewrite Ho, Hi. split_and!; [done..|]. intros i meta f ??.
  unfold state_decls, decl_app in Hd. injection Hd as Ht Hx _ _ _ _. rewrite Ht, Hx.
  eapply fn_ok_mono; [by apply prefix_app_r..|apply extends_refl|by apply (H5 i meta f)].
Qed.

(** A function at the next index, with the declaration [d]. *)
Lemma progress_func f meta code consts d to fp s1 s2 :
  progress (decl_app d to) (f :: fp) s1 → state_decls s2 = decl_app (state_decls s1) d →
  s2.(ts_imports).(host_fn_ids) = s1.(ts_imports).(host_fn_ids) ++ match host_id f with Some id => [id] | None => [] end →
  s2.(ts_out) = mkCodeOut code consts (s1.(ts_out).(co_funcs) ++ [meta]) →
  extends s1.(ts_out).(co_code) s1.(ts_out).(co_consts) code consts →
  (∀ fds, fds ++ f :: fp = F → length fds = length s1.(ts_out).(co_funcs) → s1.(ts_imports).(host_fn_ids) = omap host_id fds →
    fn_ok F s2.(ts_func_types) s2.(ts_func_typeidx) code consts (length fds) meta f) →
  progress to fp s2.
Proof.
  intros (H1 & fds & H2 & H3 & H4 & H5) Hd Hi Ho He Hf. split; [by rewrite Hd, decl_app_assoc|].
  exists (fds ++ [f]). rewrite Ho, <-app_assoc. simpl. rewrite !length_app. simpl. split_and!; [done|lia| |].
  - rewrite Hi, omap_app, H4. simpl. by destruct (host_id f).
  - unfold state_decls, decl_app in Hd. injection Hd as Ht Hx _ _ _ _.
    intros i meta' f' Hm Hl. apply lookup_snoc_Some in Hm as [[_ Hm]|[-> <-]].
    + apply lookup_lt_Some in Hm as Hlt. rewrite lookup_app_l in Hl by lia. rewrite Ht, Hx.
      eapply fn_ok_mono; [by apply prefix_app_r..|exact He|by apply (H5 i meta' f')].
    + rewrite <-H3, list_lookup_middle in Hl by done. injection Hl as <-. rewrite <-H3. by apply Hf.
Qed.

(** The function that [body_def] reads off a body is the one whose code is emitted. *)
Lemma body_parts_item b lr nl r ops :
  b.(fb_locals) = Item lr → count_locals lr 0 = Ok nl → b.(fb_operators) = Item r → read_ops r = Ok ops →
  body_parts b = Some (nl, ops).
Proof. intros H1 H2 H3 H4. unfold body_parts. rewrite H1. simpl. rewrite H2. simpl. rewrite H3. simpl. by rewrite H4. Qed.

Lemma body_tree_flatten ops body :
  body_tree ops = Some body → ops = flatten body ++ [End] ∧ forallb tree_ok body = true.
Proof.
  unfold body_tree. destruct (parse_body ops) as [l|] eqn:Hp; [|done]. simpl. destruct (forallb tree_ok l) eqn:Hok; [|done].
  intros [= ->]. split; [by apply parse_body_flatten|done].
Qed.

Lemma body_def_placed s b fd t ft lr nl r ops meta code consts :
  body_def s b = Some fd → s.(ts_func_typeidx) !! length s.(ts_out).(co_funcs) = Some t →
  s.(ts_func_types) !! Z.to_nat t = Some ft →
  b.(fb_locals) = Item lr → count_locals lr 0 = Ok nl → b.(fb_operators) = Item r → read_ops r = Ok ops →
  lower_or_stub ops (u16 (len ft.1)) (u16 (len ft.2)) (u16 nl) s.(ts_out).(co_code) s.(ts_out).(co_consts)
    s.(ts_func_types) s.(ts_func_typeidx) s.(ts_imports).(host_fn_ids) = Ok (meta, code, consts) →
  ∃ E, placed s.(ts_func_types) s.(ts_func_typeidx) s.(ts_imports).(host_fn_ids) code consts fd meta E.
Proof.
  intros Hfd Ht Hft Hlr Hnl Hr Hops Hlow. unfold body_def in Hfd. rewrite Ht in Hfd. simpl in Hfd.
  rewrite Hft, (body_parts_item b lr nl r ops) in Hfd by done. simpl in Hfd. unfold gives_up in Hfd. unfold lower_or_stub in Hlow.
  pose proof (u16_range (len ft.1)). pose proof (u16_range (len ft.2)). pose proof (u16_range nl).
  destruct (lower_operators _ _ _ _ _ _ _ _ _ _) as [res [c1 k1]] eqn:Hrun. simpl in Hfd.
  destruct res as [m|e|w]; [| |done].
  - destruct (body_tree ops) as [body|] eqn:Hp; [|done]. simpl in Hfd. apply body_tree_flatten in Hp as [-> Hok].
    injection Hfd as <-. injection Hlow as -> -> ->.
    eapply placed_lowered; [done|lia|lia|lia|exact Hrun].
  - injection Hfd as <-.
    destruct (stub c1 (u16 (len ft.1)) (u16 (len ft.2))) as [m c2] eqn:Hst. injection Hlow as -> -> ->.
    pose proof (placed_stub (u16 (len ft.1)) (u16 (len ft.2)) c1 consts s.(ts_func_types) s.(ts_func_typeidx)
      s.(ts_imports).(host_fn_ids) ltac:(lia) ltac:(lia)) as HS. by rewrite Hst in HS.
Qed.

(** *** Handlers *)

(** A handler that declares [d]. *)
Definition declares (d : Decls) (m : TM unit) : Prop :=
  ∀ to fp s, progress (decl_app d to) fp s → wp m (fun _ => progress to fp) (fun _ => True) s.

Lemma declares_items {A} ctx (r : list (item A)) body g :
  (∀ x, declares (g x) (body x)) → declares (decls g (items r)) (for_items ctx r body).
Proof.
  intros Hb to fp s H. pose proof (wp_for_each r
    (fun it => x ← lift (read ctx it); body x) (fun r' => progress (decl_app (decls g (items r')) to) fp)
    (fun _ => True) s H) as Hw. eapply wp_mono; [apply Hw| |done].
  - clear s H Hw. intros [x|e] r' s H; [|done]. apply wp_read; [apply _|]. intros y [= <-]. apply Hb.
    simpl in H. by rewrite decl_app_assoc in H.
  - intros u s' Hs. by rewrite decl_app_nil_l in Hs.
Qed.

Lemma declares_read {A} d (o : outcome A) f : NoPanic o → (∀ a, o = Ok a → declares d (f a)) → declares d (lift o ≫= f).
Proof. intros Ho Hf to fp s H. apply wp_read; [done|]. intros a Ha. by apply Hf. Qed.

Lemma declares_gets {A} d (g : TState → A) f : (∀ a, declares d (f a)) → declares d (gets g ≫= f).
Proof. intros Hf to fp s H. apply wp_bind, wp_gets. by apply Hf. Qed.

Lemma declares_fail d e : declares d (fail e).
Proof. by intros to fp s H. Qed.

Lemma declares_ret : declares no_decl (mret tt).
Proof. intros to fp s H. by rewrite decl_app_nil_l in H. Qed.

Lemma declares_modify d f :
  (∀ s, state_decls (f s) = decl_app (state_decls s) d ∧ (f s).(ts_out) = s.(ts_out) ∧ (f s).(ts_imports) = s.(ts_imports)) →
  declares d (modify f).
Proof. intros Hf to fp s H. apply wp_modify. destruct (Hf s) as (E1 & E2 & E3). by eapply progress_decl. Qed.

Lemma state_decls_app s d :
  state_decls s = decl_app (state_decls s) d ↔ d = no_decl.
Proof.
  split; [|intros ->; by rewrite decl_app_nil_r]. intros H. destruct d as [a b c e t m].
  unfold state_decls, decl_app in H. simpl in H. injection H as H1 H2 H3 H4 H5 H6.
  rewrite <-(app_nil_r (ts_func_types s)) in H1 at 1. rewrite <-(app_nil_r (ts_func_typeidx s)) in H2 at 1.
  rewrite <-(app_nil_r (snd <$> ts_data s)) in H3 at 1. rewrite <-(app_nil_r (ts_elem s)) in H4 at 1.
  apply app_inv_head in H1, H2, H3, H4. subst. unfold no_decl. f_equal; lia.
Qed.

Ltac declares_tac := repeat
  match goal with
  | |- ∀ _, _ => intros ?
  | |- declares _ (lift _ ≫= _) => apply declares_read; [apply _|]
  | |- declares _ (gets _ ≫= _) => apply declares_gets
  | |- declares _ (if ?b then _ else _) => destruct b
  | |- declares _ (match ?x with _ => _ end) => destruct x
  | |- declares _ (fail _) => apply declares_fail
  | |- declares _ (mret _) => apply declares_ret
  end.

Ltac decl_eq := intros; unfold state_decls, decl_app; simpl; rewrite ?app_nil_r, ?Z.add_0_r, ?fmap_app; done.

Lemma declares_memory m : declares (mkDecls [] [] [] [] 0 (Z.of_N m.(mt_initial) * WASM_PAGE)) (memory_entry m).
Proof.
  intros to fp s H. unfold memory_entry. apply wp_bind, wp_gets. destruct (has_memory _) eqn:Hm; [done|].
  repeat (match goal with |- wp (if ?b then _ else _) _ _ _ => destruct b end; [done|]).
  apply wp_modify. eapply progress_decl; [exact H| |done|done].
  unfold state_decls, decl_app. simpl. rewrite Hm, !app_nil_r, Z.add_0_r. done.
Qed.

Lemma declares_table t : declares (mkDecls [] [] [] [] (Z.max 0 t.(tt_initial)) 0) (table_entry t).
Proof.
  intros to fp s H. unfold table_entry. apply wp_bind, wp_gets. destruct (negb _) eqn:Hm; [done|].
  repeat (match goal with |- wp (if ?b then _ else _) _ _ _ => destruct b end; [done|]).
  apply wp_modify. eapply progress_decl; [exact H| |done|done].
  unfold state_decls, decl_app. simpl. rewrite len_replicate, !app_nil_r, Z.add_0_r. f_equal. lia.
Qed.

Lemma declares_element el : declares (elem_decl el) (element_entry el).
Proof.
  unfold element_entry, elem_decl. apply declares_read; [apply _|]. intros off ->.
  apply declares_read; [apply _|]. intros idxs ->. apply declares_modify. intros s. split_and!; [decl_eq|done..].
Qed.

Lemma declares_data d : declares (mkDecls [] [] [d.(d_data)] [] 0 0) (data_entry d).
Proof.
  unfold data_entry. declares_tac; apply declares_modify; intros s; (split_and!; [decl_eq|done..]).
Qed.

Lemma declares_global g : declares no_decl (global_entry g).
Proof. unfold global_entry. declares_tac; apply declares_modify; intros s; (split_and!; [decl_eq|done..]). Qed.

Lemma declares_export ex : declares no_decl (export_entry ex).
Proof. unfold export_entry. declares_tac; apply declares_modify; intros s; (split_and!; [decl_eq|done..]). Qed.

Lemma decls_none {A} (l : list A) : decls (fun _ => no_decl) l = no_decl.
Proof. by induction l as [|x l IH]; [|simpl; rewrite IH]. Qed.

(** A record of the type section. *)
Lemma wp_type_entries rec to fp s :
  progress (decl_app (decls (decl_types ∘ entry_types) rec) to) fp s →
  wp (for_each rec type_entry) (fun _ => progress to fp) (fun _ => True) s.
Proof.
  intros H. eapply wp_mono; [apply (wp_for_each rec type_entry
    (fun rec' => progress (decl_app (decls (decl_types ∘ entry_types) rec') to) fp) (fun _ => True)); [done|]| |done].
  - clear. intros [ps rs|] rec' s H; [|done]. simpl.
    apply wp_read; [apply _|]. intros [] _. apply wp_read; [apply _|]. intros [] _. apply wp_modify.
    simpl in H. rewrite decl_app_assoc in H. eapply progress_decl; [exact H|decl_eq|done..].
  - intros u s' Hs. simpl in Hs. by rewrite decl_app_nil_l in Hs.
Qed.

Lemma declares_function_section r : declares (decls (fun t => decl_typeidx [t]) (items r)) (function_section r).
Proof. apply declares_items. intros t. apply declares_modify. intros s. split_and!; [decl_eq|done..]. Qed.

(** *** Functions *)

(** An imported function. *)
Lemma wp_import root imp f to fp s :
  import_def root D.(de_types) imp = Some f → progress (decl_app (decl_typeidx (import_types imp)) to) (f :: fp) s →
  wp (import_entry root imp) (fun _ => progress to fp) (fun _ => True) s.
Proof.
  intros Hf H. unfold import_entry, import_def, import_types in *. destruct imp.(imp_ty) as [t|]; [|done].
  unfold import_func. apply wp_bind, wp_gets. destruct (ts_func_types s !! Z.to_nat t) as [ft|] eqn:Hft; [|done].
  apply wp_read; [apply _|]. intros [] _. apply wp_read; [apply _|]. intros [] _.
  apply wp_read; [apply _|]. intros id Hid. rewrite Hid in Hf.
  pose proof H as [HD _]. assert (D.(de_types) !! Z.to_nat t = Some ft) as HtD
    by (rewrite <-HD; simpl; by apply lookup_app_l_Some).
  rewrite HtD in Hf. injection Hf as <-.
  apply wp_bind, wp_modify, wp_bind, wp_modify, wp_modify.
  by eapply progress_func; [exact H|decl_eq|done|done|apply extends_refl|].
Qed.

Lemma wp_import_section root r fs to fp s :
  mapM (import_def root D.(de_types)) (items r) = Some fs →
  progress (decl_app (decls (decl_typeidx ∘ import_types) (items r)) to) (fs ++ fp) s →
  wp (import_section root r) (fun _ => progress to fp) (fun _ => True) s.
Proof.
  intros Hfs H. unfold import_section, for_items. eapply wp_mono; [apply (wp_for_each r _
    (fun r' s => ∃ fs, mapM (import_def root D.(de_types)) (items r') = Some fs ∧
       progress (decl_app (decls (decl_typeidx ∘ import_types) (items r')) to) (fs ++ fp) s) (fun _ => True)); [eauto| ]| |done].
  - clear. intros [imp|e] r' s (fs & Hfs & H); [|done]. apply wp_read; [apply _|]. intros y [= <-].
    apply mapM_Some in Hfs. inversion Hfs as [|? f ? fs' Hf Hfs']; subst. simpl in H. rewrite decl_app_assoc in H.
    eapply wp_mono; [by eapply wp_import| |done]. intros u s2 H'. exists fs'. split; [by apply mapM_Some|done].
  - intros u s' (fs' & Hfs' & Hs). injection Hfs' as <-. by rewrite decl_app_nil_l in Hs.
Qed.

Lemma wp_code b fd to fp s :
  body_def s b = Some fd → progress to (Code fd :: fp) s →
  wp (code_entry b) (fun _ => progress to fp) (fun _ => True) s.
Proof.
  intros Hb H. unfold code_entry. apply wp_bind, wp_gets. unfold id.
  destruct (ts_func_typeidx s !! _) as [t|] eqn:Ht; [|done].
  destruct (ts_func_types s !! _) as [ft|] eqn:Hft; [|done].
  apply wp_read; [apply _|]. intros lr Hlr. apply wp_read; [apply _|]. intros nl Hnl.
  destruct (2 ^ 16 - 1 <? nl); [done|].
  apply wp_read; [apply _|]. intros r Hr. apply wp_read; [apply _|]. intros ops Hops.
  apply wp_read; [apply _|]. intros [[meta code] consts] Hlow.
  assert (b.(fb_locals) = Item lr) as Hlr' by (destruct (fb_locals b); by simplify_eq/=).
  assert (b.(fb_operators) = Item r) as Hr' by (destruct (fb_operators b); by simplify_eq/=).
  destruct (body_def_placed s b fd t ft lr nl r ops meta code consts) as [E HE]; try done.
  apply wp_modify. rewrite <-(decl_app_nil_l to) in H.
  eapply (progress_func (Code fd) meta code consts); [exact H|decl_eq|simpl; by rewrite app_nil_r|done|by eapply lower_extends|].
  intros fds HF _ Hids. exists E. rewrite <-HF, take_app_length, <-Hids. exact HE.
Qed.

Lemma wp_progress root p fs to fp s :
  payload_funcs root D.(de_types) p s = Some fs → progress (decl_app (payload_decls p) to) (fs ++ fp) s →
  wp (payload_step root p) (fun _ => progress to fp) (fun _ => True) s.
Proof.
  intros Hfs H. destruct p as [r|r|r|r|r|r|r| |r|r|b| |]; simpl in *; try injection Hfs as <-; try done.
  - eapply (declares_items _ _ _ (decls (decl_types ∘ entry_types))); [|exact H].
    intros rec to' fp' s' H'. by apply wp_type_entries.
  - by apply declares_function_section.
  - by eapply wp_import_section.
  - by eapply declares_items; [apply declares_memory|].
  - by eapply declares_items; [apply declares_table|].
  - by eapply declares_items; [apply declares_element|].
  - by eapply declares_items; [apply declares_data|].
  - eapply declares_items; [apply declares_global|]. by rewrite decls_none.
  - eapply declares_items; [apply declares_export|]. by rewrite decls_none.
  - destruct (body_def s b) as [fd|] eqn:Hb; [|done]. injection Hfs as <-. rewrite decl_app_nil_l in H. by apply (wp_code b fd).
Qed.

Lemma progress_payloads root ps fs s s' :
  functions_from root D.(de_types) ps s = Some fs → payload_loop root ps s = (Ok tt, s') →
  progress (decls_of ps) fs s → progress no_decl [] s'.
Proof.
  revert fs s. induction ps as [|[p|e] ps IH]; intros fs s Hfs Hl H; [|simpl in *|done].
  - injection Hfs as <-. injection Hl as <-. done.
  - apply bind_Ok in Hl as ([] & s1 & H1 & Hl). simpl in H1.
    assert (payload_step root p s = (Ok tt, s1)) as Hp by done. rewrite Hp in Hfs.
    destruct (payload_funcs root D.(de_types) p s) as [fs1|] eqn:Hf1; [|done]. simpl in Hfs.
    destruct (functions_from root D.(de_types) ps s1) as [fs2|] eqn:Hf2; [|done]. injection Hfs as <-.
    apply (IH fs2 s1 Hf2 Hl). eapply (wp_ok _ _ _ _ _ _ (wp_progress root p fs1 _ _ s Hf1 H) Hp).
Qed.

(** *** As it is written *)

Lemma code_entry_locals b s nl ops :
  body_parts b = Some (nl, ops) → wlp (code_entry b) (fun _ _ => nl < 2 ^ 16) s.
Proof.
  intros Hb. unfold code_entry. apply wlp_gets. unfold id.
  destruct (ts_func_typeidx s !! _) as [t|]; [|apply wlp_fail]. destruct (ts_func_types s !! _) as [ft|]; [|apply wlp_fail].
  apply wlp_lift. intros lr Hlr. apply wlp_lift. intros nl' Hnl.
  destruct (2 ^ 16 - 1 <? nl') eqn:Hle; [apply wlp_fail|]. apply Z.ltb_ge in Hle. intros u s' _.
  unfold body_parts in Hb. destruct (fb_locals b); [|done]. injection Hlr as <-. simpl in Hb. rewrite Hnl in Hb. simpl in Hb.
  destruct (item_of _); [|done]. simpl in Hb. destruct (ok_of _); [|done]. injection Hb as -> _. lia.
Qed.

(** The numbers of locals are no negative ones. *)
Definition counts_ok (it : item Payload) : bool :=
  match it with
  | Item (CodeSectionEntry b) => match body_parts b with Some (nl, _) => 0 <=? nl | None => true end
  | _ => true
  end.

(** The body of one function. *)
Lemma body_stands s b fd g t (ft : FuncType) :
  s.(ts_func_typeidx) !! length s.(ts_out).(co_funcs) = Some t → s.(ts_func_types) !! Z.to_nat t = Some ft →
  len ft.1 ≤ 8 ∧ len ft.2 ≤ 8 → (∀ nl ops, body_parts b = Some (nl, ops) → 0 ≤ nl < 2 ^ 16) →
  body_def s b = Some fd → source_def ft b = Some g → stands_for (Code g) (Code fd).
Proof.
  intros Ht Hft [Hp Hr] Hnl Hfd Hg. unfold body_def in Hfd. unfold source_def in Hg.
  rewrite Ht in Hfd. simpl in Hfd. rewrite Hft in Hfd. simpl in Hfd.
  pose proof (len_nonneg ft.1). pose proof (len_nonneg ft.2).
  destruct (body_parts b) as [[nl ops]|] eqn:Hb; [|done]. simpl in *. specialize (Hnl nl ops eq_refl).
  rewrite !u16_id in Hfd by lia. destruct (body_tree ops) as [body|]; [|done]. simpl in *. injection Hg as <-.
  destruct (gives_up s ft nl ops); injection Hfd as <-; [right|by left]. by eexists.
Qed.

Lemma progress_count to fp s : progress to fp s → length F = (length s.(ts_out).(co_funcs) + length fp)%nat.
Proof. intros (_ & fds & <- & <- & _). apply length_app. Qed.

Lemma progress_prefix to fp s :
  progress to fp s → s.(ts_func_types) `prefix_of` D.(de_types) ∧ s.(ts_func_typeidx) `prefix_of` D.(de_typeidx).
Proof. intros [<- _]. split; by apply prefix_app_r. Qed.

Lemma stands_refl fs : Forall2 stands_for fs fs.
Proof. induction fs; constructor; [by left|done]. Qed.

Hypothesis Hsmall : Forall (fun ft : FuncType => len ft.1 ≤ 8 ∧ len ft.2 ≤ 8) D.(de_types).

Lemma source_step root p fs fw to fp s s' :
  counts_ok (Item p) = true → payload_funcs root D.(de_types) p s = Some fs → payload_step root p s = (Ok tt, s') →
  progress to fp s → source_funcs root D p (length s.(ts_out).(co_funcs)) = Some fw → Forall2 stands_for fw fs.
Proof using Hsmall.
  intros Hcnt Hf Hs H Hw. destruct p as [r|r|r|r|r|r|r| |r|r|b| |]; simpl in *; try (injection Hf as <-; injection Hw as <-; constructor).
  - rewrite Hf in Hw. injection Hw as <-. apply stands_refl.
  - destruct (progress_prefix _ _ _ H) as [P1 P2]. destruct (body_def s b) as [fd|] eqn:Hb; [|done]. injection Hf as <-.
    assert (∃ t ft, s.(ts_func_typeidx) !! length s.(ts_out).(co_funcs) = Some t ∧ s.(ts_func_types) !! Z.to_nat t = Some ft)
      as (t & ft & Ht & Hft).
    { unfold body_def in Hb. destruct (ts_func_typeidx s !! _) as [t|]; [|done]. simpl in Hb.
      destruct (ts_func_types s !! Z.to_nat t) as [ft|] eqn:E; [|done]. by exists t, ft. }
    rewrite (prefix_lookup_Some _ _ _ _ Ht P2) in Hw. simpl in Hw. rewrite (prefix_lookup_Some _ _ _ _ Hft P1) in Hw. simpl in Hw.
    destruct (source_def ft b) as [g|] eqn:Hg; [|done]. injection Hw as <-. constructor; [|constructor].
    eapply body_stands; [exact Ht|exact Hft| | |exact Hb|exact Hg].
    + apply (Forall_lookup_1 _ _ _ _ Hsmall (prefix_lookup_Some _ _ _ _ Hft P1)).
    + intros nl ops Hp. split; [|exact (code_entry_locals _ _ _ _ Hp _ _ Hs)]. rewrite Hp in Hcnt. by apply Z.leb_le.
Qed.

Lemma source_payloads root ps fs fw s s' :
  forallb counts_ok ps = true → functions_from root D.(de_types) ps s = Some fs → payload_loop root ps s = (Ok tt, s') →
  progress (decls_of ps) fs s → source_from root D ps (length s.(ts_out).(co_funcs)) = Some fw → Forall2 stands_for fw fs.
Proof using Hsmall.
  intros Hcnt. revert Hcnt fs fw s. induction ps as [|[p|e] ps IH]; intros Hcnt fs fw s Hfs Hl H Hw; [| |done].
  - injection Hfs as <-. injection Hw as <-. constructor.
  - apply bind_Ok in Hl as ([] & s1 & H1 & Hl). simpl in H1, Hfs, Hw.
    assert (payload_step root p s = (Ok tt, s1)) as Hp by done. rewrite Hp in Hfs.
    destruct (payload_funcs root D.(de_types) p s) as [fs1|] eqn:Hf1; [|done]. simpl in Hfs.
    destruct (functions_from root D.(de_types) ps s1) as [fs2|] eqn:Hf2; [|done]. injection Hfs as <-.
    destruct (source_funcs root D p _) as [fw1|] eqn:Hw1; [|done]. simpl in Hw.
    destruct (source_from root D ps _) as [fw2|] eqn:Hw2; [|done]. injection Hw as <-.
    cbn [forallb] in Hcnt. apply andb_true_iff in Hcnt as [Hcnt Hcs].
    pose proof (source_step root p fs1 fw1 _ _ s s1 Hcnt Hf1 Hp H Hw1) as H12.
    pose proof (wp_ok _ _ _ _ _ _ (wp_progress root p fs1 _ _ s Hf1 H) Hp) as Hn.
    apply Forall2_app; [done|]. apply (IH Hcs fs2 fw2 s1 Hf2 Hl Hn).
    apply progress_count in H, Hn. apply Forall2_length in H12. rewrite length_app in H.
    by replace (length s1.(ts_out).(co_funcs)) with (length s.(ts_out).(co_funcs) + length fw1)%nat by lia.
Qed.
End progress.

(** The state a translation ends in holds what the module declares, and the code of every
    function. *)
Lemma program_placed root ps P s :
  program_of root ps = Some P → payload_loop root ps init_state = (Ok tt, s) →
  let d := decls_of ps in
  P = mkProg P.(p_funcs) d.(de_types) d.(de_typeidx) (table_of d) d.(de_datas) d.(de_memory) ∧
  progress d P.(p_funcs) no_decl [] s.
Proof.
  unfold program_of. destruct (functions_from _ _ _ _) as [fs|] eqn:Hfs; [|done]. intros [= <-] Hl.
  split; [done|]. eapply progress_payloads; [exact Hfs|exact Hl|]. split; [apply decl_app_nil_l|].
  by exists [].
Qed.
