(* ===== verification/LowerProgram.v ===== *)
(** * From a module's sections to its results

    A module that loads runs as the program its sections describe: the translator's
    output is linked to that program, and the driver runs a linked module as the
    reference semantics runs the program. *)

From S2P Require Import Prelude Cuop Wasm Lower LowerInv LowerSafety EnvTable Module ModuleSteps.
From S2P Require Import ModuleFacts ModuleTables Engine EngineNum EngineSlice Verify VerifyFacts VerifyComplete EngineInv EngineSound Loadable.
From S2P Require Import Structured WasmProgram Backpatch LowerTree LowerBack LowerBlocks EngineView ViewCalls ViewHost.
From S2P Require Import LowerNum LowerMem LowerOps LowerBulk LowerBasic LowerSim LowerOutcome LowerCalls LowerCorrect LowerRun LowerLink.
From stdpp Require Import base list strings.

Local Open Scope Z_scope.

Lemma fingerprints_small ts fps :
  fingerprints ts = Ok fps → Forall (fun ft : FuncType => len ft.1 ≤ 8 ∧ len ft.2 ≤ 8) ts.
Proof.
  intros H. apply Forall_forall. intros ft [k Hk]%list_elem_of_lookup.
  destruct (fingerprints_lookup _ _ _ _ H Hk) as (fp & _ & Hfp).
  by apply type_fingerprint_counts in Hfp as (_ & _ & ? & ?).
Qed.

(** ** The host's functions come first *)

Lemma hosts_cons f fs :
  omap host_id (f :: fs) = match host_id f with Some id => id :: omap host_id fs | None => omap host_id fs end.
Proof. done. Qed.

Lemma omap_host_none fs : omap host_id fs = [] ↔ Forall (fun f => host_id f = None) fs.
Proof.
  induction fs as [|f fs IH]; [done|]. rewrite hosts_cons, Forall_cons, <-IH. by destruct (host_id f); split; [|intros []|split|intros []].
Qed.

Lemma hosts_le fs : (length (omap host_id fs) ≤ length fs)%nat.
Proof. induction fs as [|f fs IH]; [done|]. rewrite hosts_cons. destruct (host_id f); cbn [length]; lia. Qed.

(** When the first functions are those of the host, they are in the order of the imports,
    and every other function comes after all of them. *)
Lemma hosts_first fs :
  (∀ (i : nat) f, fs !! i = Some f → (i < length (omap host_id fs))%nat → is_Some (host_id f)) →
  (∀ (i : nat) id np nr, fs !! i = Some (Host id np nr) → omap host_id fs !! i = Some id) ∧
  (∀ (i : nat) fd, fs !! i = Some (Code fd) → omap host_id (take i fs) = omap host_id fs).
Proof.
  induction fs as [|f fs IH]; intros H; [done|]. rewrite hosts_cons in *. destruct f as [id np nr|fd]; cbn [host_id] in *.
  - destruct IH as [IH1 IH2]; [intros i f Hf Hi; apply (H (S i) f Hf), (proj1 (Nat.succ_lt_mono _ _) Hi)|]. split.
    + intros [|i] id' np' nr'; simpl; [by intros [= <- _ _]|by apply IH1].
    + intros [|i] fd' Hi; [done|]. cbn [take]. rewrite hosts_cons. cbn [host_id]. by rewrite (IH2 i fd').
  - assert (omap host_id fs = []) as Hn.
    { destruct (omap host_id fs) eqn:E; [done|]. destruct (H 0%nat (Code fd) eq_refl) as [x Hx]; [simpl; lia|done]. }
    pose proof (proj1 (omap_host_none _) Hn) as Hno. rewrite Hn. split.
    + intros [|i] id np nr; simpl; [done|]. intros Hi. by apply (Forall_lookup_1 _ _ _ _ Hno) in Hi.
    + intros [|i] fd' _; [done|]. cbn [take]. rewrite hosts_cons. cbn [host_id]. by apply omap_host_none, Forall_take.
Qed.

(** The arity a call is lowered with is that of the function it calls. *)
Lemma func_arity_prefix types typeidx ts xs i t (ft : FuncType) np nr :
  typeidx !! i = Some t → types !! Z.to_nat t = Some ft → ts `prefix_of` types → xs `prefix_of` typeidx →
  func_arity (Z.of_nat i) ts xs = Ok (np, nr) → np = u16 (len ft.1) ∧ nr = u16 (len ft.2).
Proof.
  intros Ht Hft Hts Hxs. unfold func_arity. rewrite Nat2Z.id.
  destruct (xs !! i) as [t'|] eqn:Ht'; [|done]. rewrite (prefix_lookup_Some _ _ _ _ Ht' Hxs) in Ht. injection Ht as ->.
  destruct (ts !! Z.to_nat t) as [ft'|] eqn:Hft'; [|done]. rewrite (prefix_lookup_Some _ _ _ _ Hft' Hts) in Hft.
  injection Hft as ->. by intros [= <- <-].
Qed.

(** Every function of the module is one of the program, and a host function has no code. *)
Definition served (M : HostModule) (P : Prog) : Prop :=
  ∀ (i : nat) f, M.(hm_funcs) !! i = Some f →
    ∃ g, P.(p_funcs) !! i = Some g ∧ match g with Host _ _ _ => imported M i f | Code _ => True end.

Section link.
Context (s : TState) (M : HostModule) (P : Prog) (fps : list Z).
Hypothesis Hsmall : small_out M.(hm_code) M.(hm_consts).
Hypothesis Hcode : M.(hm_code) = s.(ts_out).(co_code).
Hypothesis Hconsts : M.(hm_consts) = s.(ts_out).(co_consts).
Hypothesis Hfuncs : Forall2 same_func s.(ts_out).(co_funcs) M.(hm_funcs).
Hypothesis Hnfuncs : len M.(hm_funcs) < 2 ^ 32.
Hypothesis Hsig : sig_inv [] s.
Hypothesis Htypes : P.(p_types) = s.(ts_func_types).
Hypothesis Htypeidx : P.(p_typeidx) = s.(ts_func_typeidx).
Hypothesis Hfps : fingerprints s.(ts_func_types) = Ok fps.
Hypothesis Hlen : length P.(p_funcs) = length s.(ts_out).(co_funcs).
Hypothesis Hids : s.(ts_imports).(host_fn_ids) = omap host_id P.(p_funcs).
Hypothesis Hfn : ∀ (i : nat) meta f, s.(ts_out).(co_funcs) !! i = Some meta → P.(p_funcs) !! i = Some f →
  fn_ok P.(p_funcs) s.(ts_func_types) s.(ts_func_typeidx) s.(ts_out).(co_code) s.(ts_out).(co_consts) i meta f.

Let ids := omap host_id P.(p_funcs).

Lemma meta_of (i : nat) f :
  P.(p_funcs) !! i = Some f → ∃ meta, s.(ts_out).(co_funcs) !! i = Some meta ∧
    fn_ok P.(p_funcs) s.(ts_func_types) s.(ts_func_typeidx) s.(ts_out).(co_code) s.(ts_out).(co_consts) i meta f ∧
    ∃ t ft, s.(ts_func_typeidx) !! i = Some t ∧ s.(ts_func_types) !! Z.to_nat t = Some ft ∧
      len ft.1 ≤ 8 ∧ len ft.2 ≤ 8 ∧ meta.(fm_n_params) = u16 (len ft.1) ∧ meta.(fm_n_results) = u16 (len ft.2).
Proof using Hlen Hfn Hsig Hfps.
  intros Hf. destruct (lookup_lt_is_Some_2 s.(ts_out).(co_funcs) i) as [meta Hm];
    [rewrite <-Hlen; by eapply lookup_lt_Some|]. exists meta. split_and!; [done|by apply Hfn|].
  destruct Hsig as (H1 & _). destruct (H1 i meta Hm) as (t & ft & Ht & Hft & Hp & Hr). exists t, ft.
  destruct (Forall_lookup_1 _ _ _ _ (fingerprints_small _ _ Hfps) Hft). by split_and!.
Qed.

(** The imports are the first functions. *)
Lemma first_are_hosts (i : nat) f : P.(p_funcs) !! i = Some f → (i < length ids)%nat → is_Some (host_id f).
Proof using Hsmall Hcode Hconsts Hsig Hlen Hids Hfn Hfps.
  intros Hf Hi. destruct f as [id np nr|fd]; [by eexists|]. destruct (meta_of _ _ Hf) as (meta & Hm & [E HE] & _).
  destruct (pl_code _ _ _ _ _ _ _ _ HE M.(hm_code) M.(hm_consts)) as (_ & p & Hlp & Hcf%code_for_mono & _);
    [done|by rewrite Hcode|by rewrite Hconsts|]. destruct Hsig as (_ & H2 & _).
  rewrite Hids in H2. destruct (H2 i meta Hm Hi) as (_ & ? & _). lia.
Qed.

Lemma imports_small : len ids < 2 ^ 32.
Proof using Hnfuncs Hfuncs Hlen.
  assert (len ids ≤ len P.(p_funcs)) as Hle.
  { unfold ids, len. apply inj_le, hosts_le. }
  apply Forall2_length in Hfuncs. unfold len in *. lia.
Qed.

(** What the code of a function knows of the program. *)
Lemma placed_env fd (i : nat) meta E :
  P.(p_funcs) !! i = Some (Code fd) →
  placed s.(ts_func_types) s.(ts_func_typeidx) (omap host_id (take i P.(p_funcs))) s.(ts_out).(co_code)
    s.(ts_out).(co_consts) fd meta E → env_ok P E.
Proof using Hsmall Hcode Hconsts Hfuncs Hnfuncs Hsig Htypes Hlen Hids Hfn Hfps.
  intros Hi HE. destruct (hosts_first _ first_are_hosts) as [Hf1 Hf2]. pose proof imports_small as Hsm.
  destruct (pl_imports _ _ _ _ _ _ _ _ HE) as [N1 N2]. rewrite (Hf2 _ _ Hi) in N1, N2. fold ids in N1, N2.
  pose proof (len_nonneg ids). rewrite u32_id in N1 by lia. pose proof (pl_types _ _ _ _ _ _ _ _ HE) as Hty.
  pose proof (pl_typeidx _ _ _ _ _ _ _ _ HE) as Hti. split; [by rewrite Htypes|..].
  - intros f fd' [H0 Hf]%index_Some. destruct (meta_of _ _ Hf) as (meta' & _ & [E' HE'] & t & ft & Ht & Hft & _ & _ & Hp & Hr).
    split.
    + rewrite N1. destruct (decide (Z.to_nat f < length ids)%nat) as [Hlt|]; [|unfold len; lia].
      by destruct (first_are_hosts _ _ Hf Hlt).
    + intros np nr Har. rewrite <-(Z2Nat.id f) in Har by done.
      destruct (func_arity_prefix _ _ _ _ _ _ _ _ _ Ht Hft Hty Hti Har) as [-> ->].
      destruct (pl_params _ _ _ _ _ _ _ _ HE') as [<- _]. destruct (pl_results _ _ _ _ _ _ _ _ HE') as [<- _]. done.
  - intros f id np' nr' [H0 Hf]%index_Some. pose proof (Hf1 _ _ _ _ Hf) as Hid. fold ids in Hid.
    destruct (meta_of _ _ Hf) as (meta' & _ & [<- <-] & t & ft & Ht & Hft & L1 & L2 & Hp & Hr). split_and!.
    + rewrite N1. apply lookup_lt_Some in Hid. unfold len. lia.
    + intros id' Hid'. rewrite N2 in Hid'. congruence.
    + intros np nr Har. rewrite <-(Z2Nat.id f) in Har by done.
      destruct (func_arity_prefix _ _ _ _ _ _ _ _ _ Ht Hft Hty Hti Har) as [-> ->]. pose proof (len_nonneg ft.1).
      pose proof (len_nonneg ft.2). rewrite !u16_id in * by lia. done.
Qed.

Lemma progress_linked :
  M.(hm_func_typeidx) = s.(ts_func_typeidx) → M.(hm_type_fp) = fps →
  P.(p_table) = slot <$> M.(hm_table) → datas_ok M P.(p_datas) → P.(p_msize) = M.(hm_mem_size) → linked M P.
Proof using All.
  intros E1 E2 E3 E4 E5. split; try done; [apply Hsmall|rewrite Htypes; by eapply fingerprints_small|..].
  - intros f fd [Hf0 Hf]%index_Some. destruct (meta_of _ _ Hf) as (meta & Hm & [E HE] & _).
    destruct (Forall2_lookup_l _ _ _ _ _ Hfuncs Hm) as (meta' & Hm' & n & ->).
    destruct (pl_code _ _ _ _ _ _ _ _ HE M.(hm_code) M.(hm_consts)) as (Hoff & p & Hlp & Hcf & Hend);
      [done|by rewrite Hcode|by rewrite Hconsts|].
    exists (set_max_stack n meta), E, p. split; [by apply index_Some|].
    pose proof (placed_env _ _ _ _ Hf HE). by destruct HE.
  - intros f fd t ft [Hf0 Hf]%index_Some [_ Ht]%index_Some [_ Hft]%index_Some.
    destruct (meta_of _ _ Hf) as (meta & Hm & [E HE] & t' & ft' & Ht' & Hft' & L1 & L2 & Hp & Hr).
    rewrite Htypeidx in Ht. rewrite Htypes in Hft. simplify_eq.
    destruct (pl_params _ _ _ _ _ _ _ _ HE) as [<- _]. destruct (pl_results _ _ _ _ _ _ _ _ HE) as [<- _].
    pose proof (len_nonneg ft.1). pose proof (len_nonneg ft.2). rewrite Hp, Hr, !u16_id by lia. done.
  - by rewrite E1.
  - by rewrite Htypes, E2.
Qed.

Lemma progress_served : M.(hm_n_host_imports) = u32 (len s.(ts_imports).(host_fn_ids)) → served M P.
Proof using All.
  intros Hn i f' Hf'. destruct (Forall2_lookup_r _ _ _ _ _ Hfuncs Hf') as (f & Hf & n & ->).
  destruct (lookup_lt_is_Some_2 P.(p_funcs) i) as [g Hg]; [rewrite Hlen; by eapply lookup_lt_Some|].
  exists g. split; [done|]. destruct g as [id np nr|fd]; [|done].
  destruct (hosts_first _ first_are_hosts) as [Hf1 _]. apply Hf1, lookup_lt_Some in Hg. fold ids in Hg.
  pose proof imports_small. destruct Hsig as (_ & H2 & _). rewrite Hids in Hn, H2.
  destruct (H2 i f Hf Hg) as (Ho & Hl & _). pose proof (len_nonneg ids). pose proof (len_nonneg M.(hm_code)).
  unfold imported. simpl. rewrite Hn, Ho. fold ids. rewrite u32_id by lia. unfold len in *. lia.
Qed.
End link.

(** ** Tables and segments *)

Lemma table_linked d table segs table' :
  Forall (fun seg => 0 ≤ seg.1) segs → table = replicate (length table) TABLE_NULL → elem_loop table segs = Ok table' →
  d.(de_elems) = segs → d.(de_table) = len table → table_of d = slot <$> table'.
Proof.
  intros Hseg Ht Hl He Hn. destruct (elem_loop_spec _ _ _ Hseg Hl) as (Hlen & _ & Hat).
  apply list_eq. intros i. unfold table_of. rewrite !list_lookup_fmap, He, Hn. unfold len. rewrite Nat2Z.id.
  destruct (decide (i < length table)%nat) as [Hi|Hi].
  - rewrite lookup_seq_lt by done. simpl. rewrite (Hat i TABLE_NULL); [done|]. rewrite Ht. by apply lookup_replicate_2.
  - rewrite lookup_seq_ge by lia. rewrite (proj2 (lookup_ge_None table' i)) by lia. done.
Qed.

Lemma stored_datas segs d M :
  stored segs d → M.(hm_data_off) = d.(do_off) → M.(hm_data_len) = d.(do_len) → M.(hm_data_blob) = d.(do_blob) →
  len M.(hm_data_blob) < 2 ^ 32 → Forall is_byte M.(hm_data_blob) → datas_ok M (snd <$> segs).
Proof.
  intros (_ & _ & _ & Hs) Ho Hl Hb Hsm Hby. split; [|done|done].
  intros i bs Hi. apply list_lookup_fmap_Some in Hi as ([[act off] bytes] & -> & Hseg).
  destruct (Hs _ _ _ _ Hseg) as (o & n & H1 & H2 & H3 & H4 & H5 & H6 & _). exists o. rewrite Ho, Hl, Hb. simpl.
  assert (len bytes = n) as Hn by (rewrite <-H3; unfold len in *; rewrite length_take, length_drop; lia).
  rewrite Hn. split_and!; [done..|lia|]. exact H3.
Qed.

(** ** Loading *)

(** Sizes and bytes of a loaded module that nothing in the loader bounds: its index
    spaces fit the widths of the op fields, and its images hold bytes. *)
Record loaded_ok (M : HostModule) : Prop := {
  lo_code : len M.(hm_code) < 2 ^ 32;
  lo_consts : len M.(hm_consts) < 2 ^ 32;
  lo_blob : len M.(hm_data_blob) < 2 ^ 32;
  lo_funcs : len M.(hm_funcs) < 2 ^ 32;
  lo_segments : len M.(hm_data_live) ≤ 2 ^ 16;
  lo_globals : Forall in_u64 M.(hm_globals);
  lo_memory : Forall is_byte M.(hm_memory);
  lo_bytes : Forall is_byte M.(hm_data_blob) }.

Lemma translate_linked ps M0 M fs P :
  imports_first ps = true → forallb item_widths ps = true →
  translate_wasm soroban_env (fun _ => ps) [] = Ok M0 → Forall2 same_func M0.(hm_funcs) fs → M = set_funcs fs M0 →
  program_of soroban_env ps = Some P → loaded_ok M →
  store_ok M (store_of M) ∧ linked M P ∧ served M P ∧ len M.(hm_data_live) = len P.(p_datas).
Proof.
  intros Hord Hw Htr HF HM0 HP HM.
  assert (translated M0) as HT.
  { subst M. destruct HM. by eapply (translate_wasm_translated soroban_env (fun _ => ps) []). }
  assert (mem_ok M = true) as Hmem by (subst M; apply (tr_mem _ HT)).
  split; [unfold mem_ok in Hmem; destruct HM; split; simpl; try done; lia|].
  eapply (translate_wasm_inv _ (fun _ => ps) [] _ (fun r s => sig_inv r s ∧ elem_inv s)) in Htr as (s & Hloop & Has & Hsig & Helem).
  - apply assemble_ok in Has as (ms & mm & d & tb & fps & Hms & Hd & Htb & Hfps & _ & E0).
    destruct (program_placed _ _ _ _ HP Hloop) as (HPe & HD & fds & HF0 & HL & Hids & Hfn).
    rewrite app_nil_r in HF0. subst fds. rewrite decl_app_nil_r in HD. rewrite <-HD in HPe.
    apply memory_sizes_spec in Hms as (Hms1 & _ & Hms2 & Hms3).
    subst M M0. assert (stored s.(ts_data) d) as Hst.
    { eapply (data_loop_stored _ []); [|exact Hd|apply (lo_blob _ HM)]. by split_and!. }
    simpl in *. assert (small_out s.(ts_out).(co_code) s.(ts_out).(co_consts)) as Hsm
      by (split; [apply (lo_code _ HM)|apply (lo_consts _ HM)]).
    pose proof (lo_funcs _ HM) as Hnf. split_and!.
    + eapply (progress_linked s _ P fps); simpl in *; try done; try by rewrite HPe.
      * rewrite HPe. simpl. destruct Helem as [(n & Hn & _) Hseg].
        eapply (table_linked _ s.(ts_table)); [exact Hseg| |exact Htb|done|done]. rewrite Hn. by rewrite length_replicate.
      * rewrite HPe. simpl. eapply stored_datas; [exact Hst|done..|apply (lo_blob _ HM)|apply (lo_bytes _ HM)].
      * rewrite HPe. simpl. destruct (has_memory (ts_mem s)); [by destruct Hms2|]. rewrite Hms3 in Hms1; [lia|done].
    + eapply (progress_served s _ P fps); simpl in *; try done; by rewrite HPe.
    + destruct Hst as (_ & _ & Hlive & _). rewrite HPe. simpl. unfold len. by rewrite Hlive, length_fmap.
  - split; [split_and!; simpl; try done; try lia; by left|]. split; [by exists 0%nat; split; [|lia]|by constructor].
  - intros p rest s1 s2 [H1 H2] Hst. split; [by eapply sig_inv_step|by eapply elem_inv_step].
  - intros it rest s [H1 H2]. split; [by eapply sig_inv_next|done].
Qed.

(** The program the engine has is the one the sections describe, but for the bodies the
    lowering gives up. *)
Lemma program_of_source ps M0 P PW :
  translate_wasm soroban_env (fun _ => ps) [] = Ok M0 → forallb counts_ok ps = true →
  program_of soroban_env ps = Some P → wasm_program soroban_env ps = Some PW →
  Forall2 stands_for PW.(p_funcs) P.(p_funcs) ∧
  PW = mkProg PW.(p_funcs) P.(p_types) P.(p_typeidx) P.(p_table) P.(p_datas) P.(p_msize).
Proof.
  intros Htr Hcnt HP HPW. unfold translate_wasm in Htr.
  destruct (payload_loop soroban_env ps init_state) as [[[]| |] s] eqn:Hl; [|done..].
  destruct (program_placed _ _ _ _ HP Hl) as (EP & HD & _). rewrite decl_app_nil_r in HD.
  apply assemble_ok in Htr as (ms & mm & d & tb & fps & _ & _ & _ & Hfps & _).
  unfold program_of in HP. destruct (functions_from _ _ _ _) as [fs|] eqn:Hfs; [|done]. injection HP as <-.
  unfold wasm_program in HPW. destruct (source_from _ _ _ _) as [fw|] eqn:Hfw; [|done]. injection HPW as <-.
  split; [|done]. apply (source_payloads (decls_of ps) fs) with (root := soroban_env) (ps := ps) (s := init_state) (s' := s); try done.
  - rewrite <-HD. by eapply fingerprints_small.
  - split; [apply decl_app_nil_l|]. by exists [].
Qed.

Lemma module_load_linked ps M P :
  imports_first ps = true → forallb item_widths ps = true → module_load ps = Ok M →
  program_of soroban_env ps = Some P → loaded_ok M → store_ok M (store_of M) ∧ linked M P.
Proof.
  intros Hord Hw Hl HP HM. destruct (module_load_set_funcs ps M Hl) as (M0 & Htr & Hv & fs & HM0).
  assert (translated M0) as HT.
  { subst M. destruct HM. by eapply (translate_wasm_translated soroban_env (fun _ => ps) []). }
  destruct (verify_cuop_verified M0 M (tr_meta _ HT) Hv) as (fs' & HF & HM' & _).
  by destruct (translate_linked ps M0 M fs' P Hord Hw Htr HF HM' HP HM) as (? & ? & _).
Qed.

(** ** Theorem *)

(** C1. A module that loads runs as its WebAssembly program does. For a module whose
    sections are in the order of the format, with indices of 32 bits ([imports_first],
    [item_widths]) and sizes that fit the widths of the engine ([loaded_ok]), let [P]
    be the program its sections describe: the trees of its function bodies, with
    [unreachable] for a body the lowering rejects, the functions of the host its
    imports name, the table, the data segments and the memory's size. Take the host
    function as the environment, and a function that is [callable]: its parameters and
    locals fit the 4096 slots of the stack. If the reference semantics of structured
    WebAssembly makes a call of it return or trap, after calling the host as in the
    trace [tr], then there is a number such that the CPU driver, given slices of that
    many steps and that many of them or more, ends, always in the same way: with
    exactly the results of the reference semantics, the module holding exactly its
    globals, memory, memory size and segment flags, and the host in the world those
    calls leave; or with exactly its trap, in that world; or because the engine has
    used up its stack, its frames or its fuel. *)
Theorem module_runs_program {W} ps M P fuel f fd args (host : HostFn W) w :
  imports_first ps = true → forallb item_widths ps = true → module_load ps = Ok M →
  program_of soroban_env ps = Some P → loaded_ok M →
  index P.(p_funcs) f = Some (Code fd) → callable M f = true → len args = fd.(fd_params) → Forall in_u64 args →
  let c := call P (host_env host w) fuel f (store_of M) (rev args) in
  c ≠ CStuck → c ≠ CTimeout →
  ∃ N x, (∀ n r, (N ≤ n)%nat → (N ≤ r)%nat → run_cpu M f args n host r w = x) ∧
    (match c with
     | Returns st rs => x = (Finished ST_OK (rev rs), holding M st, host_world host w st.(s_trace))
     | CTrapped s tr => program_trap s ∧ run_ends s (host_world host w tr) x
     | CStuck | CTimeout => False
     end ∨ ∃ s tr, out_of_resources s ∧ run_ends s (host_world host w tr) x).
Proof.
  intros Hord Hw Hl HP HM Hf Hcall Hlen Hargs.
  destruct (module_load_linked ps M P Hord Hw Hl HP HM) as [Hst HL]. by eapply linked_runs.
Qed.

(** Function 0 is an import.  Function 1 is the factorial, by a loop.  Function 2 divides
    7 by its argument if that is zero; otherwise it asks the host for a number, takes its
    factorial through the table, and ends with a tail call of function 1. *)
Definition fact_payloads : list (item Payload) :=
  [ Item (TypeSection [Item [CtFunc [I64] [I64]]; Item [CtFunc [] [I64]]]);
    Item (ImportSection [Item (mkImport "x" "8" (TrFunc 1))]);
    Item (FunctionSection [Item 0; Item 0]);
    Item (TableSection [Item (mkTableType false true 2)]);
    Item (ElementSection [Item (mkElement (EkActive None [Item (I32Const 1); Item End]) (EiFunctions [Item 1]))]);
    Item (CodeSectionEntry (mkBody (Item [Item (1, I64)]) (Item (Item <$>
      [I64Const 1; LocalSet 1; Block BtEmpty; Loop BtEmpty; LocalGet 0; I64Eqz; BrIf 1;
       LocalGet 0; LocalGet 1; I64Mul; LocalSet 1; LocalGet 0; I64Const 1; I64Sub; LocalSet 0; Br 0;
       End; End; LocalGet 1; End]))));
    Item (CodeSectionEntry (mkBody (Item []) (Item (Item <$>
      [LocalGet 0; I64Eqz; If (BtType I64); I64Const 7; LocalGet 0; I64DivU;
       Else; Call 0; I32Const 1; CallIndirect 0 0; ReturnCall 1; End; End])))) ].

Definition fact_module : HostModule :=
  Eval vm_compute in match module_load fact_payloads with Ok M => M | _ => down_module end.

Definition fact_program : Prog :=
  Eval vm_compute in default (mkProg [] [] [] [] [] 0) (program_of soroban_env fact_payloads).

(** Function 2, as [fact_program] has it. *)
Definition fact_caller : FuncDef :=
  Eval vm_compute in match fact_program.(p_funcs) !! 2%nat with Some (Code fd) => fd | _ => mkFuncDef 0 0 0 [] end.

(** A host that counts its calls and answers 3. *)
Definition three_host : HostFn Z := fun box mem n =>
  (true, mkMailbox box.(mb_fn_id) box.(mb_n_args) box.(mb_n_results) box.(mb_args) [3], mem, n + 1).

Lemma fact_loaded_ok : loaded_ok fact_module.
Proof. split; try reflexivity; try discriminate; apply List.Forall_nil. Qed.

Lemma module_runs_program_witness :
  (∃ N x, (∀ n r, (N ≤ n)%nat → (N ≤ r)%nat → run_cpu fact_module 2 [4] n three_host r 10 = x) ∧
    (x = (Finished ST_OK [720], fact_module, 11) ∨
     ∃ s tr, out_of_resources s ∧ run_ends s (host_world three_host 10 tr) x)) ∧
  (∃ N x, (∀ n r, (N ≤ n)%nat → (N ≤ r)%nat → run_cpu fact_module 2 [0] n three_host r 10 = x) ∧
    (program_trap ST_TRAP_DIV_BY_ZERO ∧ run_ends ST_TRAP_DIV_BY_ZERO 10 x ∨
     ∃ s tr, out_of_resources s ∧ run_ends s (host_world three_host 10 tr) x)).
Proof.
  set (E := host_env three_host 10).
  assert (module_load fact_payloads = Ok fact_module) as Hl by (vm_compute; reflexivity).
  assert (program_of soroban_env fact_payloads = Some fact_program) as HP by (vm_compute; reflexivity).
  assert (∃ st, call fact_program E 60 2 (store_of fact_module) (rev [4]) = Returns st [720] ∧
    holding fact_module st = fact_module ∧ host_world three_host 10 st.(s_trace) = 11) as (st & H4 & Hh & Hw)
    by (eexists; split; [vm_compute; reflexivity|split; vm_compute; reflexivity]).
  assert (call fact_program E 60 2 (store_of fact_module) (rev [0]) = CTrapped ST_TRAP_DIV_BY_ZERO []) as H0
    by (vm_compute; reflexivity).
  assert (∀ x, in_u64 x → Forall in_u64 [x]) as Hu by (intros x Hx; constructor; [exact Hx|constructor]).
  assert (∀ x, in_u64 x → call fact_program E 60 2 (store_of fact_module) (rev [x]) ≠ CStuck →
    call fact_program E 60 2 (store_of fact_module) (rev [x]) ≠ CTimeout → _) as Hrun
    by (intros x Hx; exact (module_runs_program fact_payloads fact_module fact_program 60 2 fact_caller [x] three_host 10
      eq_refl eq_refl Hl HP fact_loaded_ok eq_refl eq_refl eq_refl (Hu x Hx))).
  pose proof (Hrun 4 ltac:(unfold in_u64; lia)) as R4. pose proof (Hrun 0 ltac:(unfold in_u64; lia)) as R0.
  cbv zeta in R4, R0. fold E in R4, R0. rewrite H4, Hh, Hw in R4. rewrite H0 in R0. split; [by apply R4|by apply R0].
Defined.
