(* ===== verification/TypedLoads.v ===== *)
(** * A typed module loads

    Translation leaves verification nothing to reject: when the bodies of a module's
    program are typed, the verifier accepts what the translator makes of them, trap stubs
    for rejected bodies included. *)

From S2P Require Import Prelude Cuop Wasm Lower EnvTable Module ModuleSteps ModuleTables Engine EngineSlice.
From S2P Require Import Verify VerifyFacts VerifyComplete EngineInv EngineSound Capi CapiFacts Loadable Structured WasmProgram StackTyping.
From S2P Require Import LowerOutcome LowerRun LowerProgram LowerTyped.
From stdpp Require Import base list strings.

Local Open Scope Z_scope.

Lemma same_func_refl f : same_func f f.
Proof. exists f.(fm_max_stack). by destruct f. Qed.

Lemma set_funcs_id M : set_funcs M.(hm_funcs) M = M.
Proof. by destruct M. Qed.

(** Loading changes nothing but [max_stack]. *)
Lemma loaded_ok_same M fs : Forall2 same_func M.(hm_funcs) fs → loaded_ok M → loaded_ok (set_funcs fs M).
Proof.
  intros HF [L1 L2 L3 L4 L5 L6 L7 L8]. split; simpl; try done. apply Forall2_length in HF. unfold len in *. by rewrite <-HF.
Qed.

(** Each function of a module linked to a typed program is one the verifier accepts. *)
Lemma typed_functions M P :
  linked M P → served M P → program_typed P = true →
  ∀ i f, M.(hm_funcs) !! i = Some f → typable M f ∨ imported M i f.
Proof.
  intros HL HS HT i f Hf. destruct (HS i f Hf) as (g & Hg & Hi). destruct g as [id np nr|fd]; [by right|left].
  unfold program_typed in HT. rewrite forallb_forall in HT.
  specialize (HT (Code fd)). rewrite <-list_elem_of_In in HT. specialize (HT (list_elem_of_lookup_2 _ _ _ Hg)).
  assert (index P.(p_funcs) (Z.of_nat i) = Some (Code fd)) as Hix by (apply index_Some; rewrite Nat2Z.id; split; [lia|done]).
  destruct (lk_funcs _ _ HL _ _ Hix) as (meta & E & p & Hm & HC). apply index_Some in Hm as [_ Hm].
  rewrite Nat2Z.id, Hf in Hm. injection Hm as <-. by eapply compiled_typable.
Qed.

(** A linked function has code. *)
Lemma linked_code M P f fd : linked M P → index P.(p_funcs) f = Some (Code fd) → M.(hm_funcs) ≠ [] ∧ M.(hm_code) ≠ [].
Proof.
  intros HL Hf. destruct (lk_funcs _ _ HL _ _ Hf) as (meta & E & p & Hm & HC).
  apply index_Some in Hm as [_ Hm]. pose proof (cp_end _ _ _ _ _ _ HC 0%nat _ eq_refl) as He.
  split; intros Hn; [by rewrite Hn in Hm|by rewrite Hn in He].
Qed.

(** The verifier accepts the translation of a typed module. *)
Lemma typed_verified ps M P f fd :
  imports_first ps = true → forallb item_widths ps = true →
  translate_wasm soroban_env (fun _ => ps) [] = Ok M → program_of soroban_env ps = Some P → loaded_ok M →
  index P.(p_funcs) f = Some (Code fd) → program_typed P = true →
  ∃ fs, Forall2 same_func M.(hm_funcs) fs ∧ verify_cuop M = Some (Ok (set_funcs fs M)).
Proof.
  intros Hord Hw Htr HP HM Hf HT.
  assert (translated M) as HTr by (destruct HM; by eapply (translate_wasm_translated soroban_env (fun _ => ps) [])).
  destruct (translate_linked ps M M M.(hm_funcs) P Hord Hw Htr) as (_ & HL & HS & _); try done.
  { apply Forall2_same_length_lookup_2; [done|]. intros i x y Hx Hy. simplify_eq. apply same_func_refl. }
  { symmetry. apply set_funcs_id. }
  destruct (linked_code M P f fd HL Hf) as [Hfs Hcs]. pose proof (tr_meta _ HTr) as Hmeta.
  destruct (proj2 (verify_funcs_iff M 0 M.(hm_funcs) Hmeta Hmeta)) as [fs Hv]; [by apply (typed_functions M P)|].
  destruct (verify_funcs_spec M 0 M.(hm_funcs) Hmeta Hmeta) as (r & Hr & _ & Hok). change (Z.of_nat 0) with 0 in Hv. rewrite Hr in Hv.
  injection Hv as ->. destruct (Hok fs eq_refl) as [HF _]. exists fs. split; [done|]. unfold verify_cuop.
  destruct (hm_funcs M); [done|]. destruct (hm_code M); [done|]. by rewrite Hr.
Qed.

Lemma module_load_verified ps M r :
  translate_wasm soroban_env (fun _ => ps) [] = Ok M → exportable M → verify_cuop M = Some (Ok r) → module_load ps = Ok r.
Proof. intros Htr Hx Hv. apply module_load_iff. by exists M. Qed.

(** ** Theorem *)

(** C2. A module whose bodies are typed loads.  Take a module whose sections are in the
    order of the format with indices of 32 bits ([imports_first], [item_widths]), which the
    translator accepts, whose translation has sizes that fit the widths of the engine
    ([loaded_ok]) and can cross the C boundary ([exportable]: no NUL in the name of an export,
    one body for each declared function, counts of 32 bits); and the program its sections
    describe, with [unreachable] for a body the lowering rejects.  If the program has a
    function with code, and all its bodies are typed as WebAssembly validation types their
    stacks, in the room the engine has for operands, then the verifier accepts the
    translated module, so that [cuwasm_module_load] gives it, different from the translation
    only in the stack bounds the verifier has computed. *)
Theorem typed_module_loads ps M P f fd :
  imports_first ps = true → forallb item_widths ps = true →
  translate_wasm soroban_env (fun _ => ps) [] = Ok M → program_of soroban_env ps = Some P → loaded_ok M →
  exportable M → index P.(p_funcs) f = Some (Code fd) → program_typed P = true →
  ∃ fs, Forall2 same_func M.(hm_funcs) fs ∧ module_load ps = Ok (set_funcs fs M) ∧ loaded_ok (set_funcs fs M).
Proof.
  intros Hord Hw Htr HP HM Hx Hf HT.
  destruct (typed_verified ps M P f fd Hord Hw Htr HP HM Hf HT) as (fs & HF & Hv).
  exists fs. split_and!; [done|by eapply module_load_verified|by apply loaded_ok_same].
Qed.

Definition fact_translated : HostModule :=
  Eval vm_compute in match translate_wasm soroban_env (fun _ => fact_payloads) [] with Ok M => M | _ => down_module end.

Lemma fact_translated_ok : loaded_ok fact_translated.
Proof. split; try reflexivity; try discriminate; apply List.Forall_nil. Qed.

Lemma fact_translated_exportable : exportable fact_translated.
Proof. apply exportable_b_sound. vm_compute. reflexivity. Qed.

(** [fact_payloads] is typed: a host call, a loop, an [if] with two arms, a call through
    the table and a tail call. *)
Lemma typed_module_loads_witness :
  program_typed fact_program = true ∧ ∃ M, module_load fact_payloads = Ok M.
Proof.
  split; [vm_compute; reflexivity|].
  destruct (typed_module_loads fact_payloads fact_translated fact_program 2 fact_caller) as (fs & _ & Hl & _);
    [reflexivity|reflexivity|vm_compute; reflexivity|vm_compute; reflexivity|exact fact_translated_ok
    |exact fact_translated_exportable|reflexivity|vm_compute; reflexivity|].
  exists (set_funcs fs fact_translated). exact Hl.
Defined.
