(* ===== verification/TypedRuns.v ===== *)
(** * A typed module loads and runs

    Stack typing, the translator, the verifier and the engine together: a module whose
    bodies are typed loads, and every call of it runs as its WebAssembly program does. *)

From S2P Require Import Prelude Cuop Wasm Lower EnvTable Module ModuleSteps ModuleTables Engine EngineSlice.
From S2P Require Import Verify VerifyFacts VerifyComplete EngineInv EngineSound Capi CapiFacts Loadable Structured WasmProgram StackTyping.
From S2P Require Import EngineView ViewCalls ViewHost LowerNum LowerMem LowerOps LowerBulk LowerBasic StackSound.
From S2P Require Import LowerSim LowerOutcome LowerCalls LowerCorrect LowerRun LowerProgram LowerTyped TypedLoads.
From stdpp Require Import base list strings.

Local Open Scope Z_scope.

(** A host that answers every call the program may make as the interface asks. *)
Definition keeps_interface {W} (P : Prog) (host : HostFn W) : Prop := ∀ w box mem,
  asks P box → Forall is_byte mem → replies mem box (host box mem w).1.

Lemma keeps_well_behaved {W} P (host : HostFn W) w : keeps_interface P host → well_behaved P (host_env host w).
Proof. intros H tr box mem. apply H. Qed.

Lemma callable_same M fs f : Forall2 same_func M.(hm_funcs) fs → callable M f = true → callable (set_funcs fs M) f = true.
Proof.
  intros HF. unfold callable. destruct (index (hm_funcs (set_funcs fs M)) f) as [g|] eqn:Hg; [|done].
  apply index_Some in Hg as [H0 Hg]. destruct (Forall2_lookup_r _ _ _ _ _ HF Hg) as (g0 & Hg0 & n & ->).
  by rewrite (proj2 (index_Some _ _ _) (conj H0 Hg0)).
Qed.

(** The data a module starts with fit its program. *)
Lemma store_of_fits M P :
  linked M P → store_ok M (store_of M) → loaded_ok M → len M.(hm_data_live) = len P.(p_datas) →
  store_fits P (len M.(hm_globals)) (store_of M).
Proof.
  intros HL Hst HM Hlive. split; simpl; [done|done|apply HM|intros _; symmetry; apply (lk_msize _ _ HL)|].
  split; [done|]. constructor; [unfold in_u64; lia|constructor].
Qed.

(** A typed module loads into one linked to its program, which is never stuck, and returns
    as many results as it declares. *)
Lemma typed_module_linked {W} ps M0 P f fd (host : HostFn W) :
  imports_first ps = true → forallb item_widths ps = true →
  translate_wasm soroban_env (fun _ => ps) [] = Ok M0 → program_of soroban_env ps = Some P → loaded_ok M0 → exportable M0 →
  program_typed P = true → program_closed P (len M0.(hm_globals)) = true → keeps_interface P host →
  index P.(p_funcs) f = Some (Code fd) → callable M0 f = true →
  ∃ M, module_load ps = Ok M ∧ linked M P ∧ store_ok M (store_of M) ∧ callable M f = true ∧ (∃ fs, M = set_funcs fs M0) ∧
    ∀ fuel args w, len args = fd.(fd_params) →
      match call P (host_env host w) fuel f (store_of M) (rev args) with
      | Returns st rs => len rs = fd.(fd_results)
      | CStuck => False
      | CTrapped _ _ | CTimeout => True
      end.
Proof.
  intros Hord Hw Htr HP HM0 Hxp HT HC HE Hf Hcall.
  destruct (typed_verified ps M0 P f fd Hord Hw Htr HP HM0 Hf HT) as (fs & HF & Hv).
  pose proof (loaded_ok_same M0 fs HF HM0) as HM.
  destruct (translate_linked ps M0 _ fs P Hord Hw Htr HF eq_refl HP HM) as (Hst & HL & _ & Hlive).
  exists (set_funcs fs M0). split_and!; [by eapply module_load_verified|done|done|by eapply callable_same|by exists fs|].
  intros fuel args w Hlen. destruct (code_signature P _ HC f fd Hf) as (Hsig & _).
  pose proof (typed_program_sound P _ (host_env host w) fuel f (store_of (set_funcs fs M0)) (rev args) _ _ HT HC
    (keeps_well_behaved P host w HE) Hsig ltac:(rewrite len_rev; lia) (store_of_fits _ P HL Hst HM Hlive)) as Hs.
  destruct (call _ _ _ _ _ _); [rewrite len_rev in Hs; lia|done..].
Qed.

(** ** Theorem *)


(** The only host call of [fact_program] has one result, which [three_host] gives. *)
Lemma three_host_keeps : keeps_interface fact_program three_host.
Proof.
  intros w box mem ([f [_ Hf]%index_Some] & _ & _) Hmem Hok. destruct (Z.to_nat f) as [|[|[|k]]]; [|done..].
  injection Hf as _ _ <-. unfold reply_ok. simpl. rewrite Z.eqb_refl. apply forallb_forall.
  intros x Hx%list_elem_of_In. rewrite Forall_forall in Hmem. specialize (Hmem x Hx). unfold is_byte in Hmem. lia.
Qed.

