(* ===== verification/TypedResults.v ===== *)
(** * Results and divergence of loaded modules

    What a client of the engine can conclude from what a call gives: a result is that of
    the WebAssembly program, or a bound of the engine; and a call that has no result there
    runs into a bound. *)

From S2P Require Import Prelude Cuop Wasm Lower LowerSafety EnvTable Module ModuleSteps ModuleFacts ModuleTables Engine EngineSlice.
From S2P Require Import Verify VerifyFacts VerifyComplete EngineInv EngineSafe EngineSound Capi CapiFacts Loadable EngineEnds RunEnds Structured WasmProgram StackTyping.
From S2P Require Import EngineView ViewCalls ViewHost LowerNum LowerMem LowerOps LowerBulk LowerBasic StackSound.
From S2P Require Import LowerSim LowerOutcome LowerCalls LowerCorrect LowerDiverge LowerRun LowerResults LowerProgram LowerTyped TypedLoads TypedRuns.
From stdpp Require Import base list strings.

Local Open Scope Z_scope.

(** ** Theorems *)



(** C7. A call that diverges exhausts the engine. Take a loaded module as in
    [loaded_runs_finish]: well-nested bodies, sizes that fit, none of what translator
    and verifier leave unchecked ([residual]), no tail calls; besides, without
    [memory.grow]; the program [P] its sections describe; and a function that is
    [callable], its parameters and locals fitting the 4096 slots of the stack. If the
    reference semantics gives a call of it no result on any fuel, then within
    [run_bound] rounds the CPU driver ends the call, with no results, because it has
    used up its stack, its frames or its fuel: the engine neither goes on for ever nor
    invents a result or a trap. *)
Theorem diverging_call_exhausts {W} ps M P f fd args (host : HostFn W) w n r :
  imports_first ps = true → forallb item_widths ps = true → forallb nested_payload ps = true → module_load ps = Ok M →
  program_of soroban_env ps = Some P → loaded_ok M → residual M = true →
  no_tail_calls M.(hm_code) = true → no_grow M = true →
  index P.(p_funcs) f = Some (Code fd) → callable M f = true → len args = fd.(fd_params) → Forall in_u64 args →
  (∀ fuel, call P (host_env host w) fuel f (store_of M) (rev args) = CTimeout) →
  (0 < n)%nat → run_bound M ≤ Z.of_nat r →
  ∃ s tr, out_of_resources s ∧ run_ends s (host_world host w tr) (run_cpu M f args n host r w).
Proof.
  intros Hord Hw Hnest Hl HP HM Hres Htail HG Hf Hcall Hlen Hargs Hdiv Hn Hr.
  destruct (module_load_linked ps M P Hord Hw Hl HP HM) as [Hst HL]. pose proof HM as [Hc Hk Hb _ _ _ _ _].
  destruct (module_load_sound ps M Hord Hw Hl Hc Hk Hb Hres) as [_ HLd].
  pose proof (call_finishes M f args n host r w (loaded_closed ps M Hnest Hord Hw Hl Hc Hk Hb) HLd Htail Hcall Hn Hr) as Hx.
  destruct (linked_results M P HL Hst HG f fd args host w Hf Hcall Hlen Hargs n r Hn Hx) as [[fuel He]|He]; [|exact He].
  by rewrite Hdiv in He.
Qed.

(** A function that only loops. *)
Definition looping_payloads : list (item Payload) :=
  [ Item (TypeSection [Item [CtFunc [] []]]); Item (FunctionSection [Item 0]);
    Item (CodeSectionEntry (mkBody (Item []) (Item (Item <$> [Loop BtEmpty; Br 0; End; End])))) ].

Definition looping_module : HostModule :=
  Eval vm_compute in match module_load looping_payloads with Ok M => M | _ => down_module end.

Definition looping_program : Prog :=
  Eval vm_compute in default (mkProg [] [] [] [] [] 0) (program_of soroban_env looping_payloads).

Definition looping_body : list instr := [ILoop BtEmpty [Basic (Br 0)]].

Lemma looping_timeout env k st ls : run looping_program env k looping_body st ls [] = Timeout.
Proof.
  revert st ls. induction k as [|k IH]; intros st ls; [done|]. unfold looping_body at 1. rewrite run_cons. simpl.
  unfold run_loop. destruct k as [|k]; [done|]. change (operands 0 []) with (Some (@nil Z)). cbn iota.
  change (run looping_program env (S k) [Basic (Br 0)] st ls []) with (Branch 0 st ls []). cbn iota.
  change (operands 0 []) with (Some (@nil Z)). cbn iota. change [ILoop BtEmpty [Basic (Br 0)]] with looping_body.
  change ([] ++ drop 0 []) with (@nil Z). by rewrite (IH st ls).
Qed.

Lemma looping_call env k st : call looping_program env k 0 st [] = CTimeout.
Proof.
  destruct k as [|k]; [done|].
  change (func_out looping_program (call looping_program env k) 0 [] (run looping_program env k looping_body st [] []) = CTimeout).
  by rewrite looping_timeout.
Qed.

Lemma looping_ok : loaded_ok looping_module.
Proof. split; try reflexivity; try discriminate; apply List.Forall_nil. Qed.

Lemma diverging_call_exhausts_witness :
  ∃ r s tr, out_of_resources s ∧ run_ends s (host_world no_host tt tr) (run_cpu looping_module 0 [] 100 no_host r tt).
Proof.
  assert (∀ z, z ≤ Z.of_nat (Z.to_nat z)) as Hz by lia. exists (Z.to_nat (run_bound looping_module)).
  apply (diverging_call_exhausts looping_payloads looping_module looping_program 0 (mkFuncDef 0 0 0 looping_body));
    [reflexivity|reflexivity|vm_compute; reflexivity|vm_compute; reflexivity|vm_compute; reflexivity|exact looping_ok
    |reflexivity|reflexivity|reflexivity|reflexivity|reflexivity|reflexivity|apply List.Forall_nil| |lia|exact (Hz _)].
  intros k. apply looping_call.
Defined.
