(* ===== verification/OracleFacts.v ===== *)
(** * The oracle and the command line agree

    What the tests compare: where [wasmi] runs a typed module as WebAssembly says, the
    two programs exit with the same code, and print the same line when the call returns,
    unless the engine is out of resources. *)

From S2P Require Import Prelude Cuop Wasm Lower EnvTable Module ModuleSteps ModuleTables Engine EngineSlice.
From S2P Require Import Verify VerifyFacts VerifyComplete EngineInv EngineSound Capi CapiFacts Loadable Text Harness Oracle.
From S2P Require Import Structured WasmFuel WasmProgram StackTyping EngineView ViewCalls ViewHost LowerNum LowerMem LowerOps LowerBulk LowerBasic StackSound.
From S2P Require Import LowerSim LowerOutcome LowerCalls LowerCorrect LowerDiverge LowerRun LowerResults LowerProgram LowerTyped TypedLoads TypedRuns.
From stdpp Require Import base list strings.
From Stdlib Require Import Ascii.

Local Open Scope Z_scope.

(** ** Arguments *)

(** An argument the oracle accepts is the same number on the command line. *)
Lemma strtoll_parse s v : parse_i64 s = Some v → strtoll s = v ∧ - 2 ^ 63 ≤ v < 2 ^ 63.
Proof.
  unfold parse_i64, strtoll. destruct s as [|c s]; [done|].
  assert (∀ (w : Z) (neg : bool), (if (- 2 ^ 63 <=? (if neg then - w else w)) && ((if neg then - w else w) <? 2 ^ 63)
    then Some (if neg then - w else w) else None) = Some v →
    Z.max (- 2 ^ 63) (Z.min (if neg then - w else w) (2 ^ 63 - 1)) = v ∧ - 2 ^ 63 ≤ v < 2 ^ 63) as Hw.
  { intros w neg H. destruct (_ && _) eqn:Hb; [|done]. injection H as <-. apply andb_true_iff in Hb as [].
    destruct neg; lia. }
  destruct (same c "-") eqn:Hm.
  - apply same_spec in Hm as ->. rewrite skip_space_no by done. cbn [same]. destruct s as [|d s]; [done|].
    destruct (digits 0 (d :: s)) as [w|] eqn:Hd; [|done]. rewrite (leading_digits_all _ _ _ Hd). intros H. by apply (Hw w true).
  - destruct (same c "+") eqn:Hp.
    + apply same_spec in Hp as ->. rewrite skip_space_no by done. cbn [same]. destruct s as [|d s]; [done|].
      destruct (digits 0 (d :: s)) as [w|] eqn:Hd; [|done]. rewrite (leading_digits_all _ _ _ Hd). intros H. by apply (Hw w false).
    + destruct (digits 0 (c :: s)) as [w|] eqn:Hd; [|done]. rewrite skip_space_no.
      * rewrite Hm, Hp, (leading_digits_all _ _ _ Hd). intros H. by apply (Hw w false).
      * apply digit_no_space. simpl in Hd. by destruct (is_digit c).
Qed.

(** ** Agreement *)

(** [wasmi] instantiates the module, without imports, and runs its export as function [f]
    of the program [P] from the store [st]: as WebAssembly says, when [P] is the program the
    module's sections describe ([wasm_program]). *)
Definition wasmi_runs `{Wm : Wasmi} (wasm export : bytes) (P : Prog) (f : Z) (st : Store) : Prop :=
  ∃ m pre i g, module_new true wasm = inl m ∧ instantiate m = inl pre ∧ start pre = inl i ∧
    get_typed_func i export = inl g ∧ ∀ n, - 2 ^ 63 ≤ n < 2 ^ 63 →
      match func_call i g n with
      | Some (inl v) => - 2 ^ 63 ≤ v < 2 ^ 63 ∧
          ∃ fuel st', call P (host_env no_host tt) fuel f st [u64 n] = Returns st' [u64 v]
      | Some (inr e) => ∃ fuel s tr, call P (host_env no_host tt) fuel f st [u64 n] = CTrapped s tr
      | None => ∀ fuel, call P (host_env no_host tt) fuel f st [u64 n] = CTimeout
      end.

(** What the command line prints, given what the oracle does. *)
Definition agrees (cli oracle : process) : Prop :=
  match cli with
  | Exits _ _ _ =>
      (∃ v, cli = Exits 0 (ok_line v) [] ∧ oracle = cli) ∨
      (∃ s e, program_trap s ∧ cli = Exits 1 (run_line s []) [] ∧
         oracle = Exits 1 (error_line "trap_unreachable" [Quoted e]) []) ∨
      (∃ s, out_of_resources s ∧ cli = Exits 1 (run_line s []) [])
  | Continues => True
  | Aborts _ | Strays _ => False
  end.

Lemma no_host_keeps P : keeps_interface P no_host.
Proof. intros w box mem _ _ H. discriminate H. Qed.

Lemma i64_u64 v : - 2 ^ 63 ≤ v < 2 ^ 63 → i64 (u64 v) = v.
Proof.
  intros Hv. unfold i64, u64. rewrite Zplus_mod_idemp_l. rewrite Z.mod_small by lia. lia.
Qed.

Lemma run_line_ok v : - 2 ^ 63 ≤ v < 2 ^ 63 → run_line ST_OK [u64 v] = ok_line v.
Proof. intros Hv. unfold run_line, ok_line. cbn [results_text]. by rewrite i64_u64. Qed.

Lemma u64_inj v w : - 2 ^ 63 ≤ v < 2 ^ 63 → - 2 ^ 63 ≤ w < 2 ^ 63 → u64 v = u64 w → v = w.
Proof. intros Hv Hw H. by rewrite <-(i64_u64 v), H, i64_u64. Qed.

Lemma found_same (fs : list FuncMetaC) M name : find_export (set_funcs fs M) name = find_export M name.
Proof. done. Qed.

Lemma steps_positive : (0 < DEFAULT_MAX_STEPS)%nat.
Proof. unfold DEFAULT_MAX_STEPS. lia. Qed.

(** A result for slices of any length is one for this length. *)
Lemma some_rounds {W} M f args (host : HostFn W) w N x :
  no_grow M = true → (∀ n r, (N ≤ n)%nat → (N ≤ r)%nat → run_cpu M f args n host r w = x) → x.1.1 ≠ NotYet →
  ∃ r, run_cpu M f args DEFAULT_MAX_STEPS host r w = x.
Proof.
  intros HG HN Hx. apply (run_cpu_ref M f args DEFAULT_MAX_STEPS host w x HG steps_positive Hx).
  apply (run_cpu_ref M f args (S N) host w x HG ltac:(lia) Hx). exists N. apply HN; lia.
Qed.

Section agree.
Context `{Wm : Wasmi} (payloads : bytes → list (item Payload)) (wasm export : bytes) (n : Z).
Context (M : HostModule) (P : Prog) (f : Z) (fd : FuncDef).
Hypothesis Hload : module_load (payloads wasm) = Ok M.
Hypothesis HL : linked M P.
Hypothesis Hst : store_ok M (store_of M).
Hypothesis HG : no_grow M = true.
Hypothesis Hexp : find_export M (unlit export) = f.
Hypothesis Hf : index P.(p_funcs) f = Some (Code fd).
Hypothesis Hcall : callable M f = true.
Hypothesis Hpar : fd.(fd_params) = 1.
Hypothesis Hwm : wasmi_runs wasm export P f (store_of M).
Hypothesis Hn : - 2 ^ 63 ≤ n < 2 ^ 63.
Hypothesis Hsound : ∀ fuel, call P (host_env no_host tt) fuel f (store_of M) [u64 n] ≠ CStuck.

Abbreviation calls fuel := (call P (host_env no_host tt) fuel f (store_of M) [u64 n]).
Abbreviation runs r := (run_cpu M f [u64 n] DEFAULT_MAX_STEPS no_host r tt).

Lemma cli_run_out r :
  cli_run payloads r wasm export [u64 n] =
    match (runs r).1.1 with
    | Finished s rs => Exits (if bool_decide (s = ST_OK) then 0 else 1) (run_line s rs) []
    | Corrupted e => Strays e
    | NotYet => Continues
    end.
Proof using Hload Hexp Hf.
  unfold cli_run. rewrite Hload, Hexp. pose proof (index_lt _ _ _ Hf) as [H0 _].
  by rewrite (proj2 (Z.ltb_ge f 0) H0).
Qed.

Lemma one_arg : Forall in_u64 [u64 n].
Proof. constructor; [apply u64_range|constructor]. Qed.

Lemma cli_agrees r : agrees (cli_run payloads r wasm export [u64 n]) (oracle_run wasm export n).
Proof using Hload HL Hst HG Hexp Hf Hcall Hpar Hwm Hn Hsound.
  rewrite cli_run_out. destruct Hwm as (m & pre & i & g & E1 & E2 & E3 & E4 & Hc). specialize (Hc n Hn).
  unfold oracle_run. rewrite E1, E2, E3, E4.
  destruct (decide ((runs r).1.1 = NotYet)) as [->|Hx]; [done|].
  destruct (linked_results M P HL Hst HG f fd [u64 n] no_host tt Hf Hcall ltac:(by rewrite Hpar) one_arg
    DEFAULT_MAX_STEPS r steps_positive Hx) as [[fuel He]|(s & tr & Hs & M' & ->)].
  - change (rev [u64 n]) with [u64 n] in He. specialize (Hsound fuel).
    destruct (calls fuel) as [st rs|s tr| |] eqn:Hcl; try done; simpl in He.
    + rewrite He. left. destruct (func_call i g n) as [[v|e]|].
      * destruct Hc as (Hv & fuel' & st' & Hc). rewrite <-(call_det P _ fuel fuel'), Hcl in Hc by congruence.
        injection Hc as <- ->. exists v. cbn [fst rev app]. rewrite bool_decide_eq_true_2 by done.
        by rewrite run_line_ok.
      * destruct Hc as (fuel' & s & tr & Hc). rewrite <-(call_det P _ fuel fuel'), Hcl in Hc by congruence. done.
      * by rewrite Hc in Hcl.
    + destruct He as (Hs & M' & ->). right. left. destruct (func_call i g n) as [[v|e]|].
      * destruct Hc as (Hv & fuel' & st' & Hc). rewrite <-(call_det P _ fuel fuel'), Hcl in Hc by congruence. done.
      * exists s, e. split; [done|]. cbn [fst]. rewrite bool_decide_eq_false_2; [done|]. by apply program_trap_not in Hs as [].
      * by rewrite Hc in Hcl.
  - right. right. exists s. split; [done|]. cbn [fst]. rewrite bool_decide_eq_false_2; [done|].
    by destruct Hs as [-> | [-> | ->]].
Qed.

Lemma cli_ends : oracle_run wasm export n ≠ Continues → ∃ r, cli_run payloads r wasm export [u64 n] ≠ Continues.
Proof using Hload HL Hst HG Hexp Hf Hcall Hpar Hwm Hn Hsound.
  destruct Hwm as (m & pre & i & g & E1 & E2 & E3 & E4 & Hc). specialize (Hc n Hn).
  unfold oracle_run. rewrite E1, E2, E3, E4. intros Ho.
  assert (∃ fuel, calls fuel ≠ CTimeout) as [fuel Hfuel].
  { destruct (func_call i g n) as [[v|e]|]; [|..|done].
    - destruct Hc as (_ & fuel & st' & Hc). exists fuel. by rewrite Hc.
    - destruct Hc as (fuel & s & tr & Hc). exists fuel. by rewrite Hc. }
  destruct (linked_runs M P fuel f fd [u64 n] no_host tt HL Hst Hf Hcall ltac:(by rewrite Hpar) one_arg (Hsound fuel) Hfuel)
    as (N & x & Hx & Hcx).
  assert (∃ s rs, x.1.1 = Finished s rs) as (s & rs & Hs).
  { destruct Hcx as [Hcx|(s & tr & _ & M' & ->)]; [|by exists s, []]. change (rev [u64 n]) with [u64 n] in Hcx.
    destruct (calls fuel) as [st rs|s tr| |]; [|destruct Hcx as (_ & M' & Hcx)|done..]; rewrite Hcx; by eexists _, _. }
  destruct (some_rounds M f [u64 n] no_host tt N x HG Hx) as [r Hr]; [by rewrite Hs|].
  exists r. rewrite cli_run_out, Hr, Hs. by case_bool_decide.
Qed.
End agree.

(** ** Theorem *)

(** C8. The oracle and the command line agree.  Take a module that the translator accepts, with
    its sections in order, sizes that fit ([loaded_ok]), able to cross the C boundary
    ([exportable]) and without [memory.grow], and let [P] be the program its sections describe
    ([wasm_program]), of which the lowering gives up no body ([program_of] is [P] too), with
    typed bodies and indices in range.  Take an export of it that takes one number and whose
    locals fit the stack ([callable]), and an argument the oracle reads as a number, and let
    [wasmi] run the export as WebAssembly runs [P].  Whatever the number of rounds, the command
    line has not ended; or it prints what the oracle prints and both exit with 0; or both
    report a trap and exit with 1; or it reports that the engine is out of stack, frames or
    fuel and exits with 1.  And when the oracle ends, so does the command line. *)
Theorem oracle_agrees `{Wm : Wasmi} read_file payloads name path export a wasm n M0 P f fd :
  read_file path = inl wasm → parse_i64 a = Some n → let ps := payloads wasm in
  imports_first ps = true → forallb item_widths ps = true →
  translate_wasm soroban_env (fun _ => ps) [] = Ok M0 → loaded_ok M0 → exportable M0 →
  wasm_program soroban_env ps = Some P → program_of soroban_env ps = Some P →
  program_typed P = true → program_closed P (len M0.(hm_globals)) = true → no_grow M0 = true →
  find_export M0 (unlit export) = f → index P.(p_funcs) f = Some (Code fd) → callable M0 f = true →
  fd.(fd_params) = 1 → wasmi_runs wasm export P f (store_of M0) →
  let argv := [name; path; export; a] in
  (∀ rounds, agrees (cli_main read_file payloads rounds argv) (oracle_main read_file argv)) ∧
  (oracle_main read_file argv ≠ Continues → ∃ rounds, cli_main read_file payloads rounds argv ≠ Continues).
Proof.
  intros Hread Ha ps Hord Hw Htr HM0 Hx HPw HP HT HC HG Hexp Hf Hcall Hpar Hwm argv.
  destruct (strtoll_parse a n Ha) as [Hs Hn].
  destruct (typed_module_linked ps M0 P f fd no_host) as (M & Hl & HL & Hst & Hc & [fs ->] & Hsound); try done.
  assert (∀ fuel, call P (host_env no_host tt) fuel f (store_of (set_funcs fs M0)) [u64 n] ≠ CStuck) as Hns.
  { intros fuel E. specialize (Hsound fuel [u64 n] tt ltac:(by rewrite Hpar)). change (rev [u64 n]) with [u64 n] in Hsound.
    by rewrite E in Hsound. }
  unfold argv, cli_main, oracle_main. rewrite Hread. cbn [invoke_args fmap list_fmap]. rewrite Ha. cbn [compose]. rewrite Hs.
  split; [intros r; by eapply cli_agrees|by eapply cli_ends].
Qed.

(** A module that exports the successor of its argument as [next], and a [wasmi] for it. *)
Definition next_payloads : list (item Payload) :=
  [ Item (TypeSection [Item [CtFunc [I64] [I64]]]); Item (FunctionSection [Item 0]);
    Item (ExportSection [Item (mkExport "next" true 0)]);
    Item (CodeSectionEntry (mkBody (Item []) (Item (Item <$> [LocalGet 0; I64Const 1; I64Add; End])))) ].

Definition next_module : HostModule :=
  Eval vm_compute in match translate_wasm soroban_env (fun _ => next_payloads) [] with Ok M => M | _ => down_module end.

Definition next_program : Prog :=
  Eval vm_compute in default (mkProg [] [] [] [] [] 0) (program_of soroban_env next_payloads).

Definition next_func : FuncDef :=
  Eval vm_compute in match next_program.(p_funcs) !! 0%nat with Some (Code fd) => fd | _ => mkFuncDef 0 0 0 [] end.

Definition next_wasmi : Wasmi := {|
  wm_module := unit; wm_pre := unit; wm_instance := unit; wm_func := unit;
  module_new _ _ := inl tt; instantiate _ := inl tt; start _ := inl tt; get_typed_func _ _ := inl tt;
  func_call _ _ n := Some (inl (i64 (n + 1))) |}.

Lemma next_ok : loaded_ok next_module.
Proof. split; try reflexivity; try discriminate; apply List.Forall_nil. Qed.

Lemma next_exportable : exportable next_module.
Proof. apply exportable_b_sound. vm_compute. reflexivity. Qed.

Lemma next_runs : wasmi_runs (Wm := next_wasmi) [] (lit "next") next_program 0 (store_of next_module).
Proof.
  exists tt, tt, tt, tt. split_and!; try reflexivity. intros n Hn. cbn [func_call next_wasmi].
  assert (- 2 ^ 63 ≤ i64 (n + 1) < 2 ^ 63) as Hi by (unfold i64; pose proof (Z.mod_pos_bound (n + 1 + 2 ^ 63) (2 ^ 64) ltac:(lia)); lia).
  split; [exact Hi|]. exists 10%nat, (store_of next_module).
  change (call next_program (host_env no_host tt) 10 0 (store_of next_module) [u64 n])
    with (Returns (store_of next_module) [(u64 n mod 2 ^ 64 + w64 1 mod 2 ^ 64) mod 2 ^ 64]).
  do 2 f_equal. unfold i64, u64, w64. rewrite (Z.mod_small 1) by lia. rewrite Zminus_mod_idemp_l, !Zplus_mod_idemp_l. f_equal. 
  f_equal. lia.
Qed.

Lemma oracle_agrees_witness :
  ∃ rounds, let argv := [lit "run"; lit "next.wasm"; lit "next"; lit "41"] in
  let cli := cli_main (fun _ => inl []) (fun _ => next_payloads) rounds argv in
  oracle_main (Wm := next_wasmi) (fun _ => inl []) argv = Exits 0 (ok_line 42) [] ∧
  (cli = Exits 0 (ok_line 42) [] ∨ ∃ s, out_of_resources s ∧ cli = Exits 1 (run_line s []) []).
Proof.
  destruct (oracle_agrees (Wm := next_wasmi) (fun _ => inl []) (fun _ => next_payloads) (lit "run") (lit "next.wasm")
    (lit "next") (lit "41") [] 41 next_module next_program 0 next_func) as [Hag [rounds Hr]];
    [reflexivity|reflexivity|reflexivity|reflexivity|vm_compute; reflexivity|exact next_ok|exact next_exportable
    |vm_compute; reflexivity|vm_compute; reflexivity
    |vm_compute; reflexivity|vm_compute; reflexivity|reflexivity|reflexivity|reflexivity|reflexivity|reflexivity|exact next_runs
    |discriminate|].
  exists rounds. cbv zeta. specialize (Hag rounds). split; [reflexivity|].
  destruct (cli_main _ _ rounds _) as [code out err| | |]; [|destruct Hag..|destruct Hr; reflexivity].
  destruct Hag as [(v & -> & Ho)|[(s & e & _ & _ & Ho)|Ho]]; [left; symmetry; exact Ho|discriminate Ho|right; exact Ho].
Defined.
