(* ===== verification/HarnessRuns.v ===== *)
(** * The harness runs the contract's program

    [run_cuwasm_profile] gives the interpreter slices of a fixed number of ops, so what a
    linked module does with slices that are long enough has to be carried over to slices
    of any length.  With that, a contract whose program ends is run to that end: the
    harness returns what the reference semantics returns, the dispatcher answering the
    host calls. *)

From S2P Require Import Prelude Cuop Wasm Lower EnvTable Module ModuleTables Engine EngineFrame EngineSlice.
From S2P Require Import Verify VerifyFacts EngineInv EngineSound Loadable Capi Dispatch DispatchFacts.
From S2P Require Import BTree Profile ProfileFacts Harness HarnessFacts.
From S2P Require Import Structured WasmProgram EngineView LowerRun LowerProgram.
From stdpp Require Import base list strings.

Local Open Scope Z_scope.

(** ** Slices of another length *)

Section reslice.
Context {W : Type} (M : HostModule) (host : HostFn W) (HG : no_grow M = true).

(** A run that has ended stays as it is with more rounds. *)
Lemma drive_more nres n r r' w m :
  (drive M host n nres r w m).1.1 ≠ NotYet → (r ≤ r')%nat →
  drive M host n nres r' w m = drive M host n nres r w m.
Proof.
  revert r' w m. induction r as [|r IH]; intros r' w m Hx Hr; [done|].
  destruct r' as [|r']; [lia|]. rewrite !drive_S. rewrite drive_S in Hx.
  destruct (run_instance _ _ _) as [[|s|e] m1]; [apply IH; [done|lia]| |done].
  destruct (stopped _ _ _ _ _ _) as [[w2 m2]|x]; [apply IH; [done|lia]|done].
Qed.

(** What a run ends with for one slice length, it ends with for any other. *)
Lemma run_cpu_reslice fi args n r n' w x :
  (0 < n)%nat → (0 < n')%nat → x.1.1 ≠ NotYet → run_cpu M fi args n host r w = x →
  ∃ R, ∀ r', (R ≤ r')%nat → run_cpu M fi args n' host r' w = x.
Proof using HG.
  intros Hn Hn' Hx. unfold run_cpu. destruct (index _ _) as [f|]; [|intros Hr; by exists 0%nat].
  destruct (negb _); [intros Hr; by exists 0%nat|]. unfold boot.
  destruct (q_store_all (args ++ replicate (Z.to_nat (fm_n_locals f)) 0) (blank M f)) as [_ Hm].
  destruct (store_all _ _) as [[[]|s|e] m]; [|intros Hr; by exists 0%nat..]. intros Hr.
  assert (runs M host (fm_n_results f) w m x) as HR by (apply (drive_runs M host _ HG n); eauto).
  apply (drive_runs M host _ HG n') in HR as [R HR]; [|done..]. exists R. intros r' Hle.
  rewrite <-HR. apply drive_more; [by rewrite HR|done].
Qed.
End reslice.

Lemma max_steps_pos : (0 < MAX_STEPS)%nat.
Proof. apply (proj1 (Z2Nat.inj_lt 0 10000000 ltac:(lia) ltac:(lia))). lia. Qed.

Section harness.
Context `{V : ValRepr} `{L : !ValLaws} {H : Type} (ops : HostOps H) (text : rust_err → list Z).

Lemma to_relatives_words args : ∀ d : DState H,
  Forall in_u64 args → len d.(d_rel) + len args ≤ 2 ^ 31 →
  ∀ rs d', to_relatives args d = (Ok rs, d') → Forall in_u64 rs ∧ len rs = len args.
Proof using L.
  induction args as [|v args IH]; intros d Hv Hl rs d'; simpl; [by intros [= <- <-]|].
  apply Forall_cons in Hv as [Hv Hvs]. autorewrite with len in Hl. pose proof (len_nonneg args).
  destruct (to_relative_spec v d Hv) as (r & d1 & Er & _ & _ & Hl1 & Hr & _); [lia|].
  unfold mbind, St_bind. rewrite Er. destruct (to_relatives args d1) as [[rs1|e|e] d2] eqn:E; [|done..].
  intros [= <- <-]. destruct (IH d1 Hvs ltac:(lia) _ _ E) as [IH1 IH2]. autorewrite with len.
  split; [by constructor|lia].
Qed.

(** The dispatcher behind the C bridge, as the environment of a contract's program. *)
Definition dispatch_env (M : HostModule) (d : DState H) : Env :=
  host_env (capi_host_bridge (Some (callback ops text M.(hm_mem_size)))) (inl d).

(** The dispatcher's context after the host calls of a trace. *)
Definition context_after (M : HostModule) (d : DState H) (tr : Trace) : @Harness.world H :=
  host_world (capi_host_bridge (Some (callback ops text M.(hm_mem_size)))) (inl d) tr.

(** What the harness makes of the results of a contract: the one result translated back,
    void for none, with the recorded host calls and a profile whose counts add up. *)
Definition translates (d' : DState H) (rs : list Z) (e : harness_end) : Prop :=
  match rs with
  | [] => ∃ p, profile_ok p ∧ e = Returned void_val (mkRunOut d'.(d_calls) d'.(d_traces) p)
  | [r] =>
      match to_absolute d'.(d_rel) r with
      | Ok v => ∃ p, profile_ok p ∧ e = Returned v (mkRunOut d'.(d_calls) d'.(d_traces) p)
      | Err _ => e = Panicked "to_absolute result"
      | Panic why => e = Panicked why
      end
  | _ => e = Panicked "assertion `left == right` failed"
  end.

Lemma read_result_translates d' rs P :
  profile_ok P → translates d' rs (read_result d' (mkRunResult ST_OK (results_array rs) (len rs)) P).
Proof.
  intros HP. unfold read_result. cbn [cr_n_results cr_results]. destruct rs as [|r [|r2 rs]]; [by eexists| |].
  - simpl. destruct (to_absolute (d_rel d') r); [by eexists|done..].
  - autorewrite with len. pose proof (len_nonneg rs).
    by rewrite (proj2 (Z.eqb_neq _ 0)), (proj2 (Z.eqb_neq _ 1)) by lia.
Qed.

(** The run of an export whose program ends: what it ends with, in slices of
    [MAX_STEPS] ops. *)
Lemma contract_run_ends ps M P export fuel fd payloads d :
  module_load ps = Ok M → contract_ok ps M export = true → loaded_ok M → no_grow M = true →
  program_of soroban_env ps = Some P → index P.(p_funcs) (find_export M export) = Some (Code fd) →
  len payloads = fd.(fd_params) → Forall in_u64 payloads →
  let c := call P (dispatch_env M d) fuel (find_export M export) (store_of M) (rev payloads) in
  c ≠ CStuck → c ≠ CTimeout →
  ∃ R, ∀ rounds, (R ≤ rounds)%nat →
    let x := contract_run ops text M export payloads rounds d in
    match c with
    | Returns st rs => x = (Finished ST_OK (rev rs), holding M st, context_after M d st.(s_trace))
    | CTrapped s tr => program_trap s ∧ x.1.1 = Finished s []
    | CStuck | CTimeout => False
    end ∨ ∃ s, out_of_resources s ∧ x.1.1 = Finished s [].
Proof.
  intros Hl Hc HM HG HP Hf Hlen Hargs c Hc1 Hc2. destruct (contract_ok_parts _ _ _ Hl Hc) as (_ & _ & _ & Hcall).
  unfold contract_ok in Hc. rewrite !andb_true_iff in Hc.
  assert (imports_first ps = true ∧ forallb item_widths ps = true) as [Hord Hw] by tauto.
  destruct (module_load_linked ps M P Hord Hw Hl HP HM) as [Hst HL].
  destruct (linked_runs M P fuel _ fd payloads (capi_host_bridge (Some (callback ops text M.(hm_mem_size)))) (inl d)
    HL Hst Hf Hcall Hlen Hargs Hc1 Hc2) as (N & x & HN & Hx). fold (dispatch_env M d) in Hx. fold c in Hx.
  assert (x.1.1 ≠ NotYet) as Hend.
  { destruct Hx as [Hx|(s & tr & _ & M' & ->)]; [|done]. destruct c; try done; [by subst x|].
    by destruct Hx as (_ & M' & ->). }
  destruct (run_cpu_reslice M (capi_host_bridge (Some (callback ops text M.(hm_mem_size)))) HG (find_export M export) payloads (S N) (S N) MAX_STEPS (inl d) x)
    as [R HR]; [lia|exact max_steps_pos|done|apply HN; lia|].
  exists R. intros rounds Hr. unfold contract_run. cbv zeta. rewrite HR by done.
  destruct Hx as [Hx|(s & tr & Hs & M' & ->)]; [left|right; by exists s].
  destruct c; try done. destruct Hx as (Hs & M' & ->). done.
Qed.
End harness.

(** ** Theorem *)

(** C13. A contract that ends is run to its end, and as its program says.  For a contract
    that loads, meets [contract_ok] and does not grow its memory, take the function it
    exports in the program its sections describe, its arguments as the dispatcher hands
    them over, and the dispatcher as the environment.  If the reference semantics makes
    the call return or trap, then for some number of rounds and any greater one the
    harness ends.  When the program returns, the harness returns its result translated
    back by the dispatcher, or void, with the host calls the program has made, unless the
    result is no handle of the guest's; when it traps, the harness panics; or the engine
    has used up its stack, its frames or its fuel, and the harness panics. *)
Theorem harness_runs_program `{V : ValRepr} `{L : !ValLaws} {H : Type} (ops : HostOps H) text h
    ps M P export args fuel fd payloads d :
  module_load ps = Ok M → contract_ok ps M export = true → loaded_ok M → no_grow M = true →
  program_of soroban_env ps = Some P → index P.(p_funcs) (find_export M export) = Some (Code fd) →
  len args = fd.(fd_params) → Forall in_u64 args → len args ≤ 2 ^ 31 →
  to_relatives args (start_ctx h M) = (Ok payloads, d) →
  let c := call P (dispatch_env ops text M d) fuel (find_export M export) (store_of M) (rev payloads) in
  c ≠ CStuck → c ≠ CTimeout →
  ∃ R, ∀ rounds, (R ≤ rounds)%nat →
    let e := run_cuwasm_profile ops text h ps export args rounds in
    match c with
    | Returns st rs =>
        ∃ d', context_after ops text M d st.(s_trace) = inl d' ∧ translates d' (rev rs) e
    | CTrapped s _ => program_trap s ∧ e = Panicked "cuwasm run status={} err={}"
    | CStuck | CTimeout => False
    end ∨
    ∃ s, out_of_resources s ∧ (contract_run ops text M export payloads rounds d).1.1 = Finished s [] ∧
      e = Panicked "cuwasm run status={} err={}".
Proof.
  intros Hl Hc HM HG HP Hf Hlen Hargs Hle Ha c Hc1 Hc2.
  destruct (contract_ok_parts _ _ _ Hl Hc) as (HR & Hnul & Hfi & Hcall).
  destruct (to_relatives_spec args (start_ctx h M) Hargs) as (ps' & d0 & Ha' & _ & Hd1 & Hd2 & _);
    [change (len (d_rel _)) with 0; lia|]. rewrite Ha in Ha'. injection Ha' as <- <-.
  destruct (to_relatives_words args (start_ctx h M) Hargs ltac:(change (len (d_rel _)) with 0; lia) _ _ Ha)
    as [Hpw Hpl].
  destruct (contract_run_ends ops text ps M P export fuel fd payloads d) as [R Hends]; try done; [lia|].
  exists R. intros rounds Hrounds e. specialize (Hends rounds Hrounds). cbv zeta in Hends. fold c in Hends.
  destruct (harness_unfold ops text M HR h ps export args rounds payloads d)
    as (d' & Pr & _ & _ & HPr & Hw & He); try done; [by rewrite Hd1, Hd2|]. fold e in He.
  change (run_cpu M (find_export M export) payloads MAX_STEPS _ rounds (inl d)) with
    (contract_run ops text M export payloads rounds d) in Hw, He.
  destruct Hends as [Hx|(s & Hs & Hx)].
  - left. destruct c as [st rs|s tr| |]; try done.
    + rewrite Hx in Hw, He. simpl in Hw, He. exists d'. split; [done|]. rewrite He. by apply read_result_translates.
    + destruct Hx as [Hs Hx]. split; [done|]. rewrite He, Hx. by destruct (program_trap_not _ Hs), s.
  - right. exists s. split_and!; [done..|]. rewrite He, Hx. by destruct Hs as [-> | [-> | ->]].
Qed.

(** ** A contract *)

#[local] Existing Instance sample_val.
#[local] Existing Instance sample_laws.

Definition loaded_okb (M : HostModule) : bool :=
  (len M.(hm_code) <? 2 ^ 32) && (len M.(hm_consts) <? 2 ^ 32) && (len M.(hm_data_blob) <? 2 ^ 32) &&
  (len M.(hm_funcs) <? 2 ^ 32) && (len M.(hm_data_live) <=? 2 ^ 16) &&
  forallb (fun x => (0 <=? x) && (x <? 2 ^ 64)) M.(hm_globals) &&
  forallb (fun x => (0 <=? x) && (x <? 2 ^ 8)) (M.(hm_memory) ++ M.(hm_data_blob)).

Lemma forallb_range n l : forallb (fun x => (0 <=? x) && (x <? n)) l = true → Forall (fun x => 0 ≤ x < n) l.
Proof. rewrite forallb_forall. intros H. apply List.Forall_forall. intros x Hx. specialize (H x Hx). lia. Qed.

Lemma loaded_okb_ok M : loaded_okb M = true → loaded_ok M.
Proof.
  unfold loaded_okb. rewrite !andb_true_iff, forallb_app, andb_true_iff. intros H.
  destruct H as [[[[[[H1 H2] H3] H4] H5] H6] [H7 H8]].
  split; [lia..|by apply forallb_range|by apply forallb_range|by apply forallb_range].
Qed.

Definition echo_program : Prog :=
  Eval vm_compute in default (mkProg [] [] [] [] [] 0) (program_of soroban_env echo_payloads).

(** The function that [echo] exports. *)
Definition echo_func : FuncDef :=
  Eval vm_compute in match echo_program.(p_funcs) !! 1%nat with Some (Code fd) => fd | _ => mkFuncDef 0 0 0 [] end.

(** What the witness needs of the loaded module, the program's end included. *)
Definition echo_ends (M : HostModule) : bool :=
  contract_ok echo_payloads M "echo" && loaded_okb M && no_grow M && (find_export M "echo" =? 1) &&
  match to_relatives [an_object] (start_ctx tt M) with
  | (Ok payloads, d) =>
      match call echo_program (dispatch_env sample_host no_text M d) 20 1 (store_of M) (rev payloads) with
      | Returns st [r] =>
          match context_after sample_host no_text M d st.(s_trace) with
          | inl d' => bool_decide (to_absolute d'.(d_rel) r = Ok an_object) &&
              bool_decide (d'.(d_calls) = [("obj_from_i128_pieces"%string, 2)])
          | _ => false
          end
      | _ => false
      end
  | _ => false
  end.

Lemma echo_ends_loads : ∃ M, module_load echo_payloads = Ok M ∧ echo_ends M = true.
Proof. apply ok_such_that. vm_compute. reflexivity. Qed.

(** The harness returns the object it was given, having recorded the contract's host call. *)
Lemma harness_runs_program_witness :
  ∃ R, ∀ rounds, (R ≤ rounds)%nat →
    let e := run_cuwasm_profile sample_host no_text tt echo_payloads "echo" [an_object] rounds in
    (∃ traces p, e = Returned an_object (mkRunOut [("obj_from_i128_pieces"%string, 2)] traces p)) ∨
    e = Panicked "cuwasm run status={} err={}".
Proof.
  destruct echo_ends_loads as (M & HM & Hb). unfold echo_ends in Hb. rewrite !andb_true_iff in Hb.
  destruct Hb as [[[[Hc Hlo] HG] Hfi%Z.eqb_eq] Hb].
  destruct (to_relatives [an_object] (start_ctx tt M)) as [[payloads|e|e] d] eqn:Ha; [|discriminate Hb..].
  assert (index echo_program.(p_funcs) (find_export M "echo") = Some (Code echo_func)) as Hf
    by (rewrite Hfi; reflexivity).
  destruct (call echo_program (dispatch_env sample_host no_text M d) 20 1 (store_of M) (rev payloads))
    as [st [|r [|]]| | |] eqn:Hcall; try discriminate Hb.
  destruct (harness_runs_program sample_host no_text tt echo_payloads M echo_program "echo" [an_object] 20
    echo_func payloads d) as [R HR]; try rewrite Hfi, Hcall;
    [exact HM|exact Hc|exact (loaded_okb_ok M Hlo)|exact HG|vm_compute; reflexivity|exact Hf|reflexivity
    |exact an_object_word|vm_compute; discriminate|exact Ha|discriminate|discriminate|].
  exists R. intros rounds Hr e. specialize (HR rounds Hr). cbv zeta in HR. rewrite Hfi, Hcall in HR. fold e in HR.
  destruct HR as [(d' & Hd & He)|(s & _ & _ & He)]; [left|right; exact He].
  rewrite Hd in Hb. apply andb_true_iff in Hb as [Hv%bool_decide_eq_true_1 Hcs%bool_decide_eq_true_1].
  cbn [rev app] in He. unfold translates in He. rewrite Hv, Hcs in He. destruct He as (p & _ & He). eauto.
Defined.
